(* ===== verification/_CoqProject ===== *)
-Q . S2P
Prelude.v
Bytes.v
Json.v
Hex.v
PackedEvent.v
FilterSets.v
Filters.v
Config.v
EventParse.v
Db.v
MemDb.v
NegentropyCache.v
EventWriter.v
EventStore.v
StoreTheorems.v
Payload.v
StoreHistory.v
Subscription.v
Monitors.v
MonitorLookups.v
MonitorInv.v
MonitorTheorems.v
Double.v
RateLimit.v
RateLimitTheorems.v
DBQuery.v
DBQueryOrder.v
DBQueryCollect.v
DBScanRun.v
DBQueryCursors.v
DBQueryAnswer.v
DBQueryTheorems.v
DBQueryLiveness.v
QueryScheduler.v
QuerySchedulerTheorems.v
HttpUtil.v
HttpMetrics.v
HttpMonad.v
HttpHandlers.v
HttpServer.v
HttpCounting.v
HttpServerTheorems.v
HttpBatch.v
HttpQueryTheorems.v
QueryWitnesses.v
RelayCron.v
StateExn.v
Plugin.v
RelayServer.v
RelayIngester.v
IngesterTheorems.v
RelayWriter.v
RelayWebsocket.v
WebsocketTheorems.v
WriterTheorems.v
ReqMonitor.v
Handoff.v
WriterPipeline.v
PipelineTheorems.v
RelayNegentropy.v
NegentropyTheorems.v
NegentropyWitnesses.v
ThreadWitnesses.v
Sync.v
SyncTheorems.v
WSConnection.v
Stream.v
StreamTheorems.v
Router.v
RouterTheorems.v
RelayWitnesses.v
MeshWitnesses.v
StreamWitnesses.v
ImportExport.v
Migration.v
HttpPost.v
MonitorCommand.v
Admin.v
AdminTheorems.v
AdminWitnesses.v
