(* ===== verification/Prelude.v ===== *)
(** * A verification library for strfry-http

    strfry-http is a Nostr relay in C++: it keeps signed events in an LMDB
    database, serves them over websockets and over an HTTP API, and
    synchronises with other relays.  This library models the relay's own logic
    as executable functions and proves what they guarantee.  File names below
    without a directory are files of this library; C++ files are named by
    their path under [src/] of the repository.

    ** The program and its model

    An event is a JSON object.  The ingester threads parse and verify it and
    turn it into a packed record; the writer thread passes it to the write
    policy and stores it, with the events it replaces or deletes removed; the
    request worker answers subscriptions from the database and then hands them
    to the request monitor, which follows the database and notifies them; the
    cron thread deletes expired events; the HTTP server queries the database
    directly and posts events through the ingester.

    - Foundations.  [Prelude]: octet strings, 64-bit integers as [N] with their
      wrap-around, the [result] type with the exceptions ([exn];
      [undefined_behaviour] is one that no [catch] stops), loops over lists.
      [Bytes]: string comparison and search, bisection, sorted ranges.
      [StateExn]: state with exceptions, and code that only throws what
      handlers catch.  [Hex]: hexadecimal text.  [Double]: binary64.
    - Data.  [PackedEvent] ([PackedEvent.h]): the packed record, its view and
      builders.  [Json], [EventParse] ([jsonParseUtils.h], [events.h],
      [events.cpp], [Bytes32.h], [misc.cpp]): JSON events, hash and signature,
      timestamps.  [FilterSets], [Filters] ([filters.h]): filters and filter
      groups.  [Subscription] ([Subscription.h]).  [Config]: [golpe.yaml] and
      [apps/relay/golpe.yaml].
    - Store.  [Db] (schema and indices of [golpe.yaml], lookups of
      [events.cpp]), [MemDb] (an engine in memory), [NegentropyCache]
      ([NegentropyFilterCache.h]), [EventWriter], [EventStore],
      [StoreTheorems] ([writeEvents], [deleteEvents]), [Payload]
      ([getEventJson], [Decompressor.h]), [StoreHistory] (how snapshots of the
      store follow each other).
    - Queries.  [DBQuery] ([DBQuery.h]) and its proof files [DBQueryOrder],
      [DBQueryAnswer], [DBQueryCollect], [DBQueryCursors], [DBScanRun],
      [DBQueryTheorems], [DBQueryLiveness]; [QueryScheduler],
      [QuerySchedulerTheorems] ([QueryScheduler.h]).
    - Monitors.  [Monitors], [MonitorLookups], [MonitorInv],
      [MonitorTheorems] ([ActiveMonitors.h]).
    - Relay threads.  [RelayServer] ([RelayServer.h], [ThreadPool.h], the
      outgoing batch of [RelayWebsocket.cpp]); [RelayIngester],
      [IngesterTheorems] ([RelayIngester.cpp]); [Plugin]
      ([PluginEventSifter.h]); [RelayWriter], [WriterTheorems]
      ([RelayWriter.cpp]); [ReqMonitor], [Handoff] ([RelayReqWorker.cpp],
      [RelayReqMonitor.cpp]); [RelayNegentropy], [NegentropyTheorems]
      ([RelayNegentropy.cpp]); [RelayCron] ([RelayCron.cpp]);
      [RelayWebsocket], [WebsocketTheorems] ([RelayWebsocket.cpp], [parseIP]
      of [misc.cpp]); [HttpPost] (the event processor of the HTTP server and
      [checkConfig], [cmd_relay.cpp]).
    - Pipeline and mesh commands.  [WriterPipeline], [PipelineTheorems]
      ([WriterPipeline.h]); [WSConnection] ([WSConnection.h]); [Sync],
      [SyncTheorems] ([apps/mesh/cmd_sync.cpp]); [Stream], [StreamTheorems]
      ([cmd_stream.cpp]); [Router], [RouterTheorems] ([cmd_router.cpp]).  What
      the websocket library does on a call, its callbacks, comes as later
      events of the loop that made the call.
    - Tools.  [ImportExport], [Migration] ([apps/dbutils/cmd_export.cpp],
      [cmd_import.cpp]); [Admin], [AdminTheorems] ([cmd_delete.cpp],
      [cmd_dict.cpp], [cmd_negentropy.cpp], [cmd_scan.cpp], [cmd_info.cpp] and
      the database check of [onAppStartup.cpp]); [MonitorCommand]
      ([cmd_monitor.cpp]).  A command is a function of
      its arguments and of the stores its transactions see.
    - HTTP.  [RateLimit], [RateLimitTheorems] ([RateLimiter.h],
      [RateLimiter.cpp]); [HttpMetrics] ([HttpMetrics.h]); [HttpMonad],
      [HttpUtil], [HttpHandlers], [HttpServer], [HttpCounting],
      [HttpServerTheorems], [HttpBatch], [HttpQueryTheorems] ([HttpServer.h],
      [HttpServer.cpp], [RequestLogger.h]).
    - Concrete instances: [QueryWitnesses], [RelayWitnesses],
      [ThreadWitnesses], [NegentropyWitnesses], [MeshWitnesses],
      [StreamWitnesses], [AdminWitnesses], and the ends of several files.

    A method becomes a function that returns the new object; a shared object
    behind pointers becomes a heap of addresses, and following one that is not
    there is [undefined_behaviour] ([Monitors], [QueryScheduler],
    [RateLimit]).  A thread becomes the body of its loop: a function from the
    messages of its inbox, the snapshot it opens and its variables to its
    variables and the list of [call]s it made.  Logging is left out, except
    the HTTP request log.

    ** What is taken as given

    Code outside the repository is a parameter, with what is relied on as the
    laws of a class: [Hex] (hexadecimal text), [NativeU64] (machine integers in
    keys), [GolpeKeys] and [Env] (LMDB and the generated tables), [JsonParser]
    and [EventLibs] (tao::json, SHA-256, secp256k1), [EnvAdmin] (the tables only the tools
    write), [Zstd] and [ZstdCompress], [PluginOS] (child processes), [NegentropyLib] and [NegentropyClient] (the negentropy library),
    [InetPton] (numeric addresses), [RelayBuild] (the build's version), and [WritePolicy] (what
    the writer needs of a plugin, which [Plugin] implements).  Clocks,
    hash-set orders and [std::sort] are
    arguments.  Every class has a concrete instance in the library, which the
    examples run on.

    ** What is proved

    - Data: packing and viewing are inverse ([PackedEvent]); parsing yields the
      event a JSON object denotes, and an accepted event is authentic and timely
      ([EventParse]); a filter matches exactly what its entries say
      ([Filters]); subscription ids ([Subscription]).
    - Store: [writeEvents] refines an abstract specification and keeps the
      store's invariant; levIds are never reused; the newest event of an address
      wins ([StoreTheorems]); stored JSON is read back ([Payload]).
    - Queries: a query, however often paused, reports exactly what its filters
      answer, and completes; on a database that changes between its slices its
      turns still return ([DBQueryTheorems], [DBQueryLiveness]); the scheduler
      throws only what the query in front throws, follows no dangling pointer,
      and drains: every subscription is answered in full, in slices and one
      completion ([QuerySchedulerTheorems]).
    - Monitors: an event reaches exactly the live subscriptions it matches, and
      the lookup tables always agree with them ([MonitorTheorems]); a
      subscription handed over by a query gets every matching event exactly
      once ([Handoff]).
    - From POST to store: a posted event's promise is resolved once, by the
      ingester or the writer, and a success is justified ([HttpPost]).
    - Threads: the ingester never dies and only admits authentic, allowed, new
      events, and AUTH never succeeds ([IngesterTheorems]); the writer answers
      every event once, and tells of success only who is entitled to it by the
      place of his event in the batch ([WriterTheorems]); only a plugin's answer
      to the very event decides, a failing plugin rejects, and HTTP posts are
      always rejected ([Plugin]); cron deletes exactly
      what expired and never lowers the largest levId ([RelayCron]); negentropy
      sessions stay bounded and safe, but for two openings that end the relay
      ([NegentropyTheorems]); the websocket thread routes every message as an
      abstract table of connections says, its information page depends on the
      first host asked for, and an idle relay told to stop never ends
      ([WebsocketTheorems]).
    - Mesh: the pipeline loses no event and answers every flush
      ([PipelineTheorems]); a session of [sync] moves exactly the difference,
      and can wait for ever ([SyncTheorems]); [stream] uploads exactly what was
      not downloaded since it was last seen, and loses what is stored while it
      is offline ([StreamTheorems]); [router] sends each connection of a group
      that uploads what the filter matches and the plugin accepts, and a reload
      forgets pending reconnections ([RouterTheorems]).
    - Tools: import reads back what export wrote, and a fried export imported
      into an empty store gives the same events and texts ([Migration]);
      deleting removes exactly what the arguments name, a built tree holds
      exactly the matching events (and an array for a filter stops all
      writing), dictionaries never change a text that is read, scanning prints
      the answer, and a blank database is put in good order ([AdminTheorems]);
      [monitor] prints exactly the events of the subscription it watches
      ([MonitorCommand]).
    - HTTP: the rate limiter's caches, pointers and burst, and that its cleanup
      removes nothing ([RateLimitTheorems]); queries and lookups answer as
      specified ([HttpQueryTheorems]); a batch is accepted up to its first
      failure, not atomically ([HttpBatch]); every answered request is counted,
      two pages and refused query parameters excepted, and passes the gate
      ([HttpServerTheorems]); addresses are validated
      ([HttpUtil]).

    ** Fuel

    Loops that are not structural take fuel, and a theorem says that it is
    enough: the tag loop of a packed event runs at most once per octet; a
    cursor of [DBQuery] needs at most three passes over its index
    ([DBQueryCollect]); a scan runs at most once per pending event
    ([DBScanRun]); [scan] with pauses takes a number of slices that depends on
    the store and the filters alone ([AdminTheorems]); the plugin's answers are read at most once per line it has
    still to send ([Plugin.PluginOS]).

    ** Not modelled

    Sockets, signals, resource limits and the start of the threads
    ([cmd_relay.cpp], [RelaySignalHandler.cpp], [onAppStartup.cpp],
    [main.cpp]), which only call the operating system; [cmd_compact.cpp], which
    copies the database file; the command lines themselves, which a library
    parses; the LMDB, JSON, cryptography, compression, websocket and
    negentropy libraries. *)

From stdpp Require Export base gmap list strings sorting pretty.
From Stdlib Require Export Ascii NArith ZArith Lia.

(** ** Octet strings

    [std::string] and [std::string_view] are octet sequences: a list of
    [ascii].  Literals are written [#"text"]. *)

Abbreviation bytes := (list ascii).

Declare Scope bytes_scope.
Delimit Scope bytes_scope with bytes.

Definition bs (s : string) : bytes := String.list_ascii_of_string s.

Notation "# s" := (bs s%string) (at level 5, s at level 4, format "# s") : bytes_scope.
Open Scope bytes_scope.

(** The value of a [uint8_t]. *)
Abbreviation byteN := N_of_ascii.

Definition char_eqb (a b : ascii) : bool := Ascii.eqb a b.

(** ** Machine integers: [uint64_t] as [N] with its wrap-around. *)

Definition two64 : N := 18446744073709551616%N.
Definition MAX_U64 : N := 18446744073709551615%N.

Definition u64_wrap (n : N) : N := (n mod two64)%N.
Definition u64_add (a b : N) : N := u64_wrap (a + b).
Definition u64_sub (a b : N) : N := u64_wrap (a + two64 - b).

Definition is_u64 (n : N) : Prop := (n < two64)%N.

Lemma u64_wrap_bound n : is_u64 (u64_wrap n).
Proof. unfold is_u64, u64_wrap, two64. apply N.mod_lt. done. Qed.

Lemma u64_wrap_small n : is_u64 n → u64_wrap n = n.
Proof. apply N.mod_small. Qed.

Lemma u64_add_small a b : (a + b < two64)%N → u64_add a b = (a + b)%N.
Proof. apply N.mod_small. Qed.

Lemma u64_add_wraps a b :
  is_u64 a → is_u64 b → (two64 ≤ a + b)%N → u64_add a b = (a + b - two64)%N.
Proof.
  unfold is_u64, u64_add, u64_wrap. intros Ha Hb Hle.
  replace (a + b)%N with ((a + b - two64) + 1 * two64)%N at 1 by lia.
  rewrite N.Div0.mod_add. apply N.mod_small. lia.
Qed.

Lemma u64_sub_small a b : is_u64 a → (b ≤ a)%N → u64_sub a b = (a - b)%N.
Proof.
  unfold is_u64, u64_sub, u64_wrap. intros Ha Hle.
  replace (a + two64 - b)%N with ((a - b) + 1 * two64)%N by lia.
  rewrite N.Div0.mod_add. apply N.mod_small. lia.
Qed.

Lemma u64_sub_wraps a b :
  is_u64 b → (a < b)%N → u64_sub a b = (a + two64 - b)%N.
Proof. intros Hb Hlt. apply N.mod_small. unfold is_u64, two64 in *. lia. Qed.

(** ** Exceptions

    [herr] carries the message the source builds; the other constructors are
    the exceptions of the standard library and of the variant accessors.
    [undefined_behaviour] marks an access the language leaves undefined, and
    [fuel_exhausted] is no exception at all: a fuelled loop of the model ran
    out (theorems show where it cannot). *)

Inductive exn : Type :=
  | herr (msg : bytes)
  | bad_variant_access
  | json_error
  | out_of_range
  | invalid_argument
  | length_error
  | undefined_behaviour
  | fuel_exhausted
  | process_exit (status : N).

#[export] Instance exn_eq_dec : EqDecision exn.
Proof. solve_decision. Defined.

(** [undefined_behaviour], [fuel_exhausted] and [process_exit] (the call of
    [::exit]) are no exceptions: no [catch] clause stops them. *)
Definition catchable (e : exn) : bool :=
  match e with undefined_behaviour | fuel_exhausted | process_exit _ => false | _ => true end.

Inductive result (A : Type) : Type :=
  | Ok (a : A)
  | Throw (e : exn).
Arguments Ok {A} a.
Arguments Throw {A} e.

#[export] Instance result_eq_dec `{EqDecision A} : EqDecision (result A).
Proof. solve_decision. Defined.

#[export] Instance result_ret : MRet result := λ A a, Ok a.
#[export] Instance result_bind : MBind result := λ A B f m,
  match m with Ok a => f a | Throw e => Throw e end.
#[export] Instance result_fmap : FMap result := λ A B f m,
  match m with Ok a => Ok (f a) | Throw e => Throw e end.

(** [if (c) throw herr(msg);] *)
Definition throw_if (c : bool) (e : exn) : result unit :=
  if c then Throw e else Ok tt.

Definition is_ok {A} (r : result A) : bool :=
  match r with Ok _ => true | Throw _ => false end.

(** A [for] loop over a container whose body may throw. *)
Fixpoint foldM {S A} (f : S → A → result S) (s : S) (l : list A) : result S :=
  match l with
  | [] => Ok s
  | a :: l => s' ← f s a; foldM f s' l
  end.

Fixpoint mapR {A B} (f : A → result B) (l : list A) : result (list B) :=
  match l with
  | [] => Ok []
  | a :: l => b ← f a; bs' ← mapR f l; Ok (b :: bs')
  end.

Lemma bind_Ok_inv {A B} (m : result A) (f : A → result B) b :
  (m ≫= f) = Ok b → ∃ a, m = Ok a ∧ f a = Ok b.
Proof. destruct m as [a|e]; [by exists a|done]. Qed.

Lemma throw_if_Ok c e u : throw_if c e = Ok u ↔ c = false.
Proof. destruct c, u; naive_solver. Qed.

Lemma foldM_app {S A} (f : S → A → result S) s l1 l2 :
  foldM f s (l1 ++ l2) = (foldM f s l1 ≫= λ s', foldM f s' l2).
Proof.
  revert s. induction l1 as [|a l1 IH]; intros s; [done|].
  simpl. destruct (f s a); simpl; [apply IH|done].
Qed.

(** Loop invariants of [foldM]. *)
Lemma foldM_inv {S A} (P : S → Prop) (f : S → A → result S) l s s' :
  (∀ s a s', a ∈ l → P s → f s a = Ok s' → P s') →
  P s → foldM f s l = Ok s' → P s'.
Proof.
  revert s. induction l as [|a l IH]; intros s Hf HP; simpl.
  - by intros [= <-].
  - intros (s1 & Hs1 & Hrest)%bind_Ok_inv.
    eapply IH; [|eapply Hf|done]; eauto using list_elem_of_here, list_elem_of_further.
Qed.

Lemma mapR_Ok {A B} (f : A → result B) l l' :
  mapR f l = Ok l' ↔ Forall2 (λ a b, f a = Ok b) l l'.
Proof.
  revert l'. induction l as [|a l IH]; intros l'; simpl.
  - split; [intros [= <-]; constructor | by inversion 1].
  - split.
    + intros (b & Hb & (l2 & Hl2 & [= <-])%bind_Ok_inv)%bind_Ok_inv.
      constructor; [done|]. by apply IH.
    + inversion_clear 1 as [|? b ? l2 Hb Hl2]. apply IH in Hl2.
      simpl. by rewrite Hb; simpl; rewrite Hl2.
Qed.

Lemma filter_all {A} (P : A → Prop) `{!∀ x, Decision (P x)} (l : list A) :
  (∀ x, x ∈ l → P x) → filter P l = l.
Proof.
  induction l as [|x l IH]; intros Hall; [done|].
  rewrite filter_cons_True by (apply Hall; constructor).
  f_equal. apply IH. intros. apply Hall. by constructor.
Qed.

(** Peel the successful path of a monadic definition in a hypothesis. *)
Ltac inv_result :=
  repeat match goal with
  | H : (_ ≫= _) = Ok _ |- _ =>
      let a := fresh "r" in let Ha := fresh "Hr" in
      apply bind_Ok_inv in H as (a & Ha & H); simpl in H
  | H : throw_if _ _ = Ok _ |- _ => apply throw_if_Ok in H
  | H : Ok _ = Ok _ |- _ => injection H as H
  | H : Throw _ = Ok _ |- _ => discriminate H
  end.

Ltac case_bool :=
  match goal with
  | H : context [if ?b then _ else _] |- _ => let E := fresh "E" in destruct b eqn:E
  | |- context [if ?b then _ else _] => let E := fresh "E" in destruct b eqn:E
  end.

Create HintDb strfry discriminated.
