(* ===== verification/Bytes.v ===== *)
(** Octet strings and the standard algorithms on sorted ranges.

    [std::string] comparison (lexicographic on unsigned octets, as [memcmp]),
    [substr], [starts_with], [ends_with], [find], and the bisection loop that
    [std::upper_bound], [std::lower_bound] and the hand-written search of
    [FilterSetBytes::doesMatch] share, with its correctness on monotone
    predicates; [std::sort] is a merge sort with a total order (for a total
    antisymmetric order the sorted result is unique, so the algorithm does not
    matter). *)

From S2P Require Import Prelude.

(** ** Lexicographic comparison *)

Fixpoint bytes_compare (a b : bytes) : comparison :=
  match a, b with
  | [], [] => Eq
  | [], _ :: _ => Lt
  | _ :: _, [] => Gt
  | x :: a', y :: b' =>
      match (byteN x ?= byteN y)%N with
      | Eq => bytes_compare a' b'
      | c => c
      end
  end.

(** [a < b] on [std::string]. *)
Definition bytes_ltb (a b : bytes) : bool :=
  match bytes_compare a b with Lt => true | _ => false end.

Definition bytes_le (a b : bytes) : Prop := bytes_compare a b ≠ Gt.

Lemma byteN_inj a b : byteN a = byteN b → a = b.
Proof. intros H. by rewrite <-(ascii_N_embedding a), H, ascii_N_embedding. Qed.

Lemma bytes_compare_refl a : bytes_compare a a = Eq.
Proof. induction a as [|x a IH]; simpl; [done|]. by rewrite N.compare_refl. Qed.

Lemma bytes_compare_eq a b : bytes_compare a b = Eq ↔ a = b.
Proof.
  split; [|intros ->; apply bytes_compare_refl].
  revert b. induction a as [|x a IH]; intros [|y b]; simpl; try done.
  destruct (byteN x ?= byteN y)%N eqn:E; try done.
  apply N.compare_eq_iff, byteN_inj in E as ->. intros H. by rewrite (IH b H).
Qed.

Lemma bytes_compare_antisym a b : bytes_compare b a = CompOpp (bytes_compare a b).
Proof.
  revert b. induction a as [|x a IH]; intros [|y b]; simpl; try done.
  rewrite N.compare_antisym. destruct (byteN x ?= byteN y)%N; simpl; auto.
Qed.

Lemma bytes_compare_lt_trans a b c :
  bytes_compare a b = Lt → bytes_compare b c = Lt → bytes_compare a c = Lt.
Proof.
  revert b c. induction a as [|x a IH]; intros [|y b] [|z c]; simpl; try done.
  destruct (byteN x ?= byteN y)%N eqn:E1; destruct (byteN y ?= byteN z)%N eqn:E2;
    try done; intros.
  - apply N.compare_eq_iff in E1, E2. rewrite E1, E2, N.compare_refl. eauto.
  - apply N.compare_eq_iff in E1. by rewrite E1, E2.
  - apply N.compare_eq_iff in E2. by rewrite <-E2, E1.
  - rewrite N.compare_lt_iff in E1, E2.
    assert ((byteN x ?= byteN z)%N = Lt) as -> by (apply N.compare_lt_iff; lia). done.
Qed.

#[export] Instance bytes_le_dec : RelDecision bytes_le.
Proof. intros a b. unfold bytes_le. solve_decision. Defined.

#[export] Instance bytes_le_refl : Reflexive bytes_le.
Proof. intros a. unfold bytes_le. by rewrite bytes_compare_refl. Qed.

#[export] Instance bytes_le_antisym : AntiSymm (=) bytes_le.
Proof.
  intros a b. unfold bytes_le. rewrite (bytes_compare_antisym a b).
  destruct (bytes_compare a b) eqn:E; simpl; try done.
  intros _ _. by apply bytes_compare_eq.
Qed.

#[export] Instance bytes_le_total : Total bytes_le.
Proof.
  intros a b. unfold bytes_le. rewrite (bytes_compare_antisym a b).
  destruct (bytes_compare a b); simpl; auto.
Qed.

#[export] Instance bytes_le_trans : Transitive bytes_le.
Proof.
  intros a b c. unfold bytes_le.
  destruct (bytes_compare a b) eqn:E1; [apply bytes_compare_eq in E1 as ->; done| |done].
  intros _. destruct (bytes_compare b c) eqn:E2; [| |done].
  - apply bytes_compare_eq in E2 as ->. by rewrite E1.
  - by rewrite (bytes_compare_lt_trans _ _ _ E1 E2).
Qed.

Lemma bytes_ltb_lt a b : bytes_ltb a b = true ↔ bytes_le a b ∧ a ≠ b.
Proof.
  unfold bytes_ltb, bytes_le. destruct (bytes_compare a b) eqn:E.
  - apply bytes_compare_eq in E. naive_solver.
  - split; [|done]. intros _. split; [done|]. intros ->.
    by rewrite bytes_compare_refl in E.
  - naive_solver.
Qed.

Lemma bytes_ltb_ge a b : bytes_ltb a b = false ↔ bytes_le b a.
Proof.
  unfold bytes_ltb, bytes_le. rewrite (bytes_compare_antisym a b).
  destruct (bytes_compare a b); simpl; split; congruence.
Qed.

Lemma bytes_compare_app a b c : bytes_compare (a ++ b) (a ++ c) = bytes_compare b c.
Proof. induction a as [|x a IH]; simpl; [done|]. by rewrite N.compare_refl. Qed.

(** ** Substrings and searching *)

(** [s.substr(pos, len)] *)
Definition substr (s : bytes) (pos len : nat) : result bytes :=
  if decide (length s < pos) then Throw out_of_range
  else Ok (take len (drop pos s)).

(** [s.substr(pos)] *)
Definition substr_from (s : bytes) (pos : nat) : result bytes :=
  if decide (length s < pos) then Throw out_of_range else Ok (drop pos s).

Fixpoint starts_with (s p : bytes) {struct p} : bool :=
  match p, s with
  | [], _ => true
  | x :: p', y :: s' => Ascii.eqb x y && starts_with s' p'
  | _ :: _, [] => false
  end.

Definition ends_with (s p : bytes) : bool := starts_with (rev s) (rev p).

Lemma starts_with_spec s p : starts_with s p = true ↔ ∃ r, s = p ++ r.
Proof.
  revert s. induction p as [|x p IH]; intros s; simpl.
  { split; [intros _; by exists s|done]. }
  destruct s as [|y s]; [split; [done|by intros [r Hr]]|].
  rewrite andb_true_iff, Ascii.eqb_eq, IH. split.
  - intros [-> [r ->]]. by exists r.
  - intros [r [= -> ->]]. split; [done|]. by exists r.
Qed.

(** [s.find(p)]: index of the first occurrence, [None] for [npos]. *)
Fixpoint find_sub (s p : bytes) : option nat :=
  if starts_with s p then Some 0
  else match s with
       | [] => None
       | _ :: s' => S <$> find_sub s' p
       end.

Lemma find_sub_Some s p i :
  find_sub s p = Some i → ∃ r, s = take i s ++ p ++ r ∧ i + length p ≤ length s.
Proof.
  revert i. induction s as [|x s IH]; intros i; simpl.
  - destruct (starts_with [] p) eqn:E; [|done]. intros [= <-].
    apply starts_with_spec in E as [r Hr]. exists r. split; [done|].
    destruct p; [simpl; lia|done].
  - destruct (starts_with (x :: s) p) eqn:E.
    + intros [= <-]. apply starts_with_spec in E as [r Hr]. exists r.
      split; [done|]. simpl. change (S (length s)) with (length (x :: s)).
      rewrite Hr, length_app. lia.
    + intros (j & Hj & ->)%fmap_Some. destruct (IH j Hj) as (r & Hs & Hlen).
      exists r. simpl. split; [by f_equal|lia].
Qed.

(** ** The bisection loop

    [first], [count] and the probe as in [filters.h]; [go_right] is the
    negated comparison of the loop body, [None] when the probe reads outside
    the container.  [count] halves on each round, so [count] itself is enough
    fuel ([bisect_spec]). *)
Fixpoint bisect (fuel : nat) (go_right : nat → option bool) (first count : nat)
    : option nat :=
  match fuel with
  | O => if count =? 0 then Some first else None
  | S fuel =>
      if count =? 0 then Some first
      else
        let step := Nat.div2 count in
        let curr := first + step in
        match go_right curr with
        | None => None
        | Some true => bisect fuel go_right (S curr) (count - (step + 1))
        | Some false => bisect fuel go_right first step
        end
  end.

Lemma bisect_spec fuel g first count k :
  count ≤ fuel → first ≤ k → k ≤ first + count →
  (∀ i, first ≤ i → i < k → g i = Some true) →
  (∀ i, k ≤ i → i < first + count → g i = Some false) →
  bisect fuel g first count = Some k.
Proof.
  revert first count. induction fuel as [|fuel IH]; intros first count Hf H1 H2 Ht Hr; simpl.
  - assert (count = 0) as -> by lia. simpl. f_equal. lia.
  - destruct (Nat.eqb_spec count 0) as [->|Hc]; [f_equal; lia|].
    assert (Nat.div2 count < count) as Hdiv by (apply Nat.lt_div2; lia).
    generalize dependent (Nat.div2 count). intros h Hdiv.
    destruct (decide (first + h < k)) as [Hlt|Hge].
    + rewrite Ht by lia. apply IH; try lia; intros; [apply Ht|apply Hr]; lia.
    + rewrite Hr by lia. apply IH; try lia; intros; [apply Ht|apply Hr]; lia.
Qed.

(** ** Sorted ranges *)

Lemma StronglySorted_lookup {A} (R : relation A) l i j x y :
  StronglySorted R l → l !! i = Some x → l !! j = Some y → i < j → R x y.
Proof.
  intros Hs. revert i j. induction Hs as [|z l Hs IH Hz]; intros i j Hi Hj Hij; [done|].
  destruct j as [|j]; [lia|]. simpl in Hj. destruct i as [|i]; simpl in Hi.
  - simplify_eq. rewrite Forall_forall in Hz. apply Hz. by eapply list_elem_of_lookup_2.
  - eapply IH; eauto. lia.
Qed.

Section sorted_range.
Context {A : Type} (R : relation A) `{!RelDecision R}.
Context `{!Reflexive R, !Transitive R, !AntiSymm (=) R, !Total R}.

(** [std::sort(v.begin(), v.end())] *)
Definition std_sort (l : list A) : list A := merge_sort R l.

Lemma std_sort_sorted l : StronglySorted R (std_sort l).
Proof. apply (StronglySorted_merge_sort R). Qed.

Lemma std_sort_Permutation l : std_sort l ≡ₚ l.
Proof. apply merge_sort_Permutation. Qed.

Lemma elem_of_std_sort x l : x ∈ std_sort l ↔ x ∈ l.
Proof. by rewrite std_sort_Permutation. Qed.

(** Number of elements not greater than the candidate. *)
Definition count_le (c : A) (l : list A) : nat :=
  length (filter (λ x, R x c) l).

Lemma count_le_lookup c l i x :
  StronglySorted R l → l !! i = Some x → R x c ↔ i < count_le c l.
Proof.
  intros Hs. revert i. unfold count_le.
  induction Hs as [|y l Hs IH Hy]; intros i Hi; [done|].
  rewrite filter_cons. destruct (decide (R y c)) as [Hyc|Hyc]; simpl.
  - destruct i as [|i]; simpl in Hi; simplify_eq; [split; [lia|done]|].
    rewrite (IH i Hi). lia.
  - assert (∀ z, z ∈ l → ¬ R z c) as Hno.
    { rewrite Forall_forall in Hy. intros z Hz Hzc. apply Hyc.
      transitivity z; auto. }
    replace (filter (λ z, R z c) l) with (@nil A); simpl.
    + split; [|lia]. intros Hx. exfalso. destruct i as [|i]; simpl in Hi; simplify_eq; [done|].
      eapply Hno, Hx. eapply list_elem_of_lookup_2, Hi.
    + symmetry. apply elem_of_nil_inv. intros z [? ?]%list_elem_of_filter.
      eapply Hno; eauto.
Qed.

Lemma count_le_length c l : count_le c l ≤ length l.
Proof. apply length_filter. Qed.

(** The element a bisection for the upper bound stops after is the
    candidate exactly when the candidate is in the range. *)
Lemma sorted_mem_pred_count c l :
  StronglySorted R l →
  c ∈ l ↔ ∃ i, count_le c l = S i ∧ l !! i = Some c.
Proof.
  intros Hs. split; [|intros (i & _ & Hi); by eapply list_elem_of_lookup_2].
  intros Hc. pose proof (count_le_length c l) as Hlen.
  destruct (count_le c l) as [|k] eqn:Ek.
  { apply list_elem_of_lookup in Hc as [i Hi].
    pose proof (proj1 (count_le_lookup c l i c Hs Hi) (reflexivity c)). lia. }
  exists k. split; [done|].
  destruct (lookup_lt_is_Some_2 l k) as [x Hx]; [lia|].
  rewrite Hx. f_equal.
  assert (R x c) as Hxc by (apply (count_le_lookup c l k x Hs Hx); lia).
  apply list_elem_of_lookup in Hc as [j Hj].
  assert (j ≤ k) by (pose proof (proj1 (count_le_lookup c l j c Hs Hj) (reflexivity c)); lia).
  apply (anti_symm R); [done|].
  destruct (decide (j = k)) as [->|]; [rewrite Hx in Hj; by simplify_eq|].
  eapply (StronglySorted_lookup R l j k); eauto. lia.
Qed.
End sorted_range.

(** One element of each run of equal elements: the loop that compares an
    element with its predecessor, and [std::unique] when there is none yet. *)
Fixpoint uniq_from `{EqDecision A} (prev : option A) (l : list A) : list A :=
  match l with
  | [] => []
  | x :: l =>
      if decide (prev = Some x) then uniq_from prev l else x :: uniq_from (Some x) l
  end.

(** [v.erase(std::unique(v.begin(), v.end()), v.end())] *)
Definition std_unique `{EqDecision A} (l : list A) : list A := uniq_from None l.

Section uniq.
Context {A : Type} `{EqDecision A} (R : relation A) `{!AntiSymm (=) R, !Transitive R}.

Implicit Types (x : A) (l : list A) (prev : option A).

Definition strict_le (x y : A) : Prop := R x y ∧ x ≠ y.

Lemma elem_of_uniq_from x prev l :
  x ∈ uniq_from prev l → x ∈ l.
Proof.
  revert prev. induction l as [|y l IH]; intros prev; simpl; [done|].
  case_decide; [intros ?%IH; by constructor|].
  intros [->|H']%elem_of_cons; [by constructor|constructor; by eapply IH].
Qed.

Lemma elem_of_uniq_from_2 x prev l :
  x ∈ l → x ∈ uniq_from prev l ∨ prev = Some x.
Proof.
  revert prev. induction l as [|y l IH]; intros prev Hx; simpl; [inversion Hx|].
  case_decide as Hp.
  - apply elem_of_cons in Hx as [->|Hx]; auto.
  - left. apply elem_of_cons in Hx as [->|Hx]; [constructor|].
    destruct (IH (Some y) Hx) as [?|[= ->]]; constructor; done.
Qed.

Lemma elem_of_std_unique x l : x ∈ std_unique l ↔ x ∈ l.
Proof.
  split; [apply elem_of_uniq_from|].
  intros Hx. by destruct (elem_of_uniq_from_2 x None l Hx).
Qed.

Lemma uniq_from_strict prev l :
  StronglySorted R l → (∀ p, prev = Some p → Forall (R p) l) →
  StronglySorted strict_le (uniq_from prev l) ∧
  (∀ p, prev = Some p → Forall (strict_le p) (uniq_from prev l)).
Proof.
  intros Hs. revert prev. induction Hs as [|x l Hs IH Hx]; intros prev Hp; simpl.
  { split; constructor. }
  case_decide as Heq.
  - apply IH. intros p ->. specialize (Hp p eq_refl). by inversion Hp.
  - destruct (IH (Some x)) as [H1 H2]; [naive_solver|]. specialize (H2 x eq_refl).
    split; [by constructor|]. intros p ->. specialize (Hp p eq_refl).
    inversion_clear Hp as [|? ? Hpx Hpl].
    assert (strict_le p x) as Hpx' by (split; [done|congruence]).
    constructor; [done|]. apply Forall_forall. intros y Hy.
    rewrite Forall_forall in H2. destruct (H2 y Hy) as [Hxy Hne].
    split; [by transitivity x|]. intros ->. apply Hne. by apply (anti_symm R).
Qed.

Lemma std_unique_strict l : StronglySorted R l → StronglySorted strict_le (std_unique l).
Proof. intros Hs. by apply (uniq_from_strict None l). Qed.

Lemma strict_sorted_le l : StronglySorted strict_le l → StronglySorted R l.
Proof.
  induction 1 as [|x l Hs IH Hx]; constructor; [done|].
  eapply Forall_impl; [done|]. by intros y [].
Qed.

Lemma strict_sorted_NoDup l : StronglySorted strict_le l → NoDup l.
Proof.
  induction 1 as [|x l Hs IH Hx]; constructor; [|done].
  intros Hin. rewrite Forall_forall in Hx. by destruct (Hx x Hin).
Qed.
End uniq.

Lemma StronglySorted_filter' {A} (R : A → A → Prop) (P : A → Prop) `{!∀ x, Decision (P x)} l :
  StronglySorted R l → StronglySorted R (filter P l).
Proof.
  induction 1 as [|x l Hs IH Hx]; [constructor|]. rewrite filter_cons.
  destruct (decide (P x)); [|done]. constructor; [done|].
  rewrite List.Forall_forall in Hx |- *. intros y Hy%list_elem_of_In.
  apply list_elem_of_filter in Hy as [_ Hy]. apply Hx. by apply list_elem_of_In.
Qed.

Lemma StronglySorted_rev' {A} (R : A → A → Prop) l :
  StronglySorted R l → StronglySorted (λ x y, R y x) (rev l).
Proof.
  induction 1 as [|x l Hs IH Hx]; [constructor|]. simpl.
  apply StronglySorted_app. split_and!; [|done|by repeat constructor].
  intros a b Ha ->%list_elem_of_singleton. rewrite List.Forall_forall in Hx.
  apply Hx. apply list_elem_of_In in Ha. by apply in_rev.
Qed.

(** [std::getline(ss, item, ',')] until the stream ends; [acc] is what the
    current item has so far. *)
Fixpoint getline_all (s acc : bytes) : list bytes :=
  match s with
  | [] => if length acc =? 0 then [] else [acc]
  | c :: s => if char_eqb c "," then acc :: getline_all s [] else getline_all s (acc ++ [c])
  end.
