(* ===== verification/Json.v ===== *)
(** JSON values and the accessors of [jsonParseUtils.h].

    [tao::json::value] is a variant; an object is a map iterated in ascending
    key order, written here as the list of its entries in that order.  Parsing
    and printing belong to the library and are parameters where they are
    used. *)

From S2P Require Import Prelude Bytes.
From Stdlib Require Import SpecFloat.

(** [tao::json] parses a non-negative integer as unsigned, a negative one as
    signed, and anything with a fraction or an exponent as a double. *)
Inductive value : Type :=
  | JNull
  | JBool (b : bool)
  | JSigned (z : Z)
  | JUnsigned (n : N)
  | JDouble (d : spec_float)
  | JString (s : bytes)
  | JArray (l : list value)
  | JObject (kvs : list (bytes * value)).

Definition is_string (v : value) : bool :=
  match v with JString _ => true | _ => false end.
Definition is_unsigned (v : value) : bool :=
  match v with JUnsigned _ => true | _ => false end.
Definition is_array (v : value) : bool :=
  match v with JArray _ => true | _ => false end.
Definition is_object (v : value) : bool :=
  match v with JObject _ => true | _ => false end.
Definition is_number (v : value) : bool :=
  match v with JSigned _ | JUnsigned _ | JDouble _ => true | _ => false end.

(** The typed getters throw when the variant holds another alternative. *)
Definition get_string (v : value) : result bytes :=
  match v with JString s => Ok s | _ => Throw bad_variant_access end.
Definition get_unsigned (v : value) : result N :=
  match v with JUnsigned n => Ok n | _ => Throw bad_variant_access end.
Definition get_array (v : value) : result (list value) :=
  match v with JArray l => Ok l | _ => Throw bad_variant_access end.
Definition get_object (v : value) : result (list (bytes * value)) :=
  match v with JObject kvs => Ok kvs | _ => Throw bad_variant_access end.

Fixpoint assoc (k : bytes) (kvs : list (bytes * value)) : option value :=
  match kvs with
  | [] => None
  | (k', v) :: kvs => if decide (k = k') then Some v else assoc k kvs
  end.

(** [v.at(key)] *)
Definition at_key (v : value) (k : bytes) : result value :=
  kvs ← get_object v;
  match assoc k kvs with Some x => Ok x | None => Throw out_of_range end.

(** [jsonParseUtils.h] *)
Definition jsonGetString (v : value) (errMsg : bytes) : result bytes :=
  match v with JString s => Ok s | _ => Throw (herr errMsg) end.

Definition jsonGetUnsigned (v : value) (errMsg : bytes) : result N :=
  match v with JUnsigned n => Ok n | _ => Throw (herr errMsg) end.

Definition jsonGetArray (v : value) (errMsg : bytes) : result (list value) :=
  match v with JArray l => Ok l | _ => Throw (herr errMsg) end.

(** [std::to_string] of a size, as the error messages concatenate it. *)
Definition show_nat (n : nat) : bytes := bs (pretty n).

Lemma jsonGetString_Ok v m s : jsonGetString v m = Ok s ↔ v = JString s.
Proof. destruct v; naive_solver. Qed.

Lemma jsonGetUnsigned_Ok v m n : jsonGetUnsigned v m = Ok n ↔ v = JUnsigned n.
Proof. destruct v; naive_solver. Qed.

Lemma jsonGetArray_Ok v m l : jsonGetArray v m = Ok l ↔ v = JArray l.
Proof. destruct v; naive_solver. Qed.

Lemma get_string_Ok v s : get_string v = Ok s ↔ v = JString s.
Proof. destruct v; naive_solver. Qed.

Lemma get_unsigned_Ok v n : get_unsigned v = Ok n ↔ v = JUnsigned n.
Proof. destruct v; naive_solver. Qed.

Lemma get_array_Ok v l : get_array v = Ok l ↔ v = JArray l.
Proof. destruct v; naive_solver. Qed.

Lemma get_object_Ok v kvs : get_object v = Ok kvs ↔ v = JObject kvs.
Proof. destruct v; naive_solver. Qed.

Lemma assoc_Some_elem k kvs v : assoc k kvs = Some v → (k, v) ∈ kvs.
Proof.
  induction kvs as [|[k' v'] kvs IH]; simpl; [done|].
  case_decide as Hk; [intros [= ->]; subst; constructor|].
  intros ?. constructor 2. auto.
Qed.

Lemma elem_assoc k kvs v : NoDup kvs.*1 → (k, v) ∈ kvs → assoc k kvs = Some v.
Proof.
  induction kvs as [|[k' v'] kvs IH]; simpl; [intros _ H; inversion H|].
  intros [Hk Hnd]%NoDup_cons [H|H]%elem_of_cons.
  - injection H as -> ->. by rewrite decide_True.
  - rewrite decide_False; [by apply IH|]. intros ->. apply Hk.
    by eapply (list_elem_of_fmap_2 fst) in H.
Qed.

(** [obj[k] = v] on a JSON object, whose keys ascend. *)
Fixpoint set_field (k : bytes) (v : value) (kvs : list (bytes * value)) : list (bytes * value) :=
  match kvs with
  | [] => [(k, v)]
  | (k', v') :: kvs =>
      if decide (k = k') then (k, v) :: kvs
      else if bytes_ltb k k' then (k, v) :: (k', v') :: kvs
      else (k', v') :: set_field k v kvs
  end.

Create Rewrite HintDb json_ok.
#[export] Hint Rewrite jsonGetString_Ok jsonGetUnsigned_Ok jsonGetArray_Ok
  get_string_Ok get_unsigned_Ok get_array_Ok get_object_Ok : json_ok.

(** Split the successful path of JSON-reading code into facts on the value. *)
Ltac inv_json := inv_result; autorewrite with json_ok in *; subst.

(** Every unsigned number in the value is a [uint64_t]. *)
Fixpoint json_u64 (v : value) : bool :=
  match v with
  | JUnsigned n => (n <? two64)%N
  | JArray l => forallb json_u64 l
  | JObject kvs => forallb (λ kv, json_u64 kv.2) kvs
  | _ => true
  end.

Lemma json_u64_elem l v : json_u64 (JArray l) = true → v ∈ l → json_u64 v = true.
Proof.
  cbn [json_u64]. intros Hl Hv. rewrite forallb_forall in Hl. by apply Hl, list_elem_of_In.
Qed.

Lemma json_u64_at v k x : json_u64 v = true → at_key v k = Ok x → json_u64 x = true.
Proof.
  destruct v; try done. cbn [json_u64 at_key get_object mbind result_bind].
  intros Hl. destruct (assoc k kvs) as [y|] eqn:E; [|done].
  intros [= <-]. rewrite forallb_forall in Hl.
  apply (Hl (k, y)), list_elem_of_In, assoc_Some_elem, E.
Qed.

(** ** Parsing

    [tao::json::from_string]; an object is a [std::map], so its keys are
    distinct; unsigned numbers have 64 bits, and a text that does not parse is
    an exception. *)

Class JsonParser := {
  json_from_string : bytes → result value;
  json_from_string_keys : ∀ s kvs, json_from_string s = Ok (JObject kvs) → NoDup kvs.*1;
  json_from_string_error : ∀ s e, json_from_string s = Throw e → e = json_error;
  json_from_string_u64 : ∀ s v, json_from_string s = Ok v → json_u64 v = true;
}.
