(* ===== verification/Hex.v ===== *)
(** Hexadecimal text.

    [from_hex] and [to_hex] come from a library; the class states what the
    relay relies on, for the calls that refuse a prefix ([from_hex(s, false)]).
    [hex_lower] is a concrete codec that satisfies it. *)

From S2P Require Import Prelude Bytes.

Class Hex := {
  from_hex : bytes → bool → result bytes;
  to_hex : bytes → bytes;
  from_hex_length : ∀ s b, from_hex s false = Ok b → length s = 2 * length b;
  to_hex_length : ∀ b, length (to_hex b) = 2 * length b;
  from_to_hex : ∀ b, from_hex (to_hex b) false = Ok b;
  to_hex_digits : ∀ b, to_hex b ⊆ #"0123456789abcdef";
}.

Definition hex_digit (n : N) : ascii :=
  if (n <? 10)%N then ascii_of_N (48 + n) else ascii_of_N (87 + n).

Definition hex_value (c : ascii) : option N :=
  let n := byteN c in
  if ((48 <=? n) && (n <=? 57))%N then Some (n - 48)%N
  else if ((97 <=? n) && (n <=? 102))%N then Some (n - 87)%N
  else if ((65 <=? n) && (n <=? 70))%N then Some (n - 55)%N
  else None.

Fixpoint hex_encode (b : bytes) : bytes :=
  match b with
  | [] => []
  | x :: b => hex_digit (byteN x / 16) :: hex_digit (byteN x mod 16) :: hex_encode b
  end.

Fixpoint hex_decode (s : bytes) : result bytes :=
  match s with
  | [] => Ok []
  | [_] => Throw (herr #"from_hex: odd length")
  | h :: l :: s =>
      match hex_value h, hex_value l with
      | Some hv, Some lv => b ← hex_decode s; Ok (ascii_of_N (16 * hv + lv) :: b)
      | _, _ => Throw (herr #"from_hex: bad character")
      end
  end.

Lemma hex_value_digit n : (n < 16)%N → hex_value (hex_digit n) = Some n.
Proof.
  intros Hn. assert (n ∈ (N.of_nat <$> seq 0 16)) as Hin.
  { apply list_elem_of_fmap. exists (N.to_nat n). split; [lia|]. apply elem_of_seq. lia. }
  simpl in Hin. repeat (apply elem_of_cons in Hin as [->|Hin]; [reflexivity|]).
  inversion Hin.
Qed.

Lemma hex_encode_length b : length (hex_encode b) = 2 * length b.
Proof. induction b as [|x b IH]; simpl; lia. Qed.

Lemma hex_decode_encode b : hex_decode (hex_encode b) = Ok b.
Proof.
  induction b as [|x b IH]; [done|]. cbn [hex_encode hex_decode].
  pose proof (N_ascii_bounded x).
  rewrite !hex_value_digit by (try apply N.mod_lt; try apply N.Div0.div_lt_upper_bound; lia).
  rewrite IH. simpl. f_equal. f_equal.
  rewrite <-N.div_mod by done. apply ascii_N_embedding.
Qed.

Lemma hex_digit_elem n : (n < 16)%N → hex_digit n ∈ #"0123456789abcdef".
Proof.
  intros Hn. assert (n ∈ (N.of_nat <$> seq 0 16)) as Hin.
  { apply list_elem_of_fmap. exists (N.to_nat n). split; [lia|]. apply elem_of_seq. lia. }
  simpl in Hin. repeat (apply elem_of_cons in Hin as [->|Hin]; [by apply (bool_decide_unpack _)|]).
  inversion Hin.
Qed.

Lemma hex_encode_digits b : hex_encode b ⊆ #"0123456789abcdef".
Proof.
  induction b as [|x b IH]; [by intros c []%not_elem_of_nil|]. cbn [hex_encode].
  pose proof (N_ascii_bounded x).
  intros c [->|[->|Hc]%elem_of_cons]%elem_of_cons; [| |by apply IH];
    apply hex_digit_elem; [apply N.Div0.div_lt_upper_bound; lia|by apply N.mod_lt].
Qed.

Lemma hex_decode_length s b : hex_decode s = Ok b → length s = 2 * length b.
Proof.
  revert b. induction s as [s IH] using (induction_ltof1 _ (@length ascii)).
  intros b. destruct s as [|h [|l s]]; simpl; [by intros [= <-]|done|].
  destruct (hex_value h); [|done]. destruct (hex_value l); [|done].
  intros Hd. inv_result. subst. simpl. apply IH in Hr; [lia|]. unfold ltof. simpl. lia.
Qed.

#[refine, export] Instance hex_lower : Hex :=
  {| from_hex s _ := hex_decode s; to_hex := hex_encode |}.
Proof.
  - apply hex_decode_length.
  - apply hex_encode_length.
  - apply hex_decode_encode.
  - apply hex_encode_digits.
Defined.
