(* ===== verification/PackedEvent.v ===== *)
(** The packed event format ([PackedEvent.h]).

    [PackedEventView], [PackedEventTagBuilder] and [PackedEventBuilder] are the
    source's; [event] is the abstract record a packed buffer stands for and
    [encode] its layout.  Integers are copied in the machine's representation
    by [lmdb::to_sv] / [lmdb::from_sv], which the class [NativeU64] abstracts
    ([docs/fried.md] says little-endian, the instance [native_le]). *)

From S2P Require Import Prelude Bytes.

(** ** Native representation of a [uint64_t] *)

Class NativeU64 := {
  to_sv64 : N → bytes;
  from_sv64 : bytes → N;
  to_sv64_length : ∀ n, length (to_sv64 n) = 8;
  from_to_sv64 : ∀ n, is_u64 n → from_sv64 (to_sv64 n) = n;
  to_from_sv64 : ∀ b, length b = 8 → to_sv64 (from_sv64 b) = b;
  from_sv64_bound : ∀ b, length b = 8 → is_u64 (from_sv64 b);
  to_sv64_max : to_sv64 MAX_U64 = replicate 8 "255"%char;
}.

Fixpoint le_encode (k : nat) (n : N) : bytes :=
  match k with
  | O => []
  | S k => ascii_of_N (n mod 256) :: le_encode k (n / 256)
  end.

Fixpoint le_decode (b : bytes) : N :=
  match b with
  | [] => 0
  | x :: b => byteN x + 256 * le_decode b
  end.

Lemma le_encode_length k n : length (le_encode k n) = k.
Proof. revert n. induction k; simpl; auto. Qed.

Lemma le_decode_encode k n : (n < 256 ^ N.of_nat k)%N → le_decode (le_encode k n) = n.
Proof.
  revert n. induction k as [|k IH]; intros n Hn; simpl.
  { change (256 ^ N.of_nat 0)%N with 1%N in Hn. lia. }
  rewrite N_ascii_embedding by (apply N.mod_lt; lia).
  rewrite IH.
  - pose proof (N.div_mod n 256). lia.
  - apply N.Div0.div_lt_upper_bound. by rewrite <-N.pow_succ_r', <-Nat2N.inj_succ.
Qed.

Lemma le_decode_bound b : (le_decode b < 256 ^ N.of_nat (length b))%N.
Proof.
  induction b as [|x b IH]; [done|]. cbn [le_decode length].
  rewrite Nat2N.inj_succ, N.pow_succ_r'. pose proof (N_ascii_bounded x). lia.
Qed.

Lemma le_encode_decode b : le_encode (length b) (le_decode b) = b.
Proof.
  induction b as [|x b IH]; [done|]. cbn [le_decode length le_encode].
  pose proof (N_ascii_bounded x).
  rewrite (N.add_comm (byteN x)), (N.mul_comm 256), N.div_add_l by lia.
  rewrite (N.div_small (byteN x)), N.add_0_r by done. f_equal; [|done].
  rewrite N.add_comm, N.Div0.mod_add, N.mod_small by done. apply ascii_N_embedding.
Qed.

#[refine, export] Instance native_le : NativeU64 :=
  {| to_sv64 := le_encode 8; from_sv64 := le_decode |}.
Proof.
  - intros n. apply le_encode_length.
  - intros n. apply (le_decode_encode 8).
  - intros b Hb. rewrite <-Hb. apply le_encode_decode.
  - intros b Hb. pose proof (le_decode_bound b) as H. by rewrite Hb in H.
  - by vm_compute.
Defined.

(** ** The view *)

Record PackedEventView := mk_view { buf : bytes }.

Definition sv_sub (b : bytes) (pos len : nat) : bytes := take len (drop pos b).

(** The constructor. *)
Definition view (s : bytes) : result PackedEventView :=
  _ ← throw_if (length s <? 88) (herr #"PackedEventView too short");
  Ok (mk_view s).

Section view.
Context `{!NativeU64}.

Definition id (v : PackedEventView) : bytes := sv_sub (buf v) 0 32.
Definition pubkey (v : PackedEventView) : bytes := sv_sub (buf v) 32 32.
Definition created_at (v : PackedEventView) : N := from_sv64 (sv_sub (buf v) 64 8).
Definition kind (v : PackedEventView) : N := from_sv64 (sv_sub (buf v) 72 8).
Definition expiration (v : PackedEventView) : N := from_sv64 (sv_sub (buf v) 80 8).
End view.

(** [foreachTag]: the callback threads a state and says whether to go on.
    [b[1]] on a one-octet remainder reads past the end of the view. *)
Fixpoint foreachTag_loop {S} (fuel : nat) (cb : S → ascii → bytes → result (S * bool))
    (b : bytes) (st : S) : result S :=
  match b with
  | [] => Ok st
  | tagName :: b1 =>
      match fuel with
      | O => Throw undefined_behaviour
      | Datatypes.S fuel =>
          match b1 with
          | [] => Throw undefined_behaviour
          | lenByte :: _ =>
              let tagLen := N.to_nat (byteN lenByte) in
              tagVal ← substr b 2 tagLen;
              '(st', ret) ← cb st tagName tagVal;
              if (ret : bool) then
                b' ← substr_from b (2 + tagLen);
                foreachTag_loop fuel cb b' st'
              else Ok st'
          end
      end
  end.

Definition foreachTag {S} (v : PackedEventView)
    (cb : S → ascii → bytes → result (S * bool)) (st : S) : result S :=
  b ← substr_from (buf v) 88;
  foreachTag_loop (length (buf v)) cb b st.

(** ** The builders *)

(** [PackedEventTagBuilder::add] on the builder's buffer. *)
Definition tagBuilder_add (b : bytes) (tagKey : ascii) (tagVal : bytes) : result bytes :=
  _ ← throw_if (255 <? length tagVal) (herr #"tagVal too long");
  Ok (b ++ [tagKey] ++ [ascii_of_nat (length tagVal)] ++ tagVal).

Definition PackedEventBuilder `{!NativeU64} (id pubkey : bytes)
    (created_at kind expiration : N) (tags : bytes) : result bytes :=
  _ ← throw_if (negb (length id =? 32)) (herr #"unexpected id size");
  _ ← throw_if (negb (length pubkey =? 32)) (herr #"unexpected pubkey size");
  Ok (id ++ pubkey ++ to_sv64 created_at ++ to_sv64 kind ++ to_sv64 expiration ++ tags).

(** ** The abstract event *)

Abbreviation tag := (ascii * bytes)%type.

Record event := mk_event {
  ev_id : bytes;
  ev_pubkey : bytes;
  ev_created_at : N;
  ev_kind : N;
  ev_expiration : N;
  ev_tags : list tag;
}.

Definition wf_tag (t : tag) : Prop := length t.2 ≤ 255.

Record wf_event (e : event) : Prop := {
  wf_id : length (ev_id e) = 32;
  wf_pubkey : length (ev_pubkey e) = 32;
  wf_created_at : is_u64 (ev_created_at e);
  wf_kind : is_u64 (ev_kind e);
  wf_expiration : is_u64 (ev_expiration e);
  wf_tags : Forall wf_tag (ev_tags e);
}.

Definition encode_tag (t : tag) : bytes :=
  [t.1] ++ [ascii_of_nat (length t.2)] ++ t.2.

Definition encode_tags (ts : list tag) : bytes := mjoin (encode_tag <$> ts).

Definition encode `{!NativeU64} (e : event) : bytes :=
  ev_id e ++ ev_pubkey e ++ to_sv64 (ev_created_at e) ++ to_sv64 (ev_kind e) ++
  to_sv64 (ev_expiration e) ++ encode_tags (ev_tags e).

(** Iterating a callback over the tags of an abstract event. *)
Fixpoint fold_tags {S} (cb : S → ascii → bytes → result (S * bool)) (ts : list tag)
    (st : S) : result S :=
  match ts with
  | [] => Ok st
  | (k, v) :: ts =>
      '(st', ret) ← cb st k v;
      if (ret : bool) then fold_tags cb ts st' else Ok st'
  end.

(** ** Layout lemmas *)

Lemma byteN_ascii_of_nat n : n < 256 → N.to_nat (byteN (ascii_of_nat n)) = n.
Proof.
  intros Hn. unfold ascii_of_nat. rewrite N_ascii_embedding by lia. lia.
Qed.

Lemma encode_tags_cons t ts : encode_tags (t :: ts) = encode_tag t ++ encode_tags ts.
Proof. done. Qed.

Lemma encode_tags_app ts1 ts2 :
  encode_tags (ts1 ++ ts2) = encode_tags ts1 ++ encode_tags ts2.
Proof. unfold encode_tags. by rewrite fmap_app, join_app. Qed.

Lemma tagBuilder_add_Ok b k v b' :
  tagBuilder_add b k v = Ok b' ↔ wf_tag (k, v) ∧ b' = b ++ encode_tag (k, v).
Proof.
  unfold tagBuilder_add, wf_tag. simpl. destruct (Nat.ltb_spec 255 (length v)); simpl.
  - split; [done|lia].
  - naive_solver.
Qed.

(** The tag loop on an encoded tag list is the callback iteration, with any
    fuel that covers the octets. *)
Lemma foreachTag_loop_encode {S} (cb : S → ascii → bytes → result (S * bool)) fuel ts st :
  Forall wf_tag ts → length (encode_tags ts) ≤ fuel →
  foreachTag_loop fuel cb (encode_tags ts) st = fold_tags cb ts st.
Proof.
  intros Hts. revert fuel st. induction Hts as [|[k v] ts Hv Hts IH]; intros fuel st Hf.
  - by destruct fuel.
  - rewrite encode_tags_cons in *. unfold encode_tag, wf_tag in *. simpl in *.
    rewrite length_app in Hf. destruct fuel as [|fuel]; [lia|]. simpl.
    rewrite byteN_ascii_of_nat by lia.
    rewrite drop_0, take_app_length.
    destruct (cb st k v) as [[st' []]|]; simpl; try done.
    unfold substr_from. rewrite decide_False by (simpl; rewrite length_app; lia).
    simpl. rewrite drop_app_length. apply IH. lia.
Qed.

(** More fuel than the octets left never changes the tag loop. *)
Lemma foreachTag_loop_fuel {S} (cb : S → ascii → bytes → result (S * bool)) fuel1 fuel2 b st :
  length b ≤ fuel1 → length b ≤ fuel2 →
  foreachTag_loop fuel1 cb b st = foreachTag_loop fuel2 cb b st.
Proof.
  revert fuel2 b st. induction fuel1 as [|f1 IH]; intros fuel2 b st H1 H2.
  { destruct b; [by destruct fuel2|simpl in H1; lia]. }
  destruct b as [|x [|y b]]; destruct fuel2 as [|f2]; simpl in *; try done; try lia.
  unfold substr_from.
  destruct (cb st x _) as [[st' []]|]; simpl; try done.
  case_decide; [done|]. simpl. apply IH; rewrite length_drop; lia.
Qed.

(** A loop that ends normally with a callback that never stops consumed a
    well-formed encoding. *)
Lemma foreachTag_loop_decode fuel b acc ts :
  foreachTag_loop fuel (λ acc k v, Ok (acc ++ [(k, v)], true)) b acc = Ok ts →
  ∃ ts', ts = acc ++ ts' ∧ b = encode_tags ts' ∧ Forall wf_tag ts'.
Proof.
  revert b acc. induction fuel as [|fuel IH]; intros b acc.
  - destruct b as [|x b]; simpl; [|done]. intros [= ->].
    exists []. by rewrite app_nil_r.
  - destruct b as [|x [|y b]]; simpl; try done.
    + intros [= ->]. exists []. by rewrite app_nil_r.
    + rewrite drop_0. unfold substr_from.
      case_decide as Hlen; [done|]. simpl in *. intros (ts' & -> & Hb & Hwf)%IH.
      pose proof (N_ascii_bounded y).
      set (n := N.to_nat (byteN y)) in *.
      assert (length (take n b) = n) as Hn by (rewrite length_take; lia).
      exists ((x, take n b) :: ts'). split; [by rewrite <-app_assoc|].
      split; [|constructor; [unfold wf_tag; simpl; lia|done]].
      rewrite encode_tags_cons, <-Hb. unfold encode_tag. simpl. rewrite Hn.
      unfold ascii_of_nat, n. rewrite N2Nat.id, ascii_N_embedding.
      by rewrite take_drop.
Qed.

Lemma length_take_app (a b : bytes) n : length a = n → take n (a ++ b) = a.
Proof. intros <-. apply take_app_length. Qed.

Lemma length_drop_app (a b : bytes) n : length a = n → drop n (a ++ b) = b.
Proof. intros <-. apply drop_app_length. Qed.

Lemma sv_sub_here (a b : bytes) n : length a = n → sv_sub (a ++ b) 0 n = a.
Proof. intros H. unfold sv_sub. rewrite drop_0. by apply length_take_app. Qed.

Lemma sv_sub_skip (a b : bytes) k pos n :
  length a = k → sv_sub (a ++ b) (k + pos) n = sv_sub b pos n.
Proof. intros <-. unfold sv_sub. by rewrite drop_app_add. Qed.

Section layout.
Context `{!NativeU64}.
Implicit Types e : event.

Lemma encode_length e :
  wf_event e → length (encode e) = 88 + length (encode_tags (ev_tags e)).
Proof.
  intros []. unfold encode. rewrite !length_app, !to_sv64_length. lia.
Qed.

Lemma view_encode e : wf_event e → view (encode e) = Ok (mk_view (encode e)).
Proof.
  intros He. unfold view. rewrite encode_length by done.
  by destruct (Nat.ltb_spec (88 + length (encode_tags (ev_tags e))) 88); [lia|].
Qed.

Lemma id_encode e : wf_event e → id (mk_view (encode e)) = ev_id e.
Proof. intros []. by apply sv_sub_here. Qed.

Lemma pubkey_encode e : wf_event e → pubkey (mk_view (encode e)) = ev_pubkey e.
Proof.
  intros []. unfold pubkey, encode. simpl.
  rewrite (sv_sub_skip _ _ 32 0) by done. by apply sv_sub_here.
Qed.

Lemma created_at_encode e :
  wf_event e → created_at (mk_view (encode e)) = ev_created_at e.
Proof.
  intros []. unfold created_at, encode. simpl.
  rewrite (sv_sub_skip _ _ 32 32), (sv_sub_skip _ _ 32 0) by done.
  rewrite sv_sub_here by apply to_sv64_length. by apply from_to_sv64.
Qed.

Lemma kind_encode e : wf_event e → kind (mk_view (encode e)) = ev_kind e.
Proof.
  intros []. unfold kind, encode. simpl.
  rewrite (sv_sub_skip _ _ 32 40), (sv_sub_skip _ _ 32 8) by done.
  rewrite (sv_sub_skip _ _ 8 0) by apply to_sv64_length.
  rewrite sv_sub_here by apply to_sv64_length. by apply from_to_sv64.
Qed.

Lemma expiration_encode e :
  wf_event e → expiration (mk_view (encode e)) = ev_expiration e.
Proof.
  intros []. unfold expiration, encode. simpl.
  rewrite (sv_sub_skip _ _ 32 48), (sv_sub_skip _ _ 32 16) by done.
  rewrite (sv_sub_skip _ _ 8 8), (sv_sub_skip _ _ 8 0) by apply to_sv64_length.
  rewrite sv_sub_here by apply to_sv64_length. by apply from_to_sv64.
Qed.

Lemma drop_88_encode e :
  wf_event e → drop 88 (encode e) = encode_tags (ev_tags e).
Proof.
  intros []. unfold encode.
  change 88 with (32 + (32 + (8 + (8 + 8)))).
  rewrite <-!drop_drop.
  by rewrite !length_drop_app by (done || apply to_sv64_length).
Qed.

Lemma foreachTag_encode {S} (cb : S → ascii → bytes → result (S * bool)) e st :
  wf_event e → foreachTag (mk_view (encode e)) cb st = fold_tags cb (ev_tags e) st.
Proof.
  intros He. unfold foreachTag, substr_from. simpl.
  rewrite decide_False by (rewrite encode_length by done; lia). simpl.
  rewrite drop_88_encode by done.
  apply foreachTag_loop_encode; [apply He|]. rewrite encode_length by done. lia.
Qed.

Lemma tagBuilder_fold b ts b' :
  foldM (λ b '(k, v), tagBuilder_add b k v) b ts = Ok b' ↔
  Forall wf_tag ts ∧ b' = b ++ encode_tags ts.
Proof.
  revert b. induction ts as [|[k v] ts IH]; intros b; simpl.
  - rewrite app_nil_r. naive_solver.
  - rewrite encode_tags_cons, app_assoc, Forall_cons. split.
    + intros (b1 & [Hwf ->]%tagBuilder_add_Ok & Hrest)%bind_Ok_inv.
      apply IH in Hrest. naive_solver.
    + intros [[Hwf Hts] ->].
      rewrite (proj2 (tagBuilder_add_Ok _ _ _ (b ++ encode_tag (k, v))) ltac:(done)).
      simpl. by apply IH.
Qed.

(** The builder lays out [encode]. *)
Lemma PackedEventBuilder_encode e :
  wf_event e →
  PackedEventBuilder (ev_id e) (ev_pubkey e) (ev_created_at e) (ev_kind e)
    (ev_expiration e) (encode_tags (ev_tags e)) = Ok (encode e).
Proof. intros []. unfold PackedEventBuilder. by rewrite wf_id0, wf_pubkey0. Qed.
End layout.

Create Rewrite HintDb packed.
#[export] Hint Rewrite @id_encode @pubkey_encode @created_at_encode @kind_encode
  @expiration_encode using done : packed.

(** ** Properties *)

Section properties.
Context `{!NativeU64}.

(** C4: building a packed event from its fields and tags and viewing the
    buffer again gives back every field, and [foreachTag] hands the callback
    exactly the tags that were added, in order, stopping when the callback
    says so. *)
Theorem packed_event_roundtrip (e : event) :
  wf_event e →
  ∃ tb s, foldM (λ b '(k, v), tagBuilder_add b k v) [] (ev_tags e) = Ok tb ∧
    PackedEventBuilder (ev_id e) (ev_pubkey e) (ev_created_at e) (ev_kind e)
      (ev_expiration e) tb = Ok s ∧
    ∃ v, view s = Ok v ∧
      id v = ev_id e ∧ pubkey v = ev_pubkey e ∧ created_at v = ev_created_at e ∧
      kind v = ev_kind e ∧ expiration v = ev_expiration e ∧
      ∀ (S : Type) (cb : S → ascii → bytes → result (S * bool)) st,
        foreachTag v cb st = fold_tags cb (ev_tags e) st.
Proof.
  intros He. exists (encode_tags (ev_tags e)), (encode e).
  split; [by apply (tagBuilder_fold [] (ev_tags e)); split; [apply He|]|].
  split; [by apply PackedEventBuilder_encode|].
  exists (mk_view (encode e)). split; [by apply view_encode|].
  autorewrite with packed. split_and!; try done.
  intros S cb st. by apply foreachTag_encode.
Qed.

(** C5: every buffer the view accepts and whose tag section can be walked to
    its end is the packing of a well-formed event, so the format has no
    second reading: the fields and tags that were read re-encode to the same
    octets. *)
Theorem packed_event_decode (s : bytes) v (ts : list tag) :
  view s = Ok v →
  foreachTag v (λ acc k x, Ok (acc ++ [(k, x)], true)) [] = Ok ts →
  let e := mk_event (id v) (pubkey v) (created_at v) (kind v) (expiration v) ts in
  wf_event e ∧ s = encode e.
Proof.
  intros Hv Hts e. unfold view in Hv. inv_result. subst v. apply Nat.ltb_ge in Hr.
  unfold foreachTag, substr_from in Hts. rewrite decide_False in Hts by (simpl; lia).
  simpl in Hts. apply foreachTag_loop_decode in Hts as (ts' & -> & Hb & Hwf).
  assert (∀ p n : nat, p + n ≤ 88 → length (sv_sub s p n) = n) as Hlen.
  { intros p n Hpn. unfold sv_sub. rewrite length_take, length_drop. lia. }
  assert (∀ p n q : nat, q = p + n → drop p s = sv_sub s p n ++ drop q s) as Hcut.
  { intros p n q ->. unfold sv_sub. rewrite <-(take_drop n (drop p s)) at 1.
    by rewrite drop_drop. }
  split.
  - constructor; simpl; try done; try (apply Hlen; lia); by apply from_sv64_bound, Hlen; lia.
  - unfold encode, e. simpl. unfold created_at, kind, expiration. simpl.
    rewrite !to_from_sv64 by (apply Hlen; lia). rewrite <-Hb. unfold id, pubkey. simpl.
    rewrite <-(Hcut 80 8 88), <-(Hcut 72 8 80), <-(Hcut 64 8 72) by done.
    rewrite <-(Hcut 32 32 64), <-(Hcut 0 32 32) by done.
    by rewrite drop_0.
Qed.

Lemma fold_tags_collect (ts acc : list tag) :
  fold_tags (λ acc k x, Ok (acc ++ [(k, x)], true)) ts acc = Ok (acc ++ ts).
Proof.
  revert acc. induction ts as [|[k x] ts IH]; intros acc; simpl; [by rewrite app_nil_r|].
  by rewrite IH, <-app_assoc.
Qed.

Lemma encode_inj e1 e2 : wf_event e1 → wf_event e2 → encode e1 = encode e2 → e1 = e2.
Proof.
  intros H1' H2' Heq.
  assert (ev_tags e1 = ev_tags e2) as Ht.
  { pose proof (foreachTag_encode (λ acc k x, Ok (acc ++ [(k, x)], true)) e1 [] H1') as F1.
    pose proof (foreachTag_encode (λ acc k x, Ok (acc ++ [(k, x)], true)) e2 [] H2') as F2.
    rewrite fold_tags_collect in F1, F2. rewrite Heq, F2 in F1. by injection F1. }
  pose proof (id_encode e1 H1') as A1. pose proof (pubkey_encode e1 H1') as A2.
  pose proof (created_at_encode e1 H1') as A3. pose proof (kind_encode e1 H1') as A4.
  pose proof (expiration_encode e1 H1') as A5.
  rewrite Heq in A1, A2, A3, A4, A5. rewrite id_encode in A1 by done.
  rewrite pubkey_encode in A2 by done. rewrite created_at_encode in A3 by done.
  rewrite kind_encode in A4 by done. rewrite expiration_encode in A5 by done.
  destruct e1, e2; simpl in *; congruence.
Qed.
End properties.

(** A sample event for the concrete instances. *)
Definition sample_event : event :=
  mk_event (replicate 32 "i"%char) (replicate 32 "k"%char) 1700000000 30078 0
    [("d"%char, #"quote-1"); ("e"%char, replicate 32 "r"%char); ("t"%char, #"")].

Lemma sample_event_wf : wf_event sample_event.
Proof. constructor; try done; by repeat (constructor; [unfold wf_tag; simpl; lia|]). Qed.

Lemma packed_event_roundtrip_witness :
  ∃ tb s, foldM (λ b '(k, v), tagBuilder_add b k v) [] (ev_tags sample_event) = Ok tb ∧
    PackedEventBuilder (ev_id sample_event) (ev_pubkey sample_event)
      (ev_created_at sample_event) (ev_kind sample_event)
      (ev_expiration sample_event) tb = Ok s ∧
    ∃ v, view s = Ok v ∧ created_at v = 1700000000%N.
Proof.
  destruct (packed_event_roundtrip sample_event sample_event_wf)
    as (tb & s & H1 & H2 & v & H3 & _ & _ & H4 & _).
  exists tb, s. split; [exact H1|]. split; [exact H2|]. exists v. split; [exact H3|exact H4].
Defined.

Lemma packed_event_decode_witness :
  ∃ e, wf_event e ∧ encode sample_event = encode e.
Proof.
  eexists. apply (packed_event_decode (encode sample_event) (mk_view (encode sample_event))
           (ev_tags sample_event)); vm_compute; reflexivity.
Defined.
