(* ===== verification/FilterSets.v ===== *)
(** The value sets of a filter ([filters.h], [FilterSetBytes] and
    [FilterSetUint]).

    A [FilterSetBytes] packs sorted, deduplicated strings in one buffer with
    16-bit offsets and 8-bit sizes and is searched by bisection on the first
    octet and then the string; a [FilterSetUint] is a sorted vector.
    [fsb_repr fs l] says that [fs] stores exactly the strictly sorted list [l];
    the constructor establishes it and every accessor is computed from [l]. *)

From S2P Require Import Prelude Bytes Json Hex.

Definition MAX_INDEXED_TAG_VAL_SIZE : nat := 255.

(** ** [FilterSetBytes] *)

Record Item := mk_item { offset : N; size : N; firstByte : N }.

Record FilterSetBytes := mk_fsb { items : list Item; fbuf : bytes }.

(** [(uint8_t)item[0]]; [operator[]] of an empty [std::string] is its
    terminator. *)
Definition first_byte (s : bytes) : N :=
  match s with [] => 0 | c :: _ => byteN c end.

(** The loop that packs the sorted strings: the item of [s] when the buffer
    already holds [n] octets, with the casts to [uint16_t] and [uint8_t]. *)
Definition pack_item (n : nat) (s : bytes) : Item :=
  mk_item (N.of_nat n mod 65536) (N.of_nat (length s) mod 256) (first_byte s).

Definition pack_step (st : FilterSetBytes * option bytes) (s : bytes)
    : FilterSetBytes * option bytes :=
  let '(fs, prev) := st in
  if decide (prev = Some s) then (fs, Some s) (* remove duplicates *)
  else (mk_fsb (items fs ++ [pack_item (length (fbuf fs)) s]) (fbuf fs ++ s), Some s).

(** Decoding and checking one array element. *)
Definition read_item `{!Hex} (hexDecode : bool) (minSize maxSize : nat) (i : value)
    : result bytes :=
  s0 ← get_string i;
  s ← (if hexDecode then from_hex s0 false else Ok s0);
  _ ← throw_if (length s <? minSize) (herr #"filter item too small");
  _ ← throw_if (maxSize <? length s) (herr #"filter item too large");
  Ok s.

Definition FilterSetBytes_make `{!Hex} (arrHex : value) (hexDecode : bool)
    (minSize maxSize : nat) : result FilterSetBytes :=
  _ ← throw_if (MAX_INDEXED_TAG_VAL_SIZE <? maxSize)
        (herr #"maxSize bigger than max indexed tag size");
  l ← get_array arrHex;
  arr ← mapR (read_item hexDecode minSize maxSize) l;
  let fs := (foldl pack_step (mk_fsb [] [], None) (std_sort bytes_le arr)).1 in
  _ ← throw_if (65535 <? N.of_nat (length (fbuf fs)))%N
        (herr #"total filter items too large");
  Ok fs.

(** [std::string_view(buf.data() + items[i].offset, items[i].size)]; [None]
    when the index or the octets are outside their containers. *)
Definition sv_at (b : bytes) (it : Item) : option bytes :=
  let o := N.to_nat (offset it) in
  let n := N.to_nat (size it) in
  if o + n <=? length b then Some (take n (drop o b)) else None.

Definition item_sv (fs : FilterSetBytes) (i : nat) : option bytes :=
  it ← items fs !! i; sv_at (fbuf fs) it.

Definition FilterSetBytes_at (fs : FilterSetBytes) (n : nat) : result bytes :=
  match items fs !! n with
  | None => Throw (herr #"FilterSetBytes access out of bounds")
  | Some it => substr (fbuf fs) (N.to_nat (offset it)) (N.to_nat (size it))
  end.

Definition FilterSetBytes_size (fs : FilterSetBytes) : nat := length (items fs).

(** The comparison of the search loop. *)
Definition fsb_comp (fs : FilterSetBytes) (candidate : bytes) (curr : nat) : option bool :=
  it ← items fs !! curr;
  match candidate with
  | c :: _ =>
      if (negb (size it =? 0)%N && negb (byteN c =? firstByte it)%N)%bool
      then Some (byteN c <? firstByte it)%N
      else sv ← item_sv fs curr; Some (bytes_ltb candidate sv)
  | [] => sv ← item_sv fs curr; Some (bytes_ltb candidate sv)
  end.

Definition FilterSetBytes_doesMatch (fs : FilterSetBytes) (candidate : bytes)
    : result bool :=
  let n := length (items fs) in
  match bisect n (λ i, negb <$> fsb_comp fs candidate i) 0 n with
  | None => Throw undefined_behaviour
  | Some O => Ok false
  | Some (S p) =>
      match item_sv fs p with
      | None => Throw undefined_behaviour
      | Some s => Ok (bool_decide (candidate = s))
      end
  end.

(** ** [FilterSetUint] *)

Abbreviation FilterSetUint := (list N).

Definition FilterSetUint_make (arr : value) : result FilterSetUint :=
  l ← get_array arr;
  items ← mapR get_unsigned l;
  Ok (std_unique (std_sort N.le items)).

Definition FilterSetUint_at (fs : FilterSetUint) (n : nat) : result N :=
  match fs !! n with
  | None => Throw (herr #"FilterSetBytes access out of bounds")
  | Some x => Ok x
  end.

(** [std::binary_search]: the lower bound, then one comparison. *)
Definition FilterSetUint_doesMatch (fs : FilterSetUint) (candidate : N) : result bool :=
  let n := length fs in
  match bisect n (λ i, (λ x, (x <? candidate)%N) <$> fs !! i) 0 n with
  | None => Throw undefined_behaviour
  | Some i =>
      if i =? n then Ok false
      else match fs !! i with
           | None => Throw undefined_behaviour
           | Some x => Ok (negb (candidate <? x)%N)
           end
  end.

(** ** What a packed set stores *)

Fixpoint pack_all (n : nat) (l : list bytes) : list Item :=
  match l with
  | [] => []
  | s :: l => pack_item n s :: pack_all (n + length s) l
  end.

Record fsb_repr (fs : FilterSetBytes) (l : list bytes) : Prop := {
  repr_items : items fs = pack_all 0 l;
  repr_buf : fbuf fs = mjoin l;
  repr_sorted : StronglySorted (strict_le bytes_le) l;
  repr_sizes : Forall (λ s, length s ≤ 255) l;
  repr_total : (N.of_nat (length (fbuf fs)) ≤ 65535)%N;
}.

Lemma pack_all_app n l s :
  pack_all n (l ++ [s]) = pack_all n l ++ [pack_item (n + length (mjoin l)) s].
Proof.
  revert n. induction l as [|x l IH]; intros n; simpl.
  - by rewrite Nat.add_0_r.
  - by rewrite IH, length_app, Nat.add_assoc.
Qed.

Lemma pack_all_lookup n l i :
  pack_all n l !! i = (λ s, pack_item (n + length (mjoin (take i l))) s) <$> l !! i.
Proof.
  revert n i. induction l as [|x l IH]; intros n [|i]; simpl; try done.
  - by rewrite Nat.add_0_r.
  - rewrite IH, length_app. by rewrite Nat.add_assoc.
Qed.

Lemma length_pack_all n l : length (pack_all n l) = length l.
Proof. revert n. induction l; intros n; simpl; auto. Qed.

Lemma pack_fold l done prev :
  (foldl pack_step (mk_fsb (pack_all 0 done) (mjoin done), prev) l).1 =
  mk_fsb (pack_all 0 (done ++ uniq_from prev l)) (mjoin (done ++ uniq_from prev l)).
Proof.
  revert done prev. induction l as [|s l IH]; intros done prev.
  - cbn. by rewrite app_nil_r.
  - cbn [foldl uniq_from]. unfold pack_step at 2. case_decide as Hp.
    + subst prev. apply IH.
    + cbn [items fbuf].
      replace (pack_all 0 done ++ [pack_item (length (mjoin done)) s])
        with (pack_all 0 (done ++ [s])) by (by rewrite pack_all_app).
      replace (mjoin done ++ s) with (mjoin (done ++ [s]))
        by (rewrite join_app; simpl; by rewrite app_nil_r).
      rewrite IH. by rewrite <-app_assoc.
Qed.

Lemma mjoin_take_drop (l : list bytes) i s :
  l !! i = Some s → mjoin l = mjoin (take i l) ++ s ++ mjoin (drop (S i) l).
Proof.
  intros Hi. rewrite <-(take_drop_middle l i s Hi) at 1. by rewrite join_app.
Qed.

Lemma item_repr fs l i s :
  fsb_repr fs l → l !! i = Some s →
  ∃ it, items fs !! i = Some it ∧ size it = N.of_nat (length s) ∧
        firstByte it = first_byte s ∧
        sv_at (fbuf fs) it = Some s.
Proof.
  intros [Hit Hbuf _ Hsz Htot] Hi. rewrite Hit, pack_all_lookup, Hi. simpl.
  eexists. split; [done|]. simpl.
  assert (length s ≤ 255) as Hs.
  { rewrite Forall_forall in Hsz. apply Hsz. by eapply list_elem_of_lookup_2. }
  rewrite Hbuf, (mjoin_take_drop l i s Hi) in Htot. rewrite !length_app in Htot.
  rewrite N.mod_small by lia. split; [done|]. split; [done|].
  unfold sv_at. simpl. rewrite !N.mod_small, !Nat2N.id by lia.
  rewrite Hbuf, (mjoin_take_drop l i s Hi), !length_app.
  destruct (Nat.leb_spec (length (mjoin (take i l)) + length s)
    (length (mjoin (take i l)) + (length s + length (mjoin (drop (S i) l))))); [|lia].
  by rewrite drop_app_length, take_app_length.
Qed.

Lemma item_sv_repr fs l i : fsb_repr fs l → item_sv fs i = l !! i.
Proof.
  intros Hr. unfold item_sv. destruct (l !! i) as [s|] eqn:Hi.
  - destruct (item_repr fs l i s Hr Hi) as (it & -> & _ & _ & H). exact H.
  - destruct Hr as [-> _ _ _ _]. by rewrite pack_all_lookup, Hi.
Qed.

Lemma FilterSetBytes_at_repr fs l i :
  fsb_repr fs l →
  FilterSetBytes_at fs i =
  match l !! i with
  | Some s => Ok s
  | None => Throw (herr #"FilterSetBytes access out of bounds")
  end.
Proof.
  intros Hr. unfold FilterSetBytes_at. destruct (l !! i) as [s|] eqn:Hi.
  - destruct (item_repr fs l i s Hr Hi) as (it & -> & _ & _ & H).
    unfold sv_at in H. case_bool; [|done]. apply Nat.leb_le in E. injection H as H.
    unfold substr. by rewrite decide_False, H by lia.
  - destruct Hr as [-> _ _ _ _]. by rewrite pack_all_lookup, Hi.
Qed.

Lemma FilterSetBytes_size_repr fs l : fsb_repr fs l → FilterSetBytes_size fs = length l.
Proof. intros []. unfold FilterSetBytes_size. by rewrite repr_items0, length_pack_all. Qed.

(** The shortcut on the first octet agrees with the string comparison. *)
Lemma bytes_ltb_first (a b : bytes) x y :
  head a = Some x → head b = Some y → x ≠ y → bytes_ltb a b = (byteN x <? byteN y)%N.
Proof.
  destruct a as [|x' a], b as [|y' b]; intros [= ->] [= ->] Hne.
  unfold bytes_ltb. simpl. destruct (N.compare_spec (byteN x) (byteN y)) as [E|E|E].
  - by apply byteN_inj in E.
  - symmetry. by apply N.ltb_lt.
  - symmetry. apply N.ltb_ge. lia.
Qed.

Lemma fsb_comp_repr fs l c i s :
  fsb_repr fs l → l !! i = Some s → fsb_comp fs c i = Some (bytes_ltb c s).
Proof.
  intros Hr Hi. unfold fsb_comp. rewrite (item_sv_repr fs l i Hr), Hi.
  destruct (item_repr fs l i s Hr Hi) as (it & -> & Hsz & Hfb & _). simpl.
  destruct c as [|x c]; [done|]. rewrite Hsz, Hfb.
  destruct s as [|y s]; [done|]. simpl.
  destruct (N.eqb_spec (byteN x) (byteN y)) as [E|E]; [done|]. simpl.
  f_equal. symmetry. apply bytes_ltb_first; [done..|]. congruence.
Qed.

(** The search is membership. *)
Lemma FilterSetBytes_doesMatch_repr fs l c :
  fsb_repr fs l → FilterSetBytes_doesMatch fs c = Ok (bool_decide (c ∈ l)).
Proof.
  intros Hr. pose proof (strict_sorted_le bytes_le l (repr_sorted _ _ Hr)) as Hs.
  assert (length (items fs) = length l) as Hlen by by apply FilterSetBytes_size_repr.
  unfold FilterSetBytes_doesMatch. rewrite Hlen.
  assert (∀ i s, l !! i = Some s →
    negb <$> fsb_comp fs c i = Some (bool_decide (i < count_le bytes_le c l))) as Hprobe.
  { intros i s Hi. rewrite (fsb_comp_repr fs l c i s Hr Hi). simpl. f_equal.
    destruct (bytes_ltb c s) eqn:E; simpl.
    - symmetry. apply bool_decide_eq_false. rewrite <-(count_le_lookup bytes_le c l i s) by done.
      apply bytes_ltb_lt in E as [H1 H2]. intros H3. apply H2. by apply (anti_symm bytes_le).
    - symmetry. apply bool_decide_eq_true. rewrite <-(count_le_lookup bytes_le c l i s) by done.
      by apply bytes_ltb_ge. }
  rewrite (bisect_spec _ _ 0 _ (count_le bytes_le c l)); [| lia | lia |
    pose proof (count_le_length bytes_le c l); lia | |].
  - pose proof (sorted_mem_pred_count bytes_le c l Hs) as Hmem.
    destruct (count_le bytes_le c l) as [|p] eqn:Hp.
    + f_equal. symmetry. apply bool_decide_eq_false. rewrite Hmem. by intros (? & ? & _).
    + rewrite (item_sv_repr fs l p Hr).
      destruct (lookup_lt_is_Some_2 l p) as [s Hsp].
      { pose proof (count_le_length bytes_le c l). lia. }
      rewrite Hsp. f_equal. apply bool_decide_ext. rewrite Hmem.
      split; [intros ->; by exists p|]. intros (i & [= <-] & Hi). congruence.
  - intros i _ Hi. destruct (lookup_lt_is_Some_2 l i) as [s Hsi].
    { pose proof (count_le_length bytes_le c l). lia. }
    rewrite (Hprobe i s Hsi). f_equal. by apply bool_decide_eq_true.
  - intros i Hi1 Hi2. destruct (lookup_lt_is_Some_2 l i) as [s Hsi]; [done|].
    rewrite (Hprobe i s Hsi). f_equal. apply bool_decide_eq_false. lia.
Qed.

(** The elements of a JSON array, as the constructors iterate over them. *)
Definition elems (v : value) : list value :=
  match v with JArray l => l | _ => [] end.

Lemma elem_of_mapR {A B} (f : A → result B) l l' b :
  mapR f l = Ok l' → b ∈ l' ↔ ∃ a, a ∈ l ∧ f a = Ok b.
Proof.
  intros H%mapR_Ok. split.
  - intros [i Hi]%list_elem_of_lookup. destruct (Forall2_lookup_r _ _ _ _ _ H Hi) as (a & Ha & Hab).
    exists a. split; [by eapply list_elem_of_lookup_2|done].
  - intros (a & [i Hi]%list_elem_of_lookup & Hab).
    destruct (Forall2_lookup_l _ _ _ _ _ H Hi) as (b' & Hb & Hab').
    rewrite Hab in Hab'. injection Hab' as ->. by eapply list_elem_of_lookup_2.
Qed.

Section constructors.
Context `{!Hex}.

Lemma read_item_Ok h mn mx j s :
  read_item h mn mx j = Ok s ↔
  (∃ s0, j = JString s0 ∧ (if h then from_hex s0 false else Ok s0) = Ok s) ∧
  mn ≤ length s ∧ length s ≤ mx.
Proof.
  unfold read_item. split.
  - intros H0. inv_json. rewrite Nat.ltb_ge in *. naive_solver.
  - intros ((s0 & -> & Hs) & H1 & H2). simpl. rewrite Hs. simpl.
    destruct (Nat.ltb_spec (length s) mn); [lia|].
    by destruct (Nat.ltb_spec mx (length s)); [lia|].
Qed.

(** A successfully built set stores exactly the decoded elements. *)
Lemma FilterSetBytes_make_repr v h mn mx fs :
  FilterSetBytes_make v h mn mx = Ok fs →
  ∃ l, fsb_repr fs l ∧
    (∀ s, s ∈ l ↔ ∃ j, j ∈ elems v ∧ read_item h mn mx j = Ok s) ∧
    (∀ j, j ∈ elems v → ∃ s, read_item h mn mx j = Ok s).
Proof.
  unfold FilterSetBytes_make. intros Hmk. inv_json.
  rename r0 into js, r1 into arr, Hr1 into Harr.
  pose proof (pack_fold (std_sort bytes_le arr) [] None) as Hp. simpl in Hp.
  rewrite Nat.ltb_ge in Hr. rewrite Hp in *.
  exists (std_unique (std_sort bytes_le arr)).
  assert (∀ s, s ∈ std_unique (std_sort bytes_le arr) ↔ s ∈ arr) as Hel.
  { intros s. by rewrite elem_of_std_unique, elem_of_std_sort. }
  split.
  - split; [done|done| | |].
    + apply (std_unique_strict bytes_le), (std_sort_sorted bytes_le).
    + apply Forall_forall. intros s Hs%Hel.
      apply (elem_of_mapR _ _ _ _ Harr) in Hs as (j & _ & [_ [_ Hle]]%read_item_Ok).
      unfold MAX_INDEXED_TAG_VAL_SIZE in *. lia.
    + simpl in *. by apply N.ltb_ge.
  - split; [intros s; rewrite Hel; apply (elem_of_mapR _ _ _ _ Harr)|].
    intros j [i Hi]%list_elem_of_lookup. apply mapR_Ok in Harr.
    destruct (Forall2_lookup_l _ _ _ _ _ Harr Hi) as (s & _ & Hs). by exists s.
Qed.

(** Membership in the hex-decoded strings of an array, and in its strings. *)
Definition hex_member (v : value) (x : bytes) : Prop :=
  ∃ s, JString s ∈ elems v ∧ from_hex s false = Ok x.

Definition str_member (v : value) (x : bytes) : Prop := JString x ∈ elems v.

Lemma FilterSetBytes_make_hex v mn mx fs :
  FilterSetBytes_make v true mn mx = Ok fs →
  ∃ l, fsb_repr fs l ∧ ∀ x, x ∈ l ↔ hex_member v x.
Proof.
  intros (l & Hr & Hl & Hall)%FilterSetBytes_make_repr. exists l. split; [done|].
  intros x. rewrite Hl. split.
  - intros (j & Hj & ((s0 & -> & Hs0) & _)%read_item_Ok). by exists s0.
  - intros (s & Hs & Hx). exists (JString s). split; [done|].
    destruct (Hall _ Hs) as [y Hy]. pose proof Hy as ((s0 & [= <-] & Hs0) & _)%read_item_Ok.
    congruence.
Qed.

Lemma FilterSetBytes_make_str v mn mx fs :
  FilterSetBytes_make v false mn mx = Ok fs →
  ∃ l, fsb_repr fs l ∧ ∀ x, x ∈ l ↔ str_member v x.
Proof.
  intros (l & Hr & Hl & Hall)%FilterSetBytes_make_repr. exists l. split; [done|].
  intros x. rewrite Hl. split.
  - by intros (j & Hj & ((s0 & -> & [= ->]) & _)%read_item_Ok).
  - intros Hs. exists (JString x). split; [done|].
    destruct (Hall _ Hs) as [y Hy]. pose proof Hy as ((s0 & [= <-] & [= <-]) & _)%read_item_Ok.
    done.
Qed.
End constructors.

(** ** Unsigned sets *)

Definition fsu_wf (fs : FilterSetUint) : Prop := StronglySorted (strict_le N.le) fs.

Lemma FilterSetUint_make_wf v fs :
  FilterSetUint_make v = Ok fs →
  fsu_wf fs ∧ ∀ n, n ∈ fs ↔ JUnsigned n ∈ elems v.
Proof.
  unfold FilterSetUint_make. intros Hmk. inv_json. rename Hr0 into Harr. split.
  - apply (std_unique_strict N.le), (std_sort_sorted N.le).
  - intros n. rewrite elem_of_std_unique, elem_of_std_sort.
    rewrite (elem_of_mapR _ _ _ _ Harr). simpl. split.
    + intros (a & Ha & Hn). by apply get_unsigned_Ok in Hn as ->.
    + intros Hn. by exists (JUnsigned n).
Qed.

(** [std::binary_search] on a sorted set is membership. *)
Lemma FilterSetUint_doesMatch_wf fs c :
  fsu_wf fs → FilterSetUint_doesMatch fs c = Ok (bool_decide (c ∈ fs)).
Proof.
  intros Hwf. pose proof (strict_sorted_le N.le fs Hwf) as Hs.
  unfold FilterSetUint_doesMatch.
  (* the number of elements strictly below the candidate *)
  set (k := length (filter (λ x, (x < c)%N) fs)).
  assert (k ≤ length fs) as Hk by apply length_filter.
  assert (∀ i x, fs !! i = Some x → (x < c)%N ↔ i < k) as Hlt.
  { unfold k. clear k Hk Hwf. induction Hs as [|y l Hs IH Hy]; intros i x Hi; [done|].
    rewrite filter_cons. destruct (decide (y < c)%N) as [Hyc|Hyc]; simpl.
    - destruct i as [|i]; simpl in Hi; simplify_eq; [split; [lia|done]|].
      rewrite (IH i x Hi). lia.
    - assert (∀ z, z ∈ l → ¬ (z < c)%N) as Hno.
      { rewrite Forall_forall in Hy. intros z Hz%Hy. lia. }
      assert (filter (λ z, (z < c)%N) l = []) as ->.
      { apply elem_of_nil_inv. intros z [Hzc Hz]%list_elem_of_filter. by apply (Hno z). }
      simpl. split; [|lia]. intros Hx. destruct i as [|i]; simpl in Hi; simplify_eq; [done|].
      exfalso. eapply Hno; [eapply list_elem_of_lookup_2, Hi|done]. }
  rewrite (bisect_spec _ _ 0 _ k); [|lia|lia|lia| |].
  - destruct (Nat.eqb_spec k (length fs)) as [Heq|Hne].
    + f_equal. symmetry. apply bool_decide_eq_false. intros [i Hi]%list_elem_of_lookup.
      pose proof (lookup_lt_Some _ _ _ Hi). pose proof (proj2 (Hlt i c Hi)). lia.
    + destruct (lookup_lt_is_Some_2 fs k) as [x Hx]; [lia|]. rewrite Hx. f_equal.
      assert (¬ (x < c)%N) as Hxc by (rewrite (Hlt k x Hx); lia).
      destruct (N.ltb_spec c x) as [Hcx|Hcx]; simpl; symmetry.
      * apply bool_decide_eq_false. intros [i Hi]%list_elem_of_lookup.
        assert (k ≤ i) as Hki by (pose proof (proj2 (Hlt i c Hi)); lia).
        assert (x ≤ c)%N; [|lia].
        destruct (decide (k = i)) as [->|]; [rewrite Hx in Hi; by simplify_eq|].
        eapply (StronglySorted_lookup N.le fs k i); eauto. lia.
      * apply bool_decide_eq_true. assert (x = c) as -> by lia.
        by eapply list_elem_of_lookup_2.
  - intros i _ Hi. destruct (lookup_lt_is_Some_2 fs i) as [x Hx]; [lia|].
    rewrite Hx. simpl. f_equal. apply N.ltb_lt. by apply (Hlt i x Hx).
  - intros i Hi Hi2. destruct (lookup_lt_is_Some_2 fs i) as [x Hx]; [lia|].
    rewrite Hx. simpl. f_equal. apply N.ltb_ge.
    destruct (N.le_gt_cases c x) as [|Hc]; [done|]. apply (Hlt i x Hx) in Hc. lia.
Qed.

(** ** Properties *)

Section properties.
Context `{!Hex}.

(** A byte-string set that was built stores, strictly sorted and without
    duplicates, exactly the decoded elements of the JSON array (each within
    the size bounds); [size] and [at] index that list and nothing outside it,
    and the bisection with its first-octet shortcut decides membership
    without reading outside the items or the buffer. *)
Theorem byte_set_correct v hexDecode minSize maxSize fs :
  FilterSetBytes_make v hexDecode minSize maxSize = Ok fs →
  ∃ l, StronglySorted (strict_le bytes_le) l ∧
    (∀ s, s ∈ l ↔ ∃ j, j ∈ elems v ∧ read_item hexDecode minSize maxSize j = Ok s) ∧
    FilterSetBytes_size fs = length l ∧
    (∀ i, FilterSetBytes_at fs i =
       match l !! i with
       | Some s => Ok s
       | None => Throw (herr #"FilterSetBytes access out of bounds")
       end) ∧
    (∀ c, FilterSetBytes_doesMatch fs c = Ok (bool_decide (c ∈ l))).
Proof.
  intros (l & Hr & Hl & _)%FilterSetBytes_make_repr. exists l.
  split; [apply Hr|]. split; [done|]. split; [by apply FilterSetBytes_size_repr|].
  split; [|intros c; by apply FilterSetBytes_doesMatch_repr].
  intros i. by apply FilterSetBytes_at_repr.
Qed.

(** An unsigned set holds exactly the numbers of the JSON array, strictly
    increasing, and [std::binary_search] on it decides membership. *)
Theorem uint_set_correct v fs :
  FilterSetUint_make v = Ok fs →
  StronglySorted (strict_le N.le) fs ∧
  (∀ n, n ∈ fs ↔ JUnsigned n ∈ elems v) ∧
  (∀ c, FilterSetUint_doesMatch fs c = Ok (bool_decide (c ∈ fs))).
Proof.
  intros [Hwf Hel]%FilterSetUint_make_wf. split_and!; [done|done|].
  intros c. by apply FilterSetUint_doesMatch_wf.
Qed.
End properties.

Definition sample_array : value :=
  JArray [JString #"quote-2"; JString #""; JString #"quote-1"; JString #"quote-2"].

Lemma byte_set_correct_witness :
  ∃ fs, FilterSetBytes_make sample_array false 0 255 = Ok fs ∧
  ∃ l : list bytes, FilterSetBytes_size fs = length l ∧
    ∀ c, FilterSetBytes_doesMatch fs c = Ok (bool_decide (c ∈ l)).
Proof.
  eexists. split; [vm_compute; reflexivity|].
  edestruct (byte_set_correct sample_array false 0 255) as (l & _ & _ & H1 & _ & H2);
    [vm_compute; reflexivity|].
  exists l. split; [exact H1|exact H2].
Defined.

Lemma uint_set_correct_witness :
  ∃ fs : list N, FilterSetUint_make (JArray [JUnsigned 7; JUnsigned 1; JUnsigned 7]) = Ok fs ∧
    ∀ c, FilterSetUint_doesMatch fs c = Ok (bool_decide (c ∈ fs)).
Proof.
  eexists. split; [vm_compute; reflexivity|].
  apply (uint_set_correct (JArray [JUnsigned 7; JUnsigned 1; JUnsigned 7])).
  vm_compute; reflexivity.
Defined.
