(* ===== verification/Filters.v ===== *)
(** Nostr filters ([filters.h], [NostrFilter] and [NostrFilterGroup]).

    The constructors and the [doesMatch] methods of the source, over the sets
    of [FilterSets.v].  The reference meaning of a filter object is
    [filter_spec]. *)

From S2P Require Import Prelude Bytes Json Hex PackedEvent FilterSets.

(** ** [NostrFilter] *)

Record NostrFilter := mk_filter {
  ids : option FilterSetBytes;
  authors : option FilterSetBytes;
  kinds : option FilterSetUint;
  tags : gmap ascii FilterSetBytes;
  since : N;
  until : N;
  limit : N;
  neverMatch : bool;
  indexOnlyScans : bool;
}.

Definition filter_default : NostrFilter :=
  mk_filter None None None ∅ 0 MAX_U64 MAX_U64 false false.

Definition set_ids f x := mk_filter (Some x) (authors f) (kinds f) (tags f)
  (since f) (until f) (limit f) (neverMatch f) (indexOnlyScans f).
Definition set_authors f x := mk_filter (ids f) (Some x) (kinds f) (tags f)
  (since f) (until f) (limit f) (neverMatch f) (indexOnlyScans f).
Definition set_kinds f x := mk_filter (ids f) (authors f) (Some x) (tags f)
  (since f) (until f) (limit f) (neverMatch f) (indexOnlyScans f).
Definition set_tags f x := mk_filter (ids f) (authors f) (kinds f) x
  (since f) (until f) (limit f) (neverMatch f) (indexOnlyScans f).
Definition set_since f x := mk_filter (ids f) (authors f) (kinds f) (tags f)
  x (until f) (limit f) (neverMatch f) (indexOnlyScans f).
Definition set_until f x := mk_filter (ids f) (authors f) (kinds f) (tags f)
  (since f) x (limit f) (neverMatch f) (indexOnlyScans f).
Definition set_limit f x := mk_filter (ids f) (authors f) (kinds f) (tags f)
  (since f) (until f) x (neverMatch f) (indexOnlyScans f).
Definition set_neverMatch f := mk_filter (ids f) (authors f) (kinds f) (tags f)
  (since f) (until f) (limit f) true (indexOnlyScans f).
Definition set_indexOnlyScans f x := mk_filter (ids f) (authors f) (kinds f) (tags f)
  (since f) (until f) (limit f) (neverMatch f) x.

Definition is_empty_array (v : value) : bool :=
  match v with JArray [] => true | _ => false end.

(** [tags.emplace]: an existing entry is kept. *)
Definition tags_emplace (m : gmap ascii FilterSetBytes) (c : ascii) (fs : FilterSetBytes) :=
  match m !! c with Some _ => m | None => <[c := fs]> m end.

Definition is_hex_tag (c : ascii) : bool := char_eqb c "p" || char_eqb c "e".

Section filter.
Context `{!Hex} `{!NativeU64}.

Definition tag_set_make (tag : ascii) (v : value) : result FilterSetBytes :=
  if is_hex_tag tag then FilterSetBytes_make v true 32 32
  else FilterSetBytes_make v false 0 MAX_INDEXED_TAG_VAL_SIZE.

(** The body of the loop over the object's entries; the counter is
    [numMajorFields]. *)
Definition filter_step (st : NostrFilter * nat) (kv : bytes * value)
    : result (NostrFilter * nat) :=
  let '(f, num) := st in
  let '(k, v) := kv in
  if is_empty_array v then Ok (set_neverMatch f, num)
  else if decide (k = #"ids") then
    fs ← FilterSetBytes_make v true 32 32; Ok (set_ids f fs, S num)
  else if decide (k = #"authors") then
    fs ← FilterSetBytes_make v true 32 32; Ok (set_authors f fs, S num)
  else if decide (k = #"kinds") then
    fs ← FilterSetUint_make v; Ok (set_kinds f fs, S num)
  else match k with
  | "#"%char :: rest =>
      match rest with
      | [tag] =>
          fs ← tag_set_make tag v;
          Ok (set_tags f (tags_emplace (tags f) tag fs), S num)
      | _ => Throw (herr #"unindexed tag filter")
      end
  | _ =>
      if decide (k = #"since") then n ← get_unsigned v; Ok (set_since f n, num)
      else if decide (k = #"until") then n ← get_unsigned v; Ok (set_until f n, num)
      else if decide (k = #"limit") then n ← get_unsigned v; Ok (set_limit f n, num)
      else Throw (herr #"unrecognised filter item")
  end.

Definition NostrFilter_make (filterObj : value) (maxFilterLimit : N)
    : result NostrFilter :=
  _ ← throw_if (negb (is_object filterObj)) (herr #"provided filter is not an object");
  kvs ← get_object filterObj;
  '(f, numMajorFields) ← foldM filter_step (filter_default, 0) kvs;
  _ ← throw_if (3 <? base.size (tags f)) (herr #"too many tags in filter");
  let f := if (maxFilterLimit <? limit f)%N then set_limit f maxFilterLimit else f in
  Ok (set_indexOnlyScans f
        ((numMajorFields <=? 1) ||
         ((numMajorFields =? 2) && bool_decide (is_Some (authors f))
                                && bool_decide (is_Some (kinds f))))).

Definition doesMatchTimes (f : NostrFilter) (created : N) : bool :=
  if (created <? since f)%N then false
  else if (until f <? created)%N then false
  else true.

(** [if (set && !set->doesMatch(x)) return false;] with the rest of the
    method as continuation. *)
Definition guard_set {A} (set : option A) (matches : A → result bool)
    (rest : result bool) : result bool :=
  match set with
  | None => rest
  | Some s => b ← matches s; if (b : bool) then rest else Ok false
  end.

(** The loop over the tag filters; each scans the event's tags for a match. *)
Fixpoint match_tags (l : list (ascii * FilterSetBytes)) (ev : PackedEventView)
    : result bool :=
  match l with
  | [] => Ok true
  | (tag, filt) :: l =>
      foundMatch ← foreachTag ev (λ found tagName tagVal,
          if char_eqb tagName tag then
            b ← FilterSetBytes_doesMatch filt tagVal;
            Ok (if (b : bool) then (true, false) else (found, true))
          else Ok (found, true)) false;
      if (foundMatch : bool) then match_tags l ev else Ok false
  end.

Definition doesMatch (f : NostrFilter) (ev : PackedEventView) : result bool :=
  if neverMatch f then Ok false
  else if negb (doesMatchTimes f (created_at ev)) then Ok false
  else
    guard_set (ids f) (λ s, FilterSetBytes_doesMatch s (id ev)) $
    guard_set (authors f) (λ s, FilterSetBytes_doesMatch s (pubkey ev)) $
    guard_set (kinds f) (λ s, FilterSetUint_doesMatch s (kind ev)) $
    match_tags (map_to_list (tags f)) ev.

Definition isFullDbQuery (f : NostrFilter) : bool :=
  bool_decide (ids f = None) && bool_decide (authors f = None) &&
  bool_decide (kinds f = None) && (base.size (tags f) =? 0).

(** ** [NostrFilterGroup] *)

Definition group_step (maxFilterLimit : N) (filters : list NostrFilter) (v : value)
    : result (list NostrFilter) :=
  f ← NostrFilter_make v maxFilterLimit;
  Ok (if neverMatch f then filters else filters ++ [f]).

Definition NostrFilterGroup_make (req : value) (maxFilterLimit : N)
    : result (list NostrFilter) :=
  arr ← get_array req;
  _ ← throw_if (length arr <? 3) (herr #"too small");
  foldM (group_step maxFilterLimit) [] (drop 2 arr).

Definition NostrFilterGroup_unwrapped (filter : value) (maxFilterLimit : N)
    : result (list NostrFilter) :=
  let filter := if is_array filter then filter else JArray [filter] in
  es ← get_array filter;
  NostrFilterGroup_make (JArray (JString #"REQ" :: JString #"junkSub" :: es))
    maxFilterLimit.

Fixpoint group_doesMatch (filters : list NostrFilter) (ev : PackedEventView)
    : result bool :=
  match filters with
  | [] => Ok false
  | f :: filters =>
      b ← doesMatch f ev; if (b : bool) then Ok true else group_doesMatch filters ev
  end.

Definition group_isFullDbQuery (filters : list NostrFilter) : bool :=
  match filters with [f] => isFullDbQuery f | _ => false end.
End filter.

(** ** The meaning of a filter object *)

Section spec.
Context `{!Hex} `{!NativeU64}.
Implicit Types (e : event) (f : NostrFilter).

(** [#e] and [#p] list hexadecimal strings, the other tags plain ones. *)
Definition tag_member (c : ascii) (v : value) (x : bytes) : Prop :=
  if is_hex_tag c then hex_member v x else str_member v x.

(** What one entry of the object asks of an event. *)
Record entry_spec (k : bytes) (v : value) (e : event) : Prop := {
  es_nonempty : v ≠ JArray [];
  es_ids : k = #"ids" → hex_member v (ev_id e);
  es_authors : k = #"authors" → hex_member v (ev_pubkey e);
  es_kinds : k = #"kinds" → JUnsigned (ev_kind e) ∈ elems v;
  es_tag : ∀ c, k = ["#"%char; c] →
    ∃ t, t ∈ ev_tags e ∧ t.1 = c ∧ tag_member c v t.2;
  es_since : k = #"since" → ∀ n, v = JUnsigned n → (n ≤ ev_created_at e)%N;
  es_until : k = #"until" → ∀ n, v = JUnsigned n → (ev_created_at e ≤ n)%N;
}.

(** An event matches a filter object when it satisfies every entry. *)
Definition filter_spec (kvs : list (bytes * value)) (e : event) : Prop :=
  ∀ k v, (k, v) ∈ kvs → entry_spec k v e.

(** ** Stored filters *)

Definition fsb_ok (fs : FilterSetBytes) : Prop := ∃ l, fsb_repr fs l.

Definition fsb_mem (fs : FilterSetBytes) (x : bytes) : Prop :=
  FilterSetBytes_doesMatch fs x = Ok true.

Record filter_wf f : Prop := {
  fw_ids : ∀ fs, ids f = Some fs → fsb_ok fs;
  fw_authors : ∀ fs, authors f = Some fs → fsb_ok fs;
  fw_kinds : ∀ fs, kinds f = Some fs → fsu_wf fs;
  fw_tags : ∀ c fs, tags f !! c = Some fs → fsb_ok fs;
}.

(** What a stored filter asks of an event. *)
Record filter_sem f e : Prop := {
  sem_never : neverMatch f = false;
  sem_since : (since f ≤ ev_created_at e)%N;
  sem_until : (ev_created_at e ≤ until f)%N;
  sem_ids : ∀ fs, ids f = Some fs → fsb_mem fs (ev_id e);
  sem_authors : ∀ fs, authors f = Some fs → fsb_mem fs (ev_pubkey e);
  sem_kinds : ∀ fs, kinds f = Some fs → ev_kind e ∈ fs;
  sem_tags : ∀ c fs, tags f !! c = Some fs →
    ∃ t, t ∈ ev_tags e ∧ t.1 = c ∧ fsb_mem fs t.2;
}.

Lemma fsb_ok_doesMatch fs x :
  fsb_ok fs → ∃ b, FilterSetBytes_doesMatch fs x = Ok b ∧ (b = true ↔ fsb_mem fs x).
Proof.
  intros [l Hr]. unfold fsb_mem.
  rewrite (FilterSetBytes_doesMatch_repr fs l x Hr). eexists. split; [done|].
  by split; [intros ->|intros [= ?]].
Qed.

Lemma fsb_mem_repr fs l x : fsb_repr fs l → fsb_mem fs x ↔ x ∈ l.
Proof.
  intros Hr. unfold fsb_mem. rewrite (FilterSetBytes_doesMatch_repr fs l x Hr).
  split; [by intros [= ?%bool_decide_eq_true]|]. intros. f_equal. by apply bool_decide_eq_true.
Qed.

Lemma match_tag_loop tag filt ts :
  fsb_ok filt →
  ∃ b, fold_tags (λ found tagName tagVal,
          if char_eqb tagName tag then
            b ← FilterSetBytes_doesMatch filt tagVal;
            Ok (if (b : bool) then (true, false) else (found, true))
          else Ok (found, true)) ts false = Ok b ∧
    (b = true ↔ ∃ t, t ∈ ts ∧ t.1 = tag ∧ fsb_mem filt t.2).
Proof.
  intros Hok. induction ts as [|[k x] ts IH]; simpl.
  - exists false. split; [done|]. split; [done|]. intros (t & Ht & _). inversion Ht.
  - destruct IH as (b & Hb & IHb). unfold char_eqb. destruct (Ascii.eqb_spec k tag) as [->|Hk].
    + destruct (fsb_ok_doesMatch filt x Hok) as (bx & -> & Hbx). simpl.
      destruct bx; simpl.
      * exists true. split; [done|]. split; [intros _|done].
        exists (tag, x). split; [constructor|]. naive_solver.
      * exists b. split; [done|]. rewrite IHb. split.
        -- intros (t & Ht & ?). exists t. split; [by constructor|done].
        -- intros (t & [->|Ht]%elem_of_cons & Ht1 & Ht2); [naive_solver|by exists t].
    + simpl. exists b. split; [done|]. rewrite IHb. split.
      * intros (t & Ht & ?). exists t. split; [by constructor|done].
      * intros (t & [->|Ht]%elem_of_cons & Ht1 & Ht2); [done|by exists t].
Qed.

Lemma match_tags_sem l e :
  wf_event e → (∀ c fs, (c, fs) ∈ l → fsb_ok fs) →
  ∃ b, match_tags l (mk_view (encode e)) = Ok b ∧
    (b = true ↔ ∀ c fs, (c, fs) ∈ l →
       ∃ t, t ∈ ev_tags e ∧ t.1 = c ∧ fsb_mem fs t.2).
Proof.
  intros He. induction l as [|[c fs] l IH]; intros Hok; simpl.
  - exists true. split; [done|]. split; [intros _ c fs H'; inversion H'|done].
  - rewrite foreachTag_encode by done.
    destruct (match_tag_loop c fs (ev_tags e)) as (b1 & -> & Hb1);
      [eapply Hok; constructor|].
    simpl. destruct b1.
    + destruct IH as (b & Hb & IHb); [intros; eapply Hok; by constructor|].
      exists b. split; [done|]. rewrite IHb. split.
      * intros Hall c' fs' [[= -> ->]|Hin]%elem_of_cons; [by apply Hb1|eauto].
      * intros Hall c' fs' Hin. apply Hall. by constructor.
    + exists false. split; [done|]. split; [done|]. intros Hall. apply Hb1.
      apply Hall. constructor.
Qed.

Lemma guard_set_sem {A} (s : option A) (m : A → result bool) rest (P : A → Prop) (Q : Prop) :
  (∀ a, s = Some a → ∃ b, m a = Ok b ∧ (b = true ↔ P a)) →
  (∃ b, rest = Ok b ∧ (b = true ↔ Q)) →
  ∃ b, guard_set s m rest = Ok b ∧ (b = true ↔ (∀ a, s = Some a → P a) ∧ Q).
Proof.
  intros Hm (b & -> & Hb). destruct s as [a|]; simpl.
  - destruct (Hm a eq_refl) as (ba & -> & Hba). simpl. destruct ba.
    + exists b. split; [done|]. rewrite Hb. naive_solver.
    + exists false. split; [done|]. naive_solver.
  - exists b. split; [done|]. naive_solver.
Qed.

(** The executable match is the stored filter's meaning, and never fails on
    a well-formed event. *)
Lemma doesMatch_sem f e :
  filter_wf f → wf_event e →
  ∃ b, doesMatch f (mk_view (encode e)) = Ok b ∧ (b = true ↔ filter_sem f e).
Proof.
  intros Hf He. unfold doesMatch, doesMatchTimes.
  rewrite created_at_encode, id_encode, pubkey_encode, kind_encode by done.
  destruct (neverMatch f) eqn:Hn.
  { exists false. split; [done|]. split; [done|]. intros []. congruence. }
  destruct (N.ltb_spec (ev_created_at e) (since f)) as [Hs|Hs]; simpl.
  { exists false. split; [done|]. split; [done|]. intros []. lia. }
  destruct (N.ltb_spec (until f) (ev_created_at e)) as [Hu|Hu]; simpl.
  { exists false. split; [done|]. split; [done|]. intros []. lia. }
  edestruct (match_tags_sem (map_to_list (tags f)) e He) as (b & Hb & Hbt).
  { intros c fs Hin%elem_of_map_to_list. by eapply fw_tags. }
  edestruct (guard_set_sem (ids f) (λ s, FilterSetBytes_doesMatch s (ev_id e)))
    as (b1 & H1 & Hb1); [| |exists b1; split; [exact H1|]].
  - intros fs Hfs. apply fsb_ok_doesMatch. by eapply fw_ids.
  - apply guard_set_sem.
    + intros fs Hfs. apply fsb_ok_doesMatch. by eapply fw_authors.
    + apply guard_set_sem with (P := λ fs, ev_kind e ∈ fs); [|by exists b].
      intros fs Hfs. rewrite FilterSetUint_doesMatch_wf by by eapply fw_kinds.
      eexists. split; [done|]. apply bool_decide_eq_true.
  - rewrite Hb1. split.
    + intros (? & ? & ? & Ht). split; try done.
      intros c fs Hc. apply Ht. by apply elem_of_map_to_list.
    + intros []. split_and!; try done. intros c fs Hin%elem_of_map_to_list. eauto.
Qed.

(** ** The constructor *)

(** The slot an entry fills is still untouched: object keys are unique. *)
Record fresh f (k : bytes) : Prop := {
  fr_ids : k = #"ids" → ids f = None;
  fr_authors : k = #"authors" → authors f = None;
  fr_kinds : k = #"kinds" → kinds f = None;
  fr_tag : ∀ c, k = ["#"%char; c] → tags f !! c = None;
  fr_since : k = #"since" → since f = 0%N;
  fr_until : k = #"until" → until f = MAX_U64;
}.

Lemma fsb_ok_hex v mn mx fs :
  FilterSetBytes_make v true mn mx = Ok fs →
  fsb_ok fs ∧ ∀ x, fsb_mem fs x ↔ hex_member v x.
Proof.
  intros (l & Hr & Hl)%FilterSetBytes_make_hex. split; [by exists l|].
  intros x. by rewrite (fsb_mem_repr fs l x Hr).
Qed.

Lemma fsb_ok_str v mn mx fs :
  FilterSetBytes_make v false mn mx = Ok fs →
  fsb_ok fs ∧ ∀ x, fsb_mem fs x ↔ str_member v x.
Proof.
  intros (l & Hr & Hl)%FilterSetBytes_make_str. split; [by exists l|].
  intros x. by rewrite (fsb_mem_repr fs l x Hr).
Qed.

Lemma fsb_ok_tag v tag fs :
  tag_set_make tag v = Ok fs →
  fsb_ok fs ∧ ∀ x, fsb_mem fs x ↔ tag_member tag v x.
Proof. unfold tag_set_make, tag_member. destruct (is_hex_tag tag); [apply fsb_ok_hex|apply fsb_ok_str]. Qed.

Lemma nonempty_array v : is_empty_array v = false → v ≠ JArray [].
Proof. by intros Hv ->. Qed.

(** The successful outcomes of one loop iteration. *)
Inductive step_case f n : bytes → value → NostrFilter → nat → Prop :=
  | step_never k : step_case f n k (JArray []) (set_neverMatch f) n
  | step_ids v fs : v ≠ JArray [] → FilterSetBytes_make v true 32 32 = Ok fs →
      step_case f n #"ids" v (set_ids f fs) (S n)
  | step_authors v fs : v ≠ JArray [] → FilterSetBytes_make v true 32 32 = Ok fs →
      step_case f n #"authors" v (set_authors f fs) (S n)
  | step_kinds v fs : v ≠ JArray [] → FilterSetUint_make v = Ok fs →
      step_case f n #"kinds" v (set_kinds f fs) (S n)
  | step_tag c v fs : v ≠ JArray [] → tag_set_make c v = Ok fs →
      step_case f n ["#"%char; c] v (set_tags f (tags_emplace (tags f) c fs)) (S n)
  | step_since m : step_case f n #"since" (JUnsigned m) (set_since f m) n
  | step_until m : step_case f n #"until" (JUnsigned m) (set_until f m) n
  | step_limit m : step_case f n #"limit" (JUnsigned m) (set_limit f m) n.

Lemma filter_step_case f n k v f' n' :
  filter_step (f, n) (k, v) = Ok (f', n') → step_case f n k v f' n'.
Proof.
  unfold filter_step. destruct (is_empty_array v) eqn:Hv.
  { intros [= <- <-]. destruct v as [| | | | | |[|]|]; try done. constructor. }
  apply nonempty_array in Hv.
  case_decide; [intros H'; inv_result; simplify_eq; by constructor|].
  case_decide; [intros H'; inv_result; simplify_eq; by constructor|].
  case_decide; [intros H'; inv_result; simplify_eq; by constructor|].
  assert ((if decide (k = #"since") then n0 ← get_unsigned v; Ok (set_since f n0, n)
           else if decide (k = #"until") then n0 ← get_unsigned v; Ok (set_until f n0, n)
           else if decide (k = #"limit") then n0 ← get_unsigned v; Ok (set_limit f n0, n)
           else Throw (herr #"unrecognised filter item")) = Ok (f', n') →
          step_case f n k v f' n') as Htimes.
  { repeat case_decide; intros H'; inv_result; simplify_eq;
      match goal with G : get_unsigned _ = _ |- _ => apply get_unsigned_Ok in G end;
      subst; constructor. }
  destruct k as [|c rest]; [done|].
  destruct (decide (c = "#"%char)) as [->|Hc].
  - destruct rest as [|tag [|]]; try done. intros H'; inv_result. simplify_eq.
    by constructor.
  - intros H'. apply Htimes. destruct c as [[] [] [] [] [] [] [] []]; done.
Qed.

Ltac step_cases H := inversion H; subst; clear H; simpl in *.

(** One iteration keeps stored sets well formed and adds the entry's
    condition to the filter's meaning. *)
Lemma step_case_wf f n k v f' n' :
  step_case f n k v f' n' → filter_wf f → filter_wf f'.
Proof.
  intros Hst []. step_cases Hst; constructor; simpl; try done;
    repeat match goal with
    | G : FilterSetBytes_make _ true _ _ = _ |- _ => apply fsb_ok_hex in G as [? _]
    | G : tag_set_make _ _ = _ |- _ => apply fsb_ok_tag in G as [? _]
    | G : FilterSetUint_make _ = _ |- _ => apply FilterSetUint_make_wf in G as [? _]
    end; try (intros ? [= <-]; done).
  intros c' fs'. unfold tags_emplace. destruct (tags f !! c) eqn:Hc; [eauto|].
  rewrite lookup_insert. case_decide; [intros [= <-]; done|eauto].
Qed.

Lemma step_case_fresh f n k v f' n' k' :
  step_case f n k v f' n' → k' ≠ k → fresh f k' → fresh f' k'.
Proof.
  intros Hst Hk []. step_cases Hst; constructor; simpl; try done.
  intros c' ->. unfold tags_emplace. destruct (tags f !! c) eqn:Hc; [eauto|].
  rewrite lookup_insert_ne; [eauto|]. naive_solver.
Qed.

Lemma entry_spec_other k v e :
  v ≠ JArray [] → k ≠ #"ids" → k ≠ #"authors" → k ≠ #"kinds" →
  (∀ c, k ≠ ["#"%char; c]) → k ≠ #"since" → k ≠ #"until" → entry_spec k v e.
Proof. intros. constructor; try done. intros c ->. naive_solver. Qed.

Lemma step_case_sem f n k v f' n' e :
  step_case f n k v f' n' → fresh f k → wf_event e →
  filter_sem f' e ↔ filter_sem f e ∧ entry_spec k v e.
Proof.
  intros Hst Hfr He. step_cases Hst.
  - split; [intros []; done|intros [_ []]; done].
  - pose proof (fr_ids _ _ Hfr eq_refl) as Hids.
    apply fsb_ok_hex in H2 as [_ Hmem]. split.
    + intros []. split; constructor; simpl in *; try done; try congruence.
      intros _. apply Hmem. by apply sem_ids0.
    + intros [[] []]. constructor; simpl; try done. intros ? [= <-]. apply Hmem. auto.
  - pose proof (fr_authors _ _ Hfr eq_refl) as Hids.
    apply fsb_ok_hex in H2 as [_ Hmem]. split.
    + intros []. split; constructor; simpl in *; try done; try congruence.
      intros _. apply Hmem. by apply sem_authors0.
    + intros [[] []]. constructor; simpl; try done. intros ? [= <-]. apply Hmem. auto.
  - pose proof (fr_kinds _ _ Hfr eq_refl) as Hids.
    apply FilterSetUint_make_wf in H2 as [_ Hmem]. split.
    + intros []. split; constructor; simpl in *; try done; try congruence.
      intros _. apply Hmem. by apply sem_kinds0.
    + intros [[] []]. constructor; simpl; try done. intros ? [= <-]. apply Hmem. auto.
  - pose proof (fr_tag _ _ Hfr c eq_refl) as Hc.
    apply fsb_ok_tag in H2 as [_ Hmem]. unfold tags_emplace. rewrite Hc.
    split.
    + intros []. simpl in *. split; constructor; simpl; try done.
      * intros c' fs' Hc'. apply sem_tags0. rewrite lookup_insert_ne; [done|congruence].
      * intros c' [= <-]. destruct (sem_tags0 c fs) as (t & Ht & <- & Hm);
          [by rewrite lookup_insert_eq|].
        exists t. split; [done|]. split; [done|]. by apply Hmem.
    + intros [[] []]. constructor; simpl; try done. intros c' fs'.
      rewrite lookup_insert. case_decide as Hcc; [|apply sem_tags0].
      intros [= <-]. destruct (es_tag0 c eq_refl) as (t & Ht & <- & Hm).
      exists t. split; [done|]. split; [done|]. by apply Hmem.
  - pose proof (fr_since _ _ Hfr eq_refl) as Hs. split.
    + intros []. simpl in *. split; constructor; simpl; try done; try lia. naive_solver.
    + intros [[] []]. constructor; simpl; try done. by apply es_since0.
  - pose proof (fr_until _ _ Hfr eq_refl) as Hs. split.
    + intros Hsem. split; [|constructor; try done; intros _ ? [= <-]; apply Hsem].
      constructor; try apply Hsem. rewrite Hs.
      pose proof (wf_created_at _ He) as Hb. unfold is_u64, two64, MAX_U64 in *. lia.
    + intros [[] []]. constructor; simpl; try done. by apply es_until0.
  - split.
    + intros []. split; [by constructor|]. by apply entry_spec_other.
    + intros [[] _]. by constructor.
Qed.

Lemma filter_fold_sem kvs f n f' n' e :
  NoDup kvs.*1 → (∀ k, k ∈ kvs.*1 → fresh f k) → wf_event e → filter_wf f →
  foldM filter_step (f, n) kvs = Ok (f', n') →
  filter_wf f' ∧ (filter_sem f' e ↔ filter_sem f e ∧ filter_spec kvs e).
Proof.
  intros Hnd Hfr He. revert f n Hnd Hfr.
  induction kvs as [|[k v] kvs IH]; intros f n Hnd Hfr Hwf; simpl.
  - intros [= <- <-]. split; [done|]. split; [|by intros [? _]].
    intros Hs. split; [done|]. intros k v Hin. inversion Hin.
  - intros ([f1 n1] & Hst%filter_step_case & Hrest)%bind_Ok_inv.
    simpl in Hnd. apply NoDup_cons in Hnd as [Hk Hnd].
    destruct (IH f1 n1) as [Hwf' Hsem']; [done| | |done|].
    + intros k' Hk'. eapply step_case_fresh; [done| |].
      * intros ->. done.
      * apply Hfr. by constructor.
    + by eapply step_case_wf.
    + split; [done|]. rewrite Hsem', (step_case_sem _ _ _ _ _ _ e Hst) by (done || (apply Hfr; constructor)).
      split.
      * intros [[Hf Hkv] Hkvs]. split; [done|].
        intros k' v' [[= -> ->]|Hin]%elem_of_cons; auto.
      * intros [Hf Hall]. split; [split; [done|apply Hall; constructor]|].
        intros k' v' Hin. apply Hall. by constructor.
Qed.

Lemma filter_sem_default e : wf_event e → filter_sem filter_default e.
Proof.
  intros He. constructor; simpl; try done; [lia|].
  pose proof (wf_created_at _ He). unfold is_u64, two64, MAX_U64 in *. lia.
Qed.

(** A filter built from an object is well formed and means the object. *)
Lemma NostrFilter_make_sem kvs lim f e :
  NostrFilter_make (JObject kvs) lim = Ok f → NoDup kvs.*1 → wf_event e →
  filter_wf f ∧ (filter_sem f e ↔ filter_spec kvs e).
Proof.
  unfold NostrFilter_make. simpl. intros Hmk Hnd He.
  apply bind_Ok_inv in Hmk as ([f0 n0] & Hfold & Hmk). inv_result.
  eapply (filter_fold_sem kvs filter_default 0 f0 n0 e) in Hfold as [[] Hsem];
    [|done|by constructor|done|by constructor].
  assert (filter_sem f0 e ↔ filter_spec kvs e) as Hs.
  { rewrite Hsem. pose proof (filter_sem_default e He). naive_solver. }
  rewrite <-Hs. destruct (lim <? limit f0)%N; simplify_eq;
    (split; [by constructor|]); (split; intros []; by constructor).
Qed.

(** ** Groups *)

(** The object a filter was built from has distinct keys, as every parsed
    object does. *)
Definition object_keys_distinct (v : value) : Prop :=
  match v with JObject kvs => NoDup kvs.*1 | _ => True end.

Definition value_spec (v : value) (e : event) : Prop :=
  ∃ kvs, v = JObject kvs ∧ filter_spec kvs e.

Lemma NostrFilter_make_object v lim f :
  NostrFilter_make v lim = Ok f → ∃ kvs, v = JObject kvs.
Proof. destruct v; try done. by eexists. Qed.

Lemma group_doesMatch_sem fs e :
  wf_event e → Forall filter_wf fs →
  ∃ b, group_doesMatch fs (mk_view (encode e)) = Ok b ∧
    (b = true ↔ ∃ f, f ∈ fs ∧ filter_sem f e).
Proof.
  intros He. induction 1 as [|f fs Hf Hfs IH]; simpl.
  - exists false. split; [done|]. split; [done|]. intros (f & Hin & _). inversion Hin.
  - destruct (doesMatch_sem f e Hf He) as (b1 & -> & Hb1). simpl. destruct b1.
    + exists true. split; [done|]. split; [|done]. intros _.
      exists f. split; [constructor|by apply Hb1].
    + destruct IH as (b & Hb & IH). exists b. split; [done|]. rewrite IH. split.
      * intros (g & Hg & ?). exists g. split; [by constructor|done].
      * intros (g & [->|Hg]%elem_of_cons & Hs); [|by exists g].
        by apply Hb1 in Hs.
Qed.

Lemma group_fold_sem lim vs acc fs e :
  wf_event e → Forall object_keys_distinct vs → Forall filter_wf acc →
  foldM (group_step lim) acc vs = Ok fs →
  Forall filter_wf fs ∧
  ((∃ f, f ∈ fs ∧ filter_sem f e) ↔
   (∃ f, f ∈ acc ∧ filter_sem f e) ∨ (∃ v, v ∈ vs ∧ value_spec v e)).
Proof.
  intros He. revert acc. induction vs as [|v vs IH]; intros acc Hvs Hacc; simpl.
  - intros [= <-]. split; [done|]. split; [by left|].
    intros [?|(v & Hv & _)]; [done|inversion Hv].
  - intros (acc1 & Hstep & Hrest)%bind_Ok_inv. unfold group_step in Hstep. inv_result.
    apply Forall_cons in Hvs as [Hv Hvs].
    destruct (NostrFilter_make_object _ _ _ Hr) as [kvs ->].
    destruct (NostrFilter_make_sem kvs lim r e Hr Hv He) as [Hwf Hsem].
    destruct (IH acc1 Hvs) as [Hwf' Hsem']; [|done|].
    + subst. destruct (neverMatch r); [done|].
      apply Forall_app. split; [done|]. by apply Forall_singleton.
    + split; [done|]. rewrite Hsem'.
      assert ((∃ f, f ∈ acc1 ∧ filter_sem f e) ↔
              (∃ f, f ∈ acc ∧ filter_sem f e) ∨ filter_spec kvs e) as ->.
      { rewrite <-Hsem. subst acc1. destruct (neverMatch r) eqn:Hn.
        - split; [by left|]. intros [?|[]]; [done|congruence].
        - setoid_rewrite elem_of_app. setoid_rewrite list_elem_of_singleton.
          split; [naive_solver|]. intros [(f & ? & ?)|?]; eauto. }
      setoid_rewrite elem_of_cons. split.
      * intros [[?|?]|(w & ? & ?)]; [by left| |right; eauto].
        right. exists (JObject kvs). split; [by left|]. by exists kvs.
      * intros [?|(w & [->|?] & Hw)]; [by left; left| |right; eauto].
        destruct Hw as (kvs' & [= <-] & ?). left. by right.
Qed.

(** ** What the constructor accepts *)

(** The shape an entry must have. *)
Definition entry_ok (k : bytes) (v : value) : Prop :=
  v = JArray [] ∨
  ((k = #"ids" ∨ k = #"authors") ∧ ∃ l, v = JArray l ∧
     ∀ j, j ∈ l → ∃ s, read_item true 32 32 j = Ok s) ∨
  (k = #"kinds" ∧ ∃ l, v = JArray l ∧ ∀ j, j ∈ l → ∃ n, j = JUnsigned n) ∨
  (∃ c l, k = ["#"%char; c] ∧ v = JArray l ∧
     ∀ j, j ∈ l → ∃ s,
       (if is_hex_tag c then read_item true 32 32 j
        else read_item false 0 MAX_INDEXED_TAG_VAL_SIZE j) = Ok s) ∨
  ((k = #"since" ∨ k = #"until" ∨ k = #"limit") ∧ ∃ n, v = JUnsigned n).

Lemma FilterSetBytes_make_shape v h mn mx fs :
  FilterSetBytes_make v h mn mx = Ok fs →
  ∃ l, v = JArray l ∧ ∀ j, j ∈ l → ∃ s, read_item h mn mx j = Ok s.
Proof.
  intros Hmk. pose proof Hmk as (_ & _ & _ & Hall)%FilterSetBytes_make_repr.
  unfold FilterSetBytes_make in Hmk. inv_json. by exists r0.
Qed.

Lemma FilterSetUint_make_shape v fs :
  FilterSetUint_make v = Ok fs →
  ∃ l, v = JArray l ∧ ∀ j, j ∈ l → ∃ n, j = JUnsigned n.
Proof.
  unfold FilterSetUint_make. intros Hmk. inv_json. exists r. split; [done|].
  intros j [i Hi]%list_elem_of_lookup. apply mapR_Ok in Hr0.
  destruct (Forall2_lookup_l _ _ _ _ _ Hr0 Hi) as (n & _ & Hn%get_unsigned_Ok). by exists n.
Qed.

Lemma step_case_ok f n k v f' n' : step_case f n k v f' n' → entry_ok k v.
Proof.
  intros Hst. unfold entry_ok. step_cases Hst;
    repeat match goal with
    | G : FilterSetBytes_make _ _ _ _ = _ |- _ => apply FilterSetBytes_make_shape in G
    | G : FilterSetUint_make _ = _ |- _ => apply FilterSetUint_make_shape in G
    end; eauto 10.
  unfold tag_set_make in *. do 3 right. left.
  destruct (is_hex_tag c) eqn:Hc;
    match goal with
    | G : FilterSetBytes_make _ _ _ _ = _ |- _ =>
        apply FilterSetBytes_make_shape in G as (l & -> & Hl)
    end; exists c, l; rewrite Hc; eauto.
Qed.

Lemma filter_fold_ok kvs f n f' n' k v :
  foldM filter_step (f, n) kvs = Ok (f', n') → (k, v) ∈ kvs → entry_ok k v.
Proof.
  revert f n. induction kvs as [|[k1 v1] kvs IH]; intros f n; simpl; [intros _ Hin; inversion Hin|].
  intros ([f1 n1] & Hst%filter_step_case & Hrest)%bind_Ok_inv [[= -> ->]|Hin]%elem_of_cons.
  - by eapply step_case_ok.
  - by eapply IH.
Qed.

Lemma filter_step_never_keeps f n kv f' n' :
  filter_step (f, n) kv = Ok (f', n') → neverMatch f = true → neverMatch f' = true.
Proof. destruct kv as [k v]. intros Hst%filter_step_case Hn. by step_cases Hst. Qed.

Lemma filter_fold_never kvs f n f' n' k :
  foldM filter_step (f, n) kvs = Ok (f', n') → (k, JArray []) ∈ kvs → neverMatch f' = true.
Proof.
  intros Hfold Hin. apply list_elem_of_split in Hin as (l1 & l2 & ->).
  rewrite foldM_app in Hfold. apply bind_Ok_inv in Hfold as ([f1 n1] & _ & Hfold).
  simpl in Hfold. revert Hfold.
  apply (foldM_inv (λ st, neverMatch st.1 = true) _ _ _ (f', n')); [|done].
  intros [g m] kv [g' m'] _ Hg Hst. by eapply filter_step_never_keeps.
Qed.
End spec.

(** ** Properties *)

Section properties.
Context `{!Hex} `{!NativeU64}.

(** C3: a filter built from a JSON object matches exactly the events that
    satisfy every entry of the object (ids, authors and kinds membership,
    one event tag per tag filter, the since/until window, no empty array),
    and matching a well-formed packed event never throws or reads out of
    bounds. *)
Theorem filter_match_correct kvs lim f e :
  NostrFilter_make (JObject kvs) lim = Ok f → NoDup kvs.*1 → wf_event e →
  ∃ b, doesMatch f (mk_view (encode e)) = Ok b ∧ (b = true ↔ filter_spec kvs e).
Proof.
  intros Hmk Hnd He. destruct (NostrFilter_make_sem _ _ _ e Hmk Hnd He) as [Hwf Hsem].
  destruct (doesMatch_sem f e Hwf He) as (b & Hb & Hbs). exists b. by rewrite <-Hsem.
Qed.

(** The filter group of a REQ message matches an event exactly when one
    of its filter objects does; the filters dropped because they can never
    match make no difference. *)
Theorem group_match_correct cmd subId vs lim g e :
  NostrFilterGroup_make (JArray (cmd :: subId :: vs)) lim = Ok g →
  Forall object_keys_distinct vs → wf_event e →
  ∃ b, group_doesMatch g (mk_view (encode e)) = Ok b ∧
    (b = true ↔ ∃ v, v ∈ vs ∧ value_spec v e).
Proof.
  unfold NostrFilterGroup_make. simpl. intros Hmk Hvs He. inv_result.
  destruct (group_fold_sem lim vs [] g e He Hvs ltac:(constructor) Hmk) as [Hwf Hsem].
  destruct (group_doesMatch_sem g e He Hwf) as (b & Hb & Hbs). exists b.
  split; [done|]. rewrite Hbs, Hsem. split; [|by right].
  intros [(f & Hf & _)|?]; [inversion Hf|done].
Qed.

(** A filter object is accepted only when every entry is known and well
    typed: 32-octet hex strings for ids, authors, #e and #p, strings of at
    most 255 octets for the other single-letter tags, unsigned numbers for
    kinds, since, until and limit (or an empty array, which makes the filter
    match nothing); the accepted filter asks for at most three tags and its
    limit never exceeds the configured maximum. *)
Theorem filter_validation kvs lim f :
  NostrFilter_make (JObject kvs) lim = Ok f →
  (∀ k v, (k, v) ∈ kvs → entry_ok k v) ∧
  base.size (tags f) ≤ 3 ∧ (limit f ≤ lim)%N ∧
  ((∃ k, (k, JArray []) ∈ kvs) → neverMatch f = true).
Proof.
  unfold NostrFilter_make. simpl. intros Hmk.
  apply bind_Ok_inv in Hmk as ([f0 n0] & Hfold & Hmk). inv_result.
  apply Nat.ltb_ge in Hr.
  assert (tags f = tags f0 ∧ neverMatch f = neverMatch f0 ∧ (limit f ≤ lim)%N)
    as (-> & -> & Hlim).
  { subst f. destruct (N.ltb_spec lim (limit f0)); simpl; split_and!; done || lia. }
  split_and!; [intros k v; by eapply filter_fold_ok|done|done|].
  intros [k Hk]. by eapply filter_fold_never.
Qed.
End properties.

(** A filter as a client sends it, and the sample event it matches. *)
Definition sample_filter_obj : list (bytes * value) :=
  [(#"#d", JArray [JString #"quote-1"; JString #"quote-9"]);
   (#"#e", JArray [JString (hex_encode (replicate 32 "r"%char))]);
   (#"kinds", JArray [JUnsigned 30078; JUnsigned 1]);
   (#"limit", JUnsigned 1000);
   (#"since", JUnsigned 1600000000)].

Definition sample_filter : NostrFilter :=
  match NostrFilter_make (JObject sample_filter_obj) 500 with
  | Ok f => f
  | Throw _ => filter_default
  end.

Lemma filter_match_correct_witness :
  doesMatch sample_filter (mk_view (encode sample_event)) = Ok true ∧
  ∃ b, doesMatch sample_filter (mk_view (encode sample_event)) = Ok b ∧
    (b = true ↔ filter_spec sample_filter_obj sample_event).
Proof.
  split; [vm_compute; reflexivity|].
  apply (filter_match_correct sample_filter_obj 500 sample_filter sample_event).
  - vm_compute. reflexivity.
  - apply (bool_decide_unpack _). vm_compute. exact I.
  - exact sample_event_wf.
Defined.

Lemma group_match_correct_witness :
  ∃ b, group_doesMatch [sample_filter] (mk_view (encode sample_event)) = Ok b ∧
    (b = true ↔ ∃ v, v ∈ [JObject [(#"ids", JArray [])]; JObject sample_filter_obj] ∧
       value_spec v sample_event).
Proof.
  apply (group_match_correct (JString #"REQ") (JString #"sub")
    [JObject [(#"ids", JArray [])]; JObject sample_filter_obj] 500).
  - vm_compute. reflexivity.
  - repeat (constructor; [apply (bool_decide_unpack _); vm_compute; exact I|]). constructor.
  - exact sample_event_wf.
Defined.

Lemma filter_validation_witness : (limit sample_filter ≤ 500)%N.
Proof.
  apply (filter_validation sample_filter_obj 500 sample_filter). vm_compute. reflexivity.
Defined.
