(* ===== verification/Config.v ===== *)
(** The configuration values the modelled code reads ([cfg()]).

    The fields are those of [golpe.yaml] and [src/apps/relay/golpe.yaml] that
    the modelled parts use; [default_config] holds their defaults. *)

From S2P Require Import Prelude.

Record Config := mk_config {
  events__maxEventSize : N;
  events__rejectEventsNewerThanSeconds : N;
  events__rejectEventsOlderThanSeconds : N;
  events__rejectEphemeralEventsOlderThanSeconds : N;
  events__maxNumTags : N;
  events__maxTagValSize : N;
  relay__maxFilterLimit : N;
  relay__maxSubsPerConnection : N;
  relay__queryTimesliceBudgetMicroseconds : N;
  events__ephemeralEventsLifetimeSeconds : N;
  relay__whitelist__enabled : bool;
  relay__whitelist__pubkeys : bytes;
  relay__maxReqFilterSize : N;
  relay__negentropy__enabled : bool;
  relay__negentropy__maxSyncEvents : N;
  relay__serviceUrl : bytes;
  relay__writePolicy__plugin : bytes;
}.

(** Configuration numbers are [uint64_t]. *)
Record config_ok (c : Config) : Prop := {
  co_newer : is_u64 (events__rejectEventsNewerThanSeconds c);
  co_older : is_u64 (events__rejectEventsOlderThanSeconds c);
  co_ephemeral : is_u64 (events__rejectEphemeralEventsOlderThanSeconds c);
}.

Definition default_config : Config :=
  mk_config 65536 900 94608000 60 2000 1024 500 20 10000
    300 false [] 200 true 1000000 [] [].
