(* ===== verification/EventParse.v ===== *)
(** From JSON to packed events ([events.h], [events.cpp], [misc.cpp]).

    The kind classes, [nostrJsonToPackedEvent], the hash, signature, size and
    timestamp checks and [parseAndVerifyEvent].  JSON printing, SHA-256 and the
    secp256k1 calls are parameters ([EventLibs]); the clock reading is an
    argument. *)

From S2P Require Import Prelude Bytes Json Hex PackedEvent Config.

(** ** Kinds *)

Definition isReplaceableKind (kind : N) : bool :=
  ((kind =? 0) || (kind =? 3) || (kind =? 41) ||
   ((10000 <=? kind) && (kind <? 20000)))%N%bool.

Definition isParamReplaceableKind (kind : N) : bool :=
  ((30000 <=? kind) && (kind <? 40000))%N%bool.

Definition isEphemeralKind (kind : N) : bool :=
  ((20000 <=? kind) && (kind <? 30000))%N%bool.

(** ** [parseUint64] *)

Definition digitChar (c : ascii) : bool :=
  ((48 <=? byteN c) && (byteN c <=? 57))%N%bool.

Definition decimal_value (s : bytes) : N :=
  foldl (λ acc c, (acc * 10 + (byteN c - 48))%N) 0%N s.

(** [std::stoull] on a string of digits. *)
Definition stoull_digits (s : bytes) : result N :=
  match s with
  | [] => Throw invalid_argument
  | _ => let n := decimal_value s in
         if (MAX_U64 <? n)%N then Throw out_of_range else Ok n
  end.

Definition parseUint64 (s : bytes) : result N :=
  _ ← throw_if (negb (forallb digitChar s)) (herr #"non-digit character");
  stoull_digits s.

(** ** [nostrJsonToPackedEvent] *)

Section parse.
Context `{!Hex} `{!NativeU64} (cfg : Config).

(** One element of the tags array; the state is the tag builder's buffer and
    the expiration found so far. *)
Definition tag_step (st : bytes * N) (tagArr : value) : result (bytes * N) :=
  let '(tb, expiration) := st in
  tag ← jsonGetArray tagArr #"tag in tags field was not an array";
  match tag with
  | [] => Throw (herr #"too few fields in tag")
  | t0 :: rest =>
      tagName ← jsonGetString t0 #"tag name was not a string";
      tagVal ← (match rest with
                | [] => Ok []
                | t1 :: _ => jsonGetString t1 #"tag val was not a string"
                end);
      if decide (tagName = #"e" ∨ tagName = #"p") then
        _ ← throw_if (negb (length tagVal =? 64))
              (herr (#"unexpected size for fixed-size tag: " ++ tagName));
        tagVal ← from_hex tagVal false;
        tb ← tagBuilder_add tb (default "000"%char (head tagName)) tagVal;
        Ok (tb, expiration)
      else if decide (tagName = #"expiration") then
        if (expiration =? 0)%N then
          expiration ← parseUint64 tagVal;
          _ ← throw_if (expiration <? 100)%N (herr #"invalid expiration");
          Ok (tb, expiration)
        else Ok (tb, expiration)
      else match tagName with
      | [c] =>
          _ ← throw_if (events__maxTagValSize cfg <? N.of_nat (length tagVal))%N
                (herr (#"tag val too large: " ++ show_nat (length tagVal)));
          if length tagVal <=? 255 then
            tb ← tagBuilder_add tb c tagVal; Ok (tb, expiration)
          else Ok (tb, expiration)
      | _ => Ok (tb, expiration)
      end
  end.

Definition nostrJsonToPackedEvent (v : value) : result bytes :=
  idV ← at_key v #"id";
  idS ← jsonGetString idV #"event id field was not a string";
  id ← from_hex idS false;
  pubkeyV ← at_key v #"pubkey";
  pubkeyS ← jsonGetString pubkeyV #"event pubkey field was not a string";
  pubkey ← from_hex pubkeyS false;
  created_atV ← at_key v #"created_at";
  created_at ← jsonGetUnsigned created_atV #"event created_at field was not an integer";
  kindV ← at_key v #"kind";
  kind ← jsonGetUnsigned kindV #"event kind field was not an integer";
  _ ← throw_if (negb (length id =? 32)) (herr #"unexpected id size");
  _ ← throw_if (negb (length pubkey =? 32)) (herr #"unexpected pubkey size");
  contentV ← at_key v #"content";
  _ ← jsonGetString contentV #"event content field was not a string";
  (* Prepend virtual d-tag *)
  tb ← (if isReplaceableKind kind then tagBuilder_add [] "d"%char [] else Ok []);
  tagsV ← at_key v #"tags";
  tags ← jsonGetArray tagsV #"tags field not an array";
  _ ← throw_if (events__maxNumTags cfg <? N.of_nat (length tags))%N
        (herr (#"too many tags: " ++ show_nat (length tags)));
  '(tb, expiration) ← foldM tag_step (tb, 0%N) tags;
  (* Append virtual d-tag *)
  tb ← (if isParamReplaceableKind kind then tagBuilder_add tb "d"%char [] else Ok tb);
  let expiration := if isEphemeralKind kind then 1%N else expiration in
  PackedEventBuilder id pubkey created_at kind expiration tb.

(** ** [verifyEventTimestamp] *)

Definition verifyEventTimestamp (now : N) (packed : PackedEventView) : result unit :=
  let ts := created_at packed in
  let isEphemeral := (expiration packed =? 1)%N in
  let earliest := u64_sub now
    (if isEphemeral then events__rejectEphemeralEventsOlderThanSeconds cfg
     else events__rejectEventsOlderThanSeconds cfg) in
  let latest := u64_add now (events__rejectEventsNewerThanSeconds cfg) in
  (* overflows *)
  let earliest := if (now <? earliest)%N then 0%N else earliest in
  let latest := if (latest <? now)%N then (MAX_U64 - 1)%N else latest in
  _ ← throw_if (ts <? earliest)%N
        (herr (if isEphemeral then #"ephemeral event expired"
               else #"created_at too early"));
  _ ← throw_if (latest <? ts)%N (herr #"created_at too late");
  throw_if ((1 <? expiration packed) && (expiration packed <=? now))%N
    (herr #"event expired").

(** [verifyNostrEventJsonSize] *)
Definition verifyNostrEventJsonSize (jsonStr : bytes) : result unit :=
  throw_if (events__maxEventSize cfg <? N.of_nat (length jsonStr))%N
    (herr (#"event too large: " ++ show_nat (length jsonStr))).
End parse.

(** ** Authentication *)

(** The JSON printer, SHA-256 and the two secp256k1 calls of [verifySig]. *)
Class EventLibs := {
  json_to_string : value → bytes;
  sha256 : bytes → bytes;
  sha256_length : ∀ s, length (sha256 s) = 32;
  xonly_pubkey : Type;
  xonly_pubkey_parse : bytes → option xonly_pubkey;
  schnorrsig_verify : bytes → bytes → xonly_pubkey → bool;
}.

Section verify.
Context `{!Hex} `{!NativeU64} `{!EventLibs} (cfg : Config).

(** [Bytes32(s)] *)
Definition Bytes32 (s : bytes) : result bytes :=
  _ ← throw_if (negb (length s =? 32)) (herr #"invalid length for Bytes32"); Ok s.

Definition nostrHash (origJson : value) : result bytes :=
  pubkey ← at_key origJson #"pubkey";
  created_at ← at_key origJson #"created_at";
  kind ← at_key origJson #"kind";
  tags ← at_key origJson #"tags";
  content ← at_key origJson #"content";
  let encoded :=
    json_to_string (JArray [JSigned 0; pubkey; created_at; kind; tags; content]) in
  Bytes32 (sha256 encoded).

Definition verifySig (sig hash pubkey : bytes) : result bool :=
  _ ← throw_if (negb (length sig =? 64) || negb (length hash =? 32) ||
                negb (length pubkey =? 32))
        (herr #"verify sig: bad input size");
  match xonly_pubkey_parse pubkey with
  | None => Throw (herr #"verify sig: bad pubkey")
  | Some pk => Ok (schnorrsig_verify sig hash pk)
  end.

Definition verifyNostrEvent (packed : PackedEventView) (origJson : value)
    : result unit :=
  hash ← nostrHash origJson;
  id32 ← Bytes32 (id packed);
  _ ← throw_if (negb (bool_decide (hash = id32))) (herr #"bad event id");
  sigV ← at_key origJson #"sig";
  sigS ← jsonGetString sigV #"event sig was not a string";
  sig ← from_hex sigS false;
  valid ← verifySig sig (id packed) (pubkey packed);
  throw_if (negb valid) (herr #"bad signature").

(** The object printed for storage: unknown top-level fields are dropped. *)
Definition normalised (origJson : value) : result value :=
  content ← at_key origJson #"content";
  created_at ← at_key origJson #"created_at";
  id ← at_key origJson #"id";
  kind ← at_key origJson #"kind";
  pubkey ← at_key origJson #"pubkey";
  sig ← at_key origJson #"sig";
  tags ← at_key origJson #"tags";
  Ok (JObject [(#"content", content); (#"created_at", created_at); (#"id", id);
               (#"kind", kind); (#"pubkey", pubkey); (#"sig", sig); (#"tags", tags)]).

(** The result is [(packedStr, jsonStr)]. *)
Definition parseAndVerifyEvent (now : N) (origJson : value)
    (verifyMsg verifyTime : bool) : result (bytes * bytes) :=
  _ ← throw_if (negb (is_object origJson)) (herr #"event is not an object");
  packedStr ← nostrJsonToPackedEvent cfg origJson;
  packed ← view packedStr;
  _ ← (if verifyTime then verifyEventTimestamp cfg now packed else Ok tt);
  _ ← (if verifyMsg then verifyNostrEvent packed origJson else Ok tt);
  norm ← normalised origJson;
  let jsonStr := json_to_string norm in
  _ ← (if verifyMsg then verifyNostrEventJsonSize cfg jsonStr else Ok tt);
  Ok (packedStr, jsonStr).
End verify.

(** ** What parsing reads *)

(** Second element of a tag, or the empty string. *)
Definition tag_value (rest : list value) : bytes :=
  match rest with JString s :: _ => s | _ => [] end.

Definition fixed_size_tag (c : ascii) : bool := char_eqb c "e" || char_eqb c "p".

(** The indexed form of a JSON tag: single-letter names only, [e] and [p]
    decoded from hex, other values kept when they fit in an octet length. *)
Definition index_tag `{!Hex} (j : value) : option tag :=
  match j with
  | JArray (JString [c] :: rest) =>
      if fixed_size_tag c then
        match from_hex (tag_value rest) false with Ok b => Some (c, b) | _ => None end
      else if length (tag_value rest) <=? 255 then Some (c, tag_value rest)
      else None
  | _ => None
  end.

Definition expiration_tag (j : value) : option N :=
  match j with
  | JArray (JString name :: rest) =>
      if decide (name = #"expiration") then Some (decimal_value (tag_value rest)) else None
  | _ => None
  end.

Definition first_expiration (l : list value) : N :=
  default 0%N (head (omap expiration_tag l)).

(** The tags of the packed event: the virtual [d] tags around the indexed
    ones. *)
Definition packed_tags `{!Hex} (kind : N) (l : list value) : list tag :=
  (if isReplaceableKind kind then [("d"%char, [])] else []) ++
  omap index_tag l ++
  (if isParamReplaceableKind kind then [("d"%char, [])] else []).

Lemma decimal_value_bound s n : stoull_digits s = Ok n → n = decimal_value s ∧ is_u64 n.
Proof.
  unfold stoull_digits. destruct s as [|c s]; [done|].
  destruct (N.ltb_spec MAX_U64 (decimal_value (c :: s))) as [H|H]; [done|].
  intros [= <-]. split; [done|]. unfold is_u64, two64, MAX_U64 in *. lia.
Qed.

Lemma parseUint64_Ok s n :
  parseUint64 s = Ok n → n = decimal_value s ∧ is_u64 n ∧ forallb digitChar s = true.
Proof.
  unfold parseUint64. intros H. inv_result. apply decimal_value_bound in H as [-> Hn].
  by apply negb_false_iff in Hr.
Qed.

Section parse_spec.
Context `{!Hex} `{!NativeU64} (cfg : Config).

(** What one successful iteration over the tags did. *)
Record tag_effect (j : value) (tb : bytes) (exp : N) (tb' : bytes) (exp' : N) : Prop := {
  te_wf : Forall wf_tag (option_list (index_tag j));
  te_buf : tb' = tb ++ encode_tags (option_list (index_tag j));
  te_exp : exp' = if (exp =? 0)%N then default 0%N (expiration_tag j) else exp;
  te_u64 : is_u64 exp → is_u64 exp';
  te_min : (exp = 0 → ∀ n, expiration_tag j = Some n → 100 ≤ n)%N;
}.

Lemma tag_effect_none j tb exp :
  index_tag j = None → expiration_tag j = None → tag_effect j tb exp tb exp.
Proof.
  intros Hi He. constructor; rewrite ?Hi, ?He; simpl; try done.
  - by rewrite app_nil_r.
  - by destruct (N.eqb_spec exp 0).
Qed.

Lemma tag_effect_add j k x tb exp tb' :
  index_tag j = Some (k, x) → expiration_tag j = None →
  tagBuilder_add tb k x = Ok tb' → tag_effect j tb exp tb' exp.
Proof.
  intros Hi He [Hwf ->]%tagBuilder_add_Ok. constructor; rewrite ?Hi, ?He; auto.
  - by apply Forall_singleton.
  - simpl. by rewrite encode_tags_cons, app_nil_r.
  - by destruct (N.eqb_spec exp 0).
  - by intros _ n [=].
Qed.

Lemma tag_step_Ok tb exp j tb' exp' :
  tag_step cfg (tb, exp) j = Ok (tb', exp') → tag_effect j tb exp tb' exp'.
Proof.
  unfold tag_step. intros Hst.
  apply bind_Ok_inv in Hst as (tag & ->%jsonGetArray_Ok & Hst).
  destruct tag as [|t0 rest]; [done|].
  apply bind_Ok_inv in Hst as (tagName & ->%jsonGetString_Ok & Hst).
  apply bind_Ok_inv in Hst as (tagVal & Hval & Hst).
  assert (tag_value rest = tagVal) as Hrest.
  { destruct rest as [|t1 rest]; simpl in *; [by injection Hval as <-|].
    by apply jsonGetString_Ok in Hval as ->. }
  case_decide as Hep.
  - apply bind_Ok_inv in Hst as (_ & _ & Hst).
    apply bind_Ok_inv in Hst as (b & Hb & Hst).
    apply bind_Ok_inv in Hst as (tb1 & Htb & [= -> ->]).
    destruct Hep as [-> | ->]; (eapply tag_effect_add; [|done|done]); simpl; by rewrite Hrest, Hb.
  - case_decide as Hexp.
    + subst tagName. assert (index_tag (JArray (JString #"expiration" :: rest)) = None) as Hi by done.
      assert (expiration_tag (JArray (JString #"expiration" :: rest)) =
              Some (decimal_value tagVal)) as He by (simpl; by rewrite Hrest).
      destruct (N.eqb_spec exp 0) as [->|Hne]; inv_result; simplify_eq.
      * apply parseUint64_Ok in Hr as (-> & Hu & _). apply N.ltb_ge in Hr0.
        constructor; rewrite ?Hi, ?He; simpl; try done; [by rewrite app_nil_r|].
        by intros _ n [= <-].
      * constructor; rewrite ?Hi, ?He; simpl; try done; [by rewrite app_nil_r|].
        by destruct (N.eqb_spec exp' 0).
    + assert (expiration_tag (JArray (JString tagName :: rest)) = None) as He
        by (simpl; by rewrite decide_False).
      destruct tagName as [|c [|]]; inv_result; simplify_eq;
        try (apply tag_effect_none; done).
      assert (fixed_size_tag c = false) as Hc.
      { unfold fixed_size_tag, char_eqb.
        destruct (Ascii.eqb_spec c "e"); [subst; by destruct Hep; left|].
        destruct (Ascii.eqb_spec c "p"); [subst; by destruct Hep; right|done]. }
      case_bool; inv_result; simplify_eq.
      * eapply tag_effect_add; [|done|done]. simpl. by rewrite Hc, ?Hrest, E.
      * apply tag_effect_none; [|done]. simpl. by rewrite Hc, ?Hrest, E.
Qed.

Lemma tag_step_etag st j st' b :
  tag_step cfg st j = Ok st' → index_tag j = Some ("e"%char, b) → length b = 32.
Proof.
  destruct st as [tb exp]. unfold tag_step. intros Hst Hi.
  apply bind_Ok_inv in Hst as (tag & ->%jsonGetArray_Ok & Hst).
  destruct tag as [|t0 rest]; [done|].
  apply bind_Ok_inv in Hst as (tagName & ->%jsonGetString_Ok & Hst).
  apply bind_Ok_inv in Hst as (tagVal & Hval & Hst).
  assert (tag_value rest = tagVal) as Hrest.
  { destruct rest as [|t1 rest]; simpl in *; [by injection Hval as <-|].
    by apply jsonGetString_Ok in Hval as ->. }
  destruct tagName as [|c [|]]; [done| |done]. simpl in Hi. rewrite Hrest in Hi.
  destruct (fixed_size_tag c) eqn:Hc.
  - destruct (from_hex tagVal false) as [x|] eqn:Hx; [|done]. injection Hi as -> ->.
    rewrite decide_True in Hst by by left.
    apply bind_Ok_inv in Hst as (_ & Hlen%throw_if_Ok & _).
    apply negb_false_iff, Nat.eqb_eq in Hlen. apply from_hex_length in Hx. lia.
  - destruct (length tagVal <=? 255); [|done]. injection Hi as -> ->. done.
Qed.

Lemma foldM_Ok_elem {S A} (f : S → A → result S) l s s' a :
  foldM f s l = Ok s' → a ∈ l → ∃ s1 s2, f s1 a = Ok s2.
Proof.
  revert s. induction l as [|x l IH]; intros s; [by intros _ ?%not_elem_of_nil|].
  intros (s1 & H1' & H2')%bind_Ok_inv [->|Hin]%elem_of_cons; [by exists s, s1|by eapply IH].
Qed.

Lemma tags_fold_Ok l tb exp tb' exp' :
  foldM (tag_step cfg) (tb, exp) l = Ok (tb', exp') →
  is_u64 exp → (exp = 0 ∨ 100 ≤ exp)%N →
  Forall wf_tag (omap index_tag l) ∧ tb' = tb ++ encode_tags (omap index_tag l) ∧
  exp' = (if (exp =? 0)%N then first_expiration l else exp) ∧
  is_u64 exp' ∧ (exp' = 0 ∨ 100 ≤ exp')%N.
Proof.
  revert tb exp. induction l as [|j l IH]; intros tb exp.
  - intros [= <- <-] Hu Hm. cbn. rewrite app_nil_r. split_and!; try done.
    by destruct (N.eqb_spec exp 0) as [->|].
  - intros ([tb1 exp1] & [Hwf Hbuf Hexp Hu Hm]%tag_step_Ok & Hrest)%bind_Ok_inv Hu0 Hm0.
    assert (exp1 = 0 ∨ 100 ≤ exp1)%N as Hm1.
    { destruct Hm0 as [->|Hm0]; simpl in Hexp.
      - destruct (expiration_tag j) as [n|]; simpl in Hexp; subst; auto.
      - right. subst exp1. destruct (N.eqb_spec exp 0); lia. }
    destruct (IH tb1 exp1 Hrest (Hu Hu0) Hm1) as (Hwf' & -> & -> & Hu' & Hm').
    assert (omap index_tag (j :: l) = option_list (index_tag j) ++ omap index_tag l) as ->
      by (cbn; by destruct (index_tag j)).
    rewrite encode_tags_app, app_assoc, <-Hbuf.
    split; [by apply Forall_app|]. split; [done|]. split; [|done].
    unfold first_expiration. cbn. subst exp1.
    destruct (N.eqb_spec exp 0) as [He|He]; [|by destruct (N.eqb_spec exp 0)].
    destruct (expiration_tag j) as [n|]; simpl; [|done].
    specialize (Hm He n eq_refl). by destruct (N.eqb_spec n 0); [lia|].
Qed.
End parse_spec.

(** ** Properties *)

(** The numbers a parsed JSON document holds are [uint64_t]. *)
Definition u64_field (v : value) (k : bytes) : Prop :=
  ∀ n, at_key v k = Ok (JUnsigned n) → is_u64 n.

(** The event a JSON object is packed as. *)
Record packs_json `{!Hex} (cfg : Config) (v : value) (e : event) : Prop := {
  pj_id : ∃ h, at_key v #"id" = Ok (JString h) ∧ from_hex h false = Ok (ev_id e);
  pj_pubkey : ∃ h, at_key v #"pubkey" = Ok (JString h) ∧ from_hex h false = Ok (ev_pubkey e);
  pj_created_at : at_key v #"created_at" = Ok (JUnsigned (ev_created_at e));
  pj_kind : at_key v #"kind" = Ok (JUnsigned (ev_kind e));
  pj_content : ∃ c, at_key v #"content" = Ok (JString c);
  pj_tags : ∃ l, at_key v #"tags" = Ok (JArray l) ∧
    (N.of_nat (length l) ≤ events__maxNumTags cfg)%N ∧
    ev_tags e = packed_tags (ev_kind e) l ∧
    ev_expiration e = (if isEphemeralKind (ev_kind e) then 1%N else first_expiration l) ∧
    (first_expiration l = 0 ∨ 100 ≤ first_expiration l)%N;
  pj_etags : ∀ b, ("e"%char, b) ∈ ev_tags e → length b = 32;
}.

(** The acceptance window in unbounded arithmetic. *)
Definition timestamp_ok (cfg : Config) (now created exp : N) : Prop :=
  let window := if (exp =? 1)%N then events__rejectEphemeralEventsOlderThanSeconds cfg
                else events__rejectEventsOlderThanSeconds cfg in
  let newest := (now + events__rejectEventsNewerThanSeconds cfg)%N in
  (now ≤ created + window)%N ∧
  (created ≤ if (newest <? two64)%N then newest else MAX_U64 - 1)%N ∧
  ¬ (1 < exp ∧ exp ≤ now)%N.

Section properties.
Context `{!Hex} `{!NativeU64} (cfg : Config).

Lemma nostrJsonToPackedEvent_Ok v s :
  nostrJsonToPackedEvent cfg v = Ok s → u64_field v #"created_at" → u64_field v #"kind" →
  ∃ e, wf_event e ∧ s = encode e ∧ packs_json cfg v e.
Proof.
  unfold nostrJsonToPackedEvent. intros Hp Hc Hk.
  apply bind_Ok_inv in Hp as (idV & Hid & Hp).
  apply bind_Ok_inv in Hp as (idS & ->%jsonGetString_Ok & Hp).
  apply bind_Ok_inv in Hp as (id & Hidx & Hp).
  apply bind_Ok_inv in Hp as (pkV & Hpk & Hp).
  apply bind_Ok_inv in Hp as (pkS & ->%jsonGetString_Ok & Hp).
  apply bind_Ok_inv in Hp as (pk & Hpkx & Hp).
  apply bind_Ok_inv in Hp as (cV & Hcr & Hp).
  apply bind_Ok_inv in Hp as (created & ->%jsonGetUnsigned_Ok & Hp).
  apply bind_Ok_inv in Hp as (kV & Hki & Hp).
  apply bind_Ok_inv in Hp as (kind & ->%jsonGetUnsigned_Ok & Hp).
  apply bind_Ok_inv in Hp as (? & Hl1 & Hp). apply bind_Ok_inv in Hp as (? & Hl2 & Hp).
  apply throw_if_Ok, negb_false_iff, Nat.eqb_eq in Hl1, Hl2.
  apply bind_Ok_inv in Hp as (coV & Hco & Hp).
  apply bind_Ok_inv in Hp as (content & ->%jsonGetString_Ok & Hp).
  apply bind_Ok_inv in Hp as (tb0 & Htb0 & Hp).
  apply bind_Ok_inv in Hp as (tV & Ht & Hp).
  apply bind_Ok_inv in Hp as (l & ->%jsonGetArray_Ok & Hp).
  apply bind_Ok_inv in Hp as (? & Hn%throw_if_Ok%N.ltb_ge & Hp).
  apply bind_Ok_inv in Hp as ([tb1 exp] & Hfold & Hp).
  apply bind_Ok_inv in Hp as (tb2 & Htb2 & Hp).
  assert (∀ j b, j ∈ l → index_tag j = Some ("e"%char, b) → length b = 32) as Het.
  { intros j b Hj Hi. destruct (foldM_Ok_elem _ _ _ _ _ Hfold Hj) as (s1 & s2 & Hst).
    by eapply tag_step_etag. }
  apply tags_fold_Ok in Hfold as (Hwf & -> & -> & Hu & Hmin); [|done|by left].
  cbn [N.eqb] in *.
  assert (tb2 = encode_tags (packed_tags kind l) ∧ Forall wf_tag (packed_tags kind l))
    as [-> Hwft].
  { unfold packed_tags. rewrite !encode_tags_app, !Forall_app.
    destruct (isReplaceableKind kind), (isParamReplaceableKind kind);
      repeat match goal with
      | G : tagBuilder_add _ _ _ = Ok _ |- _ => apply tagBuilder_add_Ok in G as [? ->]
      end; simplify_eq; cbn; rewrite ?app_nil_r, <-?app_assoc;
      split_and!; try done; repeat constructor; unfold wf_tag; simpl; lia. }
  set (e := mk_event id pk created kind
              (if isEphemeralKind kind then 1%N else first_expiration l)
              (packed_tags kind l)).
  assert (wf_event e) as He.
  { constructor; simpl; try done; [by apply Hc|by apply Hk|]. by destruct (isEphemeralKind kind). }
  exists e. split; [done|].
  rewrite (PackedEventBuilder_encode e He) in Hp. injection Hp as <-. split; [done|].
  constructor; simpl; try done; [by exists idS|by exists pkS|by exists content|..].
  - exists l. split_and!; done.
  - intros b Hb. unfold packed_tags in Hb. rewrite !elem_of_app in Hb.
    destruct Hb as [Hb|[(j & Hj & Hi)%list_elem_of_omap|Hb]].
    + destruct (isReplaceableKind kind); [|by apply not_elem_of_nil in Hb].
      by apply list_elem_of_singleton in Hb.
    + by eapply Het.
    + destruct (isParamReplaceableKind kind); [|by apply not_elem_of_nil in Hb].
      by apply list_elem_of_singleton in Hb.
Qed.

(** C32: when an event's JSON is accepted, the packed buffer is the layout of
    a well-formed event whose id, pubkey, created_at and kind are the JSON's,
    whose tags are the indexable ones in order with the virtual [d] tag
    first for replaceable kinds and last for parameterized ones, and whose
    expiration is 1 for ephemeral kinds, else the first expiration tag (at
    least 100) or 0. *)
Theorem event_parse_correct v s :
  nostrJsonToPackedEvent cfg v = Ok s → u64_field v #"created_at" → u64_field v #"kind" →
  ∃ e, wf_event e ∧ s = encode e ∧ packs_json cfg v e.
Proof. apply nostrJsonToPackedEvent_Ok. Qed.

Lemma json_u64_field v k : json_u64 v = true → u64_field v k.
Proof. intros Hv n Hk. apply (json_u64_at v k) in Hk; [|done]. by apply N.ltb_lt in Hk. Qed.

Lemma verifyEventTimestamp_Ok now e :
  config_ok cfg → is_u64 now → wf_event e →
  verifyEventTimestamp cfg now (mk_view (encode e)) = Ok tt ↔
  timestamp_ok cfg now (ev_created_at e) (ev_expiration e).
Proof.
  intros [Hn Ho Hep] Hnow He. unfold verifyEventTimestamp, timestamp_ok.
  rewrite created_at_encode, expiration_encode by done.
  pose proof (wf_created_at e He) as Hc. pose proof (wf_expiration e He) as Hx.
  set (w := if (ev_expiration e =? 1)%N then _ else _).
  assert (is_u64 w) as Hw by (unfold w; by destruct (ev_expiration e =? 1)%N).
  assert ((if now <? u64_sub now w then 0 else u64_sub now w) = now - w)%N as ->.
  { unfold is_u64 in *. destruct (N.le_gt_cases w now).
    - rewrite u64_sub_small by done. destruct (N.ltb_spec now (now - w)); lia.
    - rewrite u64_sub_wraps by done. destruct (N.ltb_spec now (now + two64 - w)); lia. }
  set (nw := events__rejectEventsNewerThanSeconds cfg) in *.
  assert ((if u64_add now nw <? now then MAX_U64 - 1 else u64_add now nw) =
          if now + nw <? two64 then now + nw else MAX_U64 - 1)%N as ->.
  { unfold is_u64 in *. destruct (N.ltb_spec (now + nw) two64).
    - rewrite u64_add_small by done. destruct (N.ltb_spec (now + nw) now); lia.
    - rewrite u64_add_wraps by done. destruct (N.ltb_spec (now + nw - two64) now); lia. }
  set (latest := if (now + nw <? two64)%N then _ else _).
  destruct (N.ltb_spec (ev_created_at e) (now - w)) as [H1|H1]; simpl.
  { split; [done|]. intros [? _]. lia. }
  destruct (N.ltb_spec latest (ev_created_at e)) as [H2|H2]; simpl.
  { split; [done|]. intros (_ & ? & _). lia. }
  unfold throw_if.
  destruct (N.ltb_spec 1 (ev_expiration e)), (N.leb_spec (ev_expiration e) now); simpl;
    split; try done; intros; try (split_and!; lia).
  lia.
Qed.

(** C33: the timestamp check accepts exactly the events whose created_at lies
    in the window around [now], computed without wrap-around: not older than
    the (ephemeral) age limit, not newer than the allowance (or 2^64-2 when
    the upper end would overflow), and not already expired. *)
Theorem timestamp_window_correct now e :
  config_ok cfg → is_u64 now → wf_event e →
  verifyEventTimestamp cfg now (mk_view (encode e)) = Ok tt ↔
  timestamp_ok cfg now (ev_created_at e) (ev_expiration e).
Proof. apply verifyEventTimestamp_Ok. Qed.
End properties.

Section authenticity.
Context `{!Hex} `{!NativeU64} `{!EventLibs} (cfg : Config).

(** The id is the hash of the canonical serialisation of the fields. *)
Definition id_is_hash (v : value) (e : event) : Prop :=
  ∃ pubkey created_at kind tags content,
    at_key v #"pubkey" = Ok pubkey ∧ at_key v #"created_at" = Ok created_at ∧
    at_key v #"kind" = Ok kind ∧ at_key v #"tags" = Ok tags ∧
    at_key v #"content" = Ok content ∧
    ev_id e = sha256 (json_to_string
      (JArray [JSigned 0; pubkey; created_at; kind; tags; content])).

(** The [sig] field is a valid signature of the id by the author's key. *)
Definition sig_is_valid (v : value) (e : event) : Prop :=
  ∃ h sig pk, at_key v #"sig" = Ok (JString h) ∧ from_hex h false = Ok sig ∧
    length sig = 64 ∧ xonly_pubkey_parse (ev_pubkey e) = Some pk ∧
    schnorrsig_verify sig (ev_id e) pk = true.

Lemma Bytes32_Ok s b : Bytes32 s = Ok b ↔ b = s ∧ length s = 32.
Proof.
  unfold Bytes32. destruct (Nat.eqb_spec (length s) 32); simpl; naive_solver.
Qed.

Lemma verifyNostrEvent_Ok v e :
  wf_event e → verifyNostrEvent (mk_view (encode e)) v = Ok tt →
  id_is_hash v e ∧ sig_is_valid v e.
Proof.
  intros He. unfold verifyNostrEvent, nostrHash.
  rewrite id_encode, pubkey_encode by done. intros Hv.
  apply bind_Ok_inv in Hv as (hash & Hh & Hv).
  apply bind_Ok_inv in Hh as (pk & Hpk & Hh). apply bind_Ok_inv in Hh as (cr & Hcr & Hh).
  apply bind_Ok_inv in Hh as (ki & Hki & Hh). apply bind_Ok_inv in Hh as (tg & Htg & Hh).
  apply bind_Ok_inv in Hh as (co & Hco & Hh).
  simpl in Hh. apply Bytes32_Ok in Hh as [-> _].
  apply bind_Ok_inv in Hv as (i & [-> _]%Bytes32_Ok & Hv).
  apply bind_Ok_inv in Hv as (? & Heq & Hv).
  apply throw_if_Ok, negb_false_iff, bool_decide_eq_true in Heq.
  apply bind_Ok_inv in Hv as (sv & Hsv & Hv).
  apply bind_Ok_inv in Hv as (h & ->%jsonGetString_Ok & Hv).
  apply bind_Ok_inv in Hv as (sig & Hsig & Hv).
  apply bind_Ok_inv in Hv as (valid & Hvalid & Hv).
  apply throw_if_Ok, negb_false_iff in Hv. subst valid.
  unfold verifySig in Hvalid. apply bind_Ok_inv in Hvalid as (? & Hlen & Hvalid).
  apply throw_if_Ok, orb_false_iff in Hlen as [[Hlen _]%orb_false_iff _].
  apply negb_false_iff, Nat.eqb_eq in Hlen.
  destruct (xonly_pubkey_parse (ev_pubkey e)) as [pk'|] eqn:Hp; [|done].
  injection Hvalid as Hvalid. split.
  - exists pk, cr, ki, tg, co. by rewrite <-Heq.
  - by exists h, sig, pk'.
Qed.

(** [v] is an authentic and timely event; [packedStr] and [jsonStr] are its two
    forms. *)
Definition authentic (now : N) (v : value) (packedStr jsonStr : bytes) : Prop :=
  ∃ e, wf_event e ∧ packedStr = encode e ∧ packs_json cfg v e ∧
    timestamp_ok cfg now (ev_created_at e) (ev_expiration e) ∧
    id_is_hash v e ∧ sig_is_valid v e ∧
    ∃ norm, normalised v = Ok norm ∧ jsonStr = json_to_string norm ∧
      (N.of_nat (length jsonStr) ≤ events__maxEventSize cfg)%N.

Lemma parseAndVerifyEvent_Ok now v packedStr jsonStr :
  parseAndVerifyEvent cfg now v true true = Ok (packedStr, jsonStr) →
  config_ok cfg → is_u64 now → u64_field v #"created_at" → u64_field v #"kind" →
  authentic now v packedStr jsonStr.
Proof.
  unfold parseAndVerifyEvent. intros Hp Hcfg Hnow Hc Hk.
  apply bind_Ok_inv in Hp as (? & _ & Hp).
  apply bind_Ok_inv in Hp as (s & Hs & Hp).
  destruct (nostrJsonToPackedEvent_Ok cfg v s Hs Hc Hk) as (e & He & -> & Hj).
  rewrite view_encode in Hp by done. simpl in Hp.
  apply bind_Ok_inv in Hp as ([] & Hts & Hp). apply verifyEventTimestamp_Ok in Hts; [|done..].
  apply bind_Ok_inv in Hp as ([] & [Hid Hsig]%verifyNostrEvent_Ok & Hp); [|done].
  apply bind_Ok_inv in Hp as (norm & Hnorm & Hp).
  apply bind_Ok_inv in Hp as (? & Hsz%throw_if_Ok%N.ltb_ge & [= <- <-]).
  exists e. split_and!; try done. by exists norm.
Qed.
(** C34: an event accepted with full verification is authentic and within
    limits: its packed form is that of its JSON, its id is the SHA-256 of the
    canonical serialisation, its signature by the author's key verifies, its
    timestamp is in the window, and the JSON stored is the seven known fields
    and no larger than the maximum event size. *)
Theorem accepted_event_authentic now v packedStr jsonStr :
  parseAndVerifyEvent cfg now v true true = Ok (packedStr, jsonStr) →
  config_ok cfg → is_u64 now → u64_field v #"created_at" → u64_field v #"kind" →
  ∃ e, wf_event e ∧ packedStr = encode e ∧ packs_json cfg v e ∧
    timestamp_ok cfg now (ev_created_at e) (ev_expiration e) ∧
    id_is_hash v e ∧ sig_is_valid v e ∧
    ∃ norm, normalised v = Ok norm ∧ jsonStr = json_to_string norm ∧
      (N.of_nat (length jsonStr) ≤ events__maxEventSize cfg)%N.
Proof. apply parseAndVerifyEvent_Ok. Qed.
End authenticity.

(** A concrete set of libraries for the instances: a printer that keeps the
    shape, a constant 32-octet digest and a signature check that compares. *)
Fixpoint toy_print (v : value) : bytes :=
  match v with
  | JNull => #"null"
  | JBool b => if b then #"true" else #"false"
  | JSigned _ | JUnsigned _ | JDouble _ => #"0"
  | JString s => s
  | JArray l => #"[" ++ concat (map toy_print l) ++ #"]"
  | JObject kvs => #"{" ++ concat (map (λ kv, kv.1 ++ toy_print kv.2) kvs) ++ #"}"
  end.

#[refine] Instance toy_libs : EventLibs := {|
  json_to_string := toy_print;
  sha256 _ := replicate 32 "i"%char;
  xonly_pubkey := bytes;
  xonly_pubkey_parse := Some;
  schnorrsig_verify sig msg pk := bool_decide (sig = msg ++ pk);
|}.
Proof. intros s. apply length_replicate. Defined.

Definition sample_json : value :=
  JObject
    [(#"content", JString #"{}");
     (#"created_at", JUnsigned 1700000000);
     (#"id", JString (hex_encode (ev_id sample_event)));
     (#"kind", JUnsigned 30078);
     (#"pubkey", JString (hex_encode (ev_pubkey sample_event)));
     (#"sig", JString (hex_encode (ev_id sample_event ++ ev_pubkey sample_event)));
     (#"tags", JArray [JArray [JString #"d"; JString #"quote-1"];
                       JArray [JString #"e"; JString (hex_encode (replicate 32 "r"%char))];
                       JArray [JString #"t"];
                       JArray [JString #"alt"; JString #"ignored"]])].

Lemma sample_json_u64 k : u64_field sample_json k.
Proof.
  intros n. unfold at_key, sample_json. cbn [get_object result_bind mbind assoc].
  repeat (case_decide; [intros [= <-]; unfold is_u64, two64; lia || discriminate|]).
  discriminate.
Qed.

Lemma event_parse_correct_witness :
  ∃ e, wf_event e ∧ packs_json default_config sample_json e.
Proof.
  edestruct (event_parse_correct default_config sample_json) as (e & H1 & _ & H2);
    [vm_compute; reflexivity|apply sample_json_u64..|].
  exists e. split; [exact H1|exact H2].
Defined.

Lemma default_config_ok : config_ok default_config.
Proof. by constructor. Qed.

Lemma timestamp_window_correct_witness :
  verifyEventTimestamp default_config 1700000500 (mk_view (encode sample_event)) = Ok tt ↔
  timestamp_ok default_config 1700000500 1700000000 0.
Proof.
  apply (timestamp_window_correct default_config 1700000500 sample_event).
  - exact default_config_ok.
  - reflexivity.
  - exact sample_event_wf.
Defined.

Lemma accepted_event_authentic_witness :
  ∃ p, parseAndVerifyEvent default_config 1700000500 sample_json true true = Ok p ∧
  ∃ e, wf_event e ∧ p.1 = encode e ∧ sig_is_valid sample_json e.
Proof.
  eexists. split; [vm_compute; reflexivity|].
  edestruct (accepted_event_authentic default_config 1700000500 sample_json)
    as (e & H1 & H2 & _ & _ & _ & H3 & _);
    [vm_compute; reflexivity|exact default_config_ok|reflexivity|apply sample_json_u64..|].
  exists e. split; [exact H1|]. split; [exact H2|exact H3].
Defined.
