(* ===== verification/Db.v ===== *)
(** The event store: tables, indices and lookups.

    The storage engine (LMDB under the generated [defaultDb::environment]) is
    not part of the repository, so it is the class [Env]: a state [env] whose
    contents are observed through the record [Tables], one operation per call
    the code makes, and the laws of a transactional key-value store.  What is
    in the repository is the schema of [golpe.yaml]: which index keys an event
    has ([indexPrelude]) and how each index is ordered.  [repr] says that the
    event table holds the packed forms of a finite map of abstract events, and
    the lookups of [events.cpp] are characterised in terms of that map.

    The instance [mem_env] (finite maps, scans by sorting) shows that the laws
    of the class hold together and serves the concrete examples. *)

From S2P Require Import Prelude Bytes PackedEvent EventParse.

(** ** Index keys *)

Inductive Index :=
  | Event__created_at | Event__id | Event__pubkey | Event__kind | Event__pubkeyKind
  | Event__tag | Event__deletion | Event__expiration | Event__replace.

#[export] Instance Index_eq_dec : EqDecision Index.
Proof. solve_decision. Defined.

(** The key constructors of the engine, with the layout the code relies on, and
    the fields each index's comparator compares (a string, then integers). *)
Class GolpeKeys `{!NativeU64} := {
  makeKey_StringUint64 : bytes → N → bytes;
  makeKey_Uint64Uint64 : N → N → bytes;
  makeKey_StringUint64Uint64 : bytes → N → N → bytes;
  makeKey_StringUint64_layout : ∀ s n, makeKey_StringUint64 s n = s ++ to_sv64 n;
  makeKey_Uint64Uint64_layout : ∀ a b, makeKey_Uint64Uint64 a b = to_sv64 a ++ to_sv64 b;
  makeKey_StringUint64Uint64_layout : ∀ s a b,
    makeKey_StringUint64Uint64 s a b = s ++ to_sv64 a ++ to_sv64 b;
  ParsedKey_Uint64Uint64 : bytes → result (N * N);
  ParsedKey_Uint64Uint64_make : ∀ a b, is_u64 a → is_u64 b →
    ParsedKey_Uint64Uint64 (makeKey_Uint64Uint64 a b) = Ok (a, b);
  ParsedKey_StringUint64 : bytes → result (bytes * N);
  ParsedKey_StringUint64_make : ∀ s n, is_u64 n →
    ParsedKey_StringUint64 (makeKey_StringUint64 s n) = Ok (s, n);
  key_fields : Index → bytes → bytes * list N;
  fields_StringUint64 : ∀ idx s n,
    idx ∈ [Event__id; Event__pubkey; Event__tag] → is_u64 n →
    key_fields idx (makeKey_StringUint64 s n) = (s, [n]);
  fields_Uint64Uint64 : ∀ a b, is_u64 a → is_u64 b →
    key_fields Event__kind (makeKey_Uint64Uint64 a b) = ([], [a; b]);
  fields_StringUint64Uint64 : ∀ s a b, is_u64 a → is_u64 b →
    key_fields Event__pubkeyKind (makeKey_StringUint64Uint64 s a b) = (s, [a; b]);
  fields_integer : ∀ idx n, idx ∈ [Event__created_at; Event__expiration] → is_u64 n →
    key_fields idx (to_sv64 n) = ([], [n]);
  fields_plain : ∀ idx k, idx ∈ [Event__deletion; Event__replace] → key_fields idx k = (k, []);
}.

Record EventIndices := mk_indices {
  ix_created_at : N;
  ix_id : bytes;
  ix_pubkey : bytes;
  ix_kind : bytes;
  ix_pubkeyKind : bytes;
  ix_tag : list bytes;
  ix_deletion : list bytes;
  ix_expiration : list N;
  ix_replace : list bytes;
}.

Section keys.
Context `{!NativeU64} `{!GolpeKeys}.

(** The callback of the prelude's [foreachTag]; the state is
    [(tag, deletion, replace)]. *)
Definition index_tag_cb (packed : PackedEventView) (indexTime : N)
    (st : list bytes * list bytes * list bytes) (tagName : ascii) (tagVal : bytes)
    : result (list bytes * list bytes * list bytes * bool) :=
  let '(tag, deletion, replace) := st in
  let tag := tag ++ [makeKey_StringUint64 (tagName :: tagVal) indexTime] in
  if char_eqb tagName "d" && (length replace =? 0) then
    Ok (tag, deletion,
        replace ++ [makeKey_StringUint64 (pubkey packed ++ tagVal) (kind packed)], true)
  else if char_eqb tagName "e" && (kind packed =? 5)%N then
    Ok (tag, deletion ++ [tagVal ++ pubkey packed], replace, true)
  else Ok (tag, deletion, replace, true).

(** [indexPrelude] of the [Event] table. *)
Definition indexPrelude (v : bytes) : result EventIndices :=
  packed ← view v;
  let indexTime := created_at packed in
  '(tag, deletion, replace) ←
    foreachTag packed (index_tag_cb packed indexTime) ([], [], []);
  Ok (mk_indices indexTime
        (makeKey_StringUint64 (id packed) indexTime)
        (makeKey_StringUint64 (pubkey packed) indexTime)
        (makeKey_Uint64Uint64 (kind packed) indexTime)
        (makeKey_StringUint64Uint64 (pubkey packed) (kind packed) indexTime)
        tag deletion
        (if (expiration packed =? 0)%N then [] else [expiration packed])
        replace).

(** The keys of one index ([integer: true] keys are native integers). *)
Definition index_keys (i : EventIndices) (idx : Index) : list bytes :=
  match idx with
  | Event__created_at => [to_sv64 (ix_created_at i)]
  | Event__id => [ix_id i]
  | Event__pubkey => [ix_pubkey i]
  | Event__kind => [ix_kind i]
  | Event__pubkeyKind => [ix_pubkeyKind i]
  | Event__tag => ix_tag i
  | Event__deletion => ix_deletion i
  | Event__expiration => to_sv64 <$> ix_expiration i
  | Event__replace => ix_replace i
  end.

(** An index entry is a key and the levId of the event that has it. *)
Definition is_entry (m : gmap N bytes) (idx : Index) (e : bytes * N) : Prop :=
  ∃ v i, m !! e.2 = Some v ∧ indexPrelude v = Ok i ∧ e.1 ∈ index_keys i idx.

Fixpoint ns_compare (a b : list N) : comparison :=
  match a, b with
  | [], [] => Eq
  | [], _ :: _ => Lt
  | _ :: _, [] => Gt
  | x :: a', y :: b' => match (x ?= y)%N with Eq => ns_compare a' b' | c => c end
  end.

(** The order of an index: by the key's fields, then by levId. *)
Definition entry_compare (idx : Index) (e1 e2 : bytes * N) : comparison :=
  let '(s1, n1) := key_fields idx e1.1 in
  let '(s2, n2) := key_fields idx e2.1 in
  match bytes_compare s1 s2 with
  | Eq => ns_compare (n1 ++ [e1.2]) (n2 ++ [e2.2])
  | c => c
  end.

Definition entry_le (idx : Index) (e1 e2 : bytes * N) : Prop :=
  entry_compare idx e1 e2 ≠ Gt.
End keys.

(** ** The engine *)

(** The single record of the [Meta] table. *)
Record MetaRow := mk_meta {
  meta_dbVersion : N;
  meta_endianness : N;
  meta_negentropyModificationCounter : N;
}.

Record Tables := mk_tables {
  Event : gmap N bytes;
  EventPayload : gmap N bytes;
  trees : gmap N (gset (N * bytes));       (* negentropy trees by treeId *)
  Meta : option MetaRow;                   (* Meta[1] *)
  NegentropyFilter : list (N * bytes);     (* in primary key order *)
  CompressionDictionary : gmap N bytes;
}.

Definition Meta_counter (t : Tables) : option N := meta_negentropyModificationCounter <$> Meta t.

Definition set_Event t x := mk_tables x (EventPayload t) (trees t) (Meta t)
  (NegentropyFilter t) (CompressionDictionary t).
Definition set_EventPayload t x := mk_tables (Event t) x (trees t) (Meta t)
  (NegentropyFilter t) (CompressionDictionary t).
Definition set_trees t x := mk_tables (Event t) (EventPayload t) x (Meta t)
  (NegentropyFilter t) (CompressionDictionary t).

Definition tree_of (t : Tables) (treeId : N) : gset (N * bytes) :=
  default ∅ (trees t !! treeId).

Class Env `{!NativeU64, !GolpeKeys} := {
  env : Type;
  tables : env → Tables;
  (** [insert_Event]: the primary key is auto-incremented. *)
  insert_Event : env → bytes → result (env * N);
  insert_Event_Ok : ∀ d v d' n, insert_Event d v = Ok (d', n) →
    tables d' = set_Event (tables d) (<[n := v]> (Event (tables d))) ∧
    (∀ m, is_Some (Event (tables d) !! m) → (m < n)%N) ∧
    (n ≠ 0)%N ∧ (n = 1%N ∨ is_Some (Event (tables d) !! (n - 1)%N)) ∧ is_u64 n;
  insert_Event_total : ∀ d v i, indexPrelude v = Ok i →
    (∀ m, is_Some (Event (tables d) !! m) → (m < MAX_U64)%N) →
    is_ok (insert_Event d v) = true;
  delete_Event : env → N → env;
  delete_Event_tables : ∀ d n, is_Some (Event (tables d) !! n) →
    tables (delete_Event d n) = set_Event (tables d) (delete n (Event (tables d)));
  EventPayload_put : env → N → bytes → env;
  EventPayload_put_tables : ∀ d n v, tables (EventPayload_put d n v) =
    set_EventPayload (tables d) (<[n := v]> (EventPayload (tables d)));
  (** The flag says whether the key was there. *)
  EventPayload_del : env → N → env * bool;
  EventPayload_del_tables : ∀ d n, tables (EventPayload_del d n).1 =
    set_EventPayload (tables d) (delete n (EventPayload (tables d)));
  EventPayload_del_found : ∀ d n,
    (EventPayload_del d n).2 = bool_decide (is_Some (EventPayload (tables d) !! n));
  (** [generic_foreachFull]: the entries visited from a start position on, in
      index order or backwards. *)
  foreachFull : env → Index → bytes → N → bool → list (bytes * N);
  foreachFull_elem : ∀ d idx k0 v0 rev e, e ∈ foreachFull d idx k0 v0 rev ↔
    is_entry (Event (tables d)) idx e ∧
    (if rev : bool then entry_le idx e (k0, v0) else entry_le idx (k0, v0) e);
  foreachFull_sorted : ∀ d idx k0 v0 rev,
    StronglySorted (λ e1 e2, if rev : bool then entry_le idx e2 e1 else entry_le idx e1 e2)
      (foreachFull d idx k0 v0 rev);
  foreachFull_nodup : ∀ d idx k0 v0 rev, NoDup (foreachFull d idx k0 v0 rev);
  (** The first event with exactly this key. *)
  lookup_Event__deletion : env → bytes → option N;
  lookup_Event__deletion_spec : ∀ d k, is_Some (lookup_Event__deletion d k) ↔
    ∃ n, is_entry (Event (tables d)) Event__deletion (k, n);
  (** [foreach_Event]: primary keys in ascending order. *)
  foreach_Event : env → list N;
  foreach_Event_elem : ∀ d n, n ∈ foreach_Event d ↔ is_Some (Event (tables d) !! n);
  foreach_Event_sorted : ∀ d, StronglySorted N.le (foreach_Event d);
  foreach_Event_nodup : ∀ d, NoDup (foreach_Event d);
  (** [BTreeLMDB::insert] and [erase] *)
  tree_insert : env → N → N → bytes → env;
  tree_insert_tables : ∀ d t c i, tables (tree_insert d t c i) =
    set_trees (tables d) (<[t := {[(c, i)]} ∪ tree_of (tables d) t]> (trees (tables d)));
  tree_erase : env → N → N → bytes → env;
  tree_erase_tables : ∀ d t c i, tables (tree_erase d t c i) =
    set_trees (tables d) (<[t := tree_of (tables d) t ∖ {[(c, i)]}]> (trees (tables d)));
}.

(** [env.lookup_Event(txn, levId)]: the buffer of the record. *)
Definition lookup_Event `{Env} (d : env) (levId : N) : option bytes :=
  Event (tables d) !! levId.

(** ** Lookups of [events.cpp] *)

Section lookups.
Context `{!NativeU64, !GolpeKeys, !Env}.

(** The result is the primary key and the buffer of the view. *)
Definition lookupEventById (d : env) (id : bytes) : option (N * bytes) :=
  match foreachFull d Event__id (makeKey_StringUint64 id 0) 0 false with
  | (k, v) :: _ =>
      if starts_with k id then
        match lookup_Event d v with Some b => Some (v, b) | None => None end
      else None
  | [] => None
  end.

Definition lookupEventByLevId (d : env) (levId : N) : result (N * bytes) :=
  match lookup_Event d levId with
  | Some b => Ok (levId, b)
  | None => Throw (herr #"unable to lookup event by levId")
  end.

Definition getMostRecentLevId (d : env) : N :=
  match rev (foreach_Event d) with
  | levId :: _ => levId
  | [] => 0%N
  end.

Definition deleteEventBasic (d : env) (levId : N) : env * bool :=
  let '(d, deleted) := EventPayload_del d levId in
  (delete_Event d levId, deleted).
End lookups.

(** ** Abstract contents *)

(** The value of the first [d] tag. *)
Definition d_values (ts : list tag) : list bytes :=
  omap (λ t : tag, if char_eqb t.1 "d" then Some t.2 else None) ts.

Definition e_values (ts : list tag) : list bytes :=
  omap (λ t : tag, if char_eqb t.1 "e" then Some t.2 else None) ts.

Section contents.
Context `{!NativeU64, !GolpeKeys}.

Definition event_indices (e : event) : EventIndices :=
  mk_indices (ev_created_at e)
    (makeKey_StringUint64 (ev_id e) (ev_created_at e))
    (makeKey_StringUint64 (ev_pubkey e) (ev_created_at e))
    (makeKey_Uint64Uint64 (ev_kind e) (ev_created_at e))
    (makeKey_StringUint64Uint64 (ev_pubkey e) (ev_kind e) (ev_created_at e))
    ((λ t : tag, makeKey_StringUint64 (t.1 :: t.2) (ev_created_at e)) <$> ev_tags e)
    (if (ev_kind e =? 5)%N then (λ v, v ++ ev_pubkey e) <$> e_values (ev_tags e) else [])
    (if (ev_expiration e =? 0)%N then [] else [ev_expiration e])
    (take 1 ((λ v, makeKey_StringUint64 (ev_pubkey e ++ v) (ev_kind e)) <$>
             d_values (ev_tags e))).

Lemma index_tag_fold packed c ts tg dl rp :
  fold_tags (index_tag_cb packed c) ts (tg, dl, take 1 rp) =
  Ok (tg ++ ((λ t : tag, makeKey_StringUint64 (t.1 :: t.2) c) <$> ts),
      dl ++ (if (kind packed =? 5)%N
             then (λ v, v ++ pubkey packed) <$> e_values ts else []),
      take 1 (rp ++ ((λ v, makeKey_StringUint64 (pubkey packed ++ v) (kind packed)) <$>
                     d_values ts))).
Proof.
  revert tg dl rp. induction ts as [|[k v] ts IH]; intros tg dl rp; simpl.
  { rewrite !app_nil_r. by destruct (kind packed =? 5)%N; rewrite ?app_nil_r. }
  unfold char_eqb. destruct (Ascii.eqb_spec k "d") as [->|Hd]; simpl.
  - destruct rp as [|r rp]; simpl; rewrite ?take_0.
    + etrans;
        [apply (IH _ _ [makeKey_StringUint64 (pubkey packed ++ v) (kind packed)])|].
      simpl. by rewrite <-!app_assoc, !take_0.
    + etrans; [apply (IH _ _ [r])|]. simpl. by rewrite <-!app_assoc, !take_0.
  - destruct (Ascii.eqb_spec k "e") as [->|He]; simpl.
    + destruct (kind packed =? 5)%N eqn:E; simpl; rewrite IH; simpl;
        rewrite <-!app_assoc; done.
    + rewrite IH. by rewrite <-!app_assoc.
Qed.

Lemma indexPrelude_encode e : wf_event e → indexPrelude (encode e) = Ok (event_indices e).
Proof.
  intros He. unfold indexPrelude. rewrite view_encode by done. simpl.
  rewrite foreachTag_encode by done.
  rewrite (index_tag_fold _ _ _ [] [] []). simpl.
  by autorewrite with packed.
Qed.

(** The table holds exactly the packed forms of the events of [m]. *)
Definition repr_map (b : gmap N bytes) (m : gmap N event) : Prop :=
  b = encode <$> m ∧ map_Forall (λ l e, is_u64 l ∧ wf_event e) m.

Lemma repr_is_entry b m idx k l :
  repr_map b m →
  is_entry b idx (k, l) ↔
  ∃ e, m !! l = Some e ∧ wf_event e ∧ is_u64 l ∧ k ∈ index_keys (event_indices e) idx.
Proof.
  intros [-> Hm]. unfold is_entry. simpl. split.
  - intros (v & i & Hv & Hi & Hk).
    rewrite lookup_fmap, fmap_Some in Hv. destruct Hv as (e & He & ->).
    destruct (Hm l e He) as [Hl Hwf]. rewrite indexPrelude_encode in Hi by done.
    injection Hi as <-. by exists e.
  - intros (e & He & Hwf & Hl & Hk). exists (encode e), (event_indices e).
    rewrite lookup_fmap, He. split_and!; [done|by apply indexPrelude_encode|done].
Qed.

Lemma ns_compare_antisym a b : ns_compare b a = CompOpp (ns_compare a b).
Proof.
  revert b. induction a as [|x a IH]; intros [|y b]; simpl; try done.
  rewrite N.compare_antisym. destruct (x ?= y)%N; simpl; auto.
Qed.

Lemma entry_compare_StringUint64 idx s n l s' n' l' :
  idx ∈ [Event__id; Event__pubkey; Event__tag] → is_u64 n → is_u64 n' →
  entry_compare idx (makeKey_StringUint64 s n, l) (makeKey_StringUint64 s' n', l') =
  match bytes_compare s s' with Eq => ns_compare [n; l] [n'; l'] | c => c end.
Proof. intros. unfold entry_compare. simpl. by rewrite !fields_StringUint64. Qed.

(** The string of an entry between two entries with the same string. *)
Lemma entry_between idx s n1 l1 n2 l2 s' n l :
  idx ∈ [Event__id; Event__pubkey; Event__tag] →
  is_u64 n1 → is_u64 n2 → is_u64 n →
  entry_le idx (makeKey_StringUint64 s n1, l1) (makeKey_StringUint64 s' n, l) →
  entry_le idx (makeKey_StringUint64 s' n, l) (makeKey_StringUint64 s n2, l2) →
  s' = s ∧ ns_compare [n1; l1] [n; l] ≠ Gt ∧ ns_compare [n; l] [n2; l2] ≠ Gt.
Proof.
  intros Hidx Hn1 Hn2 Hn. unfold entry_le. rewrite !entry_compare_StringUint64 by done.
  rewrite (bytes_compare_antisym s s'). destruct (bytes_compare s s') eqn:E; simpl; [|done..].
  apply bytes_compare_eq in E as ->. done.
Qed.

(** An index without a comparator orders its keys as bytes. *)
Lemma entry_compare_plain idx s l s' l' : idx ∈ [Event__deletion; Event__replace] →
  entry_compare idx (s, l) (s', l') =
  match bytes_compare s s' with Eq => ns_compare [l] [l'] | c => c end.
Proof. intros. unfold entry_compare. simpl. by rewrite !fields_plain. Qed.

Lemma plain_between idx s l1 l2 s' l : idx ∈ [Event__deletion; Event__replace] →
  entry_le idx (s, l1) (s', l) → entry_le idx (s', l) (s, l2) → s' = s.
Proof.
  intros Hidx. unfold entry_le. rewrite !entry_compare_plain by done.
  rewrite (bytes_compare_antisym s s'). destruct (bytes_compare s s') eqn:E; simpl; [|done..].
  by apply bytes_compare_eq in E as ->.
Qed.

Lemma makeKey_StringUint64_inj s n s' n' : is_u64 n → is_u64 n' →
  makeKey_StringUint64 s n = makeKey_StringUint64 s' n' → s = s' ∧ n = n'.
Proof.
  rewrite !makeKey_StringUint64_layout. intros Hn Hn' [-> Hk]%app_inj_2; [|by rewrite !to_sv64_length].
  split; [done|]. by rewrite <-(from_to_sv64 n), Hk, from_to_sv64.
Qed.

Lemma ns_between k a n b c :
  ns_compare [k; a] [n; b] ≠ Gt → ns_compare [n; b] [k; c] ≠ Gt → n = k.
Proof.
  simpl. rewrite (N.compare_antisym k n). destruct (N.compare_spec k n); simpl; done.
Qed.

Lemma ns_le_cons n a b : (a ≤ b)%N → ns_compare [n; a] [n; b] ≠ Gt.
Proof.
  intros Hab. simpl. rewrite N.compare_refl.
  destruct (N.compare_spec a b); [done|done|lia].
Qed.

Lemma ns_compare_refl a : ns_compare a a = Eq.
Proof. induction a as [|x a IH]; simpl; [done|]. by rewrite N.compare_refl. Qed.

Lemma entry_le_refl idx e : entry_le idx e e.
Proof.
  unfold entry_le, entry_compare. destruct (key_fields idx e.1) as [s n].
  by rewrite bytes_compare_refl, ns_compare_refl.
Qed.

(** The first entry of a scan bounds the others. *)
Lemma sorted_head_le (R : bytes * N → bytes * N → Prop) x l y :
  (∀ e, R e e) → StronglySorted R (x :: l) → y ∈ x :: l → R x y.
Proof.
  intros Hrefl Hso [->|Hy]%elem_of_cons; [done|].
  inversion_clear Hso as [|? ? _ Hall]. rewrite List.Forall_forall in Hall.
  by apply Hall, list_elem_of_In.
Qed.

(** The replaceable address of an event: author, kind and [d] tag. *)
Definition d_tag (e : event) : option bytes := head (d_values (ev_tags e)).

Lemma index_replace e :
  index_keys (event_indices e) Event__replace =
  match d_tag e with
  | Some v => [makeKey_StringUint64 (ev_pubkey e ++ v) (ev_kind e)]
  | None => []
  end.
Proof. unfold d_tag. simpl. by destruct (d_values (ev_tags e)). Qed.

Lemma elem_of_e_values v ts : v ∈ e_values ts ↔ ("e"%char, v) ∈ ts.
Proof.
  unfold e_values. rewrite list_elem_of_omap. split.
  - intros ([c x] & Hin & Hx). simpl in Hx. unfold char_eqb in Hx.
    destruct (Ascii.eqb_spec c "e"); simplify_eq. done.
  - intros Hin. by exists ("e"%char, v).
Qed.

(** A live deletion event of author [pk] that names [i]. *)
Definition deletion_for (pk i : bytes) (o : event) : Prop :=
  ev_kind o = 5%N ∧ ev_pubkey o = pk ∧ ("e"%char, i) ∈ ev_tags o.

Lemma index_deletion o pk i :
  length pk = 32 → wf_event o →
  (i ++ pk ∈ index_keys (event_indices o) Event__deletion ↔ deletion_for pk i o).
Proof.
  intros Hpk Ho. unfold deletion_for. simpl. destruct (N.eqb_spec (ev_kind o) 5) as [->|Hk].
  - rewrite list_elem_of_fmap. setoid_rewrite elem_of_e_values. split.
    + intros (v & Heq & Hin). apply app_inj_2 in Heq as [-> ->]; [done|].
      rewrite Hpk. symmetry. apply Ho.
    + intros (_ & <- & Hin). by exists i.
  - split; [by intros ?%not_elem_of_nil|naive_solver].
Qed.
End contents.

#[export] Hint Rewrite @indexPrelude_encode using done : packed.

Section lookup_specs.
Context `{!NativeU64, !GolpeKeys, !Env}.

Definition repr (d : env) (m : gmap N event) : Prop := repr_map (Event (tables d)) m.

Lemma lookup_Event_repr d m l :
  repr d m → lookup_Event d l = encode <$> (m !! l).
Proof. intros [Hd _]. unfold lookup_Event. by rewrite Hd, lookup_fmap. Qed.

Lemma repr_wf d m l e : repr d m → m !! l = Some e → wf_event e ∧ is_u64 l.
Proof. intros [_ Hm] Hl. by destruct (Hm l e Hl). Qed.

(** The id lookup finds an event with this id exactly when there is one. *)
Lemma lookupEventById_spec d m i :
  repr d m → length i = 32 →
  match lookupEventById d i with
  | Some (l, b) => ∃ e, m !! l = Some e ∧ ev_id e = i ∧ b = encode e
  | None => ∀ l e, m !! l = Some e → ev_id e ≠ i
  end.
Proof.
  intros Hr Hi. unfold lookupEventById.
  pose proof (λ e, foreachFull_elem d Event__id (makeKey_StringUint64 i 0) 0 false e) as Hin.
  pose proof (foreachFull_sorted d Event__id (makeKey_StringUint64 i 0) 0 false) as Hso.
  assert (∀ l e, m !! l = Some e → ev_id e = i →
    (makeKey_StringUint64 i (ev_created_at e), l) ∈
      foreachFull d Event__id (makeKey_StringUint64 i 0) 0 false) as Hpresent.
  { intros l e He Hid. destruct (repr_wf d m l e Hr He) as [Hwf Hl].
    apply Hin. split.
    - apply (repr_is_entry _ _ _ _ _ Hr). exists e. split_and!; [done..|].
      simpl. rewrite Hid. set_solver.
    - unfold entry_le. rewrite entry_compare_StringUint64; [|set_solver|done|apply Hwf].
      rewrite bytes_compare_refl. simpl. by destruct (ev_created_at e), l. }
  destruct (foreachFull d _ _ _ _) as [|[k v] rest] eqn:E.
  { intros l e He Hid. specialize (Hpresent l e He Hid). by apply not_elem_of_nil in Hpresent. }
  destruct (proj1 (Hin (k, v)) ltac:(set_solver)) as [Hent Hle].
  apply (repr_is_entry _ _ _ _ _ Hr) in Hent as (e & He & Hwf & Hv & Hk).
  simpl in Hk. apply list_elem_of_singleton in Hk as ->.
  rewrite makeKey_StringUint64_layout.
  destruct (starts_with _ i) eqn:Hsw.
  - rewrite (lookup_Event_repr d m v Hr), He. simpl. exists e. split_and!; [done| |done].
    apply starts_with_spec in Hsw as [r Hsw].
    apply (f_equal (take 32)) in Hsw. rewrite !take_app_length' in Hsw;
      [done|done|symmetry; apply Hwf].
  - intros l o Ho Hid. specialize (Hpresent l o Ho Hid).
    destruct (repr_wf d m l o Hr Ho) as [Hwo Hl].
    assert (entry_le Event__id (makeKey_StringUint64 (ev_id e) (ev_created_at e), v)
              (makeKey_StringUint64 i (ev_created_at o), l)) as Hle2.
    { by apply (sorted_head_le _ _ _ _ (entry_le_refl _) Hso). }
    destruct (entry_between Event__id i 0 0 (ev_created_at o) l (ev_id e) (ev_created_at e) v)
      as [Hid' _]; [set_solver|done|apply Hwo|apply Hwf|done|done|].
    rewrite Hid' in Hsw. pose proof (proj2 (starts_with_spec (i ++ to_sv64 (ev_created_at e)) i)
      (ex_intro _ _ eq_refl)). congruence.
Qed.

Lemma lookup_deletion_spec d m pk i :
  repr d m → length pk = 32 →
  is_Some (lookup_Event__deletion d (i ++ pk)) ↔
  ∃ l o, m !! l = Some o ∧ deletion_for pk i o.
Proof.
  intros Hr Hpk. rewrite lookup_Event__deletion_spec.
  setoid_rewrite (repr_is_entry _ m); [|done]. split.
  - intros (l & o & Ho & Hwf & _ & Hk). exists l, o. split; [done|].
    by apply index_deletion in Hk.
  - intros (l & o & Ho & Hdel). destruct (repr_wf d m l o Hr Ho).
    exists l, o. split_and!; [done..|]. by apply index_deletion.
Qed.

(** [o] is the event at the replaceable address [(pk, k, x)]. *)
Definition at_address (pk : bytes) (k : N) (x : bytes) (o : event) : Prop :=
  ev_pubkey o = pk ∧ ev_kind o = k ∧ d_tag o = Some x.

Lemma replace_entry d m key l :
  repr d m →
  is_entry (Event (tables d)) Event__replace (key, l) ↔
  ∃ o y, m !! l = Some o ∧ wf_event o ∧ is_u64 l ∧ d_tag o = Some y ∧
    key = makeKey_StringUint64 (ev_pubkey o ++ y) (ev_kind o).
Proof.
  intros Hr. rewrite (repr_is_entry _ m) by done. setoid_rewrite index_replace. split.
  - intros (o & Ho & Hwf & Hl & Hk). destruct (d_tag o) as [y|] eqn:Hy; [|set_solver].
    apply list_elem_of_singleton in Hk as ->. by exists o, y.
  - intros (o & y & Ho & Hwf & Hl & Hy & ->). exists o. rewrite Hy. set_solver.
Qed.

(** The backwards scan of the [replace] index starts at the last event of the
    address, if there is one. *)
Lemma replace_scan d m pk k x :
  repr d m → length pk = 32 → is_u64 k →
  match foreachFull d Event__replace (makeKey_StringUint64 (pk ++ x) k) MAX_U64 true with
  | [] => ∀ l o, m !! l = Some o → ¬ at_address pk k x o
  | (key, v) :: _ => ∃ o y, m !! v = Some o ∧ wf_event o ∧ d_tag o = Some y ∧
      ParsedKey_StringUint64 key = Ok (ev_pubkey o ++ y, ev_kind o) ∧
      (at_address pk k x o ∨ ∀ l o', m !! l = Some o' → ¬ at_address pk k x o')
  end.
Proof.
  intros Hr Hpk Hk.
  set (k0 := makeKey_StringUint64 (pk ++ x) k).
  pose proof (λ e, foreachFull_elem d Event__replace k0 MAX_U64 true e) as Hin.
  pose proof (foreachFull_sorted d Event__replace k0 MAX_U64 true) as Hso.
  assert (∀ l o, m !! l = Some o → at_address pk k x o →
    (k0, l) ∈ foreachFull d Event__replace k0 MAX_U64 true) as Hpresent.
  { intros l o Ho (<- & <- & Hx). destruct (repr_wf d m l o Hr Ho) as [Hwf Hl].
    apply Hin. split; [apply (replace_entry d m); by eauto 10|].
    unfold entry_le, k0. rewrite entry_compare_plain by set_solver. rewrite bytes_compare_refl. simpl.
    destruct (N.compare_spec l MAX_U64); [done..|]. unfold is_u64, two64, MAX_U64 in *. lia. }
  destruct (foreachFull d _ _ _ _) as [|[key v] rest] eqn:E.
  { intros l o Ho Hat. specialize (Hpresent l o Ho Hat). by apply not_elem_of_nil in Hpresent. }
  destruct (proj1 (Hin (key, v)) ltac:(set_solver)) as [Hent Hle].
  apply (replace_entry _ m) in Hent as (o & y & Ho & Hwf & Hv & Hy & ->); [|done].
  exists o, y. split_and!; [done..|by apply ParsedKey_StringUint64_make, Hwf|].
  destruct (decide (pk ++ x = ev_pubkey o ++ y ∧ ev_kind o = k)) as [[Heq Hkk]|Hne].
  { left. apply app_inj_1 in Heq as [-> ->]; [done|]. by rewrite Hpk, (wf_pubkey o). }
  right. intros l o' Ho' Hat. apply Hne. specialize (Hpresent l o' Ho' Hat).
  destruct (repr_wf d m l o' Hr Ho') as [Hwf' _].
  apply (sorted_head_le (λ e1 e2, entry_le Event__replace e2 e1) _ _ _
    (entry_le_refl _) Hso) in Hpresent.
  assert (makeKey_StringUint64 (ev_pubkey o ++ y) (ev_kind o) = k0) as Hkey
    by (apply (plain_between Event__replace _ l MAX_U64 _ v); [set_solver|done..]).
  apply makeKey_StringUint64_inj in Hkey as [? ?]; [done|apply Hwf|done].
Qed.

Lemma getMostRecentLevId_spec d :
  (getMostRecentLevId d = 0%N ∧ Event (tables d) = ∅) ∨
  (is_Some (Event (tables d) !! getMostRecentLevId d) ∧
   ∀ l, is_Some (Event (tables d) !! l) → (l ≤ getMostRecentLevId d)%N).
Proof.
  unfold getMostRecentLevId.
  pose proof (foreach_Event_elem d) as Hin. pose proof (foreach_Event_sorted d) as Hso.
  destruct (rev (foreach_Event d)) as [|l r] eqn:E.
  - left. split; [done|]. apply (f_equal (@rev N)) in E. rewrite rev_involutive in E.
    rewrite E in Hin. apply map_empty. intros l. destruct (Event (tables d) !! l) eqn:El; [|done].
    by destruct (not_elem_of_nil l (proj2 (Hin l) (ex_intro _ _ El))).
  - right. apply (f_equal (@rev N)) in E. rewrite rev_involutive in E. simpl in E.
    rewrite E in Hin, Hso. split; [apply Hin; set_solver|].
    intros l' Hl'%Hin. apply elem_of_app in Hl' as [Hl'|Hl'%list_elem_of_singleton];
      [|by subst].
    apply StronglySorted_app in Hso as (Hcross & _ & _).
    apply Hcross; [done|set_solver].
Qed.
End lookup_specs.
