(* ===== verification/MemDb.v ===== *)
(** An in-memory engine: finite maps for the tables, scans by sorting the index
    entries.  It satisfies the laws of [GolpeKeys] and [Env], so the theorems
    proved from them are about something, and it runs the concrete examples. *)

From S2P Require Import Prelude Bytes PackedEvent EventParse Db.

Section codec.
Context `{!NativeU64}.

Definition split_u64 (k : bytes) : bytes * N :=
  (take (length k - 8) k, from_sv64 (drop (length k - 8) k)).

Definition mem_fields (idx : Index) (k : bytes) : bytes * list N :=
  match idx with
  | Event__created_at | Event__expiration => ([], [from_sv64 k])
  | Event__id | Event__pubkey | Event__tag =>
      let '(s, n) := split_u64 k in (s, [n])
  | Event__kind => ([], [from_sv64 (take 8 k); from_sv64 (drop 8 k)])
  | Event__pubkeyKind =>
      let '(s, b) := split_u64 k in let '(s, a) := split_u64 s in (s, [a; b])
  | Event__deletion | Event__replace => (k, [])
  end.

Lemma split_u64_app s n : is_u64 n → split_u64 (s ++ to_sv64 n) = (s, n).
Proof.
  intros Hn. unfold split_u64. rewrite length_app, to_sv64_length.
  replace (length s + 8 - 8) with (length s) by lia.
  by rewrite take_app_length, drop_app_length, from_to_sv64.
Qed.

#[refine, export] Instance mem_keys : GolpeKeys := {|
  makeKey_StringUint64 s n := s ++ to_sv64 n;
  makeKey_Uint64Uint64 a b := to_sv64 a ++ to_sv64 b;
  makeKey_StringUint64Uint64 s a b := (s ++ to_sv64 a) ++ to_sv64 b;
  ParsedKey_StringUint64 k :=
    if length k <? 8 then Throw (herr #"key too short") else Ok (split_u64 k);
  ParsedKey_Uint64Uint64 k :=
    if length k =? 16 then Ok (from_sv64 (take 8 k), from_sv64 (drop 8 k))
    else Throw (herr #"bad key size");
  key_fields := mem_fields;
|}.
Proof.
  - done.
  - done.
  - intros s a b. by rewrite app_assoc.
  - intros a b Ha Hb. rewrite length_app, !to_sv64_length. simpl.
    by rewrite take_app_length', drop_app_length', !from_to_sv64 by (done || by rewrite to_sv64_length).
  - intros s n Hn. rewrite length_app, to_sv64_length, split_u64_app by done.
    by destruct (Nat.ltb_spec (length s + 8) 8); [lia|].
  - intros idx s n Hidx Hn.
    set_unfold in Hidx. destruct_or! Hidx; subst idx; unfold mem_fields; by rewrite split_u64_app.
  - intros a b Ha Hb. simpl.
    by rewrite take_app_length', drop_app_length', !from_to_sv64 by (done || by rewrite to_sv64_length).
  - intros s a b Ha Hb. unfold mem_fields. by rewrite !split_u64_app.
  - intros idx n Hidx Hn.
    set_unfold in Hidx. destruct_or! Hidx; subst idx; simpl; by rewrite from_to_sv64.
  - intros idx k Hidx. set_unfold in Hidx. by destruct_or! Hidx; subst idx.
Defined.
End codec.

(** ** The index order is a total preorder *)

Section order.
Context `{!NativeU64, !GolpeKeys}.

Lemma ns_compare_eq a b : ns_compare a b = Eq → a = b.
Proof.
  revert b. induction a as [|x a IH]; intros [|y b]; simpl; try done.
  destruct (N.compare_spec x y) as [->| |]; try done. by intros ->%IH.
Qed.

Lemma ns_compare_lt_trans a b c :
  ns_compare a b = Lt → ns_compare b c = Lt → ns_compare a c = Lt.
Proof.
  revert b c. induction a as [|x a IH]; intros [|y b] [|z c]; simpl; try done.
  destruct (N.compare_spec x y) as [->| |]; try done;
    destruct (N.compare_spec y z) as [->| |]; try done; intros.
  - by eapply IH.
  - by destruct (N.compare_spec x z); [lia|done|lia].
  - by destruct (N.compare_spec x z); [lia|done|lia].
Qed.

Lemma entry_compare_antisym idx e1 e2 :
  entry_compare idx e2 e1 = CompOpp (entry_compare idx e1 e2).
Proof.
  unfold entry_compare.
  destruct (key_fields idx e1.1) as [s1 n1], (key_fields idx e2.1) as [s2 n2].
  rewrite (bytes_compare_antisym s1 s2). destruct (bytes_compare s1 s2); simpl; try done.
  apply ns_compare_antisym.
Qed.

#[export] Instance entry_le_dec idx : RelDecision (entry_le idx).
Proof. intros e1 e2. unfold entry_le. apply _. Defined.

#[export] Instance entry_le_total idx : Total (entry_le idx).
Proof.
  intros e1 e2. unfold entry_le. rewrite (entry_compare_antisym idx e1 e2).
  destruct (entry_compare idx e1 e2); simpl; auto.
Qed.

#[export] Instance entry_le_trans idx : Transitive (entry_le idx).
Proof.
  intros e1 e2 e3. unfold entry_le, entry_compare.
  destruct (key_fields idx e1.1) as [s1 n1], (key_fields idx e2.1) as [s2 n2],
    (key_fields idx e3.1) as [s3 n3].
  destruct (bytes_compare s1 s2) eqn:E1; [apply bytes_compare_eq in E1 as ->| |done];
  destruct (bytes_compare s2 s3) eqn:E2; try done;
  try (apply bytes_compare_eq in E2 as ->).
  - rewrite ?bytes_compare_refl.
    destruct (ns_compare (n1 ++ [e1.2]) (n2 ++ [e2.2])) eqn:E3;
      [apply ns_compare_eq in E3; rewrite E3; by auto| |done].
    destruct (ns_compare (n2 ++ [e2.2]) (n3 ++ [e3.2])) eqn:E4; [| |done].
    + apply ns_compare_eq in E4. rewrite <-E4. by rewrite E3.
    + by rewrite (ns_compare_lt_trans _ _ _ E3 E4).
  - by rewrite E1.
  - by rewrite (bytes_compare_lt_trans _ _ _ E1 E2).
Qed.
End order.

(** ** The engine *)

Section engine.
Context `{!NativeU64, !GolpeKeys}.

Definition event_entries (idx : Index) (p : N * bytes) : list (bytes * N) :=
  match indexPrelude p.2 with
  | Ok i => (λ k, (k, p.1)) <$> index_keys i idx
  | Throw _ => []
  end.

Definition entries (idx : Index) (m : gmap N bytes) : list (bytes * N) :=
  mjoin (event_entries idx <$> map_to_list m).

Lemma elem_of_entries idx m e : e ∈ entries idx m ↔ is_entry m idx e.
Proof.
  unfold entries, is_entry, event_entries. rewrite list_elem_of_join. destruct e as [k l].
  simpl. split.
  - intros (es & Hin & ([l' v] & -> & Hlv)%list_elem_of_fmap). simpl in Hin.
    apply elem_of_map_to_list in Hlv. destruct (indexPrelude v) as [i|] eqn:Hi; [|set_solver].
    apply list_elem_of_fmap in Hin as (k' & [= -> ->] & Hk). by exists v, i.
  - intros (v & i & Hv & Hi & Hk). exists ((λ k, (k, l)) <$> index_keys i idx). split.
    + apply list_elem_of_fmap. by exists k.
    + apply list_elem_of_fmap. exists (l, v). simpl. rewrite Hi. split; [done|].
      by apply elem_of_map_to_list.
Qed.

Definition max_key (m : gmap N bytes) : N := fold_right N.max 0%N (map_to_list m).*1.

Lemma max_key_le m l : is_Some (m !! l) → (l ≤ max_key m)%N.
Proof.
  intros [v Hv]. apply elem_of_map_to_list in Hv. apply (list_elem_of_fmap_2 fst) in Hv.
  simpl in Hv. unfold max_key. induction (map_to_list m).*1 as [|x xs IH]; [set_solver|].
  simpl. apply elem_of_cons in Hv as [->|Hv]; [lia|]. specialize (IH Hv). lia.
Qed.

Lemma max_key_elem m : max_key m = 0%N ∨ is_Some (m !! max_key m).
Proof.
  assert (∀ xs, fold_right N.max 0%N xs = 0%N ∨ fold_right N.max 0%N xs ∈ xs) as Hxs.
  { induction xs as [|x xs [IH|IH]]; simpl; [by left|..].
    - rewrite IH, N.max_0_r. right. set_solver.
    - destruct (N.max_spec x (fold_right N.max 0%N xs)) as [[_ ->]|[_ ->]]; set_solver. }
  destruct (Hxs (map_to_list m).*1) as [H0'|Hin]; [by left|right].
  apply list_elem_of_fmap in Hin as ([l v] & Heq & Hin). apply elem_of_map_to_list in Hin.
  unfold max_key. rewrite Heq. by exists v.
Qed.

Definition mem_insert (t : Tables) (v : bytes) : result (Tables * N) :=
  _ ← indexPrelude v;
  let n := N.succ (max_key (Event t)) in
  _ ← throw_if (MAX_U64 <? n)%N (herr #"database full");
  Ok (set_Event t (<[n := v]> (Event t)), n).

Definition mem_scan (t : Tables) (idx : Index) (k0 : bytes) (v0 : N) (rev' : bool)
    : list (bytes * N) :=
  let l := merge_sort (entry_le idx) (remove_dups (entries idx (Event t))) in
  if rev' then rev (filter (λ e, entry_le idx e (k0, v0)) l)
  else filter (λ e, entry_le idx (k0, v0) e) l.

Definition mem_deletion (t : Tables) (k : bytes) : option N :=
  snd <$> head (filter (λ e : bytes * N, e.1 = k) (entries Event__deletion (Event t))).

End engine.

#[refine, export] Instance mem_env `{!NativeU64, !GolpeKeys} : Env := {|
  env := Tables;
  tables t := t;
  insert_Event := mem_insert;
  delete_Event t n := set_Event t (delete n (Event t));
  EventPayload_put t n v := set_EventPayload t (<[n := v]> (EventPayload t));
  EventPayload_del t n :=
    (set_EventPayload t (delete n (EventPayload t)),
     bool_decide (is_Some (EventPayload t !! n)));
  foreachFull := mem_scan;
  lookup_Event__deletion := mem_deletion;
  foreach_Event t := merge_sort N.le (map_to_list (Event t)).*1;
  tree_insert t i c x := set_trees t (<[i := {[(c, x)]} ∪ tree_of t i]> (trees t));
  tree_erase t i c x := set_trees t (<[i := tree_of t i ∖ {[(c, x)]}]> (trees t));
|}.
Proof.
  - intros t v t' n Hins. unfold mem_insert in Hins. inv_result. subst.
    apply N.ltb_ge in Hr0. split_and!; [done| |lia| |].
    + intros l Hl. pose proof (max_key_le _ _ Hl). lia.
    + destruct (max_key_elem (Event t)) as [->|Hm]; [by left|right].
      by replace (N.succ (max_key (Event t)) - 1)%N with (max_key (Event t)) by lia.
    + unfold is_u64, two64, MAX_U64 in *. lia.
  - intros t v i Hi Hmax. unfold mem_insert. rewrite Hi. simpl.
    destruct (N.ltb_spec MAX_U64 (N.succ (max_key (Event t)))); [|done].
    destruct (max_key_elem (Event t)) as [Hz|Hm]; [rewrite Hz in *; done|].
    specialize (Hmax _ Hm). lia.
  - done.
  - done.
  - done.
  - done.
  - intros t idx k0 v0 r e. unfold mem_scan. destruct r.
    + rewrite list_elem_of_In, <-in_rev, <-list_elem_of_In, list_elem_of_filter,
        merge_sort_Permutation, elem_of_remove_dups, elem_of_entries. tauto.
    + rewrite list_elem_of_filter, merge_sort_Permutation, elem_of_remove_dups,
        elem_of_entries. tauto.
  - intros t idx k0 v0 r. unfold mem_scan.
    assert (StronglySorted (entry_le idx)
      (merge_sort (entry_le idx) (remove_dups (entries idx (Event t))))) as Hso
      by apply (StronglySorted_merge_sort _).
    destruct r; [apply (StronglySorted_rev' (entry_le idx))|]; by apply StronglySorted_filter'.
  - intros t idx k0 v0 r. unfold mem_scan.
    assert (∀ P `{∀ x, Decision (P x)}, NoDup (filter P
      (merge_sort (entry_le idx) (remove_dups (entries idx (Event t)))))) as Hnd.
    { intros P HP. apply NoDup_filter. rewrite merge_sort_Permutation. apply NoDup_remove_dups. }
    destruct r; [|apply Hnd]. rewrite <-Permutation_rev. apply Hnd.
  - intros t k. unfold mem_deletion. rewrite fmap_is_Some. split.
    + intros [[k' n] He]. exists n. apply elem_of_entries.
      apply head_Some_elem_of, list_elem_of_filter in He as [He Hin]. simpl in He. by subst.
    + intros [n Hn%elem_of_entries].
      assert ((k, n) ∈ filter (λ e : bytes * N, e.1 = k)
        (entries Event__deletion (Event t))) as Hf by by apply list_elem_of_filter.
      destruct (filter _ _); [by apply not_elem_of_nil in Hf|]. by eexists.
  - intros t n. rewrite merge_sort_Permutation, list_elem_of_fmap. split.
    + intros ([l v] & -> & Hin%elem_of_map_to_list). by exists v.
    + intros [v Hv]. exists (n, v). split; [done|]. by apply elem_of_map_to_list.
  - intros t. apply (StronglySorted_merge_sort _).
  - intros t. rewrite merge_sort_Permutation. apply NoDup_fst_map_to_list.
  - done.
  - done.
Defined.

Definition empty_db : Tables := mk_tables ∅ ∅ ∅ (Some (mk_meta 3 1 0)) [] ∅.
