(* ===== verification/NegentropyCache.v ===== *)
(** The negentropy trees of stored filters ([NegentropyFilterCache.h]).

    [NegentropyFilterCache] holds the parsed filters of the [NegentropyFilter]
    table with the modification counter they were read at; [freshenCache] rereads
    them when the counter moved, and [updateNegentropy] is the function [ctx]
    passes to its callback.  [trees_sync] is the contract: every tree holds
    exactly the (created_at, id) pairs of the stored events its filter
    matches. *)

From S2P Require Import Prelude Bytes Json Hex PackedEvent FilterSets Filters EventParse Db.

Record NegentropyFilterCache := mk_cache {
  cache_filters : list (NostrFilter * N);
  modificationCounter : N;
}.

Section cache.
Context `{!Hex, !NativeU64, !GolpeKeys, !Env, !JsonParser}.

Definition read_filter (row : N * bytes) : result (NostrFilter * N) :=
  v ← json_from_string row.2;
  f ← NostrFilter_make v MAX_U64;
  Ok (f, row.1).

Definition freshenCache (c : NegentropyFilterCache) (d : env)
    : result NegentropyFilterCache :=
  match Meta_counter (tables d) with
  | None => Throw undefined_behaviour (* [lookup_Meta] found no record *)
  | Some curr =>
      if (curr =? modificationCounter c)%N then Ok c
      else
        fs ← mapR read_filter (NegentropyFilter (tables d));
        Ok (mk_cache fs curr)
  end.

Definition update_one (ev : PackedEventView) (insert : bool) (d : env)
    (f : NostrFilter * N) : result env :=
  b ← doesMatch f.1 ev;
  if (b : bool) then
    Ok (if insert then tree_insert d f.2 (created_at ev) (id ev)
        else tree_erase d f.2 (created_at ev) (id ev))
  else Ok d.

Definition updateNegentropy (fs : list (NostrFilter * N)) (d : env)
    (ev : PackedEventView) (insert : bool) : result env :=
  foldM (update_one ev insert) d fs.

(** ** Contract *)

Definition filters_ok (fs : list (NostrFilter * N)) : Prop :=
  NoDup fs.*2 ∧ Forall (λ f, filter_wf f.1) fs.

(** The cache holds the current rows when the counter has not moved. *)
Definition cache_coherent (c : NegentropyFilterCache) (d : env) : Prop :=
  Meta_counter (tables d) = Some (modificationCounter c) →
  mapR read_filter (NegentropyFilter (tables d)) = Ok (cache_filters c).

Definition tree_elem (e : event) : N * bytes := (ev_created_at e, ev_id e).

(** Every tree holds exactly the events of [m] its filter matches. *)
Definition trees_sync (fs : list (NostrFilter * N)) (d : env) (m : gmap N event) : Prop :=
  ∀ f t, (f, t) ∈ fs → ∀ p, p ∈ tree_of (tables d) t ↔
    ∃ l e, m !! l = Some e ∧ tree_elem e = p ∧ filter_sem f e.

Lemma read_filter_wf row f : read_filter row = Ok f → filter_wf f.1 ∧ f.2 = row.1.
Proof.
  unfold read_filter. intros Hr'. inv_result. subst. simpl. split; [|done].
  destruct (NostrFilter_make_object _ _ _ Hr0) as [kvs ->].
  apply json_from_string_keys in Hr.
  by destruct (NostrFilter_make_sem _ _ _ sample_event Hr0 Hr sample_event_wf).
Qed.

(** Primary keys are distinct, so every filter has its own tree. *)
Lemma read_filters_ok rows fs :
  NoDup rows.*1 → mapR read_filter rows = Ok fs → filters_ok fs.
Proof.
  intros Hnd Hrows%mapR_Ok. split.
  - replace (fs.*2) with (rows.*1); [done|].
    induction Hrows as [|row f rows fs Hf Hrows IH]; [done|].
    apply read_filter_wf in Hf as [_ Hf]. apply NoDup_cons in Hnd as [_ Hnd].
    csimpl. by rewrite Hf, IH.
  - clear Hnd. induction Hrows as [|row f rows fs Hf Hrows IH]; constructor; [|done].
    by apply read_filter_wf in Hf as [Hf _].
Qed.

(** Effect on the tables: only trees change, each by at most this event. *)
Lemma updateNegentropy_spec fs d e ins :
  filters_ok fs → wf_event e →
  ∃ d' T, updateNegentropy fs d (mk_view (encode e)) ins = Ok d' ∧
    tables d' = set_trees (tables d) T ∧
    (∀ f t, (f, t) ∈ fs → ∀ p, p ∈ tree_of (tables d') t ↔
      if (ins : bool) then p ∈ tree_of (tables d) t ∨ p = tree_elem e ∧ filter_sem f e
      else p ∈ tree_of (tables d) t ∧ ¬ (p = tree_elem e ∧ filter_sem f e)) ∧
    (∀ t, t ∉ fs.*2 → tree_of (tables d') t = tree_of (tables d) t).
Proof.
  intros [Hnd Hwf] He. unfold updateNegentropy. revert d.
  induction fs as [|[f t] fs IH]; intros d; simpl.
  { exists d, (trees (tables d)). split; [done|]. split; [by destruct (tables d)|].
    split; [|done]. intros f t Hin. by apply not_elem_of_nil in Hin. }
  csimpl in Hnd. apply NoDup_cons in Hnd as [Ht Hnd].
  apply Forall_cons in Hwf as [Hf Hwf]. simpl in Hf.
  destruct (doesMatch_sem f e Hf He) as (b & Hb & Hbs).
  assert (∃ d1 T1, update_one (mk_view (encode e)) ins d (f, t) = Ok d1 ∧
    tables d1 = set_trees (tables d) T1 ∧
    (∀ p, p ∈ tree_of (tables d1) t ↔
      if ins then p ∈ tree_of (tables d) t ∨ p = tree_elem e ∧ filter_sem f e
      else p ∈ tree_of (tables d) t ∧ ¬ (p = tree_elem e ∧ filter_sem f e)) ∧
    (∀ t', t' ≠ t → tree_of (tables d1) t' = tree_of (tables d) t'))
    as (d1 & T1 & Hd1 & HT1 & Ht1 & Hother1).
  { unfold update_one. simpl. rewrite Hb. simpl. autorewrite with packed; [|done..].
    assert (∀ T t' x, tree_of (set_trees (tables d) (<[t:=x]> T)) t' =
      if decide (t = t') then x else tree_of (set_trees (tables d) T) t') as Hins.
    { intros T t' x. unfold tree_of. simpl. rewrite lookup_insert. by case_decide. }
    destruct b; [|exists d, (trees (tables d)); split_and!; [done|by destruct (tables d)| |done]].
    - destruct ins; eexists _, _; (split; [done|]);
        rewrite ?tree_insert_tables, ?tree_erase_tables;
        (split; [done|]); split; try (intros; rewrite Hins; case_decide; by try congruence);
        intros p; rewrite Hins, decide_True by done; set_unfold;
        unfold tree_elem; naive_solver.
    - intros p. destruct ins; naive_solver. }
  rewrite Hd1. simpl. destruct (IH Hnd Hwf d1) as (d' & T & Hd' & HT & Hts & Hother).
  exists d', T. split_and!.
  - done.
  - by rewrite HT, HT1.
  - intros f' t' [[= -> ->]|Hin]%elem_of_cons p.
    + by rewrite Hother, Ht1.
    + assert (t' ≠ t) as Hne.
      { intros ->. apply Ht. apply list_elem_of_fmap. by exists (f', t). }
      rewrite (Hts f' t' Hin), Hother1 by done. done.
  - csimpl. intros t' [Hne Hnin]%not_elem_of_cons. by rewrite Hother, Hother1.
Qed.
End cache.
