(* ===== verification/EventWriter.v ===== *)
(** Writing and deleting events ([writeEvents], [deleteEvents]).

    One definition per step of the loop of [writeEvents]: duplicate and
    deletion checks, the search of the [replace] index, the targets of a
    deletion event, the insertion and the deletions that follow it.
    [write_spec] is the abstract specification on a finite map of events;
    [EventStore.v] proves that the code refines it. *)

From S2P Require Import Prelude Bytes Json Hex PackedEvent FilterSets Filters EventParse.
From S2P Require Import Db NegentropyCache.

Inductive EventWriteStatus := Pending | Written | Duplicate | Replaced | Deleted.

#[export] Instance EventWriteStatus_eq_dec : EqDecision EventWriteStatus.
Proof. solve_decision. Defined.

(** [userData] is the caller's opaque pointer. *)
Record EventToWrite := mk_etw {
  packedStr : bytes;
  jsonStr : bytes;
  userData : N;
  status : EventWriteStatus;
  levId : N;
}.

Definition EventToWrite_make (packedStr jsonStr : bytes) (userData : N) : EventToWrite :=
  mk_etw packedStr jsonStr userData Pending 0.

Definition set_status ev s :=
  mk_etw (packedStr ev) (jsonStr ev) (userData ev) s (levId ev).
Definition set_levId ev n :=
  mk_etw (packedStr ev) (jsonStr ev) (userData ev) (status ev) n.

Section writer.
Context `{!Hex, !NativeU64, !GolpeKeys, !Env, !JsonParser}.

Definition etw_id (ev : EventToWrite) : result bytes :=
  v ← view (packedStr ev); Ok (id v).

Definition etw_createdAt (ev : EventToWrite) : result N :=
  v ← view (packedStr ev); Ok (created_at v).

(** The comparator given to [std::sort], on events whose views were made. *)
Definition before (a b : EventToWrite) : bool :=
  let aV := mk_view (packedStr a) in
  let bV := mk_view (packedStr b) in
  if (created_at aV =? created_at bV)%N then bytes_ltb (id aV) (id bV)
  else (created_at aV <? created_at bV)%N.

(** What [std::sort] promises (it is not stable): a permutation in which no
    element comes before an earlier one. *)
Definition std_sorts (evs evs' : list EventToWrite) : Prop :=
  evs' ≡ₚ evs ∧ StronglySorted (λ a b, before b a = false) evs'.

Definition find_replace (packed : PackedEventView) : result (option bytes) :=
  if isReplaceableKind (kind packed) || isParamReplaceableKind (kind packed) then
    foreachTag packed (λ replace tagName tagVal,
      if negb (char_eqb tagName "d") then Ok (replace, true)
      else Ok (Some tagVal, false)) None
  else Ok None.

(** The state is the event's status and [levIdsToDelete]; the scan's callback
    returns [false], so only its first entry is visited. *)
Definition check_replace (d : env) (packed : PackedEventView)
    (st : EventWriteStatus * list N) : result (EventWriteStatus * list N) :=
  replace ← find_replace packed;
  match replace with
  | None => Ok st
  | Some r =>
      let searchStr := pubkey packed ++ r in
      let searchKey := makeKey_StringUint64 searchStr (kind packed) in
      match foreachFull d Event__replace searchKey MAX_U64 true with
      | [] => Ok st
      | (k, v) :: _ =>
          '(s, n) ← ParsedKey_StringUint64 k;
          if decide (s = searchStr ∧ n = kind packed) then
            otherEv ← lookupEventByLevId d v;
            otherPacked ← view otherEv.2;
            if (created_at otherPacked <? created_at packed)%N ||
               ((created_at otherPacked =? created_at packed)%N &&
                bytes_ltb (id packed) (id otherPacked))
            then Ok (st.1, st.2 ++ [otherEv.1])
            else Ok (Replaced, st.2)
          else Ok st
      end
  end.

Definition deletion_target (d : env) (packed : PackedEventView) (dels : list N)
    (tagName : ascii) (tagVal : bytes) : result (list N * bool) :=
  if char_eqb tagName "e" then
    match lookupEventById d tagVal with
    | Some (l, b) =>
        other ← view b;
        Ok (if decide (pubkey other = pubkey packed) then dels ++ [l] else dels, true)
    | None => Ok (dels, true)
    end
  else Ok (dels, true).

(** Deletion event, delete all referenced events *)
Definition check_deletions (d : env) (packed : PackedEventView) (dels : list N)
    : result (list N) :=
  if (kind packed =? 5)%N then foreachTag packed (deletion_target d packed) dels
  else Ok dels.

Definition delete_one (fs : list (NostrFilter * N)) (d : env) (l : N) : result env :=
  match lookup_Event d l with
  | None => Ok d (* already deleted *)
  | Some b =>
      ev ← view b;
      d ← updateNegentropy fs d ev false;
      Ok (deleteEventBasic d l).1
  end.

(** The insertion of a pending event and the deletions that follow it. *)
Definition insert_pending (fs : list (NostrFilter * N)) (d : env)
    (packed : PackedEventView) (dels : list N) (ev : EventToWrite)
    : result (env * EventToWrite) :=
  '(d, n) ← insert_Event d (packedStr ev);
  let d := EventPayload_put d n ("000"%char :: jsonStr ev) in
  d ← updateNegentropy fs d packed true;
  d ← foldM (delete_one fs) d dels;
  Ok (d, set_status (set_levId ev n) Written).

(** The loop body; [prevId] is the id of the previous event of the batch and
    the list is [levIdsToDelete]. *)
Definition write_one (fs : list (NostrFilter * N)) (prevId : option bytes)
    (st : env * list N) (ev : EventToWrite) : result (env * list N * EventToWrite) :=
  let '(d, dels) := st in
  packed ← view (packedStr ev);
  if bool_decide (is_Some (lookupEventById d (id packed))) ||
     bool_decide (prevId = Some (id packed))
  then Ok (d, dels, set_status ev Duplicate)
  else if bool_decide (is_Some (lookup_Event__deletion d (id packed ++ pubkey packed)))
  then Ok (d, dels, set_status ev Deleted)
  else
    '(s, dels) ← check_replace d packed (status ev, dels);
    dels ← check_deletions d packed dels;
    let ev := set_status ev s in
    '(d, dels, ev) ← (if decide (s = Pending) then
                        '(d, ev) ← insert_pending fs d packed dels ev; Ok (d, [], ev)
                      else Ok (d, dels, ev));
    _ ← throw_if (negb (length dels =? 0)) (herr #"unprocessed deletion");
    Ok (d, dels, ev).

Fixpoint write_loop (fs : list (NostrFilter * N)) (prevId : option bytes)
    (st : env * list N) (evs : list EventToWrite) : result (env * list EventToWrite) :=
  match evs with
  | [] => Ok (st.1, [])
  | ev :: evs =>
      '(d, dels, ev') ← write_one fs prevId st ev;
      evId ← etw_id ev';
      '(d, evs') ← write_loop fs (Some evId) (d, dels) evs;
      Ok (d, ev' :: evs')
  end.

(** [writeEvents] on the sorted vector: the refreshed cache, the database and
    the vector with its statuses and levIds. *)
Definition writeEvents (c : NegentropyFilterCache) (d : env) (evs : list EventToWrite)
    : result (NegentropyFilterCache * env * list EventToWrite) :=
  c ← freshenCache c d;
  '(d, evs) ← write_loop (cache_filters c) None (d, []) evs;
  Ok (c, d, evs).

Definition delete_counted (fs : list (NostrFilter * N)) (st : env * N) (l : N)
    : result (env * N) :=
  let '(d, numDeleted) := st in
  match lookup_Event d l with
  | None => Ok (d, numDeleted) (* already deleted *)
  | Some b =>
      ev ← view b;
      d ← updateNegentropy fs d ev false;
      let '(d, deleted) := deleteEventBasic d l in
      Ok (d, if deleted then N.succ numDeleted else numDeleted)
  end.

Definition deleteEvents (c : NegentropyFilterCache) (d : env) (levIds : list N)
    : result (NegentropyFilterCache * env * N) :=
  c ← freshenCache c d;
  '(d, numDeleted) ← foldM (delete_counted (cache_filters c)) (d, 0%N) levIds;
  Ok (c, d, numDeleted).
End writer.

#[global] Arguments write_one : simpl never.
#[global] Arguments delete_counted : simpl never.

(** ** Abstract specification *)

Definition addressable (e : event) : Prop :=
  isReplaceableKind (ev_kind e) || isParamReplaceableKind (ev_kind e) = true.

(** Same author, kind and [d] tag. *)
Definition same_address (e o : event) : Prop :=
  ev_pubkey o = ev_pubkey e ∧ ev_kind o = ev_kind e ∧
  ∃ x, d_tag e = Some x ∧ d_tag o = Some x.

(** [e] beats [o]: later, or as late with the smaller id. *)
Definition newer (e o : event) : Prop :=
  (ev_created_at o < ev_created_at e)%N ∨
  ev_created_at o = ev_created_at e ∧ bytes_ltb (ev_id e) (ev_id o) = true.

(** The deletion event [e] names [o], by the same author. *)
Definition deletes (e o : event) : Prop := deletion_for (ev_pubkey o) (ev_id o) e.

Definition id_stored (m : gmap N event) (i : bytes) : Prop :=
  ∃ l o, m !! l = Some o ∧ ev_id o = i.

Definition deletion_stored (m : gmap N event) (e : event) : Prop :=
  ∃ l o, m !! l = Some o ∧ deletes o e.

(** What writing one event does to the stored events. *)
Inductive write_spec (prevId : option bytes) (m : gmap N event) (e : event) :
    EventWriteStatus → N → gmap N event → Prop :=
  | write_duplicate n :
      id_stored m (ev_id e) ∨ prevId = Some (ev_id e) →
      write_spec prevId m e Duplicate n m
  | write_deleted n :
      ¬ id_stored m (ev_id e) → prevId ≠ Some (ev_id e) → deletion_stored m e →
      write_spec prevId m e Deleted n m
  | write_replaced n l o :
      ¬ id_stored m (ev_id e) → prevId ≠ Some (ev_id e) → ¬ deletion_stored m e →
      addressable e → m !! l = Some o → same_address e o → ¬ newer e o →
      write_spec prevId m e Replaced n m
  | write_written n m' :
      ¬ id_stored m (ev_id e) → prevId ≠ Some (ev_id e) → ¬ deletion_stored m e →
      (∀ l o, addressable e → m !! l = Some o → same_address e o → newer e o) →
      n ≠ 0%N → (∀ l, is_Some (m !! l) → (l < n)%N) →
      (∀ l o, m' !! l = Some o ↔
        l = n ∧ o = e ∨
        m !! l = Some o ∧ ¬ (addressable e ∧ same_address e o) ∧ ¬ deletes e o) →
      write_spec prevId m e Written n m'.

(** A batch, in the order it is written. *)
Inductive write_specs : option bytes → gmap N event → list (event * EventToWrite) →
    gmap N event → Prop :=
  | write_specs_nil prevId m : write_specs prevId m [] m
  | write_specs_cons prevId m m1 m2 e ev l :
      write_spec prevId m e (status ev) (levId ev) m1 →
      write_specs (Some (ev_id e)) m1 l m2 →
      write_specs prevId m ((e, ev) :: l) m2.
