(* ===== verification/EventStore.v ===== *)
(** Correctness of writing and deleting events.

    [store_inv] relates the database to a finite map of events: the tables
    hold its packed forms, ids are unique, a replaceable address has one event,
    no stored deletion event names another stored event of its author, payloads
    and events have the same keys, and the negentropy trees are in sync.  The
    theorems: [writeEvents] refines [write_specs] on every batch and preserves
    the invariant, levIds are never reused, the newest event of an address
    wins, and [deleteEvents] removes exactly what it is given. *)

From S2P Require Import Prelude Bytes Json Hex PackedEvent FilterSets Filters EventParse.
From S2P Require Import Db NegentropyCache EventWriter.

(** An event as parsing produces it: well formed, [e] tags of 32 octets. *)
Record event_ok (e : event) : Prop := {
  eo_wf : wf_event e;
  eo_etags : ∀ v, ("e"%char, v) ∈ ev_tags e → length v = 32;
}.

Definition ids_unique (m : gmap N event) : Prop :=
  ∀ l1 l2 e1 e2, m !! l1 = Some e1 → m !! l2 = Some e2 → ev_id e1 = ev_id e2 → l1 = l2.

Record store_ok (m : gmap N event) : Prop := {
  so_replace : ∀ l1 l2 e1 e2, m !! l1 = Some e1 → m !! l2 = Some e2 →
    addressable e1 → same_address e1 e2 → l1 = l2;
  so_deletions : ∀ l1 l2 e1 e2, m !! l1 = Some e1 → m !! l2 = Some e2 →
    deletes e1 e2 → l1 = l2;
}.

(** The tables writing does not touch. *)
Definition same_rest `{Env} (d d' : env) : Prop :=
  Meta_counter (tables d') = Meta_counter (tables d) ∧
  NegentropyFilter (tables d') = NegentropyFilter (tables d) ∧
  CompressionDictionary (tables d') = CompressionDictionary (tables d).

Section store.
Context `{!Hex, !NativeU64, !GolpeKeys, !Env, !JsonParser}.
Implicit Types (d : env) (m : gmap N event) (e o : event).

(** The database holds the events of [m], in step across its tables. *)
Record store_sync (fs : list (NostrFilter * N)) (d : env) (m : gmap N event) : Prop := {
  ss_repr : repr d m;
  ss_ids : ids_unique m;
  ss_payload : ∀ l, is_Some (EventPayload (tables d) !! l) ↔ is_Some (m !! l);
  ss_trees : trees_sync fs d m;
}.

Definition store_inv fs d m : Prop := store_sync fs d m ∧ store_ok m.

Lemma same_rest_refl d : same_rest d d.
Proof. done. Qed.

Lemma same_rest_trans d1 d2 d3 : same_rest d1 d2 → same_rest d2 d3 → same_rest d1 d3.
Proof. intros (A1 & A2 & A3) (B1 & B2 & B3). split_and!; congruence. Qed.

Lemma packed_lookup e (dv : PackedEventView) : dv = mk_view (encode e) → wf_event e →
  id dv = ev_id e ∧ pubkey dv = ev_pubkey e ∧ kind dv = ev_kind e ∧
  created_at dv = ev_created_at e.
Proof. intros -> He. by autorewrite with packed. Qed.

(** ** The steps of the loop body *)

Lemma find_replace_spec e :
  wf_event e →
  find_replace (mk_view (encode e)) =
  Ok (if isReplaceableKind (ev_kind e) || isParamReplaceableKind (ev_kind e)
      then d_tag e else None).
Proof.
  intros He. unfold find_replace. rewrite kind_encode by done.
  destruct (_ || _); [|done]. rewrite foreachTag_encode by done. unfold d_tag.
  induction (ev_tags e) as [|[k v] ts IH]; [done|]. simpl. unfold char_eqb.
  by destruct (Ascii.eqb_spec k "d").
Qed.

Lemma check_replace_spec d m e s dels :
  repr d m → wf_event e →
  (check_replace d (mk_view (encode e)) (s, dels) = Ok (s, dels) ∧
   ∀ l o, addressable e → m !! l = Some o → ¬ same_address e o) ∨
  (∃ l o, addressable e ∧ m !! l = Some o ∧ same_address e o ∧
    (newer e o ∧ check_replace d (mk_view (encode e)) (s, dels) = Ok (s, dels ++ [l]) ∨
     ¬ newer e o ∧ check_replace d (mk_view (encode e)) (s, dels) = Ok (Replaced, dels))).
Proof.
  intros Hr He. unfold check_replace. rewrite find_replace_spec by done. simpl.
  unfold addressable.
  destruct (isReplaceableKind (ev_kind e) || isParamReplaceableKind (ev_kind e)) eqn:Ha;
    [|by left].
  destruct (d_tag e) as [x|] eqn:Hx; [|left; split; [done|]; unfold same_address; naive_solver].
  rewrite pubkey_encode, kind_encode by done.
  pose proof (replace_scan d m (ev_pubkey e) (ev_kind e) x Hr (wf_pubkey e He) (wf_kind e He))
    as Hscan.
  destruct (foreachFull d _ _ _ _) as [|[k v] rest].
  { left. split; [done|]. intros l o _ Hl (? & ? & y & ? & ?). simplify_eq.
    by eapply (Hscan l o). }
  destruct Hscan as (o & y & Hv & Hwo & Hy & -> & Hcase). simpl.
  destruct (decide (ev_pubkey o ++ y = ev_pubkey e ++ x ∧ ev_kind o = ev_kind e))
    as [[Heq Hk]|Hne].
  - apply app_inj_1 in Heq as [Hpk ->]; [|by rewrite (wf_pubkey o), (wf_pubkey e)].
    unfold lookupEventByLevId. rewrite (lookup_Event_repr d m v Hr), Hv. simpl.
    rewrite view_encode by done. simpl. autorewrite with packed; [|done..].
    right. exists v, o. split_and!; [done|done|by split_and!; [..|exists x]|].
    unfold newer.
    destruct (N.ltb_spec (ev_created_at o) (ev_created_at e)); simpl; [left; auto|].
    destruct (N.eqb_spec (ev_created_at o) (ev_created_at e)); simpl;
      [|right; split; [intros [?|[? ?]]; lia || done|done]].
    destruct (bytes_ltb (ev_id e) (ev_id o)); [left; auto|].
    right. split; [intros [?|[? ?]]; lia || done|done].
  - left. split; [done|]. intros l o' _ Ho' (Hp & Hk' & y' & Hy1 & Hy2). simplify_eq.
    destruct Hcase as [(? & ? & Hat)|Hno]; [|by eapply Hno].
    simplify_eq. apply Hne. split; congruence.
Qed.

Lemma deletion_fold d m e ts dels :
  repr d m → ids_unique m → wf_event e → (∀ v, ("e"%char, v) ∈ ts → length v = 32) →
  ∃ ls, fold_tags (deletion_target d (mk_view (encode e))) ts dels = Ok (dels ++ ls) ∧
    ∀ l, l ∈ ls ↔
      ∃ o, m !! l = Some o ∧ ev_pubkey e = ev_pubkey o ∧ ("e"%char, ev_id o) ∈ ts.
Proof.
  intros Hr Hm He. revert dels. induction ts as [|[k v] ts IH]; intros dels Hts.
  { exists []. rewrite app_nil_r. split; [done|]. intros l. set_solver. }
  assert (∃ ls1, deletion_target d (mk_view (encode e)) dels k v = Ok (dels ++ ls1, true) ∧
    ∀ l, l ∈ ls1 ↔
      ∃ o, m !! l = Some o ∧ ev_pubkey e = ev_pubkey o ∧ ("e"%char, ev_id o) = (k, v))
    as (ls1 & Hstep & Hls1).
  { unfold deletion_target, char_eqb. destruct (Ascii.eqb_spec k "e") as [->|Hk].
    2: { exists []. rewrite app_nil_r. split; [done|]. set_solver. }
    pose proof (lookupEventById_spec d m v Hr (Hts v ltac:(set_solver))) as Hlk.
    destruct (lookupEventById d v) as [[l b]|].
    2: { exists []. rewrite app_nil_r. split; [done|]. set_solver. }
    destruct Hlk as (o & Ho & Hid & ->). destruct (repr_wf d m l o Hr Ho) as [Hwo _].
    rewrite view_encode by done. simpl. rewrite !pubkey_encode by done.
    assert (∀ l' o', m !! l' = Some o' → ev_id o' = v → l' = l ∧ o' = o) as Huniq.
    { intros l' o' Ho' Hid'. assert (l' = l) as -> by (eapply Hm; eauto; congruence).
      split; congruence. }
    destruct (decide (ev_pubkey o = ev_pubkey e)) as [Hp|Hp].
    - exists [l]. split; [done|]. intros l'. rewrite list_elem_of_singleton. split.
      + intros ->. exists o. by rewrite Hid.
      + intros (o' & Ho' & _ & [= Hid']). by apply (Huniq l' o').
    - exists []. rewrite app_nil_r. split; [done|]. intros l'.
      split; [by intros ?%not_elem_of_nil|]. intros (o' & Ho' & Hp' & [= Hid']).
      destruct (Huniq l' o' Ho' Hid') as [-> ->]. congruence. }
  destruct (IH (dels ++ ls1)) as (ls2 & Hrest & Hls2); [set_solver|].
  exists (ls1 ++ ls2). simpl. rewrite Hstep. simpl. rewrite Hrest, app_assoc.
  split; [done|]. intros l. rewrite elem_of_app, Hls1, Hls2.
  setoid_rewrite elem_of_cons. naive_solver.
Qed.

Lemma check_deletions_spec d m e dels :
  repr d m → ids_unique m → event_ok e →
  ∃ ls, check_deletions d (mk_view (encode e)) dels = Ok (dels ++ ls) ∧
    ∀ l, l ∈ ls ↔ ∃ o, m !! l = Some o ∧ deletes e o.
Proof.
  intros Hr Hm [He Hetags]. unfold check_deletions, deletes, deletion_for.
  rewrite kind_encode by done. destruct (N.eqb_spec (ev_kind e) 5) as [Hk|Hk].
  - rewrite foreachTag_encode by done.
    destruct (deletion_fold d m e (ev_tags e) dels) as (ls & Hls & Hin); [done..|].
    exists ls. split; [done|]. intros l. rewrite Hin. naive_solver.
  - exists []. rewrite app_nil_r. split; [done|]. intros l.
    split; [by intros ?%not_elem_of_nil|naive_solver].
Qed.

(** ** Deleting *)

Lemma tree_elem_inj m l1 l2 e1 e2 :
  ids_unique m → m !! l1 = Some e1 → m !! l2 = Some e2 → tree_elem e1 = tree_elem e2 →
  l1 = l2.
Proof. intros Hm H1' H2' [= _ Hid]. by eapply Hm. Qed.

Lemma repr_delete b m l :
  repr_map b m → repr_map (delete l b) (delete l m).
Proof.
  intros [-> Hm]. split; [by rewrite fmap_delete|]. by apply map_Forall_delete.
Qed.

(** Removing one event from a database in step. *)
Lemma delete_stored fs d m l e :
  filters_ok fs → store_sync fs d m → m !! l = Some e →
  ∃ d', updateNegentropy fs d (mk_view (encode e)) false = Ok d' ∧
    (deleteEventBasic d' l).2 = true ∧
    store_sync fs (deleteEventBasic d' l).1 (delete l m) ∧
    same_rest d (deleteEventBasic d' l).1 ∧
    EventPayload (tables (deleteEventBasic d' l).1) = delete l (EventPayload (tables d)).
Proof.
  intros Hfs [Hr Hm Hp Ht] Hl. destruct (repr_wf d m l e Hr Hl) as [He _].
  destruct (updateNegentropy_spec fs d e false Hfs He) as (d' & T & Hd' & HT & Htr & _).
  exists d'. split; [done|]. unfold deleteEventBasic.
  destruct (EventPayload_del d' l) as [d2 found] eqn:Hdel.
  pose proof (EventPayload_del_tables d' l) as Ht2.
  pose proof (EventPayload_del_found d' l) as Hf2. rewrite Hdel in Ht2, Hf2. simpl in *.
  assert (is_Some (Event (tables d2) !! l)) as Hsome.
  { rewrite Ht2, HT. simpl. destruct Hr as [-> _]. rewrite lookup_fmap, Hl. by eexists. }
  pose proof (delete_Event_tables d2 l Hsome) as Htab. rewrite Ht2, HT in Htab.
  split.
  { rewrite Hf2, HT. simpl. apply bool_decide_eq_true, Hp. by eexists. }
  split; [|split; [by unfold same_rest; rewrite Htab|by rewrite Htab]].
  constructor.
  - unfold repr. rewrite Htab. by apply repr_delete.
  - intros l1 l2 e1 e2 [_ Hl1]%lookup_delete_Some [_ Hl2]%lookup_delete_Some. by eapply Hm.
  - rewrite Htab. simpl. intros l'. rewrite !lookup_delete_is_Some, Hp. done.
  - intros f t Hft p. rewrite Htab. unfold tree_of. simpl.
    specialize (Htr f t Hft p). rewrite HT in Htr. unfold tree_of in Htr at 1. simpl in Htr.
    rewrite Htr, (Ht f t Hft p). split.
    + intros [(l' & o & Ho & <- & Hsem) Hne]. exists l', o. split; [|done].
      apply lookup_delete_Some. split; [|done]. intros <-. simplify_eq. naive_solver.
    + intros (l' & o & [Hne Ho]%lookup_delete_Some & <- & Hsem). split; [by exists l', o|].
      intros [Heq _]. apply Hne. by eapply tree_elem_inj.
Qed.

(** The events whose levId is not in [ls]. *)
Definition drop_all (ls : list N) (m : gmap N event) : gmap N event :=
  filter (λ p, p.1 ∉ ls) m.

Lemma drop_all_lookup ls m l o :
  drop_all ls m !! l = Some o ↔ m !! l = Some o ∧ l ∉ ls.
Proof. apply map_lookup_filter_Some. Qed.

Lemma drop_all_cons l ls m : drop_all (l :: ls) m = drop_all ls (delete l m).
Proof.
  apply map_eq. intros l'. apply option_eq. intros o.
  rewrite !drop_all_lookup, lookup_delete_Some, not_elem_of_cons. naive_solver.
Qed.

Lemma drop_all_nil m : drop_all [] m = m.
Proof.
  apply map_eq. intros l. apply option_eq. intros o. rewrite drop_all_lookup. set_solver.
Qed.

Lemma delete_one_spec fs d m l :
  filters_ok fs → store_sync fs d m →
  ∃ d', delete_one fs d l = Ok d' ∧ store_sync fs d' (delete l m) ∧ same_rest d d' ∧
    ∀ l', l' ≠ l → EventPayload (tables d') !! l' = EventPayload (tables d) !! l'.
Proof.
  intros Hfs Hd. unfold delete_one.
  rewrite (lookup_Event_repr d m l) by apply Hd. destruct (m !! l) as [e|] eqn:Hl; simpl.
  - rewrite view_encode by (eapply repr_wf; [apply Hd|done]). simpl.
    destruct (delete_stored fs d m l e Hfs Hd Hl) as (d1 & -> & _ & Hd2 & Hrest & Hpay).
    eexists. split_and!; [done|done|done|]. intros l' Hne.
    by rewrite Hpay, lookup_delete_ne.
  - exists d. by rewrite delete_id.
Qed.

Lemma delete_fold fs ls d m :
  filters_ok fs → store_sync fs d m →
  ∃ d', foldM (delete_one fs) d ls = Ok d' ∧ store_sync fs d' (drop_all ls m) ∧
    same_rest d d' ∧
    ∀ l, l ∉ ls → EventPayload (tables d') !! l = EventPayload (tables d) !! l.
Proof.
  intros Hfs. revert d m. induction ls as [|l ls IH]; intros d m Hd; simpl.
  { exists d. rewrite drop_all_nil. split_and!; [done|done|apply same_rest_refl|done]. }
  rewrite drop_all_cons.
  destruct (delete_one_spec fs d m l Hfs Hd) as (d1 & -> & Hd1 & Hrest & Hpay). simpl.
  destruct (IH _ _ Hd1) as (d' & Hd' & Hs & Hrest' & Hpay').
  exists d'. split_and!; [done|done|by eapply same_rest_trans|].
  intros l' [Hne Hnin]%not_elem_of_cons. rewrite Hpay' by done. by apply Hpay.
Qed.

(** ** Inserting *)

Definition room (m : gmap N event) : Prop :=
  ∀ l, is_Some (m !! l) → (l < MAX_U64)%N.

Lemma insert_stored fs d m e json :
  filters_ok fs → store_sync fs d m → wf_event e → ¬ id_stored m (ev_id e) → room m →
  ∃ d1 n d2, insert_Event d (encode e) = Ok (d1, n) ∧
    updateNegentropy fs (EventPayload_put d1 n json) (mk_view (encode e)) true = Ok d2 ∧
    n ≠ 0%N ∧ (∀ l, is_Some (m !! l) → (l < n)%N) ∧
    (n = 1%N ∨ is_Some (m !! (n - 1)%N)) ∧
    store_sync fs d2 (<[n := e]> m) ∧ same_rest d d2 ∧
    EventPayload (tables d2) = <[n := json]> (EventPayload (tables d)).
Proof.
  intros Hfs [Hr Hm Hp Ht] He Hid Hroom.
  assert (∀ l, is_Some (Event (tables d) !! l) ↔ is_Some (m !! l)) as Hdom.
  { intros l. destruct Hr as [-> _]. by rewrite lookup_fmap, fmap_is_Some. }
  pose proof (insert_Event_total d _ _ (indexPrelude_encode e He)) as Htot.
  destruct (insert_Event d (encode e)) as [[d1 n]|] eqn:Hins.
  2: { simpl in Htot. discriminate Htot. intros l Hl%Hdom. by apply Hroom. }
  apply insert_Event_Ok in Hins as (Htab & Hmax & Hn0 & Hpred & Hn).
  destruct (updateNegentropy_spec fs (EventPayload_put d1 n json) e true Hfs He)
    as (d2 & T & Hd2 & HT & Htr & _).
  rewrite EventPayload_put_tables, Htab in HT.
  exists d1, n, d2.
  assert (∀ l, is_Some (m !! l) → (l < n)%N) as Hlt by (intros l Hl; by apply Hmax, Hdom).
  assert (m !! n = None) as Hfresh.
  { destruct (m !! n) eqn:Hmn; [|done]. specialize (Hlt n ltac:(by rewrite Hmn)). lia. }
  rewrite Hdom in Hpred.
  split_and!; [done|done|done|done|done| |by unfold same_rest; rewrite HT|by rewrite HT].
  constructor.
  - unfold repr. rewrite HT. simpl. destruct Hr as [-> Hwf].
    split; [by rewrite fmap_insert|]. by apply map_Forall_insert_2.
  - intros l1 l2 e1 e2 [[<- <-]|[Hne1 Hl1]]%lookup_insert_Some
      [[<- <-]|[Hne2 Hl2]]%lookup_insert_Some Heq; [done| | |by eapply Hm].
    + destruct Hid. by exists l2, e2.
    + destruct Hid. by exists l1, e1.
  - rewrite HT. simpl. intros l. rewrite !lookup_insert_is_Some, Hp. done.
  - intros f t Hft p. rewrite (Htr f t Hft p).
    rewrite EventPayload_put_tables, Htab. unfold tree_of at 1. simpl. fold (tree_of (tables d) t).
    rewrite (Ht f t Hft p). split.
    + intros [(l & o & Ho & <- & Hsem)|[-> Hsem]].
      * exists l, o. rewrite lookup_insert_ne by congruence. done.
      * exists n, e. by rewrite lookup_insert_eq.
    + intros (l & o & [[<- <-]|[Hne Ho]]%lookup_insert_Some & <- & Hsem); [by right|].
      left. by exists l, o.
Qed.
(** ** The specification preserves the invariant of the stored events *)

Lemma same_address_sym e o : same_address e o → same_address o e.
Proof. intros (? & ? & x & ? & ?). split_and!; [done..|by exists x]. Qed.

Lemma same_address_addressable e o : same_address e o → addressable o → addressable e.
Proof. unfold addressable. by intros (_ & -> & _). Qed.

Lemma write_spec_ok prevId m e s n m' :
  store_ok m → write_spec prevId m e s n m' → store_ok m'.
Proof.
  intros Hok Hw. destruct Hw as [| | |n m' Hid _ Hdel _ _ Hfresh Hm']; [done..|].
  constructor.
  - intros l1 l2 e1 e2 [[-> ->]|(Hl1 & Ha1 & _)]%Hm' [[-> ->]|(Hl2 & Ha2 & _)]%Hm' Hadd Hsame.
    + done.
    + by destruct Ha2.
    + destruct Ha1. split; [by eapply same_address_addressable, Hadd; apply same_address_sym|].
      by apply same_address_sym.
    + by eapply so_replace.
  - intros l1 l2 e1 e2 [[-> ->]|(Hl1 & _ & Hd1)]%Hm' [[-> ->]|(Hl2 & _ & Hd2)]%Hm' Hd.
    + done.
    + by destruct Hd2.
    + destruct Hdel. by exists l1, e1.
    + by eapply so_deletions.
Qed.

Lemma write_spec_room prevId m e s n m' b :
  write_spec prevId m e s n m' → (n = 1%N ∨ is_Some (m !! (n - 1)%N)) →
  (∀ l, is_Some (m !! l) → (l ≤ b)%N) → ∀ l, is_Some (m' !! l) → (l ≤ N.succ b)%N.
Proof.
  intros Hw Hn Hb l [o Hl].
  destruct Hw as [| | |n m' Hid _ Hdel _ _ Hfresh Hm'].
  1-3: by specialize (Hb l ltac:(by eexists)); lia.
  apply Hm' in Hl as [[-> ->]|(Hl & _)].
  - destruct Hn as [->|Hn]; [lia|]. specialize (Hb _ Hn). lia.
  - specialize (Hb l ltac:(by eexists)). lia.
Qed.

(** ** One event *)

(** The vector element [ev] stands for the event [e] and was not yet
    processed. *)
Definition pending_for (e : event) (ev : EventToWrite) : Prop :=
  packedStr ev = encode e ∧ status ev = Pending ∧ event_ok e.

(** The caller's fields are left alone. *)
Definition same_input (ev ev' : EventToWrite) : Prop :=
  packedStr ev' = packedStr ev ∧ jsonStr ev' = jsonStr ev ∧ userData ev' = userData ev.

(** Payloads after one event: the new record, the others as they were. *)
Definition payload_step (d d' : env) (m' : gmap N event) (ev' : EventToWrite) : Prop :=
  ∀ l, is_Some (m' !! l) → EventPayload (tables d') !! l =
    if decide (status ev' = Written ∧ l = levId ev') then Some ("000"%char :: jsonStr ev')
    else EventPayload (tables d) !! l.

Lemma check_replace_written d m e dels :
  repr d m → store_ok m → wf_event e →
  ∃ s ls, check_replace d (mk_view (encode e)) (Pending, dels) = Ok (s, dels ++ ls) ∧
    (s = Pending ∧
      (∀ l o, addressable e → m !! l = Some o → same_address e o → newer e o) ∧
      (∀ l, l ∈ ls ↔ ∃ o, m !! l = Some o ∧ addressable e ∧ same_address e o) ∨
     s = Replaced ∧ ls = [] ∧
      ∃ l o, addressable e ∧ m !! l = Some o ∧ same_address e o ∧ ¬ newer e o).
Proof.
  intros Hr Hok He.
  destruct (check_replace_spec d m e Pending dels Hr He)
    as [[-> Hno]|(l & o & Ha & Ho & Hsame & [[Hnew ->]|[Hnew ->]])].
  - exists Pending, []. rewrite app_nil_r. split; [done|]. left. set_solver.
  - exists Pending, [l]. split; [done|]. left.
    assert (∀ l' o', m !! l' = Some o' → same_address e o' → l' = l ∧ o' = o) as Huniq.
    { intros l' o' Ho' Hs'. assert (l' = l) as ->; [|split; congruence].
      eapply (so_replace m Hok l' l o' o); [done|done| |].
      - eapply same_address_addressable, Ha. by apply same_address_sym.
      - destruct Hs' as (? & ? & x & ? & ?), Hsame as (? & ? & y & ? & ?).
        split_and!; [congruence..|]. exists x. split; congruence. }
    split; [done|]. split; [naive_solver|]. intros l'. rewrite list_elem_of_singleton.
    naive_solver.
  - exists Replaced, []. rewrite app_nil_r. split; [done|]. right. eauto 10.
Qed.
Lemma addressable_not_deletion e : addressable e → ev_kind e ≠ 5%N.
Proof. unfold addressable. by intros Ha Hk; rewrite Hk in Ha. Qed.

Lemma insert_pending_spec fs d m e ev ls :
  filters_ok fs → store_sync fs d m → wf_event e → packedStr ev = encode e →
  ¬ id_stored m (ev_id e) → room m → (∀ l, l ∈ ls → is_Some (m !! l)) →
  ∃ d' n, insert_pending fs d (mk_view (encode e)) ls ev =
      Ok (d', set_status (set_levId ev n) Written) ∧
    n ≠ 0%N ∧ (∀ l, is_Some (m !! l) → (l < n)%N) ∧
    (n = 1%N ∨ is_Some (m !! (n - 1)%N)) ∧
    store_sync fs d' (drop_all ls (<[n := e]> m)) ∧ same_rest d d' ∧
    payload_step d d' (drop_all ls (<[n := e]> m)) (set_status (set_levId ev n) Written).
Proof.
  intros Hfs Hd He Hpk Hid Hroom Hls. unfold insert_pending. rewrite Hpk.
  destruct (insert_stored fs d m e ("000"%char :: jsonStr ev) Hfs Hd He Hid Hroom)
    as (d1 & n & d2 & -> & Hup & Hn0 & Hlt & Hpred & Hd2 & Hrest & Hpay).
  simpl. rewrite Hup. simpl.
  destruct (delete_fold fs ls d2 _ Hfs Hd2) as (d' & -> & Hd' & Hrest' & Hpay'). simpl.
  exists d', n. split_and!; [done..|by eapply same_rest_trans|].
  intros l [o Hl%drop_all_lookup]. destruct Hl as [_ Hl]. rewrite Hpay', Hpay by done. simpl.
  destruct (decide (l = n)) as [->|Hne].
  - by rewrite lookup_insert_eq, decide_True.
  - rewrite lookup_insert_ne, decide_False by naive_solver. done.
Qed.

Lemma lookup_id_stored d m i :
  repr d m → length i = 32 → is_Some (lookupEventById d i) ↔ id_stored m i.
Proof.
  intros Hr Hi. pose proof (lookupEventById_spec d m i Hr Hi) as Hlk.
  destruct (lookupEventById d i) as [[l b]|].
  - destruct Hlk as (o & Ho & Hid & _). split; [|by eexists]. intros _. by exists l, o.
  - split; [by intros []|]. intros (l & o & Ho & Hid). by destruct (Hlk l o).
Qed.

(** Insertion followed by the deletions is the specification's new map. *)
Lemma drop_all_written m n e ls1 ls2 :
  (∀ l, is_Some (m !! l) → (l < n)%N) →
  (∀ l, l ∈ ls1 ↔ ∃ o, m !! l = Some o ∧ addressable e ∧ same_address e o) →
  (∀ l, l ∈ ls2 ↔ ∃ o, m !! l = Some o ∧ deletes e o) →
  ∀ l o, drop_all (ls1 ++ ls2) (<[n:=e]> m) !! l = Some o ↔
    l = n ∧ o = e ∨
    m !! l = Some o ∧ ¬ (addressable e ∧ same_address e o) ∧ ¬ deletes e o.
Proof.
  intros Hlt Hls1 Hls2 l o.
  rewrite drop_all_lookup, lookup_insert_Some, elem_of_app, Hls1, Hls2.
  assert (∀ o', m !! n = Some o' → False) as Hn.
  { intros o' Ho'. specialize (Hlt n ltac:(by rewrite Ho')). lia. }
  split.
  - intros [[[-> ->]|[Hne Ho]] Hnin]; [by left|right]. naive_solver.
  - intros [[-> ->]|(Ho & Hna & Hnd)].
    + split; [by left|]. naive_solver.
    + split; [right; split; [|done]|naive_solver]. intros <-. by eapply Hn.
Qed.

(** The loop body on a database in good order: it does not throw, the status
    it sets and the new contents are the specification's. *)
Lemma write_one_spec fs prevId d m e ev :
  filters_ok fs → store_inv fs d m → pending_for e ev → room m →
  ∃ d' ev' m', write_one fs prevId (d, []) ev = Ok (d', [], ev') ∧
    write_spec prevId m e (status ev') (levId ev') m' ∧
    store_inv fs d' m' ∧ same_rest d d' ∧ same_input ev ev' ∧ payload_step d d' m' ev' ∧
    ∀ b, (∀ l, is_Some (m !! l) → (l ≤ b)%N) → ∀ l, is_Some (m' !! l) → (l ≤ N.succ b)%N.
Proof.
  intros Hfs [Hd Hok] (Hpk & Hst & He) Hroom. pose proof (eo_wf e He) as Hwf.
  pose proof (ss_repr _ _ _ Hd) as Hr.
  assert (∀ s, s ≠ Written → payload_step d d m (set_status ev s)) as Hsame_pay.
  { intros s Hs l _. simpl. rewrite decide_False by naive_solver. done. }
  assert (∀ b : N, (∀ l, is_Some (m !! l) → (l ≤ b)%N) →
    ∀ l, is_Some (m !! l) → (l ≤ N.succ b)%N) as Hsame_b.
  { intros b Hb l Hl. specialize (Hb l Hl). lia. }
  unfold write_one. rewrite Hpk, view_encode by done. simpl.
  rewrite id_encode, pubkey_encode by done.
  pose proof (lookup_id_stored d m (ev_id e) Hr (wf_id e Hwf)) as Hdup.
  destruct (bool_decide (is_Some (lookupEventById d (ev_id e))) ||
            bool_decide (prevId = Some (ev_id e))) eqn:Edup.
  { exists d, (set_status ev Duplicate), m.
    rewrite orb_true_iff, !bool_decide_eq_true, Hdup in Edup.
    split_and!; [done|by constructor|done|done|done|by apply Hsame_pay|done]. }
  apply orb_false_iff in Edup as [Edup%bool_decide_eq_false Eprev%bool_decide_eq_false].
  rewrite Hdup in Edup.
  pose proof (lookup_deletion_spec d m (ev_pubkey e) (ev_id e) Hr (wf_pubkey e Hwf)) as Hdel.
  case_bool_decide as Edel; rewrite Hdel in Edel.
  { exists d, (set_status ev Deleted), m.
    split_and!; [done|by constructor|done|done|done|by apply Hsame_pay|done]. }
  rewrite Hst.
  destruct (check_replace_written d m e [] Hr Hok Hwf) as (s & ls1 & -> & Hcase). simpl.
  destruct (check_deletions_spec d m e ls1 Hr (ss_ids _ _ _ Hd) He) as (ls2 & -> & Hls2). simpl.
  destruct Hcase as [(-> & Hnew & Hls1)|(-> & -> & l & o & Ha & Ho & Hs & Hnn)].
  - rewrite decide_True by done.
    destruct (insert_pending_spec fs d m e (set_status ev Pending) (ls1 ++ ls2))
      as (d' & n & -> & Hn0 & Hlt & Hpred & Hd' & Hrest & Hpay); try done.
    { intros l [Hl%Hls1|Hl%Hls2]%elem_of_app; naive_solver. }
    simpl. eexists d', _, _.
    assert (write_spec prevId m e Written n (drop_all (ls1 ++ ls2) (<[n:=e]> m))) as Hw
      by (constructor; try done; by apply drop_all_written).
    split_and!; [done|exact Hw|split; [done|by eapply write_spec_ok]|done|done|done|].
    intros b. by apply (write_spec_room prevId m e Written n).
  - rewrite decide_False by done. simpl.
    assert (ls2 = []) as ->.
    { apply elem_of_nil_inv. intros l' (o' & _ & Hk & _)%Hls2.
      by apply (addressable_not_deletion e Ha). }
    exists d, (set_status ev Replaced), m. simpl.
    split_and!; [done|by econstructor|done|done|done|by apply Hsame_pay|done].
Qed.

(** ** The batch *)

(** [b] is the largest levId, 0 for an empty store. *)
Definition is_top (m : gmap N event) (b : N) : Prop :=
  (∀ l, is_Some (m !! l) → (l ≤ b)%N) ∧ (b = 0%N ∨ is_Some (m !! b)).

Definition written_levIds (evs : list EventToWrite) : list N :=
  omap (λ ev, if decide (status ev = Written) then Some (levId ev) else None) evs.

Lemma write_spec_top prevId m e s n m' b :
  is_top m b → write_spec prevId m e s n m' →
  s = Written ∧ (b < n)%N ∧ is_top m' n ∨ s ≠ Written ∧ s ≠ Pending ∧ m' = m.
Proof.
  intros [Hb Hb0] Hw. destruct Hw as [| | |n m' _ _ _ _ Hn0 Hfresh Hm']; [by right..|].
  left. split; [done|]. split.
  - destruct Hb0 as [->|Hb0]; [lia|]. by apply Hfresh.
  - split; [|right; exists e; apply Hm'; by left].
    intros l [o [[-> _]|(Hl & _)]%Hm']; [done|].
    specialize (Hfresh l ltac:(by eexists)). lia.
Qed.

Lemma last_cons_shift (x y : N) l : List.last (x :: l) y = List.last l x.
Proof.
  revert x y. induction l as [|z l IH]; intros x y; [done|].
  etrans; [apply (IH z y)|symmetry; apply (IH z x)].
Qed.

Lemma write_spec_old prevId m e s n m' b l o :
  is_top m b → write_spec prevId m e s n m' → m' !! l = Some o → (l ≤ b)%N → m !! l = Some o.
Proof.
  intros [Hb Hb0] Hw Hl Hlb. destruct Hw as [| | |n m' _ _ _ _ Hn0 Hfresh Hm']; [done..|].
  apply Hm' in Hl as [[-> _]|(Hl & _)]; [|done]. destruct Hb0 as [->|Hb0]; [lia|].
  specialize (Hfresh b Hb0). lia.
Qed.

(** What a batch leaves behind, in terms of levIds and payloads. *)
Record batch_result (d d' : env) (m m' : gmap N event) (b : N)
    (evs' : list EventToWrite) : Prop := {
  br_levIds : StronglySorted N.lt (b :: written_levIds evs');
  br_top : is_top m' (List.last (written_levIds evs') b);
  br_done : Forall (λ ev', status ev' ≠ Pending) evs';
  br_old : ∀ l o, m' !! l = Some o → (l ≤ b)%N →
    m !! l = Some o ∧ EventPayload (tables d') !! l = EventPayload (tables d) !! l;
  br_new : ∀ ev', ev' ∈ evs' → status ev' = Written → is_Some (m' !! levId ev') →
    EventPayload (tables d') !! levId ev' = Some ("000"%char :: jsonStr ev');
}.

Lemma batch_result_nil d m b : is_top m b → batch_result d d m m b [].
Proof. intros Hb. constructor; try done; [by repeat constructor|set_solver]. Qed.

Lemma written_levIds_cons ev evs :
  written_levIds (ev :: evs) =
  if decide (status ev = Written) then levId ev :: written_levIds evs
  else written_levIds evs.
Proof. unfold written_levIds. csimpl. by destruct (decide _). Qed.

Lemma batch_result_cons prevId d d1 d' m m1 m' e b ev evs' :
  is_top m b → write_spec prevId m e (status ev) (levId ev) m1 →
  payload_step d d1 m1 ev →
  (∀ b1, is_top m1 b1 → (b ≤ b1)%N → batch_result d1 d' m1 m' b1 evs') →
  batch_result d d' m m' b (ev :: evs').
Proof.
  intros Hb Hw Hpay Hrest.
  pose proof (write_spec_top _ _ _ _ _ _ _ Hb Hw) as Htop.
  assert (∀ b1, (b ≤ b1)%N → batch_result d1 d' m1 m' b1 evs' →
    ∀ l o, m' !! l = Some o → (l ≤ b)%N → m !! l = Some o ∧
      EventPayload (tables d') !! l = EventPayload (tables d) !! l) as Hold.
  { intros b1 Hb1 Hbr l o Hl Hlb.
    destruct (br_old _ _ _ _ _ _ Hbr l o Hl ltac:(lia)) as [Hl1 ->].
    split; [by eapply write_spec_old|]. rewrite Hpay by (by eexists).
    rewrite decide_False; [done|]. intros [Hst ->].
    destruct Htop as [(_ & ? & _)|(? & _)]; [lia|done]. }
  unfold payload_step in Hpay.
  destruct Htop as [(Hst & Hn & Htop)|(Hst & Hp & ->)].
  - specialize (Hrest _ Htop ltac:(lia)). destruct Hrest as [Hso Ht Hd Ho Hnew] eqn:E; clear E.
    constructor; rewrite ?written_levIds_cons, ?decide_True by done.
    + constructor; [done|]. inversion_clear Hso as [|? ? Hso' Hall].
      constructor; [done|]. eapply Forall_impl; [done|]. simpl. lia.
    + by rewrite last_cons_shift.
    + constructor; [by rewrite Hst|done].
    + apply (Hold (levId ev)); [lia|]. by constructor.
    + intros ev' [->|Hin]%elem_of_cons Hst' [o Hlive]; [|by apply Hnew].
      destruct (Ho _ _ Hlive) as [Hl1 ->]; [lia|].
      rewrite Hpay by (by eexists). by rewrite decide_True.
  - specialize (Hrest _ Hb ltac:(lia)). pose proof Hrest as [Hso Ht Hd Ho Hnew].
    constructor; rewrite ?written_levIds_cons, ?decide_False by done; try done.
    + by constructor.
    + by apply (Hold b).
    + intros ev' [->|Hin]%elem_of_cons Hst'; [done|by apply Hnew].
Qed.

Lemma write_loop_spec fs evs : filters_ok fs → ∀ es prevId d m b,
  store_inv fs d m → Forall2 pending_for es evs →
  is_top m b → (b + N.of_nat (length evs) ≤ MAX_U64)%N →
  ∃ d' evs' m', write_loop fs prevId (d, []) evs = Ok (d', evs') ∧
    write_specs prevId m (zip es evs') m' ∧ store_inv fs d' m' ∧ same_rest d d' ∧
    Forall2 same_input evs evs' ∧ batch_result d d' m m' b evs'.
Proof.
  intros Hfs. induction evs as [|ev evs IH]; intros es prevId d m b Hd Hes Hb Hroom.
  { apply Forall2_nil_inv_r in Hes as ->. exists d, [], m.
    split_and!; [done|by constructor|done|done|done|by apply batch_result_nil]. }
  apply Forall2_cons_inv_r in Hes as (e & es' & Hpend & Hes & ->). simpl in Hroom.
  assert (room m) as Hr. { intros l Hl. apply Hb in Hl. lia. }
  destruct (write_one_spec fs prevId d m e ev Hfs Hd Hpend Hr)
    as (d1 & ev' & m1 & Hone & Hw & Hd1 & Hrest1 & Hin1 & Hpay & Hbound).
  assert (∃ b1, is_top m1 b1 ∧ (b1 ≤ N.succ b)%N) as (b1 & Hb1 & Hle).
  { destruct (write_spec_top _ _ _ _ _ _ _ Hb Hw) as [(_ & _ & Ht)|(_ & _ & ->)].
    - exists (levId ev'). split; [done|]. destruct Ht as [_ [->|Hs]]; [lia|].
      eapply Hbound; [|done]. apply Hb.
    - exists b. split; [done|lia]. }
  destruct (IH es' (Some (ev_id e)) d1 m1 b1 Hd1 Hes Hb1 ltac:(lia))
    as (d' & evs' & m' & Hloop & Hws & Hd' & Hrest & Hin & Hbr).
  exists d', (ev' :: evs'), m'. simpl. rewrite Hone. simpl.
  destruct Hin1 as (Hpk & Hjs & Hud). destruct Hpend as (Hpe & _ & Hok).
  unfold etw_id. rewrite Hpk, Hpe, view_encode by apply Hok. simpl.
  rewrite id_encode by apply Hok. rewrite Hloop. simpl.
  split_and!; [done|by econstructor|done|by eapply same_rest_trans|by constructor|].
  eapply batch_result_cons; [done|done|done|]. intros b2 Hb2 _.
  assert (b2 = b1) as ->; [|done].
  destruct Hb1 as [H1' H1s], Hb2 as [H2' H2s].
  destruct H1s as [->|H1s], H2s as [->|H2s]; try done.
  - specialize (H1' _ H2s). lia.
  - specialize (H2' _ H1s). lia.
  - specialize (H1' _ H2s). specialize (H2' _ H1s). lia.
Qed.
End store.
