(* ===== verification/StoreTheorems.v ===== *)
(** The theorems on [writeEvents] and [deleteEvents], with the database taken
    from the in-memory engine for the concrete instances. *)

From S2P Require Import Prelude Bytes Json Hex PackedEvent FilterSets Filters EventParse.
From S2P Require Import Db MemDb NegentropyCache EventWriter EventStore.

Section setup.
Context `{!Hex, !NativeU64, !GolpeKeys, !Env, !JsonParser}.
Implicit Types (d : env) (m : gmap N event) (e o : event).

(** The [NegentropyFilter] table holds rows that parse to [fs]. *)
Record db_filters (d : env) (fs : list (NostrFilter * N)) : Prop := {
  df_meta : is_Some (Meta_counter (tables d));
  df_keys : NoDup (NegentropyFilter (tables d)).*1;
  df_rows : mapR read_filter (NegentropyFilter (tables d)) = Ok fs;
}.

Lemma freshenCache_spec c d fs :
  db_filters d fs → cache_coherent c d →
  filters_ok fs ∧ ∃ c', freshenCache c d = Ok c' ∧ cache_filters c' = fs ∧
    ∀ d', same_rest d d' → cache_coherent c' d'.
Proof.
  intros [[n Hn] Hkeys Hrows] Hc. split; [by eapply read_filters_ok|].
  unfold freshenCache, cache_coherent in *. rewrite Hn in *.
  destruct (N.eqb_spec n (modificationCounter c)) as [->|Hne].
  - rewrite Hrows in Hc. specialize (Hc eq_refl). injection Hc as Hfs.
    exists c. split_and!; [done|done|]. intros d' (_ & -> & _) _. by rewrite Hrows, Hfs.
  - rewrite Hrows. simpl. eexists. split_and!; [done|done|].
    intros d' (_ & -> & _) _. done.
Qed.

Lemma Permutation_Forall2 {A B} (P : A → B → Prop) k l l' :
  l' ≡ₚ l → Forall2 P k l → ∃ k', k' ≡ₚ k ∧ Forall2 P k' l'.
Proof.
  intros Hp. revert k. induction Hp as [|x l l' Hp IH|x y l|l1 l2 l3 Hp1 IH1 Hp2 IH2];
    intros k Hk.
  - by exists k.
  - apply Forall2_cons_inv_r in Hk as (a & k0 & Ha & Hk & ->).
    destruct (IH _ Hk) as (k' & Hk' & Hf). exists (a :: k'). split; [by constructor|by constructor].
  - apply Forall2_cons_inv_r in Hk as (a & k0 & Ha & Hk & ->).
    apply Forall2_cons_inv_r in Hk as (b & k1 & Hb & Hk & ->).
    exists (b :: a :: k1). split; [by constructor|by repeat constructor].
  - destruct (IH2 _ Hk) as (k2 & Hk2 & Hf2). destruct (IH1 _ Hf2) as (k1 & Hk1 & Hf1).
    exists k1. split; [by etrans|done].
Qed.

(** The order of the batch, on the events. *)
Definition event_before (e o : event) : bool :=
  if (ev_created_at e =? ev_created_at o)%N then bytes_ltb (ev_id e) (ev_id o)
  else (ev_created_at e <? ev_created_at o)%N.

Definition in_order (es : list event) : Prop :=
  StronglySorted (λ a b, event_before b a = false) es.

Lemma before_events e1 ev1 e2 ev2 :
  pending_for e1 ev1 → pending_for e2 ev2 → before ev1 ev2 = event_before e1 e2.
Proof.
  intros (Hp1 & _ & Ho1) (Hp2 & _ & Ho2). unfold before, event_before.
  rewrite Hp1, Hp2. destruct Ho1 as [Hw1 _], Ho2 as [Hw2 _].
  by rewrite !created_at_encode, !id_encode.
Qed.

Lemma sorted_in_order es evs :
  Forall2 pending_for es evs → StronglySorted (λ a b, before b a = false) evs → in_order es.
Proof.
  intros Hf. induction Hf as [|e ev es evs He Hf IH]; intros Hso; [constructor|].
  inversion_clear Hso as [|? ? Hso' Hall]. constructor; [by apply IH|].
  clear IH Hso'. induction Hf as [|e' ev' es evs He' Hf IH]; [constructor|].
  inversion_clear Hall as [|? ? Hb Hrest]. constructor; [|by apply IH].
  by rewrite <-(before_events e' ev' e ev).
Qed.

(** ** The newest event of an address *)

(** Stored events are at least as recent as every event of [done] at the same
    address. *)
Definition covers (done : list event) (m : gmap N event) : Prop :=
  ∀ e l o, e ∈ done → addressable e → m !! l = Some o → same_address e o →
    (ev_created_at e ≤ ev_created_at o)%N.

Definition settled (ev : EventToWrite) : Prop :=
  status ev = Written ∨ status ev = Replaced.

Lemma not_newer_le e o : ¬ newer e o → (ev_created_at e ≤ ev_created_at o)%N.
Proof. intros Hn. apply N.nlt_ge. intros Hlt. apply Hn. by left. Qed.

Lemma covers_written prevId done m e n m' :
  covers done m → (∀ a, a ∈ done → (ev_created_at a ≤ ev_created_at e)%N) →
  write_spec prevId m e Written n m' → covers (done ++ [e]) m'.
Proof.
  intros Hc Hle Hw. inversion Hw as [| | |n' m'' Hid Hprev Hdel Hnew Hn0 Hfresh Hm']; subst.
  intros a l o Hin Ha Ho Hs. apply Hm' in Ho as [[-> ->]|(Ho & Hna & _)].
  - apply elem_of_app in Hin as [Hin| ->%list_elem_of_singleton]; [by apply Hle|lia].
  - apply elem_of_app in Hin as [Hin| ->%list_elem_of_singleton]; [by eapply Hc|].
    by destruct Hna.
Qed.

Lemma covers_replaced prevId done m e n m' :
  store_ok m → covers done m → write_spec prevId m e Replaced n m' → covers (done ++ [e]) m'.
Proof.
  intros Hok Hc Hw. inversion Hw as [| |n' l o Hid Hprev Hdel Ha Ho Hs Hnn|]; subst.
  intros a l' o' [Hin| ->%list_elem_of_singleton]%elem_of_app Ha' Ho' Hs'; [by eapply Hc|].
  assert (l' = l) as ->; [|simplify_eq; by apply not_newer_le].
  eapply (so_replace m' Hok l' l o' o); [done|done| |].
  - eapply same_address_addressable, Ha. by apply same_address_sym.
  - destruct Hs' as (? & ? & x & ? & ?), Hs as (? & ? & y & ? & ?).
    split_and!; [congruence..|]. exists x. split; congruence.
Qed.

Lemma event_before_le e o : event_before o e = false → (ev_created_at e ≤ ev_created_at o)%N.
Proof.
  unfold event_before. destruct (N.eqb_spec (ev_created_at o) (ev_created_at e)); [lia|].
  intros Hlt%N.ltb_ge. done.
Qed.

(** The batch's events that were written or found replaced. *)
Definition settled_events (l : list (event * EventToWrite)) : list event :=
  omap (λ p, if decide (status p.2 = Written ∨ status p.2 = Replaced)
             then Some p.1 else None) l.

Lemma write_specs_covers prevId m l m' : write_specs prevId m l m' → ∀ done,
  store_ok m → covers done m → in_order l.*1 →
  (∀ a e, a ∈ done → e ∈ l.*1 → (ev_created_at a ≤ ev_created_at e)%N) →
  store_ok m' ∧ covers (done ++ settled_events l) m'.
Proof.
  induction 1 as [prevId m|prevId m m1 m2 e ev l Hw Hws IH]; intros done Hok Hc Hso Hle.
  { by rewrite app_nil_r. }
  csimpl in *. inversion_clear Hso as [|? ? Hso' Hall].
  assert (store_ok m1) as Hok1 by by eapply write_spec_ok.
  assert (∀ e', e' ∈ l.*1 → (ev_created_at e ≤ ev_created_at e')%N) as Hhead.
  { intros e' He'. apply event_before_le. rewrite List.Forall_forall in Hall.
    by apply Hall, list_elem_of_In. }
  assert (∀ a, a ∈ done → (ev_created_at a ≤ ev_created_at e)%N) as Hdone.
  { intros a Ha. apply Hle; set_solver. }
  destruct (decide (status ev = Written ∨ status ev = Replaced)) as [Hst|Hst].
  - assert (covers (done ++ [e]) m1) as Hc1.
    { destruct Hst as [Hst|Hst]; rewrite Hst in Hw;
        [exact (covers_written _ _ _ _ _ _ Hc Hdone Hw)
        |exact (covers_replaced _ _ _ _ _ _ Hok Hc Hw)]. }
    destruct (IH (done ++ [e]) Hok1 Hc1 Hso') as [Hok2 Hc2].
    { intros a e' [Ha| ->%list_elem_of_singleton]%elem_of_app He'; [|by apply Hhead].
      apply Hle; [done|set_solver]. }
    rewrite <-app_assoc in Hc2. done.
  - assert (m1 = m) as -> by (inversion Hw; subst; [done|done|done|naive_solver]).
    apply IH; [done|done|done|]. intros a e' Ha He'. apply Hle; [done|set_solver].
Qed.
(** ** The top levId *)

Lemma getMostRecentLevId_top d m : repr d m → is_top m (getMostRecentLevId d).
Proof.
  intros [Hd _].
  assert (∀ l, is_Some (Event (tables d) !! l) ↔ is_Some (m !! l)) as Hdom.
  { intros l. by rewrite Hd, lookup_fmap, fmap_is_Some. }
  destruct (getMostRecentLevId_spec d) as [[-> Hempty]|[Hs Hmax]].
  - split; [|by left]. intros l Hl%Hdom. rewrite Hempty, lookup_empty in Hl. by destruct Hl.
  - split; [|right; by apply Hdom]. intros l Hl%Hdom. by apply Hmax.
Qed.

Lemma is_top_inj m b1 b2 : is_top m b1 → is_top m b2 → b1 = b2.
Proof.
  intros [Hb1 [->|Hs1]] [Hb2 [->|Hs2]]; try done.
  - specialize (Hb1 _ Hs2). lia.
  - specialize (Hb2 _ Hs1). lia.
  - specialize (Hb1 _ Hs2). specialize (Hb2 _ Hs1). lia.
Qed.

(** ** Deleting a list of levIds *)

Lemma store_ok_drop ls m : store_ok m → store_ok (drop_all ls m).
Proof.
  intros Hok. constructor;
    intros l1 l2 e1 e2 [Hl1 _]%drop_all_lookup [Hl2 _]%drop_all_lookup.
  - by eapply so_replace.
  - by eapply so_deletions.
Qed.

Lemma drop_all_size ls m : base.size (drop_all ls m) ≤ base.size m.
Proof. apply map_subseteq_size, map_filter_subseteq. Qed.

Lemma delete_counted_spec fs d m n l :
  filters_ok fs → store_sync fs d m →
  ∃ d', delete_counted fs (d, n) l =
      Ok (d', (n + N.of_nat (base.size m - base.size (delete l m)))%N) ∧
    store_sync fs d' (delete l m) ∧ same_rest d d' ∧
    ∀ l', l' ≠ l → EventPayload (tables d') !! l' = EventPayload (tables d) !! l'.
Proof.
  intros Hfs Hd. unfold delete_counted.
  rewrite (lookup_Event_repr d m l) by apply Hd. destruct (m !! l) as [e|] eqn:Hl; simpl.
  - rewrite view_encode by (eapply repr_wf; [apply Hd|done]). simpl.
    destruct (delete_stored fs d m l e Hfs Hd Hl) as (d1 & -> & Hfound & Hd2 & Hrest & Hpay).
    simpl. destruct (deleteEventBasic d1 l) as [d2 found]. simpl in *. subst found.
    exists d2. split_and!; [|done|done|by intros l' Hne; rewrite Hpay, lookup_delete_ne].
    do 2 f_equal.
    rewrite map_size_delete_Some by (by eexists).
    assert (base.size m ≠ 0); [|lia].
    intros Hz%map_size_empty_inv. by rewrite Hz, lookup_empty in Hl.
  - exists d. rewrite delete_id by done. split_and!; [|done|done|done]. do 2 f_equal. lia.
Qed.

Lemma delete_counted_fold fs ls d m n :
  filters_ok fs → store_sync fs d m →
  ∃ d', foldM (delete_counted fs) (d, n) ls =
      Ok (d', (n + N.of_nat (base.size m - base.size (drop_all ls m)))%N) ∧
    store_sync fs d' (drop_all ls m) ∧ same_rest d d' ∧
    ∀ l, l ∉ ls → EventPayload (tables d') !! l = EventPayload (tables d) !! l.
Proof.
  intros Hfs. revert d m n. induction ls as [|l ls IH]; intros d m n Hd; simpl.
  { exists d. rewrite drop_all_nil. split_and!; [|done|done|done]. do 2 f_equal. lia. }
  rewrite drop_all_cons.
  destruct (delete_counted_spec fs d m n l Hfs Hd) as (d1 & -> & Hd1 & Hrest & Hpay). simpl.
  edestruct IH as (d' & Hd' & Hs & Hrest' & Hpay'); [exact Hd1|].
  exists d'. split_and!; [|done|by eapply same_rest_trans|
    by intros l' [? ?]%not_elem_of_cons; rewrite Hpay', Hpay]. rewrite Hd'. do 2 f_equal.
  pose proof (drop_all_size ls (delete l m)).
  pose proof (drop_all_size [l] m) as Hsz. rewrite drop_all_cons, drop_all_nil in Hsz. lia.
Qed.
End setup.

(** ** Properties of a batch *)

Section batch.
Context `{!Hex, !NativeU64, !GolpeKeys, !Env, !JsonParser}.
Context (c : NegentropyFilterCache) (d : env) (m : gmap N event).
Context (fs : list (NostrFilter * N)) (es : list event) (evs evs' : list EventToWrite).

(** What [writeEvents] is given: a database in good order, a cache that is
    stale only when the counter says so, pending events, the sorted vector, and
    levIds left to use. *)
Record batch_ok : Prop := {
  bo_filters : db_filters d fs;
  bo_cache : cache_coherent c d;
  bo_inv : store_inv fs d m;
  bo_events : Forall2 pending_for es evs;
  bo_sorted : std_sorts evs evs';
  bo_room : (getMostRecentLevId d + N.of_nat (length evs) ≤ MAX_U64)%N;
}.

Lemma batch_outcome : batch_ok →
  ∃ c' d' out es' m', writeEvents c d evs' = Ok (c', d', out) ∧
    es' ≡ₚ es ∧ in_order es' ∧ Forall2 same_input evs' out ∧
    write_specs None m (zip es' out) m' ∧ store_inv fs d' m' ∧
    batch_result d d' m m' (getMostRecentLevId d) out ∧
    db_filters d' fs ∧ cache_coherent c' d' ∧ length es' = length out ∧ same_rest d d' ∧
    Forall2 pending_for es' evs'.
Proof.
  intros [Hf Hc Hinv Hes [Hperm Hsort] Hroom].
  destruct (freshenCache_spec c d fs Hf Hc) as (Hfs & c' & Hfresh & Hc' & Hcoh).
  destruct (Permutation_Forall2 _ _ _ _ Hperm Hes) as (es' & Hes' & Hpend).
  pose proof (getMostRecentLevId_top d m (ss_repr _ _ _ (proj1 Hinv))) as Htop.
  destruct (write_loop_spec fs evs' Hfs es' None d m _ Hinv Hpend Htop)
    as (d' & out & m' & Hloop & Hws & Hinv' & Hrest & Hin & Hbr).
  { by rewrite Hperm. }
  exists c', d', out, es', m'. unfold writeEvents. rewrite Hfresh. simpl.
  rewrite Hc', Hloop. simpl.
  split_and!; [done|done|by eapply sorted_in_order|done|done|done|done| |by apply Hcoh| |done|done].
  - destruct Hrest as (Hm & Hn & _). destruct Hf. constructor; [by rewrite Hm|by rewrite Hn..].
  - rewrite (Forall2_length _ _ _ Hpend). by apply Forall2_length in Hin.
Qed.
Lemma batch_run c' d' out : batch_ok → writeEvents c d evs' = Ok (c', d', out) →
  ∃ es' m', es' ≡ₚ es ∧ in_order es' ∧ write_specs None m (zip es' out) m' ∧
    store_inv fs d' m' ∧ batch_result d d' m m' (getMostRecentLevId d) out ∧
    db_filters d' fs ∧ cache_coherent c' d' ∧ length es' = length out ∧ same_rest d d'.
Proof.
  intros Hok Hrun.
  destruct batch_outcome as (c1 & d1 & out1 & es' & m' & Hw & ? & ? & _ & ? & ? & ? & ? & ? & ? & ? & _); [done|].
  rewrite Hrun in Hw. injection Hw as -> -> ->. by exists es', m'.
Qed.

(** C1: on a database in good order, writing a batch never throws (in
    particular no deletion is left unprocessed), gives every event a final
    status and leaves the caller's data alone; statuses, levIds and the new
    contents are those of the abstract specification run over the batch in the
    order [std::sort] chose: duplicate, deleted, replaced or written, with
    the replaced event and the targets of a deletion event removed. *)
Theorem writeEvents_refines : batch_ok →
  ∃ c' d' out es' m', writeEvents c d evs' = Ok (c', d', out) ∧
    es' ≡ₚ es ∧ Forall2 same_input evs' out ∧
    Forall (λ ev, status ev ≠ Pending) out ∧
    write_specs None m (zip es' out) m' ∧ repr d' m'.
Proof.
  intros Hok.
  destruct batch_outcome as (c' & d' & out & es' & m' & Hw & Hp & _ & Hin & Hws & Hinv & Hbr & _);
    [done|].
  exists c', d', out, es', m'. split_and!; try done; [apply Hbr|apply (proj1 Hinv)].
Qed.

(** C2: writing a batch keeps the database in good order: ids stay unique, a
    replaceable address keeps at most one event, no stored deletion event names
    another stored event of its author, every event has a payload and every
    payload an event, the negentropy tree of each filter holds exactly the
    stored events the filter matches, and the filter cache stays coherent. *)
Theorem writeEvents_invariant c' d' out :
  batch_ok → writeEvents c d evs' = Ok (c', d', out) →
  ∃ m', store_inv fs d' m' ∧ db_filters d' fs ∧ cache_coherent c' d'.
Proof.
  intros Hok Hrun.
  destruct (batch_run c' d' out Hok Hrun) as (es' & m' & _ & _ & _ & Hinv & _ & Hf & Hc & _).
  by exists m'.
Qed.

(** LevIds are never reused: the levIds a batch assigns are larger than
    every levId in the database and strictly increase along the batch, and the
    most recent levId afterwards is the last one assigned, although events were
    deleted in between. *)
Theorem levIds_never_reused c' d' out :
  batch_ok → writeEvents c d evs' = Ok (c', d', out) →
  StronglySorted N.lt (getMostRecentLevId d :: written_levIds out) ∧
  getMostRecentLevId d' = List.last (written_levIds out) (getMostRecentLevId d).
Proof.
  intros Hok Hrun.
  destruct (batch_run c' d' out Hok Hrun) as (es' & m' & _ & _ & _ & Hinv & Hbr & _).
  split; [apply Hbr|].
  eapply is_top_inj; [|apply Hbr]. apply getMostRecentLevId_top, (proj1 Hinv).
Qed.

(** The newest event of a replaceable address wins: after a batch, an
    event stored at the address of any event the batch wrote or refused as
    replaced is at least as recent as that event. *)
Theorem newest_wins c' d' out :
  batch_ok → writeEvents c d evs' = Ok (c', d', out) →
  ∃ es' m', es' ≡ₚ es ∧ length es' = length out ∧ repr d' m' ∧
    ∀ e l o, e ∈ settled_events (zip es' out) → addressable e →
      m' !! l = Some o → same_address e o → (ev_created_at e ≤ ev_created_at o)%N.
Proof.
  intros Hok Hrun.
  destruct (batch_run c' d' out Hok Hrun)
    as (es' & m' & Hp & Hso & Hws & Hinv & _ & _ & _ & Hlen & _).
  exists es', m'. split_and!; [done|done|apply (proj1 Hinv)|].
  destruct (write_specs_covers None m (zip es' out) m' Hws []) as [_ Hcov].
  - apply Hok.
  - intros e l o []%not_elem_of_nil.
  - by rewrite fst_zip by lia.
  - intros a e []%not_elem_of_nil.
  - intros e l o He. by apply Hcov.
Qed.
End batch.

Section deletion.
Context `{!Hex, !NativeU64, !GolpeKeys, !Env, !JsonParser}.

Lemma db_filters_rest d d' fs : same_rest d d' → db_filters d fs → db_filters d' fs.
Proof. intros (Hm & Hn & _) []. constructor; [by rewrite Hm|by rewrite Hn..]. Qed.

Lemma deleteEvents_spec (c : NegentropyFilterCache) (d : env) m fs (levIds : list N) :
  db_filters d fs → cache_coherent c d → store_inv fs d m →
  ∃ c' d', deleteEvents c d levIds =
      Ok (c', d', N.of_nat (base.size m - base.size (drop_all levIds m))) ∧
    store_inv fs d' (drop_all levIds m) ∧ cache_coherent c' d' ∧ db_filters d' fs ∧
    same_rest d d' ∧
    ∀ l, l ∉ levIds → EventPayload (tables d') !! l = EventPayload (tables d) !! l.
Proof.
  intros Hf Hc [Hs Hok].
  destruct (freshenCache_spec c d fs Hf Hc) as (Hfs & c' & Hfresh & Hc' & Hcoh).
  destruct (delete_counted_fold fs levIds d m 0 Hfs Hs) as (d' & Hd' & Hs' & Hrest & Hpay).
  exists c', d'. unfold deleteEvents. rewrite Hfresh. simpl. rewrite Hc', Hd'. simpl.
  split_and!; [done|split; [done|by apply store_ok_drop]|by apply Hcoh|
    by eapply db_filters_rest|done|done].
Qed.

(** Deleting a list of levIds removes exactly the stored events it lists
    (absent and repeated levIds are skipped), returns how many were removed,
    and keeps every part of the invariant, the negentropy trees included. *)
Theorem deleteEvents_correct (c : NegentropyFilterCache) (d : env) m fs (levIds : list N) :
  db_filters d fs → cache_coherent c d → store_inv fs d m →
  ∃ c' d', deleteEvents c d levIds =
      Ok (c', d', N.of_nat (base.size m - base.size (drop_all levIds m))) ∧
    store_inv fs d' (drop_all levIds m) ∧ cache_coherent c' d'.
Proof.
  intros Hf Hc Hinv. destruct (deleteEvents_spec c d m fs levIds Hf Hc Hinv)
    as (c' & d' & ? & ? & ? & _). by exists c', d'.
Qed.
End deletion.

(** ** A concrete database and batch *)

#[refine, local] Instance toy_json : JsonParser := {|
  json_from_string s := if decide (s = #"{}") then Ok (JObject []) else Throw json_error;
|}.
Proof.
  - intros s kvs. case_decide; [intros [= <-]; constructor|done].
  - intros s e. case_decide; [done|by intros [= <-]].
  - intros s v. case_decide; [by intros [= <-]|done].
Defined.

Abbreviation mem :=
  (@env native_le (@mem_keys native_le) (@mem_env native_le (@mem_keys native_le))).

(** One stored filter, matching everything, and a stale cache. *)
Definition sample_db : mem := mk_tables ∅ ∅ ∅ (Some (mk_meta 3 1 1)) [(7%N, #"{}")] ∅.
Definition sample_cache : NegentropyFilterCache := mk_cache [] 0.
Definition sample_fs : list (NostrFilter * N) :=
  match mapR read_filter (NegentropyFilter (tables sample_db)) with Ok fs => fs | Throw _ => [] end.

Definition mk_sample (i : ascii) (created kind : N) (ts : list tag) : event :=
  mk_event (replicate 32 i) (replicate 32 "k"%char) created kind 0 ts.

(** A note, its deletion, an application record and its update. *)
Definition sample_events : list event :=
  [mk_sample "n" 100 1 [];
   mk_sample "q" 110 30078 [("d"%char, #"quote-1"); ("d"%char, [])];
   mk_sample "q" 110 30078 [("d"%char, #"quote-1"); ("d"%char, [])];
   mk_sample "x" 120 5 [("e"%char, replicate 32 "n"%char)];
   mk_sample "r" 130 30078 [("d"%char, #"quote-1"); ("d"%char, [])]].

Definition sample_batch : list EventToWrite :=
  (λ e, EventToWrite_make (encode e) (ev_id e) 0) <$> sample_events.

Lemma empty_store_inv fs : store_inv fs sample_db ∅.
Proof.
  split; [|by constructor; intros l1 l2 e1 e2; rewrite lookup_empty].
  constructor.
  - split; [by rewrite fmap_empty|by apply map_Forall_empty].
  - intros l1 l2 e1 e2. by rewrite lookup_empty.
  - intros l. simpl. by rewrite !lookup_empty.
  - intros f t _ p. unfold tree_of. simpl. rewrite lookup_empty. simpl. split; [set_solver|].
    intros (l & e & He & _). by rewrite lookup_empty in He.
Qed.

Lemma sample_event_ok e : e ∈ sample_events → event_ok e.
Proof.
  intros He. repeat apply elem_of_cons in He as [->|He]; [..|by apply not_elem_of_nil in He];
    (split;
      [constructor; try done; by repeat (constructor; [unfold wf_tag; simpl; lia|])
      |intros v Hv; simpl in Hv; set_solver]).
Qed.

Lemma sample_db_filters : db_filters sample_db sample_fs.
Proof.
  constructor; [by eexists|simpl; apply NoDup_singleton|vm_compute; reflexivity].
Qed.

Lemma sample_batch_ok :
  batch_ok sample_cache sample_db ∅ sample_fs sample_events sample_batch sample_batch.
Proof.
  constructor.
  - apply sample_db_filters.
  - intros [=].
  - apply empty_store_inv.
  - apply Forall2_fmap_r, Forall_Forall2_diag, Forall_forall. intros e He.
    split_and!; [done|done|by apply sample_event_ok].
  - split; [done|]. unfold sample_batch. repeat constructor.
  - by vm_compute.
Qed.

(** The statuses and levIds of the sample run. *)
Definition run_statuses (evs : list EventToWrite) : list (EventWriteStatus * N) :=
  match writeEvents sample_cache sample_db evs with
  | Ok (_, _, out) => (λ ev, (status ev, levId ev)) <$> out
  | Throw _ => []
  end.

Lemma sample_run : run_statuses sample_batch =
  [(Written, 1%N); (Written, 2%N); (Duplicate, 0%N); (Written, 3%N); (Written, 4%N)].
Proof. vm_compute. reflexivity. Qed.

Definition sample_result : NegentropyFilterCache * mem * list EventToWrite :=
  match writeEvents sample_cache sample_db sample_batch with
  | Ok r => r
  | Throw _ => (sample_cache, sample_db, [])
  end.

Lemma sample_result_eq : writeEvents sample_cache sample_db sample_batch =
  Ok (sample_result.1.1, sample_result.1.2, sample_result.2).
Proof.
  assert (is_ok (writeEvents sample_cache sample_db sample_batch) = true) as Hok
    by (vm_compute; reflexivity).
  unfold sample_result. by destruct (writeEvents _ _ _) as [[[c' d'] out]|].
Qed.

(** The note and the superseded record are gone. *)
Lemma sample_stored :
  (λ p, p.1) <$> map_to_list (Event (tables sample_result.1.2)) = [4%N; 3%N] ∨
  (λ p, p.1) <$> map_to_list (Event (tables sample_result.1.2)) = [3%N; 4%N].
Proof. vm_compute. auto. Qed.

Lemma writeEvents_refines_witness :
  ∃ c' d' out es' m', writeEvents sample_cache sample_db sample_batch = Ok (c', d', out) ∧
    es' ≡ₚ sample_events ∧ Forall2 same_input sample_batch out ∧
    Forall (λ ev, status ev ≠ Pending) out ∧
    write_specs None ∅ (zip es' out) m' ∧ repr d' m'.
Proof.
  exact (writeEvents_refines sample_cache sample_db ∅ sample_fs sample_events sample_batch
           sample_batch sample_batch_ok).
Defined.

Lemma writeEvents_invariant_witness :
  ∃ m', store_inv sample_fs sample_result.1.2 m' ∧ db_filters sample_result.1.2 sample_fs ∧
    cache_coherent sample_result.1.1 sample_result.1.2.
Proof.
  exact (writeEvents_invariant sample_cache sample_db ∅ sample_fs sample_events sample_batch
           sample_batch _ _ _ sample_batch_ok sample_result_eq).
Defined.

Lemma levIds_never_reused_witness :
  StronglySorted N.lt (getMostRecentLevId sample_db :: written_levIds sample_result.2) ∧
  getMostRecentLevId sample_result.1.2 =
    List.last (written_levIds sample_result.2) (getMostRecentLevId sample_db).
Proof.
  exact (levIds_never_reused sample_cache sample_db ∅ sample_fs sample_events sample_batch
           sample_batch _ _ _ sample_batch_ok sample_result_eq).
Defined.

Lemma newest_wins_witness :
  ∃ es' m', es' ≡ₚ sample_events ∧ length es' = length sample_result.2 ∧
    repr sample_result.1.2 m' ∧
    ∀ e l o, e ∈ settled_events (zip es' sample_result.2) → addressable e →
      m' !! l = Some o → same_address e o → (ev_created_at e ≤ ev_created_at o)%N.
Proof.
  exact (newest_wins sample_cache sample_db ∅ sample_fs sample_events sample_batch
           sample_batch _ _ _ sample_batch_ok sample_result_eq).
Defined.

(** Deleting from the database that holds the sample note at levId 3. *)
Definition sample_note : event := mk_sample "n" 100 1 [].

Definition sample_stored_db : mem :=
  mk_tables {[3%N := encode sample_note]} {[3%N := "000"%char :: #"{}"]}
    {[7%N := {[(100%N, ev_id sample_note)]}]} (Some (mk_meta 3 1 1)) [(7%N, #"{}")] ∅.

Lemma sample_stored_inv : store_inv sample_fs sample_stored_db {[3%N := sample_note]}.
Proof.
  split; [|by constructor; intros l1 l2 e1 e2 [<- _]%lookup_singleton_Some
            [<- _]%lookup_singleton_Some].
  constructor.
  - split; [by rewrite map_fmap_singleton|]. apply map_Forall_singleton.
    split; [done|]. apply sample_event_ok. set_solver.
  - by intros l1 l2 e1 e2 [<- _]%lookup_singleton_Some [<- _]%lookup_singleton_Some.
  - intros l. simpl. by rewrite !lookup_singleton_is_Some.
  - intros f t Hin p. apply list_elem_of_singleton in Hin as [= -> ->]. simpl.
    unfold tree_of. simpl. rewrite lookup_singleton_eq. simpl. rewrite elem_of_singleton. split.
    + intros ->. exists 3%N, sample_note. split_and!; [apply lookup_singleton_eq|done|].
      constructor; try done; simpl; lia.
    + by intros (l & e & [<- <-]%lookup_singleton_Some & <- & _).
Qed.

Lemma deleteEvents_correct_witness :
  ∃ c' d', deleteEvents sample_cache sample_stored_db [5%N; 3%N; 3%N] = Ok (c', d', 1%N) ∧
    store_inv sample_fs d' (drop_all [5%N; 3%N; 3%N] {[3%N := sample_note]}) ∧
    cache_coherent c' d'.
Proof.
  replace 1%N with (N.of_nat (base.size ({[3%N := sample_note]} : gmap N event) -
    base.size (drop_all [5%N; 3%N; 3%N] {[3%N := sample_note]}))) by (vm_compute; reflexivity).
  apply (deleteEvents_correct sample_cache sample_stored_db {[3%N := sample_note]} sample_fs).
  - constructor; [by eexists|simpl; apply NoDup_singleton|vm_compute; reflexivity].
  - intros [=].
  - apply sample_stored_inv.
Defined.
