(* ===== verification/Payload.v ===== *)
(** Event payloads ([decodeEventPayload], [getEventJson], [Decompressor.h]).

    A payload is a type octet followed by the JSON text, or by a dictionary id
    and a zstd frame.  Dictionaries are cached twice, in the thread's
    [Decompressor] and in the process-wide [DictionaryBroker]; both caches are
    state here.  The views returned by the code point into buffers that the
    next call overwrites; the model returns their contents. *)

From S2P Require Import Prelude Bytes Json Hex PackedEvent FilterSets Filters Config EventParse.
From S2P Require Import Db MemDb NegentropyCache EventWriter EventStore StoreTheorems.

(** zstd, with the capacity of the output buffer, and the native [uint32_t]. *)
Class Zstd := {
  ZSTD_DDict : Type;
  ZSTD_createDDict : bytes → ZSTD_DDict;
  ZSTD_decompress_usingDDict : N → bytes → ZSTD_DDict → option bytes;
  from_sv32 : bytes → N;
}.

Section payload.
Context `{!Hex, !NativeU64, !GolpeKeys, !Env, !Zstd} (cfg : Config).

(** [Decompressor::dicts] and [DictionaryBroker::dicts]. *)
Record DictCaches := mk_caches {
  local_dicts : gmap N ZSTD_DDict;
  global_dicts : gmap N ZSTD_DDict;
}.

(** [DictionaryBroker::getDict] *)
Definition getDict (c : DictCaches) (d : env) (dictId : N)
    : result (DictCaches * ZSTD_DDict) :=
  match global_dicts c !! dictId with
  | Some dict => Ok (c, dict)
  | None =>
      match CompressionDictionary (tables d) !! dictId with
      | None => Throw (herr (#"couldn't find dictId " ++ show_nat (N.to_nat dictId)))
      | Some dictBuffer =>
          let dict := ZSTD_createDDict dictBuffer in
          Ok (mk_caches (local_dicts c) (<[dictId := dict]> (global_dicts c)), dict)
      end
  end.

(** [Decompressor::decompress] with a buffer of [n] octets. *)
Definition decompress (c : DictCaches) (d : env) (n : N) (dictId : N) (src : bytes)
    : result (DictCaches * bytes) :=
  '(c, dict) ← (match local_dicts c !! dictId with
                | Some dict => Ok (c, dict)
                | None =>
                    '(c, dict) ← getDict c d dictId;
                    Ok (mk_caches (<[dictId := dict]> (local_dicts c)) (global_dicts c), dict)
                end);
  match ZSTD_decompress_usingDDict n src dict with
  | None => Throw (herr #"zstd decompression failed: ")
  | Some ret => Ok (c, ret)
  end.

(** The result is the JSON, [*outDictId] and [*outCompressedSize] (written for
    compressed records only). *)
Definition decodeEventPayload (c : DictCaches) (d : env) (raw : bytes)
    : result (DictCaches * (bytes * N * option nat)) :=
  match raw with
  | [] => Throw (herr #"empty event in EventPayload")
  | t :: raw =>
      if char_eqb t "000" then Ok (c, (raw, 0%N, None))
      else if char_eqb t "001" then
        _ ← throw_if (length raw <? 4) (herr #"EventPayload record too short to read dictId");
        let dictId := from_sv32 (take 4 raw) in
        let raw := drop 4 raw in
        '(c, buf) ← decompress c d (events__maxEventSize cfg) dictId raw;
        Ok (c, (buf, dictId, Some (length raw)))
      else Throw (herr #"Unexpected first byte in EventPayload")
  end.

Definition getEventJson (c : DictCaches) (d : env) (levId : N)
    : result (DictCaches * bytes) :=
  match EventPayload (tables d) !! levId with
  | None => Throw (herr #"couldn't find event in EventPayload")
  | Some eventPayload =>
      '(c, (json, _, _)) ← decodeEventPayload c d eventPayload;
      Ok (c, json)
  end.

(** ** Cache-free reading *)

(** What a payload stands for, read from the tables alone. *)
Definition payload_text (d : env) (raw : bytes) : result bytes :=
  match raw with
  | [] => Throw (herr #"empty event in EventPayload")
  | "000"%char :: json => Ok json
  | "001"%char :: raw =>
      if decide (length raw < 4)
      then Throw (herr #"EventPayload record too short to read dictId")
      else
        let dictId := from_sv32 (take 4 raw) in
        match CompressionDictionary (tables d) !! dictId with
        | None => Throw (herr (#"couldn't find dictId " ++ show_nat (N.to_nat dictId)))
        | Some b =>
            match ZSTD_decompress_usingDDict (events__maxEventSize cfg) (drop 4 raw)
                    (ZSTD_createDDict b) with
            | None => Throw (herr #"zstd decompression failed: ")
            | Some json => Ok json
            end
        end
  | _ => Throw (herr #"Unexpected first byte in EventPayload")
  end.

(** Cached dictionaries are those of the table (dictionaries are only ever
    added, under fresh ids). *)
Definition caches_ok (c : DictCaches) (d : env) : Prop :=
  ∀ i dict, local_dicts c !! i = Some dict ∨ global_dicts c !! i = Some dict →
  ∃ b, CompressionDictionary (tables d) !! i = Some b ∧ dict = ZSTD_createDDict b.

Lemma getDict_spec c d i :
  caches_ok c d →
  match CompressionDictionary (tables d) !! i with
  | None => getDict c d i = Throw (herr (#"couldn't find dictId " ++ show_nat (N.to_nat i)))
  | Some b => ∃ c', getDict c d i = Ok (c', ZSTD_createDDict b) ∧ caches_ok c' d
  end.
Proof.
  intros Hc. unfold getDict. destruct (global_dicts c !! i) as [dict|] eqn:Hg.
  - destruct (Hc i dict (or_intror Hg)) as (b & -> & ->). by exists c.
  - destruct (CompressionDictionary (tables d) !! i) as [b|] eqn:Hb; [|done].
    eexists. split; [done|]. intros j dict. simpl. intros [Hl|[[<- <-]|[_ Hg']]%lookup_insert_Some];
      [by eapply Hc; left|by exists b|by eapply Hc; right].
Qed.

Lemma decompress_spec c d n i src :
  caches_ok c d →
  match CompressionDictionary (tables d) !! i with
  | None => decompress c d n i src =
      Throw (herr (#"couldn't find dictId " ++ show_nat (N.to_nat i)))
  | Some b =>
      match ZSTD_decompress_usingDDict n src (ZSTD_createDDict b) with
      | None => decompress c d n i src = Throw (herr #"zstd decompression failed: ")
      | Some json => ∃ c', decompress c d n i src = Ok (c', json) ∧ caches_ok c' d
      end
  end.
Proof.
  intros Hc. unfold decompress. destruct (local_dicts c !! i) as [dict|] eqn:Hl.
  - destruct (Hc i dict (or_introl Hl)) as (b & -> & ->). simpl.
    destruct (ZSTD_decompress_usingDDict _ _ _); [by exists c|done].
  - pose proof (getDict_spec c d i Hc) as Hget.
    destruct (CompressionDictionary (tables d) !! i) as [b|] eqn:Hb; [|by rewrite Hget].
    destruct Hget as (c' & -> & Hc'). simpl.
    destruct (ZSTD_decompress_usingDDict _ _ _) as [json|]; [|done].
    eexists. split; [done|].
    intros j dict. simpl. intros [[[<- <-]|[_ Hl']]%lookup_insert_Some|Hg];
      [by exists b|by eapply Hc'; left|by eapply Hc'; right].
Qed.

Lemma decodeEventPayload_text c d raw :
  caches_ok c d →
  match payload_text d raw with
  | Throw e => decodeEventPayload c d raw = Throw e
  | Ok json => ∃ c' i n, decodeEventPayload c d raw = Ok (c', (json, i, n)) ∧ caches_ok c' d
  end.
Proof.
  intros Hc. unfold payload_text, decodeEventPayload, char_eqb.
  destruct raw as [|t raw]; [done|].
  destruct (Ascii.eqb_spec t "000") as [->|H0']; [by eexists _, _, _|].
  destruct (Ascii.eqb_spec t "001") as [->|H1'].
  - destruct (Nat.ltb_spec (length raw) 4); [by rewrite decide_True|].
    rewrite decide_False by lia. simpl.
    pose proof (decompress_spec c d (events__maxEventSize cfg) (from_sv32 (take 4 raw))
      (drop 4 raw) Hc) as Hdec.
    destruct (CompressionDictionary (tables d) !! _) as [b|]; [|by rewrite Hdec].
    destruct (ZSTD_decompress_usingDDict _ _ _) as [json|]; [|by rewrite Hdec].
    destruct Hdec as (c' & -> & Hc'). by eexists _, _, _.
  - by destruct t as [[] [] [] [] [] [] [] []].
Qed.

(** The JSON of a stored event, as the tables have it. *)
Definition event_text (d : env) (levId : N) : result bytes :=
  match EventPayload (tables d) !! levId with
  | None => Throw (herr #"couldn't find event in EventPayload")
  | Some raw => payload_text d raw
  end.

Lemma getEventJson_text c d levId :
  caches_ok c d →
  match event_text d levId with
  | Throw e => getEventJson c d levId = Throw e
  | Ok json => ∃ c', getEventJson c d levId = Ok (c', json) ∧ caches_ok c' d
  end.
Proof.
  intros Hc. unfold event_text, getEventJson.
  destruct (EventPayload (tables d) !! levId) as [raw|]; [|done].
  pose proof (decodeEventPayload_text c d raw Hc) as Hdec.
  destruct (payload_text d raw) as [json|e]; [|by rewrite Hdec].
  destruct Hdec as (c' & i & n & -> & Hc'). by exists c'.
Qed.

(** Decoding a payload gives the text the tables stand for (or exactly
    their error), whatever the two dictionary caches hold, and keeps the caches
    in step with the dictionary table. *)
Theorem payload_decode_correct c d raw :
  caches_ok c d →
  match payload_text d raw with
  | Throw e => decodeEventPayload c d raw = Throw e
  | Ok json => ∃ c' i n, decodeEventPayload c d raw = Ok (c', (json, i, n)) ∧ caches_ok c' d
  end.
Proof. apply decodeEventPayload_text. Qed.
End payload.

Section stored.
Context `{!Hex, !NativeU64, !GolpeKeys, !Env, !JsonParser, !Zstd} (cfg : Config).

(** The JSON that was handed to [writeEvents] is what [getEventJson] reads
    back for every event of the batch that was written and is still stored. *)
Theorem stored_json_readable c d m fs es evs evs' c' d' out (dc : DictCaches) ev :
  batch_ok c d m fs es evs evs' → writeEvents c d evs' = Ok (c', d', out) →
  ev ∈ out → status ev = Written → is_Some (lookup_Event d' (levId ev)) →
  getEventJson cfg dc d' (levId ev) = Ok (dc, jsonStr ev).
Proof.
  intros Hok Hrun Hin Hst Hlive.
  destruct (batch_run c d m fs es evs evs' c' d' out Hok Hrun)
    as (es' & m' & _ & _ & _ & Hinv & Hbr & _).
  unfold lookup_Event in Hlive. destruct Hinv as [[[Hd _] _ _ _] _].
  rewrite Hd, lookup_fmap, fmap_is_Some in Hlive.
  unfold getEventJson. by rewrite (br_new _ _ _ _ _ _ Hbr ev Hin Hst Hlive).
Qed.
End stored.

(** ** Concrete instances *)

(** A stand-in for zstd: the dictionary is a prefix. *)
#[local] Instance toy_zstd : Zstd := {|
  ZSTD_DDict := bytes;
  ZSTD_createDDict b := b;
  ZSTD_decompress_usingDDict n src dict :=
    if decide (N.of_nat (length (dict ++ src)) ≤ n)%N then Some (dict ++ src) else None;
  from_sv32 := le_decode;
|}.

Definition dict_db : mem := mk_tables ∅ ∅ ∅ (Some (mk_meta 3 1 0)) [] {[2%N := #"{dict"]}.

Definition compressed_payload : bytes := "001"%char :: le_encode 4 2 ++ #"ionary}".

Lemma payload_decode_correct_witness :
  ∃ c' i n, decodeEventPayload default_config (mk_caches ∅ ∅) dict_db compressed_payload =
    Ok (c', (#"{dictionary}", i, n)) ∧ caches_ok c' dict_db.
Proof.
  assert (caches_ok (mk_caches ∅ ∅) dict_db) as Hc.
  { intros i dict. simpl. rewrite !lookup_empty. by intros [?|?]. }
  pose proof (payload_decode_correct default_config (mk_caches ∅ ∅) dict_db
    compressed_payload Hc) as Hdec.
  replace (payload_text default_config dict_db compressed_payload)
    with (Ok #"{dictionary}") in Hdec by (vm_compute; reflexivity).
  exact Hdec.
Defined.

Definition sample_written : EventToWrite :=
  mk_etw (encode (mk_sample "r" 130 30078 [("d"%char, #"quote-1"); ("d"%char, [])]))
    (replicate 32 "r"%char) 0 Written 4.

Lemma stored_json_readable_witness :
  getEventJson default_config (mk_caches ∅ ∅) sample_result.1.2 4 =
  Ok (mk_caches ∅ ∅, replicate 32 "r"%char).
Proof.
  apply (stored_json_readable default_config sample_cache sample_db ∅ sample_fs sample_events
    sample_batch sample_batch sample_result.1.1 sample_result.1.2 sample_result.2
    (mk_caches ∅ ∅) sample_written sample_batch_ok sample_result_eq).
  - assert (sample_result.2 !! 4 = Some sample_written) as Hl by (vm_compute; reflexivity).
    by apply list_elem_of_lookup_2 in Hl.
  - reflexivity.
  - exists (packedStr sample_written). vm_compute. reflexivity.
Defined.
