(* ===== verification/StoreHistory.v ===== *)
(** How the store changes over time.

    The threads of the relay see the database through read transactions:
    [snapshot]s of a store that the writer and the cron thread change.  What
    the readers rely on is [grows]: levIds are never reused, and what is stored
    under a levId (the record, its payload, the dictionaries) never changes; an
    event can only go away. *)

From S2P Require Import Prelude Bytes Json Hex PackedEvent Filters Config Db NegentropyCache.
From S2P Require Import EventWriter EventStore StoreTheorems Payload.

Section history.
Context `{!Hex, !NativeU64, !GolpeKeys, !Env, !JsonParser, !Zstd}.

Record snapshot := mk_snapshot { snap_db : env; snap_events : gmap N event }.

Definition snap_repr (s : snapshot) : Prop := repr (snap_db s) (snap_events s).

Definition latest (s : snapshot) : N := getMostRecentLevId (snap_db s).

Record grows (s s' : snapshot) : Prop := {
  gr_same : ∀ l e e', snap_events s !! l = Some e → snap_events s' !! l = Some e' → e = e';
  gr_new : ∀ l, is_Some (snap_events s' !! l) → snap_events s !! l = None → (latest s < l)%N;
  gr_latest : (latest s ≤ latest s')%N;
  gr_payload : ∀ l, is_Some (snap_events s !! l) → is_Some (snap_events s' !! l) →
    EventPayload (tables (snap_db s')) !! l = EventPayload (tables (snap_db s)) !! l;
  gr_dicts : CompressionDictionary (tables (snap_db s')) =
    CompressionDictionary (tables (snap_db s));
}.

Lemma snap_elem s l :
  snap_repr s → l ∈ foreach_Event (snap_db s) ↔ is_Some (snap_events s !! l).
Proof. intros [Hd _]. rewrite foreach_Event_elem, Hd, lookup_fmap. apply fmap_is_Some. Qed.

Lemma snap_top s : snap_repr s → is_top (snap_events s) (latest s).
Proof. apply getMostRecentLevId_top. Qed.

Lemma snap_latest s l : snap_repr s → is_Some (snap_events s !! l) → (l ≤ latest s)%N.
Proof. intros Hs. apply (snap_top s Hs). Qed.

Lemma top_latest s b : snap_repr s → is_top (snap_events s) b → latest s = b.
Proof. intros Hs Hb. eapply is_top_inj; [by apply snap_top|done]. Qed.

(** What a later snapshot holds of the past was there at the time. *)
Lemma grows_back s s' l e :
  grows s s' → (l ≤ latest s)%N → snap_events s' !! l = Some e → snap_events s !! l = Some e.
Proof.
  intros Hg Hl He. destruct (snap_events s !! l) as [e0|] eqn:He0.
  - by rewrite (gr_same _ _ Hg l e0 e He0 He).
  - pose proof (gr_new _ _ Hg l ltac:(by eexists) He0). lia.
Qed.

Lemma grows_trans s1 s2 s3 : snap_repr s1 → grows s1 s2 → grows s2 s3 → grows s1 s3.
Proof.
  intros Hs G1 G2. pose proof (gr_latest _ _ G1). pose proof (gr_latest _ _ G2).
  assert (∀ l e, is_Some (snap_events s1 !! l) → snap_events s3 !! l = Some e →
    snap_events s2 !! l = Some e) as Hmid.
  { intros l e Hl He. pose proof (snap_latest s1 l Hs Hl).
    apply (grows_back _ _ _ _ G2); [lia|done]. }
  split.
  - intros l e e' He He'. eapply (gr_same _ _ G1); [done|].
    apply Hmid; [by eexists|done].
  - intros l [e He] Hn. destruct (N.le_gt_cases l (latest s1)) as [Hl|]; [|lia].
    apply (grows_back _ _ _ _ G2) in He; [|lia].
    by apply (gr_new _ _ G1); [eexists|].
  - lia.
  - intros l H1' H3'. assert (is_Some (snap_events s2 !! l)) as H2'.
    { destruct H3' as [e He]. exists e. by apply Hmid. }
    by rewrite (gr_payload _ _ G2), (gr_payload _ _ G1).
  - by rewrite (gr_dicts _ _ G2), (gr_dicts _ _ G1).
Qed.

Lemma grows_refl s : grows s s.
Proof. split; try done; [congruence|intros l [? ?]; congruence]. Qed.

Lemma grows_caches s s' c : grows s s' → caches_ok c (snap_db s) → caches_ok c (snap_db s').
Proof. intros Hg Hc i dict Hi. rewrite (gr_dicts _ _ Hg). by apply Hc. Qed.

Lemma grows_text cfg s s' l :
  grows s s' → is_Some (snap_events s !! l) → is_Some (snap_events s' !! l) →
  event_text cfg (snap_db s') l = event_text cfg (snap_db s) l.
Proof.
  intros Hg Hl Hl'. unfold event_text, payload_text.
  by rewrite (gr_payload _ _ Hg l Hl Hl'), (gr_dicts _ _ Hg).
Qed.

(** ** Runs *)

(** Steps, each with the snapshot it sees; the snapshots follow one another. *)
Section runs.
Context {A : Type} (ok : snapshot → Prop).
Implicit Types steps : list (snapshot * A).

Definition last_snap (s : snapshot) steps : snapshot := from_option fst s (last steps).

Lemma last_snap_cons s0 p steps : last_snap s0 (p :: steps) = last_snap p.1 steps.
Proof. unfold last_snap. rewrite last_cons. by destruct (last steps). Qed.

Lemma last_snap_some s0 steps p : last steps = Some p → last_snap s0 steps = p.1.
Proof. unfold last_snap. by intros ->. Qed.

Fixpoint follows (s0 : snapshot) steps : Prop :=
  match steps with
  | [] => True
  | (s, _) :: steps => ok s ∧ grows s0 s ∧ follows s steps
  end.

Lemma follows_grows s0 steps : (∀ s, ok s → snap_repr s) → snap_repr s0 →
  follows s0 steps → grows s0 (last_snap s0 steps).
Proof.
  intros Hok. revert s0. induction steps as [|[s m] steps IH]; intros s0 Hs0; [intros _; apply grows_refl|].
  intros (Hs & Hg & Hrest). rewrite last_snap_cons. cbn [fst].
  eapply grows_trans; [done..|]. apply IH; auto.
Qed.
End runs.

(** ** The two transactions that write *)

Lemma last_default_elem (l : list N) x : List.last l x = x ∨ List.last l x ∈ l.
Proof.
  induction l as [|a [|b l] IH]; [by left|right; constructor|].
  change (List.last (a :: b :: l) x) with (List.last (b :: l) x).
  destruct IH as [->|?]; [by left|right; by constructor 2].
Qed.

Lemma batch_result_grows d d' m m' out :
  repr d m → repr d' m' → batch_result d d' m m' (getMostRecentLevId d) out → same_rest d d' →
  grows (mk_snapshot d m) (mk_snapshot d' m').
Proof.
  intros Hr Hr' Hbr Hrest.
  assert (∀ l, is_Some (m !! l) → (l ≤ getMostRecentLevId d)%N) as Htop.
  { intros l Hl. by apply (snap_latest (mk_snapshot d m)). }
  assert (∀ l o, is_Some (m !! l) → m' !! l = Some o → m !! l = Some o ∧
    EventPayload (tables d') !! l = EventPayload (tables d) !! l) as Hold.
  { intros l o Hl Ho. apply (br_old _ _ _ _ _ _ Hbr); [done|by apply Htop]. }
  split; unfold latest; simpl.
  - intros l e e' He He'. destruct (Hold l e' ltac:(by eexists) He') as [? _]. congruence.
  - intros l [o Ho] Hn. destruct (N.le_gt_cases l (getMostRecentLevId d)) as [Hl|]; [|done].
    destruct (br_old _ _ _ _ _ _ Hbr l o Ho Hl). congruence.
  - pose proof (br_levIds _ _ _ _ _ _ Hbr) as Hso. pose proof (br_top _ _ _ _ _ _ Hbr) as Ht.
    rewrite (is_top_inj _ _ _ (getMostRecentLevId_top d' m' Hr') Ht).
    apply StronglySorted_inv in Hso as [_ Hall].
    destruct (last_default_elem (written_levIds out) (getMostRecentLevId d)) as [->|Hin]; [lia|].
    rewrite Forall_forall in Hall. specialize (Hall _ Hin). lia.
  - intros l Hl [o Ho]. by destruct (Hold l o Hl Ho).
  - apply Hrest.
Qed.

Lemma delete_grows c d m fs ls :
  db_filters d fs → cache_coherent c d → store_inv fs d m → getMostRecentLevId d ∉ ls →
  ∃ c' d' n, deleteEvents c d ls = Ok (c', d', n) ∧ store_inv fs d' (drop_all ls m) ∧
    db_filters d' fs ∧ cache_coherent c' d' ∧ getMostRecentLevId d' = getMostRecentLevId d ∧
    grows (mk_snapshot d m) (mk_snapshot d' (drop_all ls m)).
Proof.
  intros Hf Hc Hinv Hls.
  destruct (deleteEvents_spec c d m fs ls Hf Hc Hinv)
    as (c' & d' & Hdel & Hinv' & Hc' & Hf' & Hrest & Hpay).
  eexists c', d', _. split; [done|].
  pose proof (ss_repr _ _ _ (proj1 Hinv)) as Hr. pose proof (ss_repr _ _ _ (proj1 Hinv')) as Hr'.
  assert (is_top (drop_all ls m) (getMostRecentLevId d)) as Ht.
  { destruct (getMostRecentLevId_top d m Hr) as [Hle Hb]. split.
    - intros l [o [Ho _]%drop_all_lookup]. apply Hle. by eexists.
    - destruct Hb as [->|[o Ho]]; [by left|right]. exists o. by apply drop_all_lookup. }
  pose proof (is_top_inj _ _ _ (getMostRecentLevId_top d' _ Hr') Ht) as Heq.
  split_and!; try done. split; unfold latest; simpl.
  - intros l e e' He [He' _]%drop_all_lookup. congruence.
  - intros l [o [Ho _]%drop_all_lookup] Hn. congruence.
  - by rewrite Heq.
  - intros l _ [o [_ Hn]%drop_all_lookup]. by apply Hpay.
  - apply Hrest.
Qed.
End history.
