(* ===== verification/Subscription.v ===== *)
(** Subscription ids and subscriptions ([Subscription.h]). *)

From S2P Require Import Prelude Bytes Json PackedEvent FilterSets Filters.

Definition MAX_SUBID_SIZE : nat := 71.

(** The octets of [buf] that the constructor writes: the length, then the
    characters; the rest of the array is never read. *)
Record SubId := mk_subid { subid_buf : bytes }.

Definition badChar (c : ascii) : bool :=
  (byteN c <? 32)%N || char_eqb c "\" || char_eqb c "034" || (127 <=? byteN c)%N.

Definition SubId_make (val : bytes) : result SubId :=
  _ ← throw_if (MAX_SUBID_SIZE <? length val) (herr #"subscription id too long");
  _ ← throw_if (length val =? 0) (herr #"subscription id too short");
  _ ← throw_if (existsb badChar val) (herr #"invalid character in subscription id");
  Ok (mk_subid (ascii_of_nat (length val) :: val)).

Definition SubId_sv (s : SubId) : bytes :=
  match subid_buf s with
  | [] => []
  | n :: chars => take (N.to_nat (byteN n)) chars
  end.

Definition SubId_eqb (a b : SubId) : bool := bool_decide (SubId_sv a = SubId_sv b).

Record Subscription := mk_sub {
  connId : N;
  subId : SubId;
  filterGroup : list NostrFilter;
  latestEventId : N;
}.

(** The constructor takes the id as a string. *)
Definition Subscription_make (connId : N) (subId : bytes) (fg : list NostrFilter)
    : result Subscription :=
  s ← SubId_make subId;
  Ok (mk_sub connId s fg MAX_U64).

Definition set_latestEventId (s : Subscription) (n : N) : Subscription :=
  mk_sub (connId s) (subId s) (filterGroup s) n.

Definition ConnIdSubId : Type := N * SubId.

(** A printable character that needs no escape in a JSON string. *)
Definition plain_char (c : ascii) : Prop :=
  (32 ≤ byteN c ≤ 126)%N ∧ c ≠ "\"%char ∧ c ≠ "034"%char.

Lemma badChar_false c : badChar c = false ↔ plain_char c.
Proof.
  unfold badChar, plain_char, char_eqb. rewrite !orb_false_iff, N.ltb_ge, N.leb_gt.
  destruct (Ascii.eqb_spec c "\"), (Ascii.eqb_spec c "034"); split; intros; naive_solver lia.
Qed.

Lemma SubId_make_Ok val s :
  SubId_make val = Ok s ↔
  1 ≤ length val ≤ 71 ∧ Forall plain_char val ∧
  s = mk_subid (ascii_of_nat (length val) :: val).
Proof.
  unfold SubId_make, MAX_SUBID_SIZE.
  assert (existsb badChar val = false ↔ Forall plain_char val) as Hex.
  { induction val as [|c val IH]; simpl; [done|].
    by rewrite orb_false_iff, Forall_cons, badChar_false, IH. }
  split.
  - intros Hmk. inv_result. subst. apply Nat.ltb_ge in Hr. apply Nat.eqb_neq in Hr0.
    rewrite Hex in Hr1. split_and!; done || lia.
  - intros (Hlen & Hall & ->). apply Hex in Hall. rewrite Hall.
    destruct (Nat.ltb_spec 71 (length val)); [lia|].
    by destruct (Nat.eqb_spec (length val) 0); [lia|].
Qed.

(** A subscription id is accepted exactly when it has 1 to 71 octets, all
    printable ASCII and none a backslash or a double quote (so it can be put in
    a JSON message unescaped), and it is read back unchanged. *)
Theorem subid_roundtrip val :
  match SubId_make val with
  | Ok s => SubId_sv s = val ∧ 1 ≤ length val ≤ MAX_SUBID_SIZE ∧ Forall plain_char val
  | Throw _ => ¬ (1 ≤ length val ≤ MAX_SUBID_SIZE ∧ Forall plain_char val)
  end.
Proof.
  destruct (SubId_make val) as [s|x] eqn:Hmk.
  - apply SubId_make_Ok in Hmk as (Hlen & Hall & ->). split; [|done].
    unfold SubId_sv. simpl. rewrite byteN_ascii_of_nat by lia. apply firstn_all.
  - intros [Hlen Hall]. destruct (SubId_make_Ok val (mk_subid (ascii_of_nat (length val) :: val)))
      as [_ Hok]. by rewrite Hok in Hmk.
Qed.
