(* ===== verification/Monitors.v ===== *)
(** Live subscriptions ([ActiveMonitors.h]): the data structure and its
    operations.

    A [Monitor] is an object with a stable address: the heap [monitors] maps
    addresses to subscriptions, [conns] holds the addresses, and a
    [NostrFilter*] is an address with an index into the subscription's filter
    group.  Reading through an address that is not in the heap is
    [undefined_behaviour].  Each lookup table maps a key to a [MonitorSet], a
    hash map whose iteration order the language leaves open: the parameter
    [iter] is any enumeration of its entries. *)

From S2P Require Import Prelude Bytes Json Hex PackedEvent FilterSets Filters Config.
From S2P Require Import EventParse Subscription.

Record MonitorItem := mk_item_ { mon : N; itemLatest : N }.

Abbreviation filterRef := (N * nat)%type.
Abbreviation MonitorSet := (gmap filterRef MonitorItem).

Record ActiveMonitors := mk_am {
  conns : gmap N (gmap bytes N);
  monitors : gmap N Subscription;
  allIds : gmap bytes MonitorSet;
  allAuthors : gmap bytes MonitorSet;
  allTags : gmap bytes MonitorSet;
  allKinds : gmap N MonitorSet;
  allOthers : MonitorSet;
}.

Definition am_empty : ActiveMonitors := mk_am ∅ ∅ ∅ ∅ ∅ ∅ ∅.

Definition set_conns st x := mk_am x (monitors st) (allIds st) (allAuthors st)
  (allTags st) (allKinds st) (allOthers st).
Definition set_monitors st x := mk_am (conns st) x (allIds st) (allAuthors st)
  (allTags st) (allKinds st) (allOthers st).
Definition set_allIds st x := mk_am (conns st) (monitors st) x (allAuthors st)
  (allTags st) (allKinds st) (allOthers st).
Definition set_allAuthors st x := mk_am (conns st) (monitors st) (allIds st) x
  (allTags st) (allKinds st) (allOthers st).
Definition set_allTags st x := mk_am (conns st) (monitors st) (allIds st) (allAuthors st)
  x (allKinds st) (allOthers st).
Definition set_allKinds st x := mk_am (conns st) (monitors st) (allIds st) (allAuthors st)
  (allTags st) x (allOthers st).
Definition set_allOthers st x := mk_am (conns st) (monitors st) (allIds st) (allAuthors st)
  (allTags st) (allKinds st) x.

Section tables.
Context {K : Type} `{Countable K}.

(** [m.try_emplace(key).first->second.try_emplace(f, item)] *)
Definition install_at (m : gmap K MonitorSet) (key : K) (f : filterRef) (item : MonitorItem)
    : gmap K MonitorSet :=
  let ms := default ∅ (m !! key) in
  <[key := match ms !! f with Some _ => ms | None => <[f := item]> ms end]> m.

(** [auto &monSet = m.at(key); monSet.erase(f); if (monSet.empty()) m.erase(key);] *)
Definition uninstall_at (m : gmap K MonitorSet) (key : K) (f : filterRef)
    : result (gmap K MonitorSet) :=
  match m !! key with
  | None => Throw out_of_range
  | Some ms =>
      let ms := delete f ms in
      Ok (if decide (ms = ∅) then delete key m else <[key := ms]> m)
  end.

Fixpoint take_while (p : K → bool) (l : list K) : list K :=
  match l with
  | [] => []
  | k :: l => if p k then k :: take_while p l else []
  end.

(** The walk of [processMonitorsExact] over an ordered map: from the entry
    before [upper_bound(key)] backwards while the keys match. *)
Definition exact_keys (le : K → K → Prop) `{!RelDecision le} (m : gmap K MonitorSet)
    (key : K) : list K :=
  take_while (λ k, bool_decide (k = key))
    (rev (filter (λ k, le k key) (merge_sort le (map_to_list m).*1))).
End tables.

Definition getTagSpec (k : ascii) (val : bytes) : bytes := k :: val.

Section monitors.
Context `{!NativeU64} (cfg : Config).
Context (iter : MonitorSet → list (filterRef * MonitorItem)).

(** ** Installing and removing the lookups of a filter *)

(** [for (i = 0; i < set.size(); i++) body(set.at(i))] *)
Definition for_bytes {S} (set : FilterSetBytes) (body : S → bytes → result S) (s : S)
    : result S :=
  foldM (λ s i, b ← FilterSetBytes_at set i; body s b) s (seq 0 (FilterSetBytes_size set)).

Definition for_uints {S} (set : FilterSetUint) (body : S → N → result S) (s : S)
    : result S :=
  foldM (λ s i, n ← FilterSetUint_at set i; body s n) s (seq 0 (length set)).

Definition installFilter (a cur : N) (st : ActiveMonitors) (nf : nat * NostrFilter)
    : result ActiveMonitors :=
  let '(i, f) := nf in
  let item := mk_item_ a cur in
  match ids f, authors f, kinds f with
  | Some fs, _, _ =>
      for_bytes fs (λ st b, k ← Bytes32 b;
        Ok (set_allIds st (install_at (allIds st) k (a, i) item))) st
  | None, Some fs, _ =>
      for_bytes fs (λ st b, k ← Bytes32 b;
        Ok (set_allAuthors st (install_at (allAuthors st) k (a, i) item))) st
  | None, None, ks =>
      if negb (base.size (tags f) =? 0) then
        foldM (λ st '(tagName, fs),
          for_bytes fs (λ st v,
            Ok (set_allTags st (install_at (allTags st) (getTagSpec tagName v) (a, i) item)))
            st) st (map_to_list (tags f))
      else match ks with
      | Some fs =>
          for_uints fs (λ st n,
            Ok (set_allKinds st (install_at (allKinds st) n (a, i) item))) st
      | None =>
          Ok (set_allOthers st
                (match allOthers st !! (a, i) with
                 | Some _ => allOthers st
                 | None => <[(a, i) := item]> (allOthers st)
                 end))
      end
  end.

Definition indexed {A} (l : list A) : list (nat * A) := zip (seq 0 (length l)) l.

Definition installLookups (a cur : N) (st : ActiveMonitors) : result ActiveMonitors :=
  match monitors st !! a with
  | None => Throw undefined_behaviour
  | Some sub => foldM (installFilter a cur) st (indexed (filterGroup sub))
  end.

Definition uninstallFilter (a : N) (st : ActiveMonitors) (nf : nat * NostrFilter)
    : result ActiveMonitors :=
  let '(i, f) := nf in
  match ids f, authors f, kinds f with
  | Some fs, _, _ =>
      for_bytes fs (λ st b, k ← Bytes32 b;
        m ← uninstall_at (allIds st) k (a, i); Ok (set_allIds st m)) st
  | None, Some fs, _ =>
      for_bytes fs (λ st b, k ← Bytes32 b;
        m ← uninstall_at (allAuthors st) k (a, i); Ok (set_allAuthors st m)) st
  | None, None, ks =>
      if negb (base.size (tags f) =? 0) then
        foldM (λ st '(tagName, fs),
          for_bytes fs (λ st v,
            m ← uninstall_at (allTags st) (getTagSpec tagName v) (a, i);
            Ok (set_allTags st m)) st) st (map_to_list (tags f))
      else match ks with
      | Some fs =>
          for_uints fs (λ st n,
            m ← uninstall_at (allKinds st) n (a, i); Ok (set_allKinds st m)) st
      | None => Ok (set_allOthers st (delete (a, i) (allOthers st)))
      end
  end.

Definition uninstallLookups (a : N) (st : ActiveMonitors) : result ActiveMonitors :=
  match monitors st !! a with
  | None => Throw undefined_behaviour
  | Some sub => foldM (uninstallFilter a) st (indexed (filterGroup sub))
  end.

(** ** Subscriptions *)

Definition findMonitor (st : ActiveMonitors) (c : N) (s : SubId) : option N :=
  match conns st !! c with
  | None => None
  | Some cm => cm !! SubId_sv s
  end.

Definition removeSub (st : ActiveMonitors) (c : N) (s : SubId) : result ActiveMonitors :=
  match findMonitor st c s with
  | None => Ok st
  | Some a =>
      st ← uninstallLookups a st;
      let cm := delete (SubId_sv s) (default ∅ (conns st !! c)) in
      let st := set_monitors st (delete a (monitors st)) in
      Ok (set_conns st (if decide (cm = ∅) then delete c (conns st)
                        else <[c := cm]> (conns st)))
  end.

(** [false] when the connection has too many subscriptions. *)
Definition addSub (st : ActiveMonitors) (sub : Subscription) (currEventId : N)
    : result (ActiveMonitors * bool) :=
  _ ← throw_if (negb (latestEventId sub =? currEventId)%N) (herr #"sub not up to date");
  st ← (match findMonitor st (connId sub) (subId sub) with
        | Some _ => removeSub st (connId sub) (subId sub)
        | None => Ok st
        end);
  let connMonitors := default ∅ (conns st !! connId sub) in
  let st := set_conns st (<[connId sub := connMonitors]> (conns st)) in
  if (relay__maxSubsPerConnection cfg <=? N.of_nat (base.size connMonitors))%N
  then Ok (st, false)
  else
    let a := base.fresh (dom (monitors st)) in
    let st := set_monitors st (<[a := sub]> (monitors st)) in
    let st := set_conns st
      (<[connId sub := <[SubId_sv (subId sub) := a]> connMonitors]> (conns st)) in
    st ← installLookups a currEventId st;
    Ok (st, true).

Definition closeConn (st : ActiveMonitors) (c : N) : result ActiveMonitors :=
  match conns st !! c with
  | None => Ok st
  | Some cm =>
      st ← foldM (λ st '(_, a), uninstallLookups a st) st (map_to_list cm);
      let st := set_monitors st
        (filter (λ p, p.1 ∉ (map_to_list cm).*2) (monitors st)) in
      Ok (set_conns st (delete c (conns st)))
  end.

(** ** Processing an event *)

(** The filter behind a [NostrFilter*]. *)
Definition deref_filter (heap : gmap N Subscription) (f : filterRef) : result NostrFilter :=
  match heap !! f.1 with
  | None => Throw undefined_behaviour
  | Some sub =>
      match filterGroup sub !! f.2 with
      | None => Throw undefined_behaviour
      | Some g => Ok g
      end
  end.

(** State of the recipients' collection: the set being walked, the heap and
    the recipients so far. *)
Definition walk_state : Type := MonitorSet * gmap N Subscription * list ConnIdSubId.

Definition process_item (levId : N) (buf : bytes) (ws : walk_state)
    (entry : filterRef * MonitorItem) : result walk_state :=
  let '(ms, heap, recipients) := ws in
  let '(f, item) := entry in
  match heap !! mon item with
  | None => Throw undefined_behaviour
  | Some sub =>
      if (levId <=? itemLatest item)%N || (levId <=? latestEventId sub)%N then Ok ws
      else
        let ms := <[f := mk_item_ (mon item) levId]> ms in
        g ← deref_filter heap f;
        ev ← view buf;
        b ← doesMatch g ev;
        if (b : bool) then
          Ok (ms, <[mon item := set_latestEventId sub levId]> heap,
              recipients ++ [(connId sub, subId sub)])
        else Ok (ms, heap, recipients)
  end.

Definition processMonitorSet (levId : N) (buf : bytes) (heap : gmap N Subscription)
    (recipients : list ConnIdSubId) (ms : MonitorSet) : result walk_state :=
  foldM (process_item levId buf) (ms, heap, recipients) (iter ms).

(** One lookup table; the state is the table, the heap and the recipients. *)
Definition processMonitorsExact {K} `{Countable K} (le : K → K → Prop) `{!RelDecision le}
    (levId : N) (buf : bytes)
    (ts : gmap K MonitorSet * gmap N Subscription * list ConnIdSubId) (key : K)
    : result (gmap K MonitorSet * gmap N Subscription * list ConnIdSubId) :=
  foldM (λ ts k,
    let '(m, heap, recipients) := ts in
    '(ms, heap, recipients) ←
      processMonitorSet levId buf heap recipients (default ∅ (m !! k));
    Ok (<[k := ms]> m, heap, recipients)) ts (exact_keys le ts.1.1 key).

(** [None] when the callback is not called. *)
Definition process (st : ActiveMonitors) (levId : N) (buf : bytes)
    : result (ActiveMonitors * option (list ConnIdSubId * N)) :=
  packed ← view buf;
  id32 ← Bytes32 (id packed);
  '(m, h, r) ← processMonitorsExact bytes_le levId buf (allIds st, monitors st, []) id32;
  let st := set_monitors (set_allIds st m) h in
  pk32 ← Bytes32 (pubkey packed);
  '(m, h, r) ← processMonitorsExact bytes_le levId buf (allAuthors st, monitors st, r) pk32;
  let st := set_monitors (set_allAuthors st m) h in
  '(m, h, r) ← foreachTag packed (λ ts tagName tagVal,
      ts ← processMonitorsExact bytes_le levId buf ts (getTagSpec tagName tagVal);
      Ok (ts, true)) (allTags st, monitors st, r);
  let st := set_monitors (set_allTags st m) h in
  '(m, h, r) ← processMonitorsExact N.le levId buf (allKinds st, monitors st, r) (kind packed);
  let st := set_monitors (set_allKinds st m) h in
  '(ms, h, r) ← processMonitorSet levId buf (monitors st) r (allOthers st);
  let st := set_monitors (set_allOthers st ms) h in
  Ok (st, if negb (length r =? 0) then Some (r, levId) else None).
End monitors.

#[global] Arguments installFilter : simpl never.
#[global] Arguments uninstallFilter : simpl never.
#[global] Arguments process_item : simpl never.
#[global] Arguments processMonitorSet : simpl never.
#[global] Arguments processMonitorsExact : simpl never.
