(* ===== verification/MonitorLookups.v ===== *)
(** The lookup tables of [ActiveMonitors] seen as one map.

    A [spot] is a place a filter can be installed at: an id, an author, a tag, a
    kind, or the catch-all set.  [at_spot] is the [MonitorSet] there, and the
    loops that install and uninstall a filter are shown to visit exactly the
    spots [filter_spots]. *)

From S2P Require Import Prelude Bytes Json Hex PackedEvent FilterSets Filters Config.
From S2P Require Import EventParse Subscription Monitors.

(** ** Loops *)

Lemma foldM_fmap {S A B} (h : A → B) (f : S → B → result S) l s :
  foldM f s (h <$> l) = foldM (λ s a, f s (h a)) s l.
Proof.
  revert s. induction l as [|a l IH]; intros s; [done|]. csimpl.
  destruct (f s (h a)); simpl; [apply IH|done].
Qed.

Lemma foldM_concat {S A B} (h : A → list B) (f : S → B → result S) l s :
  foldM f s (l ≫= h) = foldM (λ s a, foldM f s (h a)) s l.
Proof.
  revert s. induction l as [|a l IH]; intros s; [done|]. csimpl. rewrite foldM_app.
  destruct (foldM f s (h a)); simpl; [apply IH|done].
Qed.

Lemma foldM_ext {S A} (f g : S → A → result S) l s :
  (∀ s a, a ∈ l → f s a = g s a) → foldM f s l = foldM g s l.
Proof.
  revert s. induction l as [|a l IH]; intros s Hfg; [done|]. simpl.
  rewrite Hfg by constructor. destruct (g s a); simpl; [|done].
  apply IH. intros s1 b Hb. apply Hfg. by constructor.
Qed.

Lemma foldM_seq {S A} (f : S → A → result S) (get : nat → result A) l s k :
  (∀ i a, l !! i = Some a → get (k + i) = Ok a) →
  foldM (λ s i, a ← get i; f s a) s (seq k (length l)) = foldM f s l.
Proof.
  revert s k. induction l as [|a l IH]; intros s k Hget; [done|]. simpl.
  specialize (Hget 0 a eq_refl) as Ha. rewrite Nat.add_0_r in Ha. rewrite Ha. simpl.
  destruct (f s a); simpl; [|done]. apply IH. intros i b Hb.
  rewrite <-(Hget (Datatypes.S i) b Hb). f_equal. lia.
Qed.

Lemma elem_of_indexed {A} (l : list A) i a : (i, a) ∈ indexed l ↔ l !! i = Some a.
Proof.
  unfold indexed. rewrite list_elem_of_lookup. split.
  - intros [k Hk]. rewrite lookup_zip_with_Some in Hk.
    destruct Hk as (x & y & [= -> ->] & Hx & Hy).
    apply lookup_seq in Hx as [-> _]. done.
  - intros Hi. exists i. apply lookup_zip_with_Some. exists i, a.
    split_and!; [done| |done]. apply lookup_seq. split; [done|]. by apply lookup_lt_Some in Hi.
Qed.

Lemma NoDup_indexed {A} (l : list A) : NoDup (indexed l).*1.
Proof. unfold indexed. rewrite fst_zip by (rewrite length_seq; lia). apply NoDup_seq. Qed.

(** ** Spots *)

Inductive spot :=
  | SpId (b : bytes)
  | SpAuthor (b : bytes)
  | SpTag (b : bytes)
  | SpKind (n : N)
  | SpOther.

#[export] Instance spot_eq_dec : EqDecision spot.
Proof. solve_decision. Defined.

#[export] Instance SpId_inj : Inj (=) (=) SpId.
Proof. by intros a b [= ->]. Qed.
#[export] Instance SpAuthor_inj : Inj (=) (=) SpAuthor.
Proof. by intros a b [= ->]. Qed.
#[export] Instance SpKind_inj : Inj (=) (=) SpKind.
Proof. by intros a b [= ->]. Qed.

Definition at_spot (st : ActiveMonitors) (sp : spot) : MonitorSet :=
  match sp with
  | SpId k => default ∅ (allIds st !! k)
  | SpAuthor k => default ∅ (allAuthors st !! k)
  | SpTag k => default ∅ (allTags st !! k)
  | SpKind n => default ∅ (allKinds st !! n)
  | SpOther => allOthers st
  end.

(** No table keeps an empty set. *)
Record no_empty (st : ActiveMonitors) : Prop := {
  ne_ids : ∀ k, allIds st !! k ≠ Some ∅;
  ne_authors : ∀ k, allAuthors st !! k ≠ Some ∅;
  ne_tags : ∀ k, allTags st !! k ≠ Some ∅;
  ne_kinds : ∀ k, allKinds st !! k ≠ Some ∅;
}.

(** The elements of a set, in order. *)
Definition set_members (fs : FilterSetBytes) : list bytes :=
  omap (item_sv fs) (seq 0 (FilterSetBytes_size fs)).

Definition filter_spots (f : NostrFilter) : list spot :=
  match ids f, authors f, kinds f with
  | Some fs, _, _ => SpId <$> set_members fs
  | None, Some fs, _ => SpAuthor <$> set_members fs
  | None, None, ks =>
      if negb (base.size (tags f) =? 0) then
        map_to_list (tags f) ≫= λ t, (λ v, SpTag (getTagSpec t.1 v)) <$> set_members t.2
      else match ks with Some fs => SpKind <$> fs | None => [SpOther] end
  end.

(** A filter that can be installed: well formed, ids and authors of 32 octets. *)
Record filter_ready (f : NostrFilter) : Prop := {
  fr_wf : filter_wf f;
  fr_ids : ∀ fs x, ids f = Some fs → x ∈ set_members fs → length x = 32;
  fr_authors : ∀ fs x, authors f = Some fs → x ∈ set_members fs → length x = 32;
}.

Lemma set_members_repr fs l : fsb_repr fs l → set_members fs = l.
Proof.
  intros Hr. unfold set_members. rewrite (FilterSetBytes_size_repr fs l Hr).
  assert (∀ k m, (∀ i, item_sv fs (k + i) = m !! i) →
    omap (item_sv fs) (seq k (length m)) = m) as Hseq.
  { intros k m. revert k. induction m as [|x m IH]; intros k Hk; [done|]. csimpl.
    specialize (Hk 0) as Hx. rewrite Nat.add_0_r in Hx. rewrite Hx. simpl. f_equal.
    apply IH. intros i. etrans; [|apply (Hk (S i))]. f_equal. lia. }
  apply Hseq. intros i. by apply item_sv_repr.
Qed.

Lemma set_members_NoDup fs : fsb_ok fs → NoDup (set_members fs).
Proof.
  intros [l Hr]. rewrite (set_members_repr fs l Hr).
  by eapply (strict_sorted_NoDup bytes_le), repr_sorted.
Qed.

Lemma elem_of_set_members fs x : fsb_ok fs → x ∈ set_members fs ↔ fsb_mem fs x.
Proof.
  intros [l Hr]. by rewrite (set_members_repr fs l Hr), (fsb_mem_repr fs l x Hr).
Qed.

Lemma for_bytes_members {S} fs (body : S → bytes → result S) s :
  fsb_ok fs → for_bytes fs body s = foldM body s (set_members fs).
Proof.
  intros [l Hr]. rewrite (set_members_repr fs l Hr). unfold for_bytes.
  rewrite (FilterSetBytes_size_repr fs l Hr). apply (foldM_seq body (FilterSetBytes_at fs)).
  intros i x Hi. rewrite (FilterSetBytes_at_repr fs l _ Hr). simpl. by rewrite Hi.
Qed.

Lemma for_uints_members {S} fs (body : S → N → result S) s :
  for_uints fs body s = foldM body s fs.
Proof.
  unfold for_uints. apply (foldM_seq body (FilterSetUint_at fs)).
  intros i x Hi. unfold FilterSetUint_at. simpl. by rewrite Hi.
Qed.

Lemma filter_spots_NoDup f : filter_ready f → NoDup (filter_spots f).
Proof.
  intros [Hwf _ _]. unfold filter_spots.
  destruct (ids f) as [fs|] eqn:Hi.
  { apply (NoDup_fmap_2 _). apply set_members_NoDup. by eapply fw_ids. }
  destruct (authors f) as [fs|] eqn:Ha.
  { apply (NoDup_fmap_2 _). apply set_members_NoDup. by eapply fw_authors. }
  case_bool.
  - apply NoDup_bind.
    + intros [c1 fs1] [c2 fs2] sp H1' H2' (v1 & -> & _)%list_elem_of_fmap
        (v2 & [= Hc _] & _)%list_elem_of_fmap. simpl in Hc. subst c2.
      apply elem_of_map_to_list in H1', H2'. by simplify_eq.
    + intros [c fs] Hin%elem_of_map_to_list. apply (NoDup_fmap_2_strong _).
      { by intros v1 v2 _ _ [= ->]. }
      apply set_members_NoDup. by eapply fw_tags.
    + apply NoDup_map_to_list.
  - destruct (kinds f) as [ks|] eqn:Hk; [|apply NoDup_singleton].
    apply (NoDup_fmap_2 _). by eapply (strict_sorted_NoDup N.le), fw_kinds.
Qed.

(** ** Installing and removing at a spot *)

Definition put_at (st : ActiveMonitors) (sp : spot) (r : filterRef) (it : MonitorItem)
    : ActiveMonitors :=
  match sp with
  | SpId k => set_allIds st (install_at (allIds st) k r it)
  | SpAuthor k => set_allAuthors st (install_at (allAuthors st) k r it)
  | SpTag k => set_allTags st (install_at (allTags st) k r it)
  | SpKind k => set_allKinds st (install_at (allKinds st) k r it)
  | SpOther => set_allOthers st
      (match allOthers st !! r with
       | Some _ => allOthers st
       | None => <[r := it]> (allOthers st)
       end)
  end.

Definition take_at (st : ActiveMonitors) (sp : spot) (r : filterRef)
    : result ActiveMonitors :=
  match sp with
  | SpId k => m ← uninstall_at (allIds st) k r; Ok (set_allIds st m)
  | SpAuthor k => m ← uninstall_at (allAuthors st) k r; Ok (set_allAuthors st m)
  | SpTag k => m ← uninstall_at (allTags st) k r; Ok (set_allTags st m)
  | SpKind k => m ← uninstall_at (allKinds st) k r; Ok (set_allKinds st m)
  | SpOther => Ok (set_allOthers st (delete r (allOthers st)))
  end.

Section visit.
Context `{!NativeU64}.

Lemma Bytes32_members {S} (l : list bytes) (f : S → bytes → result S) s :
  (∀ x, x ∈ l → length x = 32) →
  foldM (λ s b, k ← Bytes32 b; f s k) s l = foldM f s l.
Proof.
  intros Hl. apply foldM_ext. intros s' x Hx. unfold Bytes32.
  by rewrite (Hl x Hx).
Qed.

Lemma installFilter_spots a cur st i f :
  filter_ready f →
  installFilter a cur st (i, f) =
  foldM (λ st sp, Ok (put_at st sp (a, i) (mk_item_ a cur))) st (filter_spots f).
Proof.
  intros [Hwf H32i H32a]. unfold installFilter, filter_spots.
  destruct (ids f) as [fs|] eqn:Hi.
  { rewrite for_bytes_members by (by eapply fw_ids). rewrite foldM_fmap. simpl.
    apply (Bytes32_members _ (λ st k, Ok (set_allIds st _))). intros x. by apply (H32i fs). }
  destruct (authors f) as [fs|] eqn:Ha.
  { rewrite for_bytes_members by (by eapply fw_authors). rewrite foldM_fmap. simpl.
    apply (Bytes32_members _ (λ st k, Ok (set_allAuthors st _))). intros x. by apply (H32a fs). }
  destruct (negb (base.size (tags f) =? 0)).
  - rewrite foldM_concat. apply foldM_ext. intros st' [c fs] Hin%elem_of_map_to_list.
    rewrite for_bytes_members by (by eapply fw_tags). by rewrite foldM_fmap.
  - destruct (kinds f) as [ks|]; [|done]. by rewrite for_uints_members, foldM_fmap.
Qed.

Lemma uninstallFilter_spots a st i f :
  filter_ready f →
  uninstallFilter a st (i, f) = foldM (λ st sp, take_at st sp (a, i)) st (filter_spots f).
Proof.
  intros [Hwf H32i H32a]. unfold uninstallFilter, filter_spots.
  destruct (ids f) as [fs|] eqn:Hi.
  { rewrite for_bytes_members by (by eapply fw_ids). rewrite foldM_fmap. simpl.
    apply (Bytes32_members _ (λ st k, m ← uninstall_at (allIds st) k (a, i); _)).
    intros x. by apply (H32i fs). }
  destruct (authors f) as [fs|] eqn:Ha.
  { rewrite for_bytes_members by (by eapply fw_authors). rewrite foldM_fmap. simpl.
    apply (Bytes32_members _ (λ st k, m ← uninstall_at (allAuthors st) k (a, i); _)).
    intros x. by apply (H32a fs). }
  destruct (negb (base.size (tags f) =? 0)).
  - rewrite foldM_concat. apply foldM_ext. intros st' [c fs] Hin%elem_of_map_to_list.
    rewrite for_bytes_members by (by eapply fw_tags). by rewrite foldM_fmap.
  - destruct (kinds f) as [ks|].
    + by rewrite for_uints_members, foldM_fmap.
    + done.
Qed.
End visit.

(** Two states that differ only in their lookup tables. *)
Definition same_subs (st st' : ActiveMonitors) : Prop :=
  conns st' = conns st ∧ monitors st' = monitors st.

Lemma same_subs_trans st1 st2 st3 : same_subs st1 st2 → same_subs st2 st3 → same_subs st1 st3.
Proof. intros [A1 A2] [B1 B2]. split; congruence. Qed.

Definition put_set (ms : MonitorSet) (r : filterRef) (it : MonitorItem) : MonitorSet :=
  match ms !! r with Some _ => ms | None => <[r := it]> ms end.

Lemma put_set_nonempty ms r it : put_set ms r it ≠ ∅.
Proof.
  unfold put_set. destruct (ms !! r) eqn:E; [|apply insert_non_empty].
  intros ->. by rewrite lookup_empty in E.
Qed.

Lemma install_at_lookup {K} `{Countable K} (m : gmap K MonitorSet) k k' r it :
  default ∅ (install_at m k r it !! k') =
  if decide (k = k') then put_set (default ∅ (m !! k)) r it else default ∅ (m !! k').
Proof. unfold install_at. rewrite lookup_insert. by case_decide. Qed.

Lemma install_at_nonempty {K} `{Countable K} (m : gmap K MonitorSet) k r it :
  (∀ k', m !! k' ≠ Some ∅) → ∀ k', install_at m k r it !! k' ≠ Some ∅.
Proof.
  intros Hm k'. unfold install_at. rewrite lookup_insert. case_decide; [|done].
  intros [= Hp]. by apply (put_set_nonempty (default ∅ (m !! k)) r it).
Qed.

Lemma put_at_spec st sp r it :
  same_subs st (put_at st sp r it) ∧ (no_empty st → no_empty (put_at st sp r it)) ∧
  ∀ sp', at_spot (put_at st sp r it) sp' =
    if decide (sp = sp') then put_set (at_spot st sp) r it else at_spot st sp'.
Proof.
  split; [by destruct sp|]. split.
  - intros []. destruct sp; constructor; simpl; try done; by apply install_at_nonempty.
  - intros sp'. destruct sp, sp'; simpl; try done;
      rewrite install_at_lookup; repeat case_decide; by simplify_eq.
Qed.

Lemma uninstall_at_spec {K} `{Countable K} (m : gmap K MonitorSet) k r :
  (∀ k', m !! k' ≠ Some ∅) → is_Some (default ∅ (m !! k) !! r) →
  ∃ m', uninstall_at m k r = Ok m' ∧ (∀ k', m' !! k' ≠ Some ∅) ∧
    ∀ k', default ∅ (m' !! k') =
      if decide (k = k') then delete r (default ∅ (m !! k)) else default ∅ (m !! k').
Proof.
  intros Hne Hr. unfold uninstall_at. destruct (m !! k) as [ms|] eqn:Hk; simpl in *.
  2: { rewrite lookup_empty in Hr. by destruct Hr. }
  eexists. split; [done|]. case_decide as Hd.
  - split.
    + intros k'. rewrite lookup_delete. by case_decide.
    + intros k'. rewrite lookup_delete. case_decide; [|done]. simpl. by rewrite Hd.
  - split.
    + intros k'. rewrite lookup_insert. case_decide; [congruence|done].
    + intros k'. rewrite lookup_insert. by case_decide.
Qed.

Lemma take_at_spec st sp r :
  no_empty st → is_Some (at_spot st sp !! r) →
  ∃ st', take_at st sp r = Ok st' ∧ same_subs st st' ∧ no_empty st' ∧
    ∀ sp', at_spot st' sp' =
      if decide (sp = sp') then delete r (at_spot st sp) else at_spot st sp'.
Proof.
  intros [Hi Ha Ht Hk] Hr. destruct sp as [k|k|k|k|]; simpl in *;
    [edestruct (uninstall_at_spec (allIds st) k r) as (m' & Hm & Hne & Hl)
    |edestruct (uninstall_at_spec (allAuthors st) k r) as (m' & Hm & Hne & Hl)
    |edestruct (uninstall_at_spec (allTags st) k r) as (m' & Hm & Hne & Hl)
    |edestruct (uninstall_at_spec (allKinds st) k r) as (m' & Hm & Hne & Hl)
    |]; try done; try (rewrite Hm; simpl);
    (eexists; split; [done|]; split; [done|]; split; [by constructor|]);
    intros [k'|k'|k'|k'|]; simpl; rewrite ?Hl; repeat case_decide; by simplify_eq.
Qed.
