(* ===== verification/MonitorInv.v ===== *)
(** The invariant of [ActiveMonitors] and its preservation.

    [am_inv] says that connections, heap and lookup tables agree: a filter is
    installed at exactly the spots its fields ask for, every installed pointer
    leads to a live subscription, no table keeps an empty set and no connection
    has more subscriptions than configured.  Adding, replacing and removing
    subscriptions and closing connections never throw (in particular [at] finds
    every key and no dangling pointer is followed) and preserve it. *)

From S2P Require Import Prelude Bytes Json Hex PackedEvent FilterSets Filters Config.
From S2P Require Import EventParse Subscription Monitors MonitorLookups.

(** ** Loops over the spots of a filter *)

Lemma put_fold sps st r it :
  (∀ sp, at_spot st sp !! r = None ∨ at_spot st sp !! r = Some it) →
  ∃ st', foldM (λ st sp, Ok (put_at st sp r it)) st sps = Ok st' ∧ same_subs st st' ∧
    (no_empty st → no_empty st') ∧
    ∀ sp r', at_spot st' sp !! r' =
      if decide (r' = r ∧ sp ∈ sps) then Some it else at_spot st sp !! r'.
Proof.
  revert st. induction sps as [|sp0 sps IH]; intros st Hst; simpl.
  { exists st. split_and!; try done. intros sp r'. rewrite decide_False; [done|]. set_solver. }
  destruct (put_at_spec st sp0 r it) as (Hsame & Hne & Hat).
  assert (∀ sp r', at_spot (put_at st sp0 r it) sp !! r' =
    if decide (r' = r ∧ sp = sp0) then Some it else at_spot st sp !! r') as Hat'.
  { intros sp r'. rewrite Hat. unfold put_set.
    destruct (decide (sp0 = sp)) as [->|Hn]; [|rewrite decide_False by naive_solver; done].
    destruct (Hst sp) as [E|E]; rewrite E.
    - rewrite lookup_insert. repeat case_decide; naive_solver.
    - case_decide; naive_solver. }
  destruct (IH (put_at st sp0 r it)) as (st' & Hf & Hsame' & Hne' & Hrest).
  { intros sp. rewrite Hat'. case_decide; [by right|apply Hst]. }
  exists st'. split_and!; [done|by eapply same_subs_trans|by auto|].
  intros sp r'. rewrite Hrest, Hat'. repeat case_decide; set_solver.
Qed.

Lemma take_fold sps st r :
  NoDup sps → no_empty st → (∀ sp, sp ∈ sps → is_Some (at_spot st sp !! r)) →
  ∃ st', foldM (λ st sp, take_at st sp r) st sps = Ok st' ∧ same_subs st st' ∧
    no_empty st' ∧
    ∀ sp r', at_spot st' sp !! r' =
      if decide (r' = r ∧ sp ∈ sps) then None else at_spot st sp !! r'.
Proof.
  revert st. induction sps as [|sp0 sps IH]; intros st Hnd Hne Hst; simpl.
  { exists st. split_and!; try done. intros sp r'. rewrite decide_False; [done|]. set_solver. }
  apply NoDup_cons in Hnd as [Hnin Hnd].
  destruct (take_at_spec st sp0 r Hne) as (st1 & -> & Hsame & Hne1 & Hat);
    [apply Hst; constructor|]. simpl.
  destruct (IH st1 Hnd Hne1) as (st' & Hf & Hsame' & Hne' & Hrest).
  { intros sp Hsp. rewrite Hat, decide_False by (intros ->; done). apply Hst. by constructor. }
  exists st'. split_and!; [done|by eapply same_subs_trans|done|].
  intros sp r'. rewrite Hrest, Hat. destruct (decide (sp0 = sp)) as [->|Hn].
  - rewrite lookup_delete. repeat case_decide; set_solver.
  - repeat case_decide; set_solver.
Qed.

Section ops.
Context `{!NativeU64} (cfg : Config).

(** The reference [r] belongs to one of the filters [l] of monitor [a], which
    asks for the spot [sp]. *)
Definition wants (a : N) (l : list (nat * NostrFilter)) (sp : spot) (r : filterRef) : Prop :=
  r.1 = a ∧ ∃ f, (r.2, f) ∈ l ∧ sp ∈ filter_spots f.

Lemma wants_cons a i f l sp r :
  wants a ((i, f) :: l) sp r ↔ r = (a, i) ∧ sp ∈ filter_spots f ∨ wants a l sp r.
Proof.
  unfold wants. destruct r as [a' i']. simpl. setoid_rewrite elem_of_cons. naive_solver.
Qed.

Lemma install_fold a cur l st :
  NoDup l.*1 → Forall (λ p, filter_ready p.2) l →
  (∀ sp i, i ∈ l.*1 → at_spot st sp !! (a, i) = None) →
  ∃ st', foldM (installFilter a cur) st l = Ok st' ∧ same_subs st st' ∧
    (no_empty st → no_empty st') ∧
    ∀ sp r it, at_spot st' sp !! r = Some it ↔
      at_spot st sp !! r = Some it ∨ wants a l sp r ∧ it = mk_item_ a cur.
Proof.
  revert st. induction l as [|[i f] l IH]; intros st Hnd Hready Hnone; simpl.
  { exists st. split_and!; try done. intros sp r it. unfold wants. set_solver. }
  csimpl in *. apply NoDup_cons in Hnd as [Hi Hnd]. apply Forall_cons in Hready as [Hf Hready].
  rewrite installFilter_spots by done.
  destruct (put_fold (filter_spots f) st (a, i) (mk_item_ a cur))
    as (st1 & -> & Hsame & Hne & Hat); [intros sp; left; apply Hnone; constructor|]. simpl.
  destruct (IH st1 Hnd Hready) as (st' & Hfold & Hsame' & Hne' & Hrest).
  { intros sp j Hj. rewrite Hat, decide_False; [apply Hnone; by constructor|].
    intros [[= ->] _]. done. }
  exists st'. split_and!; [done|by eapply same_subs_trans|by auto|].
  intros sp r it. rewrite Hrest, Hat, wants_cons.
  case_decide as Hd; [|naive_solver].
  destruct Hd as [-> Hsp]. rewrite (Hnone sp i) by constructor. naive_solver.
Qed.

Lemma uninstall_fold a l st :
  NoDup l.*1 → Forall (λ p, filter_ready p.2) l → no_empty st →
  (∀ sp r, wants a l sp r → is_Some (at_spot st sp !! r)) →
  ∃ st', foldM (uninstallFilter a) st l = Ok st' ∧ same_subs st st' ∧ no_empty st' ∧
    ∀ sp r it, at_spot st' sp !! r = Some it ↔
      at_spot st sp !! r = Some it ∧ ¬ wants a l sp r.
Proof.
  revert st. induction l as [|[i f] l IH]; intros st Hnd Hready Hne Hsome; simpl.
  { exists st. split_and!; try done. intros sp r it. unfold wants. set_solver. }
  csimpl in *. apply NoDup_cons in Hnd as [Hi Hnd]. apply Forall_cons in Hready as [Hf Hready].
  rewrite uninstallFilter_spots by done.
  destruct (take_fold (filter_spots f) st (a, i)) as (st1 & -> & Hsame & Hne1 & Hat);
    [by apply filter_spots_NoDup|done| |].
  { intros sp Hsp. apply Hsome, wants_cons. by left. }
  simpl. destruct (IH st1 Hnd Hready Hne1) as (st' & Hfold & Hsame' & Hne' & Hrest).
  { intros sp r Hw. rewrite Hat, decide_False; [apply Hsome, wants_cons; by right|].
    intros [-> _]. destruct Hw as (_ & g & Hg & _). simpl in Hg.
    apply Hi. apply list_elem_of_fmap. by exists (i, g). }
  exists st'. split_and!; [done|by eapply same_subs_trans|done|].
  intros sp r it. rewrite Hrest, Hat, wants_cons. case_decide; naive_solver.
Qed.

(** The installed lookups of monitor [a] are those of its filters. *)
Definition looked_up (st : ActiveMonitors) (a : N) (sub : Subscription) : Prop :=
  ∀ sp i, is_Some (at_spot st sp !! (a, i)) ↔
    ∃ f, filterGroup sub !! i = Some f ∧ sp ∈ filter_spots f.

Lemma indexed_ready fg :
  Forall filter_ready fg → Forall (λ p : nat * NostrFilter, filter_ready p.2) (indexed fg).
Proof.
  intros Hfg. apply Forall_forall. intros [i f] Hin%elem_of_indexed.
  by apply (Forall_lookup_1 _ _ _ _ Hfg Hin).
Qed.

Lemma uninstallLookups_spec a sub st :
  monitors st !! a = Some sub → Forall filter_ready (filterGroup sub) → no_empty st →
  looked_up st a sub →
  ∃ st', uninstallLookups a st = Ok st' ∧ same_subs st st' ∧ no_empty st' ∧
    ∀ sp r it, at_spot st' sp !! r = Some it ↔ at_spot st sp !! r = Some it ∧ r.1 ≠ a.
Proof.
  intros Ha Hready Hne Hlook. unfold uninstallLookups. rewrite Ha.
  destruct (uninstall_fold a (indexed (filterGroup sub)) st)
    as (st' & Hf & Hsame & Hne' & Hat);
    [apply NoDup_indexed|by apply indexed_ready|done| |].
  { intros sp [a' i] (Heq & f & Hf & Hsp). simpl in *. subst a'. apply Hlook.
    exists f. by rewrite <-elem_of_indexed. }
  exists st'. split_and!; [done..|]. intros sp [a' i] it. rewrite Hat. simpl.
  split; intros [Hit Hn]; (split; [done|]).
  - intros ->. apply Hn. split; [done|].
    destruct (proj1 (Hlook sp i) ltac:(by eexists)) as (f & Hi & Hsp).
    exists f. by rewrite elem_of_indexed.
  - by intros [Heq _].
Qed.

Lemma installLookups_spec a cur sub st :
  monitors st !! a = Some sub → Forall filter_ready (filterGroup sub) →
  (∀ sp i, at_spot st sp !! (a, i) = None) →
  ∃ st', installLookups a cur st = Ok st' ∧ same_subs st st' ∧
    (no_empty st → no_empty st') ∧
    ∀ sp r it, at_spot st' sp !! r = Some it ↔
      at_spot st sp !! r = Some it ∨
      r.1 = a ∧ it = mk_item_ a cur ∧
      ∃ f, filterGroup sub !! r.2 = Some f ∧ sp ∈ filter_spots f.
Proof.
  intros Ha Hready Hnone. unfold installLookups. rewrite Ha.
  destruct (install_fold a cur (indexed (filterGroup sub)) st)
    as (st' & Hf & Hsame & Hne & Hat);
    [apply NoDup_indexed|by apply indexed_ready|by intros; apply Hnone|].
  exists st'. split_and!; [done..|]. intros sp r it. rewrite Hat. unfold wants.
  setoid_rewrite elem_of_indexed. naive_solver.
Qed.
(** ** The invariant *)

(** Where a subscription is registered. *)
Definition sub_key (sub : Subscription) : N * bytes := (connId sub, SubId_sv (subId sub)).

Definition registered (st : ActiveMonitors) (key : N * bytes) (a : N) : Prop :=
  ∃ cm, conns st !! key.1 = Some cm ∧ cm !! key.2 = Some a.

(** [P] is the levId up to which events have been processed. *)
Record am_inv (P : N) (st : ActiveMonitors) : Prop := {
  ai_noempty : no_empty st;
  ai_conns : ∀ key a, registered st key a ↔
    ∃ sub, monitors st !! a = Some sub ∧ sub_key sub = key;
  ai_ready : ∀ a sub, monitors st !! a = Some sub → Forall filter_ready (filterGroup sub);
  ai_spots : ∀ sp r, is_Some (at_spot st sp !! r) ↔ ∃ sub f,
    monitors st !! r.1 = Some sub ∧ filterGroup sub !! r.2 = Some f ∧ sp ∈ filter_spots f;
  ai_items : ∀ sp r it, at_spot st sp !! r = Some it → mon it = r.1 ∧
    ∀ sub, monitors st !! r.1 = Some sub →
      (itemLatest it ≤ N.max (latestEventId sub) P)%N;
  ai_bound : ∀ c cm, conns st !! c = Some cm →
    (N.of_nat (base.size cm) ≤ relay__maxSubsPerConnection cfg)%N;
}.

(** The subscriptions, by key. *)
Definition live (st : ActiveMonitors) (sub : Subscription) : Prop :=
  ∃ a, monitors st !! a = Some sub.

Lemma am_inv_empty P : am_inv P am_empty.
Proof.
  constructor.
  - constructor; intros k; simpl; by rewrite lookup_empty.
  - intros key a. unfold registered. simpl. setoid_rewrite lookup_empty. naive_solver.
  - intros a sub. simpl. by rewrite lookup_empty.
  - intros sp r. simpl. setoid_rewrite lookup_empty.
    replace (at_spot am_empty sp) with (∅ : MonitorSet)
      by (destruct sp; simpl; by rewrite ?lookup_empty).
    rewrite lookup_empty. split; [by intros []|naive_solver].
  - intros sp r it. replace (at_spot am_empty sp) with (∅ : MonitorSet)
      by (destruct sp; simpl; by rewrite ?lookup_empty). by rewrite lookup_empty.
  - intros c cm. simpl. by rewrite lookup_empty.
Qed.

Lemma registered_inj P st key1 key2 a :
  am_inv P st → registered st key1 a → registered st key2 a → key1 = key2.
Proof.
  intros Hinv (sub1 & H1' & <-)%(ai_conns _ _ Hinv) (sub2 & H2' & <-)%(ai_conns _ _ Hinv).
  congruence.
Qed.

Lemma registered_fun st key a1 a2 : registered st key a1 → registered st key a2 → a1 = a2.
Proof. intros (? & ? & ?) (? & ? & ?). congruence. Qed.

Lemma findMonitor_spec st c s a :
  findMonitor st c s = Some a ↔ registered st (c, SubId_sv s) a.
Proof.
  unfold findMonitor, registered. simpl. destruct (conns st !! c); naive_solver.
Qed.

Lemma ai_looked_up P st a sub : am_inv P st → monitors st !! a = Some sub → looked_up st a sub.
Proof.
  intros Hinv Ha sp i. rewrite (ai_spots _ _ Hinv sp (a, i)). simpl. naive_solver.
Qed.

(** Removing the monitors at the addresses [gone] with their lookups and their
    registrations. *)
Lemma am_inv_remove P st st' (gone : N → Prop) :
  am_inv P st → no_empty st' →
  (∀ sp r it, at_spot st' sp !! r = Some it ↔ at_spot st sp !! r = Some it ∧ ¬ gone r.1) →
  (∀ a sub, monitors st' !! a = Some sub ↔ monitors st !! a = Some sub ∧ ¬ gone a) →
  (∀ key a, registered st' key a ↔ registered st key a ∧ ¬ gone a) →
  (∀ c cm, conns st' !! c = Some cm →
    (N.of_nat (base.size cm) ≤ relay__maxSubsPerConnection cfg)%N) →
  am_inv P st'.
Proof.
  intros Hinv Hne Hat Hmon Hreg Hbound. constructor; [done| | | | |done].
  - intros key a. rewrite Hreg, (ai_conns _ _ Hinv). setoid_rewrite Hmon. naive_solver.
  - intros a sub [Ha _]%Hmon. by eapply ai_ready.
  - intros sp r. unfold is_Some. setoid_rewrite Hat. setoid_rewrite Hmon.
    pose proof (ai_spots _ _ Hinv sp r) as Hsp. unfold is_Some in Hsp. split.
    + intros (it & Hit & Hg). destruct (proj1 Hsp (ex_intro _ it Hit)) as (sub & f & ? & ? & ?).
      by exists sub, f.
    + intros (sub & f & [Ha Hg] & Hf & Hin).
      destruct (proj2 Hsp) as [it Hit]; [by exists sub, f|]. by exists it.
  - intros sp r it [Hit _]%Hat. destruct (ai_items _ _ Hinv sp r it Hit) as [Hm Hl].
    split; [done|]. intros sub [Ha _]%Hmon. by apply Hl.
Qed.

(** Erasing [(c, s)] from the connections, and [c] when nothing is left. *)
Definition conns_without (m : gmap N (gmap bytes N)) (c : N) (s : bytes)
    : gmap N (gmap bytes N) :=
  let cm := delete s (default ∅ (m !! c)) in
  if decide (cm = ∅) then delete c m else <[c := cm]> m.

Lemma conns_without_lookup m c s c' s' (a : N) :
  (∃ cm, conns_without m c s !! c' = Some cm ∧ cm !! s' = Some a) ↔
  (∃ cm, m !! c' = Some cm ∧ cm !! s' = Some a) ∧ (c', s') ≠ (c, s).
Proof.
  unfold conns_without. set (cm0 := default ∅ (m !! c)).
  assert (∀ cm, m !! c = Some cm → cm = cm0) as Hcm0.
  { intros cm Hcm. unfold cm0. by rewrite Hcm. }
  case_decide as Hemp.
  - rewrite lookup_delete. case_decide as Hcc; [subst c'|naive_solver].
    split; [naive_solver|]. intros [(cm & Hcm & Hs) Hne]. apply Hcm0 in Hcm as ->.
    assert (delete s cm0 !! s' = Some a) as Hx
      by (rewrite lookup_delete_ne by congruence; done).
    by rewrite Hemp, lookup_empty in Hx.
  - rewrite lookup_insert. case_decide as Hcc; [subst c'|naive_solver]. split.
    + intros (cm & [= <-] & Hs). apply lookup_delete_Some in Hs as [Hn Hs].
      split; [|congruence]. unfold cm0 in Hs.
      destruct (m !! c) as [cm|] eqn:Hm; [by exists cm|].
      simpl in Hs. by rewrite lookup_empty in Hs.
    + intros [(cm & Hcm & Hs) Hne]. apply Hcm0 in Hcm as ->. eexists. split; [done|].
      apply lookup_delete_Some. split; [congruence|done].
Qed.

Lemma conns_without_bound m c s (n : N) :
  (∀ c' cm, m !! c' = Some cm → (N.of_nat (base.size cm) ≤ n)%N) →
  ∀ c' cm, conns_without m c s !! c' = Some cm → (N.of_nat (base.size cm) ≤ n)%N.
Proof.
  intros Hb c' cm. unfold conns_without. case_decide.
  - rewrite lookup_delete. case_decide; [done|]. apply Hb.
  - rewrite lookup_insert. case_decide; [|apply Hb]. intros [= <-].
    rewrite map_size_delete. destruct (m !! c) as [cm0|] eqn:Hm; simpl.
    + specialize (Hb _ _ Hm). destruct (cm0 !! s); unfold Datatypes.id; lia.
    + rewrite lookup_empty, map_size_empty. unfold Datatypes.id. lia.
Qed.

Lemma removeSub_found P st c s a0 :
  am_inv P st → findMonitor st c s = Some a0 →
  ∃ st1, removeSub st c s = Ok (set_conns (set_monitors st1 (delete a0 (monitors st)))
      (conns_without (conns st) c (SubId_sv s))) ∧ no_empty st1 ∧
    ∀ sp r it, at_spot st1 sp !! r = Some it ↔ at_spot st sp !! r = Some it ∧ r.1 ≠ a0.
Proof.
  intros Hinv Hfind. unfold removeSub. rewrite Hfind. apply findMonitor_spec in Hfind.
  destruct (proj1 (ai_conns _ _ Hinv _ _) Hfind) as (sub0 & Ha0 & Hkey).
  destruct (uninstallLookups_spec a0 sub0 st Ha0) as (st1 & -> & [Hc1 Hm1] & Hne1 & Hat1);
    [by eapply ai_ready|apply Hinv|by eapply ai_looked_up|]. simpl.
  exists st1. rewrite Hc1, Hm1. done.
Qed.

Lemma at_spot_set_conns st x sp : at_spot (set_conns st x) sp = at_spot st sp.
Proof. by destruct sp. Qed.

Lemma at_spot_set_monitors st x sp : at_spot (set_monitors st x) sp = at_spot st sp.
Proof. by destruct sp. Qed.

Lemma removeSub_spec P st c s :
  am_inv P st →
  ∃ st', removeSub st c s = Ok st' ∧ am_inv P st' ∧
    (∀ a sub, monitors st' !! a = Some sub ↔
      monitors st !! a = Some sub ∧ sub_key sub ≠ (c, SubId_sv s)) ∧
    (∀ key a, registered st' key a ↔ registered st key a ∧ key ≠ (c, SubId_sv s)).
Proof.
  intros Hinv. destruct (findMonitor st c s) as [a0|] eqn:Hfind.
  - destruct (removeSub_found P st c s a0 Hinv Hfind) as (st1 & -> & Hne & Hat).
    apply findMonitor_spec in Hfind. eexists. split; [done|].
    assert (∀ a sub, monitors st !! a = Some sub →
      a ≠ a0 ↔ sub_key sub ≠ (c, SubId_sv s)) as Hgone.
    { intros a sub Ha. assert (registered st (sub_key sub) a) as Hr
        by (apply (ai_conns _ _ Hinv); by exists sub).
      split; intros Hn Heq; apply Hn.
      - rewrite Heq in Hr. by eapply registered_fun.
      - subst a. by eapply registered_inj. }
    assert (∀ key a, registered st key a → a ≠ a0 ↔ key ≠ (c, SubId_sv s)) as Hgone'.
    { intros key a Hr. split; intros Hn Heq; apply Hn; subst.
      - by eapply registered_fun.
      - by eapply registered_inj. }
    split; [|split].
    + apply (am_inv_remove P st _ (λ a, a = a0)); [done| | | | |].
      * destruct Hne. by constructor.
      * intros sp r it. by rewrite at_spot_set_conns, at_spot_set_monitors, Hat.
      * intros a sub. simpl. rewrite lookup_delete_Some. naive_solver.
      * intros [c' s'] a. unfold registered at 1. simpl. rewrite conns_without_lookup.
        split; intros [Hr Hn]; (split; [exact Hr|]).
        -- exact (proj2 (Hgone' (c', s') a Hr) Hn).
        -- exact (proj1 (Hgone' (c', s') a Hr) Hn).
      * apply conns_without_bound, (ai_bound _ _ Hinv).
    + intros a sub. simpl. rewrite lookup_delete_Some.
      split; intros [Hx Hy].
      * split; [done|]. by apply (proj1 (Hgone a sub Hy)).
      * split; [|done]. intros <-. by apply (proj2 (Hgone a0 sub Hx)).
    + intros [c' s'] a. unfold registered at 1. simpl. by rewrite conns_without_lookup.
  - exists st. unfold removeSub. rewrite Hfind. split; [done|].
    assert (∀ a, ¬ registered st (c, SubId_sv s) a) as Hno.
    { intros a Hr%findMonitor_spec. congruence. }
    split_and!; [done| |].
    + intros a sub. split; [|naive_solver]. intros Ha. split; [done|]. intros Hk.
      apply (Hno a), (ai_conns _ _ Hinv). by exists sub.
    + intros key a. split; [|naive_solver]. intros Hr. split; [done|]. intros ->. by eapply Hno.
Qed.
(** ** Closing a connection *)

Lemma uninstall_all l st :
  NoDup l.*2 → no_empty st →
  (∀ a, a ∈ l.*2 → ∃ sub, monitors st !! a = Some sub ∧
    Forall filter_ready (filterGroup sub) ∧ looked_up st a sub) →
  ∃ st', foldM (λ st '((_, a) : bytes * N), uninstallLookups a st) st l = Ok st' ∧
    same_subs st st' ∧ no_empty st' ∧
    ∀ sp r it, at_spot st' sp !! r = Some it ↔ at_spot st sp !! r = Some it ∧ r.1 ∉ l.*2.
Proof.
  revert st. induction l as [|[s a] l IH]; intros st Hnd Hne Hall; simpl.
  { exists st. split_and!; try done. set_solver. }
  csimpl in *. apply NoDup_cons in Hnd as [Hnin Hnd].
  destruct (Hall a) as (sub & Ha & Hready & Hlook); [constructor|].
  destruct (uninstallLookups_spec a sub st Ha Hready Hne Hlook)
    as (st1 & -> & Hsame & Hne1 & Hat1). simpl.
  destruct (IH st1 Hnd Hne1) as (st' & Hf & Hsame' & Hne' & Hat').
  { intros a' Ha'. destruct (Hall a') as (sub' & Hm' & Hr' & Hl'); [by constructor|].
    destruct Hsame as [_ ->]. exists sub'. split_and!; [done|done|].
    intros sp i. rewrite <-(Hl' sp i). unfold is_Some. setoid_rewrite Hat1. simpl.
    assert (a' ≠ a) by congruence. naive_solver. }
  exists st'. split_and!; [done|by eapply same_subs_trans|done|].
  intros sp r it. rewrite Hat', Hat1, not_elem_of_cons. naive_solver.
Qed.

Lemma closeConn_spec P st c :
  am_inv P st →
  ∃ st', closeConn st c = Ok st' ∧ am_inv P st' ∧
    (∀ sub, live st' sub ↔ live st sub ∧ connId sub ≠ c).
Proof.
  intros Hinv. unfold closeConn. destruct (conns st !! c) as [cm|] eqn:Hcm.
  - assert (∀ s a, (s, a) ∈ map_to_list cm ↔ registered st (c, s) a) as Hin.
    { intros s a. rewrite elem_of_map_to_list. unfold registered. simpl. naive_solver. }
    assert (∀ a, a ∈ (map_to_list cm).*2 ↔
      ∃ sub, monitors st !! a = Some sub ∧ connId sub = c) as Haddr.
    { intros a. rewrite list_elem_of_fmap. split.
      - intros ([s a'] & -> & (sub & Ha & Hk)%Hin%(ai_conns _ _ Hinv)). simpl.
        exists sub. split; [done|]. by injection Hk.
      - intros (sub & Ha & Hc). exists (SubId_sv (subId sub), a). split; [done|].
        apply Hin, (ai_conns _ _ Hinv). exists sub. split; [done|]. unfold sub_key. by rewrite Hc. }
    destruct (uninstall_all (map_to_list cm) st) as (st1 & -> & [Hc1 Hm1] & Hne1 & Hat1).
    + apply (NoDup_fmap_2_strong snd); [|apply NoDup_map_to_list].
      intros [s1 a1] [s2 a2] Hin1%Hin Hin2%Hin Heq. simpl in Heq. subst a2.
      pose proof (registered_inj _ _ _ _ _ Hinv Hin1 Hin2). congruence.
    + apply Hinv.
    + intros a (sub & Ha & _)%Haddr. exists sub. split; [done|].
      split; [by eapply ai_ready|by eapply ai_looked_up].
    + simpl. eexists. split; [done|].
      assert (∀ a sub, filter (λ p, p.1 ∉ (map_to_list cm).*2) (monitors st1) !! a = Some sub ↔
        monitors st !! a = Some sub ∧ a ∉ (map_to_list cm).*2) as Hmon.
      { intros a sub. by rewrite map_lookup_filter_Some, Hm1. }
      split.
      * apply (am_inv_remove P st _ (λ a, a ∈ (map_to_list cm).*2)); [done| | |done| |].
        -- destruct Hne1. by constructor.
        -- intros sp r it. by rewrite at_spot_set_conns, at_spot_set_monitors, Hat1.
        -- intros [c' s'] a. unfold registered. simpl. rewrite Hc1, lookup_delete.
           case_decide as Hcc; [subst c'|].
           ++ split; [naive_solver|]. intros [Hr Hn]. destruct Hn.
              apply list_elem_of_fmap. exists (s', a). split; [done|]. by apply Hin.
           ++ split; [|naive_solver]. intros Hr. split; [done|].
              intros (sub & Ha & Hc)%Haddr.
              assert (registered st (c', s') a) as (sub' & Ha' & Hk)%(ai_conns _ _ Hinv) by done.
              simplify_eq. injection Hk. congruence.
        -- intros c' cm'. simpl. rewrite Hc1, lookup_delete. case_decide; [done|].
           apply (ai_bound _ _ Hinv).
      * intros sub. unfold live. simpl. setoid_rewrite Hmon. setoid_rewrite Haddr. split.
        -- intros (a & Ha & Hn). split; [by exists a|]. intros Hc. apply Hn. by exists sub.
        -- intros [[a Ha] Hc]. exists a. split; [done|]. intros (sub' & Ha' & Hc').
           congruence.
  - exists st. split; [done|]. split; [done|]. intros sub. split; [|naive_solver].
    intros [a Ha]. split; [by exists a|]. intros Hc.
    assert (registered st (sub_key sub) a) as (cm & Hcm' & _)
      by (apply (ai_conns _ _ Hinv); by exists sub).
    simpl in Hcm'. congruence.
Qed.
(** ** Adding a subscription *)

(** The part of [addSub] after an existing subscription was removed. *)
Definition addSub_new (st : ActiveMonitors) (sub : Subscription) (currEventId : N)
    : result (ActiveMonitors * bool) :=
  let connMonitors := default ∅ (conns st !! connId sub) in
  let st := set_conns st (<[connId sub := connMonitors]> (conns st)) in
  if (relay__maxSubsPerConnection cfg <=? N.of_nat (base.size connMonitors))%N
  then Ok (st, false)
  else
    let a := base.fresh (dom (monitors st)) in
    let st := set_monitors st (<[a := sub]> (monitors st)) in
    let st := set_conns st
      (<[connId sub := <[SubId_sv (subId sub) := a]> connMonitors]> (conns st)) in
    st ← installLookups a currEventId st;
    Ok (st, true).

Lemma addSub_eq st sub cur :
  addSub cfg st sub cur =
  (_ ← throw_if (negb (latestEventId sub =? cur)%N) (herr #"sub not up to date");
   st ← removeSub st (connId sub) (subId sub);
   addSub_new st sub cur).
Proof.
  unfold addSub, addSub_new. destruct (throw_if _ _); simpl; [|done].
  destruct (findMonitor st (connId sub) (subId sub)) eqn:Hf; [done|].
  unfold removeSub. by rewrite Hf.
Qed.

(** A full connection: only an empty entry may appear. *)
Lemma am_inv_touch P st c :
  am_inv P st → am_inv P (set_conns st (<[c := default ∅ (conns st !! c)]> (conns st))).
Proof.
  intros Hinv.
  assert (∀ key a, registered (set_conns st (<[c := default ∅ (conns st !! c)]> (conns st)))
    key a ↔ registered st key a) as Hreg.
  { intros [c' s'] a. unfold registered. simpl. rewrite lookup_insert. case_decide; [|done].
    subst c'. destruct (conns st !! c) as [cm|]; simpl; [done|].
    split; [|naive_solver]. intros (cm & [= <-] & Hs). by rewrite lookup_empty in Hs. }
  apply (am_inv_remove P st _ (λ _, False)); [done| | |naive_solver| |].
  - destruct (ai_noempty _ _ Hinv). by constructor.
  - intros sp r it. rewrite at_spot_set_conns. naive_solver.
  - intros key a. rewrite Hreg. naive_solver.
  - intros c' cm. simpl. rewrite lookup_insert. case_decide; [|apply (ai_bound _ _ Hinv)].
    intros [= <-]. destruct (conns st !! c) as [cm|] eqn:Hcm; simpl.
    + by apply (ai_bound _ _ Hinv c).
    + rewrite map_size_empty. lia.
Qed.

Lemma addSub_new_spec P st sub :
  am_inv P st → Forall filter_ready (filterGroup sub) →
  (∀ a, ¬ registered st (sub_key sub) a) →
  ∃ st' b, addSub_new st sub (latestEventId sub) = Ok (st', b) ∧ am_inv P st' ∧
    (b = false → N.of_nat (base.size (default ∅ (conns st' !! connId sub))) =
                 relay__maxSubsPerConnection cfg) ∧
    ∀ sub', live st' sub' ↔ live st sub' ∨ b = true ∧ sub' = sub.
Proof.
  intros Hinv Hready Hno. unfold addSub_new. set (cm := default ∅ (conns st !! connId sub)).
  destruct (N.leb_spec (relay__maxSubsPerConnection cfg) (N.of_nat (base.size cm))) as [Hfull|Hroom].
  { eexists _, false. split; [done|]. split; [by apply am_inv_touch|].
    split; [|intros sub'; unfold live; simpl; naive_solver]. intros _. simpl.
    pose proof (ai_bound _ _ (am_inv_touch P st (connId sub) Hinv) (connId sub) cm) as Hb.
    simpl in Hb. rewrite lookup_insert_eq in Hb |- *. specialize (Hb eq_refl). simpl.
    fold cm. lia. }
  set (a := base.fresh (dom (monitors st))).
  assert (monitors st !! a = None) as Hfresh.
  { apply not_elem_of_dom. unfold a. apply is_fresh. }
  simpl dom. change (base.fresh _) with a. set (st1 := set_conns (set_monitors _ _) _).
  assert (∀ sp, at_spot st1 sp = at_spot st sp) as Hsp1 by by intros [].
  assert (∀ sp i, at_spot st1 sp !! (a, i) = None) as Hnone.
  { intros sp i. rewrite Hsp1. destruct (at_spot st sp !! (a, i)) eqn:E; [|done].
    destruct (proj1 (ai_spots _ _ Hinv sp (a, i)) ltac:(by eexists)) as (? & ? & Hm & _).
    simpl in Hm. congruence. }
  destruct (installLookups_spec a (latestEventId sub) sub st1)
    as (st' & -> & [Hc' Hm'] & Hne' & Hat'); [simpl; by rewrite lookup_insert_eq|done|done|].
  simpl. exists st', true. split; [done|].
  assert (∀ b sub', monitors st' !! b = Some sub' ↔
    b = a ∧ sub' = sub ∨ monitors st !! b = Some sub') as Hmon.
  { intros b sub'. rewrite Hm'. simpl. rewrite lookup_insert_Some. naive_solver. }
  assert (∀ key b, registered st' key b ↔
    key = sub_key sub ∧ b = a ∨ registered st key b) as Hreg.
  { intros [c s] b. unfold registered, sub_key. rewrite Hc'. simpl.
    rewrite insert_insert_eq, lookup_insert. case_decide as Hcc; [subst c|naive_solver].
    assert ((∃ cm0, conns st !! connId sub = Some cm0 ∧ cm0 !! s = Some b) ↔ cm !! s = Some b)
      as Hcm.
    { unfold cm. destruct (conns st !! connId sub); simpl; [naive_solver|].
      rewrite lookup_empty. naive_solver. }
    rewrite Hcm. split.
    - intros (cm1 & [= <-] & Hs). apply lookup_insert_Some in Hs. naive_solver.
    - intros [[[= ->] ->]|Hs]; (eexists; split; [done|]).
      + by rewrite lookup_insert_eq.
      + rewrite lookup_insert_ne; [done|]. intros <-. apply (Hno b).
        unfold registered, sub_key. simpl. by apply Hcm. }
  split; [|split; [done|intros sub'; unfold live; setoid_rewrite Hmon; naive_solver]].
  constructor.
  - apply Hne'. destruct (ai_noempty _ _ Hinv). by constructor.
  - intros key b. rewrite Hreg, (ai_conns _ _ Hinv). setoid_rewrite Hmon. naive_solver.
  - intros b sub' [[-> ->]|Hb]%Hmon; [done|by eapply ai_ready].
  - intros sp r. unfold is_Some. setoid_rewrite Hat'. setoid_rewrite Hmon. rewrite Hsp1.
    pose proof (ai_spots _ _ Hinv sp r) as Hold. unfold is_Some in Hold. naive_solver.
  - intros sp r it [Hit|(Hra & -> & _)]%Hat'.
    + rewrite Hsp1 in Hit. destruct (ai_items _ _ Hinv sp r it Hit) as [Hmi Hl].
      split; [done|]. intros sub' [[Hb ->]|Hb]%Hmon; [|by apply Hl].
      destruct (proj1 (ai_spots _ _ Hinv sp r) ltac:(by eexists)) as (? & ? & Hm0 & _).
      congruence.
    + split; [done|]. intros sub' [[_ ->]|Hb]%Hmon; [simpl; lia|congruence].
  - intros c cm'. rewrite Hc'. simpl. rewrite insert_insert_eq, lookup_insert.
    case_decide; [|apply (ai_bound _ _ Hinv)]. intros [= <-].
    rewrite map_size_insert. destruct (cm !! _); unfold Datatypes.id; lia.
Qed.

Lemma addSub_spec P st sub :
  am_inv P st → Forall filter_ready (filterGroup sub) →
  ∃ st' b, addSub cfg st sub (latestEventId sub) = Ok (st', b) ∧ am_inv P st' ∧
    (b = false → N.of_nat (base.size (default ∅ (conns st' !! connId sub))) =
                 relay__maxSubsPerConnection cfg) ∧
    ∀ sub', live st' sub' ↔
      live st sub' ∧ sub_key sub' ≠ sub_key sub ∨ b = true ∧ sub' = sub.
Proof.
  intros Hinv Hready. rewrite addSub_eq, N.eqb_refl. simpl.
  destruct (removeSub_spec P st (connId sub) (subId sub) Hinv) as (st1 & -> & Hinv1 & Hm1 & Hr1).
  simpl. destruct (addSub_new_spec P st1 sub Hinv1 Hready) as (st' & b & -> & Hinv' & Hfull & Hlive).
  { intros a [_ Hn]%Hr1. by apply Hn. }
  exists st', b. split_and!; [done..|]. intros sub'. rewrite Hlive.
  unfold live. setoid_rewrite Hm1. fold (sub_key sub). naive_solver.
Qed.
End ops.
