(* ===== verification/MonitorTheorems.v ===== *)
(** Correctness of [ActiveMonitors::process].

    An event is delivered to exactly the live subscriptions that have not seen
    its levId and match it, each once, whatever order the hash sets are walked
    in; the subscriptions notified are marked as having seen it, and the
    invariant holds for the levIds processed so far. *)

From S2P Require Import Prelude Bytes Json Hex PackedEvent FilterSets Filters Config EventParse.
From S2P Require Import Subscription Monitors MonitorLookups MonitorInv.

(** ** The walk over an ordered table *)

Lemma take_while_head {K} (p : K → bool) l k :
  NoDup (k :: l) → (∀ x, p x = true ↔ x = k) → take_while p (k :: l) = [k].
Proof.
  intros [Hnin _]%NoDup_cons Hp. simpl. rewrite (proj2 (Hp k) eq_refl). f_equal.
  destruct l as [|x l]; [done|]. simpl. destruct (p x) eqn:E; [|done].
  apply Hp in E as ->. destruct Hnin. constructor.
Qed.

Lemma exact_keys_spec {K} `{Countable K} (le : K → K → Prop) `{!RelDecision le}
    `{!Total le, !Transitive le, !AntiSymm (=) le} (m : gmap K MonitorSet) key :
  exact_keys le m key = if decide (is_Some (m !! key)) then [key] else [].
Proof.
  unfold exact_keys.
  set (l := rev _). assert (∀ k, k ∈ l ↔ le k key ∧ is_Some (m !! k)) as Hin.
  { intros k. unfold l. rewrite list_elem_of_In, <-in_rev, <-list_elem_of_In.
    rewrite list_elem_of_filter, merge_sort_Permutation, list_elem_of_fmap. unfold is_Some.
    setoid_rewrite <-elem_of_map_to_list. split.
    - intros [Hle ([k' x] & -> & Hx)]. split; [done|by exists x].
    - intros [Hle [x Hx]]. split; [done|by exists (k, x)]. }
  assert (NoDup l) as Hnd.
  { unfold l. apply NoDup_ListNoDup, NoDup_rev, NoDup_ListNoDup.
    apply NoDup_filter. rewrite merge_sort_Permutation. apply NoDup_fst_map_to_list. }
  assert (StronglySorted (λ x y, le y x) l) as Hso.
  { unfold l. apply StronglySorted_rev', StronglySorted_filter'.
    by apply StronglySorted_merge_sort. }
  assert (∀ x, bool_decide (x = key) = true ↔ x = key) as Hp
    by (intros x; apply bool_decide_eq_true).
  assert (le key key) as Hrefl by by destruct (total le key key).
  case_decide as Hkey.
  - assert (key ∈ l) as Hkl by by apply Hin.
    destruct l as [|x l']; [by apply not_elem_of_nil in Hkl|].
    assert (x = key) as ->; [|by apply take_while_head].
    apply elem_of_cons in Hkl as [->|Hkl]; [done|].
    inversion_clear Hso as [|? ? _ Hall]. rewrite List.Forall_forall in Hall.
    apply (anti_symm le); [by apply Hin; constructor|by apply Hall, list_elem_of_In].
  - destruct l as [|x l']; [done|]. simpl. case_bool_decide as Hx; [|done]. subst x.
    destruct Hkey. apply Hin. constructor.
Qed.

(** ** Progress of a walk *)

Section process.
Context `{!NativeU64} (cfg : Config).
Context (iter : MonitorSet → list (filterRef * MonitorItem)).
Context (iter_perm : ∀ ms, iter ms ≡ₚ map_to_list ms).
Context (P L : N) (e : event) (st0 : ActiveMonitors).
Context (He : wf_event e) (HPL : (P < L)%N) (Hinv0 : am_inv cfg P st0).

Abbreviation heap_t := (gmap N Subscription).

Definition group_sem (sub : Subscription) : Prop :=
  ∃ f, f ∈ filterGroup sub ∧ filter_sem f e.

(** The heap as it evolves: a subscription is as it was, or has been notified. *)
Definition heap_rel (h : heap_t) : Prop := ∀ a,
  match monitors st0 !! a with
  | None => h !! a = None
  | Some sub => h !! a = Some sub ∨
      h !! a = Some (set_latestEventId sub L) ∧ (latestEventId sub < L)%N ∧ group_sem sub
  end.

(** The recipients so far, through the addresses notified. *)
Definition recipients_rel (h : heap_t) (rc : list ConnIdSubId) : Prop :=
  ∃ al, NoDup al ∧
    Forall2 (λ a p, ∃ sub, monitors st0 !! a = Some sub ∧ p = (connId sub, subId sub)) al rc ∧
    ∀ a, a ∈ al ↔ ∃ sub, monitors st0 !! a = Some sub ∧ (latestEventId sub < L)%N ∧
      h !! a = Some (set_latestEventId sub L).

(** The filter behind [r] needs no further look: its subscription has seen the
    event or the filter does not match. *)
Definition settled (h : heap_t) (r : filterRef) : Prop :=
  ∃ sub, h !! r.1 = Some sub ∧
    ((L ≤ latestEventId sub)%N ∨
     ∀ f, filterGroup sub !! r.2 = Some f → ¬ filter_sem f e).

Definition item_rel (h : heap_t) (r : filterRef) (it : MonitorItem) : Prop :=
  mon it = r.1 ∧ ((itemLatest it < L)%N ∨ settled h r) ∧
  ∃ sub, h !! r.1 = Some sub ∧ (itemLatest it ≤ N.max (latestEventId sub) L)%N.

Definition set_rel (h : heap_t) (sp : spot) (ms : MonitorSet) : Prop :=
  ∀ r, match at_spot st0 sp !! r with
       | None => ms !! r = None
       | Some _ => ∃ it, ms !! r = Some it ∧ item_rel h r it
       end.

(** Subscriptions only become more up to date. *)
Definition heap_le (h h' : heap_t) : Prop := ∀ a sub, h !! a = Some sub →
  ∃ sub', h' !! a = Some sub' ∧ filterGroup sub' = filterGroup sub ∧
    (latestEventId sub ≤ latestEventId sub')%N.

Lemma heap_le_refl h : heap_le h h.
Proof. intros a sub Ha. exists sub. split_and!; [done|done|lia]. Qed.

Lemma heap_le_trans h1 h2 h3 : heap_le h1 h2 → heap_le h2 h3 → heap_le h1 h3.
Proof.
  intros H12 H23 a sub Ha. destruct (H12 a sub Ha) as (sub2 & H2 & Hf2 & Hl2).
  destruct (H23 a sub2 H2) as (sub3 & H3 & Hf3 & Hl3).
  exists sub3. split_and!; [done|congruence|lia].
Qed.

Lemma settled_mono h h' r : heap_le h h' → settled h r → settled h' r.
Proof.
  intros Hle (sub & Ha & Hs). destruct (Hle _ _ Ha) as (sub' & Ha' & Hfg & Hl).
  exists sub'. split; [done|]. rewrite Hfg. destruct Hs as [Hs|Hs]; [left; lia|by right].
Qed.

Lemma item_rel_mono h h' r it : heap_le h h' → item_rel h r it → item_rel h' r it.
Proof.
  intros Hle (Hm & Hl & sub & Ha & Hmax). split; [done|]. split.
  - destruct Hl as [Hl|Hl]; [by left|right; by eapply settled_mono].
  - destruct (Hle _ _ Ha) as (sub' & Ha' & _ & Hl'). exists sub'. split; [done|lia].
Qed.

Lemma set_rel_mono h h' sp ms : heap_le h h' → set_rel h sp ms → set_rel h' sp ms.
Proof.
  intros Hle Hms r. specialize (Hms r). destruct (at_spot st0 sp !! r); [|done].
  destruct Hms as (it & Hit & Hr). exists it. split; [done|by eapply item_rel_mono].
Qed.

(** The filter behind an installed pointer. *)
Lemma heap_filter h sp r :
  heap_rel h → is_Some (at_spot st0 sp !! r) →
  ∃ sub f, h !! r.1 = Some sub ∧ filterGroup sub !! r.2 = Some f ∧ filter_ready f ∧
    deref_filter h r = Ok f ∧
    ((latestEventId sub < L)%N → monitors st0 !! r.1 = Some sub).
Proof.
  intros Hh Hr. apply (ai_spots _ _ _ Hinv0) in Hr as (sub & f & Ha & Hf & _).
  assert (filter_ready f) as Hready.
  { pose proof (ai_ready _ _ _ Hinv0 _ _ Ha) as Hall. by apply (Forall_lookup_1 _ _ _ _ Hall Hf). }
  specialize (Hh r.1). rewrite Ha in Hh. unfold deref_filter.
  destruct Hh as [Hh|(Hh & Hlt & _)]; rewrite Hh.
  - exists sub, f. simpl. rewrite Hf. done.
  - exists (set_latestEventId sub L), f. simpl. rewrite Hf. split_and!; [done..|lia].
Qed.

(** One notification. *)
Lemma notify h rc a sub :
  heap_rel h → recipients_rel h rc → monitors st0 !! a = Some sub → h !! a = Some sub →
  (latestEventId sub < L)%N → group_sem sub →
  heap_rel (<[a := set_latestEventId sub L]> h) ∧
  recipients_rel (<[a := set_latestEventId sub L]> h) (rc ++ [(connId sub, subId sub)]) ∧
  heap_le h (<[a := set_latestEventId sub L]> h).
Proof.
  intros Hh (al & Hnd & Hal & Hin) Ha Hha Hlt Hg. split_and!.
  - intros b. specialize (Hh b). destruct (decide (b = a)) as [->|Hne].
    + rewrite Ha, lookup_insert_eq. by right.
    + by rewrite lookup_insert_ne.
  - assert (a ∉ al) as Hnin.
    { intros (sub' & _ & _ & Hh')%Hin. rewrite Hha in Hh'. injection Hh' as Heq.
      rewrite Heq in Hlt. simpl in Hlt. lia. }
    exists (al ++ [a]). split_and!.
    + apply NoDup_app. split_and!; [done|set_solver|apply NoDup_singleton].
    + apply Forall2_app; [done|]. constructor; [by exists sub|constructor].
    + intros b. rewrite elem_of_app, Hin, list_elem_of_singleton. split.
      * intros [(sub' & Hb & Hl & Hhb)| ->].
        -- exists sub'. split_and!; [done|done|]. destruct (decide (b = a)) as [->|Hne].
           ++ simplify_eq. by rewrite lookup_insert_eq.
           ++ by rewrite lookup_insert_ne.
        -- exists sub. by rewrite lookup_insert_eq.
      * intros (sub' & Hb & Hl & Hhb). destruct (decide (b = a)) as [->|Hne]; [by right|].
        rewrite lookup_insert_ne in Hhb by done. left. by exists sub'.
  - intros b sub' Hb. destruct (decide (b = a)) as [->|Hne].
    + simplify_eq. exists (set_latestEventId sub L). rewrite lookup_insert_eq.
      split_and!; [done|done|simpl; lia].
    + exists sub'. rewrite lookup_insert_ne by done. split_and!; [done|done|lia].
Qed.
(** ** The walk over a set *)

(** An entry that the walk meets. *)
Definition entry_ok (h : heap_t) (sp : spot) (en : filterRef * MonitorItem) : Prop :=
  is_Some (at_spot st0 sp !! en.1) ∧ item_rel h en.1 en.2.

Lemma process_item_spec sp ms h rc en :
  heap_rel h → recipients_rel h rc → set_rel h sp ms → entry_ok h sp en →
  ∃ ms' h' rc', process_item L (encode e) (ms, h, rc) en = Ok (ms', h', rc') ∧
    heap_rel h' ∧ recipients_rel h' rc' ∧ set_rel h' sp ms' ∧ heap_le h h' ∧
    settled h' en.1.
Proof.
  destruct en as [r it]. intros Hh Hrc Hms [Hr (Hm & Hit & sub' & Hsub' & Hmax)]. simpl in *.
  destruct (heap_filter h sp r Hh Hr) as (sub & f & Ha & Hf & Hready & Hd & Hst0).
  rewrite Hsub' in Ha. injection Ha as <-. unfold process_item. rewrite Hm, Hsub'.
  destruct ((L <=? itemLatest it)%N || (L <=? latestEventId sub')%N) eqn:Eskip.
  { exists ms, h, rc. split_and!; [done..|apply heap_le_refl|].
    apply orb_true_iff in Eskip as [Hl%N.leb_le|Hl%N.leb_le].
    - destruct Hit as [?|?]; [lia|done].
    - exists sub'. split; [done|by left]. }
  apply orb_false_iff in Eskip as [_ Hlt%N.leb_gt].
  rewrite Hd. simpl. rewrite view_encode by done. simpl.
  destruct (doesMatch_sem f e (fr_wf f Hready) He) as (b & Hb & Hbs).
  rewrite Hb. simpl. specialize (Hst0 Hlt).
  (* the walked set after the item was marked *)
  assert (∀ h', heap_le h h' → settled h' r →
    (∃ sub2, h' !! r.1 = Some sub2) →
    set_rel h' sp (<[r := mk_item_ r.1 L]> ms)) as Hset.
  { intros h' Hle Hs [sub2 Hsub2] r'. specialize (Hms r').
    destruct (at_spot st0 sp !! r') as [it0|] eqn:E.
    - destruct (decide (r' = r)) as [->|Hne].
      + exists (mk_item_ r.1 L). rewrite lookup_insert_eq. split; [done|].
        split; [done|]. split; [by right|]. exists sub2. simpl. split; [done|lia].
      + rewrite lookup_insert_ne by done. destruct Hms as (it' & Hit' & Hr').
        exists it'. split; [done|by eapply item_rel_mono].
    - rewrite lookup_insert_ne; [done|]. intros ->. rewrite E in Hr. by destruct Hr. }
  destruct b.
  - destruct (notify h rc r.1 sub' Hh Hrc Hst0 Hsub' Hlt) as (Hh' & Hrc' & Hle).
    { exists f. split; [by eapply list_elem_of_lookup_2|by apply Hbs]. }
    assert (settled (<[r.1 := set_latestEventId sub' L]> h) r) as Hs.
    { exists (set_latestEventId sub' L). rewrite lookup_insert_eq.
      split; [done|left; simpl; lia]. }
    eexists _, _, _. split; [done|]. split_and!; try done.
    apply Hset; [done..|]. eexists. apply lookup_insert_eq.
  - assert (settled h r) as Hs.
    { exists sub'. split; [done|]. right. intros g Hg. rewrite Hf in Hg.
      injection Hg as <-. by intros ?%Hbs. }
    exists (<[r := mk_item_ r.1 L]> ms), h, rc.
    split_and!; [done|done|done| |apply heap_le_refl|done].
    apply Hset; [apply heap_le_refl|done|by exists sub'].
Qed.

Lemma process_entries sp l ms h rc :
  heap_rel h → recipients_rel h rc → set_rel h sp ms → Forall (entry_ok h sp) l →
  ∃ ms' h' rc', foldM (process_item L (encode e)) (ms, h, rc) l = Ok (ms', h', rc') ∧
    heap_rel h' ∧ recipients_rel h' rc' ∧ set_rel h' sp ms' ∧ heap_le h h' ∧
    ∀ en, en ∈ l → settled h' en.1.
Proof.
  revert ms h rc. induction l as [|en l IH]; intros ms h rc Hh Hrc Hms Hl; simpl.
  { exists ms, h, rc. split_and!; [done..|apply heap_le_refl|set_solver]. }
  apply Forall_cons in Hl as [Hen Hl].
  destruct (process_item_spec sp ms h rc en Hh Hrc Hms Hen)
    as (ms1 & h1 & rc1 & -> & Hh1 & Hrc1 & Hms1 & Hle1 & Hs1). simpl.
  destruct (IH ms1 h1 rc1 Hh1 Hrc1 Hms1) as (ms' & h' & rc' & Hf & Hh' & Hrc' & Hms' & Hle' & Hs').
  { eapply Forall_impl; [done|]. intros en' [Hr Hit]. split; [done|by eapply item_rel_mono]. }
  exists ms', h', rc'. split_and!; [done..|by eapply heap_le_trans|].
  intros en' [->|Hin]%elem_of_cons; [by eapply settled_mono|by apply Hs'].
Qed.

(** Every filter installed at the spot is settled. *)
Definition spot_settled (h : heap_t) (sp : spot) : Prop :=
  ∀ r, is_Some (at_spot st0 sp !! r) → settled h r.

Lemma spot_settled_mono h h' sp : heap_le h h' → spot_settled h sp → spot_settled h' sp.
Proof. intros Hle Hs r Hr. by eapply settled_mono, Hs. Qed.

Lemma processMonitorSet_spec sp ms h rc :
  heap_rel h → recipients_rel h rc → set_rel h sp ms →
  ∃ ms' h' rc', processMonitorSet iter L (encode e) h rc ms = Ok (ms', h', rc') ∧
    heap_rel h' ∧ recipients_rel h' rc' ∧ set_rel h' sp ms' ∧ heap_le h h' ∧
    spot_settled h' sp.
Proof.
  intros Hh Hrc Hms. unfold processMonitorSet.
  assert (∀ r it, (r, it) ∈ iter ms ↔ ms !! r = Some it) as Hiter.
  { intros r it. by rewrite iter_perm, elem_of_map_to_list. }
  destruct (process_entries sp (iter ms) ms h rc Hh Hrc Hms)
    as (ms' & h' & rc' & Hf & Hh' & Hrc' & Hms' & Hle & Hs).
  { apply Forall_forall. intros [r it] Hit%Hiter. specialize (Hms r).
    destruct (at_spot st0 sp !! r) as [it0|] eqn:E; [|congruence].
    destruct Hms as (it' & Hit' & Hrel). rewrite Hit in Hit'. injection Hit' as <-.
    split; [simpl; by rewrite E|done]. }
  exists ms', h', rc'. split_and!; [done..|].
  intros r [it0 Hr]. specialize (Hms r). rewrite Hr in Hms. destruct Hms as (it & Hit & _).
  apply (Hs (r, it)). by apply Hiter.
Qed.

(** ** The walk over a table *)

Definition table_rel {K} `{Countable K} (mk : K → spot) (h : heap_t)
    (m : gmap K MonitorSet) : Prop :=
  ∀ k, set_rel h (mk k) (default ∅ (m !! k)).

Lemma table_rel_mono {K} `{Countable K} (mk : K → spot) h h' m :
  heap_le h h' → table_rel mk h m → table_rel mk h' m.
Proof. intros Hle Hm k. by eapply set_rel_mono, Hm. Qed.

Lemma set_rel_nonempty h sp ms ms' :
  set_rel h sp ms → ms ≠ ∅ → ∀ h', set_rel h' sp ms' → ms' ≠ ∅.
Proof.
  intros Hms Hne h' Hms' ->. apply Hne. apply map_empty. intros r.
  specialize (Hms r). specialize (Hms' r). destruct (at_spot st0 sp !! r); [|done].
  destruct Hms' as (it & Hit & _). by rewrite lookup_empty in Hit.
Qed.

Lemma processMonitorsExact_spec {K} `{Countable K} (le : K → K → Prop) `{!RelDecision le}
    `{!Total le, !Transitive le, !AntiSymm (=) le} (mk : K → spot) m h rc key :
  heap_rel h → recipients_rel h rc → table_rel mk h m → (∀ k, m !! k ≠ Some ∅) →
  ∃ m' h' rc', processMonitorsExact iter le L (encode e) (m, h, rc) key = Ok (m', h', rc') ∧
    heap_rel h' ∧ recipients_rel h' rc' ∧ table_rel mk h' m' ∧ (∀ k, m' !! k ≠ Some ∅) ∧
    heap_le h h' ∧ spot_settled h' (mk key).
Proof.
  intros Hh Hrc Hm Hne. unfold processMonitorsExact. simpl. rewrite (exact_keys_spec le m key).
  destruct (decide (is_Some (m !! key))) as [[ms Hms]|Hnone]; simpl.
  - pose proof (Hm key) as Hset. rewrite Hms in Hset |- *. simpl in *.
    destruct (processMonitorSet_spec (mk key) ms h rc Hh Hrc Hset)
      as (ms' & h' & rc' & -> & Hh' & Hrc' & Hms' & Hle & Hs). simpl.
    exists (<[key := ms']> m), h', rc'. split_and!; try done.
    + intros k. rewrite lookup_insert. case_decide as Hk; [by subst|].
      by eapply set_rel_mono, Hm.
    + intros k. rewrite lookup_insert. case_decide; [|done]. intros [= ->].
      eapply (set_rel_nonempty h (mk key) ms ∅); [done| |done|done].
      intros ->. by eapply Hne.
  - exists m, h, rc. split_and!; [done..|apply heap_le_refl|].
    intros r [it Hr]. specialize (Hm key r). rewrite Hr in Hm.
    destruct Hm as (it' & Hit' & _). apply eq_None_not_Some in Hnone. rewrite Hnone in Hit'.
    simpl in Hit'. by rewrite lookup_empty in Hit'.
Qed.
(** ** The whole of [process] *)

Record walk (st : ActiveMonitors) (rc : list ConnIdSubId) : Prop := {
  wk_conns : conns st = conns st0;
  wk_heap : heap_rel (monitors st);
  wk_recipients : recipients_rel (monitors st) rc;
  wk_noempty : no_empty st;
  wk_sets : ∀ sp, set_rel (monitors st) sp (at_spot st sp);
}.

Lemma walk_start : walk st0 [].
Proof.
  constructor; [done| | |apply Hinv0|].
  - intros a. destruct (monitors st0 !! a); auto.
  - exists []. split_and!; [constructor|constructor|]. intros a.
    split; [by intros ?%not_elem_of_nil|]. intros (sub & Ha & Hlt & Ha'). rewrite Ha in Ha'.
    injection Ha' as Heq. rewrite Heq in Hlt. simpl in Hlt. lia.
  - intros sp r. destruct (at_spot st0 sp !! r) as [it|] eqn:Hit; [|done].
    exists it. split; [done|]. destruct (ai_items _ _ _ Hinv0 sp r it Hit) as [Hm Hl].
    destruct (proj1 (ai_spots _ _ _ Hinv0 sp r) ltac:(by eexists)) as (sub & f & Ha & _).
    specialize (Hl sub Ha). split; [done|]. split.
    + destruct (N.lt_ge_cases (itemLatest it) L) as [?|Hge]; [by left|right].
      exists sub. split; [done|left; lia].
    + exists sub. split; [done|lia].
Qed.

(** What one phase achieves. *)
Definition phase (st : ActiveMonitors) (rc : list ConnIdSubId) (sp : spot)
    (st' : ActiveMonitors) (rc' : list ConnIdSubId) : Prop :=
  walk st' rc' ∧ heap_le (monitors st) (monitors st') ∧ spot_settled (monitors st') sp.

Lemma phase_ids st rc k :
  walk st rc → ∃ m h rc', processMonitorsExact iter bytes_le L (encode e)
      (allIds st, monitors st, rc) k = Ok (m, h, rc') ∧
    phase st rc (SpId k) (set_monitors (set_allIds st m) h) rc'.
Proof.
  intros [Hc Hh Hrc [Ni Na Nt Nk] Hs].
  destruct (processMonitorsExact_spec bytes_le SpId (allIds st) (monitors st) rc k)
    as (m & h & rc' & -> & Hh' & Hrc' & Hm' & Hne' & Hle & Hset);
    [done|done|intros k'; apply (Hs (SpId k'))|done|].
  exists m, h, rc'. split; [done|]. split; [|done]. constructor; [done|done|done|by constructor|].
  intros []; [apply Hm'|eapply set_rel_mono; [done|]..];
    [apply (Hs (SpAuthor _))|apply (Hs (SpTag _))|apply (Hs (SpKind _))|apply (Hs SpOther)].
Qed.

Lemma phase_authors st rc k :
  walk st rc → ∃ m h rc', processMonitorsExact iter bytes_le L (encode e)
      (allAuthors st, monitors st, rc) k = Ok (m, h, rc') ∧
    phase st rc (SpAuthor k) (set_monitors (set_allAuthors st m) h) rc'.
Proof.
  intros [Hc Hh Hrc [Ni Na Nt Nk] Hs].
  destruct (processMonitorsExact_spec bytes_le SpAuthor (allAuthors st) (monitors st) rc k)
    as (m & h & rc' & -> & Hh' & Hrc' & Hm' & Hne' & Hle & Hset);
    [done|done|intros k'; apply (Hs (SpAuthor k'))|done|].
  exists m, h, rc'. split; [done|]. split; [|done]. constructor; [done|done|done|by constructor|].
  intros sp; destruct sp; [|apply Hm'|..]; (eapply set_rel_mono; [done|]);
    [apply (Hs (SpId _))|apply (Hs (SpTag _))|apply (Hs (SpKind _))|apply (Hs SpOther)].
Qed.

Lemma phase_kinds st rc k :
  walk st rc → ∃ m h rc', processMonitorsExact iter N.le L (encode e)
      (allKinds st, monitors st, rc) k = Ok (m, h, rc') ∧
    phase st rc (SpKind k) (set_monitors (set_allKinds st m) h) rc'.
Proof.
  intros [Hc Hh Hrc [Ni Na Nt Nk] Hs].
  destruct (processMonitorsExact_spec N.le SpKind (allKinds st) (monitors st) rc k)
    as (m & h & rc' & -> & Hh' & Hrc' & Hm' & Hne' & Hle & Hset);
    [done|done|intros k'; apply (Hs (SpKind k'))|done|].
  exists m, h, rc'. split; [done|]. split; [|done]. constructor; [done|done|done|by constructor|].
  intros sp; destruct sp; [..|apply Hm'|]; (eapply set_rel_mono; [done|]);
    [apply (Hs (SpId _))|apply (Hs (SpAuthor _))|apply (Hs (SpTag _))|apply (Hs SpOther)].
Qed.

Lemma phase_others st rc :
  walk st rc → ∃ ms h rc', processMonitorSet iter L (encode e)
      (monitors st) rc (allOthers st) = Ok (ms, h, rc') ∧
    phase st rc SpOther (set_monitors (set_allOthers st ms) h) rc'.
Proof.
  intros [Hc Hh Hrc [Ni Na Nt Nk] Hs].
  destruct (processMonitorSet_spec SpOther (allOthers st) (monitors st) rc)
    as (ms & h & rc' & -> & Hh' & Hrc' & Hm' & Hle & Hset); [done|done|apply (Hs SpOther)|].
  exists ms, h, rc'. split; [done|]. split; [|done]. constructor; [done|done|done|by constructor|].
  intros sp; destruct sp; [..|apply Hm']; (eapply set_rel_mono; [done|]);
    [apply (Hs (SpId _))|apply (Hs (SpAuthor _))|apply (Hs (SpTag _))|apply (Hs (SpKind _))].
Qed.

(** The callback of the tag loop of [process]. *)
Definition tag_cb (ts : gmap bytes MonitorSet * heap_t * list ConnIdSubId)
    (tagName : ascii) (tagVal : bytes)
    : result (gmap bytes MonitorSet * heap_t * list ConnIdSubId * bool) :=
  ts ← processMonitorsExact iter bytes_le L (encode e) ts (getTagSpec tagName tagVal);
  Ok (ts, true).

Lemma phase_tag_fold ts m h rc :
  heap_rel h → recipients_rel h rc → table_rel SpTag h m → (∀ k, m !! k ≠ Some ∅) →
  ∃ m' h' rc', fold_tags tag_cb ts (m, h, rc) = Ok (m', h', rc') ∧
    heap_rel h' ∧ recipients_rel h' rc' ∧ table_rel SpTag h' m' ∧
    (∀ k, m' !! k ≠ Some ∅) ∧ heap_le h h' ∧
    ∀ c v, (c, v) ∈ ts → spot_settled h' (SpTag (getTagSpec c v)).
Proof.
  revert m h rc. induction ts as [|[c v] ts IH]; intros m h rc Hh Hrc Hm Hne; simpl.
  { exists m, h, rc. split_and!; [done..|apply heap_le_refl|set_solver]. }
  destruct (processMonitorsExact_spec bytes_le SpTag m h rc (getTagSpec c v) Hh Hrc Hm Hne)
    as (m1 & h1 & rc1 & Hp & Hh1 & Hrc1 & Hm1 & Hne1 & Hle1 & Hset1).
  assert (tag_cb (m, h, rc) c v = Ok (m1, h1, rc1, true)) as -> by (unfold tag_cb; by rewrite Hp).
  simpl.
  destruct (IH m1 h1 rc1 Hh1 Hrc1 Hm1 Hne1)
    as (m' & h' & rc' & Hf & Hh' & Hrc' & Hm' & Hne' & Hle' & Hset').
  exists m', h', rc'. split_and!; [done..|by eapply heap_le_trans|].
  intros c' v' [[= -> ->]|Hin]%elem_of_cons; [by eapply spot_settled_mono|by apply Hset'].
Qed.

Lemma phase_tags st rc :
  walk st rc → ∃ m h rc',
    foreachTag (mk_view (encode e)) tag_cb (allTags st, monitors st, rc) = Ok (m, h, rc') ∧
    walk (set_monitors (set_allTags st m) h) rc' ∧ heap_le (monitors st) h ∧
    ∀ c v, (c, v) ∈ ev_tags e → spot_settled h (SpTag (getTagSpec c v)).
Proof.
  intros [Hc Hh Hrc [Ni Na Nt Nk] Hs]. rewrite foreachTag_encode by done.
  destruct (phase_tag_fold (ev_tags e) (allTags st) (monitors st) rc)
    as (m & h & rc' & -> & Hh' & Hrc' & Hm' & Hne' & Hle & Hset);
    [done|done|intros k'; apply (Hs (SpTag k'))|done|].
  exists m, h, rc'. split; [done|]. split; [|done]. constructor; [done|done|done|by constructor|].
  intros sp; destruct sp; [..|apply Hm'| |]; (eapply set_rel_mono; [done|]);
    [apply (Hs (SpId _))|apply (Hs (SpAuthor _))|apply (Hs (SpKind _))|apply (Hs SpOther)].
Qed.

(** The spots an event is looked up at. *)
Definition event_spot (sp : spot) : Prop :=
  match sp with
  | SpId b => b = ev_id e
  | SpAuthor b => b = ev_pubkey e
  | SpTag b => ∃ c v, (c, v) ∈ ev_tags e ∧ b = getTagSpec c v
  | SpKind n => n = ev_kind e
  | SpOther => True
  end.

Lemma process_walk :
  ∃ st' rc, process iter st0 L (encode e) =
      Ok (st', if negb (length rc =? 0) then Some (rc, L) else None) ∧
    walk st' rc ∧ ∀ sp, event_spot sp → spot_settled (monitors st') sp.
Proof.
  unfold process. rewrite view_encode by done. simpl.
  unfold Bytes32. rewrite id_encode, pubkey_encode, kind_encode by done.
  rewrite (wf_id e He), (wf_pubkey e He). simpl.
  destruct (phase_ids st0 [] (ev_id e) walk_start) as (m1 & h1 & r1 & -> & Hw1 & Hle1 & Hs1).
  simpl.
  destruct (phase_authors _ r1 (ev_pubkey e) Hw1) as (m2 & h2 & r2 & Hp2 & Hw2 & Hle2 & Hs2).
  simpl in Hp2. rewrite Hp2. simpl.
  destruct (phase_tags _ r2 Hw2) as (m3 & h3 & r3 & Hp3 & Hw3 & Hle3 & Hs3).
  simpl in Hp3. unfold tag_cb in Hp3. rewrite Hp3. simpl.
  destruct (phase_kinds _ r3 (ev_kind e) Hw3) as (m4 & h4 & r4 & Hp4 & Hw4 & Hle4 & Hs4).
  simpl in Hp4. rewrite Hp4. simpl.
  destruct (phase_others _ r4 Hw4) as (m5 & h5 & r5 & Hp5 & Hw5 & Hle5 & Hs5).
  simpl in Hp5. rewrite Hp5. simpl.
  eexists _, r5. split; [done|]. split; [exact Hw5|]. simpl in *.
  pose proof (heap_le_trans _ _ _ Hle4 Hle5) as Hle35.
  pose proof (heap_le_trans _ _ _ Hle3 Hle35) as Hle25.
  pose proof (heap_le_trans _ _ _ Hle2 Hle25) as Hle15.
  intros [b|b|b|n|]; simpl; [intros ->|intros ->|intros (c & v & Hin & ->)|intros ->|intros _].
  - by apply (spot_settled_mono h1).
  - by apply (spot_settled_mono h2).
  - by apply (spot_settled_mono h3), Hs3.
  - by apply (spot_settled_mono h4).
  - done.
Qed.
End process.

(** The theorems on live subscriptions: every filter group of a REQ can be
    installed, every sequence of operations keeps the invariant and never
    throws, and an event reaches exactly the subscriptions it matches. *)

(** ** Filters of a REQ are ready to be installed *)

Section ready.
Context `{!Hex, !NativeU64}.

Definition set_is_32 (s : option FilterSetBytes) : Prop :=
  ∀ fs x, s = Some fs → x ∈ set_members fs → length x = 32.

Lemma make_hex_32 v fs x :
  FilterSetBytes_make v true 32 32 = Ok fs → x ∈ set_members fs → length x = 32.
Proof.
  intros (l & Hr & Hl & _)%FilterSetBytes_make_repr. rewrite (set_members_repr fs l Hr), Hl.
  intros (j & _ & (_ & H1' & H2')%read_item_Ok). lia.
Qed.

Lemma step_case_ready f n k v f' n' :
  step_case f n k v f' n' → filter_ready f → filter_ready f'.
Proof.
  intros Hst [Hwf Hi Ha]. constructor; [by eapply step_case_wf|..].
  - inversion Hst; subst; simpl in *; try done. intros fs' x [= <-]. by eapply make_hex_32.
  - inversion Hst; subst; simpl in *; try done. intros fs' x [= <-]. by eapply make_hex_32.
Qed.

Lemma NostrFilter_make_ready v lim f : NostrFilter_make v lim = Ok f → filter_ready f.
Proof.
  intros Hmk. destruct (NostrFilter_make_object v lim f Hmk) as [kvs ->].
  unfold NostrFilter_make in Hmk. simpl in Hmk.
  apply bind_Ok_inv in Hmk as ([f0 n0] & Hfold & Hmk). inv_result. subst f.
  assert (filter_ready f0) as Hf0.
  { apply (foldM_inv (λ st, filter_ready st.1) filter_step kvs (filter_default, 0) (f0, n0));
      [|by repeat constructor|done].
    intros [g m] [k v] [g' m'] _ Hg Hst%filter_step_case. by eapply step_case_ready. }
  destruct Hf0 as [[] ? ?]. destruct (lim <? limit f0)%N; by repeat constructor.
Qed.

Lemma group_fold_ready lim vs acc fs :
  Forall filter_ready acc → foldM (group_step lim) acc vs = Ok fs → Forall filter_ready fs.
Proof.
  intros Hacc. apply (foldM_inv (Forall filter_ready)); [|done].
  intros acc0 v acc1 _ H0' Hstep. unfold group_step in Hstep. inv_result. subst acc1.
  destruct (neverMatch r); [done|]. apply Forall_app. split; [done|].
  constructor; [by eapply NostrFilter_make_ready|done].
Qed.

Lemma group_make_ready req lim g :
  NostrFilterGroup_make req lim = Ok g → Forall filter_ready g.
Proof.
  unfold NostrFilterGroup_make. intros Hmk. inv_result. by eapply group_fold_ready.
Qed.
End ready.

(** ** Sequences of operations *)

Section run.
Context `{!NativeU64} (cfg : Config).
Context (iter : MonitorSet → list (filterRef * MonitorItem)).
Context (iter_perm : ∀ ms, iter ms ≡ₚ map_to_list ms).

(** The calls the request monitor makes. *)
Inductive am_call :=
  | CallAdd (sub : Subscription)
  | CallRemove (connId : N) (subId : SubId)
  | CallClose (connId : N)
  | CallProcess (levId : N) (buf : bytes).

Definition am_exec (st : ActiveMonitors) (call : am_call) : result ActiveMonitors :=
  match call with
  | CallAdd sub => fst <$> addSub cfg st sub (latestEventId sub)
  | CallRemove c s => removeSub st c s
  | CallClose c => closeConn st c
  | CallProcess l b => fst <$> process iter st l b
  end.

(** What is passed to a call when events up to [P] have been processed: filters
    that were built from a REQ, and well-formed events in levId order. *)
Definition call_ok (P : N) (call : am_call) : Prop :=
  match call with
  | CallAdd sub => Forall filter_ready (filterGroup sub)
  | CallProcess l b => (P < l)%N ∧ ∃ e, wf_event e ∧ b = encode e
  | _ => True
  end.

Definition call_levId (P : N) (call : am_call) : N :=
  match call with CallProcess l _ => l | _ => P end.

Fixpoint calls_ok (P : N) (calls : list am_call) : Prop :=
  match calls with
  | [] => True
  | call :: calls => call_ok P call ∧ calls_ok (call_levId P call) calls
  end.

Definition group_matches (sub : Subscription) (e : event) : Prop :=
  group_doesMatch (filterGroup sub) (mk_view (encode e)) = Ok true.

Lemma group_matches_sem sub e :
  wf_event e → Forall filter_ready (filterGroup sub) →
  group_matches sub e ↔ group_sem e sub.
Proof.
  intros He Hready. unfold group_matches, group_sem.
  destruct (group_doesMatch_sem (filterGroup sub) e He) as (b & -> & Hb).
  { eapply Forall_impl; [done|]. by intros f []. }
  rewrite <-Hb. split; [by intros [= ->]|by intros ->].
Qed.

(** The monitors to notify. *)
Definition due (st : ActiveMonitors) (L : N) (e : event) (sub : Subscription) : Prop :=
  live st sub ∧ (latestEventId sub < L)%N ∧ group_matches sub e.

Section one_event.
Context (P L : N) (e : event) (st st' : ActiveMonitors) (rc : list ConnIdSubId).
Context (He : wf_event e) (HPL : (P < L)%N) (Hinv : am_inv cfg P st).
Context (Hwalk : walk L e st st' rc).
Context (Hset : ∀ sp, event_spot e sp → spot_settled L e st (monitors st') sp).

(** A matching filter is installed at one of the spots of the event. *)
Lemma match_spot f :
  filter_ready f → filter_sem f e → ∃ sp, sp ∈ filter_spots f ∧ event_spot e sp.
Proof.
  intros [Hwf _ _] Hsem. unfold filter_spots.
  destruct (ids f) as [fs|] eqn:Hi.
  { exists (SpId (ev_id e)). split; [|done]. apply list_elem_of_fmap_2.
    apply elem_of_set_members; [by eapply fw_ids|by eapply sem_ids]. }
  destruct (authors f) as [fs|] eqn:Ha.
  { exists (SpAuthor (ev_pubkey e)). split; [|done]. apply list_elem_of_fmap_2.
    apply elem_of_set_members; [by eapply fw_authors|by eapply sem_authors]. }
  destruct (base.size (tags f) =? 0) eqn:Ht; simpl.
  - destruct (kinds f) as [ks|] eqn:Hk; [|exists SpOther; split; [constructor|done]].
    exists (SpKind (ev_kind e)). split; [|done]. apply list_elem_of_fmap_2. by eapply sem_kinds.
  - apply Nat.eqb_neq in Ht.
    destruct (map_choose (tags f)) as (c & fs & Hc).
    { intros Hemp. by rewrite Hemp, map_size_empty in Ht. }
    destruct (sem_tags f e Hsem c fs Hc) as ([c' v] & Hin & Hcc & Hv). simpl in *. subst c'.
    exists (SpTag (getTagSpec c v)). split; [|by exists c, v].
    apply list_elem_of_bind. exists (c, fs). split; [|by apply elem_of_map_to_list].
    apply (list_elem_of_fmap_2 (λ v, SpTag (getTagSpec c v))).
    apply elem_of_set_members; [by eapply fw_tags|done].
Qed.

(** Exactly the due monitors end up marked. *)
Lemma marked a sub :
  monitors st !! a = Some sub →
  (latestEventId sub < L)%N ∧ group_matches sub e ∧
    monitors st' !! a = Some (set_latestEventId sub L) ∨
  ¬ ((latestEventId sub < L)%N ∧ group_matches sub e) ∧ monitors st' !! a = Some sub.
Proof.
  intros Ha. pose proof (ai_ready _ _ _ Hinv a sub Ha) as Hready.
  pose proof (wk_heap _ _ _ _ _ Hwalk a) as Hh. rewrite Ha in Hh.
  rewrite group_matches_sem by done. destruct Hh as [Hh|(Hh & Hlt & Hg)]; [right|by left].
  split; [|done]. intros [Hlt (f & Hf & Hsem)]. apply list_elem_of_lookup in Hf as [i Hi].
  assert (filter_ready f) as Hfr by by apply (Forall_lookup_1 _ _ _ _ Hready Hi).
  destruct (match_spot f Hfr Hsem) as (sp & Hsp & Hev).
  destruct (Hset sp Hev (a, i)) as (sub' & Ha' & Hs).
  { apply (ai_spots _ _ _ Hinv). by exists sub, f. }
  simpl in *. rewrite Hh in Ha'. injection Ha' as <-.
  destruct Hs as [Hs|Hs]; [lia|by eapply Hs].
Qed.

Lemma walk_inv : am_inv cfg L st'.
Proof.
  pose proof Hwalk as [Hc Hh _ Hne Hsets].
  assert (∀ a sub', monitors st' !! a = Some sub' → ∃ sub, monitors st !! a = Some sub ∧
    sub_key sub = sub_key sub' ∧ filterGroup sub = filterGroup sub') as Hback.
  { intros a sub' Ha'. specialize (Hh a). destruct (monitors st !! a) as [sub|]; [|congruence].
    exists sub. destruct Hh as [Hh|(Hh & _)]; rewrite Hh in Ha'; by injection Ha' as <-. }
  assert (∀ a sub, monitors st !! a = Some sub → ∃ sub', monitors st' !! a = Some sub' ∧
    sub_key sub' = sub_key sub ∧ filterGroup sub' = filterGroup sub) as Hforth.
  { intros a sub Ha. specialize (Hh a). rewrite Ha in Hh.
    destruct Hh as [Hh|(Hh & _)]; by eexists. }
  assert (∀ sp r, is_Some (at_spot st' sp !! r) ↔ is_Some (at_spot st sp !! r)) as Hdom.
  { intros sp r. specialize (Hsets sp r). destruct (at_spot st sp !! r).
    - destruct Hsets as (it & -> & _). split; by eexists.
    - rewrite Hsets. done. }
  constructor; [done| | | | |].
  - intros key a. unfold registered. rewrite Hc. fold (registered st key a).
    rewrite (ai_conns _ _ _ Hinv). split; intros (sub & Ha & Hk).
    + destruct (Hforth a sub Ha) as (sub' & ? & ? & _). exists sub'. split; congruence.
    + destruct (Hback a sub Ha) as (sub' & ? & ? & _). exists sub'. split; congruence.
  - intros a sub' (sub & Ha & _ & <-)%Hback. by eapply ai_ready.
  - intros sp r. rewrite Hdom, (ai_spots _ _ _ Hinv). split; intros (sub & f & Ha & Hf & Hsp).
    + destruct (Hforth _ sub Ha) as (sub' & ? & _ & Hfg). exists sub', f. by rewrite Hfg.
    + destruct (Hback _ sub Ha) as (sub' & ? & _ & Hfg). exists sub', f. by rewrite Hfg.
  - intros sp r it Hit. specialize (Hsets sp r).
    destruct (at_spot st sp !! r); [|congruence]. destruct Hsets as (it' & Hit' & Hm & _ & sub & Ha & Hl).
    rewrite Hit in Hit'. injection Hit' as <-. split; [done|]. intros sub' Ha'.
    rewrite Ha in Ha'. by injection Ha' as <-.
  - rewrite Hc. apply (ai_bound _ _ _ Hinv).
Qed.
(** The recipients are the due monitors, each once. *)
Lemma recipients_exact :
  NoDup ((λ p : ConnIdSubId, (p.1, SubId_sv p.2)) <$> rc) ∧
  ∀ c s, (c, s) ∈ rc ↔ ∃ sub, due st L e sub ∧ connId sub = c ∧ subId sub = s.
Proof.
  destruct (wk_recipients _ _ _ _ _ Hwalk) as (al & Hnd & Hal & Hin).
  assert (∀ a sub, monitors st !! a = Some sub →
    a ∈ al ↔ (latestEventId sub < L)%N ∧ group_matches sub e) as Hdue.
  { intros a sub Ha. rewrite Hin. destruct (marked a sub Ha) as [(Hl & Hg & Hm)|[Hn Hm]].
    - split; [done|]. intros _. by exists sub.
    - split; [|done]. intros (sub' & Ha' & Hlt & Hm'). rewrite Hm in Hm'.
      injection Hm' as ->. simpl in *. rewrite Ha in Ha'. injection Ha' as Heq.
      rewrite <-Heq in Hlt. simpl in Hlt. lia. }
  split.
  - revert Hnd. clear Hdue Hin Hset Hwalk. induction Hal as [|a p al rc' (sub & Ha & ->) Hal IH];
      intros Hnd; [constructor|].
    apply NoDup_cons in Hnd as [Hnin Hnd]. csimpl. apply NoDup_cons. split; [|by apply IH].
    intros ([c s] & Heq & Hp)%list_elem_of_fmap. simpl in Heq.
    apply list_elem_of_lookup in Hp as [i Hp].
    destruct (Forall2_lookup_r _ _ _ _ _ Hal Hp) as (a' & Hi & sub' & Ha' & [= -> ->]).
    apply Hnin. apply list_elem_of_lookup. exists i. rewrite Hi. f_equal.
    apply (registered_fun st (sub_key sub)); apply (ai_conns _ _ _ Hinv).
    + exists sub'. split; [done|]. by unfold sub_key.
    + by exists sub.
  - intros c s. split.
    + intros [i Hp]%list_elem_of_lookup.
      destruct (Forall2_lookup_r _ _ _ _ _ Hal Hp) as (a & Hi & sub & Ha & [= -> ->]).
      apply list_elem_of_lookup_2, (Hdue a sub Ha) in Hi. exists sub.
      split; [split; [by exists a|done]|done].
    + intros (sub & ([a Ha] & Hd) & <- & <-).
      apply (Hdue a sub Ha) in Hd. apply list_elem_of_lookup in Hd as [i Hi].
      destruct (Forall2_lookup_l _ _ _ _ _ Hal Hi) as (p & Hp & sub' & Ha' & ->).
      rewrite Ha in Ha'. injection Ha' as <-. by eapply list_elem_of_lookup_2.
Qed.
End one_event.

Lemma process_notifies P st L e :
  am_inv cfg P st → (P < L)%N → wf_event e →
  ∃ st' rc, process iter st L (encode e) =
      Ok (st', if negb (length rc =? 0) then Some (rc, L) else None) ∧ am_inv cfg L st' ∧
    NoDup ((λ p : ConnIdSubId, (p.1, SubId_sv p.2)) <$> rc) ∧
    (∀ c s, (c, s) ∈ rc ↔ ∃ sub, due st L e sub ∧ connId sub = c ∧ subId sub = s) ∧
    (∀ sub, live st sub →
      due st L e sub ∧ live st' (set_latestEventId sub L) ∨ ¬ due st L e sub ∧ live st' sub).
Proof.
  intros Hinv HPL He.
  destruct (process_walk cfg iter iter_perm P L e st He HPL Hinv) as (st' & rc & Hp & Hw & Hs).
  edestruct (recipients_exact P L e st st' rc) as [Hnd Hrc]; [done..|].
  exists st', rc. split_and!; [done|by eapply walk_inv|done..|].
  intros sub [a Ha]. edestruct (marked P L e st st' rc) as [(Hl & Hg & Hm)|[Hn Hm]]; [done..| |].
  - left. split; [split_and!; [by exists a|done..]|by exists a].
  - right. split; [|by exists a]. intros (_ & Hd). by apply Hn.
Qed.

(** C35: processing a well-formed event with a new levId notifies exactly the
    live subscriptions that have not seen that levId and whose filter group
    matches the event, each of them once, in whatever order the hash sets are
    walked; no callback is made when there are none. Exactly those
    subscriptions are marked as having seen the event. *)
Theorem process_notifies_exactly P st L e :
  am_inv cfg P st → (P < L)%N → wf_event e →
  ∃ st' rc, process iter st L (encode e) =
      Ok (st', if negb (length rc =? 0) then Some (rc, L) else None) ∧
    NoDup ((λ p : ConnIdSubId, (p.1, SubId_sv p.2)) <$> rc) ∧
    (∀ c s, (c, s) ∈ rc ↔ ∃ sub, due st L e sub ∧ connId sub = c ∧ subId sub = s) ∧
    (∀ sub, live st sub →
      due st L e sub ∧ live st' (set_latestEventId sub L) ∨ ¬ due st L e sub ∧ live st' sub).
Proof.
  intros Hinv HPL He. destruct (process_notifies P st L e Hinv HPL He) as (st' & rc & ? & _ & ?).
  by exists st', rc.
Qed.

Lemma exec_step P st call :
  am_inv cfg P st → call_ok P call →
  ∃ st', am_exec st call = Ok st' ∧ am_inv cfg (call_levId P call) st'.
Proof.
  intros Hinv Hok. destruct call as [sub|c s|c|L b]; simpl in *.
  - destruct (addSub_spec cfg P st sub Hinv Hok) as (st' & b & -> & Hinv' & _).
    by exists st'.
  - destruct (removeSub_spec cfg P st c s Hinv) as (st' & -> & Hinv' & _). by exists st'.
  - destruct (closeConn_spec cfg P st c Hinv) as (st' & -> & Hinv' & _). by exists st'.
  - destruct Hok as (HPL & e & He & ->).
    destruct (process_walk cfg iter iter_perm P L e st He HPL Hinv) as (st' & rc & -> & Hw & Hs).
    exists st'. split; [done|]. by eapply walk_inv.
Qed.

(** C36: whatever sequence of subscriptions, removals, disconnections and
    events the monitor is given, no call throws ([at] finds its key and no
    dangling filter or monitor pointer is followed) and the invariant holds in
    the end: each filter is installed at exactly the spots its fields ask for,
    nothing of a removed subscription or closed connection is left behind, no
    connection exceeds the configured number of subscriptions. *)
Theorem monitors_never_dangle calls :
  calls_ok 0 calls →
  ∃ st, foldM am_exec am_empty calls = Ok st ∧
    am_inv cfg (foldl call_levId 0%N calls) st.
Proof.
  assert (∀ P st, am_inv cfg P st → calls_ok P calls →
    ∃ st', foldM am_exec st calls = Ok st' ∧ am_inv cfg (foldl call_levId P calls) st')
    as Hrun; [|intros Hok; apply Hrun; [apply am_inv_empty|done]].
  induction calls as [|call calls IH]; intros P st Hinv Hok; simpl; [by exists st|].
  destruct Hok as [Hc Hok]. destruct (exec_step P st call Hinv Hc) as (st1 & -> & Hinv1).
  simpl. by apply IH.
Qed.

(** Subscribing replaces the connection's subscription of the same id,
    unsubscribing removes exactly that subscription and closing a connection
    exactly its subscriptions; a new subscription is refused only when the
    connection already has the configured maximum of others, and everything
    else stays live. *)
Theorem subscription_table P st :
  am_inv cfg P st →
  (∀ sub, Forall filter_ready (filterGroup sub) →
    ∃ st' b, addSub cfg st sub (latestEventId sub) = Ok (st', b) ∧
      (b = false → N.of_nat (base.size (default ∅ (conns st' !! connId sub))) =
                   relay__maxSubsPerConnection cfg) ∧
      ∀ sub', live st' sub' ↔
        live st sub' ∧ sub_key sub' ≠ sub_key sub ∨ b = true ∧ sub' = sub) ∧
  (∀ c s, ∃ st', removeSub st c s = Ok st' ∧
    ∀ sub, live st' sub ↔ live st sub ∧ sub_key sub ≠ (c, SubId_sv s)) ∧
  (∀ c, ∃ st', closeConn st c = Ok st' ∧
    ∀ sub, live st' sub ↔ live st sub ∧ connId sub ≠ c).
Proof.
  intros Hinv. split_and!.
  - intros sub Hready. destruct (addSub_spec cfg P st sub Hinv Hready)
      as (st' & b & Hadd & _ & Hb & Hlive). by exists st', b.
  - intros c s. destruct (removeSub_spec cfg P st c s Hinv) as (st' & Hrm & _ & Hm & _).
    exists st'. split; [done|]. intros sub. unfold live. setoid_rewrite Hm. naive_solver.
  - intros c. destruct (closeConn_spec cfg P st c Hinv) as (st' & Hcl & _ & Hlive). by exists st'.
Qed.
End run.

(** ** A concrete run *)

(** Sets walked in the order [map_to_list] gives. *)
Definition sample_iter (ms : MonitorSet) : list (filterRef * MonitorItem) := map_to_list ms.

Lemma sample_iter_perm ms : sample_iter ms ≡ₚ map_to_list ms.
Proof. done. Qed.

Definition sample_subid : SubId := mk_subid (ascii_of_nat 2 :: #"s1").

(** A client subscribed to the sample filter with the store at levId 3. *)
Definition sample_sub : Subscription := mk_sub 7 sample_subid [sample_filter] 3.

Definition sample_state : ActiveMonitors :=
  match am_exec default_config sample_iter am_empty (CallAdd sample_sub) with
  | Ok st => st
  | Throw _ => am_empty
  end.

Lemma sample_sub_ready : Forall filter_ready (filterGroup sample_sub).
Proof.
  constructor; [|done]. apply (NostrFilter_make_ready (JObject sample_filter_obj) 500).
  vm_compute. reflexivity.
Qed.

Lemma sample_state_inv : am_inv default_config 0 sample_state.
Proof.
  destruct (exec_step default_config sample_iter sample_iter_perm 0 am_empty
    (CallAdd sample_sub) (am_inv_empty _ 0) sample_sub_ready) as (st' & Hex & Hinv).
  unfold sample_state. by rewrite Hex.
Qed.

(** The sample event, as levId 5, reaches the sample subscription. *)
Lemma sample_delivery :
  match process sample_iter sample_state 5 (encode sample_event) with
  | Ok (_, Some (rc, l)) => rc = [(7%N, sample_subid)] ∧ l = 5%N
  | _ => False
  end.
Proof. vm_compute. done. Qed.

Lemma process_notifies_exactly_witness :
  ∃ st' rc, process sample_iter sample_state 5 (encode sample_event) =
      Ok (st', if negb (length rc =? 0) then Some (rc, 5%N) else None) ∧
    NoDup ((λ p : ConnIdSubId, (p.1, SubId_sv p.2)) <$> rc) ∧
    (∀ c s, (c, s) ∈ rc ↔
      ∃ sub, due sample_state 5 sample_event sub ∧ connId sub = c ∧ subId sub = s) ∧
    (∀ sub, live sample_state sub →
      due sample_state 5 sample_event sub ∧ live st' (set_latestEventId sub 5) ∨
      ¬ due sample_state 5 sample_event sub ∧ live st' sub).
Proof.
  apply (process_notifies_exactly default_config sample_iter sample_iter_perm 0 sample_state 5
    sample_event sample_state_inv); [done|apply sample_event_wf].
Defined.

Definition sample_calls : list am_call :=
  [CallAdd sample_sub; CallProcess 5 (encode sample_event); CallAdd sample_sub;
   CallRemove 7 sample_subid; CallProcess 6 (encode sample_event); CallClose 7].

Lemma monitors_never_dangle_witness :
  ∃ st, foldM (am_exec default_config sample_iter) am_empty sample_calls = Ok st ∧
    am_inv default_config 6 st.
Proof.
  apply (monitors_never_dangle default_config sample_iter sample_iter_perm sample_calls).
  cbn [calls_ok call_ok call_levId sample_calls].
  split_and!; first [done | exact sample_sub_ready
    | exists sample_event; split; [apply sample_event_wf|done]].
Defined.

Lemma subscription_table_witness :
  ∃ st', removeSub sample_state 7 sample_subid = Ok st' ∧
    ∀ sub, live st' sub ↔ live sample_state sub ∧ sub_key sub ≠ (7%N, SubId_sv sample_subid).
Proof.
  apply (subscription_table default_config 0 sample_state sample_state_inv).
Defined.
