(* ===== verification/Double.v ===== *)
(** C++ [double] as the IEEE 754 binary64 numbers of [SpecFloat].

    The arithmetic is the correctly rounded (to nearest even) arithmetic of
    the Standard Library's executable specification, so it computes and needs
    no axiom.  Conversions are those the source uses: from [uint64_t], and
    from a [std::chrono] nanosecond count to seconds. *)

From S2P Require Import Prelude.
From Stdlib Require Export SpecFloat.

Abbreviation double := spec_float.

Definition dbl_of_Z (z : Z) : double := binary_normalize 53 1024 z 0 false.
Definition dbl_of_N (n : N) : double := dbl_of_Z (Z.of_N n).

Definition dadd : double → double → double := SFadd 53 1024.
Definition dsub : double → double → double := SFsub 53 1024.
Definition dmul : double → double → double := SFmul 53 1024.
Definition ddiv : double → double → double := SFdiv 53 1024.

(** [a < b] and [a >= b]; both are false on a NaN. *)
Definition dltb (a b : double) : bool := SFltb a b.
Definition dgeb (a b : double) : bool := SFleb b a.

(** [std::min(a, b)]: [b] when [b < a], else [a]. *)
Definition dmin (a b : double) : double := if dltb b a then b else a.

(** [std::chrono::duration<double>(d).count()] for [d] in nanoseconds. *)
Definition seconds_of_ns (ns : Z) : double := ddiv (dbl_of_Z ns) (dbl_of_Z 1000000000).

#[global] Arguments dbl_of_Z : simpl never.
#[global] Arguments dbl_of_N : simpl never.
#[global] Arguments dadd : simpl never.
#[global] Arguments dsub : simpl never.
#[global] Arguments dmul : simpl never.
#[global] Arguments ddiv : simpl never.
#[global] Arguments seconds_of_ns : simpl never.

(** ** Signs *)

Definition not_positive (f : double) : Prop :=
  match f with
  | S754_zero _ | S754_nan | S754_infinity true | S754_finite true _ _ => True
  | _ => False
  end.

Definition not_negative (f : double) : Prop :=
  match f with
  | S754_zero _ | S754_nan | S754_infinity false | S754_finite false _ _ => True
  | _ => False
  end.

Definition has_sign (s : bool) (f : double) : Prop :=
  match f with
  | S754_zero s' | S754_infinity s' | S754_finite s' _ _ => s' = s
  | S754_nan => True
  end.

Lemma has_sign_true f : has_sign true f → not_positive f.
Proof. by destruct f as [[]|[]| |[] ? ?]. Qed.

Lemma has_sign_false f : has_sign false f → not_negative f.
Proof. by destruct f as [[]|[]| |[] ? ?]. Qed.

Lemma binary_round_aux_sign p e s mx ex l : has_sign s (binary_round_aux p e s mx ex l).
Proof.
  unfold binary_round_aux. destruct (shr_fexp p e mx ex l) as [m1 e1].
  destruct (shr_fexp p e _ e1 loc_Exact) as [m2 e2].
  destruct (shr_m m2); simpl; try done. by case_match.
Qed.

Lemma binary_round_sign p e s m ex : has_sign s (binary_round p e s m ex).
Proof.
  unfold binary_round. destruct (shl_align _ _ _) as [mz ez]. apply binary_round_aux_sign.
Qed.

Lemma dbl_of_N_not_negative n : not_negative (dbl_of_N n).
Proof.
  unfold dbl_of_N, dbl_of_Z. destruct n as [|p]; [done|].
  apply has_sign_false, binary_round_sign.
Qed.

Lemma ddiv_sign sx mx ex sy my ey :
  has_sign (xorb sx sy) (ddiv (S754_finite sx mx ex) (S754_finite sy my ey)).
Proof.
  unfold ddiv, SFdiv. destruct (SFdiv_core_binary _ _ _ _ _ _) as [[mz ez] lz].
  apply binary_round_aux_sign.
Qed.

(** A difference of clock readings that is not positive is not a positive
    number of seconds. *)
Lemma seconds_not_positive ns : (ns ≤ 0)%Z → not_positive (seconds_of_ns ns).
Proof.
  intros Hns. unfold seconds_of_ns.
  assert (∃ m e, dbl_of_Z 1000000000 = S754_finite false m e) as (my & ey & ->)
    by (vm_compute; eauto).
  destruct ns as [|p|p]; [done|lia|]. unfold dbl_of_Z, binary_normalize.
  pose proof (binary_round_sign 53 1024 true p 0) as Hs.
  destruct (binary_round 53 1024 true p 0) as [s|s| |s m e]; simpl in Hs; subst; try done.
  apply has_sign_true, (ddiv_sign true _ _ false).
Qed.

Lemma not_positive_not_gt a b : not_negative a → not_positive b → dltb a b = false.
Proof. by destruct a as [[]|[]| |[] ? ?], b as [[]|[]| |[] ? ?]. Qed.

Lemma dltb_irrefl a : dltb a a = false.
Proof.
  unfold dltb, SFltb, SFcompare. destruct a as [[]|[]| |[] m e]; try done;
    rewrite Z.compare_refl; change (Pos.compare_cont Eq m m) with (m ?= m)%positive;
    by rewrite Pos.compare_refl.
Qed.

Lemma dltb_asym a b : dltb b a = true → dltb a b = false.
Proof.
  unfold dltb, SFltb, SFcompare.
  destruct a as [[]|[]| |[] ma ea], b as [[]|[]| |[] mb eb]; try done;
    change (Pos.compare_cont Eq mb ma) with (mb ?= ma)%positive;
    change (Pos.compare_cont Eq ma mb) with (ma ?= mb)%positive;
    rewrite (Z.compare_antisym eb ea), (Pos.compare_antisym mb ma);
    destruct (eb ?= ea)%Z, (mb ?= ma)%positive; done.
Qed.

(** [std::min] never exceeds its first argument. *)
Lemma dmin_le a b : dltb a (dmin a b) = false.
Proof. unfold dmin. destruct (dltb b a) eqn:E; [by apply dltb_asym|apply dltb_irrefl]. Qed.
