(* ===== verification/RateLimit.v ===== *)
(** The HTTP rate limiter ([src/RateLimiter.h], [src/RateLimiter.cpp]).

    [Module RateLimiter] has the token bucket, the LRU cache of buckets, and
    the limiter with its three stages (global, per IP, per pubkey).  Time is
    a parameter: [clock i] is what the [i]-th reading of
    [std::chrono::steady_clock::now()] returns, in nanoseconds, and every
    operation threads the number of readings made so far.  A list iterator
    into the LRU list is the identity of its node.  The limiter's mutex makes
    each call atomic, so an interleaving of threads is a sequence of calls
    ([step], [run]); the cleanup thread contributes the [Cleanup] calls. *)

From stdpp Require Import countable gmap.
From stdpp Require Import countable gmap fin_maps.
From S2P Require Import Prelude Double.

Module RateLimiter.

Record Config := mk_Config {
  enabled : bool;
  perIpPerMinute : N;
  perPubkeyPerMinute : N;
  globalPerMinute : N;
  burstMultiplier : double;
  cleanupIntervalSeconds : N;
  maxIpBuckets : N;
  maxPubkeyBuckets : N;
  staleBucketSeconds : N;
}.

Definition default_Config : Config :=
  mk_Config true 60 100 1000 (dbl_of_Z 2) 60 10000 10000 60.

Record CheckResult := mk_CheckResult { allowed : bool; reason : bytes }.

Definition CheckResult_default : CheckResult := mk_CheckResult true [].

Record Stats := mk_Stats {
  stats_totalRequests : N;
  stats_rateLimitedRequests : N;
  stats_ipBuckets : N;
  stats_pubkeyBuckets : N;
}.

(** ** Token bucket *)

Record TokenBucket := mk_TokenBucket {
  tokens : double;
  capacity : double;
  refillRate : double;
  lastRefill : Z;
  requestCount : N;
}.

(** ** LRU cache: [lruOrder] is front to back (most recent first). *)

Record LRUBucketCache := mk_LRU {
  lruOrder : list (nat * bytes);
  buckets : gmap bytes (TokenBucket * nat);
  next_node : nat;
}.

Definition LRU_empty : LRUBucketCache := mk_LRU [] ∅ 0.

Record limiter := mk_limiter {
  config_ : Config;
  ipCache_ : LRUBucketCache;
  pubkeyCache_ : LRUBucketCache;
  globalBucket_ : TokenBucket;
  totalRequests_ : N;
  rateLimitedRequests_ : N;
  tick : nat;
}.

Section operations.
Variable clock : nat → Z.

Definition new_TokenBucket (cap rate : double) (t : nat) : TokenBucket * nat :=
  (mk_TokenBucket cap cap rate (clock t) 0, S t).

Definition refill (b : TokenBucket) (t : nat) : TokenBucket * nat :=
  let now := clock t in
  let elapsed := seconds_of_ns (now - lastRefill b) in
  (mk_TokenBucket
     (dmin (capacity b) (dadd (tokens b) (dmul elapsed (refillRate b))))
     (capacity b) (refillRate b) now (requestCount b), S t).

Definition consume (amount : double) (b : TokenBucket) (t : nat)
    : bool * TokenBucket * nat :=
  let '(b, t) := refill b t in
  if dgeb (tokens b) amount then
    (true, mk_TokenBucket (dsub (tokens b) amount) (capacity b) (refillRate b)
             (lastRefill b) (u64_add (requestCount b) 1), t)
  else (false, b, t).

(** [lruOrder.splice(lruOrder.begin(), lruOrder, it)] *)
Definition touch (it : nat) (c : LRUBucketCache) : result LRUBucketCache :=
  match list_find (λ n, n.1 = it) (lruOrder c) with
  | Some (_, node) =>
      Ok (mk_LRU (node :: filter (λ n, n.1 ≠ it) (lruOrder c)) (buckets c) (next_node c))
  | None => Throw undefined_behaviour
  end.

(** The returned pointer designates the bucket stored under [key]: [true]
    when it is not null. *)
Definition get (key : bytes) (c : LRUBucketCache) : result (bool * LRUBucketCache) :=
  match buckets c !! key with
  | None => Ok (false, c)
  | Some (_, it) => c ← touch it c; Ok (true, c)
  end.

(** [push_front] then [emplace], which leaves an existing entry in place. *)
Definition insert_bucket (key : bytes) (b : TokenBucket) (c : LRUBucketCache)
    : LRUBucketCache :=
  mk_LRU ((next_node c, key) :: lruOrder c)
    (match buckets c !! key with
     | Some _ => buckets c
     | None => <[key := (b, next_node c)]> (buckets c)
     end)
    (S (next_node c)).

Definition cache_size (c : LRUBucketCache) : nat := size (buckets c).

Definition evictOldest (c : LRUBucketCache) : LRUBucketCache :=
  match last (lruOrder c) with
  | None => c
  | Some (_, oldestKey) =>
      mk_LRU (removelast (lruOrder c)) (delete oldestKey (buckets c)) (next_node c)
  end.

(** The loop of [eraseStale], over the list from its back; it returns what is
    left of that list. *)
Fixpoint eraseStale_loop (staleSeconds : double) (now : Z) (back : list (nat * bytes))
    (bk : gmap bytes (TokenBucket * nat)) (removedCount : N) (t : nat)
    : list (nat * bytes) * gmap bytes (TokenBucket * nat) * N * nat :=
  match back with
  | [] => ([], bk, removedCount, t)
  | (it, key) :: front =>
      match bk !! key with
      | None => eraseStale_loop staleSeconds now front bk removedCount t
      | Some (b, it') =>
          let '(b, t) := refill b t in
          let timeSinceRefill := seconds_of_ns (now - lastRefill b) in
          let isStale :=
            dgeb (tokens b) (dmul (capacity b) (ddiv (dbl_of_Z 95) (dbl_of_Z 100)))
            && dltb staleSeconds timeSinceRefill in
          if isStale then
            eraseStale_loop staleSeconds now front (delete key bk) (removedCount + 1) t
          else ((it, key) :: front, <[key := (b, it')]> bk, removedCount, t)
      end
  end.

Definition eraseStale (staleSeconds : double) (c : LRUBucketCache) (removedCount : N)
    (t : nat) : LRUBucketCache * N * nat :=
  let now := clock t in
  let '(back, bk, removedCount, t) :=
    eraseStale_loop staleSeconds now (rev (lruOrder c)) (buckets c) removedCount (S t) in
  (mk_LRU (rev back) bk (next_node c), removedCount, t).

(** [bucket->consume()] through the pointer to the entry of [key]. *)
Definition consume_at (key : bytes) (c : LRUBucketCache) (t : nat)
    : result (bool * LRUBucketCache * nat) :=
  match buckets c !! key with
  | None => Throw undefined_behaviour
  | Some (b, it) =>
      let '(ok, b, t) := consume (dbl_of_Z 1) b t in
      Ok (ok, mk_LRU (lruOrder c) (<[key := (b, it)]> (buckets c)) (next_node c), t)
  end.

Definition checkBucket (key : bytes) (c : LRUBucketCache) (cap rate : double)
    (limitType : bytes) (maxBuckets : N) (t : nat)
    : result (bytes * LRUBucketCache * nat) :=
  p ← get key c;
  let '(found, c) := p in
  let '(c, t) :=
    if found : bool then (c, t)
    else
      let c := if (maxBuckets <=? N.of_nat (cache_size c))%N then evictOldest c else c in
      let '(b, t) := new_TokenBucket cap rate t in
      (insert_bucket key b c, t) in
  p ← consume_at key c t;
  let '(ok, c, t) := p in
  if ok : bool then Ok ([], c, t)
  else Ok (#"rate_limit_exceeded: " ++ limitType, c, t).

(** ** The limiter *)

Definition per_second (perMinute : N) : double := ddiv (dbl_of_N perMinute) (dbl_of_Z 60).

Definition new_limiter (cfg : Config) (t : nat) : limiter :=
  let '(g, t) := new_TokenBucket (dmul (dbl_of_N (globalPerMinute cfg)) (burstMultiplier cfg))
                   (per_second (globalPerMinute cfg)) t in
  mk_limiter cfg LRU_empty LRU_empty g 0 0 t.

(** Count a refusal and return its reason. *)
Definition refuse (why : bytes) (s : limiter) : CheckResult * limiter :=
  (mk_CheckResult false why,
   mk_limiter (config_ s) (ipCache_ s) (pubkeyCache_ s) (globalBucket_ s)
     (totalRequests_ s) (u64_add (rateLimitedRequests_ s) 1) (tick s)).

Definition check_global (s : limiter) : bool * limiter :=
  if (0 <? globalPerMinute (config_ s))%N then
    let '(ok, g, t) := consume (dbl_of_Z 1) (globalBucket_ s) (tick s) in
    (ok, mk_limiter (config_ s) (ipCache_ s) (pubkeyCache_ s) g
           (totalRequests_ s) (rateLimitedRequests_ s) t)
  else (true, s).

(** The reason of the per-IP stage, empty when it lets the request pass. *)
Definition check_ip (ipAddress : bytes) (s : limiter) : result (bytes * limiter) :=
  let cfg := config_ s in
  if (0 <? perIpPerMinute cfg)%N && negb (bool_decide (ipAddress = [])) then
    p ← checkBucket ipAddress (ipCache_ s)
          (dmul (dbl_of_N (perIpPerMinute cfg)) (burstMultiplier cfg))
          (per_second (perIpPerMinute cfg)) #"per_ip" (maxIpBuckets cfg) (tick s);
    let '(r, c, t) := p in
    Ok (r, mk_limiter cfg c (pubkeyCache_ s) (globalBucket_ s)
             (totalRequests_ s) (rateLimitedRequests_ s) t)
  else Ok ([], s).

Definition check_pubkey (pubkey : bytes) (s : limiter) : result (bytes * limiter) :=
  let cfg := config_ s in
  if (0 <? perPubkeyPerMinute cfg)%N && negb (bool_decide (pubkey = [])) then
    p ← checkBucket pubkey (pubkeyCache_ s)
          (dmul (dbl_of_N (perPubkeyPerMinute cfg)) (burstMultiplier cfg))
          (per_second (perPubkeyPerMinute cfg)) #"per_pubkey" (maxPubkeyBuckets cfg) (tick s);
    let '(r, c, t) := p in
    Ok (r, mk_limiter cfg (ipCache_ s) c (globalBucket_ s)
             (totalRequests_ s) (rateLimitedRequests_ s) t)
  else Ok ([], s).

Definition count_request (s : limiter) : limiter :=
  mk_limiter (config_ s) (ipCache_ s) (pubkeyCache_ s) (globalBucket_ s)
    (u64_add (totalRequests_ s) 1) (rateLimitedRequests_ s) (tick s).

Definition checkAndConsume (ipAddress pubkey : bytes) (s : limiter)
    : result (CheckResult * limiter) :=
  if negb (enabled (config_ s)) then Ok (CheckResult_default, s)
  else
    let s := count_request s in
    let '(ok, s) := check_global s in
    if negb ok then Ok (refuse #"rate_limit_exceeded: global" s)
    else
      p ← check_ip ipAddress s;
      let '(r, s) := p in
      if negb (bool_decide (r = [])) then Ok (refuse r s)
      else
        p ← check_pubkey pubkey s;
        let '(r, s) := p in
        if negb (bool_decide (r = [])) then Ok (refuse r s)
        else Ok (CheckResult_default, s).

(** The numbers of removed IP and pubkey buckets are what the log line
    prints. *)
Definition cleanup (s : limiter) : N * N * limiter :=
  let staleSeconds := dbl_of_N (staleBucketSeconds (config_ s)) in
  let '(ip, ipRemoved, t) := eraseStale staleSeconds (ipCache_ s) 0 (tick s) in
  let '(pk, pubkeyRemoved, t) := eraseStale staleSeconds (pubkeyCache_ s) 0 t in
  (ipRemoved, pubkeyRemoved,
   mk_limiter (config_ s) ip pk (globalBucket_ s) (totalRequests_ s)
     (rateLimitedRequests_ s) t).

Definition getStats (s : limiter) : Stats :=
  mk_Stats (totalRequests_ s) (rateLimitedRequests_ s)
    (N.of_nat (cache_size (ipCache_ s))) (N.of_nat (cache_size (pubkeyCache_ s))).

(** ** Calls *)

Inductive call :=
  | CheckAndConsume (ipAddress pubkey : bytes)
  | Cleanup
  | GetStats.

Inductive reply :=
  | Checked (r : CheckResult)
  | Cleaned (ipRemoved pubkeyRemoved : N)
  | Stated (st : Stats).

Definition step (s : limiter) (c : call) : result (reply * limiter) :=
  match c with
  | CheckAndConsume ip pk =>
      p ← checkAndConsume ip pk s;
      let '(r, s) := p in Ok (Checked r, s)
  | Cleanup =>
      let '(i, p, s) := cleanup s in Ok (Cleaned i p, s)
  | GetStats => Ok (Stated (getStats s), s)
  end.

Fixpoint run (s : limiter) (cs : list call) : result (list (call * reply) * limiter) :=
  match cs with
  | [] => Ok ([], s)
  | c :: cs =>
      p ← step s c;
      let '(r, s) := p in
      q ← run s cs;
      let '(log, s) := q in
      Ok ((c, r) :: log, s)
  end.
End operations.
End RateLimiter.

(** The LRU bucket cache of the rate limiter: its invariant, that every
    operation keeps it, and what each does to the order of the keys. *)

Import RateLimiter.

Definition keys (c : LRUBucketCache) : list bytes := (lruOrder c).*2.

(** List and map describe the same nodes, each key and each node once. *)
Record cache_ok (c : LRUBucketCache) : Prop := {
  ids_nodup : NoDup (lruOrder c).*1;
  keys_nodup : NoDup (keys c);
  nodes_agree : ∀ it key,
    (it, key) ∈ lruOrder c ↔ ∃ b, buckets c !! key = Some (b, it);
  ids_fresh : ∀ it key, (it, key) ∈ lruOrder c → it < next_node c;
}.

(** [key] becomes the most recently used. *)
Definition to_front (key : bytes) (l : list bytes) : list bytes :=
  key :: filter (.≠ key) l.

(** The distinct elements of a sequence, most recent first when the sequence
    is. *)
Fixpoint distinct (l : list bytes) : list bytes :=
  match l with
  | [] => []
  | k :: l => to_front k (distinct l)
  end.

Lemma cache_ok_empty : cache_ok LRU_empty.
Proof.
  split; [apply NoDup_nil_2|apply NoDup_nil_2| |by intros ? ? ?%not_elem_of_nil].
  intros it key. simpl. rewrite lookup_empty, elem_of_nil. naive_solver.
Qed.

Lemma keys_size c : cache_ok c → cache_size c = length (keys c).
Proof.
  intros Hok. unfold cache_size. rewrite <-size_dom.
  assert (dom (buckets c) = list_to_set (keys c)) as ->.
  { apply set_eq. intros k. rewrite elem_of_dom, elem_of_list_to_set. unfold keys.
    rewrite list_elem_of_fmap. split.
    - intros [[b it] Hb]. exists (it, k). split; [done|]. apply (nodes_agree c Hok). eauto.
    - intros ([it k'] & -> & Hin). apply (nodes_agree c Hok) in Hin as [b Hb]. by exists (b, it). }
  rewrite size_list_to_set; [done|apply (keys_nodup c Hok)].
Qed.

Lemma key_in c key b it :
  cache_ok c → buckets c !! key = Some (b, it) → (it, key) ∈ lruOrder c.
Proof. intros Hok Hb. apply (nodes_agree c Hok). eauto. Qed.

Lemma keys_elem c key : cache_ok c → key ∈ keys c ↔ is_Some (buckets c !! key).
Proof.
  intros Hok. unfold keys. rewrite list_elem_of_fmap. split.
  - intros ([it k'] & -> & Hin). apply (nodes_agree c Hok) in Hin as [b Hb]. by exists (b, it).
  - intros [[b it] Hb]. exists (it, key). split; [done|]. by eapply key_in.
Qed.

(** ** Association lists with distinct components *)

Lemma nodup_fst_inj {A B} (l : list (A * B)) a b b' :
  NoDup l.*1 → (a, b) ∈ l → (a, b') ∈ l → b = b'.
Proof.
  induction l as [|[x y] l IH]; simpl; [by intros _ ?%not_elem_of_nil|].
  intros [Hx Hnd]%NoDup_cons. rewrite !elem_of_cons.
  intros [E1|Hb] [E2|Hb']; simplify_eq; eauto; exfalso; apply Hx;
    apply list_elem_of_fmap; [by exists (x, b')|by exists (x, b)].
Qed.

Lemma filter_fst_snd (l : list (nat * bytes)) it key :
  NoDup l.*1 → NoDup l.*2 → (it, key) ∈ l →
  (filter (λ n, n.1 ≠ it) l).*2 = filter (.≠ key) l.*2.
Proof.
  induction l as [|[i k] l IH]; simpl; [by intros _ _ ?%not_elem_of_nil|].
  intros [Hi Hnd1]%NoDup_cons [Hk Hnd2]%NoDup_cons [[= <- <-]|Hin]%elem_of_cons.
  - rewrite !filter_cons_False by auto. clear IH Hnd1 Hnd2.
    induction l as [|[i' k'] l IH]; simpl; [done|].
    simpl in Hi, Hk. apply not_elem_of_cons in Hi as [? ?], Hk as [? ?].
    rewrite !filter_cons_True by auto. simpl. f_equal; auto.
  - assert (i ≠ it) by (intros ->; apply Hi; apply list_elem_of_fmap; by exists (it, key)).
    assert (k ≠ key) by (intros ->; apply Hk; apply list_elem_of_fmap; by exists (it, key)).
    rewrite !filter_cons_True by done. simpl. f_equal; auto.
Qed.

Lemma list_find_fst (l : list (nat * bytes)) it key :
  NoDup l.*1 → (it, key) ∈ l → ∃ i, list_find (λ n, n.1 = it) l = Some (i, (it, key)).
Proof.
  intros Hnd Hin. destruct (list_find_elem_of (λ n, n.1 = it) l (it, key)) as [[i [it' k]] Hf];
    [done|done|].
  exists i. apply list_find_Some in Hf as Hf'. destruct Hf' as (Hl & Heq & _). simpl in Heq. subst.
  apply list_elem_of_lookup_2 in Hl. by rewrite Hf, (nodup_fst_inj _ _ _ _ Hnd Hin Hl).
Qed.

(** ** The operations *)

Lemma touch_spec c it key :
  cache_ok c → (it, key) ∈ lruOrder c →
  ∃ c', touch it c = Ok c' ∧ cache_ok c' ∧ buckets c' = buckets c ∧
    keys c' = to_front key (keys c).
Proof.
  intros Hok Hin. destruct (list_find_fst _ _ _ (ids_nodup c Hok) Hin) as [i Hf].
  unfold touch. rewrite Hf. eexists. split; [done|].
  pose proof (filter_fst_snd _ _ _ (ids_nodup c Hok) (keys_nodup c Hok) Hin) as Hkeys.
  split; [|split; [done|unfold keys, to_front; simpl; by f_equal]].
  assert (∀ n, n ∈ (it, key) :: filter (λ n, n.1 ≠ it) (lruOrder c) ↔ n ∈ lruOrder c) as Hmem.
  { intros [i' k']. rewrite elem_of_cons, list_elem_of_filter. simpl. split.
    - by intros [[= -> ->]|[_ ?]].
    - intros Hn. destruct (decide (i' = it)) as [->|]; [left|by right].
      f_equal. eapply nodup_fst_inj; eauto using ids_nodup. }
  split; unfold keys; simpl.
  - constructor.
    + intros ([i' k'] & Heq & Hn)%list_elem_of_fmap. simpl in Heq. subst.
      apply list_elem_of_filter in Hn as [Hne _]. by simpl in Hne.
    + eapply sublist_NoDup; [apply (ids_nodup c Hok)|].
      apply fmap_sublist, sublist_filter.
  - unfold keys in Hkeys. constructor;
      change (list_fmap _ _ snd) with (fmap (M:=list) (@snd nat bytes));
      rewrite Hkeys; [|apply NoDup_filter, (keys_nodup c Hok)].
    by intros [? _]%list_elem_of_filter.
  - intros it' k'. rewrite Hmem. apply (nodes_agree c Hok).
  - intros it' k'. rewrite Hmem. apply (ids_fresh c Hok).
Qed.

Lemma get_spec c key :
  cache_ok c →
  match buckets c !! key with
  | None => get key c = Ok (false, c)
  | Some _ => ∃ c', get key c = Ok (true, c') ∧ cache_ok c' ∧ buckets c' = buckets c ∧
      keys c' = to_front key (keys c)
  end.
Proof.
  intros Hok. unfold get. destruct (buckets c !! key) as [[b it]|] eqn:Hb; [|done].
  destruct (touch_spec c it key Hok (key_in _ _ _ _ Hok Hb)) as (c' & -> & ?). by exists c'.
Qed.

Lemma insert_bucket_spec c key b :
  cache_ok c → buckets c !! key = None →
  cache_ok (insert_bucket key b c) ∧ keys (insert_bucket key b c) = key :: keys c ∧
  buckets (insert_bucket key b c) = <[key := (b, next_node c)]> (buckets c).
Proof.
  intros Hok Hb. assert (key ∉ keys c) as Hk.
  { intros Hin. apply (keys_elem c key Hok) in Hin as [? ?]. congruence. }
  unfold insert_bucket. rewrite Hb. split; [|done]. split; simpl.
  - constructor; [|apply (ids_nodup c Hok)].
    intros ([i k] & Heq & Hn)%list_elem_of_fmap. simpl in Heq.
    apply (ids_fresh c Hok) in Hn. lia.
  - constructor; [done|apply (keys_nodup c Hok)].
  - intros it k. rewrite elem_of_cons. destruct (decide (k = key)) as [->|Hne].
    + rewrite lookup_insert_eq. split.
      * intros [[= ->]|Hin]; [eauto|]. destruct Hk. apply list_elem_of_fmap. by exists (it, key).
      * intros [b' [= _ ->]]. by left.
    + rewrite lookup_insert_ne by done. rewrite <-(nodes_agree c Hok). naive_solver.
  - intros it k. rewrite elem_of_cons. intros [[= -> ->]|Hin]; [lia|].
    apply (ids_fresh c Hok) in Hin. lia.
Qed.

Lemma evictOldest_spec c :
  cache_ok c →
  cache_ok (evictOldest c) ∧ keys (evictOldest c) = removelast (keys c) ∧
  buckets (evictOldest c) ⊆ buckets c.
Proof.
  intros Hok. unfold evictOldest. destruct (last (lruOrder c)) as [[it key]|] eqn:Hl.
  2:{ apply last_None in Hl. unfold keys. by rewrite Hl. }
  apply last_Some in Hl as [l Hl]. destruct Hok as [Hi Hk Ha Hf]. unfold keys in *.
  assert ((lruOrder c).*1 = l.*1 ++ [it]) as E1 by (by rewrite Hl, fmap_app).
  assert ((lruOrder c).*2 = l.*2 ++ [key]) as E2 by (by rewrite Hl, fmap_app).
  rewrite E1 in Hi. rewrite E2 in Hk |- *. rewrite Hl, removelast_last in *. cbn [lruOrder].
  apply NoDup_app in Hi as (Hi & _ & _), Hk as (Hk & Hkd & _).
  rewrite removelast_last. split; [|split; [done|apply delete_subseteq]].
  split; simpl; [done|done| |].
  - intros it' k'. destruct (decide (k' = key)) as [->|Hne].
    + rewrite lookup_delete_eq. split; [|by intros [? ?]]. intros Hin.
      assert (key ∈ l.*2) as Hin' by (apply list_elem_of_fmap; by exists (it', key)).
      apply Hkd in Hin'. rewrite list_elem_of_singleton in Hin'. done.
    + rewrite lookup_delete_ne by done. rewrite <-Ha, elem_of_app, list_elem_of_singleton.
      naive_solver.
  - intros it' k' Hin. apply (Hf it' k'). rewrite elem_of_app. by left.
Qed.

Lemma consume_at_spec clock c key t :
  cache_ok c → is_Some (buckets c !! key) →
  ∃ ok c' t', consume_at clock key c t = Ok (ok, c', t') ∧ cache_ok c' ∧ keys c' = keys c.
Proof.
  intros Hok [[b it] Hb]. unfold consume_at. rewrite Hb.
  destruct (consume clock (dbl_of_Z 1) b t) as [[ok b'] t'].
  do 3 eexists. split; [done|]. split; [|done].
  destruct Hok as [Hi Hk Ha Hf]. split; simpl; [done|done| |done].
  intros it' k. rewrite Ha. destruct (decide (k = key)) as [->|Hne].
  - rewrite lookup_insert_eq, Hb. naive_solver.
  - by rewrite lookup_insert_ne.
Qed.

(** ** [checkBucket]: the cache holds the most recently used keys *)

Lemma take_to_front_hit n key l :
  key ∈ l → NoDup l → length l ≤ n → take n (to_front key l) = to_front key l.
Proof.
  intros Hin Hnd Hlen. apply take_ge. unfold to_front. simpl.
  apply list_elem_of_split in Hin as (l1 & l2 & ->).
  rewrite filter_app, filter_cons_False by auto.
  rewrite length_app in Hlen |- *. simpl in Hlen.
  pose proof (length_filter (.≠ key) l1). pose proof (length_filter (.≠ key) l2). lia.
Qed.

Lemma filter_absent key (l : list bytes) : key ∉ l → filter (.≠ key) l = l.
Proof.
  induction l as [|x l IH]; [done|]. intros [Hx Hl]%not_elem_of_cons.
  rewrite filter_cons_True by auto. f_equal. auto.
Qed.

Definition room (maxBuckets : N) : nat := Nat.max 1 (N.to_nat maxBuckets).

Lemma checkBucket_spec clock c key cap rate lt m t :
  cache_ok c → length (keys c) ≤ room m →
  ∃ r c' t', checkBucket clock key c cap rate lt m t = Ok (r, c', t') ∧
    cache_ok c' ∧ keys c' = take (room m) (to_front key (keys c)) ∧
    (r = [] ∨ r = #"rate_limit_exceeded: " ++ lt).
Proof.
  intros Hok Hlen. unfold checkBucket.
  pose proof (get_spec c key Hok) as Hget.
  destruct (buckets c !! key) as [p|] eqn:Hb.
  - destruct Hget as (c1 & -> & Hok1 & Hb1 & Hk1). simpl.
    destruct (consume_at_spec clock c1 key t Hok1) as (ok & c2 & t2 & -> & Hok2 & Hk2);
      [rewrite Hb1; eauto|].
    simpl. assert (keys c2 = take (room m) (to_front key (keys c))) as HK.
    { rewrite Hk2, Hk1, take_to_front_hit; eauto using keys_nodup.
      apply (keys_elem c key Hok). eauto. }
    destruct ok; do 3 eexists; eauto.
  - rewrite Hget. simpl. rewrite (keys_size c Hok).
    assert (key ∉ keys c) as Hnk by (rewrite (keys_elem c key Hok), Hb; by intros [? ?]).
    set (c1 := if (m <=? _)%N then evictOldest c else c).
    assert (cache_ok c1 ∧ buckets c1 ⊆ buckets c ∧
            key :: keys c1 = take (room m) (to_front key (keys c))) as (Hok1 & Hsub & HK).
    { unfold to_front. rewrite (filter_absent key (keys c) Hnk). subst c1.
      destruct (N.leb_spec m (N.of_nat (length (keys c)))) as [Hle|Hgt].
      - destruct (evictOldest_spec c Hok) as (? & -> & ?). split; [done|]. split; [done|].
        unfold room in *. destruct (Nat.max 1 (N.to_nat m)) as [|n] eqn:En; [lia|]. simpl.
        f_equal. destruct (last (keys c)) as [z|] eqn:El.
        + apply last_Some in El as [l El]. rewrite El, removelast_last in *.
          rewrite length_app in *. simpl in *. rewrite take_app_le by lia.
          symmetry. apply take_ge. lia.
        + apply last_None in El. rewrite El. by destruct n.
      - split; [done|]. split; [done|]. symmetry. apply take_ge. simpl. unfold room. lia. }
    assert (buckets c1 !! key = None) as Hb1 by (eapply lookup_weaken_None; eauto).
    destruct (insert_bucket_spec c1 key (mk_TokenBucket cap cap rate (clock t) 0) Hok1 Hb1)
      as (Hok2 & Hk2 & Hb2).
    destruct (consume_at_spec clock _ key (S t) Hok2) as (ok & c3 & t3 & -> & Hok3 & Hk3).
    { rewrite Hb2, lookup_insert_eq. eauto. }
    simpl. rewrite Hk2, HK in Hk3. destruct ok; do 3 eexists; eauto.
Qed.

(** ** [eraseStale] stops at the first bucket when the clock is monotone *)

Lemma refill_lastRefill clock b t : lastRefill (refill clock b t).1 = clock t.
Proof. done. Qed.

Lemma eraseStale_keeps clock c stale n t :
  (∀ i, (clock i ≤ clock (S i))%Z) → not_negative stale → cache_ok c →
  ∃ c' t', eraseStale clock stale c n t = (c', n, t') ∧
    cache_ok c' ∧ keys c' = keys c ∧ dom (buckets c') = dom (buckets c).
Proof.
  intros Hmono Hst Hok. unfold eraseStale.
  destruct (rev (lruOrder c)) as [|[it key] l] eqn:Hrev.
  { simpl. do 2 eexists. split; [done|].
    assert (lruOrder c = []) as Hl by (rewrite <-(rev_involutive (lruOrder c)), Hrev; done).
    destruct c as [ord bk nn]. simpl in *. subst. done. }
  assert (lruOrder c = rev l ++ [(it, key)]) as Hl
    by (rewrite <-(rev_involutive (lruOrder c)), Hrev; done).
  assert ((it, key) ∈ lruOrder c) as Hin
    by (rewrite Hl, elem_of_app, list_elem_of_singleton; by right).
  apply (nodes_agree c Hok) in Hin as Hb. destruct Hb as [b Hb].
  cbn -[refill]. rewrite Hb. destruct (refill clock b (S t)) as [b' t'] eqn:Href.
  assert (lastRefill b' = clock (S t)) as Hlr
    by (pose proof (refill_lastRefill clock b (S t)) as HR; by rewrite Href in HR).
  rewrite (not_positive_not_gt stale), andb_false_r; [|done|].
  2:{ apply seconds_not_positive. rewrite Hlr. specialize (Hmono t). lia. }
  do 2 eexists. split; [done|]. unfold keys. simpl. rewrite <-Hl.
  split; [|split; [done|]].
  - destruct Hok as [Hi Hk Ha Hf]. split; unfold keys; simpl; rewrite <-?Hl; try done.
    intros it' k. rewrite Ha. destruct (decide (k = key)) as [->|Hne].
    + rewrite lookup_insert_eq, Hb. naive_solver.
    + by rewrite lookup_insert_ne.
  - rewrite dom_insert_L. apply (elem_of_dom_2 (D:=gset bytes)) in Hb. set_solver.
Qed.

(** ** Recency *)

Lemma distinct_NoDup l : NoDup (distinct l).
Proof.
  induction l as [|k l IH]; simpl; [constructor|]. constructor; [|by apply NoDup_filter].
  by intros [? _]%list_elem_of_filter.
Qed.

Lemma take_filter_take n key (l : list bytes) :
  NoDup l → take n (filter (.≠ key) (take (S n) l)) = take n (filter (.≠ key) l).
Proof.
  revert n. induction l as [|x l IH]; intros n; [done|]. intros [Hx Hnd]%NoDup_cons. simpl.
  destruct (decide (x = key)) as [->|Hne].
  - rewrite !filter_cons_False by auto.
    rewrite !filter_absent; [by rewrite take_take, Nat.min_id|done|].
    intros Hin. apply Hx. by eapply elem_of_take in Hin as (? & ?%list_elem_of_lookup_2 & _).
  - rewrite !filter_cons_True by done. destruct n as [|n]; [done|].
    change (take (S n) (x :: l)) with (x :: take n l). simpl. f_equal.
    specialize (IH n Hnd). destruct l as [|y l]; [done|]. by apply IH.
Qed.

(** Bringing a key to the front of the truncated list is truncating the list
    with the key brought to the front. *)
Lemma take_to_front n key l :
  NoDup l → take (S n) (to_front key (take (S n) l)) = take (S n) (to_front key l).
Proof. intros Hnd. unfold to_front. simpl. f_equal. by apply take_filter_take. Qed.
