(* ===== verification/RateLimitTheorems.v ===== *)
(** What the rate limiter guarantees over any sequence of calls: it never
    fails, its two caches stay bounded and hold exactly the most recently
    served clients, its counters count, its cleanup is vacuous, and its burst
    allowance at the default configuration is exact. *)

From stdpp Require Import countable gmap fin_maps.
From S2P Require Import Prelude Double RateLimit.

Import RateLimiter.

#[global] Arguments checkBucket : simpl never.
#[global] Arguments consume : simpl never.
#[global] Arguments cleanup : simpl never.

Definition why_global : bytes := #"rate_limit_exceeded: global".
Definition why_ip : bytes := #"rate_limit_exceeded: per_ip".
Definition why_pubkey : bytes := #"rate_limit_exceeded: per_pubkey".

Record limiter_ok (s : limiter) : Prop := {
  lo_ip : cache_ok (ipCache_ s);
  lo_pubkey : cache_ok (pubkeyCache_ s);
  lo_ip_room : length (keys (ipCache_ s)) ≤ room (maxIpBuckets (config_ s));
  lo_pubkey_room : length (keys (pubkeyCache_ s)) ≤ room (maxPubkeyBuckets (config_ s));
}.

(** ** Reading a log *)

Definition is_check (e : call * reply) : bool :=
  match e.1 with CheckAndConsume _ _ => true | _ => false end.

Definition is_refusal (e : call * reply) : bool :=
  match e.2 with Checked r => negb (allowed r) | _ => false end.

(** The address whose bucket the request reached, and the same for the
    pubkey: each stage runs only when the earlier ones let the request
    pass. *)
Definition ip_use (cfg : Config) (e : call * reply) : option bytes :=
  match e with
  | (CheckAndConsume ip _, Checked r) =>
      if enabled cfg && (0 <? perIpPerMinute cfg)%N && negb (bool_decide (ip = []))
         && negb (bool_decide (reason r = why_global)) then Some ip else None
  | _ => None
  end.

Definition pubkey_use (cfg : Config) (e : call * reply) : option bytes :=
  match e with
  | (CheckAndConsume _ pk, Checked r) =>
      if enabled cfg && (0 <? perPubkeyPerMinute cfg)%N && negb (bool_decide (pk = []))
         && negb (bool_decide (reason r = why_global))
         && negb (bool_decide (reason r = why_ip)) then Some pk else None
  | _ => None
  end.

Definition used (n : nat) (k : option bytes) (l : list bytes) : list bytes :=
  match k with Some k => take n (to_front k l) | None => l end.

(** What one call does to the observable parts of the limiter. *)
Record step_effect (s : limiter) (e : call * reply) (s' : limiter) : Prop := {
  se_ok : limiter_ok s';
  se_config : config_ s' = config_ s;
  se_ip : keys (ipCache_ s') =
    used (room (maxIpBuckets (config_ s))) (ip_use (config_ s) e) (keys (ipCache_ s));
  se_pubkey : keys (pubkeyCache_ s') =
    used (room (maxPubkeyBuckets (config_ s))) (pubkey_use (config_ s) e)
      (keys (pubkeyCache_ s));
  se_total : totalRequests_ s' =
    if is_check e && enabled (config_ s) then u64_add (totalRequests_ s) 1
    else totalRequests_ s;
  se_limited : rateLimitedRequests_ s' =
    if is_refusal e then u64_add (rateLimitedRequests_ s) 1 else rateLimitedRequests_ s;
  se_cleanup : e.1 = Cleanup → e.2 = Cleaned 0 0;
}.

Lemma room_pos m : ∃ n, room m = S n.
Proof. unfold room. destruct (Nat.max 1 _) eqn:E; [lia|eauto]. Qed.

(** A request leaves the caches of the stages it does not reach alone. *)
Lemma check_global_frame clock s ok s' :
  check_global clock s = (ok, s') →
  config_ s' = config_ s ∧ ipCache_ s' = ipCache_ s ∧ pubkeyCache_ s' = pubkeyCache_ s ∧
  totalRequests_ s' = totalRequests_ s ∧ rateLimitedRequests_ s' = rateLimitedRequests_ s.
Proof.
  unfold check_global. case_match; [|by intros [= <- <-]].
  destruct (consume clock (dbl_of_Z 1) (globalBucket_ s) (tick s)) as [[? ?] ?].
  by intros [= <- <-].
Qed.

Lemma check_ip_spec clock ip s :
  limiter_ok s →
  ∃ r s', check_ip clock ip s = Ok (r, s') ∧ limiter_ok s' ∧ config_ s' = config_ s ∧
    (r = [] ∨ r = why_ip) ∧ pubkeyCache_ s' = pubkeyCache_ s ∧
    keys (ipCache_ s') =
      used (room (maxIpBuckets (config_ s)))
        (if (0 <? perIpPerMinute (config_ s))%N && negb (bool_decide (ip = []))
         then Some ip else None) (keys (ipCache_ s)) ∧
    totalRequests_ s' = totalRequests_ s ∧ rateLimitedRequests_ s' = rateLimitedRequests_ s.
Proof.
  intros Hok. unfold check_ip. case_match; [|do 2 eexists; naive_solver].
  destruct (checkBucket_spec clock (ipCache_ s) ip
    (dmul (dbl_of_N (perIpPerMinute (config_ s))) (burstMultiplier (config_ s)))
    (per_second (perIpPerMinute (config_ s))) #"per_ip"
    (maxIpBuckets (config_ s)) (tick s) (lo_ip s Hok) (lo_ip_room s Hok))
    as (r & c' & t' & -> & Hc & Hk & Hr).
  do 2 eexists. split; [done|]. simpl. split; [|naive_solver].
  destruct Hok. split; simpl; try done. rewrite Hk, length_take. lia.
Qed.

Lemma check_pubkey_spec clock pk s :
  limiter_ok s →
  ∃ r s', check_pubkey clock pk s = Ok (r, s') ∧ limiter_ok s' ∧ config_ s' = config_ s ∧
    (r = [] ∨ r = why_pubkey) ∧ ipCache_ s' = ipCache_ s ∧
    keys (pubkeyCache_ s') =
      used (room (maxPubkeyBuckets (config_ s)))
        (if (0 <? perPubkeyPerMinute (config_ s))%N && negb (bool_decide (pk = []))
         then Some pk else None) (keys (pubkeyCache_ s)) ∧
    totalRequests_ s' = totalRequests_ s ∧ rateLimitedRequests_ s' = rateLimitedRequests_ s.
Proof.
  intros Hok. unfold check_pubkey. case_match; [|do 2 eexists; naive_solver].
  destruct (checkBucket_spec clock (pubkeyCache_ s) pk
    (dmul (dbl_of_N (perPubkeyPerMinute (config_ s))) (burstMultiplier (config_ s)))
    (per_second (perPubkeyPerMinute (config_ s))) #"per_pubkey"
    (maxPubkeyBuckets (config_ s)) (tick s) (lo_pubkey s Hok) (lo_pubkey_room s Hok))
    as (r & c' & t' & -> & Hc & Hk & Hr).
  do 2 eexists. split; [done|]. simpl. split; [|naive_solver].
  destruct Hok. split; simpl; try done. rewrite Hk, length_take. lia.
Qed.

Lemma limiter_ok_refuse why s : limiter_ok s → limiter_ok (refuse why s).2.
Proof. by intros []; split. Qed.

Lemma checkAndConsume_effect clock ip pk s :
  limiter_ok s →
  ∃ r s', checkAndConsume clock ip pk s = Ok (r, s') ∧
    step_effect s (CheckAndConsume ip pk, Checked r) s'.
Proof.
  intros Hok. unfold checkAndConsume.
  destruct (enabled (config_ s)) eqn:Hen; simpl.
  2:{ do 2 eexists. split; [done|]. split; simpl; rewrite ?Hen; done. }
  destruct (check_global clock (count_request s)) as [ok s1] eqn:Hg.
  apply check_global_frame in Hg as (Hc1 & Hi1 & Hp1 & Ht1 & Hl1). simpl in *.
  assert (limiter_ok s1) as Hok1.
  { destruct Hok. split; rewrite ?Hi1, ?Hp1, ?Hc1; done. }
  destruct ok; simpl.
  2:{ do 2 eexists. split; [done|].
      split; [by apply (limiter_ok_refuse why_global s1)|..]; simpl;
        rewrite ?Hen, ?Hc1, ?Hi1, ?Hp1, ?Ht1, ?Hl1; simpl; by rewrite ?andb_false_r. }
  destruct (check_ip_spec clock ip s1 Hok1)
    as (r2 & s2 & -> & Hok2 & Hc2 & Hr2 & Hp2 & Hk2 & Ht2 & Hl2).
  rewrite Hi1, Hc1 in Hk2. simpl. destruct Hr2 as [->| ->]; simpl.
  2:{ do 2 eexists. split; [done|].
      split; [by apply (limiter_ok_refuse why_ip s2)|..]; simpl;
        rewrite ?Hen, ?Hc2, ?Hc1, ?Hk2, ?Hp2, ?Hp1, ?Ht2, ?Ht1, ?Hl2, ?Hl1; simpl;
        by rewrite ?andb_false_r, ?andb_true_r. }
  destruct (check_pubkey_spec clock pk s2 Hok2)
    as (r3 & s3 & -> & Hok3 & Hc3 & Hr3 & Hi3 & Hk3 & Ht3 & Hl3).
  rewrite Hp2, Hp1, Hc2, Hc1 in Hk3. simpl.
  destruct Hr3 as [->| ->]; simpl; do 2 eexists; (split; [done|]);
    (split; [first [by apply (limiter_ok_refuse why_pubkey s3)|done]|..]); simpl;
    rewrite ?Hen, ?Hc3, ?Hc2, ?Hc1, ?Hi3, ?Hk3, ?Hk2, ?Ht3, ?Ht2, ?Ht1, ?Hl3, ?Hl2, ?Hl1;
    simpl; by rewrite ?andb_true_r.
Qed.

Lemma cleanup_effect clock s :
  (∀ i, (clock i ≤ clock (S i))%Z) → limiter_ok s →
  ∃ s', cleanup clock s = (0%N, 0%N, s') ∧ step_effect s (Cleanup, Cleaned 0 0) s'.
Proof.
  intros Hm Hok. unfold cleanup.
  destruct (eraseStale_keeps clock (ipCache_ s) (dbl_of_N (staleBucketSeconds (config_ s))) 0
    (tick s) Hm (dbl_of_N_not_negative _) (lo_ip s Hok)) as (c1 & t1 & -> & Hc1 & Hk1 & _).
  destruct (eraseStale_keeps clock (pubkeyCache_ s) (dbl_of_N (staleBucketSeconds (config_ s))) 0
    t1 Hm (dbl_of_N_not_negative _) (lo_pubkey s Hok)) as (c2 & t2 & -> & Hc2 & Hk2 & _).
  eexists. split; [done|]. destruct Hok. split; simpl; try done. split; simpl; congruence.
Qed.

Lemma step_effect_ok clock s c :
  (∀ i, (clock i ≤ clock (S i))%Z) → limiter_ok s →
  ∃ r s', step clock s c = Ok (r, s') ∧ step_effect s (c, r) s'.
Proof.
  intros Hm Hok. destruct c as [ip pk| |]; simpl.
  - destruct (checkAndConsume_effect clock ip pk s Hok) as (r & s' & -> & He). simpl. eauto.
  - destruct (cleanup_effect clock s Hm Hok) as (s' & -> & He). eauto.
  - do 2 eexists. split; [done|]. by split.
Qed.

(** ** Any sequence of calls *)

Definition count {A} (p : A → bool) (l : list A) : N := N.of_nat (length (List.filter p l)).

Definition when_enabled (cfg : Config) (n : N) : N := if enabled cfg then n else 0%N.

Definition used_all (n : nat) (use : call * reply → option bytes)
    (log : list (call * reply)) (l : list bytes) : list bytes :=
  foldl (λ l e, used n (use e) l) l log.

Record run_effect (s : limiter) (log : list (call * reply)) (s' : limiter) : Prop := {
  re_ok : limiter_ok s';
  re_config : config_ s' = config_ s;
  re_ip : keys (ipCache_ s') =
    used_all (room (maxIpBuckets (config_ s))) (ip_use (config_ s)) log (keys (ipCache_ s));
  re_pubkey : keys (pubkeyCache_ s') =
    used_all (room (maxPubkeyBuckets (config_ s))) (pubkey_use (config_ s)) log
      (keys (pubkeyCache_ s));
  re_total : u64_wrap (totalRequests_ s') =
    u64_wrap (totalRequests_ s + when_enabled (config_ s) (count is_check log));
  re_limited : u64_wrap (rateLimitedRequests_ s') =
    u64_wrap (rateLimitedRequests_ s + count is_refusal log);
  re_cleanup : ∀ r, (Cleanup, r) ∈ log → r = Cleaned 0 0;
}.

Lemma u64_wrap_add_l a b : u64_wrap (u64_wrap a + b) = u64_wrap (a + b).
Proof. unfold u64_wrap. by rewrite N.Div0.add_mod_idemp_l. Qed.

Lemma count_cons {A} (p : A → bool) a l :
  count p (a :: l) = ((if p a then 1 else 0) + count p l)%N.
Proof. unfold count. simpl. destruct (p a); simpl; lia. Qed.

Lemma step_run_effect s e s1 log s' :
  step_effect s e s1 → run_effect s1 log s' → run_effect s (e :: log) s'.
Proof.
  intros [Hok1 Hc1 Hi1 Hp1 Ht1 Hl1 Hcl1] [Hok Hc Hi Hp Ht Hl Hcl].
  rewrite Hc1 in *. split; [done|congruence| | | | |].
  - by rewrite Hi, Hi1.
  - by rewrite Hp, Hp1.
  - rewrite Ht, Ht1, count_cons. unfold when_enabled.
    destruct (is_check e), (enabled (config_ s)); simpl; try (f_equal; lia).
    unfold u64_add. rewrite u64_wrap_add_l. f_equal. lia.
  - rewrite Hl, Hl1, count_cons. destruct (is_refusal e); [|f_equal; lia].
    unfold u64_add. rewrite u64_wrap_add_l. f_equal. lia.
  - intros r [<-|Hin]%elem_of_cons; [by apply Hcl1|by apply Hcl].
Qed.

Lemma run_effect_ok clock s cs :
  (∀ i, (clock i ≤ clock (S i))%Z) → limiter_ok s →
  ∃ log s', run clock s cs = Ok (log, s') ∧ log.*1 = cs ∧ run_effect s log s'.
Proof.
  intros Hm. revert s. induction cs as [|c cs IH]; intros s Hok.
  - exists [], s. split; [done|]. split; [done|]. split; simpl; rewrite ?N.add_0_r; try done.
    + unfold when_enabled. by case_match; rewrite N.add_0_r.
    + by intros r ?%not_elem_of_nil.
  - destruct (step_effect_ok clock s c Hm Hok) as (r & s1 & Hs & He).
    destruct (IH s1 (se_ok _ _ _ He)) as (log & s' & Hr & Hlog & Hre).
    exists ((c, r) :: log), s'. simpl. rewrite Hs. simpl. rewrite Hr. simpl.
    split; [done|]. split; [by f_equal|]. by eapply step_run_effect.
Qed.

(** A cache that starts empty holds the most recent distinct users. *)
Lemma used_all_recent m use log :
  used_all (room m) use log [] = take (room m) (distinct (rev (omap use log))).
Proof.
  induction log as [|e log IH] using rev_ind; [by destruct (room m)|].
  unfold used_all in *. rewrite foldl_app. simpl. rewrite IH, omap_app, rev_app_distr.
  simpl. destruct (use e) as [k|]; [|done]. simpl.
  destruct (room_pos m) as [n ->]. apply take_to_front, distinct_NoDup.
Qed.

Lemma new_limiter_ok clock cfg t : limiter_ok (new_limiter clock cfg t).
Proof. split; simpl; try apply cache_ok_empty; lia. Qed.

Lemma run_fresh clock cfg t cs :
  (∀ i, (clock i ≤ clock (S i))%Z) →
  ∃ log s', run clock (new_limiter clock cfg t) cs = Ok (log, s') ∧ log.*1 = cs ∧
    run_effect (new_limiter clock cfg t) log s'.
Proof. intros Hm. apply run_effect_ok; [done|apply new_limiter_ok]. Qed.

(** C37: a fresh rate limiter serves every sequence of calls (requests,
    cleanups, statistics, in any interleaving) without touching an invalid
    iterator or a missing bucket; afterwards each cache holds exactly the most
    recent distinct clients that reached it, most recent first, at most
    [max 1 maxBuckets] of them.  In particular a cleanup removes no bucket,
    however old - unlike what the source's comments and configuration say of it:
    it refills every bucket before it measures its age, so none is ever stale,
    and only eviction bounds the caches. *)
Theorem limiter_serves_recent clock cfg t cs :
  (∀ i, (clock i ≤ clock (S i))%Z) →
  ∃ log s',
    run clock (new_limiter clock cfg t) cs = Ok (log, s') ∧ log.*1 = cs ∧
    keys (ipCache_ s') =
      take (room (maxIpBuckets cfg)) (distinct (rev (omap (ip_use cfg) log))) ∧
    keys (pubkeyCache_ s') =
      take (room (maxPubkeyBuckets cfg)) (distinct (rev (omap (pubkey_use cfg) log))) ∧
    (∀ r, (Cleanup, r) ∈ log → r = Cleaned 0 0).
Proof.
  intros Hm. destruct (run_fresh clock cfg t cs Hm) as (log & s' & Hr & Hlog & []).
  exists log, s'. by rewrite <-!used_all_recent.
Qed.

(** The statistics after any sequence of calls count every request made
    while the limiter is enabled and every refusal it returned (modulo 2^64),
    and the number of clients each cache holds. *)
Theorem limiter_statistics clock cfg t cs log s' :
  (∀ i, (clock i ≤ clock (S i))%Z) →
  run clock (new_limiter clock cfg t) cs = Ok (log, s') →
  u64_wrap (stats_totalRequests (getStats s'))
    = u64_wrap (when_enabled cfg (count is_check log)) ∧
  u64_wrap (stats_rateLimitedRequests (getStats s')) = u64_wrap (count is_refusal log) ∧
  stats_ipBuckets (getStats s') =
    N.of_nat (Nat.min (room (maxIpBuckets cfg)) (length (distinct (rev (omap (ip_use cfg) log))))) ∧
  stats_pubkeyBuckets (getStats s') =
    N.of_nat (Nat.min (room (maxPubkeyBuckets cfg))
                (length (distinct (rev (omap (pubkey_use cfg) log))))).
Proof.
  intros Hm Hrun. destruct (run_fresh clock cfg t cs Hm) as (log' & s'' & Hr & _ & He).
  rewrite Hrun in Hr. simplify_eq. destruct He as [[Hi Hp _ _] _ Hki Hkp Ht Hl _]. simpl in *.
  rewrite (keys_size _ Hi), (keys_size _ Hp), Hki, Hkp. simpl.
  rewrite !used_all_recent, !length_take. done.
Qed.

(** [cleanup] never removes a bucket, however old: it refills each bucket
    before measuring how long ago the bucket was last refilled, so on a
    monotone clock no bucket is ever stale. *)
Theorem cleanup_removes_nothing clock s :
  (∀ i, (clock i ≤ clock (S i))%Z) → limiter_ok s →
  ∃ s', cleanup clock s = (0%N, 0%N, s') ∧
    keys (ipCache_ s') = keys (ipCache_ s) ∧ keys (pubkeyCache_ s') = keys (pubkeyCache_ s).
Proof.
  intros Hm Hok. destruct (cleanup_effect clock s Hm Hok) as (s' & Hc & []). by exists s'.
Qed.

(** ** Samples *)

(** One reading of the clock a second; two addresses fit the cache. *)
Definition sample_clock (i : nat) : Z := (Z.of_nat i * 1000000000)%Z.

Definition sample_Config : Config :=
  mk_Config true 60 100 1000 (dbl_of_Z 2) 60 2 2 60.

Definition sample_calls : list call :=
  [CheckAndConsume #"10.0.0.1" []; CheckAndConsume #"10.0.0.2" #"aa"; Cleanup;
   CheckAndConsume #"10.0.0.1" #"bb"; CheckAndConsume #"10.0.0.3" []; GetStats].

Lemma sample_clock_monotone i : (sample_clock i ≤ sample_clock (S i))%Z.
Proof. unfold sample_clock. lia. Qed.

(** 10.0.0.2 was the least recently served, so it made room for 10.0.0.3. *)
Example sample_run_keys :
  match run sample_clock (new_limiter sample_clock sample_Config 0) sample_calls with
  | Ok (_, s) => keys (ipCache_ s) = [ #"10.0.0.3"; #"10.0.0.1"] ∧
      keys (pubkeyCache_ s) = [ #"bb"; #"aa"] ∧ getStats s = mk_Stats 4 0 2 2
  | Throw _ => False
  end.
Proof. by vm_compute. Qed.

Lemma limiter_serves_recent_witness :
  ∃ log s',
    run sample_clock (new_limiter sample_clock sample_Config 0) sample_calls = Ok (log, s') ∧
    log.*1 = sample_calls ∧
    keys (ipCache_ s') =
      take (room (maxIpBuckets sample_Config)) (distinct (rev (omap (ip_use sample_Config) log))) ∧
    keys (pubkeyCache_ s') =
      take (room (maxPubkeyBuckets sample_Config))
        (distinct (rev (omap (pubkey_use sample_Config) log))) ∧
    ∀ r, (Cleanup, r) ∈ log → r = Cleaned 0 0.
Proof. apply limiter_serves_recent, sample_clock_monotone. Defined.

Lemma limiter_statistics_witness :
  ∃ log s',
    run sample_clock (new_limiter sample_clock sample_Config 0) sample_calls = Ok (log, s') ∧
    u64_wrap (stats_totalRequests (getStats s'))
      = u64_wrap (when_enabled sample_Config (count is_check log)).
Proof.
  destruct (run_fresh sample_clock sample_Config 0 sample_calls sample_clock_monotone) as (log & s' & Hrun & _).
  exists log, s'. split; [done|].
  by apply (limiter_statistics sample_clock sample_Config 0 sample_calls log s'
    sample_clock_monotone).
Defined.

Lemma cleanup_removes_nothing_witness :
  ∃ s', cleanup sample_clock (new_limiter sample_clock sample_Config 0) = (0%N, 0%N, s') ∧
    keys (ipCache_ s') = [] ∧ keys (pubkeyCache_ s') = [].
Proof.
  apply (cleanup_removes_nothing sample_clock); [apply sample_clock_monotone|].
  apply new_limiter_ok.
Defined.

(** The burst allowance of the rate limiter at its default configuration:
    what a client that sends any number of requests at one instant is
    answered, computed from the floating-point token buckets. *)

Import RateLimiter.

#[export] Instance double_eq_dec : EqDecision double.
Proof. solve_decision. Defined.

(** ** [checkBucket] by the bucket it finds or makes *)

Definition available (clock : nat → Z) (c : LRUBucketCache) (key : bytes)
    (cap rate : double) (t : nat) : TokenBucket * nat :=
  match buckets c !! key with
  | Some (b, _) => (b, t)
  | None => new_TokenBucket clock cap rate t
  end.

Lemma checkBucket_decides clock c key cap rate lt m t b0 t0 ok b t' :
  cache_ok c → available clock c key cap rate t = (b0, t0) →
  consume clock (dbl_of_Z 1) b0 t0 = (ok, b, t') →
  ∃ c' it, checkBucket clock key c cap rate lt m t =
      Ok (if ok then [] else #"rate_limit_exceeded: " ++ lt, c', t') ∧
    buckets c' !! key = Some (b, it).
Proof.
  intros Hok Hav Hcons. unfold available in Hav. unfold checkBucket.
  pose proof (get_spec c key Hok) as Hget.
  destruct (buckets c !! key) as [[b1 it]|] eqn:Hb.
  - injection Hav as -> ->. destruct Hget as (c1 & -> & Hok1 & Hb1 & Hk1). simpl.
    unfold consume_at. rewrite Hb1, Hb, Hcons. simpl. destruct ok; do 2 eexists;
      (split; [done|]); simpl; apply lookup_insert_eq.
  - rewrite Hget, Hav. simpl. set (c1 := if (m <=? _)%N then evictOldest c else c).
    assert (cache_ok c1 ∧ buckets c1 ⊆ buckets c) as [Hok1 Hsub].
    { subst c1. case_match; [|done]. destruct (evictOldest_spec c Hok) as (? & _ & ?). done. }
    assert (buckets c1 !! key = None) as Hb1 by (eapply lookup_weaken_None; eauto).
    destruct (insert_bucket_spec c1 key b0 Hok1 Hb1) as (_ & _ & Hb2).
    unfold consume_at. rewrite Hb2, lookup_insert_eq, Hcons. simpl.
    destruct ok; do 2 eexists; (split; [done|]); simpl; apply lookup_insert_eq.
Qed.

(** ** Token arithmetic at one instant *)

(** The refill of a bucket of [n] tokens after no time has passed leaves [n],
    and consuming one leaves [n - 1]. *)
Definition instant_step_ok (cap rate : double) (n : N) : bool :=
  let tk := dmin cap (dadd (dbl_of_N n) (dmul (seconds_of_ns 0) rate)) in
  bool_decide (tk = dbl_of_N n) && Bool.eqb (dgeb tk (dbl_of_Z 1)) (0 <? n)%N &&
  (if (0 <? n)%N then bool_decide (dsub tk (dbl_of_Z 1) = dbl_of_N (n - 1)) else true).

Definition instant_ok (cap rate : double) (max : nat) : bool :=
  forallb (λ n, instant_step_ok cap rate (N.of_nat n)) (seq 0 (S max)).

Record bucket_at (T : Z) (cap rate : double) (n : nat) (b : TokenBucket) : Prop := {
  ba_tokens : tokens b = dbl_of_N (N.of_nat n);
  ba_capacity : capacity b = cap;
  ba_rate : refillRate b = rate;
  ba_last : lastRefill b = T;
}.

Lemma consume_instant clock T cap rate max n b t :
  (∀ i, clock i = T) → instant_ok cap rate max = true → n ≤ max →
  bucket_at T cap rate n b →
  ∃ b' t', consume clock (dbl_of_Z 1) b t = (0 <? n, b', t') ∧
    bucket_at T cap rate (n - 1) b'.
Proof.
  intros Hclk Hall Hle [Ht Hc Hr Hl]. unfold instant_ok in Hall.
  rewrite forallb_forall in Hall. specialize (Hall n). rewrite in_seq in Hall.
  specialize (Hall ltac:(lia)). unfold instant_step_ok in Hall.
  apply andb_true_iff in Hall as [[H1' H2']%andb_true_iff H3'].
  apply bool_decide_eq_true in H1'. apply Bool.eqb_prop in H2'.
  unfold consume, refill. rewrite Hclk, Hl, Hc, Hr, Ht, Z.sub_diag, H1'. cbn [tokens].
  rewrite H1' in H2', H3'. rewrite H2'.
  replace (0 <? N.of_nat n)%N with (0 <? n) in * by
    (destruct (Nat.ltb_spec 0 n), (N.ltb_spec 0 (N.of_nat n)); lia).
  destruct (Nat.ltb_spec 0 n) as [Hn|Hn].
  - apply bool_decide_eq_true in H3'. do 2 eexists. split; [done|]. split; simpl; try done.
    rewrite H3'. f_equal. lia.
  - do 2 eexists. split; [done|]. split; simpl; try done. do 2 f_equal. lia.
Qed.

(** ** A single client *)

Definition global_cap : double := dbl_of_N 2000.
Definition ip_cap : double := dbl_of_N 120.

Lemma global_instant : instant_ok global_cap (per_second 1000) 2000 = true.
Proof. by vm_compute. Qed.

Lemma ip_instant : instant_ok ip_cap (per_second 60) 120 = true.
Proof. by vm_compute. Qed.

Record client_state (clock : nat → Z) (T : Z) (ip : bytes) (g p : nat) (s : limiter)
    : Prop := {
  cs_ok : limiter_ok s;
  cs_config : config_ s = default_Config;
  cs_global : bucket_at T global_cap (per_second 1000) g (globalBucket_ s);
  cs_global_le : g ≤ 2000;
  cs_ip_le : p ≤ 120;
  cs_ip : ∀ t, bucket_at T ip_cap (per_second 60) p
    (available clock (ipCache_ s) ip ip_cap (per_second 60) t).1;
}.

Definition answer (g p : nat) : CheckResult :=
  if 0 <? g then if 0 <? p then CheckResult_default else mk_CheckResult false why_ip
  else mk_CheckResult false why_global.

Lemma check_global_instant clock T ip g p s :
  (∀ i, clock i = T) → client_state clock T ip g p s →
  ∃ s', check_global clock s = (0 <? g, s') ∧ client_state clock T ip (g - 1) p s'.
Proof.
  intros Hclk [Hok Hcfg Hg Hgl Hpl Hp]. unfold check_global. rewrite Hcfg.
  destruct (consume_instant clock T _ _ 2000 g _ (tick s) Hclk global_instant Hgl Hg)
    as (gb & t1 & Hcons & Hgb).
  simpl. rewrite Hcons. eexists. split; [done|]. split; simpl; try done; [|lia].
  destruct Hok. rewrite Hcfg in *. by split.
Qed.

Lemma check_ip_instant clock T ip g p s :
  (∀ i, clock i = T) → ip ≠ [] → client_state clock T ip g p s →
  ∃ s', check_ip clock ip s = Ok (if 0 <? p then [] else why_ip, s') ∧
    client_state clock T ip g (p - 1) s'.
Proof.
  intros Hclk Hip [Hok Hcfg Hg Hgl Hpl Hp].
  destruct (check_ip_spec clock ip s Hok) as (r & s' & Heq & Hok' & Hcfg' & _).
  exists s'. revert Heq. unfold check_ip. rewrite Hcfg, bool_decide_eq_false_2 by done.
  assert (dmul (dbl_of_N (perIpPerMinute default_Config)) (burstMultiplier default_Config)
    = ip_cap) as -> by (by vm_compute).
  cbn [perIpPerMinute default_Config negb andb N.ltb N.compare].
  destruct (available clock (ipCache_ s) ip ip_cap (per_second 60) (tick s)) as [b0 t0] eqn:Hav.
  pose proof (Hp (tick s)) as Hb0. rewrite Hav in Hb0.
  destruct (consume_instant clock T _ _ 120 p _ t0 Hclk ip_instant Hpl Hb0)
    as (b & t' & Hcons & Hb).
  destruct (checkBucket_decides clock (ipCache_ s) ip ip_cap (per_second 60) #"per_ip"
    (maxIpBuckets default_Config) (tick s) _ _ _ _ _ (lo_ip s Hok) Hav Hcons)
    as (c' & it & -> & Hlook).
  simpl. intros [= <- <-]. split; [by destruct (0 <? p)|].
  split; simpl; try done; [lia|]. intros t. unfold available. by rewrite Hlook.
Qed.

Lemma client_state_counters clock T ip g p s tot lim :
  client_state clock T ip g p s →
  client_state clock T ip g p
    (mk_limiter (config_ s) (ipCache_ s) (pubkeyCache_ s) (globalBucket_ s) tot lim (tick s)).
Proof. intros [[] ? ? ? ? ?]. by split; simpl; [split|..]. Qed.

Lemma client_step clock T ip g p s :
  (∀ i, clock i = T) → ip ≠ [] → client_state clock T ip g p s →
  ∃ s', checkAndConsume clock ip [] s = Ok (answer g p, s') ∧
    client_state clock T ip (g - 1) (if 0 <? g then p - 1 else p) s'.
Proof.
  intros Hclk Hip Hst. unfold checkAndConsume, answer.
  rewrite (cs_config _ _ _ _ _ _ Hst). cbn [enabled default_Config negb].
  destruct (check_global_instant clock T ip g p (count_request s) Hclk)
    as (s1 & -> & Hst1); [by apply client_state_counters|].
  destruct (0 <? g); cbn [negb].
  2:{ eexists. split; [done|]. by apply client_state_counters. }
  destruct (check_ip_instant clock T ip (g - 1) p s1 Hclk Hip Hst1) as (s2 & -> & Hst2).
  cbn [mbind result_bind]. destruct (0 <? p); simpl.
  - unfold check_pubkey. rewrite (cs_config _ _ _ _ _ _ Hst2). simpl. eauto.
  - eexists. split; [done|]. by apply client_state_counters.
Qed.

Lemma client_start clock T ip :
  (∀ i, clock i = T) → client_state clock T ip 2000 120 (new_limiter clock default_Config 0).
Proof.
  intros Hclk. split; [apply new_limiter_ok|done| |lia|lia|].
  - split; simpl; try done; by vm_compute.
  - intros t. unfold available. simpl. split; simpl; try done; by vm_compute.
Qed.

Fixpoint answers (g p k : nat) : list CheckResult :=
  match k with
  | 0 => []
  | S k => answer g p :: answers (g - 1) (if 0 <? g then p - 1 else p) k
  end.

Lemma client_run clock T ip g p s k :
  (∀ i, clock i = T) → ip ≠ [] → client_state clock T ip g p s →
  ∃ log s', run clock s (replicate k (CheckAndConsume ip [])) = Ok (log, s') ∧
    log.*2 = Checked <$> answers g p k.
Proof.
  intros Hclk Hip. revert g p s. induction k as [|k IH]; intros g p s Hst; [by exists [], s|].
  destruct (client_step clock T ip g p s Hclk Hip Hst) as (s1 & Hs & Hst1).
  destruct (IH _ _ _ Hst1) as (log & s' & Hrun & Hlog).
  eexists (_ :: log), s'. simpl. rewrite Hs. simpl. rewrite Hrun. simpl.
  split; [done|]. simpl. by f_equal.
Qed.

Lemma answers_lookup g p k i :
  i < k → p ≤ g → answers g p k !! i = Some (answer (g - i) (p - i)).
Proof.
  revert g p i. induction k as [|k IH]; intros g p [|i] Hi Hle; simpl; try lia.
  - by rewrite !Nat.sub_0_r.
  - rewrite IH by (destruct (Nat.ltb_spec 0 g); lia).
    destruct (Nat.ltb_spec 0 g); do 2 f_equal; lia.
Qed.

(** At the default configuration (60 requests a minute per address, 1000
    in all, burst factor 2), a client that sends [k] requests at one instant
    to a fresh relay is granted exactly the first 120; the next 1880 are
    refused for its own rate but still draw on the shared budget, and
    everything after 2000 is refused for the shared one. *)
Theorem burst_single_client clock T ip k :
  (∀ i, clock i = T) → ip ≠ [] →
  ∃ log s',
    run clock (new_limiter clock default_Config 0) (replicate k (CheckAndConsume ip []))
      = Ok (log, s') ∧
    ∀ i, i < k → log.*2 !! i = Some (Checked
      (if i <? 120 then CheckResult_default
       else if i <? 2000 then mk_CheckResult false why_ip
       else mk_CheckResult false why_global)).
Proof.
  intros Hclk Hip.
  destruct (client_run clock T ip 2000 120 _ k Hclk Hip (client_start clock T ip Hclk))
    as (log & s' & Hrun & Hlog).
  exists log, s'. split; [done|]. intros i Hi. rewrite Hlog, list_lookup_fmap.
  rewrite answers_lookup by lia. unfold answer. simpl.
  destruct (Nat.ltb_spec 0 (2000 - i)), (Nat.ltb_spec 0 (120 - i)),
    (Nat.ltb_spec i 120), (Nat.ltb_spec i 2000); done || lia.
Qed.

Lemma burst_single_client_witness :
  ∃ log s',
    run (λ _, 7%Z) (new_limiter (λ _, 7%Z) default_Config 0)
      (replicate 130 (CheckAndConsume #"10.0.0.1" [])) = Ok (log, s') ∧
    ∀ i, i < 130 → log.*2 !! i = Some (Checked
      (if i <? 120 then CheckResult_default
       else if i <? 2000 then mk_CheckResult false why_ip
       else mk_CheckResult false why_global)).
Proof. apply (burst_single_client (λ _, 7%Z) 7%Z #"10.0.0.1" 130); done. Defined.
