(* ===== verification/DBQuery.v ===== *)
(** Database queries ([DBQuery.h]): [DBScan] walks the index that suits a
    filter, one cursor per key prefix, and merges the cursors' events newest
    first; [DBQuery] runs the filters of a subscription one after the other,
    can be paused between events, and reports each event at most once.

    [collect], [scan_body] and [process_loop] are the bodies of the source's
    loops.  Loops whose end depends on the data take fuel: [collect_fuel]
    passes over the index suffice because a cursor jumps at most once for
    [until] and once for [since], and [scan_fuel] counts the iterations a scan
    of the current database can make; [DBQueryTheorems.v] proves both enough.
    [std::sort] is a stable merge sort here: elements that its comparison ties
    are candidates for the same event.  The timing statistics that are only
    logged are left out. *)

From S2P Require Import Prelude Bytes Json Hex PackedEvent FilterSets Filters.
From S2P Require Import EventParse Db Subscription.

(** ** Candidates *)

Record CandidateEvent := mk_candidate { packed : N; levIdStorage : N }.

Definition CandidateEvent_make (levId created scanIndex : N) : CandidateEvent :=
  mk_candidate (N.lor (u64_wrap (N.shiftl scanIndex 40)) created) levId.

Definition cand_levId (c : CandidateEvent) : N := levIdStorage c.
Definition cand_created (c : CandidateEvent) : N := N.land (packed c) 1099511627775.
Definition cand_scanIndex (c : CandidateEvent) : N := N.shiftr (packed c) 40.

(** The comparison [cmp] of [scan], and the order it sorts by. *)
Definition cand_before (a b : CandidateEvent) : bool :=
  if (cand_created a =? cand_created b)%N then (cand_levId b <? cand_levId a)%N
  else (cand_created b <? cand_created a)%N.

Definition cand_le (a b : CandidateEvent) : Prop := cand_before b a = false.

#[export] Instance cand_le_dec : RelDecision cand_le.
Proof. intros a b. unfold cand_le. apply _. Defined.

(** ** Cursors *)

Inductive KeyMatchResult := Yes | No.

Record ScanCursor := mk_cursor {
  resumeKey : bytes;
  resumeVal : N;
  keyMatch : bytes → result KeyMatchResult;
  outstanding : N;
}.

Definition active (c : ScanCursor) : bool := negb (length (resumeKey c) =? 0).

Definition set_resume (c : ScanCursor) (k : bytes) (v : N) : ScanCursor :=
  mk_cursor k v (keyMatch c) (outstanding c).
Definition set_outstanding (c : ScanCursor) (n : N) : ScanCursor :=
  mk_cursor (resumeKey c) (resumeVal c) (keyMatch c) n.

Definition yes_if (b : bool) : KeyMatchResult := if b then Yes else No.

Definition ff8 : bytes := replicate 8 "255"%char.

Section scan.
Context `{!NativeU64, !GolpeKeys, !Env}.

(** What a pass of [collect] changes: the cursor, the output and the limit. *)
Definition collect_state : Type := ScanCursor * list CandidateEvent * N.

(** One [generic_foreachFull]: the callback over the visited entries; the flag
    says that it never asked to stop. *)
Fixpoint collect_visit (f : NostrFilter) (scanIndex : N) (visited : list (bytes * N))
    (st : collect_state) : result (bool * collect_state) :=
  let '(c, output, lim) := st in
  match visited with
  | [] => Ok (true, st)
  | (k, v) :: visited =>
      if (lim =? 0)%N then Ok (false, (set_resume c k v, output, lim))
      else
        matched ← keyMatch c k;
        match matched with
        | No => Ok (false, (set_resume c [] (resumeVal c), output, lim))
        | Yes =>
            p ← ParsedKey_StringUint64 k;
            let '(s, created) := p in
            if negb (since f =? 0)%N && (created <? since f)%N then
              Ok (false, (set_resume c (makeKey_StringUint64 s 0) 0, output, lim))
            else if negb (until f =? 0)%N && (until f <? created)%N then
              Ok (false, (set_resume c (makeKey_StringUint64 s (until f)) MAX_U64, output, lim))
            else
              collect_visit f scanIndex visited
                (c, output ++ [CandidateEvent_make v created scanIndex], (lim - 1)%N)
        end
  end.

(** [while (active() && limit > 0)] *)
Fixpoint collect_loop (fuel : nat) (d : env) (f : NostrFilter) (idx : Index) (scanIndex : N)
    (st : collect_state) : result collect_state :=
  let '(c, output, lim) := st in
  if active c && (0 <? lim)%N then
    match fuel with
    | O => Throw fuel_exhausted
    | S fuel =>
        p ← collect_visit f scanIndex (foreachFull d idx (resumeKey c) (resumeVal c) true) st;
        let '(finished, (c, output, lim)) := p in
        collect_loop fuel d f idx scanIndex
          (if finished : bool then set_resume c [] (resumeVal c) else c, output, lim)
    end
  else Ok st.

Definition collect_fuel : nat := 4.

(** [ScanCursor::collect]; [added] is the number of new candidates. *)
Definition collect (d : env) (f : NostrFilter) (idx : Index) (scanIndex lim : N)
    (c : ScanCursor) : result (list CandidateEvent * ScanCursor) :=
  p ← collect_loop collect_fuel d f idx scanIndex (c, [], lim);
  let '(c, output, _) := p in
  Ok (output, set_outstanding c (u64_add (outstanding c) (N.of_nat (length output)))).

(** ** The scan *)

Record DBScan := mk_scan {
  sc_f : NostrFilter;
  indexOnly : bool;
  indexDbi : Index;
  cursors : list ScanCursor;
  eventQueue : list CandidateEvent;
  initialScanDepth : N;
  refillScanDepth : N;
  nextInitIndex : nat;
  approxWork : N;
}.

Definition prefix_match (search : bytes) (k : bytes) : result KeyMatchResult :=
  Ok (yes_if (starts_with k search)).

Definition tag_match (search : bytes) (k : bytes) : result KeyMatchResult :=
  Ok (yes_if ((length k =? length search + 8) && starts_with k search)).

Definition kind_match (kind : N) (k : bytes) : result KeyMatchResult :=
  p ← ParsedKey_Uint64Uint64 k;
  Ok (yes_if (p.1 =? kind)%N).

Definition new_cursor (search : bytes) (m : bytes → result KeyMatchResult) : ScanCursor :=
  mk_cursor (search ++ ff8) MAX_U64 m 0.

Definition id_cursor (fs : FilterSetBytes) (i : nat) : result ScanCursor :=
  search ← FilterSetBytes_at fs i;
  Ok (new_cursor search (prefix_match search)).

Definition tag_cursor (tagName : ascii) (fs : FilterSetBytes) (i : nat) : result ScanCursor :=
  val ← FilterSetBytes_at fs i;
  let search := tagName :: val in
  Ok (new_cursor search (tag_match search)).

Definition pubkeyKind_cursor (pks : FilterSetBytes) (ks : FilterSetUint) (i j : nat)
    : result ScanCursor :=
  kind ← FilterSetUint_at ks j;
  pk ← FilterSetBytes_at pks i;
  let search := pk ++ to_sv64 kind in
  Ok (new_cursor search (prefix_match search)).

Definition kind_cursor (ks : FilterSetUint) (i : nat) : result ScanCursor :=
  kind ← FilterSetUint_at ks i;
  Ok (new_cursor (to_sv64 kind) (kind_match kind)).

Definition created_at_cursor : ScanCursor := new_cursor [] (λ _, Ok Yes).

(** The tag filter with the fewest values, the first such in the order of the
    map. *)
Definition smallest_tag_step (st : N * ascii) (kv : ascii * FilterSetBytes) : N * ascii :=
  let '(numTags, tagName) := st in
  let n := N.of_nat (FilterSetBytes_size kv.2) in
  if (n <? numTags)%N then (n, kv.1) else (numTags, tagName).

Definition smallest_tag (f : NostrFilter) : ascii :=
  (foldl smallest_tag_step (MAX_U64, "000"%char) (map_to_list (tags f))).2.

(** The choice of the index: its name, whether the scan is index only, and the
    cursors. *)
Definition DBScan_cursors (f : NostrFilter) : result (Index * bool * list ScanCursor) :=
  match ids f with
  | Some fs =>
      cs ← mapR (id_cursor fs) (seq 0 (FilterSetBytes_size fs));
      Ok (Event__id, indexOnlyScans f, cs)
  | None =>
      if negb (base.size (tags f) =? 0) then
        let tagName := smallest_tag f in
        match tags f !! tagName with
        | None => Throw out_of_range
        | Some fs =>
            cs ← mapR (tag_cursor tagName fs) (seq 0 (FilterSetBytes_size fs));
            Ok (Event__tag, indexOnlyScans f, cs)
        end
      else
        match authors f, kinds f with
        | Some pks, Some ks =>
            if FilterSetBytes_size pks * length ks <? 1000 then
              cs ← mapR (λ ij, pubkeyKind_cursor pks ks ij.1 ij.2)
                     (list_prod (seq 0 (FilterSetBytes_size pks)) (seq 0 (length ks)));
              Ok (Event__pubkeyKind, indexOnlyScans f, cs)
            else
              cs ← mapR (id_cursor pks) (seq 0 (FilterSetBytes_size pks));
              Ok (Event__pubkey, false, cs)
        | Some pks, None =>
            cs ← mapR (id_cursor pks) (seq 0 (FilterSetBytes_size pks));
            Ok (Event__pubkey, indexOnlyScans f, cs)
        | None, Some ks =>
            cs ← mapR (kind_cursor ks) (seq 0 (length ks));
            Ok (Event__kind, indexOnlyScans f, cs)
        | None, None => Ok (Event__created_at, indexOnlyScans f, [created_at_cursor])
        end
  end.

(** [DBScan::DBScan]; dividing by the number of cursors is undefined when
    there is none. *)
Definition DBScan_make (f : NostrFilter) : result DBScan :=
  p ← DBScan_cursors f;
  let '(idx, io, cs) := p in
  _ ← throw_if (length cs =? 0) undefined_behaviour;
  let depth := N.max 5 (N.min 50 (limit f / N.of_nat (length cs))) in
  Ok (mk_scan f io idx cs [] depth (10 * depth) 0 0).

Definition add_work (s : DBScan) (n : N) : DBScan :=
  mk_scan (sc_f s) (indexOnly s) (indexDbi s) (cursors s) (eventQueue s)
    (initialScanDepth s) (refillScanDepth s) (nextInitIndex s) (u64_add (approxWork s) n).

Definition set_queue (s : DBScan) (q : list CandidateEvent) : DBScan :=
  mk_scan (sc_f s) (indexOnly s) (indexDbi s) (cursors s) q
    (initialScanDepth s) (refillScanDepth s) (nextInitIndex s) (approxWork s).

Definition set_cursor (s : DBScan) (i : nat) (c : ScanCursor) : DBScan :=
  mk_scan (sc_f s) (indexOnly s) (indexDbi s) (<[i := c]> (cursors s)) (eventQueue s)
    (initialScanDepth s) (refillScanDepth s) (nextInitIndex s) (approxWork s).

Definition set_nextInit (s : DBScan) (n : nat) : DBScan :=
  mk_scan (sc_f s) (indexOnly s) (indexDbi s) (cursors s) (eventQueue s)
    (initialScanDepth s) (refillScanDepth s) n (approxWork s).

Definition cursor_at (s : DBScan) (i : nat) : result ScanCursor :=
  match cursors s !! i with Some c => Ok c | None => Throw undefined_behaviour end.

(** Does the candidate have to be sent? *)
Definition candidate_matches (d : env) (s : DBScan) (ev : CandidateEvent)
    : result (bool * DBScan) :=
  if indexOnly s then Ok (doesMatchTimes (sc_f s) (cand_created ev), s)
  else
    let s := add_work s 10 in
    match lookup_Event d (cand_levId ev) with
    | None => Ok (false, s)
    | Some b => v ← view b; m ← doesMatch (sc_f s) v; Ok (m, s)
    end.

(** Collect the first candidates of the next cursor; the queue is sorted when
    the last one is in. *)
Definition init_cursor (d : env) (s : DBScan) : result DBScan :=
  let i := nextInitIndex s in
  c ← cursor_at s i;
  p ← collect d (sc_f s) (indexDbi s) (N.of_nat i) (initialScanDepth s) c;
  let '(out, c) := p in
  let s := add_work s (N.of_nat (length out)) in
  let s := set_nextInit (set_queue (set_cursor s i c) (eventQueue s ++ out)) (S i) in
  Ok (if nextInitIndex s =? length (cursors s)
      then set_queue s (merge_sort cand_le (eventQueue s)) else s).

(** The candidate [ev] has left the queue: refill it when its cursor has no
    other candidate in there. *)
Definition refill_cursor (d : env) (s : DBScan) (ev : CandidateEvent) : result DBScan :=
  let i := N.to_nat (cand_scanIndex ev) in
  c ← cursor_at s i;
  let c := set_outstanding c (u64_sub (outstanding c) 1) in
  let s := set_cursor s i c in
  if (outstanding c =? 0)%N then
    p ← collect d (sc_f s) (indexDbi s) (cand_scanIndex ev) (refillScanDepth s) c;
    let '(out, c) := p in
    let s := add_work (set_cursor s i c) (N.of_nat (length out)) in
    Ok (set_queue s (list_merge cand_le (eventQueue s) out))
  else Ok s.

(** The callbacks: [handleEvent] threads a state [A] and says whether to stop,
    [doPause] threads a state [P]. *)
Section callbacks.
Context {A P : Type}.
Variable handleEvent : A → N → result (A * bool).
Variable doPause : P → N → P * bool.

(** One iteration of [scan] after the pause check; [Some b] when it returns
    [b]. *)
Definition scan_body (d : env) (s : DBScan) (a : A) : result (option bool * DBScan * A) :=
  if nextInitIndex s <? length (cursors s) then
    s ← init_cursor d s; Ok (None, s, a)
  else
    match eventQueue s with
    | [] => Ok (Some true, s, a)
    | ev :: q =>
        let s := set_queue s q in
        p ← candidate_matches d s ev;
        let '(doSend, s) := p in
        p ← (if doSend : bool then handleEvent a (cand_levId ev) else Ok (a, false));
        let '(a, stop) := p in
        if stop : bool then Ok (Some true, s, a)
        else s ← refill_cursor d s ev; Ok (None, s, a)
    end.

Fixpoint scan (fuel : nat) (d : env) (s : DBScan) (a : A) (p : P)
    : result (bool * DBScan * A * P) :=
  match fuel with
  | O => Throw fuel_exhausted
  | S fuel =>
      let s := add_work s 1 in
      let '(p, paused) := doPause p (approxWork s) in
      if paused then Ok (false, s, a, p)
      else
        r ← scan_body d s a;
        match r with
        | (Some b, s, a) => Ok (b, s, a, p)
        | (None, s, a) => scan fuel d s a p
        end
  end.
End callbacks.

(** Every iteration initialises a cursor, or takes a candidate out of the
    queue; a cursor visits an event at most once. *)
Definition scan_fuel (d : env) (s : DBScan) : nat :=
  2 + length (eventQueue s) + length (cursors s) * S (length (foreach_Event d)).

(** ** The query *)

Record DBQuery := mk_query {
  sub : Subscription;
  scanner : option DBScan;
  filterGroupIndex : nat;
  dead : bool;
  sentEventsFull : gset N;
  sentEventsCurr : gset N;
  lastWorkChecked : N;
}.

Definition DBQuery_make (sub : Subscription) : DBQuery := mk_query sub None 0 false ∅ ∅ 0.

(** The constructor from a filter. *)
Definition DBQuery_of_filter `{!Hex} (filter : value) (maxLimit : N) : result DBQuery :=
  fg ← NostrFilterGroup_unwrapped filter maxLimit;
  sub ← Subscription_make 1 #"." fg;
  Ok (DBQuery_make sub).

Section process.
Context {B : Type}.
Variable cb : B → N → result B.
(** [hoytech::curr_time_us()]: the [i]-th reading. *)
Variable curr_time_us : nat → N.

(** The state of the event callback: what was sent, what this filter found,
    and the caller's state. *)
Definition sent_state : Type := gset N * gset N * B.

Definition handle_event (f : NostrFilter) (latest : N) (st : sent_state) (levId : N)
    : result (sent_state * bool) :=
  let '(full, curr, b) := st in
  if (limit f =? 0)%N then Ok (st, true)
  else if (latest <? levId)%N then Ok (st, false)
  else
    p ← (if bool_decide (levId ∈ full) then Ok (full, b)
         else b ← cb b levId; Ok ({[levId]} ∪ full, b));
    let '(full, b) := p in
    let curr := {[levId]} ∪ curr in
    Ok ((full, curr, b), (limit f <=? N.of_nat (base.size curr))%N).

(** The state of the pause check: [lastWorkChecked] and the clock. *)
Definition do_pause (startTime timeBudget : N) (st : N * nat) (work : N) : (N * nat) * bool :=
  let '(last, t) := st in
  if (u64_add last 2000 <? work)%N then
    ((work, S t), (timeBudget <? u64_sub (curr_time_us t) startTime)%N)
  else ((last, t), false).

(** The [while] loop; [n] is the number of filters left. *)
Fixpoint process_loop (n : nat) (d : env) (timeBudget : N) (q : DBQuery) (b : B) (t : nat)
    : result (bool * DBQuery * B * nat) :=
  match n with
  | O => Ok (true, q, b, t)
  | S n =>
      match filterGroup (sub q) !! filterGroupIndex q with
      | None => Ok (true, q, b, t)
      | Some f =>
          sc ← match scanner q with Some sc => Ok sc | None => DBScan_make f end;
          let startTime := curr_time_us t in
          p ← scan (handle_event f (latestEventId (sub q))) (do_pause startTime timeBudget)
                (scan_fuel d sc) d sc (sentEventsFull q, sentEventsCurr q, b)
                (lastWorkChecked q, S t);
          let '(complete, sc, (full, curr, b), (last, t)) := p in
          let t := S t in (* the reading that only updates the statistics *)
          if complete : bool then
            process_loop n d timeBudget
              (mk_query (sub q) None (S (filterGroupIndex q)) (dead q) full ∅ last) b t
          else
            Ok (false, mk_query (sub q) (Some sc) (filterGroupIndex q) (dead q) full curr last,
                b, t)
      end
  end.

Definition process (d : env) (timeBudget : N) (q : DBQuery) (b : B) (t : nat)
    : result (bool * DBQuery * B * nat) :=
  process_loop (length (filterGroup (sub q)) - filterGroupIndex q) d timeBudget q b t.
End process.

(** The default time budget, [MAX_U64], never pauses. *)
Definition foreachByFilter `{!Hex} {B} (cb : B → N → result B) (curr_time_us : nat → N)
    (d : env) (filter : value) (b : B) (t : nat) : result (B * nat) :=
  q ← DBQuery_of_filter filter MAX_U64;
  p ← process cb curr_time_us d MAX_U64 q b t;
  let '(_, _, b, t) := p in
  Ok (b, t).
End scan.
