(* ===== verification/DBQueryOrder.v ===== *)
(** The order of query results and the arithmetic of candidates.

    Events are returned newest first: by creation time, then by levId, both
    descending ([newer]).  [sort_newer] is the canonical list; a list sorted by
    [newer] is determined by its elements. *)

From stdpp Require Import fin_maps fin_sets.
From S2P Require Import Prelude Bytes Json Hex PackedEvent FilterSets Filters EventParse Db MemDb.
From S2P Require Import Subscription DBQuery.

(** ** Newest first *)

(** An event in a scan: creation time and levId. *)
Abbreviation stamp := (N * N)%type.

Definition newer (a b : stamp) : Prop := (b.1 < a.1 ∨ b.1 = a.1 ∧ b.2 ≤ a.2)%N.

#[export] Instance newer_dec : RelDecision newer.
Proof. intros a b. unfold newer. apply _. Defined.
#[export] Instance newer_refl : Reflexive newer.
Proof. intros a. unfold newer. lia. Qed.
#[export] Instance newer_trans : Transitive newer.
Proof. intros a b c. unfold newer. lia. Qed.
#[export] Instance newer_total : Total newer.
Proof. intros a b. unfold newer. lia. Qed.
#[export] Instance newer_antisym : AntiSymm (=) newer.
Proof. intros [a1 a2] [b1 b2]. unfold newer. simpl. intros. f_equal; lia. Qed.

Definition sort_newer (l : list stamp) : list stamp := merge_sort newer l.

Lemma sort_newer_sorted l : StronglySorted newer (sort_newer l).
Proof. apply (StronglySorted_merge_sort newer). Qed.

Lemma sort_newer_Permutation l : sort_newer l ≡ₚ l.
Proof. apply merge_sort_Permutation. Qed.

Lemma elem_of_sort_newer x l : x ∈ sort_newer l ↔ x ∈ l.
Proof. by rewrite sort_newer_Permutation. Qed.

#[export] Instance sort_newer_proper : Proper ((≡ₚ) ==> (=)) sort_newer.
Proof.
  intros l1 l2 Hp. apply (StronglySorted_unique newer); try apply sort_newer_sorted.
  by rewrite !sort_newer_Permutation.
Qed.

Lemma sort_newer_unique l l' : StronglySorted newer l → l ≡ₚ l' → l = sort_newer l'.
Proof.
  intros Hso Hp. apply (StronglySorted_unique newer); [done|apply sort_newer_sorted|].
  by rewrite sort_newer_Permutation.
Qed.

(** The newest of the elements comes first. *)
Lemma sort_newer_cons x l :
  (∀ y, y ∈ l → newer x y) → sort_newer (x :: l) = x :: sort_newer l.
Proof.
  intros Hx. symmetry. apply sort_newer_unique.
  - constructor; [apply sort_newer_sorted|]. apply Forall_forall.
    intros y Hy. apply Hx. by apply elem_of_sort_newer.
  - by rewrite sort_newer_Permutation.
Qed.

(** ** Sorted lists *)

(** When no element outside [P] may precede one inside, a sorted list is its
    [P] part followed by the rest. *)
Lemma sorted_split {A} (R : A → A → Prop) (P : A → Prop) `{!∀ x, Decision (P x)} l :
  StronglySorted R l →
  (∀ x y, x ∈ l → y ∈ l → ¬ P x → P y → ¬ R x y) →
  l = filter P l ++ filter (λ x, ¬ P x) l.
Proof.
  induction 1 as [|x l Hso IH Hx]; intros Hcross; [done|].
  destruct (decide (P x)) as [Hp|Hp].
  - rewrite filter_cons_True, (filter_cons_False (λ x, ¬ P x)) by auto. simpl. f_equal.
    apply IH. intros y z ? ?. apply Hcross; by constructor.
  - assert (∀ y, y ∈ l → ¬ P y) as Hno.
    { intros y Hy Hpy. rewrite Forall_forall in Hx.
      apply (Hcross x y); auto using list_elem_of_here, list_elem_of_further. }
    rewrite filter_cons_False, (filter_cons_True (λ x, ¬ P x)) by auto.
    replace (filter P l) with (@nil A); simpl.
    + f_equal. clear -Hno. induction l as [|y l IH]; [done|].
      rewrite filter_cons_True by (apply Hno; by constructor). f_equal. apply IH.
      intros. apply Hno. by constructor.
    + symmetry. apply elem_of_nil_inv. intros y [Hpy Hy]%list_elem_of_filter. by eapply Hno.
Qed.

Lemma StronglySorted_fmap_strong {A B} (R : A → A → Prop) (R' : B → B → Prop) (f : A → B) l :
  StronglySorted R l → (∀ x y, x ∈ l → y ∈ l → R x y → R' (f x) (f y)) →
  StronglySorted R' (f <$> l).
Proof.
  induction 1 as [|x l Hso IH Hx]; intros Hf; [constructor|]. simpl. constructor.
  - apply IH. intros. apply Hf; auto using list_elem_of_further.
  - apply Forall_fmap, Forall_forall. intros y Hy. rewrite Forall_forall in Hx.
    apply Hf; auto using list_elem_of_here, list_elem_of_further.
Qed.

Lemma filter_ext_mem {A} (P Q : A → Prop) `{!∀ x, Decision (P x), !∀ x, Decision (Q x)} (l : list A) :
  (∀ x, x ∈ l → P x ↔ Q x) → filter P l = filter Q l.
Proof.
  induction l as [|x l IH]; intros Hiff; [done|].
  rewrite !filter_cons, IH by (intros; apply Hiff; by constructor).
  destruct (Hiff x ltac:(constructor)). by repeat case_decide; try tauto.
Qed.

Lemma StronglySorted_merge {A} (R : relation A) `{!RelDecision R, !Total R, !Transitive R}
    (l1 l2 : list A) :
  StronglySorted R l1 → StronglySorted R l2 → StronglySorted R (list_merge R l1 l2).
Proof.
  intros H1' H2'. apply Sorted_StronglySorted; [done|].
  apply (Sorted_list_merge R); first [by apply StronglySorted_Sorted|apply _].
Qed.

(** In a sorted list without duplicates, what is not newer than an element is
    the tail that starts at it. *)
Lemma filter_older_tail p x q :
  StronglySorted newer (p ++ x :: q) → NoDup (p ++ x :: q) →
  filter (λ y, newer x y) (p ++ x :: q) = x :: q.
Proof.
  induction p as [|y p IH]; simpl; intros Hso Hnd.
  - inversion_clear Hso as [|? ? Hso' Hall]. rewrite filter_cons_True by reflexivity. f_equal.
    clear -Hall. induction Hall as [|z q Hz Hall IH]; [done|].
    by rewrite filter_cons_True, IH.
  - inversion_clear Hso as [|? ? Hso' Hall]. apply NoDup_cons in Hnd as [Hy Hnd].
    rewrite filter_cons_False; [by apply IH|]. intros Hxy. apply Hy.
    rewrite Forall_forall in Hall.
    assert (newer y x) as Hyx by (apply Hall; set_solver).
    rewrite (anti_symm newer y x Hyx Hxy). set_solver.
Qed.

(** ** Candidates *)

#[global] Arguments CandidateEvent_make : simpl never.
#[global] Arguments cand_created : simpl never.
#[global] Arguments cand_scanIndex : simpl never.

Definition stamp_of (c : CandidateEvent) : stamp := (cand_created c, cand_levId c).

(** Creation times and cursor numbers that fit the packed word. *)
Definition time_ok (n : N) : Prop := (n < 1099511627776)%N.
Definition index_fits (i : N) : Prop := (i < 16777216)%N.

#[global] Arguments time_ok : simpl never.
#[global] Arguments index_fits : simpl never.

Section candidate.
Context (n l i : N) (Hn : time_ok n) (Hi : index_fits i).

Lemma packed_word :
  N.lor (u64_wrap (N.shiftl i 40)) n = (i * 2 ^ 40 + n)%N.
Proof.
  unfold time_ok, index_fits in *.
  rewrite N.shiftl_mul_pow2, u64_wrap_small by (unfold is_u64, two64; lia).
  assert (N.land (i * 2 ^ 40) n = 0%N) as Hdisj;
    [|by rewrite <-N.lxor_lor, <-N.add_nocarry_lxor].
  apply N.bits_inj_0. intros k. rewrite N.land_spec.
  destruct (N.ltb_spec k 40) as [Hk|Hk].
  - by rewrite N.mul_pow2_bits_low.
  - apply andb_false_iff. right. destruct (N.eq_dec n 0%N) as [->|Hz]; [apply N.bits_0|].
    apply N.bits_above_log2. apply N.log2_lt_pow2; [lia|].
    apply N.lt_le_trans with (2 ^ 40)%N; [done|]. by apply N.pow_le_mono_r.
Qed.

Lemma cand_created_make : cand_created (CandidateEvent_make l n i) = n.
Proof.
  unfold cand_created, CandidateEvent_make. cbn [packed]. rewrite packed_word.
  change 1099511627775%N with (N.ones 40). rewrite N.land_ones, N.add_comm, N.Div0.mod_add.
  by apply N.mod_small.
Qed.

Lemma cand_scanIndex_make : cand_scanIndex (CandidateEvent_make l n i) = i.
Proof.
  unfold cand_scanIndex, CandidateEvent_make. cbn [packed]. rewrite packed_word.
  rewrite N.shiftr_div_pow2, N.add_comm, N.div_add by done.
  by rewrite N.div_small.
Qed.

Lemma stamp_of_make : stamp_of (CandidateEvent_make l n i) = (n, l).
Proof. unfold stamp_of. by rewrite cand_created_make. Qed.
End candidate.

(** The comparison of [scan] sorts newest first. *)
Lemma cand_le_newer a b : cand_le a b ↔ newer (stamp_of a) (stamp_of b).
Proof.
  unfold cand_le, cand_before, newer, stamp_of. simpl.
  destruct (N.eqb_spec (cand_created b) (cand_created a)) as [->|Hne].
  - destruct (N.ltb_spec (cand_levId a) (cand_levId b)); split; intros; try done; lia.
  - destruct (N.ltb_spec (cand_created a) (cand_created b)); split; intros; try done; lia.
Qed.

#[export] Instance cand_le_total : Total cand_le.
Proof. intros a b. rewrite !cand_le_newer. apply newer_total. Qed.
#[export] Instance cand_le_trans : Transitive cand_le.
Proof. intros a b c. rewrite !cand_le_newer. apply newer_trans. Qed.

(** Key prefixes of an index: the entries whose key is a search string and a
    creation time ([group]), why a backwards walk from the end of a group
    visits it first and newest first ([walk]), and that the cursors of
    [DBScan] stand for such groups ([group_ok] for each index). *)

#[export] Instance KeyMatchResult_eq_dec : EqDecision KeyMatchResult.
Proof. solve_decision. Defined.

Section groups.
Context `{!NativeU64, !GolpeKeys, !Env}.

(** ** The events of a group *)

Definition in_group (idx : Index) (search : bytes) (e : event) : Prop :=
  search ++ to_sv64 (ev_created_at e) ∈ index_keys (event_indices e) idx.

#[export] Instance in_group_dec idx search e : Decision (in_group idx search e).
Proof. unfold in_group. apply _. Defined.

Definition stamp_of_row (p : N * event) : stamp := (ev_created_at p.2, p.1).

Definition group (idx : Index) (search : bytes) (m : gmap N event) : list stamp :=
  sort_newer (stamp_of_row <$> filter (λ p, in_group idx search p.2) (map_to_list m)).

Lemma elem_of_group idx search m n l :
  (n, l) ∈ group idx search m ↔
  ∃ e, m !! l = Some e ∧ n = ev_created_at e ∧ in_group idx search e.
Proof.
  unfold group. rewrite elem_of_sort_newer, list_elem_of_fmap. split.
  - intros ([l' e] & [= -> ->] & [Hg Hin]%list_elem_of_filter).
    apply elem_of_map_to_list in Hin. by exists e.
  - intros (e & He & -> & Hg). exists (l, e). split; [done|]. apply list_elem_of_filter.
    split; [done|]. by apply elem_of_map_to_list.
Qed.

Lemma group_sorted idx search m : StronglySorted newer (group idx search m).
Proof. apply sort_newer_sorted. Qed.

Lemma stamps_NoDup (l : list (N * event)) : NoDup l.*1 → NoDup (stamp_of_row <$> l).
Proof.
  intros Hnd. apply (NoDup_fmap_1 snd). rewrite <-list_fmap_compose. done.
Qed.

Lemma rows_NoDup (P : N * event → Prop) `{!∀ p, Decision (P p)} (m : gmap N event) :
  NoDup (filter P (map_to_list m)).*1.
Proof.
  eapply sublist_NoDup; [apply (NoDup_fst_map_to_list m)|].
  apply fmap_sublist, sublist_filter.
Qed.

Lemma group_NoDup idx search m : NoDup (group idx search m).
Proof. unfold group. rewrite sort_newer_Permutation. apply stamps_NoDup, rows_NoDup. Qed.

Lemma group_length idx search m : length (group idx search m) ≤ base.size m.
Proof.
  unfold group. rewrite sort_newer_Permutation, length_fmap.
  rewrite <-(length_map_to_list m). apply length_filter.
Qed.

(** ** What a cursor needs to know about its index *)

(** The indices [DBScan] walks; their keys end with the creation time. *)
Definition scan_indices : list Index :=
  [Event__created_at; Event__id; Event__pubkey; Event__kind; Event__pubkeyKind; Event__tag].

Lemma scan_key_time idx e k :
  idx ∈ scan_indices → k ∈ index_keys (event_indices e) idx →
  ∃ s, k = s ++ to_sv64 (ev_created_at e).
Proof.
  intros Hidx Hk. unfold scan_indices in Hidx. set_unfold in Hidx.
  destruct_or! Hidx; subst idx; simpl in Hk;
    try (apply list_elem_of_singleton in Hk; subst k).
  - by exists [].
  - rewrite makeKey_StringUint64_layout. eauto.
  - rewrite makeKey_StringUint64_layout. eauto.
  - rewrite makeKey_Uint64Uint64_layout. eauto.
  - rewrite makeKey_StringUint64Uint64_layout, app_assoc. eauto.
  - apply list_elem_of_fmap in Hk as (t & -> & _).
    rewrite makeKey_StringUint64_layout. eauto.
Qed.

Record group_ok (d : env) (idx : Index) (search : bytes)
    (km : bytes → result KeyMatchResult) : Prop := {
  go_scan : idx ∈ scan_indices;
  go_entry : ∀ k l, is_entry (Event (tables d)) idx (k, l) →
    (∃ n, k = search ++ to_sv64 n ∧ is_u64 n ∧ km k = Ok Yes) ∨
    (km k = Ok No ∧ ∀ n0 l0 n1 l1, is_u64 n0 → is_u64 n1 →
       entry_le idx (k, l) (search ++ to_sv64 n0, l0) →
       ¬ entry_le idx (search ++ to_sv64 n1, l1) (k, l));
  go_cmp : ∀ n l n' l', is_u64 n → is_u64 n' →
    entry_compare idx (search ++ to_sv64 n, l) (search ++ to_sv64 n', l') =
      ns_compare [n; l] [n'; l'];
}.

Definition key_of (search : bytes) (p : stamp) : bytes * N := (search ++ to_sv64 p.1, p.2).

Lemma ns_newer a b : ns_compare [b.1; b.2] [a.1; a.2] ≠ Gt ↔ newer a b.
Proof.
  unfold newer. simpl. destruct (N.compare_spec b.1 a.1) as [->|?|?];
    [destruct (N.compare_spec b.2 a.2)|..]; split; intros; try done; lia.
Qed.

Lemma to_sv64_inj n n' : is_u64 n → is_u64 n' → to_sv64 n = to_sv64 n' → n = n'.
Proof. intros Hn Hn' Heq. rewrite <-(from_to_sv64 n), Heq, from_to_sv64; done. Qed.

Lemma search_inj (s s' : bytes) n n' :
  s ++ to_sv64 n = s' ++ to_sv64 n' → s = s' ∧ to_sv64 n = to_sv64 n'.
Proof. intros Heq. apply app_inj_2 in Heq; [done|]. by rewrite !to_sv64_length. Qed.

Section one_group.
Context (d : env) (m : gmap N event) (Hr : repr d m).
Context (idx : Index) (search : bytes) (km : bytes → result KeyMatchResult).
Context (Hg : group_ok d idx search km).

Lemma group_u64 p : p ∈ group idx search m → is_u64 p.1 ∧ is_u64 p.2.
Proof.
  destruct p as [n l]. intros (e & He & -> & _)%elem_of_group. simpl.
  destruct (repr_wf d m l e Hr He) as [Hwf Hl]. split; [apply Hwf|done].
Qed.

Lemma group_entry p :
  p ∈ group idx search m ↔ is_entry (Event (tables d)) idx (key_of search p) ∧ is_u64 p.1.
Proof.
  destruct p as [n l]. rewrite elem_of_group. unfold key_of. simpl.
  rewrite (repr_is_entry _ m) by done. split.
  - intros (e & He & -> & Hin). destruct (repr_wf d m l e Hr He) as [Hwf Hl].
    split; [by exists e|apply Hwf].
  - intros [(e & He & Hwf & Hl & Hk) Hn]. exists e. split; [done|]. unfold in_group.
    destruct (scan_key_time idx e _ (go_scan _ _ _ _ Hg) Hk) as [s Hs].
    apply search_inj in Hs as [_ ->%to_sv64_inj]; [|done|apply Hwf]. done.
Qed.

Lemma key_of_le p p' :
  is_u64 p.1 → is_u64 p'.1 →
  entry_le idx (key_of search p) (key_of search p') ↔ newer p' p.
Proof.
  intros Hp Hp'. unfold entry_le, key_of.
  rewrite (go_cmp _ _ _ _ Hg) by done. apply ns_newer.
Qed.

Lemma group_yes p : p ∈ group idx search m → km (search ++ to_sv64 p.1) = Ok Yes.
Proof.
  intros [He Hn]%group_entry.
  destruct (go_entry _ _ _ _ Hg _ _ He) as [(? & _ & _ & ?)|[_ Hno]]; [done|].
  exfalso. apply (Hno p.1 p.2 p.1 p.2); [done..| |]; apply entry_le_refl.
Qed.

(** A walk backwards from [pos] visits the group's entries up to [pos], newest
    first, before any entry outside the group. *)
Lemma walk pos :
  is_u64 pos.1 →
  ∃ others,
    foreachFull d idx (search ++ to_sv64 pos.1) pos.2 true =
      (key_of search <$> filter (λ p, newer pos p) (group idx search m)) ++ others ∧
    (∀ e, e ∈ others → km e.1 = Ok No ∧
       (∀ e', e' ∈ foreachFull d idx e.1 e.2 true → km e'.1 = Ok No)).
Proof.
  intros Hpos. set (L := foreachFull d idx (search ++ to_sv64 pos.1) pos.2 true).
  assert (∀ e, e ∈ L ↔ is_entry (Event (tables d)) idx e ∧
    entry_le idx e (key_of search pos)) as HL
    by (intros e; unfold L; by rewrite (foreachFull_elem d idx _ _ true)).
  pose proof (foreachFull_sorted d idx (search ++ to_sv64 pos.1) pos.2 true) as Hso.
  fold L in Hso.
  assert (∀ x y, x ∈ L → y ∈ L → km x.1 ≠ Ok Yes → km y.1 = Ok Yes → ¬ entry_le idx y x)
    as Hcross.
  { intros [k l] [k' l'] Hx Hy Hkx Hky. simpl in *. apply HL in Hx as [Hx Hxp], Hy as [Hy _].
    destruct (go_entry _ _ _ _ Hg _ _ Hx) as [(n & -> & _ & Hyes)|[_ Hno]]; [done|].
    destruct (go_entry _ _ _ _ Hg _ _ Hy) as [(n' & -> & Hn' & _)|[Hno' _]]; [|congruence].
    by apply (Hno pos.1 pos.2 n' l'). }
  rewrite (sorted_split _ (λ e, km e.1 = Ok Yes) L Hso) by (intros ????; by apply Hcross).
  exists (filter (λ e, ¬ km e.1 = Ok Yes) L). split.
  - f_equal. apply (StronglySorted_unique_strong (λ e1 e2, entry_le idx e2 e1)).
    + intros e1 e2 [Hk1 H1']%list_elem_of_filter (p2 & -> & [_ H2']%list_elem_of_filter)%list_elem_of_fmap.
      apply HL in H1' as [H1' _]. destruct e1 as [k l].
      destruct (go_entry _ _ _ _ Hg _ _ H1') as [(n & -> & Hn & _)|[Hno _]]; [|by simpl in Hk1; rewrite Hno in Hk1].
      change (search ++ to_sv64 n, l) with (key_of search (n, l)).
      apply group_u64 in H2' as [Hp2 _].
      rewrite !key_of_le by done. intros Ha Hb. f_equal. by apply (anti_symm newer).
    + by apply StronglySorted_filter'.
    + eapply StronglySorted_fmap_strong; [apply StronglySorted_filter', group_sorted|].
      intros x y [_ [Hx _]%group_u64]%list_elem_of_filter [_ [Hy _]%group_u64]%list_elem_of_filter Hxy.
      by apply key_of_le.
    + apply NoDup_Permutation.
      * apply NoDup_filter, foreachFull_nodup.
      * apply NoDup_fmap_2_strong; [|apply NoDup_filter, group_NoDup].
        intros [n l] [n' l'] [_ [Hx _]%group_u64]%list_elem_of_filter
          [_ [Hy _]%group_u64]%list_elem_of_filter [= Heq ->].
        apply app_inj_1 in Heq as [_ ->%to_sv64_inj]; done.
      * intros [k l]. rewrite list_elem_of_filter, list_elem_of_fmap, HL. simpl. split.
        -- intros (Hyes & He & Hle).
           destruct (go_entry _ _ _ _ Hg _ _ He) as [(n & -> & Hn & _)|[Hno _]]; [|congruence].
           exists (n, l). split; [done|]. apply list_elem_of_filter. split.
           ++ by apply (key_of_le (n, l) pos).
           ++ by apply group_entry.
        -- intros ([n l'] & [= -> ->] & [Hnew Hp]%list_elem_of_filter).
           apply group_entry in Hp as Hp'. destruct Hp' as [He Hn]. split_and!.
           ++ by apply (group_yes (n, l')).
           ++ done.
           ++ by apply (key_of_le (n, l') pos).
  - intros [k l] [Hnk He]%list_elem_of_filter. simpl in *. apply HL in He as [He Hle].
    destruct (go_entry _ _ _ _ Hg _ _ He) as [(n & -> & _ & Hyes)|[Hno Hconv]]; [done|].
    split; [done|]. intros [k' l'] [He' Hle']%(foreachFull_elem d idx _ _ true). simpl.
    destruct (go_entry _ _ _ _ Hg _ _ He') as [(n' & -> & Hn' & _)|[Hno' _]]; [|done].
    exfalso. by apply (Hconv pos.1 pos.2 n' l').
Qed.
End one_group.

(** ** The indices *)

Lemma ns_compare_app a b x y :
  length a = length b →
  ns_compare (a ++ x) (b ++ y) =
    match ns_compare a b with Eq => ns_compare x y | c => c end.
Proof.
  revert b. induction a as [|u a IH]; intros [|v b]; simpl; try done.
  intros [= Hlen]. destruct (u ?= v)%N; auto.
Qed.

(** A prefix of the compared fields that is neither smaller nor larger than
    another of the same shape equals it. *)
Lemma fields_squeeze (s s' : bytes) (a b x y x' y' : list N) :
  length a = length b →
  match bytes_compare s s' with Eq => ns_compare (a ++ x) (b ++ y) | c => c end ≠ Gt →
  match bytes_compare s' s with Eq => ns_compare (b ++ y') (a ++ x') | c => c end ≠ Gt →
  s = s' ∧ a = b.
Proof.
  intros Hlen. rewrite (bytes_compare_antisym s s').
  destruct (bytes_compare s s') eqn:E; simpl; [|done..].
  apply bytes_compare_eq in E as ->. rewrite !ns_compare_app by done.
  rewrite (ns_compare_antisym a b). destruct (ns_compare a b) eqn:E; simpl; [|done..].
  by apply ns_compare_eq in E as ->.
Qed.

Lemma group_ok_fields d m idx search km (P : bytes * list N) :
  repr d m → idx ∈ scan_indices →
  (∀ n, is_u64 n → key_fields idx (search ++ to_sv64 n) = (P.1, P.2 ++ [n])) →
  (∀ e k, wf_event e → k ∈ index_keys (event_indices e) idx →
     (k = search ++ to_sv64 (ev_created_at e) ∧ km k = Ok Yes) ∨
     (km k = Ok No ∧ ∃ P', key_fields idx k = (P'.1, P'.2 ++ [ev_created_at e]) ∧
        P' ≠ P ∧ length P'.2 = length P.2)) →
  group_ok d idx search km.
Proof.
  intros Hr Hidx Hf Hkeys. split; [done| |].
  - intros k l (e & He & Hwf & Hl & Hk)%(repr_is_entry _ m); [|done].
    destruct (Hkeys e k Hwf Hk) as [[-> Hyes]|(Hno & P' & HP' & Hne & Hlen)].
    + left. eexists. split_and!; [done|apply Hwf|done].
    + right. split; [done|]. intros n0 l0 n1 l1 Hn0 Hn1 Hle1 Hle2. apply Hne.
      unfold entry_le, entry_compare in Hle1, Hle2. cbn [fst snd] in Hle1, Hle2.
      rewrite HP', Hf in Hle1 by done. rewrite HP', Hf in Hle2 by done.
      rewrite <-!app_assoc in Hle1, Hle2.
      destruct (fields_squeeze _ _ _ _ _ _ _ _ Hlen Hle1 Hle2) as [? ?].
      destruct P, P'. simpl in *. congruence.
  - intros n l n' l' Hn Hn'. unfold entry_compare. cbn [fst snd].
    rewrite !Hf by done. rewrite bytes_compare_refl, <-!app_assoc, ns_compare_app by done.
    by rewrite ns_compare_refl.
Qed.

Lemma yes_if_starts (s search r : bytes) :
  length s = length search → yes_if (starts_with (s ++ r) search) = yes_if (bool_decide (s = search)).
Proof.
  intros Hlen. f_equal. apply Bool.eq_true_iff_eq. rewrite starts_with_spec, bool_decide_eq_true.
  split; [|intros ->; by exists r]. intros [r' Heq].
  by apply app_inj_1 in Heq as [? _].
Qed.

Ltac key_fields_string := 
  rewrite <-makeKey_StringUint64_layout; apply fields_StringUint64; [set_solver|done].

Lemma group_ok_id d m search :
  repr d m → length search = 32 → group_ok d Event__id search (prefix_match search).
Proof.
  intros Hr Hlen. apply (group_ok_fields _ m _ _ _ (search, [])); [done|set_solver| |].
  - intros n Hn. key_fields_string.
  - intros e k Hwf Hk. simpl in Hk. apply list_elem_of_singleton in Hk as ->.
    rewrite makeKey_StringUint64_layout. unfold prefix_match.
    rewrite yes_if_starts by (by rewrite Hlen, (wf_id e)).
    case_bool_decide as Hs; [by left; subst|right]. split; [done|].
    exists (ev_id e, []). split_and!; [|congruence|done].
    rewrite <-makeKey_StringUint64_layout. apply fields_StringUint64; [set_solver|apply Hwf].
Qed.

Lemma group_ok_pubkey d m search :
  repr d m → length search = 32 → group_ok d Event__pubkey search (prefix_match search).
Proof.
  intros Hr Hlen. apply (group_ok_fields _ m _ _ _ (search, [])); [done|set_solver| |].
  - intros n Hn. key_fields_string.
  - intros e k Hwf Hk. simpl in Hk. apply list_elem_of_singleton in Hk as ->.
    rewrite makeKey_StringUint64_layout. unfold prefix_match.
    rewrite yes_if_starts by (by rewrite Hlen, (wf_pubkey e)).
    case_bool_decide as Hs; [by left; subst|right]. split; [done|].
    exists (ev_pubkey e, []). split_and!; [|congruence|done].
    rewrite <-makeKey_StringUint64_layout. apply fields_StringUint64; [set_solver|apply Hwf].
Qed.

Lemma group_ok_tag d m search :
  repr d m → group_ok d Event__tag search (tag_match search).
Proof.
  intros Hr. apply (group_ok_fields _ m _ _ _ (search, [])); [done|set_solver| |].
  - intros n Hn. key_fields_string.
  - intros e k Hwf Hk. simpl in Hk. apply list_elem_of_fmap in Hk as ([c v] & -> & Ht). simpl.
    rewrite makeKey_StringUint64_layout. unfold tag_match.
    rewrite length_app, to_sv64_length.
    assert (key_fields Event__tag ((c :: v) ++ to_sv64 (ev_created_at e)) =
      (c :: v, [] ++ [ev_created_at e])) as Hkf.
    { rewrite <-makeKey_StringUint64_layout. apply fields_StringUint64; [set_solver|apply Hwf]. }
    destruct (Nat.eqb_spec (length (c :: v) + 8) (length search + 8)) as [Hl|Hl].
    + rewrite andb_true_l, yes_if_starts by lia.
      case_bool_decide as Hs; [by left; subst|right]. split; [done|].
      exists (c :: v, []). split_and!; [done|congruence|done].
    + right. split; [done|]. exists (c :: v, []). split_and!; [done| |done].
      intros [= <-]. done.
Qed.

Lemma group_ok_kind d m kind :
  repr d m → is_u64 kind → group_ok d Event__kind (to_sv64 kind) (kind_match kind).
Proof.
  intros Hr Hkind. apply (group_ok_fields _ m _ _ _ ([], [kind])); [done|set_solver| |].
  - intros n Hn. rewrite <-makeKey_Uint64Uint64_layout. by apply fields_Uint64Uint64.
  - intros e k Hwf Hk. simpl in Hk. apply list_elem_of_singleton in Hk as ->.
    unfold kind_match. rewrite ParsedKey_Uint64Uint64_make by apply Hwf. simpl.
    destruct (N.eqb_spec (ev_kind e) kind) as [<-|Hne].
    + left. by rewrite makeKey_Uint64Uint64_layout.
    + right. split; [done|]. exists ([], [ev_kind e]). split_and!; [|congruence|done].
      apply fields_Uint64Uint64; apply Hwf.
Qed.

Lemma group_ok_pubkeyKind d m pk kind :
  repr d m → length pk = 32 → is_u64 kind →
  group_ok d Event__pubkeyKind (pk ++ to_sv64 kind) (prefix_match (pk ++ to_sv64 kind)).
Proof.
  intros Hr Hpk Hkind. apply (group_ok_fields _ m _ _ _ (pk, [kind])); [done|set_solver| |].
  - intros n Hn. rewrite <-app_assoc, <-makeKey_StringUint64Uint64_layout.
    by apply fields_StringUint64Uint64.
  - intros e k Hwf Hk. simpl in Hk. apply list_elem_of_singleton in Hk as ->.
    rewrite makeKey_StringUint64Uint64_layout. unfold prefix_match.
    rewrite (app_assoc (ev_pubkey e)).
    rewrite yes_if_starts by (by rewrite !length_app, !to_sv64_length, Hpk, (wf_pubkey e)).
    case_bool_decide as Hs; [by left; rewrite <-Hs|right]. split; [done|].
    exists (ev_pubkey e, [ev_kind e]). split_and!; [|congruence|done].
    rewrite <-app_assoc, <-makeKey_StringUint64Uint64_layout.
    apply fields_StringUint64Uint64; apply Hwf.
Qed.

Lemma group_ok_created_at d m :
  repr d m → group_ok d Event__created_at [] (λ _, Ok Yes).
Proof.
  intros Hr. apply (group_ok_fields _ m _ _ _ ([], [])); [done|set_solver| |].
  - intros n Hn. apply fields_integer; [set_solver|done].
  - intros e k Hwf Hk. simpl in Hk. apply list_elem_of_singleton in Hk as ->. by left.
Qed.
End groups.
