(* ===== verification/DBQueryCollect.v ===== *)
(** [ScanCursor::collect] reads a group as a stream: however the reads are cut
    by their limits, the candidates are the group's events inside the filter's
    time window, newest first, and the loop over the index makes at most three
    passes. *)

From stdpp Require Import fin_maps fin_sets.
From S2P Require Import Prelude Bytes Json Hex PackedEvent FilterSets Filters EventParse Db MemDb.
From S2P Require Import Subscription DBQuery DBQueryOrder.

Section collect.
Context `{!NativeU64, !GolpeKeys, !Env}.
Context (d : env) (m : gmap N event) (Hr : repr d m).
Context (f : NostrFilter) (Huntil : is_u64 (until f)).

(** The window as [collect] tests it: 0 means no bound. *)
Definition in_window (p : stamp) : Prop :=
  (since f = 0 ∨ since f ≤ p.1)%N ∧ (until f = 0 ∨ p.1 ≤ until f)%N.

#[export] Instance in_window_dec p : Decision (in_window p).
Proof. unfold in_window. apply _. Defined.

Context (idx : Index) (search : bytes) (km : bytes → result KeyMatchResult).
Context (Hg : group_ok d idx search km) (Hz : m !! 0%N = None).

(** What is left of the group at a position. *)
Definition rest_at (pos : stamp) : list stamp :=
  filter in_window (filter (λ p, newer pos p) (group idx search m)).

Definition visited_at (c : ScanCursor) : list (bytes * N) :=
  foreachFull d idx (resumeKey c) (resumeVal c) true.

(** A position below every entry the group can have, in any database. *)
Definition below_group (k : bytes) (v : N) : Prop :=
  ∀ n l, is_u64 n → ¬ entry_le idx (search ++ to_sv64 n, l) (k, v).

(** A cursor of this group with [R] left to read. *)
Inductive cursor_left (c : ScanCursor) (R : list stamp) : Prop :=
  | left_none : resumeKey c = [] → R = [] → cursor_left c R
  | left_out : below_group (resumeKey c) (resumeVal c) → R = [] → cursor_left c R
  | left_at pos : is_u64 pos.1 → resumeKey c = search ++ to_sv64 pos.1 →
      resumeVal c = pos.2 → R = rest_at pos → cursor_left c R.

(** How many passes over the index are still possible: none when inactive, one
    when only foreign keys are left, two once the cursor is below [until]. *)
Definition foreign (c : ScanCursor) : Prop := ∀ e, e ∈ visited_at c → km e.1 = Ok No.

Definition below_until (c : ScanCursor) : Prop :=
  ∃ pos, is_u64 pos.1 ∧ resumeKey c = search ++ to_sv64 pos.1 ∧
    resumeVal c = pos.2 ∧ (until f = 0 ∨ pos.1 ≤ until f)%N.

Definition stage (c : ScanCursor) (s : nat) : Prop :=
  resumeKey c = [] ∨ (1 ≤ s ∧ foreign c) ∨ (2 ≤ s ∧ below_until c) ∨ 3 ≤ s.

Definition candidates (i : N) (l : list stamp) : list CandidateEvent :=
  (λ p : stamp, CandidateEvent_make p.2 p.1 i) <$> l.

(** ** One walk *)

(** How a walk over the group's events [g] and then [others] ends after
    emitting [k] candidates: the flag and the resume position. *)
Inductive visit_end (g : list stamp) (others : list (bytes * N)) (lim : N) (k : nat)
    : bool → bytes → N → Prop :=
  | ve_finished rk rv : drop k (filter in_window g) = [] → visit_end g others lim k true rk rv
  | ve_nomatch rv : drop k (filter in_window g) = [] → visit_end g others lim k false [] rv
  | ve_limit n l g1 g2 : g = g1 ++ (n, l) :: g2 →
      drop k (filter in_window g) = filter in_window ((n, l) :: g2) →
      lim = N.of_nat k → visit_end g others lim k false (search ++ to_sv64 n) l
  | ve_limit_out e : e ∈ others → drop k (filter in_window g) = [] →
      lim = N.of_nat k → visit_end g others lim k false e.1 e.2
  | ve_since : drop k (filter in_window g) = [] →
      visit_end g others lim k false (search ++ to_sv64 0) 0
  | ve_until n l g2 : g = (n, l) :: g2 → k = 0 → until f ≠ 0%N → (until f < n)%N →
      visit_end g others lim k false (search ++ to_sv64 (until f)) MAX_U64.

Lemma visit_end_skip n l g others lim k fin rk rv :
  in_window (n, l) → Forall (λ p, newer (n, l) p) g →
  visit_end g others (lim - 1) k fin rk rv → (lim ≠ 0)%N →
  visit_end ((n, l) :: g) others lim (S k) fin rk rv.
Proof.
  intros Hw Hall Hve Hlim.
  assert (drop (S k) (filter in_window ((n, l) :: g)) = drop k (filter in_window g)) as Hdrop
    by (by rewrite filter_cons_True).
  destruct Hve as [rk rv Hd|rv Hd|n' l' g1 g2 -> Hd Hl|e He Hd Hl|Hd|n' l' g2 -> -> Hu Hn'].
  - constructor. by rewrite Hdrop.
  - constructor. by rewrite Hdrop.
  - apply ve_limit with (g1 := (n, l) :: g1) (g2 := g2); [done|by rewrite Hdrop|lia].
  - apply ve_limit_out; [done|by rewrite Hdrop|lia].
  - constructor. by rewrite Hdrop.
  - exfalso. apply Forall_cons in Hall as [Hnew _]. unfold newer, in_window in *.
    simpl in *. lia.
Qed.

Lemma collect_visit_spec i g others c out lim :
  keyMatch c = km → StronglySorted newer g →
  (∀ p, p ∈ g → is_u64 p.1 ∧ km (search ++ to_sv64 p.1) = Ok Yes) →
  (∀ e, e ∈ others → km e.1 = Ok No) →
  ∃ k fin rk rv,
    collect_visit f i ((key_of search <$> g) ++ others) (c, out, lim) =
      Ok (fin, (set_resume c rk rv, out ++ candidates i (take k (filter in_window g)),
                lim - N.of_nat k)%N) ∧
    (N.of_nat k ≤ lim)%N ∧ visit_end g others lim k fin rk rv.
Proof.
  intros Hkm Hso. revert out lim.
  induction Hso as [|[n l] g Hso IH Hall]; intros out lim Hmem Hoth.
  - destruct others as [|[k v] others]; simpl.
    { exists 0, true, (resumeKey c), (resumeVal c). destruct c. rewrite app_nil_r, N.sub_0_r.
      split; [done|]. split; [lia|]. by constructor. }
    destruct (N.eqb_spec lim 0) as [->|Hl].
    + exists 0, false, k, v. rewrite app_nil_r. split; [done|]. split; [done|].
      by apply (ve_limit_out _ _ _ _ (k, v)); [constructor|..].
    + pose proof (Hoth (k, v) ltac:(constructor)) as Hno. simpl in Hno.
      rewrite Hkm, Hno. simpl.
      exists 0, false, [], (resumeVal c). rewrite app_nil_r, N.sub_0_r.
      split; [done|]. split; [lia|]. by constructor.
  - destruct (Hmem (n, l) ltac:(constructor)) as [Hn Hyes]. simpl in Hn, Hyes.
    simpl. destruct (N.eqb_spec lim 0) as [->|Hl].
    { exists 0, false, (search ++ to_sv64 n), l. rewrite app_nil_r. split; [done|].
      split; [done|]. by apply ve_limit with (g1 := []) (g2 := g). }
    rewrite Hkm, Hyes. simpl.
    rewrite <-makeKey_StringUint64_layout, ParsedKey_StringUint64_make by done. simpl.
    assert (Forall (λ p, p.1 ≤ n)%N g) as Hle.
    { eapply Forall_impl; [done|]. intros p. unfold newer. simpl. lia. }
    destruct (N.eqb_spec (since f) 0) as [Hs0|Hs0]; simpl;
      [|destruct (N.ltb_spec n (since f)) as [Hs|Hs]; simpl].
    2:{ exists 0, false, (search ++ to_sv64 0), 0%N.
        rewrite app_nil_r, N.sub_0_r, makeKey_StringUint64_layout.
        split; [done|]. split; [lia|]. constructor.
        simpl. apply elem_of_nil_inv. intros p [[[?|Hsp] _] Hp]%list_elem_of_filter; [done|].
        apply elem_of_cons in Hp as [->|Hp]; [simpl in Hsp; lia|].
        rewrite Forall_forall in Hle. specialize (Hle p Hp). simpl in *. lia. }
    all: destruct (N.eqb_spec (until f) 0) as [Hu0|Hu0]; simpl;
      [|destruct (N.ltb_spec (until f) n) as [Hu|Hu]; simpl].
    2,5: exists 0, false, (search ++ to_sv64 (until f)), MAX_U64;
        rewrite app_nil_r, N.sub_0_r, makeKey_StringUint64_layout;
        (split; [done|]); (split; [lia|]); by eapply ve_until.
    all: change (list_fmap stamp (bytes * N)%type (key_of search) g) with (key_of search <$> g);
      assert (in_window (n, l)) as Hw by (unfold in_window; simpl; lia);
      destruct (IH (out ++ [CandidateEvent_make l n i]) (lim - 1)%N) as
        (k & fin & rk & rv & Heq & Hk & Hve);
        [intros p Hp; apply Hmem; by constructor|done|];
      exists (S k), fin, rk, rv; rewrite Heq, filter_cons_True by done; simpl;
      rewrite <-app_assoc; simpl;
      (split; [by replace (lim - 1 - N.of_nat k)%N with (lim - N.of_nat (S k))%N by lia|]);
      (split; [lia|]); by apply visit_end_skip.
Qed.

(** ** One pass *)

(** The cursor after a pass: [if (finished) resumeKey = ""]. *)
Definition after_pass (finished : bool) (c : ScanCursor) : ScanCursor :=
  if finished then set_resume c [] (resumeVal c) else c.

Record pass_result (i : N) (c : ScanCursor) (R : list stamp) (out : list CandidateEvent)
    (lim : N) (s : nat) (r : result (bool * collect_state)) : Prop := {
  pr_pass : ∃ k fin c', r = Ok (fin, (c', out ++ candidates i (take k R), lim - N.of_nat k)%N) ∧
    (N.of_nat k ≤ lim)%N ∧ keyMatch c' = km ∧ outstanding c' = outstanding c ∧
    cursor_left (after_pass fin c') (drop k R) ∧
    (lim = N.of_nat k ∨ stage (after_pass fin c') s);
}.

Lemma below_foreign c : below_group (resumeKey c) (resumeVal c) → foreign c.
Proof.
  intros Hb [k l] [He Hle]%(foreachFull_elem d idx _ _ true).
  destruct (go_entry _ _ _ _ Hg k l He) as [(n & -> & Hn & _)|[? _]]; [|done].
  by destruct (Hb n l Hn).
Qed.

(** The entries a walk of the group meets after the group are below it. *)
Lemma walk_below pos e :
  is_u64 pos.1 → e ∈ foreachFull d idx (search ++ to_sv64 pos.1) pos.2 true → km e.1 = Ok No →
  below_group e.1 e.2.
Proof.
  intros Hpos [He Hle]%(foreachFull_elem d idx _ _ true) Hno n l Hn. destruct e as [k v].
  destruct (go_entry _ _ _ _ Hg k v He) as [(n' & _ & _ & Hyes)|[_ Hout]].
  - simpl in Hno. congruence.
  - by apply (Hout pos.1 pos.2).
Qed.

Lemma foreign_left c R : foreign c → cursor_left c R → R = [].
Proof.
  intros Hf [? ->|_ ->|pos Hpos Hk Hv ->]; [done..|].
  unfold foreign, visited_at in Hf. rewrite Hk, Hv in Hf.
  destruct (walk d m Hr idx search km Hg pos Hpos) as (others & Hw & _). rewrite Hw in Hf.
  unfold rest_at. destruct (filter (λ p, newer pos p) (group idx search m)) as [|p g] eqn:E; [done|].
  assert (p ∈ group idx search m) as Hp.
  { assert (p ∈ p :: g) as Hp by constructor. rewrite <-E in Hp.
    by apply list_elem_of_filter in Hp as [_ ?]. }
  apply (group_yes d m Hr idx search km Hg) in Hp.
  specialize (Hf (key_of search p)). unfold key_of in Hf at 2. simpl in Hf.
  rewrite Hf in Hp by (simpl; constructor). done.
Qed.

(** A walk that meets only foreign keys ends the cursor. *)
Lemma foreign_pass i c out lim s :
  keyMatch c = km → foreign c → lim ≠ 0%N →
  pass_result i c [] out lim s (collect_visit f i (visited_at c) (c, out, lim)).
Proof.
  intros Hkm Hf Hlim. constructor. unfold foreign in Hf.
  destruct (visited_at c) as [|[k v] others]; simpl.
  - exists 0, true, c. rewrite app_nil_r, N.sub_0_r. split_and!; try done; [lia| |].
    + by apply left_none.
    + right. by left.
  - destruct (N.eqb_spec lim 0); [done|]. pose proof (Hf (k, v) ltac:(constructor)) as Hno.
    simpl in Hno. rewrite Hkm, Hno. simpl.
    exists 0, false, (set_resume c [] (resumeVal c)). rewrite app_nil_r, N.sub_0_r.
    split_and!; try done; [lia| |].
    + by apply left_none.
    + right. by left.
Qed.

(** Resuming at an event of the group leaves the events from it on. *)
Lemma rest_at_older pos n l g1 g2 :
  filter (λ p, newer pos p) (group idx search m) = g1 ++ (n, l) :: g2 →
  rest_at (n, l) = filter in_window ((n, l) :: g2).
Proof.
  intros Hsplit. unfold rest_at. f_equal.
  assert (newer pos (n, l)) as Hpos.
  { assert ((n, l) ∈ filter (λ p, newer pos p) (group idx search m)) as Hin
      by (rewrite Hsplit; set_solver). by apply list_elem_of_filter in Hin as [? _]. }
  rewrite <-(filter_older_tail g1 (n, l) g2).
  - rewrite <-Hsplit, list_filter_filter. apply filter_ext_mem. intros p _.
    split; [intros ?; split; [done|]|by intros []]. by transitivity (n, l).
  - rewrite <-Hsplit. by apply StronglySorted_filter', group_sorted.
  - rewrite <-Hsplit. apply NoDup_filter, group_NoDup.
Qed.

(** Jumping to [until] skips nothing inside the window. *)
Lemma rest_at_until pos n l g2 :
  filter (λ p, newer pos p) (group idx search m) = (n, l) :: g2 →
  until f ≠ 0%N → (until f < n)%N → rest_at (until f, MAX_U64) = rest_at pos.
Proof.
  intros Hsplit Hu Hn.
  assert (newer pos (n, l)) as Hpos.
  { assert ((n, l) ∈ filter (λ p, newer pos p) (group idx search m)) as Hin
      by (rewrite Hsplit; set_solver). by apply list_elem_of_filter in Hin as [? _]. }
  unfold rest_at. rewrite !list_filter_filter. apply filter_ext_mem.
  intros p Hp. destruct (group_u64 d m Hr idx search p Hp) as [_ Hl].
  unfold in_window, newer, is_u64, two64, MAX_U64 in *. simpl in *. lia.
Qed.

(** No event of the group is at the bottom position: levIds start at 1. *)
Lemma bottom_foreign c :
  resumeKey c = search ++ to_sv64 0 → resumeVal c = 0%N → foreign c.
Proof.
  intros Hk Hv e He. unfold visited_at in He. rewrite Hk, Hv in He.
  destruct (walk d m Hr idx search km Hg (0%N, 0%N)) as (others & Hw & Hoth); [done|].
  simpl in Hw. rewrite Hw in He. apply elem_of_app in He as [He|He]; [|by apply Hoth].
  apply list_elem_of_fmap in He as ([n l] & -> & [Hnew Hin]%list_elem_of_filter).
  apply elem_of_group in Hin as (o & Ho & _). unfold newer in Hnew. simpl in Hnew.
  assert (l = 0%N) as -> by lia. congruence.
Qed.

Lemma collect_pass i c R out lim s :
  keyMatch c = km → cursor_left c R → stage c (S s) → resumeKey c ≠ [] → lim ≠ 0%N →
  pass_result i c R out lim s (collect_visit f i (visited_at c) (c, out, lim)).
Proof.
  intros Hkm Hleft Hst Hact Hlim.
  destruct Hst as [?|[[_ Hf]|Hst]]; [done| |].
  { rewrite (foreign_left c R Hf Hleft). by apply foreign_pass. }
  destruct Hleft as [?|Hf ->|pos Hpos Hk Hv ->]; [done|by apply foreign_pass; [|apply below_foreign|]|].
  destruct (walk d m Hr idx search km Hg pos Hpos) as (others & Hw & Hoth).
  unfold visited_at. rewrite Hk, Hv, Hw.
  set (g := filter (λ p, newer pos p) (group idx search m)) in *.
  destruct (collect_visit_spec i g others c out lim Hkm) as
    (k & fin & rk & rv & Heq & Hle & Hve).
  - by apply StronglySorted_filter', group_sorted.
  - intros p [_ Hp]%list_elem_of_filter. split; [by eapply group_u64|by apply (group_yes d m Hr idx search km Hg)].
  - intros e He. by apply Hoth.
  - constructor. exists k, fin. eexists. split; [exact Heq|]. split; [done|].
    split; [done|]. split; [done|]. change (rest_at pos) with (filter in_window g).
    destruct Hve as [? ? Hd|? Hd|n l g1 g2 Hsp Hd Hl|e He Hd Hl|Hd|n l g2 Hsp Hk0 Hu Hn]; simpl.
    + rewrite Hd. split; [by apply left_none|]. right. by left.
    + rewrite Hd. split; [by apply left_none|]. right. by left.
    + rewrite Hd. split; [|by left]. apply left_at with (pos := (n, l)); try done.
      * destruct (group_u64 d m Hr idx search (n, l)); [|done].
        assert ((n, l) ∈ g) as Hin by (rewrite Hsp; set_solver).
        by apply list_elem_of_filter in Hin as [_ ?].
      * symmetry. by eapply rest_at_older.
    + rewrite Hd. split; [|by left]. apply left_out; [|done]. simpl.
      apply (walk_below pos); [done| |by apply Hoth]. rewrite Hw. set_solver.
    + rewrite Hd. assert (foreign (set_resume c (search ++ to_sv64 0) 0))
        as Hf by by apply bottom_foreign.
      assert (cursor_left (set_resume c (search ++ to_sv64 0) 0) (rest_at (0%N, 0%N)))
        as Hl by by apply left_at with (pos := (0%N, 0%N)).
      rewrite <-(foreign_left _ _ Hf Hl) at 1.
      split; [done|]. right. right. left. split; [|done]. destruct Hst; lia.
    + split.
      * apply left_at with (pos := (until f, MAX_U64)); try done.
        rewrite Hk0, drop_0. symmetry. by eapply rest_at_until.
      * right. right. right. destruct Hst as [[_ (pos' & Hpos' & Hk' & _ & Hle')]|Hs]; [|left].
        -- exfalso. rewrite Hk in Hk'. apply app_inj_1 in Hk' as [_ Hk'%to_sv64_inj]; [|done..].
           assert (newer pos (n, l)) as Hnew.
           { assert ((n, l) ∈ g) as Hin by (rewrite Hsp; constructor).
             by apply list_elem_of_filter in Hin as [? _]. }
           unfold newer in Hnew. simpl in Hnew. lia.
        -- split; [lia|]. exists (until f, MAX_U64). split_and!; try done. by right.
Qed.

(** ** The loop *)

Lemma cursor_left_inactive c R : cursor_left c R → resumeKey c = [] → R = [].
Proof.
  intros [? ->|_ ->|pos Hpos Hk Hv ->] Hnil; [done..|].
  rewrite Hk in Hnil. apply (f_equal length) in Hnil.
  rewrite length_app, to_sv64_length in Hnil. simpl in Hnil. lia.
Qed.

Lemma collect_loop_stop fuel i c out lim :
  active c && (0 <? lim)%N = false →
  collect_loop fuel d f idx i (c, out, lim) = Ok (c, out, lim).
Proof. intros Hst. by destruct fuel; simpl; rewrite Hst. Qed.

Lemma active_false c : active c = false ↔ resumeKey c = [].
Proof.
  unfold active. rewrite negb_false_iff, Nat.eqb_eq. split; [apply nil_length_inv|by intros ->].
Qed.

Lemma collect_loop_spec fuel i c R out lim s :
  keyMatch c = km → cursor_left c R → stage c s → s ≤ fuel → s ≤ 3 →
  ∃ c' lim', collect_loop fuel d f idx i (c, out, lim) =
      Ok (c', out ++ candidates i (take (N.to_nat lim) R), lim') ∧
    keyMatch c' = km ∧ outstanding c' = outstanding c ∧
    cursor_left c' (drop (N.to_nat lim) R).
Proof.
  revert c R out lim s. induction fuel as [|fuel IH]; intros c R out lim s Hkm Hleft Hst Hfuel Hs.
  all: destruct (active c && (0 <? lim)%N) eqn:Hact.
  2,4: rewrite collect_loop_stop by done; exists c, lim; apply andb_false_iff in Hact as [Hact|Hact].
  2,4: apply active_false in Hact; pose proof (cursor_left_inactive c R Hleft Hact) as ->;
    rewrite take_nil, drop_nil, app_nil_r; by split_and!.
  2,3: apply N.ltb_ge in Hact; assert (lim = 0%N) as -> by lia; rewrite app_nil_r; by split_and!.
  all: apply andb_true_iff in Hact as [Hact Hlim]; apply N.ltb_lt in Hlim.
  all: assert (resumeKey c ≠ []) as Hne by (intros ?%active_false; congruence).
  { exfalso. assert (s = 0) as -> by lia.
    destruct Hst as [?|[[? _]|[[? _]|?]]]; [done|lia..]. }
  destruct s as [|s]; [by destruct Hst as [?|[[? _]|[[? _]|?]]]; [done|lia..]|].
  destruct (collect_pass i c R out lim s Hkm Hleft Hst Hne ltac:(lia)) as
    [(k & fin & c' & Heq & Hk & Hkm' & Ho' & Hleft' & Hst')].
  simpl. rewrite (proj2 (N.ltb_lt 0 lim) Hlim), Hact. simpl.
  change (foreachFull d idx (resumeKey c) (resumeVal c) true) with (visited_at c).
  rewrite Heq. simpl. change (if fin then _ else c') with (after_pass fin c').
  assert (keyMatch (after_pass fin c') = km ∧ outstanding (after_pass fin c') = outstanding c)
    as [Hkm'' Ho''] by (by destruct fin).
  destruct Hst' as [->|Hst'].
  - rewrite N.sub_diag, collect_loop_stop by (by rewrite andb_false_r).
    exists (after_pass fin c'), 0%N. by rewrite Nat2N.id.
  - destruct (IH (after_pass fin c') (drop k R) (out ++ candidates i (take k R))
      (lim - N.of_nat k)%N s Hkm'' Hleft' Hst') as (c2 & lim2 & -> & Hkm2 & Ho2 & Hleft2); [lia..|].
    exists c2, lim2. rewrite <-app_assoc. unfold candidates in *. rewrite <-fmap_app.
    replace (N.to_nat (lim - N.of_nat k)) with (N.to_nat lim - k) in * by lia.
    rewrite take_take_drop, drop_drop in *.
    replace (k + (N.to_nat lim - k)) with (N.to_nat lim) in * by lia.
    split_and!; try done. congruence.
Qed.

(** [collect] emits the next [lim] stamps of the stream and leaves the rest. *)
Lemma collect_spec i c R lim :
  keyMatch c = km → cursor_left c R →
  ∃ c', collect d f idx i lim c = Ok (candidates i (take (N.to_nat lim) R), c') ∧
    keyMatch c' = km ∧ cursor_left c' (drop (N.to_nat lim) R) ∧
    outstanding c' = u64_add (outstanding c) (N.of_nat (length (take (N.to_nat lim) R))).
Proof.
  intros Hkm Hleft.
  destruct (collect_loop_spec collect_fuel i c R [] lim 3 Hkm Hleft) as
    (c' & lim' & Heq & Hkm' & Ho' & Hleft'); [by right; right; right|unfold collect_fuel; lia|lia|].
  unfold collect. rewrite Heq. simpl. eexists. split; [done|]. simpl. split; [done|].
  split.
  - inversion Hleft'; subst.
    + by apply left_none.
    + by apply left_out.
    + by eapply left_at.
  - unfold candidates. by rewrite Ho', length_fmap.
Qed.

(** ** Cursors that outlive their database

    A paused query goes on in a later snapshot: where its cursors stand says
    enough to read whatever that snapshot holds. *)
Definition placed (c : ScanCursor) : Prop :=
  resumeKey c = [] ∨ below_group (resumeKey c) (resumeVal c) ∨
  ∃ n, is_u64 n ∧ resumeKey c = search ++ to_sv64 n.

Lemma cursor_left_placed c R : cursor_left c R → placed c.
Proof.
  unfold placed. intros [?|? _|pos ? ? _ _]; [by left|right; by left|right; right; by exists pos.1].
Qed.

Lemma placed_left c : placed c → ∃ R, cursor_left c R.
Proof.
  intros [Hk|[Hb|(n & Hn & Hk)]]; [exists []; by apply left_none|exists []; by apply left_out|].
  eexists. by apply left_at with (pos := (n, resumeVal c)).
Qed.

Lemma rest_at_sublist pos : rest_at pos `sublist_of` group idx search m.
Proof. unfold rest_at. by rewrite !sublist_filter. Qed.

Lemma cursor_left_sublist c R : cursor_left c R → R `sublist_of` group idx search m.
Proof. intros [_ ->|_ ->|pos _ _ _ ->]; [apply sublist_nil_l..|apply rest_at_sublist]. Qed.

(** A fresh cursor starts at the end of its group. *)
Lemma new_cursor_left : cursor_left (new_cursor search km) (filter in_window (group idx search m)).
Proof.
  apply left_at with (pos := (MAX_U64, MAX_U64)); simpl; [done| |done|].
  - unfold ff8. by rewrite to_sv64_max.
  - unfold rest_at. f_equal. symmetry. apply filter_all.
    intros p Hp. destruct (group_u64 d m Hr idx search p Hp).
    unfold newer, is_u64, two64, MAX_U64 in *. simpl. lia.
Qed.
End collect.
