(* ===== verification/DBScanRun.v ===== *)
(** The invariant of a scan: the queue and the cursors together hold exactly
    the events still to be visited, each cursor knows how many of its
    candidates are queued, and a cursor's queued candidates are newer than what
    it has left to read.  Collecting more candidates and taking one out of the
    queue preserve it. *)

From stdpp Require Import fin_maps fin_sets.
From S2P Require Import Prelude Bytes Json Hex PackedEvent FilterSets Filters EventParse Db MemDb.
From S2P Require Import Subscription DBQuery DBQueryOrder DBQueryCollect.

(** A list of distinct numbers below [n] has at most [n] elements. *)
Lemma NoDup_bounded_length (n : N) (l : list N) :
  NoDup l → (∀ x, x ∈ l → (x < n)%N) → (N.of_nat (length l) ≤ n)%N.
Proof.
  revert l. induction n as [|n IH] using N.peano_ind; intros l Hnd Hlt.
  { destruct l as [|x l]; [done|]. specialize (Hlt x ltac:(constructor)). lia. }
  assert (N.of_nat (length (filter (.≠ n) l)) ≤ n)%N as Hle.
  { apply IH; [by apply NoDup_filter|]. intros x [Hx Hin]%list_elem_of_filter.
    specialize (Hlt x Hin). lia. }
  assert (length l ≤ S (length (filter (.≠ n) l))); [|lia].
  clear -Hnd. induction Hnd as [|x l Hx Hnd IH]; simpl; [lia|].
  destruct (decide (x = n)) as [->|Hne].
  - rewrite filter_cons_False by auto. rewrite filter_all; [done|].
    intros y Hy ->. done.
  - rewrite filter_cons_True by done. simpl. lia.
Qed.

Lemma mjoin_insert {A} (R : list (list A)) i x y :
  R !! i = Some x → ∃ rest, mjoin R ≡ₚ x ++ rest ∧ mjoin (<[i := y]> R) ≡ₚ y ++ rest.
Proof.
  intros Hi. exists (mjoin (take i R) ++ mjoin (drop (S i) R)).
  assert (∀ a b : list (list A), mjoin (a ++ b) = mjoin a ++ mjoin b) as Happ.
  { induction a as [|z a IH]; intros b; simpl; [done|]. by rewrite IH, app_assoc. }
  split.
  - rewrite <-(take_drop_middle R i x Hi) at 1. rewrite Happ. simpl. solve_Permutation.
  - rewrite insert_take_drop by (by eapply lookup_lt_Some). rewrite Happ. simpl.
    solve_Permutation.
Qed.

Definition queued (i : nat) (Q : list CandidateEvent) : nat :=
  length (filter (λ ev, cand_scanIndex ev = N.of_nat i) Q).

#[export] Instance queued_proper i : Proper ((≡ₚ) ==> (=)) (queued i).
Proof. intros Q Q' HQ. unfold queued. by rewrite HQ. Qed.

Lemma queued_app i Q Q' : queued i (Q ++ Q') = queued i Q + queued i Q'.
Proof. unfold queued. by rewrite filter_app, length_app. Qed.

Section scan_inv.
Context `{!NativeU64, !GolpeKeys, !Env}.
Context (d : env) (m : gmap N event) (Hr : repr d m).
Context (f : NostrFilter) (Huntil : is_u64 (until f)).
Context (Hz : m !! 0%N = None).
Context (Htime : ∀ l e, m !! l = Some e → time_ok (ev_created_at e)).
Context (idx : Index) (gs : list (bytes * (bytes → result KeyMatchResult))).
Context (Hgs : ∀ i g, gs !! i = Some g → group_ok d idx g.1 g.2).
Context (Hfit : (N.of_nat (length gs) < 16777216)%N).

(** The stamp of an event of the database. *)
Definition row (p : stamp) : Prop := ∃ e, m !! p.2 = Some e ∧ p.1 = ev_created_at e.

Lemma row_time p : row p → time_ok p.1.
Proof. intros (e & He & ->). by eapply Htime. Qed.

Lemma size_u64 : is_u64 (N.of_nat (base.size m)).
Proof.
  destruct Hr as [_ Hwf]. unfold is_u64.
  assert (N.of_nat (length (N.pred <$> (map_to_list m).*1)) ≤ two64 - 1)%N as Hle.
  { apply NoDup_bounded_length.
    - apply NoDup_fmap_2_strong; [|apply NoDup_fst_map_to_list].
      intros x y ([x' e] & -> & Hx%elem_of_map_to_list)%list_elem_of_fmap
        ([y' e'] & -> & Hy%elem_of_map_to_list)%list_elem_of_fmap Heq. simpl in *.
      assert (x' ≠ 0%N ∧ y' ≠ 0%N) as [? ?] by (split; intros ->; congruence). lia.
    - intros x (y & -> & ([y' e] & -> & Hy%elem_of_map_to_list)%list_elem_of_fmap)%list_elem_of_fmap.
      simpl. destruct (Hwf y' e Hy) as [Hu _]. unfold is_u64 in Hu.
      assert (y' ≠ 0%N) by (intros ->; congruence). lia. }
  rewrite !length_fmap, length_map_to_list in Hle. unfold two64 in *. lia.
Qed.

Record core_inv (cs : list ScanCursor) (Q : list CandidateEvent) (R : list (list stamp))
    : Prop := {
  ci_len : length cs = length gs ∧ length R = length gs;
  ci_cursor : ∀ i c Ri g, cs !! i = Some c → R !! i = Some Ri → gs !! i = Some g →
    keyMatch c = g.2 ∧ cursor_left m f idx g.1 c Ri ∧
    outstanding c = N.of_nat (queued i Q) ∧ StronglySorted newer Ri ∧
    queued i Q + length Ri ≤ base.size m;
  ci_queue : ∀ ev, ev ∈ Q → ∃ i p, ev = CandidateEvent_make p.2 p.1 (N.of_nat i) ∧
    i < length gs ∧ row p ∧ ∀ Ri, R !! i = Some Ri → ∀ q, q ∈ Ri → newer p q;
  ci_rows : ∀ Ri, Ri ∈ R → ∀ q, q ∈ Ri → row q;
}.

Definition pending (Q : list CandidateEvent) (R : list (list stamp)) : list stamp :=
  (stamp_of <$> Q) ++ mjoin R.

Lemma index_ok i : i < length gs → index_fits (N.of_nat i).
Proof. unfold index_fits. lia. Qed.

Lemma stamp_of_candidate p i :
  row p → i < length gs → stamp_of (CandidateEvent_make p.2 p.1 (N.of_nat i)) = p.
Proof.
  intros Hp Hi. rewrite (stamp_of_make _ _ _ (row_time p Hp) (index_ok i Hi)).
  by destruct p.
Qed.

Lemma scanIndex_candidate p i :
  row p → i < length gs →
  cand_scanIndex (CandidateEvent_make p.2 p.1 (N.of_nat i)) = N.of_nat i.
Proof. intros Hp Hi. exact (cand_scanIndex_make _ _ _ (row_time p Hp) (index_ok i Hi)). Qed.

Lemma queued_candidates i j l :
  (∀ p, p ∈ l → row p) → i < length gs →
  queued j (candidates (N.of_nat i) l) = if decide (j = i) then length l else 0.
Proof.
  intros Hrow Hi. unfold queued, candidates. induction l as [|p l IH].
  { rewrite fmap_nil, filter_nil. by case_decide. }
  specialize (IH (λ q Hq, Hrow q (list_elem_of_further _ _ _ Hq))).
  rewrite fmap_cons, filter_cons, scanIndex_candidate by (auto using list_elem_of_here).
  destruct (decide (N.of_nat i = N.of_nat j)) as [Heq|Hne]; cbn [length].
  - rewrite IH. case_decide; lia.
  - rewrite IH. case_decide; [lia|done].
Qed.

Lemma stamps_candidates i l :
  (∀ p, p ∈ l → row p) → i < length gs → stamp_of <$> candidates (N.of_nat i) l = l.
Proof.
  intros Hrow Hi. unfold candidates. induction l as [|p l IH]; [done|]. simpl.
  rewrite stamp_of_candidate by (auto using list_elem_of_here). f_equal.
  apply IH. intros q Hq. apply Hrow. by constructor.
Qed.

Lemma core_lookup cs Q R i :
  core_inv cs Q R → i < length gs →
  ∃ c Ri g, cs !! i = Some c ∧ R !! i = Some Ri ∧ gs !! i = Some g.
Proof.
  intros [[Hlc Hlr] _ _ _] Hi.
  destruct (lookup_lt_is_Some_2 cs i) as [c Hc]; [lia|].
  destruct (lookup_lt_is_Some_2 R i) as [Ri HRi]; [lia|].
  destruct (lookup_lt_is_Some_2 gs i) as [g Hg]; [lia|]. by exists c, Ri, g.
Qed.

Lemma sorted_take_drop n (l : list stamp) p q :
  StronglySorted newer l → p ∈ take n l → q ∈ drop n l → newer p q.
Proof.
  intros Hso Hp Hq. rewrite <-(take_drop n l) in Hso.
  apply StronglySorted_app in Hso as (Hcross & _ & _). by apply Hcross.
Qed.

(** Collecting moves the newest stamps of a cursor's stream to the queue. *)
Lemma core_collect cs Q R i c Ri lim :
  core_inv cs Q R → cs !! i = Some c → R !! i = Some Ri →
  ∃ c', collect d f idx (N.of_nat i) lim c =
      Ok (candidates (N.of_nat i) (take (N.to_nat lim) Ri), c') ∧
    ∀ Q', Q' ≡ₚ Q ++ candidates (N.of_nat i) (take (N.to_nat lim) Ri) →
      core_inv (<[i := c']> cs) Q' (<[i := drop (N.to_nat lim) Ri]> R).
Proof.
  intros Hinv Hc HRi. set (k := N.to_nat lim).
  assert (i < length gs) as Hi by (rewrite <-(proj1 (ci_len _ _ _ Hinv)); by eapply lookup_lt_Some).
  destruct (lookup_lt_is_Some_2 gs i Hi) as [g Hgi].
  destruct (ci_cursor _ _ _ Hinv i c Ri g Hc HRi Hgi) as (Hkm & Hleft & Hout & Hso & Hcnt).
  destruct (collect_spec d m Hr f Huntil idx g.1 g.2 (Hgs i g Hgi) Hz (N.of_nat i) c Ri lim
    Hkm Hleft) as (c' & Heq & Hkm' & Hleft' & Hout').
  exists c'. split; [done|]. intros Q' HQ'.
  assert (∀ p, p ∈ take k Ri → row p) as Hrows.
  { intros p Hp. apply (ci_rows _ _ _ Hinv Ri); [by eapply list_elem_of_lookup_2|].
    by eapply elem_of_take in Hp as (? & ?%list_elem_of_lookup_2 & _). }
  assert (∀ j, queued j Q' = queued j Q + if decide (j = i) then length (take k Ri) else 0) as Hq.
  { intros j. by rewrite HQ', queued_app, queued_candidates. }
  split.
  - rewrite !length_insert. apply Hinv.
  - intros j cj Rj gj. destruct (decide (j = i)) as [->|Hne].
    + rewrite !list_lookup_insert_eq by (by eapply lookup_lt_Some).
      intros [= <-] [= <-] Hgj. simplify_eq. split_and!; [done|done| | |].
      * rewrite Hout', Hout, Hq, decide_True by done. fold k.
        rewrite u64_add_small; [lia|]. rewrite length_take. pose proof size_u64 as Hsz.
        unfold is_u64 in Hsz. lia.
      * rewrite <-(take_drop k Ri) in Hso. apply StronglySorted_app in Hso as (_ & _ & ?). done.
      * rewrite Hq, decide_True by done. rewrite length_take, length_drop. lia.
    + rewrite !list_lookup_insert_ne by done. intros Hcj HRj Hgj.
      rewrite Hq, decide_False, Nat.add_0_r by done. by apply (ci_cursor _ _ _ Hinv).
  - intros ev Hev. rewrite HQ' in Hev. apply elem_of_app in Hev as [Hev|Hev].
    + destruct (ci_queue _ _ _ Hinv ev Hev) as (j & p & -> & Hj & Hp & Hnew).
      exists j, p. split_and!; [done..|]. intros Rj HRj q Hqin.
      destruct (decide (j = i)) as [->|Hne].
      * rewrite list_lookup_insert_eq in HRj by (by eapply lookup_lt_Some). simplify_eq.
        eapply Hnew; [done|]. eapply elem_of_sublist; [done|apply sublist_drop].
      * rewrite list_lookup_insert_ne in HRj by done. by eapply Hnew.
    + apply list_elem_of_fmap in Hev as (p & -> & Hp). exists i, p.
      split_and!; [done|done|by apply Hrows|]. intros Rj HRj q Hqin.
      rewrite list_lookup_insert_eq in HRj by (by eapply lookup_lt_Some). simplify_eq.
      by eapply sorted_take_drop.
  - intros Rj HRj q Hqin. apply list_elem_of_lookup in HRj as [j HRj].
    destruct (decide (j = i)) as [->|Hne].
    + rewrite list_lookup_insert_eq in HRj by (by eapply lookup_lt_Some). simplify_eq.
      apply (ci_rows _ _ _ Hinv Ri); [by eapply list_elem_of_lookup_2|].
      eapply elem_of_sublist; [done|apply sublist_drop].
    + rewrite list_lookup_insert_ne in HRj by done.
      apply (ci_rows _ _ _ Hinv Rj); [by eapply list_elem_of_lookup_2|done].
Qed.

Lemma pending_collect Q Q' R i Ri k :
  R !! i = Some Ri → i < length gs → (∀ p, p ∈ Ri → row p) →
  Q' ≡ₚ Q ++ candidates (N.of_nat i) (take k Ri) →
  pending Q' (<[i := drop k Ri]> R) ≡ₚ pending Q R.
Proof.
  intros HRi Hi Hrow HQ'. unfold pending. rewrite HQ', fmap_app.
  rewrite stamps_candidates; [|intros p Hp; apply Hrow; eapply elem_of_sublist; [done|apply sublist_take]|done].
  destruct (mjoin_insert R i Ri (drop k Ri) HRi) as (rest & -> & ->).
  rewrite <-(take_drop k Ri) at 3. solve_Permutation.
Qed.

(** A candidate leaves the queue. *)
Lemma core_pop cs Q R ev :
  core_inv cs (ev :: Q) R →
  ∃ i c, cand_scanIndex ev = N.of_nat i ∧ i < length gs ∧ cs !! i = Some c ∧ row (stamp_of ev) ∧
    outstanding c = N.of_nat (S (queued i Q)) ∧
    u64_sub (outstanding c) 1 = N.of_nat (queued i Q) ∧
    core_inv (<[i := set_outstanding c (u64_sub (outstanding c) 1)]> cs) Q R.
Proof.
  intros Hinv. destruct (ci_queue _ _ _ Hinv ev ltac:(constructor)) as (i & p & Hev & Hi & Hp & _).
  destruct (core_lookup _ _ _ i Hinv Hi) as (c & Ri & g & Hc & HRi & Hgi).
  destruct (ci_cursor _ _ _ Hinv i c Ri g Hc HRi Hgi) as (Hkm & Hleft & Hout & Hso & Hcnt).
  assert (cand_scanIndex ev = N.of_nat i) as Hidx by (rewrite Hev; by apply scanIndex_candidate).
  assert (∀ j, queued j (ev :: Q) = (if decide (j = i) then 1 else 0) + queued j Q) as Hq.
  { intros j. unfold queued. rewrite filter_cons, Hidx. repeat case_decide; simpl; lia. }
  rewrite Hq, decide_True in Hout, Hcnt by done. pose proof size_u64 as Hsz. unfold is_u64 in Hsz.
  assert (u64_sub (outstanding c) 1 = N.of_nat (queued i Q)) as Hsub.
  { rewrite Hout, u64_sub_small; unfold is_u64; lia. }
  exists i, c. split_and!; try done.
  { by rewrite Hev, stamp_of_candidate. }
  split.
  - rewrite length_insert. apply Hinv.
  - intros j cj Rj gj. destruct (decide (j = i)) as [->|Hne].
    + rewrite list_lookup_insert_eq by (by eapply lookup_lt_Some).
      intros [= <-] ? ?. simplify_eq. split_and!; [done| |by rewrite <-Hsub|done|lia].
      inversion Hleft; subst; [by apply left_none|by apply left_out|by eapply left_at].
    + rewrite list_lookup_insert_ne by done. intros Hcj HRj Hgj.
      destruct (ci_cursor _ _ _ Hinv j cj Rj gj Hcj HRj Hgj) as (? & ? & Ho & ? & Hcn).
      rewrite Hq, decide_False in Ho, Hcn by done. done.
  - intros ev' Hev'. apply (ci_queue _ _ _ Hinv). by constructor.
  - apply Hinv.
Qed.
End scan_inv.

(** A scan visits the pending events newest first: [scan] with any callback and
    any pause decisions is the fold of the callback over the sorted list of
    pending events ([scan_spec]), cut where it was paused. *)

#[global] Arguments collect : simpl never.
#[global] Arguments candidates : simpl never.

(** One iteration. *)
Lemma scan_S `{!NativeU64, !GolpeKeys, !Env} {A P} (h : A → N → result (A * bool)) (doPause : P → N → P * bool) fuel d s a p :
  scan h doPause (S fuel) d s a p =
    let '(p, paused) := doPause p (approxWork (add_work s 1)) in
    if paused then Ok (false, add_work s 1, a, p)
    else r ← scan_body h d (add_work s 1) a;
         match r with
         | (Some b, s, a) => Ok (b, s, a, p)
         | (None, s, a) => scan h doPause fuel d s a p
         end.
Proof. reflexivity. Qed.

(** The primary keys are the events'. *)
Lemma foreach_Event_size `{!NativeU64, !GolpeKeys, !Env} d m :
  repr d m → base.size m ≤ length (foreach_Event d).
Proof.
  intros Hr. rewrite <-length_map_to_list, <-(length_fmap fst).
  apply submseteq_length, NoDup_submseteq; [apply NoDup_fst_map_to_list|].
  intros l ([l' e] & -> & Hl%elem_of_map_to_list)%list_elem_of_fmap. apply foreach_Event_elem.
  destruct Hr as [-> _]. rewrite lookup_fmap. simpl in *. rewrite Hl. by eexists.
Qed.

Section run.
Context `{!NativeU64, !GolpeKeys, !Env}.
Context (d : env) (m : gmap N event) (Hr : repr d m).
Context (f : NostrFilter) (Huntil : is_u64 (until f)) (Hwf : filter_wf f).
Context (Hz : m !! 0%N = None).
Context (Htime : ∀ l e, m !! l = Some e → time_ok (ev_created_at e)).
Context (idx : Index) (gs : list (bytes * (bytes → result KeyMatchResult))).
Context (Hgs : ∀ i g, gs !! i = Some g → group_ok d idx g.1 g.2).
Context (Hfit : (N.of_nat (length gs) < 16777216)%N).
Context (io : bool).

(** ** Which visited events are sent *)

Definition sends (p : stamp) : bool :=
  if io then doesMatchTimes f p.1
  else match m !! p.2 with
       | Some e => match doesMatch f (mk_view (encode e)) with Ok b => b | Throw _ => false end
       | None => false
       end.

Lemma candidate_matches_spec s ev :
  row m (stamp_of ev) → sc_f s = f → indexOnly s = io →
  candidate_matches d s ev = Ok (sends (stamp_of ev), add_work s 10) ∨
  candidate_matches d s ev = Ok (sends (stamp_of ev), s).
Proof.
  intros (e & He & Hn) Hf Hio. unfold candidate_matches, sends. rewrite Hf, Hio.
  destruct io; [by right|]. left.
  unfold stamp_of in *. simpl in He |- *. rewrite (lookup_Event_repr d m _ Hr), He. simpl.
  destruct (repr_wf d m _ _ Hr He) as [Hwe _]. rewrite view_encode by done. simpl.
  rewrite Hf. destruct (doesMatch_sem f e Hwf Hwe) as (b & -> & _). done.
Qed.

(** ** The invariant with the order of the queue *)

Record scan_inv (s : DBScan) (R : list (list stamp)) : Prop := {
  sv_core : core_inv m f idx gs (cursors s) (eventQueue s) R;
  sv_f : sc_f s = f;
  sv_idx : indexDbi s = idx;
  sv_io : indexOnly s = io;
  sv_depth : (0 < initialScanDepth s)%N ∧ (0 < refillScanDepth s)%N;
  sv_next : nextInitIndex s ≤ length gs;
  sv_ready : ∀ i Ri, i < nextInitIndex s → R !! i = Some Ri →
    Ri = [] ∨ 0 < queued i (eventQueue s);
  sv_sorted : nextInitIndex s = length gs → StronglySorted cand_le (eventQueue s);
}.

Definition to_visit (s : DBScan) (R : list (list stamp)) : list stamp :=
  pending (eventQueue s) R.

Definition visits (s : DBScan) (R : list (list stamp)) : list stamp :=
  sort_newer (to_visit s R).

Definition iterations (s : DBScan) (R : list (list stamp)) : nat :=
  (length gs - nextInitIndex s) + length (to_visit s R).

Lemma scan_inv_work s R w : scan_inv s R → scan_inv (add_work s w) R.
Proof. by intros []. Qed.

(** The work counter and the stamps the cursors have left: collecting moves work
    from the second to the first. *)
Definition work_left (s : DBScan) (R : list (list stamp)) : N :=
  approxWork s + N.of_nat (length (mjoin R)).

Lemma u64_add_le a b : (u64_add a b ≤ a + b)%N.
Proof. unfold u64_add, u64_wrap. by apply N.Div0.mod_le. Qed.

Lemma work_left_add s R n : (work_left (add_work s n) R ≤ work_left s R + n)%N.
Proof. unfold work_left. simpl. pose proof (u64_add_le (approxWork s) n). lia. Qed.

Lemma collect_work w R i j Ri k :
  R !! i = Some Ri →
  (u64_add w (N.of_nat (length (candidates j (take k Ri)))) +
     N.of_nat (length (mjoin (<[i := drop k Ri]> R))) ≤ w + N.of_nat (length (mjoin R)))%N.
Proof.
  intros HRi. destruct (mjoin_insert R i Ri (drop k Ri) HRi) as (rest & -> & ->).
  unfold candidates. rewrite length_fmap, !length_app.
  pose proof (u64_add_le w (N.of_nat (length (take k Ri)))).
  rewrite <-(take_drop k Ri) at 3. rewrite length_app. lia.
Qed.

Lemma take_ready (lim : N) (Ri : list stamp) :
  (0 < lim)%N → drop (N.to_nat lim) Ri = [] ∨ 0 < length (take (N.to_nat lim) Ri).
Proof.
  intros Hlim. destruct Ri as [|p Ri]; [left; by rewrite drop_nil|right].
  destruct (N.to_nat lim) eqn:E; [lia|]. simpl. lia.
Qed.

(** One cursor is initialised. *)
Lemma init_step s R :
  scan_inv s R → nextInitIndex s < length gs →
  ∃ s' R', init_cursor d s = Ok s' ∧ scan_inv s' R' ∧
    to_visit s' R' ≡ₚ to_visit s R ∧ nextInitIndex s' = S (nextInitIndex s) ∧
    (work_left s' R' ≤ work_left s R)%N.
Proof.
  intros [Hcore Hf Hidx Hio [Hd1 Hd2] Hnext Hready Hsorted] Hlt.
  set (i := nextInitIndex s) in *.
  destruct (core_lookup m f idx gs Hfit _ _ _ i Hcore Hlt) as (c & Ri & g & Hc & HRi & Hgi).
  destruct (core_collect d m Hr f Huntil Hz Htime idx gs Hgs Hfit _ _ _ i c Ri
    (initialScanDepth s) Hcore Hc HRi) as (c' & Hcol & Hcore').
  set (k := N.to_nat (initialScanDepth s)) in *.
  set (cands := candidates (N.of_nat i) (take k Ri)) in *.
  assert (∀ p, p ∈ Ri → row m p) as Hrow.
  { apply (ci_rows _ _ _ _ _ _ _ Hcore). by eapply list_elem_of_lookup_2. }
  unfold init_cursor, cursor_at. fold i. rewrite Hc. cbn [mbind result_bind].
  rewrite Hf, Hidx, Hcol. cbn [mbind result_bind].
  set (q' := if S i =? length (<[i:=c']> (cursors s))
             then merge_sort cand_le (eventQueue s ++ cands) else eventQueue s ++ cands).
  assert (q' ≡ₚ eventQueue s ++ cands) as Hq'.
  { subst q'. case_match; [apply merge_sort_Permutation|done]. }
  exists (mk_scan f (indexOnly s) idx (<[i:=c']> (cursors s)) q' (initialScanDepth s)
    (refillScanDepth s) (S i) (u64_add (approxWork s) (N.of_nat (length cands)))).
  exists (<[i := drop k Ri]> R). split.
  { subst q'. unfold set_nextInit, set_queue, set_cursor, add_work.
    cbn [nextInitIndex cursors eventQueue sc_f indexDbi]. rewrite Hf, Hidx.
    by destruct (S i =? length (<[i:=c']> (cursors s))). }
  specialize (Hcore' q' Hq'). split; [|split; [|split; [done|by apply collect_work]]].
  - split; simpl; try done.
    + intros j Rj Hj HRj. rewrite Hq', queued_app.
      destruct (decide (j = i)) as [->|Hne].
      * rewrite list_lookup_insert_eq in HRj by (by eapply lookup_lt_Some). simplify_eq.
        subst cands. rewrite (queued_candidates m Htime gs Hfit), decide_True; [|done|
          intros p Hp; apply Hrow; eapply elem_of_sublist; [done|apply sublist_take]|done].
        destruct (take_ready (initialScanDepth s) Ri Hd1); [by left|right; subst k; lia].
      * rewrite list_lookup_insert_ne in HRj by done.
        destruct (Hready j Rj ltac:(lia) HRj); [by left|right; lia].
    + intros Hend. subst q'. rewrite length_insert, (proj1 (ci_len _ _ _ _ _ _ _ Hcore)).
      rewrite <-Hend, Nat.eqb_refl. apply (StronglySorted_merge_sort cand_le).
  - unfold to_visit. simpl. by apply (pending_collect m Htime gs Hfit).
Qed.

(** The head of the queue is the newest pending event. *)
Lemma head_newest s R ev q :
  scan_inv s R → nextInitIndex s = length gs → eventQueue s = ev :: q →
  ∀ y, y ∈ pending q R → newer (stamp_of ev) y.
Proof.
  intros [Hcore _ _ _ _ _ Hready Hsorted] Hend Hq y Hy. specialize (Hsorted Hend).
  rewrite Hq in Hsorted. inversion_clear Hsorted as [|? ? Hso Hall].
  rewrite Forall_forall in Hall. unfold pending in Hy. apply elem_of_app in Hy as [Hy|Hy].
  { apply list_elem_of_fmap in Hy as (ev' & -> & Hev'). by apply cand_le_newer, Hall. }
  apply list_elem_of_join in Hy as (Ri & Hy & HRi). apply list_elem_of_lookup in HRi as [i HRi].
  assert (i < length gs) as Hi.
  { rewrite <-(proj2 (ci_len _ _ _ _ _ _ _ Hcore)). by eapply lookup_lt_Some. }
  destruct (Hready i Ri ltac:(lia) HRi) as [->|Hqi]; [by apply not_elem_of_nil in Hy|].
  unfold queued in Hqi. destruct (filter _ (eventQueue s)) as [|ev' q'] eqn:Ef; [simpl in Hqi; lia|].
  assert (ev' ∈ filter (λ ev, cand_scanIndex ev = N.of_nat i) (eventQueue s)) as Hev'
    by (rewrite Ef; constructor).
  apply list_elem_of_filter in Hev' as [Hidx' Hev'].
  destruct (ci_queue _ _ _ _ _ _ _ Hcore ev' Hev') as (j & p & -> & Hj & Hp & Hnew).
  rewrite (scanIndex_candidate m Htime gs Hfit) in Hidx' by done. apply Nat2N.inj in Hidx' as ->.
  specialize (Hnew Ri HRi y Hy).
  assert (newer (stamp_of ev) p) as Hevp; [|by transitivity p].
  rewrite <-(stamp_of_candidate m Htime gs Hfit p i Hp Hj).
  rewrite Hq in Hev'. apply elem_of_cons in Hev' as [->|Hev']; [reflexivity|].
  by apply cand_le_newer, Hall.
Qed.

Lemma candidates_sorted i (l : list stamp) :
  i < length gs → (∀ p, p ∈ l → row m p) → StronglySorted newer l →
  StronglySorted cand_le (candidates (N.of_nat i) l).
Proof.
  intros Hi Hrow Hso. unfold candidates.
  eapply StronglySorted_fmap_strong; [exact Hso|]. intros x y Hx Hy Hxy.
  apply cand_le_newer.
  by rewrite !(stamp_of_candidate m Htime gs Hfit) by auto.
Qed.

(** The head leaves the queue and its cursor is refilled if it has to be. *)
Lemma refill_step s R ev q :
  scan_inv s R → nextInitIndex s = length gs → eventQueue s = ev :: q →
  ∃ s' R', refill_cursor d (set_queue s q) ev = Ok s' ∧ scan_inv s' R' ∧
    to_visit s' R' ≡ₚ pending q R ∧ nextInitIndex s' = nextInitIndex s ∧
    (work_left s' R' ≤ work_left s R)%N.
Proof.
  intros [Hcore Hf Hidx Hio [Hd1 Hd2] Hnext Hready Hsorted] Hend Hq.
  specialize (Hsorted Hend). rewrite Hq in Hcore, Hsorted.
  inversion_clear Hsorted as [|? ? Hso Hall].
  destruct (core_pop d m Hr f Hz Htime idx gs Hfit _ _ _ _ Hcore) as
    (i & c & Hev & Hi & Hc & Hrow & Hout & Hsub & Hcore').
  set (c1 := set_outstanding c (u64_sub (outstanding c) 1)) in *.
  assert (∀ j Rj, j < nextInitIndex s → R !! j = Some Rj →
    (j = i ∧ queued i q = 0) ∨ Rj = [] ∨ 0 < queued j q) as Hready'.
  { intros j Rj Hj HRj. destruct (decide (j = i)) as [->|Hne].
    - destruct (decide (queued i q = 0)); [by left|]. right. right. lia.
    - right. specialize (Hready j Rj Hj HRj). rewrite Hq in Hready. unfold queued in *.
      rewrite filter_cons_False in Hready; [done|]. rewrite Hev. lia. }
  unfold refill_cursor, cursor_at. rewrite Hev, Nat2N.id. simpl. rewrite Hc. simpl. fold c1.
  change (outstanding c1) with (u64_sub (outstanding c) 1). rewrite Hsub.
  destruct (N.eqb_spec (N.of_nat (queued i q)) 0) as [Hzero|Hpos].
  2:{ eexists _, R. split; [done|]. split; [|by split].
      split; simpl; try done.
      intros j Rj Hj HRj. destruct (Hready' j Rj Hj HRj) as [[_ ?]|?]; [lia|done]. }
  destruct (core_lookup m f idx gs Hfit _ _ _ i Hcore' Hi) as (c2 & Ri & g & Hc2 & HRi & Hgi).
  assert (c2 = c1) as ->.
  { rewrite list_lookup_insert_eq in Hc2 by (by eapply lookup_lt_Some). by simplify_eq. }
  destruct (core_collect d m Hr f Huntil Hz Htime idx gs Hgs Hfit _ _ _ i c1 Ri
    (refillScanDepth s) Hcore' Hc2 HRi) as (c' & Hcol & Hcore'').
  rewrite Hf, Hidx, Hcol. simpl.
  set (k := N.to_nat (refillScanDepth s)) in *.
  set (cands := candidates (N.of_nat i) (take k Ri)) in *.
  assert (∀ p, p ∈ Ri → row m p) as Hrows.
  { apply (ci_rows _ _ _ _ _ _ _ Hcore'). by eapply list_elem_of_lookup_2. }
  assert (∀ p, p ∈ take k Ri → row m p) as Hrows'.
  { intros p Hp. apply Hrows. eapply elem_of_sublist; [done|apply sublist_take]. }
  assert (list_merge cand_le q cands ≡ₚ q ++ cands) as Hperm by apply merge_Permutation.
  specialize (Hcore'' _ Hperm).
  eexists _, (<[i := drop k Ri]> R). split; [done|].
  split; [|split; [|split; [done|by apply collect_work]]].
  - rewrite list_insert_insert_eq in Hcore''. split; simpl; try done.
    + by rewrite list_insert_insert_eq.
    + intros j Rj Hj HRj. rewrite Hperm, queued_app. destruct (decide (j = i)) as [->|Hne].
      * rewrite list_lookup_insert_eq in HRj by (by eapply lookup_lt_Some). simplify_eq.
        subst cands. rewrite (queued_candidates m Htime gs Hfit), decide_True by done.
        destruct (take_ready (refillScanDepth s) Ri Hd2); [by left|right; subst k; lia].
      * rewrite list_lookup_insert_ne in HRj by done.
        destruct (Hready' j Rj Hj HRj) as [[? _]|[->|?]]; [done|by left|right; lia].
    + intros _. apply (StronglySorted_merge cand_le); [done|].
      apply candidates_sorted; [done|done|].
      destruct (ci_cursor _ _ _ _ _ _ _ Hcore' i c1 Ri g Hc2 HRi Hgi) as (_ & _ & _ & Hs & _).
      rewrite <-(take_drop k Ri) in Hs. by apply StronglySorted_app in Hs as (_ & ? & _).
  - unfold to_visit. simpl. by apply (pending_collect m Htime gs Hfit).
Qed.

(** ** The loop *)

Section callbacks.
Context {A P : Type} (handleEvent : A → N → result (A * bool)) (doPause : P → N → P * bool).

(** The callback folded over a list of events; the flag says that it stopped. *)
Fixpoint fold_visits (W : list stamp) (a : A) : result (A * bool) :=
  match W with
  | [] => Ok (a, false)
  | p :: W =>
      r ← (if sends p then handleEvent a p.2 else Ok (a, false));
      let '(a, stop) := r in
      if stop : bool then Ok (a, true) else fold_visits W a
  end.

Lemma fold_visits_app W1 W2 a :
  fold_visits (W1 ++ W2) a =
    (r ← fold_visits W1 a; if (r.2 : bool) then Ok r else fold_visits W2 r.1).
Proof.
  revert a. induction W1 as [|p W1 IH]; intros a; [done|]. simpl.
  destruct (if sends p then handleEvent a p.2 else Ok (a, false)) as [[a' [|]]|e]; simpl;
    [done|apply IH|done].
Qed.

(** A part of the scan: the events [W1] were visited without a stop, and [s'],
    [R'] is what is left. *)
Definition visited_part (W : list stamp) (a a' : A) (s' : DBScan) (R' : list (list stamp))
    (W1 : list stamp) : Prop :=
  W = W1 ++ visits s' R' ∧ fold_visits W1 a = Ok (a', false) ∧ scan_inv s' R'.

Lemma visits_nil s R :
  scan_inv s R → nextInitIndex s = length gs → eventQueue s = [] → to_visit s R = [].
Proof.
  intros [Hcore _ _ _ _ _ Hready _] Hend Hq. unfold to_visit, pending. rewrite Hq. simpl.
  apply elem_of_nil_inv. intros p (Ri & Hp & HRi)%list_elem_of_join.
  apply list_elem_of_lookup in HRi as [i HRi].
  assert (i < length gs) as Hi.
  { rewrite <-(proj2 (ci_len _ _ _ _ _ _ _ Hcore)). by eapply lookup_lt_Some. }
  destruct (Hready i Ri ltac:(lia) HRi) as [->|Hqi]; [by apply not_elem_of_nil in Hp|].
  rewrite Hq in Hqi. unfold queued in Hqi. rewrite filter_nil in Hqi. simpl in Hqi. lia.
Qed.

Lemma scan_body_spec s R a :
  scan_inv s R →
  match scan_body handleEvent d s a with
  | Ok (Some b, s', a') => b = true ∧ ∃ st, fold_visits (visits s R) a = Ok (a', st)
  | Ok (None, s', a') => ∃ R' W1, visited_part (visits s R) a a' s' R' W1 ∧
      iterations s' R' < iterations s R ∧ (work_left s' R' ≤ work_left s R + 10)%N
  | Throw e => fold_visits (visits s R) a = Throw e
  end.
Proof.
  intros Hinv. unfold scan_body.
  rewrite (proj1 (ci_len _ _ _ _ _ _ _ (sv_core _ _ Hinv))).
  destruct (Nat.ltb_spec (nextInitIndex s) (length gs)) as [Hlt|Hge].
  { destruct (init_step s R Hinv Hlt) as (s' & R' & Heq & Hinv' & Hperm & Hn & Hw).
    rewrite Heq. simpl. exists R', []. split; [split; [|done]|].
    - unfold visits. by rewrite Hperm.
    - unfold iterations. rewrite Hn, Hperm. lia. }
  assert (nextInitIndex s = length gs) as Hend by (pose proof (sv_next _ _ Hinv); lia).
  destruct (eventQueue s) as [|ev q] eqn:Hq.
  { split; [done|]. unfold visits. rewrite (visits_nil s R Hinv Hend Hq). by exists false. }
  pose proof (head_newest s R ev q Hinv Hend Hq) as Hnewest.
  assert (visits s R = stamp_of ev :: sort_newer (pending q R)) as Hvis.
  { unfold visits, to_visit, pending. rewrite Hq. simpl. by apply sort_newer_cons. }
  assert (row m (stamp_of ev)) as Hrow.
  { pose proof (sv_core _ _ Hinv) as Hcore. rewrite Hq in Hcore.
    destruct (core_pop d m Hr f Hz Htime idx gs Hfit _ _ _ _ Hcore) as (? & ? & _ & _ & _ & ? & _).
    done. }
  rewrite Hvis. cbn [fold_visits].
  assert (candidate_matches d (set_queue s q) ev =
      Ok (sends (stamp_of ev), set_queue (add_work s 10) q) ∨
      candidate_matches d (set_queue s q) ev = Ok (sends (stamp_of ev), set_queue s q))
    as Hcm.
  { apply (candidate_matches_spec (set_queue s q) ev Hrow); apply Hinv. }
  set (s1 := match candidate_matches d (set_queue s q) ev with Ok r => r.2 | Throw _ => s end).
  assert (candidate_matches d (set_queue s q) ev = Ok (sends (stamp_of ev), s1) ∧
    ∃ s0, s1 = set_queue s0 q ∧ scan_inv s0 R ∧ nextInitIndex s0 = length gs ∧
      eventQueue s0 = ev :: q ∧ (work_left s0 R ≤ work_left s R + 10)%N)
    as (Heq & s0 & -> & Hinv0 & Hend0 & Hq0 & Hw0).
  { subst s1. destruct Hcm as [->| ->]; (split; [done|]); simpl.
    - exists (add_work s 10). split; [done|]. split; [by apply scan_inv_work|].
      split; [done|]. split; [done|]. apply work_left_add.
    - exists s. split_and!; try done. lia. }
  rewrite Heq. cbn [mbind result_bind]. change (stamp_of ev).2 with (cand_levId ev).
  destruct (if sends (stamp_of ev) then handleEvent a (cand_levId ev) else Ok (a, false))
    as [[a' [|]]|e] eqn:Hh; simpl; [by eauto| |done].
  destruct (refill_step s0 R ev q Hinv0 Hend0 Hq0) as (s' & R' & -> & Hinv' & Hperm & Hn & Hw).
  simpl. exists R', [stamp_of ev]. split; [split; [|split; [|done]]|].
  - unfold visits. by rewrite Hperm.
  - cbn [fold_visits]. change (stamp_of ev).2 with (cand_levId ev). by rewrite Hh.
  - assert (length (to_visit s R) = S (length (pending q R))) as Hlen
      by (unfold to_visit, pending; by rewrite Hq).
    unfold iterations. rewrite Hn, Hperm, Hend0, Hlen. lia.
Qed.

(** How far a scan that was paused got: the pause check was made with the
    counter it left, every iteration costs at most 11 besides what it collects,
    and unless the first check paused it made progress. *)
Record scan_paused (s s' : DBScan) (R R' : list (list stamp)) (p p' : P) : Prop := {
  pd_check : ∃ p0, doPause p0 (approxWork s') = (p', true);
  pd_iterations : iterations s' R' ≤ iterations s R;
  pd_work : (work_left s' R' + 11 * N.of_nat (iterations s' R') ≤
    work_left s R + 11 * N.of_nat (iterations s R) + 1)%N;
  pd_progress : (doPause p (approxWork (add_work s 1))).2 = false →
    iterations s' R' < iterations s R;
}.

Lemma scan_spec fuel s R a p :
  scan_inv s R → iterations s R < fuel →
  match scan handleEvent doPause fuel d s a p with
  | Ok (true, s', a', p') => ∃ st, fold_visits (visits s R) a = Ok (a', st)
  | Ok (false, s', a', p') => ∃ R' W1, visited_part (visits s R) a a' s' R' W1 ∧
      scan_paused s s' R R' p p'
  | Throw e => fold_visits (visits s R) a = Throw e
  end.
Proof.
  revert s R a p. induction fuel as [|fuel IH]; intros s R a p Hinv Hfuel; [lia|].
  cbn [scan]. pose proof (work_left_add s R 1) as Hw1.
  assert (scan_inv (add_work s 1) R) as Hinv1 by by apply scan_inv_work.
  change (visits s R) with (visits (add_work s 1) R).
  change (iterations s R) with (iterations (add_work s 1) R) in Hfuel.
  destruct (doPause p _) as [p' [|]] eqn:Hp.
  { exists R, []. split; [done|]. change (iterations (add_work s 1) R) with (iterations s R).
    split; [by exists p|done| |by rewrite Hp].
    change (iterations (add_work s 1) R) with (iterations s R). lia. }
  pose proof (scan_body_spec (add_work s 1) R a Hinv1) as Hb.
  destruct (scan_body handleEvent d (add_work s 1) a) as [[[[b|] s'] a']|e];
    cbn [mbind result_bind].
  - destruct Hb as [-> Hb]. done.
  - destruct Hb as (R' & W1 & (Hvis & Hfold & Hinv') & Hit & Hw).
    specialize (IH s' R' a' p' Hinv' ltac:(lia)).
    destruct (scan handleEvent doPause fuel d s' a' p') as [[[[[|] s2] a2] p2]|e].
    + destruct IH as [st IH]. exists st. by rewrite Hvis, fold_visits_app, Hfold.
    + destruct IH as (R2 & W2 & (Hvis2 & Hfold2 & Hinv2) & [Hc2 Hi2 Hw2 _]). exists R2, (W1 ++ W2).
      change (iterations (add_work s 1) R) with (iterations s R) in Hit. split; [split|].
      * by rewrite Hvis, Hvis2, app_assoc.
      * by rewrite fold_visits_app, Hfold.
      * split; [done|lia|lia|intros _; lia].
    + by rewrite Hvis, fold_visits_app, Hfold.
  - done.
Qed.

(** What the pause checks of a scan maintain, when it is maintained for every
    value the work counter can have. *)
Lemma scan_pause_inv (Q : P → Prop) (C : N) fuel s R a p :
  (∀ p w, (w ≤ C)%N → Q p → Q (doPause p w).1) →
  scan_inv s R → (work_left s R + 11 * N.of_nat (iterations s R) + 1 ≤ C)%N → Q p →
  match scan handleEvent doPause fuel d s a p with
  | Ok (_, _, _, p') => Q p'
  | Throw _ => True
  end.
Proof.
  intros HQ. revert s R a p. induction fuel as [|fuel IH]; intros s R a p Hinv HC Hp; [done|].
  cbn [scan]. pose proof (work_left_add s R 1) as Hw1.
  assert (approxWork (add_work s 1) ≤ C)%N as Hle by (unfold work_left in *; lia).
  specialize (HQ p _ Hle Hp). destruct (doPause p _) as [p' [|]]; [done|]. simpl in HQ.
  assert (scan_inv (add_work s 1) R) as Hinv1 by by apply scan_inv_work.
  pose proof (scan_body_spec (add_work s 1) R a Hinv1) as Hb.
  destruct (scan_body handleEvent d (add_work s 1) a) as [[[[b|] s'] a']|e];
    cbn [mbind result_bind]; [done| |done].
  destruct Hb as (R' & W1 & (_ & _ & Hinv') & Hit & Hw).
  change (iterations (add_work s 1) R) with (iterations s R) in Hit.
  eapply IH; [exact Hinv'|lia|done].
Qed.
End callbacks.

(** ** Fuel *)

Lemma rests_bound s R :
  scan_inv s R → length (mjoin R) ≤ length gs * base.size m.
Proof.
  intros [Hcore _ _ _ _ _ _ _]. pose proof (ci_len _ _ _ _ _ _ _ Hcore) as [Hlc Hlr].
  assert (∀ Ri, Ri ∈ R → length Ri ≤ base.size m) as Hall.
  { intros Ri HRi. apply list_elem_of_lookup in HRi as [i HRi].
    assert (i < length gs) as Hi by (rewrite <-Hlr; by eapply lookup_lt_Some).
    destruct (core_lookup m f idx gs Hfit _ _ _ i Hcore Hi) as (c & Ri' & g & Hc & HRi' & Hg).
    simplify_eq. destruct (ci_cursor _ _ _ _ _ _ _ Hcore i c Ri g Hc HRi Hg) as (_ & _ & _ & _ & ?).
    lia. }
  rewrite <-Hlr. clear -Hall. induction R as [|Ri R IH]; simpl; [lia|].
  rewrite length_app. pose proof (Hall Ri ltac:(constructor)).
  assert (length (mjoin R) ≤ length R * base.size m); [|lia].
  apply IH. intros. apply Hall. by constructor.
Qed.

Lemma scan_fuel_enough s R : scan_inv s R → iterations s R < scan_fuel d s.
Proof.
  intros Hinv. pose proof (rests_bound s R Hinv) as Hb. unfold iterations, scan_fuel, to_visit, pending.
  rewrite length_app, length_fmap, (proj1 (ci_len _ _ _ _ _ _ _ (sv_core _ _ Hinv))).
  rewrite Nat.mul_succ_r.
  pose proof (Nat.mul_le_mono_l _ _ (length gs) (foreach_Event_size d m Hr)). lia.
Qed.
End run.
