(* ===== verification/DBQueryCursors.v ===== *)
(** From a filter to its scan: the cursors [DBScan] builds for a filter made by
    [NostrFilter] stand for groups of index entries that together contain every
    matching event; when the scan is index only, an event of a group matches
    as soon as it is inside the filter's time window. *)

From stdpp Require Import fin_maps fin_sets.
From S2P Require Import Prelude Bytes Json Hex PackedEvent FilterSets Filters EventParse Db MemDb.
From S2P Require Import Subscription DBQuery DBQueryOrder DBQueryCollect DBScanRun.

(** ** Filters a scan can run *)

(** A byte set that stores at least one string, all satisfying [P]. *)
Definition fsb_set (P : bytes → Prop) (fs : FilterSetBytes) : Prop :=
  ∃ l, fsb_repr fs l ∧ l ≠ [] ∧ Forall P l.

Definition is_key32 (s : bytes) : Prop := length s = 32.

Definition opt_count {A} (o : option A) : nat := match o with Some _ => 1 | None => 0 end.

Definition major_fields (f : NostrFilter) : nat :=
  opt_count (ids f) + opt_count (authors f) + opt_count (kinds f) + base.size (tags f).

(** What the constructor's loop maintains about the stored sets; [n] is
    [numMajorFields]. *)
Record scannable (f : NostrFilter) (n : nat) : Prop := {
  sc_ids : ∀ fs, ids f = Some fs → fsb_set is_key32 fs;
  sc_authors : ∀ fs, authors f = Some fs → fsb_set is_key32 fs;
  sc_kinds : ∀ ks, kinds f = Some ks → ks ≠ [] ∧ Forall is_u64 ks ∧
    (N.of_nat (length ks) < 16777216)%N;
  sc_tags : ∀ c fs, tags f !! c = Some fs → fsb_set (λ _, True) fs;
  sc_until : is_u64 (until f);
  sc_major : n = major_fields f;
}.

(** Numbers of a parsed filter are 64-bit, and an array has fewer than 2^24
    entries. *)
Definition value_fits (v : value) : Prop :=
  (∀ n, v = JUnsigned n → is_u64 n) ∧
  (∀ n, JUnsigned n ∈ elems v → is_u64 n) ∧
  (N.of_nat (length (elems v)) < 16777216)%N.

Section plan.
Context `{!Hex} `{!NativeU64, !GolpeKeys, !Env}.

(** ** What the constructor builds *)

Lemma fsb_set_make v h mn mx fs :
  FilterSetBytes_make v h mn mx = Ok fs → v ≠ JArray [] →
  fsb_set (λ s, mn ≤ length s ≤ mx) fs.
Proof.
  intros Hmk Hv. pose proof Hmk as (l & Hr & Hl & Hall)%FilterSetBytes_make_repr.
  apply FilterSetBytes_make_shape in Hmk as (js & -> & _). exists l. split; [done|]. split.
  - destruct js as [|j js]; [done|]. simpl in *. destruct (Hall j ltac:(constructor)) as [s Hs].
    intros ->. apply (not_elem_of_nil s), Hl. exists j. split; [constructor|done].
  - apply Forall_forall. intros s (j & _ & [_ ?]%read_item_Ok)%Hl. done.
Qed.

Lemma fsb_set_impl (P Q : bytes → Prop) fs :
  fsb_set P fs → (∀ s, P s → Q s) → fsb_set Q fs.
Proof.
  intros (l & Hr & Hne & HP) HPQ. exists l. split; [done|]. split; [done|].
  by eapply Forall_impl.
Qed.

Lemma fsb_set_key32 v fs :
  FilterSetBytes_make v true 32 32 = Ok fs → v ≠ JArray [] → fsb_set is_key32 fs.
Proof.
  intros Hmk Hv. eapply fsb_set_impl; [by eapply fsb_set_make|].
  intros s. unfold is_key32. simpl. lia.
Qed.

Lemma fsb_set_tag c v fs :
  tag_set_make c v = Ok fs → v ≠ JArray [] → fsb_set (λ _, True) fs.
Proof.
  unfold tag_set_make. intros Hmk Hv.
  destruct (is_hex_tag c); (eapply fsb_set_impl; [by eapply fsb_set_make|done]).
Qed.

Lemma uniq_from_length `{EqDecision A} (p : option A) (l : list A) :
  length (uniq_from p l) ≤ length l.
Proof.
  revert p. induction l as [|x l IH]; intros p; simpl; [lia|].
  case_decide; simpl; [specialize (IH p)|specialize (IH (Some x))]; lia.
Qed.

Lemma fsu_set_make v ks :
  FilterSetUint_make v = Ok ks → v ≠ JArray [] → value_fits v →
  ks ≠ [] ∧ Forall is_u64 ks ∧ (N.of_nat (length ks) < 16777216)%N.
Proof.
  intros Hmk Hv (_ & Hu & Hlen). pose proof Hmk as [_ Hin]%FilterSetUint_make_wf.
  pose proof Hmk as (l & -> & Hl)%FilterSetUint_make_shape. split_and!.
  - destruct l as [|j l]; [done|]. destruct (Hl j ltac:(constructor)) as [n ->].
    intros ->. apply (not_elem_of_nil n), Hin. constructor.
  - apply Forall_forall. intros n Hn%Hin. by apply Hu.
  - unfold FilterSetUint_make in Hmk. simpl in Hmk. inv_result. subst ks.
    eapply N.le_lt_trans; [|exact Hlen]. apply mapR_Ok, Forall2_length in Hr.
    unfold std_unique. pose proof (uniq_from_length None (std_sort N.le r)) as Hle.
    rewrite (Permutation_length (std_sort_Permutation N.le r)) in Hle. simpl. lia.
Qed.

Ltac step_inv H := inversion H; subst; clear H; simpl in *.

Lemma scannable_step f n k v f' n' :
  step_case f n k v f' n' → Filters.fresh f k → value_fits v → scannable f n → scannable f' n'.
Proof.
  intros Hst Hfr Hv Hsc. step_inv Hst; destruct Hsc as [Hi Ha Hk Ht Hu Hn];
    try (split; simpl; eauto; fail).
  - split; simpl; try done; unfold major_fields in *; simpl;
      [intros ? [= <-]; by eapply fsb_set_key32|].
    rewrite (fr_ids _ _ Hfr) in Hn by done. simpl in *. lia.
  - split; simpl; try done; unfold major_fields in *; simpl;
      [intros ? [= <-]; by eapply fsb_set_key32|].
    rewrite (fr_authors _ _ Hfr) in Hn by done. simpl in *. lia.
  - split; simpl; try done; unfold major_fields in *; simpl;
      [intros ? [= <-]; by eapply fsu_set_make|].
    rewrite (fr_kinds _ _ Hfr) in Hn by done. simpl in *. lia.
  - unfold tags_emplace. rewrite (fr_tag _ _ Hfr c eq_refl).
    split; simpl; try done; unfold major_fields in *; simpl.
    + intros c' fs'. rewrite lookup_insert. case_decide; [intros [= <-]; by eapply fsb_set_tag|eauto].
    + rewrite map_size_insert_None by by eapply fr_tag. lia.
  - split; simpl; try done. by apply (proj1 Hv).
Qed.

Lemma scannable_fold kvs f n f' n' :
  foldM filter_step (f, n) kvs = Ok (f', n') → NoDup kvs.*1 →
  (∀ k v, (k, v) ∈ kvs → value_fits v ∧ Filters.fresh f k) → scannable f n → scannable f' n'.
Proof.
  revert f n. induction kvs as [|[k v] kvs IH]; intros f n; simpl; [by intros [= <- <-]|].
  intros ([f1 n1] & Hst%filter_step_case & Hrest)%bind_Ok_inv [Hk Hnd]%NoDup_cons Hall Hsc.
  destruct (Hall k v ltac:(constructor)) as [Hv Hfr].
  apply (IH f1 n1 Hrest Hnd); [|by eapply scannable_step].
  intros k' v' Hin. destruct (Hall k' v' ltac:(by constructor)) as [? ?]. split; [done|].
  eapply step_case_fresh; [done| |done]. intros ->. apply Hk.
  by apply (list_elem_of_fmap_2 fst) in Hin.
Qed.

Lemma scannable_default : scannable filter_default 0.
Proof. by split. Qed.

Lemma fresh_default k : Filters.fresh filter_default k.
Proof. by split. Qed.

(** The shape under which the constructor allows index-only scans. *)
Definition index_only_shape (f : NostrFilter) : Prop :=
  major_fields f ≤ 1 ∨ (major_fields f = 2 ∧ is_Some (authors f) ∧ is_Some (kinds f)).

Record scan_filter (f : NostrFilter) : Prop := {
  sf_wf : filter_wf f;
  sf_scannable : scannable f (major_fields f);
  sf_index_only : indexOnlyScans f = true → index_only_shape f;
  sf_never : neverMatch f = false;
}.

Lemma NostrFilter_make_scan kvs lim f :
  NostrFilter_make (JObject kvs) lim = Ok f → NoDup kvs.*1 →
  (∀ k v, (k, v) ∈ kvs → value_fits v) → neverMatch f = false → scan_filter f.
Proof.
  intros Hmk Hnd Hv Hnever.
  assert (filter_wf f) as Hwf.
  { apply (NostrFilter_make_sem kvs lim f sample_event Hmk Hnd sample_event_wf). }
  unfold NostrFilter_make in Hmk. simpl in Hmk.
  apply bind_Ok_inv in Hmk as ([f0 n0] & Hfold & Hmk). inv_result.
  eapply scannable_fold in Hfold; [|done| |apply scannable_default].
  2:{ intros k v Hin. split; [by eapply Hv|apply fresh_default]. }
  destruct Hfold as [Hi Ha Hk Ht Hu Hn].
  assert (scannable f (major_fields f) ∧ major_fields f = n0 ∧
    indexOnlyScans f = ((n0 <=? 1) || ((n0 =? 2) && bool_decide (is_Some (authors f)) &&
      bool_decide (is_Some (kinds f))))) as (Hsc & Hmf & Hio).
  { subst f. rewrite Hn. destruct (lim <? limit f0)%N; (split; [by split|done]). }
  split; [done|done| |done]. intros Htrue. rewrite Hio in Htrue. unfold index_only_shape.
  rewrite Hmf. apply orb_true_iff in Htrue as [?%Nat.leb_le|[[?%Nat.eqb_eq ?]%andb_true_iff ?]%andb_true_iff];
    [by left|right]. split; [done|]. split; by eapply bool_decide_eq_true.
Qed.
End plan.

(** The cursors [DBScan] builds for a filter: [DBScan_cursors_plan] shows, for
    each choice of index, that they are fresh cursors of groups that contain
    every event the filter matches, and only such events (inside the time
    window) when the scan is index only. *)

Lemma NoDup_mjoin_length (l : list bytes) : NoDup l → length l ≤ S (length (mjoin l)).
Proof.
  intros Hnd. assert (length (filter (.≠ []) l) ≤ length (mjoin l)) as Hle.
  { clear Hnd. induction l as [|s l IH]; [done|]. change (mjoin (s :: l)) with (s ++ mjoin l). rewrite length_app.
    rewrite filter_cons. destruct s as [|c s]; case_decide; simpl; done || lia. }
  assert (length l ≤ S (length (filter (.≠ []) l))); [|lia].
  clear Hle. induction Hnd as [|s l Hs Hnd IH]; simpl; [lia|].
  destruct (decide (s = [])) as [->|Hne].
  - rewrite filter_cons_False by auto. rewrite filter_all; [done|]. by intros s Hin ->.
  - rewrite filter_cons_True by done. simpl. lia.
Qed.

Lemma mapR_seq {A B} (g : nat → result B) (mk : A → B) (l : list A) k :
  (∀ i x, l !! i = Some x → g (k + i) = Ok (mk x)) →
  mapR g (seq k (length l)) = Ok (mk <$> l).
Proof.
  revert k. induction l as [|x l IH]; intros k Hg; simpl; [done|].
  rewrite <-(Nat.add_0_r k) at 1. rewrite (Hg 0 x eq_refl). simpl.
  rewrite IH; [done|]. intros i y Hi. specialize (Hg (S i) y Hi).
  by rewrite Nat.add_succ_r in Hg.
Qed.

Lemma mapR_app {A B} (g : A → result B) l1 l2 :
  mapR g (l1 ++ l2) = (r1 ← mapR g l1; r2 ← mapR g l2; Ok (r1 ++ r2)).
Proof.
  induction l1 as [|x l1 IH]; simpl; [by destruct (mapR g l2)|].
  destruct (g x); simpl; [|done]. rewrite IH. destruct (mapR g l1); simpl; [|done].
  by destruct (mapR g l2).
Qed.

Lemma mapR_fmap {A B C} (g : B → result C) (h : A → B) l :
  mapR g (h <$> l) = mapR (λ x, g (h x)) l.
Proof. induction l as [|x l IH]; [done|]. rewrite fmap_cons. cbn [mapR]. by rewrite IH. Qed.

(** A group of index entries: its search key and the test of its keys. *)
Abbreviation group_spec := (bytes * (bytes → result KeyMatchResult))%type.

Section cursors.
Context `{!NativeU64, !GolpeKeys, !Env}.


Definition cursor_of (g : group_spec) : ScanCursor := new_cursor g.1 g.2.

Record scan_plan (d : env) (m : gmap N event) (f : NostrFilter) (idx : Index) (io : bool)
    (gs : list group_spec) : Prop := {
  pl_ok : ∀ i g, gs !! i = Some g → group_ok d idx g.1 g.2;
  pl_nonempty : gs ≠ [];
  pl_fit : (N.of_nat (length gs) < 16777216)%N;
  pl_complete : ∀ l e, m !! l = Some e → filter_sem f e →
    ∃ g, g ∈ gs ∧ in_group idx g.1 e;
  pl_sound : io = true → ∀ l e g, m !! l = Some e → g ∈ gs → in_group idx g.1 e →
    doesMatchTimes f (ev_created_at e) = true → filter_sem f e;
}.

Lemma doesMatchTimes_true f n :
  doesMatchTimes f n = true ↔ (since f ≤ n ∧ n ≤ until f)%N.
Proof.
  unfold doesMatchTimes. destruct (N.ltb_spec n (since f)), (N.ltb_spec (until f) n);
    split; intros; try done; lia.
Qed.

(** A set of a filter and the strings it stores. *)
Lemma fsb_set_length P fs : fsb_set P fs → ∃ l, fsb_repr fs l ∧ l ≠ [] ∧ Forall P l ∧
  FilterSetBytes_size fs = length l ∧ (N.of_nat (length l) ≤ 65536)%N.
Proof.
  intros (l & Hr & Hne & HP). exists l. split_and!; try done.
  - by apply FilterSetBytes_size_repr.
  - destruct Hr as [_ Hb Hs _ Ht]. apply strict_sorted_NoDup in Hs.
    apply NoDup_mjoin_length in Hs. rewrite Hb in Ht. lia.
Qed.

Lemma id_cursors fs l :
  fsb_repr fs l → mapR (id_cursor fs) (seq 0 (length l)) =
    Ok (cursor_of <$> ((λ s, (s, prefix_match s)) <$> l)).
Proof.
  intros Hr. rewrite <-list_fmap_compose. apply mapR_seq. intros i s Hi.
  unfold id_cursor. rewrite (FilterSetBytes_at_repr fs l) by done. simpl. by rewrite Hi.
Qed.

Lemma tag_cursors c fs l :
  fsb_repr fs l → mapR (tag_cursor c fs) (seq 0 (length l)) =
    Ok (cursor_of <$> ((λ s, (c :: s, tag_match (c :: s))) <$> l)).
Proof.
  intros Hr. rewrite <-list_fmap_compose. apply mapR_seq. intros i s Hi.
  unfold tag_cursor. rewrite (FilterSetBytes_at_repr fs l) by done. simpl. by rewrite Hi.
Qed.

Lemma kind_cursors ks :
  mapR (kind_cursor ks) (seq 0 (length ks)) =
    Ok (cursor_of <$> ((λ k, (to_sv64 k, kind_match k)) <$> ks)).
Proof.
  rewrite <-list_fmap_compose. apply mapR_seq. intros i k Hi.
  unfold kind_cursor, FilterSetUint_at. simpl. by rewrite Hi.
Qed.

Definition pubkeyKind_group (pk : bytes) (k : N) : group_spec :=
  (pk ++ to_sv64 k, prefix_match (pk ++ to_sv64 k)).

Lemma pubkeyKind_cursors fs pks ks :
  fsb_repr fs pks →
  mapR (λ ij, pubkeyKind_cursor fs ks ij.1 ij.2)
    (list_prod (seq 0 (length pks)) (seq 0 (length ks))) =
  Ok (cursor_of <$> (pks ≫= λ pk, pubkeyKind_group pk <$> ks)).
Proof.
  intros Hr.
  assert (∀ k done, (∀ i pk, done !! i = Some pk → pks !! (k + i) = Some pk) →
    mapR (λ ij, pubkeyKind_cursor fs ks ij.1 ij.2)
      (list_prod (seq k (length done)) (seq 0 (length ks))) =
    Ok (cursor_of <$> (done ≫= λ pk, pubkeyKind_group pk <$> ks))) as Hgen.
  { intros k done'. revert k. induction done' as [|pk done' IH]; intros k Hl; [done|].
    simpl. rewrite mapR_app.
    change (map (λ y, (k, y)) (seq 0 (length ks))) with (pair k <$> seq 0 (length ks)).
    rewrite mapR_fmap. simpl.
    rewrite (mapR_seq _ (λ kind, cursor_of (pubkeyKind_group pk kind)) ks 0).
    - simpl. rewrite IH.
      + simpl. by rewrite fmap_app, <-list_fmap_compose.
      + intros i pk' Hi. specialize (Hl (S i) pk' Hi). by rewrite Nat.add_succ_r in Hl.
    - intros i kind Hi. simpl. unfold pubkeyKind_cursor, FilterSetUint_at. rewrite Hi. simpl.
      rewrite (FilterSetBytes_at_repr fs pks) by done.
      specialize (Hl 0 pk eq_refl). rewrite Nat.add_0_r in Hl. by rewrite Hl. }
  by apply (Hgen 0).
Qed.

(** The smallest tag filter is one of the tag filters. *)
Lemma smallest_tag_fold (l : list (ascii * FilterSetBytes)) st :
  (foldl smallest_tag_step st l = st ∧
     ∀ kv, kv ∈ l → (st.1 ≤ N.of_nat (FilterSetBytes_size kv.2))%N) ∨
  (foldl smallest_tag_step st l).2 ∈ l.*1.
Proof.
  revert st. induction l as [|[c fs] l IH]; intros [n t]; [left|]; simpl.
  { split; [done|]. by intros kv ?%not_elem_of_nil. }
  destruct (N.ltb_spec (N.of_nat (FilterSetBytes_size fs)) n) as [Hlt|Hge].
  - right. destruct (IH (N.of_nat (FilterSetBytes_size fs), c)) as [[-> _]|Hin]; by constructor.
  - destruct (IH (n, t)) as [[-> Hall]|Hin]; [left|right; by constructor].
    split; [done|]. intros kv [->|Hkv]%elem_of_cons; [done|by apply Hall].
Qed.

Lemma smallest_tag_lookup f :
  scannable f (major_fields f) → base.size (tags f) ≠ 0 →
  ∃ fs, tags f !! smallest_tag f = Some fs.
Proof.
  intros Hsc Hne. unfold smallest_tag.
  destruct (smallest_tag_fold (map_to_list (tags f)) (MAX_U64, "000"%char)) as [[_ Hall]|Hin].
  - exfalso. destruct (map_to_list (tags f)) as [|[c fs] l] eqn:E.
    { apply Hne. by rewrite <-length_map_to_list, E. }
    specialize (Hall (c, fs) ltac:(constructor)). simpl in Hall.
    assert (tags f !! c = Some fs) as Hc by (apply elem_of_map_to_list; rewrite E; constructor).
    apply (sc_tags _ _ Hsc) in Hc as (l' & _ & _ & _ & Hs & Hl)%fsb_set_length.
    rewrite Hs in Hall. unfold MAX_U64 in Hall. lia.
  - apply list_elem_of_fmap in Hin as ([c fs] & -> & Hin). apply elem_of_map_to_list in Hin.
    by exists fs.
Qed.

(** ** Membership in a group *)

Lemma in_group_id s e : in_group Event__id s e ↔ s = ev_id e.
Proof.
  unfold in_group. simpl. rewrite list_elem_of_singleton, makeKey_StringUint64_layout.
  split; [by intros [? _]%search_inj|by intros ->].
Qed.

Lemma in_group_pubkey s e : in_group Event__pubkey s e ↔ s = ev_pubkey e.
Proof.
  unfold in_group. simpl. rewrite list_elem_of_singleton, makeKey_StringUint64_layout.
  split; [by intros [? _]%search_inj|by intros ->].
Qed.

Lemma in_group_tag c s e : in_group Event__tag (c :: s) e ↔ (c, s) ∈ ev_tags e.
Proof.
  unfold in_group. simpl. rewrite list_elem_of_fmap. split.
  - intros ([c' s'] & Heq & Hin). rewrite makeKey_StringUint64_layout in Heq.
    apply (search_inj (c :: s) (c' :: s')) in Heq as [[= -> ->] _]. done.
  - intros Hin. exists (c, s). by rewrite makeKey_StringUint64_layout.
Qed.

Lemma in_group_kind k e :
  is_u64 k → wf_event e → in_group Event__kind (to_sv64 k) e ↔ k = ev_kind e.
Proof.
  intros Hk Hwf. unfold in_group. simpl.
  rewrite list_elem_of_singleton, makeKey_Uint64Uint64_layout. split; [|by intros ->].
  intros [Heq _]%search_inj. apply to_sv64_inj in Heq; [done|done|apply Hwf].
Qed.

Lemma in_group_pubkeyKind pk k e :
  is_u64 k → wf_event e →
  in_group Event__pubkeyKind (pk ++ to_sv64 k) e ↔ pk = ev_pubkey e ∧ k = ev_kind e.
Proof.
  intros Hk Hwf. unfold in_group. simpl.
  rewrite list_elem_of_singleton, makeKey_StringUint64Uint64_layout. split.
  - rewrite app_assoc. intros [Heq _]%search_inj. apply search_inj in Heq as [-> Heq].
    apply to_sv64_inj in Heq; [done|done|apply Hwf].
  - intros [-> ->]. by rewrite app_assoc.
Qed.

Lemma in_group_created_at e : in_group Event__created_at [] e.
Proof. unfold in_group. simpl. apply list_elem_of_singleton. done. Qed.

(** ** The plan of each index *)

Section plans.
Context (d : env) (m : gmap N event) (Hr : repr d m).
Context (f : NostrFilter) (Hsf : scan_filter f).

Lemma sem_of_parts e :
  doesMatchTimes f (ev_created_at e) = true →
  (∀ fs, ids f = Some fs → fsb_mem fs (ev_id e)) →
  (∀ fs, authors f = Some fs → fsb_mem fs (ev_pubkey e)) →
  (∀ fs, kinds f = Some fs → ev_kind e ∈ fs) →
  (∀ c fs, tags f !! c = Some fs → ∃ t, t ∈ ev_tags e ∧ t.1 = c ∧ fsb_mem fs t.2) →
  filter_sem f e.
Proof. intros [? ?]%doesMatchTimes_true ????. split; try done. apply Hsf. Qed.

Lemma row_in_wf l e : m !! l = Some e → wf_event e.
Proof. intros Hl. by apply (repr_wf d m l e Hr). Qed.

Lemma tags_none c fs : tags f !! c = Some fs → base.size (tags f) ≠ 0.
Proof. intros Hc Hz. apply map_size_empty_inv in Hz. by rewrite Hz, lookup_empty in Hc. Qed.

Lemma tags_one c fs c' fs' :
  base.size (tags f) ≤ 1 → tags f !! c = Some fs → tags f !! c' = Some fs' → c' = c ∧ fs' = fs.
Proof.
  intros Hs Hc Hc'. destruct (decide (c' = c)) as [->|Hne]; [naive_solver|]. exfalso.
  assert (base.size (delete c (tags f)) ≠ 0) as Hd.
  { intros Hz. apply map_size_empty_inv in Hz.
    assert (delete c (tags f) !! c' = Some fs') as Hdc by (by rewrite lookup_delete_ne).
    by rewrite Hz, lookup_empty in Hdc. }
  rewrite map_size_delete, Hc in Hd. simpl in Hd. lia.
Qed.

(** Index-only scans of one field have no other field to check. *)
Lemma only_field e :
  doesMatchTimes f (ev_created_at e) = true → major_fields f ≤ 1 →
  (∃ fs, ids f = Some fs ∧ fsb_mem fs (ev_id e)) ∨
  (∃ fs, authors f = Some fs ∧ fsb_mem fs (ev_pubkey e)) ∨
  (∃ ks, kinds f = Some ks ∧ ev_kind e ∈ ks) ∨
  (∃ c fs, tags f !! c = Some fs ∧ ∃ t, t ∈ ev_tags e ∧ t.1 = c ∧ fsb_mem fs t.2) ∨
  major_fields f = 0 →
  filter_sem f e.
Proof.
  unfold major_fields. intros Ht Hm Hcase.
  assert (∀ c fs, tags f !! c = Some fs → 0 < base.size (tags f)) as Hpos
    by (intros c fs Hc%tags_none; lia).
  apply sem_of_parts; [done|..]; destruct (ids f), (authors f), (kinds f);
    simpl in Hm, Hcase; try lia.
  all: try (intros ? [=]; subst; destruct_or! Hcase; try lia; naive_solver lia).
  all: intros c fs Hc; pose proof (Hpos c fs Hc); try lia.
  destruct_or! Hcase; try lia; destruct_and?; try naive_solver.
  destruct Hcase as (c1 & fs1 & Hc1 & Hex).
  destruct (tags_one c1 fs1 c fs ltac:(lia) Hc1 Hc) as [-> ->]. done.
Qed.

Lemma shape_one : indexOnlyScans f = true → ids f ≠ None ∨ base.size (tags f) ≠ 0 ∨
  authors f = None ∨ kinds f = None → major_fields f ≤ 1.
Proof.
  intros [Hm|(Hm & [pk Hpk] & [ks Hks])]%(sf_index_only _ Hsf) Hcase; [done|].
  unfold major_fields in *. rewrite Hpk, Hks in *. destruct (ids f); simpl in *;
    destruct_or! Hcase; done || lia.
Qed.

Lemma fmap_lookup_group {A} (mk : A → group_spec) (l : list A) (P : group_spec → Prop) :
  (∀ x, x ∈ l → P (mk x)) → ∀ i g, (mk <$> l) !! i = Some g → P g.
Proof.
  intros Hall i g Hi. rewrite list_lookup_fmap, fmap_Some in Hi. destruct Hi as (x & Hx & ->).
  apply Hall. by eapply list_elem_of_lookup_2.
Qed.

Lemma plan_ids fs l :
  ids f = Some fs → fsb_repr fs l → l ≠ [] → Forall is_key32 l →
  (N.of_nat (length l) ≤ 65536)%N →
  scan_plan d m f Event__id (indexOnlyScans f) ((λ s, (s, prefix_match s)) <$> l).
Proof.
  intros Hfs Hl Hne H32 Hlen. rewrite Forall_forall in H32. split.
  - apply fmap_lookup_group. intros s Hs. eapply group_ok_id; [done|by apply H32].
  - by destruct l.
  - rewrite length_fmap. lia.
  - intros i e He Hsem. pose proof (sem_ids _ _ Hsem fs Hfs) as Hmem.
    rewrite (fsb_mem_repr _ l) in Hmem by done. exists (ev_id e, prefix_match (ev_id e)).
    split; [|by apply in_group_id]. apply list_elem_of_fmap. eauto.
  - intros Hio i e g He (s & -> & Hs)%list_elem_of_fmap Hg Ht.
    simpl in Hg. apply in_group_id in Hg as ->.
    apply only_field; [done|apply shape_one; [done|left; by rewrite Hfs]|].
    left. exists fs. split; [done|]. by rewrite (fsb_mem_repr _ l).
Qed.

Lemma plan_tags c fs l :
  ids f = None → tags f !! c = Some fs → fsb_repr fs l → l ≠ [] →
  (N.of_nat (length l) ≤ 65536)%N →
  scan_plan d m f Event__tag (indexOnlyScans f) ((λ s, (c :: s, tag_match (c :: s))) <$> l).
Proof.
  intros Hids Hfs Hl Hne Hlen. split.
  - apply fmap_lookup_group. intros s Hs. by eapply group_ok_tag.
  - by destruct l.
  - rewrite length_fmap. lia.
  - intros i e He Hsem. destruct (sem_tags _ _ Hsem c fs Hfs) as ([c' s] & Ht & Hc & Hmem).
    simpl in Hc, Hmem. subst c'. rewrite (fsb_mem_repr _ l) in Hmem by done.
    exists (c :: s, tag_match (c :: s)). split; [|by apply in_group_tag].
    apply list_elem_of_fmap. eauto.
  - intros Hio i e g He (s & -> & Hs)%list_elem_of_fmap Hg Ht.
    simpl in Hg. apply in_group_tag in Hg.
    apply only_field; [done|apply shape_one; [done|right; left; by eapply tags_none]|].
    do 3 right. left. exists c, fs. split; [done|]. exists (c, s). split; [done|].
    split; [done|]. by rewrite (fsb_mem_repr _ l).
Qed.

Lemma plan_pubkeys fs l io :
  ids f = None → authors f = Some fs → fsb_repr fs l → l ≠ [] →
  Forall is_key32 l → (N.of_nat (length l) ≤ 65536)%N →
  (io = true → indexOnlyScans f = true ∧ kinds f = None) →
  scan_plan d m f Event__pubkey io ((λ s, (s, prefix_match s)) <$> l).
Proof.
  intros Hids Hfs Hl Hne H32 Hlen Hio'. rewrite Forall_forall in H32. split.
  - apply fmap_lookup_group. intros s Hs. eapply group_ok_pubkey; [done|by apply H32].
  - by destruct l.
  - rewrite length_fmap. lia.
  - intros i e He Hsem. pose proof (sem_authors _ _ Hsem fs Hfs) as Hmem.
    rewrite (fsb_mem_repr _ l) in Hmem by done. exists (ev_pubkey e, prefix_match (ev_pubkey e)).
    split; [|by apply in_group_pubkey]. apply list_elem_of_fmap. eauto.
  - intros [Hio Hk]%Hio' i e g He (s & -> & Hs)%list_elem_of_fmap Hg Ht.
    simpl in Hg. apply in_group_pubkey in Hg as ->.
    apply only_field; [done|apply shape_one; [done|by do 3 right]|].
    right. left. exists fs. split; [done|]. by rewrite (fsb_mem_repr _ l).
Qed.

Lemma plan_kinds ks :
  ids f = None → authors f = None → kinds f = Some ks →
  scan_plan d m f Event__kind (indexOnlyScans f) ((λ k, (to_sv64 k, kind_match k)) <$> ks).
Proof.
  intros Hids Ha Hks. destruct (sc_kinds _ _ (sf_scannable _ Hsf) ks Hks) as (Hne & Hu & Hlen).
  rewrite Forall_forall in Hu. split.
  - apply fmap_lookup_group. intros k Hk. eapply group_ok_kind; [done|by apply Hu].
  - by destruct ks.
  - by rewrite length_fmap.
  - intros i e He Hsem. pose proof (sem_kinds _ _ Hsem ks Hks) as Hmem.
    exists (to_sv64 (ev_kind e), kind_match (ev_kind e)). split.
    + apply list_elem_of_fmap. eauto.
    + apply in_group_kind; [by apply Hu|by eapply row_in_wf|done].
  - intros Hio i e g He (k & -> & Hk)%list_elem_of_fmap Hg Ht.
    simpl in Hg. apply in_group_kind in Hg as ->; [|by apply Hu|by eapply row_in_wf].
    apply only_field; [done|apply shape_one; [done|by right; right; left]|].
    right. right. left. by exists ks.
Qed.

Lemma plan_pubkeyKinds fs l ks :
  ids f = None → base.size (tags f) = 0 → authors f = Some fs → kinds f = Some ks →
  fsb_repr fs l → l ≠ [] → Forall is_key32 l → length l * length ks < 1000 →
  scan_plan d m f Event__pubkeyKind (indexOnlyScans f)
    (l ≫= λ pk, pubkeyKind_group pk <$> ks).
Proof.
  intros Hids Htags Hfs Hks Hl Hne H32 Hprod.
  destruct (sc_kinds _ _ (sf_scannable _ Hsf) ks Hks) as (Hkne & Hu & _).
  rewrite Forall_forall in H32. rewrite Forall_forall in Hu.
  assert (∀ g, g ∈ (l ≫= λ pk, pubkeyKind_group pk <$> ks) ↔
    ∃ pk k, pk ∈ l ∧ k ∈ ks ∧ g = pubkeyKind_group pk k) as Hin.
  { intros g. rewrite list_elem_of_bind. setoid_rewrite list_elem_of_fmap. naive_solver. }
  split.
  - intros i g Hi. apply list_elem_of_lookup_2, Hin in Hi as (pk & k & Hpk & Hk & ->).
    eapply group_ok_pubkeyKind; [done|by apply H32|by apply Hu].
  - destruct l as [|pk l], ks as [|k ks]; done.
  - assert (length (l ≫= λ pk, pubkeyKind_group pk <$> ks) = length l * length ks) as ->; [|lia].
    clear. induction l as [|pk l IH]; [done|].
    rewrite bind_cons, length_app, length_fmap, IH. done.
  - intros i e He Hsem. pose proof (sem_authors _ _ Hsem fs Hfs) as Hmem.
    rewrite (fsb_mem_repr _ l) in Hmem by done. pose proof (sem_kinds _ _ Hsem ks Hks) as Hk.
    exists (pubkeyKind_group (ev_pubkey e) (ev_kind e)). split; [apply Hin; eauto|].
    apply in_group_pubkeyKind; [by apply Hu|by eapply row_in_wf|done].
  - intros Hio i e g He (pk & k & Hpk & Hk & ->)%Hin Hg Ht.
    apply in_group_pubkeyKind in Hg as [-> ->]; [|by apply Hu|by eapply row_in_wf].
    apply sem_of_parts; [done|by rewrite Hids| | |].
    + intros fs' Hfs'. rewrite Hfs in Hfs'. simplify_eq. by rewrite (fsb_mem_repr _ l).
    + intros ks' Hks'. rewrite Hks in Hks'. by simplify_eq.
    + intros c' fs' Hc'. by apply tags_none in Hc'.
Qed.

Lemma plan_created_at :
  ids f = None → base.size (tags f) = 0 → authors f = None → kinds f = None →
  scan_plan d m f Event__created_at (indexOnlyScans f) [([], λ _, Ok Yes)].
Proof.
  intros Hids Ht Ha Hk. split; [|done|done| |].
  - intros [|i] g; [|done]. intros [= <-]. by eapply group_ok_created_at.
  - intros i e He Hsem. eexists. split; [by apply list_elem_of_singleton|].
    apply in_group_created_at.
  - intros Hio i e g He _ _ Htm. apply only_field; [done|apply shape_one; [done|tauto]|].
    do 4 right. unfold major_fields. by rewrite Hids, Ha, Hk, Ht.
Qed.

(** The constructor's choice of index and cursors. *)
Lemma DBScan_cursors_plan :
  ∃ idx io gs, DBScan_cursors f = Ok (idx, io, cursor_of <$> gs) ∧
    scan_plan d m f idx io gs.
Proof.
  pose proof (sf_scannable _ Hsf) as Hsc. unfold DBScan_cursors.
  destruct (ids f) as [fs|] eqn:Hids.
  { destruct (fsb_set_length _ _ (sc_ids _ _ Hsc fs Hids)) as (l & Hl & Hne & H32 & -> & Hlen).
    rewrite id_cursors by done. simpl. do 3 eexists. split; [done|]. by eapply plan_ids. }
  destruct (Nat.eqb_spec (base.size (tags f)) 0) as [Ht|Ht]; simpl.
  2:{ destruct (smallest_tag_lookup f Hsc Ht) as [fs Hfs]. rewrite Hfs.
      destruct (fsb_set_length _ _ (sc_tags _ _ Hsc _ fs Hfs)) as (l & Hl & Hne & _ & -> & Hlen).
      rewrite tag_cursors by done. simpl. do 3 eexists. split; [done|]. by eapply plan_tags. }
  destruct (authors f) as [fs|] eqn:Ha, (kinds f) as [ks|] eqn:Hk.
  - destruct (fsb_set_length _ _ (sc_authors _ _ Hsc fs Ha)) as (l & Hl & Hne & H32 & -> & Hlen).
    destruct (Nat.ltb_spec (length l * length ks) 1000).
    + rewrite pubkeyKind_cursors by done. simpl. do 3 eexists. split; [done|].
      by eapply plan_pubkeyKinds.
    + rewrite id_cursors by done. simpl. do 3 eexists. split; [done|].
      by eapply plan_pubkeys.
  - destruct (fsb_set_length _ _ (sc_authors _ _ Hsc fs Ha)) as (l & Hl & Hne & H32 & -> & Hlen).
    rewrite id_cursors by done. simpl. do 3 eexists. split; [done|]. by eapply plan_pubkeys.
  - rewrite kind_cursors. simpl. do 3 eexists. split; [done|]. by apply plan_kinds.
  - eexists _, _, [([], λ _, Ok Yes)]. split; [done|]. by apply plan_created_at.
Qed.
End plans.
End cursors.
