(* ===== verification/DBQueryAnswer.v ===== *)
(** What a query answers: the events a filter matches, newest first
    ([matches]), of them the ones the query may send ([answer]), and the order
    in which a list of filters reports them ([todo]); and how the callback of
    [DBQuery::process] computes it from the events a scan visits. *)

From stdpp Require Import fin_maps fin_sets.
From S2P Require Import Prelude Bytes Json Hex PackedEvent FilterSets Filters EventParse Db MemDb.
From S2P Require Import Subscription DBQuery DBQueryOrder DBQueryCollect DBScanRun DBQueryCursors.

(** ** The specification *)

#[export] Instance fsb_mem_dec fs s : Decision (fsb_mem fs s).
Proof. unfold fsb_mem. apply _. Defined.

Definition on_opt {A} (o : option A) (P : A → Prop) : Prop := from_option P True o.

#[export] Instance on_opt_dec {A} (o : option A) P `{∀ a, Decision (P a)} : Decision (on_opt o P).
Proof. destruct o; simpl; apply _. Defined.

(** [filter_sem] as a conjunction that can be decided. *)
Definition filter_parts (f : NostrFilter) (e : event) : Prop :=
  neverMatch f = false ∧ (since f ≤ ev_created_at e)%N ∧ (ev_created_at e ≤ until f)%N ∧
  on_opt (ids f) (λ fs, fsb_mem fs (ev_id e)) ∧
  on_opt (authors f) (λ fs, fsb_mem fs (ev_pubkey e)) ∧
  on_opt (kinds f) (λ ks, ev_kind e ∈ ks) ∧
  map_Forall (λ c fs, Exists (λ t : ascii * bytes, t.1 = c ∧ fsb_mem fs t.2) (ev_tags e)) (tags f).

Lemma filter_sem_parts f e : filter_parts f e ↔ filter_sem f e.
Proof.
  unfold filter_parts, on_opt. split.
  - intros (? & ? & ? & Hi & Ha & Hk & Ht). split; try done.
    + intros fs Hfs. by rewrite Hfs in Hi.
    + intros fs Hfs. by rewrite Hfs in Ha.
    + intros fs Hfs. by rewrite Hfs in Hk.
    + intros c fs Hc%Ht. apply Exists_exists in Hc as (t & ? & ?). eauto.
  - intros [? ? ? Hi Ha Hk Ht]. split_and!; try done.
    + destruct (ids f); simpl; auto.
    + destruct (authors f); simpl; auto.
    + destruct (kinds f); simpl; auto.
    + intros c fs (t & ? & ?)%Ht. apply Exists_exists. eauto.
Qed.

#[export] Instance filter_sem_dec f e : Decision (filter_sem f e).
Proof.
  refine (cast_if (decide (filter_parts f e))); by rewrite <-filter_sem_parts.
Defined.

(** The first [n] elements, counted by a machine word. *)
Fixpoint takeN {A} (n : N) (l : list A) : list A :=
  match l with
  | [] => []
  | x :: l => if (n =? 0)%N then [] else x :: takeN (n - 1) l
  end.

(** The events of the database that the filter matches, newest first. *)
Definition matches (m : gmap N event) (f : NostrFilter) : list stamp :=
  sort_newer (stamp_of_row <$> filter (λ p, filter_sem f p.2) (map_to_list m)).

(** What one filter answers: the newest [limit] of the events it matches that
    the query may send. *)
Definition answer (m : gmap N event) (latest : N) (f : NostrFilter) : list N :=
  takeN (limit f) (filter (λ l, (l ≤ latest)%N) (matches m f).*2).

(** What a list of filters reports, given what was already reported. *)
Fixpoint todo (m : gmap N event) (latest : N) (fs : list NostrFilter) (full : gset N)
    : list N :=
  match fs with
  | [] => []
  | f :: fs =>
      filter (λ l, l ∉ full) (answer m latest f) ++
      todo m latest fs (full ∪ list_to_set (answer m latest f))
  end.

(** ** The callback *)

(** The levIds that a filter newly finds among visited events. *)
Fixpoint found (lim latest : N) (L : list N) (curr : gset N) : list N :=
  match L with
  | [] => []
  | l :: L =>
      if (lim =? 0)%N then []
      else if (latest <? l)%N then found lim latest L curr
      else
        let next := if (lim <=? N.of_nat (base.size ({[l]} ∪ curr)))%N then []
                    else found lim latest L ({[l]} ∪ curr) in
        if decide (l ∈ curr) then next else l :: next
  end.

Section fold.
Context `{!NativeU64} {B : Type} (cb : B → N → result B).
Context (m : gmap N event) (f : NostrFilter) (io : bool) (latest : N).

(** The visited events that are sent. *)
Definition sent_ids (W : list stamp) : list N := (filter (λ p, sends m f io p = true) W).*2.

Lemma sent_ids_app W1 W2 : sent_ids (W1 ++ W2) = sent_ids W1 ++ sent_ids W2.
Proof. unfold sent_ids. by rewrite filter_app, fmap_app. Qed.

Definition visit_all := fold_visits m f io (handle_event cb f latest).

Lemma visit_all_cons p W st :
  visit_all (p :: W) st =
    (r ← (if sends m f io p then handle_event cb f latest st p.2 else Ok (st, false));
     let '(st, stop) := r in if stop : bool then Ok (st, true) else visit_all W st).
Proof. done. Qed.

(** The fold over the visited events reports what is found and not reported
    yet. *)
Definition fold_report (X : list N) (full curr : gset N) (b : B)
    (r : result (sent_state (B := B) * bool)) : Prop :=
  foldM cb b (filter (λ l, l ∉ full) X) =
    match r with
    | Ok ((_, _, b'), _) => Ok b'
    | Throw e => Throw e
    end ∧
  ∀ full' curr' b' st, r = Ok ((full', curr', b'), st) →
    full' = full ∪ list_to_set X ∧ curr' = curr ∪ list_to_set X.

Lemma size_insert_old (l : N) (curr : gset N) :
  l ∈ curr → {[l]} ∪ curr = curr.
Proof. set_solver. Qed.

Lemma found_fresh lim L curr l : l ∈ found lim latest L curr → l ∉ curr.
Proof.
  revert curr. induction L as [|l' L IH]; intros curr; simpl; [set_solver|].
  destruct (lim =? 0)%N; [set_solver|]. destruct (latest <? l')%N; [apply IH|].
  set (next := if (lim <=? _)%N then [] else _).
  assert (l ∈ next → l ∉ {[l']} ∪ curr) as Hnext.
  { subst next. destruct (_ <=? _)%N; [set_solver|apply IH]. }
  destruct (decide (l' ∈ curr)); set_solver.
Qed.

Lemma filter_full_old l (X : list N) (full : gset N) :
  l ∉ X → filter (λ x, x ∉ {[l]} ∪ full) X = filter (λ x, x ∉ full) X.
Proof.
  intros Hl. apply filter_ext_mem. intros x Hx. split; [set_solver|].
  intros Hf [->%elem_of_singleton|?]%elem_of_union; done.
Qed.

Lemma fold_visits_report W full curr b :
  curr ⊆ full →
  fold_report (found (limit f) latest (sent_ids W) curr) full curr b
    (visit_all W (full, curr, b)).
Proof.
  revert full curr b. induction W as [|p W IH]; intros full curr b Hsub.
  { split; [done|]. intros ???? [= <- <- <- <-]. set_solver. }
  rewrite visit_all_cons. unfold sent_ids. rewrite filter_cons.
  destruct (sends m f io p) eqn:Hs.
  2:{ rewrite decide_False by done. cbn [mbind result_bind]. by apply IH. }
  rewrite decide_True by done. rewrite fmap_cons. cbn [found].
  unfold handle_event. destruct (N.eqb_spec (limit f) 0) as [Hz|Hz].
  { simpl. split; [done|]. intros ???? [= <- <- <- <-]. set_solver. }
  destruct (latest <? p.2)%N eqn:Hlat; [cbn [mbind result_bind]; by apply IH|].
  fold (sent_ids W). set (l := p.2) in *.
  set (next := if (limit f <=? _)%N then [] else found _ _ _ _).
  assert (∀ b1, fold_report next ({[l]} ∪ full) ({[l]} ∪ curr) b1
    (if (limit f <=? N.of_nat (base.size ({[l]} ∪ curr)))%N
     then Ok (({[l]} ∪ full, {[l]} ∪ curr, b1), true)
     else visit_all W ({[l]} ∪ full, {[l]} ∪ curr, b1))) as Hnext.
  { intros b1. subst next. destruct (_ <=? _)%N.
    - split; [done|]. intros ???? [= <- <- <- <-]. set_solver.
    - apply IH. set_solver. }
  assert (l ∉ next) as Hln.
  { subst next. destruct (_ <=? _)%N; [set_solver|]. intros ?%found_fresh. set_solver. }
  clearbody next. destruct (decide (l ∈ curr)) as [Hc|Hc].
  - rewrite bool_decide_true by set_solver. cbn [mbind result_bind].
    specialize (Hnext b). rewrite (size_insert_old l full) in Hnext by set_solver.
    rewrite (size_insert_old l curr) in Hnext |- * by done.
    destruct (limit f <=? _)%N; exact Hnext.
  - destruct (decide (l ∈ full)) as [Hf|Hf].
    + rewrite bool_decide_true by done. cbn [mbind result_bind].
      destruct (Hnext b) as [Heq Hst]. rewrite (size_insert_old l full) in Heq, Hst by done.
      split.
      * rewrite filter_cons_False by auto. rewrite Heq. by destruct (limit f <=? _)%N.
      * intros full' curr' b' st Hr. specialize (Hst full' curr' b' st).
        destruct (limit f <=? _)%N; destruct (Hst Hr) as [-> ->]; set_solver.
    + rewrite bool_decide_false by done. split.
      * rewrite filter_cons_True by done. cbn [foldM].
        destruct (cb b l) as [b1|e]; [|done]. cbn [mbind result_bind].
        destruct (Hnext b1) as [Heq _]. rewrite filter_full_old in Heq by done.
        rewrite Heq. by destruct (limit f <=? _)%N.
      * intros full' curr' b' st. destruct (cb b l) as [b1|e]; [|done]. cbn [mbind result_bind].
        intros Hr. destruct (Hnext b1) as [_ Hst]. specialize (Hst full' curr' b' st).
        destruct (limit f <=? _)%N; destruct (Hst Hr) as [-> ->]; set_solver.
Qed.

(** A fold that was not stopped leaves the rest of the events to be found. *)
Lemma found_split W1 W2 full curr b full' curr' b' :
  curr ⊆ full →
  visit_all W1 (full, curr, b) = Ok ((full', curr', b'), false) →
  found (limit f) latest (sent_ids (W1 ++ W2)) curr =
    found (limit f) latest (sent_ids W1) curr ++
    found (limit f) latest (sent_ids W2) curr'.
Proof.
  revert full curr b. induction W1 as [|p W1 IH]; intros full curr b Hsub.
  { by intros [= <- <- <-]. }
  rewrite visit_all_cons. unfold sent_ids. rewrite <-app_comm_cons, !filter_cons.
  destruct (sends m f io p) eqn:Hs.
  2:{ rewrite !decide_False by done. cbn [mbind result_bind]. by apply IH. }
  rewrite !decide_True by done. rewrite !fmap_cons. cbn [found].
  unfold handle_event. destruct (N.eqb_spec (limit f) 0) as [Hz|Hz]; [done|].
  destruct (latest <? p.2)%N eqn:Hlat; [cbn [mbind result_bind]; by apply IH|].
  set (l := p.2) in *. intros Hv.
  assert (∃ full1 b1, {[l]} ∪ curr ⊆ full1 ∧
    (limit f <=? N.of_nat (base.size ({[l]} ∪ curr)))%N = false ∧
    visit_all W1 (full1, {[l]} ∪ curr, b1) = Ok ((full', curr', b'), false))
    as (full1 & b1 & Hsub1 & Hlim & Hv1).
  { destruct (bool_decide (l ∈ full)) eqn:Hin; cbn [mbind result_bind] in Hv.
    - apply bool_decide_eq_true in Hin. exists full, b.
      destruct (limit f <=? _)%N; [done|]. split; [set_solver|done].
    - destruct (cb b l) as [b1|e]; [|done]. cbn [mbind result_bind] in Hv.
      exists ({[l]} ∪ full), b1. destruct (limit f <=? _)%N; [done|]. split; [set_solver|done]. }
  rewrite Hlim. specialize (IH _ _ _ Hsub1 Hv1). unfold sent_ids in IH. rewrite IH.
  by destruct (decide (l ∈ curr)).
Qed.
End fold.

(** ** What a whole scan finds *)

Fixpoint news (latest : N) (L : list N) (curr : gset N) : list N :=
  match L with
  | [] => []
  | l :: L =>
      if (latest <? l)%N then news latest L curr
      else if decide (l ∈ curr) then news latest L curr
      else l :: news latest L ({[l]} ∪ curr)
  end.

Lemma found_news lim latest L curr :
  lim = 0%N ∨ (N.of_nat (base.size curr) < lim)%N →
  found lim latest L curr = takeN (lim - N.of_nat (base.size curr)) (news latest L curr).
Proof.
  intros [->|Hlim].
  { destruct L as [|l L]; [done|]. simpl. by destruct (if (latest <? l)%N then _ else _). }
  revert curr Hlim. induction L as [|l L IH]; intros curr Hlim; [done|]. simpl.
  destruct (N.eqb_spec lim 0) as [->|Hz]; [lia|].
  destruct (latest <? l)%N; [by apply IH|].
  destruct (decide (l ∈ curr)) as [Hin|Hin].
  - rewrite size_insert_old by done. destruct (N.leb_spec lim (N.of_nat (base.size curr))); [lia|].
    by apply IH.
  - assert (base.size ({[l]} ∪ curr) = S (base.size curr)) as Hs.
    { rewrite size_union by set_solver. by rewrite size_singleton. }
    simpl. destruct (N.eqb_spec (lim - N.of_nat (base.size curr)) 0); [lia|]. f_equal.
    destruct (N.leb_spec lim (N.of_nat (base.size ({[l]} ∪ curr)))) as [Hle|Hgt].
    + replace (lim - N.of_nat (base.size curr) - 1)%N with 0%N by lia.
      by destruct (news latest L ({[l]} ∪ curr)).
    + rewrite IH by done. f_equal. lia.
Qed.

(** Over stamps that a levId determines, [news] keeps the order and drops the
    duplicates. *)
Lemma news_stamps latest (W : list stamp) curr :
  (∀ p q, p ∈ W → q ∈ W → p.2 = q.2 → p = q) → StronglySorted newer W →
  ∃ X, news latest W.*2 curr = X.*2 ∧ StronglySorted newer X ∧ NoDup X ∧
    ∀ p, p ∈ X ↔ p ∈ W ∧ (p.2 ≤ latest)%N ∧ p.2 ∉ curr.
Proof.
  intros Hinj Hso. revert curr. induction Hso as [|p W Hso IH Hall]; intros curr.
  { exists []. split_and!; [done|constructor|constructor|set_solver]. }
  assert (∀ p q, p ∈ W → q ∈ W → p.2 = q.2 → p = q) as HinjW.
  { intros q q' Hq Hq'. apply Hinj; by constructor. }
  specialize (IH HinjW). rewrite fmap_cons. simpl. destruct (N.ltb_spec latest p.2) as [Hlt|Hle].
  { destruct (IH curr) as (X & HX & HsX & HndX & Hiff). exists X. split_and!; [done..|].
    intros q. rewrite Hiff, elem_of_cons. naive_solver lia. }
  destruct (decide (p.2 ∈ curr)) as [Hin|Hin].
  { destruct (IH curr) as (X & HX & HsX & HndX & Hiff). exists X. split_and!; [done..|].
    intros q. rewrite Hiff, elem_of_cons. naive_solver. }
  destruct (IH ({[p.2]} ∪ curr)) as (X & HX & HsX & HndX & Hiff).
  exists (p :: X). rewrite fmap_cons, HX. split_and!; [done| | |].
  - constructor; [done|]. apply Forall_forall. intros q [Hq _]%Hiff.
    rewrite Forall_forall in Hall. by apply Hall.
  - constructor; [|done]. intros (_ & _ & Hp)%Hiff. set_solver.
  - intros q. rewrite !elem_of_cons, Hiff. split.
    + intros [->|(? & ? & ?)]; [split; [by left|done]|]. split; [by right|]. set_solver.
    + intros ([->|Hq] & Hql & Hqc); [by left|].
      destruct (decide (q.2 = p.2)) as [Heq|Hne]; [left|right; set_solver].
      apply Hinj; [by right|by left|done].
Qed.

Lemma filter_fmap_comp {A C} (g : A → C) (P : C → Prop) `{!∀ x, Decision (P x)} (l : list A) :
  filter P (g <$> l) = g <$> filter (λ x, P (g x)) l.
Proof.
  induction l as [|x l IH]; [done|]. rewrite fmap_cons, !filter_cons.
  case_decide; rewrite IH; done.
Qed.

Lemma sorted_NoDup_unique (X Y : list stamp) :
  StronglySorted newer X → StronglySorted newer Y → NoDup X → NoDup Y →
  (∀ p, p ∈ X ↔ p ∈ Y) → X = Y.
Proof.
  intros HX HY HnX HnY Hiff. apply (StronglySorted_unique newer); [done..|].
  by apply NoDup_Permutation.
Qed.

Lemma elem_of_matches m f p :
  p ∈ matches m f ↔ ∃ e, m !! p.2 = Some e ∧ p.1 = ev_created_at e ∧ filter_sem f e.
Proof.
  unfold matches. rewrite elem_of_sort_newer, list_elem_of_fmap. split.
  - intros ([l e] & -> & [Hs Hin%elem_of_map_to_list]%list_elem_of_filter). by exists e.
  - intros (e & He & Hn & Hs). exists (p.2, e). split; [by destruct p; simpl in *; subst|].
    apply list_elem_of_filter. split; [done|]. by apply elem_of_map_to_list.
Qed.

Lemma matches_NoDup m f : NoDup (matches m f).
Proof. unfold matches. rewrite sort_newer_Permutation. apply stamps_NoDup, rows_NoDup. Qed.

Section scan.
Context `{!NativeU64, !GolpeKeys, !Env}.
Context (d : env) (m : gmap N event) (Hr : repr d m).
Context (Hz : m !! 0%N = None).
Context (Htime : ∀ l e, m !! l = Some e → time_ok (ev_created_at e)).
Context (f : NostrFilter) (Hsf : scan_filter f).
Context (idx : Index) (io : bool) (gs : list group_spec) (Hplan : scan_plan d m f idx io gs).

(** The events of the cursors, before anything is collected. *)
Definition streams : list (list stamp) :=
  (λ g : group_spec, filter (in_window f) (group idx g.1 m)) <$> gs.

Lemma elem_of_streams p :
  p ∈ mjoin streams ↔ in_window f p ∧ ∃ e g, m !! p.2 = Some e ∧ p.1 = ev_created_at e ∧
    g ∈ gs ∧ in_group idx g.1 e.
Proof.
  rewrite list_elem_of_join. unfold streams. split.
  - intros (Ri & Hp & (g & -> & Hg)%list_elem_of_fmap).
    apply list_elem_of_filter in Hp as [Hw Hp]. destruct p as [n l].
    apply elem_of_group in Hp as (e & He & -> & Hin). split; [done|]. by exists e, g.
  - intros (Hw & e & g & He & Hn & Hg & Hin).
    exists (filter (in_window f) (group idx g.1 m)). split.
    + apply list_elem_of_filter. split; [done|]. destruct p as [n l]. apply elem_of_group.
      by exists e.
    + apply list_elem_of_fmap. by exists g.
Qed.

Lemma sem_window p e : p.1 = ev_created_at e → filter_sem f e → in_window f p.
Proof. intros Hp [_ ? ? _ _ _ _]. unfold in_window. rewrite Hp. split; by right. Qed.

Lemma sends_sem p e :
  m !! p.2 = Some e → p.1 = ev_created_at e →
  (∃ g, g ∈ gs ∧ in_group idx g.1 e) → sends m f io p = true ↔ filter_sem f e.
Proof.
  intros He Hn (g & Hg & Hin). unfold sends. destruct io eqn:Hio.
  - rewrite Hn. split.
    + intros. by eapply (pl_sound _ _ _ _ _ _ Hplan).
    + intros [_ ? ? _ _ _ _]. by apply doesMatchTimes_true.
  - rewrite He. destruct (repr_wf d m _ _ Hr He) as [Hwe _].
    by destruct (doesMatch_sem f e (sf_wf _ Hsf) Hwe) as (b & -> & Hb).
Qed.

(** What a complete scan finds is the filter's answer. *)
Lemma found_answer latest :
  found (limit f) latest (sent_ids m f io (sort_newer (mjoin streams))) ∅ = answer m latest f.
Proof.
  rewrite found_news by (rewrite size_empty; simpl; lia).
  rewrite size_empty, N.sub_0_r. unfold answer. f_equal. unfold sent_ids.
  set (W := filter (λ p, sends m f io p = true) (sort_newer (mjoin streams))).
  assert (∀ p, p ∈ W ↔ p ∈ matches m f) as Hin.
  { intros p. unfold W. rewrite list_elem_of_filter, elem_of_sort_newer, elem_of_streams,
      elem_of_matches. split.
    - intros (Hs & Hw & e & g & He & Hn & Hg & Hgr). exists e.
      split_and!; [done..|]. eapply sends_sem; eauto.
    - intros (e & He & Hn & Hs).
      destruct (pl_complete _ _ _ _ _ _ Hplan _ _ He Hs) as (g & Hg & Hgr).
      split; [by eapply sends_sem; eauto|]. split; [by eapply sem_window|]. by exists e, g. }
  destruct (news_stamps latest W ∅) as (X & HX & HsX & HndX & Hiff).
  { intros p q (e & He & Hpe & _)%Hin%elem_of_matches (e' & He' & Hqe & _)%Hin%elem_of_matches Heq.
    rewrite Heq in He. destruct p, q; simpl in *. congruence. }
  { unfold W. apply StronglySorted_filter', sort_newer_sorted. }
  rewrite HX, filter_fmap_comp. f_equal.
  apply sorted_NoDup_unique; [done| |done| |].
  - apply StronglySorted_filter', sort_newer_sorted.
  - apply NoDup_filter, matches_NoDup.
  - intros p. rewrite Hiff, Hin, list_elem_of_filter. simpl. set_solver.
Qed.

(** The invariant holds when the scan is made. *)
Lemma scan_start :
  DBScan_cursors f = Ok (idx, io, cursor_of <$> gs) →
  ∃ s, DBScan_make f = Ok s ∧ scan_inv m f idx gs io s streams ∧
    visits s streams = sort_newer (mjoin streams).
Proof.
  intros Hc. unfold DBScan_make. rewrite Hc. cbn [mbind result_bind]. rewrite length_fmap.
  assert (0 < length gs) as Hlen.
  { pose proof (pl_nonempty _ _ _ _ _ _ Hplan). destruct gs; [done|simpl; lia]. }
  destruct (Nat.eqb_spec (length gs) 0); [lia|]. simpl.
  eexists. split; [done|]. split; [|done].
  split; simpl; try done; [|lia..].
  split.
  - unfold streams. by rewrite !length_fmap.
  - intros i c Ri g Hc' HRi Hg. unfold streams in HRi. rewrite list_lookup_fmap, Hg in HRi.
    rewrite list_lookup_fmap, Hg in Hc'.
    simpl in Hc', HRi. simplify_eq. split_and!; [done| |done| |].
    + apply (new_cursor_left d); [done|]. apply (sc_until _ _ (sf_scannable _ Hsf)).
    + apply StronglySorted_filter', group_sorted.
    + simpl. etrans; [apply length_filter|]. apply group_length.
  - by intros ev ?%not_elem_of_nil.
  - intros Ri HRi q Hq.
    assert (q ∈ mjoin streams) as Hj by (apply list_elem_of_join; eauto).
    apply elem_of_streams in Hj as (_ & e & g & He & Hn & _). by exists e.
Qed.
End scan.
