(* ===== verification/DBQueryTheorems.v ===== *)
(** Queries: [DBQuery::process], however often it is paused, reports what its
    filters answer, newest events first and each event once; it never runs out
    of fuel, and fails only when the callback does. *)

From stdpp Require Import fin_maps fin_sets.
From S2P Require Import Prelude Bytes Json Hex PackedEvent FilterSets Filters EventParse Db MemDb.
From S2P Require Import Subscription DBQuery DBQueryOrder DBQueryCollect DBScanRun DBQueryCursors.
From S2P Require Import DBQueryAnswer.

(** A scan whose pause check always says no is not paused. *)
Lemma scan_never_paused `{!NativeU64, !GolpeKeys, !Env} {A P} (h : A → N → result (A * bool))
    (doPause : P → N → P * bool) fuel d s a p :
  (∀ p w, (doPause p w).2 = false) →
  match scan h doPause fuel d s a p with
  | Ok (b, _, _, _) => b = true
  | Throw _ => True
  end.
Proof.
  intros Hp. revert s a p. induction fuel as [|fuel IH]; intros s a p; [exact I|].
  cbn [scan].
  pose proof (Hp p (approxWork (add_work s 1))) as Hf.
  destruct (doPause p _) as [p' st]. simpl in Hf. subst st.
  assert (match scan_body h d (add_work s 1) a with
          | Ok (Some b, _, _) => b = true | _ => True end) as Hbody.
  { unfold scan_body. destruct (nextInitIndex _ <? _); [by destruct (init_cursor d _)|].
    destruct (eventQueue (add_work s 1)) as [|ev q]; [done|].
    destruct (candidate_matches _ _ _) as [[m s1]|?]; [|done]. simpl.
    destruct (if m then _ else _) as [[a' [|]]|?]; [done| |done]. simpl.
    by destruct (refill_cursor _ _ _). }
  destruct (scan_body h d (add_work s 1) a) as [[[[b|] s'] a']|?];
    cbn [mbind result_bind]; [exact Hbody|apply IH|exact I].
Qed.

#[global] Arguments scan : simpl never.
#[global] Arguments found : simpl never.

(** A database that a query can run on: it represents the events [m], levId 0
    is not used, and creation times fit the 40 bits of a candidate. *)
Record scan_db `{!NativeU64, !GolpeKeys, !Env} (d : env) (m : gmap N event) : Prop := {
  sd_repr : repr d m;
  sd_zero : m !! 0%N = None;
  sd_time : ∀ l e, m !! l = Some e → time_ok (ev_created_at e);
}.

Section query.
Context `{!NativeU64, !GolpeKeys, !Env}.
Context (d : env) (m : gmap N event) (Hdb : scan_db d m).
Context {B : Type} (cb : B → N → result B) (curr_time_us : nat → N).

(** The part [X1] of [X] was reported; the scan [s] will find the rest. *)
Record scan_left (f : NostrFilter) (latest : N) (s : DBScan) (curr : gset N) (X : list N)
    : Prop := {
  sl_inv : ∃ idx io gs R, scan_plan d m f idx io gs ∧ scan_inv m f idx gs io s R ∧
    X = found (limit f) latest (sent_ids m f io (visits s R)) curr;
}.

Lemma scan_left_fresh f latest s curr X l : scan_left f latest s curr X → l ∈ X → l ∉ curr.
Proof. intros [(idx & io & gs & R & _ & _ & ->)]. apply found_fresh. Qed.

Lemma scan_left_start f latest :
  scan_filter f → ∃ s, DBScan_make f = Ok s ∧ scan_left f latest s ∅ (answer m latest f).
Proof.
  intros Hsf. destruct Hdb as [Hr Hz Ht].
  destruct (DBScan_cursors_plan d m Hr f Hsf) as (idx & io & gs & Hc & Hplan).
  destruct (scan_start d m Hr f Hsf idx io gs Hplan Hc) as (s & Hs & Hinv & Hvis).
  exists s. split; [done|]. constructor. exists idx, io, gs, (streams m f idx gs).
  split_and!; [done..|]. by rewrite Hvis, (found_answer d m Hr Hz Ht f Hsf idx io gs Hplan).
Qed.

(** One call of [scan]. *)
Lemma scan_report f latest s curr X full b {P} (doPause : P → N → P * bool) p :
  scan_filter f → scan_left f latest s curr X → curr ⊆ full →
  match scan (handle_event cb f latest) doPause (scan_fuel d s) d s (full, curr, b) p with
  | Ok (true, _, (full', _, b'), _) =>
      foldM cb b (filter (λ l, l ∉ full) X) = Ok b' ∧ full' = full ∪ list_to_set X
  | Ok (false, s', (full', curr', b'), _) => ∃ X1 X2, X = X1 ++ X2 ∧
      foldM cb b (filter (λ l, l ∉ full) X1) = Ok b' ∧ full' = full ∪ list_to_set X1 ∧
      curr' = curr ∪ list_to_set X1 ∧ scan_left f latest s' curr' X2
  | Throw e => foldM cb b (filter (λ l, l ∉ full) X) = Throw e
  end.
Proof.
  intros Hsf [(idx & io & gs & R & Hplan & Hinv & ->)] Hsub. destruct Hdb as [Hr Hz Ht].
  pose proof (scan_fuel_enough d m Hr f idx gs (pl_fit _ _ _ _ _ _ Hplan) io s R Hinv) as Hfuel.
  pose proof (scan_spec d m Hr f (sc_until _ _ (sf_scannable _ Hsf)) (sf_wf _ Hsf) Hz Ht idx gs
    (pl_ok _ _ _ _ _ _ Hplan) (pl_fit _ _ _ _ _ _ Hplan) io (handle_event cb f latest) doPause
    (scan_fuel d s) s R (full, curr, b) p Hinv Hfuel) as Hspec.
  destruct (scan _ _ _ _ _ _ _) as [[[[[|] s'] [[full' curr'] b']] p']|e].
  - destruct Hspec as [st Hspec].
    destruct (fold_visits_report cb m f io latest (visits s R) full curr b Hsub) as [Heq Hst].
    unfold visit_all in *. rewrite Hspec in Heq, Hst. split; [done|].
    by apply (Hst full' curr' b' st).
  - destruct Hspec as (R' & W1 & (Hvis & Hfold & Hinv') & _).
    destruct (fold_visits_report cb m f io latest W1 full curr b Hsub) as [Heq Hst].
    unfold visit_all in *. rewrite Hfold in Heq, Hst.
    destruct (Hst _ _ _ _ eq_refl) as [Hfull Hcurr].
    eexists _, _. rewrite Hvis. split; [by eapply found_split|]. split_and!; [done..|].
    constructor. by exists idx, io, gs, R'.
  - destruct (fold_visits_report cb m f io latest (visits s R) full curr b Hsub) as [Heq Hst].
    unfold visit_all in *. by rewrite Hspec in Heq.
Qed.

(** [T] is what the query has still to report. *)
Inductive query_left (q : DBQuery) (T : list N) : Prop :=
  | left_between :
      scanner q = None → sentEventsCurr q = ∅ →
      T = todo m (latestEventId (sub q)) (drop (filterGroupIndex q) (filterGroup (sub q)))
            (sentEventsFull q) →
      query_left q T
  | left_paused f s X :
      filterGroup (sub q) !! filterGroupIndex q = Some f → scanner q = Some s →
      sentEventsCurr q ⊆ sentEventsFull q →
      scan_left f (latestEventId (sub q)) s (sentEventsCurr q) X →
      T = filter (λ l, l ∉ sentEventsFull q) X ++
          todo m (latestEventId (sub q)) (drop (S (filterGroupIndex q)) (filterGroup (sub q)))
            (sentEventsFull q ∪ list_to_set X) →
      query_left q T.

Lemma query_left_make sub : query_left (DBQuery_make sub) (todo m (latestEventId sub) (filterGroup sub) ∅).
Proof. by apply left_between. Qed.

Definition ready (q : DBQuery) : Prop := Forall scan_filter (filterGroup (sub q)).

(** A query between two filters or paused in one: the scanner to go on with. *)
Lemma query_left_scanner q T f :
  ready q → query_left q T → filterGroup (sub q) !! filterGroupIndex q = Some f →
  ∃ s X, (match scanner q with Some sc => Ok sc | None => DBScan_make f end) = Ok s ∧
    sentEventsCurr q ⊆ sentEventsFull q ∧
    scan_left f (latestEventId (sub q)) s (sentEventsCurr q) X ∧
    T = filter (λ l, l ∉ sentEventsFull q) X ++
        todo m (latestEventId (sub q)) (drop (S (filterGroupIndex q)) (filterGroup (sub q)))
          (sentEventsFull q ∪ list_to_set X).
Proof.
  intros Hready Hleft Hf. assert (scan_filter f) as Hsf by by eapply Forall_lookup_1.
  destruct Hleft as [Hsc Hcurr HT|f' s X Hf' Hsc Hsub Hl HT].
  - destruct (scan_left_start f (latestEventId (sub q)) Hsf) as (s & Hmk & Hl).
    exists s, (answer m (latestEventId (sub q)) f). rewrite Hsc, Hcurr. split_and!; [done|set_solver|done|].
    rewrite HT. by rewrite (drop_S _ f).
  - rewrite Hf in Hf'. simplify_eq. exists s, X. by rewrite Hsc.
Qed.

(** What a call of [process] does to a query that has [T] to report. *)
Definition process_ok (q : DBQuery) (T : list N) (b : B) (r : result (bool * DBQuery * B * nat))
    : Prop :=
  match r with
  | Ok (true, q', b', _) => foldM cb b T = Ok b' ∧ query_left q' [] ∧ sub q' = sub q
  | Ok (false, q', b', _) => ∃ T1 T2, T = T1 ++ T2 ∧ foldM cb b T1 = Ok b' ∧
      query_left q' T2 ∧ sub q' = sub q
  | Throw e => foldM cb b T = Throw e
  end.

Lemma process_ok_after q q1 T1 T b b1 r :
  foldM cb b T1 = Ok b1 → sub q1 = sub q → process_ok q1 T b1 r → process_ok q (T1 ++ T) b r.
Proof.
  intros Hf Hs. unfold process_ok. rewrite <-Hs, foldM_app, Hf. simpl.
  destruct r as [[[[[|] q'] b'] t']|e]; [done| |done].
  intros (T2 & T3 & -> & Hf2 & Hl & Hs'). exists (T1 ++ T2), T3.
  rewrite app_assoc, foldM_app, Hf. done.
Qed.

Lemma process_loop_ok n budget q T b t :
  ready q → query_left q T → n = length (filterGroup (sub q)) - filterGroupIndex q →
  process_ok q T b (process_loop cb curr_time_us n d budget q b t).
Proof.
  revert q T b t. induction n as [|n IH]; intros q T b t Hready Hleft Hn.
  { pose proof Hleft as Hleft0. destruct Hleft as [_ _ ->|f s X Hf _ _ _ _].
    - rewrite drop_ge in Hleft0 |- * by lia. by split_and!.
    - apply lookup_lt_Some in Hf. lia. }
  destruct (lookup_lt_is_Some_2 (filterGroup (sub q)) (filterGroupIndex q)) as [f Hf]; [lia|].
  destruct (query_left_scanner q T f Hready Hleft Hf) as (s & X & Hsc & Hsub & Hl & ->).
  assert (scan_filter f) as Hsf by by eapply Forall_lookup_1.
  cbn [process_loop]. rewrite Hf, Hsc. cbn [mbind result_bind].
  set (pause := do_pause _ _ _).
  pose proof (scan_report f _ s _ X (sentEventsFull q) b pause (lastWorkChecked q, S t) Hsf Hl Hsub)
    as Hscan.
  destruct (scan _ _ _ _ _ _ _) as [[[[[|] s'] [[full' curr'] b']] [last' t']]|e];
    cbn [mbind result_bind].
  - destruct Hscan as [Hfold ->].
    eapply process_ok_after; [done| |apply IH]; [done|done| |simpl; lia].
    by apply left_between.
  - destruct Hscan as (X1 & X2 & -> & Hfold & -> & -> & Hl').
    eexists (filter (λ l, l ∉ sentEventsFull q) X1), _. split_and!; [|done| |done].
    + rewrite filter_app, <-app_assoc. reflexivity.
    + eapply (left_paused _ _ f s' X2); simpl; [done|done|set_solver|done|]. f_equal.
      * apply filter_ext_mem. intros l Hin.
        pose proof (scan_left_fresh _ _ _ _ _ _ Hl' Hin). set_solver.
      * f_equal. rewrite list_to_set_app_L. set_solver.
  - unfold process_ok. by rewrite foldM_app, Hscan.
Qed.

Lemma process_left budget q T b t :
  ready q → query_left q T →
  process_ok q T b (process cb curr_time_us d budget q b t).
Proof. intros Hready Hleft. by apply process_loop_ok. Qed.
End query.

(** ** Queries that are never paused *)

Lemma MAX_budget_never clock start st w : (do_pause clock start MAX_U64 st w).2 = false.
Proof.
  destruct st as [last t]. unfold do_pause. destruct (_ <? w)%N; [|done]. simpl.
  apply N.ltb_ge, N.lt_succ_r. unfold u64_sub. exact (u64_wrap_bound _).
Qed.

Lemma process_never_paused `{!NativeU64, !GolpeKeys, !Env} {B} (cb : B → N → result B) clock d q b t :
  match process cb clock d MAX_U64 q b t with
  | Ok (c, _, _, _) => c = true
  | Throw _ => True
  end.
Proof.
  unfold process. generalize (length (filterGroup (sub q)) - filterGroupIndex q) as n.
  intros n. revert q b t. induction n as [|n IH]; intros q b t; [done|]. cbn [process_loop].
  destruct (filterGroup (sub q) !! filterGroupIndex q) as [f|]; [|done].
  destruct (match scanner q with Some _ => _ | None => _ end) as [s|]; [|done].
  cbn [mbind result_bind].
  pose proof (scan_never_paused (handle_event cb f (latestEventId (sub q)))
    (do_pause clock (clock t) MAX_U64) (scan_fuel d s) d s
    (sentEventsFull q, sentEventsCurr q, b) (lastWorkChecked q, S t)
    (MAX_budget_never clock (clock t))) as Hs.
  destruct (scan _ _ _ _ _ _ _) as [[[[c s'] [[full' curr'] b']] [last' t']]|]; [|done].
  subst c. cbn [mbind result_bind]. apply IH.
Qed.

(** ** The filters of a request *)

(** A JSON filter object: its keys are distinct (it was parsed into a map), its
    numbers are 64-bit, and its arrays have fewer than 2^24 entries. *)
Definition filter_value (v : value) : Prop :=
  ∃ kvs, v = JObject kvs ∧ NoDup kvs.*1 ∧ ∀ k v, (k, v) ∈ kvs → value_fits v.

Definition filter_values (v : value) : list value :=
  match v with JArray vs => vs | v => [v] end.

Section filters.
Context `{!Hex} `{!NativeU64, !GolpeKeys, !Env}.

Lemma group_fold_scan lim vs acc fs :
  foldM (group_step lim) acc vs = Ok fs → Forall filter_value vs →
  Forall scan_filter acc → Forall scan_filter fs.
Proof.
  intros Hfold Hvs. revert acc Hfold. induction Hvs as [|v vs Hv Hvs IH]; intros acc.
  { by intros [= <-]. }
  intros (acc1 & Hst & Hrest)%bind_Ok_inv Hacc. apply (IH acc1 Hrest).
  unfold group_step in Hst. inv_result. subst acc1. destruct Hv as (kvs & -> & Hnd & Hfit).
  destruct (neverMatch r) eqn:Hn; [done|]. apply Forall_app. split; [done|].
  constructor; [|done]. by eapply NostrFilter_make_scan.
Qed.

Lemma unwrapped_scan filter lim fs :
  NostrFilterGroup_unwrapped filter lim = Ok fs → Forall filter_value (filter_values filter) →
  Forall scan_filter fs.
Proof.
  unfold NostrFilterGroup_unwrapped, NostrFilterGroup_make. intros Hmk Hvs. inv_result.
  assert (r = filter_values filter) as ->.
  { destruct filter; simpl in Hr; injection Hr as <-; done. }
  by eapply group_fold_scan.
Qed.

(** The callback's result of an unpaused query. *)
Lemma foreachByFilter_run {B} (cb : B → N → result B) clock d m filter fs b t :
  scan_db d m → Forall filter_value (filter_values filter) →
  NostrFilterGroup_unwrapped filter MAX_U64 = Ok fs →
  (r ← foreachByFilter cb clock d filter b t; Ok r.1) = foldM cb b (todo m MAX_U64 fs ∅).
Proof.
  intros Hdb Hvs Hfs. pose proof (unwrapped_scan _ _ _ Hfs Hvs) as Hscan.
  unfold foreachByFilter, DBQuery_of_filter. rewrite Hfs. cbn [mbind result_bind].
  destruct (Subscription_make 1 #"." fs) as [sub|e] eqn:Hsub; [|done]. injection Hsub as <-.
  cbn [mbind result_bind]. set (q := DBQuery_make _).
  pose proof (process_left d m Hdb cb clock MAX_U64 q (todo m MAX_U64 fs ∅) b t Hscan
    (query_left_make d m _)) as Hp.
  pose proof (process_never_paused cb clock d q b t) as Hc.
  destruct (process _ _ _ _ _ _ _) as [[[[[|] q'] b'] t']|e]; simpl in *; try done.
  by destruct Hp.
Qed.

(** C6: querying the database by a filter (or an array of filters) calls the
    callback on exactly the events the filters answer: for each filter in turn
    its newest matching events up to its limit, newest first, leaving out those
    reported before; an exception is one of the callback. *)
Theorem foreachByFilter_correct {B} (cb : B → N → result B) clock d m filter fs b t :
  scan_db d m → Forall filter_value (filter_values filter) →
  NostrFilterGroup_unwrapped filter MAX_U64 = Ok fs →
  match foreachByFilter cb clock d filter b t with
  | Ok (b', _) => foldM cb b (todo m MAX_U64 fs ∅) = Ok b'
  | Throw e => foldM cb b (todo m MAX_U64 fs ∅) = Throw e
  end.
Proof.
  intros Hdb Hvs Hfs. rewrite <-(foreachByFilter_run cb clock d m filter fs b t Hdb Hvs Hfs).
  by destruct (foreachByFilter cb clock d filter b t) as [[b' t']|e].
Qed.

(** What a caller that collects the answers gets. *)
Definition collect_ids (acc : list N) (l : N) : result (list N) := Ok (acc ++ [l]).

Lemma foldM_collect acc L : foldM collect_ids acc L = Ok (acc ++ L).
Proof.
  revert acc. induction L as [|l L IH]; intros acc; simpl; [by rewrite app_nil_r|].
  by rewrite IH, <-app_assoc.
Qed.

Lemma takeN_take {A} n (l : list A) : takeN n l = take (N.to_nat n) l.
Proof.
  revert n. induction l as [|x l IH]; intros n; [by rewrite take_nil|]. simpl.
  destruct (N.eqb_spec n 0) as [->|Hn]; [done|]. rewrite IH.
  replace (N.to_nat n) with (S (N.to_nat (n - 1))) by lia. done.
Qed.

(** An answer: matching events the query may send, and any other is older than
    all of a full answer. *)
Lemma answer_spec m latest f :
  let L := answer m latest f in
  ∃ X, L = X.*2 ∧ StronglySorted newer X ∧ NoDup L ∧ (N.of_nat (length L) ≤ limit f)%N ∧
    (∀ p, p ∈ X → p ∈ matches m f ∧ (p.2 ≤ latest)%N) ∧
    (∀ q, q ∈ matches m f → (q.2 ≤ latest)%N → q ∈ X ∨
       N.of_nat (length L) = limit f ∧ ∀ p, p ∈ X → newer p q).
Proof.
  unfold answer. rewrite takeN_take, filter_fmap_comp. cbn zeta.
  set (F := filter _ (matches m f)). set (k := N.to_nat (limit f)).
  assert (StronglySorted newer F) as HF by apply StronglySorted_filter', sort_newer_sorted.
  assert (NoDup F.*2) as Hnd.
  { apply NoDup_fmap_2_strong; [|apply NoDup_filter, matches_NoDup].
    intros p q [_ (e & He & Hp & _)%elem_of_matches]%list_elem_of_filter
      [_ (e' & He' & Hq & _)%elem_of_matches]%list_elem_of_filter Heq.
    rewrite Heq in He. destruct p, q; simpl in *. congruence. }
  assert (∀ p, p ∈ F ↔ p ∈ matches m f ∧ (p.2 ≤ latest)%N) as HinF.
  { intros p. unfold F. rewrite list_elem_of_filter. simpl. tauto. }
  exists (take k F). rewrite <-fmap_take. split; [done|].
  rewrite <-(take_drop k F) in HF. apply StronglySorted_app in HF as (Hcross & Hs & _).
  split_and!; [done| | | |].
  - rewrite fmap_take. eapply sublist_NoDup; [exact Hnd|apply sublist_take].
  - rewrite length_fmap, length_take. subst k. lia.
  - intros p Hp. apply HinF. eapply elem_of_sublist; [exact Hp|apply sublist_take].
  - intros q Hq Hl. assert (q ∈ F) as HqF by by apply HinF.
    rewrite <-(take_drop k F) in HqF. apply elem_of_app in HqF as [?|Hd]; [by left|right].
    split; [|intros p Hp; by apply Hcross].
    rewrite length_fmap, length_take. apply list_elem_of_lookup in Hd as [i Hi%lookup_lt_Some].
    rewrite length_drop in Hi. subst k. lia.
Qed.

(** A query by one filter returns distinct events that satisfy the filter,
    newest first and at most [limit] of them; an event that satisfies the
    filter and is not returned is older than all of the [limit] returned. *)
Theorem query_returns_newest clock d m kvs f t :
  scan_db d m → filter_value (JObject kvs) → NostrFilter_make (JObject kvs) MAX_U64 = Ok f →
  ∃ X t', foreachByFilter collect_ids clock d (JObject kvs) [] t = Ok (X.*2, t') ∧
    StronglySorted newer X ∧ NoDup X.*2 ∧ (N.of_nat (length X) ≤ limit f)%N ∧
    (∀ p, p ∈ X → ∃ e, m !! p.2 = Some e ∧ p.1 = ev_created_at e ∧ filter_spec kvs e) ∧
    (∀ l e, m !! l = Some e → filter_spec kvs e →
       (ev_created_at e, l) ∈ X ∨
       N.of_nat (length X) = limit f ∧ ∀ p, p ∈ X → newer p (ev_created_at e, l)).
Proof.
  intros Hdb Hv Hmk. destruct Hv as (kvs' & [= <-] & Hnd & Hfit).
  assert (∀ l e, m !! l = Some e → wf_event e ∧ is_u64 l) as Hwf.
  { intros l e. by apply (repr_wf d m l e), sd_repr. }
  assert (∀ e, wf_event e → filter_sem f e ↔ filter_spec kvs e) as Hsem.
  { intros e He. by apply (NostrFilter_make_sem kvs MAX_U64 f e Hmk Hnd). }
  set (fs := if neverMatch f then [] else [f]).
  assert (NostrFilterGroup_unwrapped (JObject kvs) MAX_U64 = Ok fs) as Hfs.
  { unfold NostrFilterGroup_unwrapped, NostrFilterGroup_make. simpl. unfold group_step.
    rewrite Hmk. done. }
  assert (Forall filter_value (filter_values (JObject kvs))) as Hvs.
  { simpl. constructor; [|done]. by exists kvs. }
  pose proof (foreachByFilter_run collect_ids clock d m (JObject kvs) fs [] t Hdb Hvs Hfs) as Hrun.
  rewrite foldM_collect in Hrun.
  destruct (foreachByFilter _ _ _ _ _ _) as [[b' t']|]; [|done]. injection Hrun as ->.
  destruct (neverMatch f) eqn:Hnever; unfold fs; cbn [todo].
  - exists [], t'. split_and!; [done|constructor|constructor|simpl; lia|set_solver|].
    intros l e He Hs. exfalso. apply Hsem in Hs; [|by eapply Hwf].
    apply sem_never in Hs. congruence.
  - rewrite app_nil_r, filter_all by set_solver.
    destruct (answer_spec m MAX_U64 f) as (X & -> & Hso & HndX & Hlen & Hsound & Hcomp).
    rewrite length_fmap in *. exists X, t'. split_and!; try done.
    + intros p [(e & He & Hp & Hs)%elem_of_matches _]%Hsound. exists e. split_and!; [done..|].
      apply Hsem; [by eapply Hwf|done].
    + intros l e He Hs. apply Hcomp.
      * apply elem_of_matches. exists e. split_and!; [done..|].
        apply Hsem; [by eapply Hwf|done].
      * simpl. destruct (Hwf l e He) as [_ Hl]. unfold is_u64, MAX_U64, two64 in *. lia.
Qed.
End filters.

(** ** Paused queries *)

Section paused.
Context `{!NativeU64, !GolpeKeys, !Env}.
Context {B : Type} (cb : B → N → result B) (clock : nat → N).

(** A query processed in time slices, one budget each. *)
Fixpoint run_slices (d : env) (budgets : list N) (q : DBQuery) (b : B) (t : nat)
    : result (bool * DBQuery * B * nat) :=
  match budgets with
  | [] => Ok (false, q, b, t)
  | budget :: budgets =>
      r ← process cb clock d budget q b t;
      let '(complete, q, b, t) := r in
      if complete : bool then Ok (true, q, b, t) else run_slices d budgets q b t
  end.

(** A query that is paused and resumed any number of times reports the
    same events in the same order as one that is not: when it completes it has
    reported everything its filters answer, before that a prefix of it, and it
    fails only as the callback does. *)
Theorem paused_query_correct d m sub budgets b t :
  scan_db d m → Forall scan_filter (filterGroup sub) →
  let T := todo m (latestEventId sub) (filterGroup sub) ∅ in
  match run_slices d budgets (DBQuery_make sub) b t with
  | Ok (true, _, b', _) => foldM cb b T = Ok b'
  | Ok (false, _, b', _) => ∃ T1 T2, T = T1 ++ T2 ∧ foldM cb b T1 = Ok b'
  | Throw e => foldM cb b T = Throw e
  end.
Proof.
  intros Hdb Hready T. pose proof (query_left_make d m sub) as Hleft. fold T in Hleft.
  set (q := DBQuery_make sub) in *. assert (ready q) as Hq by done.
  clearbody T q. clear Hready. revert q T b t Hleft Hq.
  induction budgets as [|budget budgets IH]; intros q T b t Hleft Hq; simpl.
  { by exists [], T. }
  pose proof (process_left d m Hdb cb clock budget q T b t Hq Hleft) as Hp.
  destruct (process _ _ _ _ _ _ _) as [[[[[|] q'] b'] t']|e]; simpl in *; [by destruct Hp| |done].
  destruct Hp as (T1 & T2 & -> & Hfold & Hleft' & Hs).
  assert (ready q') as Hq' by (unfold ready in *; by rewrite Hs).
  specialize (IH q' T2 b' t' Hleft' Hq').
  destruct (run_slices _ _ _ _ _) as [[[[[|] q2] b2] t2]|e2].
  - by rewrite foldM_app, Hfold.
  - destruct IH as (T3 & T4 & -> & Hf). exists (T1 ++ T3), T4.
    by rewrite app_assoc, foldM_app, Hfold.
  - by rewrite foldM_app, Hfold.
Qed.
End paused.
