(* ===== verification/DBQueryLiveness.v ===== *)
(** Progress of paused queries: however small its time slices are, a query
    completes after a bounded number of them.  The bound is crude; it counts
    the iterations the scans of the query can make. *)

From stdpp Require Import fin_maps fin_sets.
From S2P Require Import Prelude Bytes Json Hex PackedEvent FilterSets Filters EventParse Db MemDb.
From S2P Require Import Subscription DBQuery DBQueryOrder DBQueryCollect DBScanRun DBQueryCursors.
From S2P Require Import DBQueryAnswer DBQueryTheorems.

Section liveness.
Context `{!NativeU64, !GolpeKeys, !Env}.
Context (d : env) (m : gmap N event) (Hdb : scan_db d m).
Context {B : Type} (cb : B → N → result B) (clock : nat → N).

(** Iterations of a scan: fewer than 2^24 cursors, each visiting an event once. *)
Definition scan_bound : nat := N.to_nat 16777216 * S (base.size m).

(** The largest value of the work counter. *)
Definition work_bound : N := 13 * N.of_nat scan_bound + 1.

Context (Hsize : (N.of_nat (base.size m) < 68719476736)%N).

Lemma work_bound_fits : (work_bound + 2000 < two64)%N.
Proof. unfold work_bound, scan_bound, two64. lia. Qed.

Lemma scan_bound_spec gs_len :
  (N.of_nat gs_len < 16777216)%N → gs_len * S (base.size m) ≤ scan_bound.
Proof. intros Hlt. unfold scan_bound. apply Nat.mul_le_mono_r. lia. Qed.

#[local] Opaque scan_bound.

(** The iterations a query has left, at most. *)
Inductive query_rank (q : DBQuery) (r : nat) : Prop :=
  | rank_between :
      scanner q = None → (lastWorkChecked q ≤ work_bound)%N →
      r = S scan_bound * (length (filterGroup (sub q)) - filterGroupIndex q) →
      query_rank q r
  | rank_paused f s idx io gs R :
      filterGroup (sub q) !! filterGroupIndex q = Some f → scanner q = Some s →
      scan_plan d m f idx io gs → scan_inv m f idx gs io s R →
      lastWorkChecked q = approxWork s → iterations gs s R ≤ scan_bound →
      (work_left s R + 12 * N.of_nat (iterations gs s R) + 1 ≤ work_bound)%N →
      r = S scan_bound * (length (filterGroup (sub q)) - S (filterGroupIndex q)) +
          iterations gs s R →
      query_rank q r.

Lemma rank_make sub : query_rank (DBQuery_make sub) (S scan_bound * length (filterGroup sub)).
Proof. apply rank_between; [done|apply N.le_0_l|]. simpl. by rewrite Nat.sub_0_r. Qed.

(** A scan to go on with: its first pause check does not pause. *)
Record scan_go (q : DBQuery) (f : NostrFilter) (s : DBScan) (n : nat) : Prop := {
  sg_scan : ∃ idx io gs R, scan_plan d m f idx io gs ∧ scan_inv m f idx gs io s R ∧
    n = iterations gs s R ∧ (work_left s R + 12 * N.of_nat n + 1 ≤ work_bound)%N;
  sg_check : ∀ start budget t,
    (do_pause clock start budget (lastWorkChecked q, t) (approxWork (add_work s 1))).2 = false;
  sg_bound : n ≤ scan_bound ∧ (lastWorkChecked q ≤ work_bound)%N;
}.

Lemma check_passes last t start budget w :
  (last ≤ work_bound)%N → (w ≤ last + 1)%N →
  (do_pause clock start budget (last, t) w).2 = false.
Proof.
  intros Hl Hw. pose proof work_bound_fits. unfold do_pause.
  rewrite u64_add_small by lia. by destruct (N.ltb_spec (last + 2000) w); [lia|].
Qed.

Lemma rank_scan q r f :
  ready q → query_rank q r → filterGroup (sub q) !! filterGroupIndex q = Some f →
  ∃ s n, (match scanner q with Some sc => Ok sc | None => DBScan_make f end) = Ok s ∧
    scan_go q f s n ∧
    (S scan_bound * (length (filterGroup (sub q)) - S (filterGroupIndex q)) + n ≤ r).
Proof.
  intros Hready Hrank Hf. pose proof Hdb as [Hr Hz Ht].
  assert (filterGroupIndex q < length (filterGroup (sub q))) as Hlt by by eapply lookup_lt_Some.
  destruct Hrank as [Hsc Hlast ->|f' s idx io gs R Hf' Hsc Hplan Hinv Hlast Hn Hw ->].
  - assert (scan_filter f) as Hsf by by eapply Forall_lookup_1.
    destruct (DBScan_cursors_plan d m Hr f Hsf) as (idx & io & gs & Hc & Hplan).
    destruct (scan_start d m Hr f Hsf idx io gs Hplan Hc) as (s & Hs & Hinv & Hvis).
    pose proof (rests_bound m f idx gs (pl_fit _ _ _ _ _ _ Hplan) io s _ Hinv) as Hrest.
    pose proof (pl_fit _ _ _ _ _ _ Hplan) as Hfit.
    assert (approxWork s = 0%N ∧ eventQueue s = [] ∧ nextInitIndex s = 0) as (Hw0 & Hq0 & Hn0).
    { unfold DBScan_make in Hs. rewrite Hc in Hs. simpl in Hs. inv_result. by subst s. }
    assert (iterations gs s (streams m f idx gs) = length gs + length (mjoin (streams m f idx gs)))
      as Hit.
    { unfold iterations, to_visit, pending. rewrite Hq0, Hn0. simpl. lia. }
    assert (length gs + length (mjoin (streams m f idx gs)) ≤ scan_bound) as Hbound.
    { etrans; [|apply scan_bound_spec, Hfit]. rewrite Nat.mul_succ_r. clear -Hrest.
      revert Hrest. generalize (length gs * base.size m) as x. lia. }
    rewrite Hsc. exists s, (iterations gs s (streams m f idx gs)). split; [done|]. split; [split|].
    + exists idx, io, gs, (streams m f idx gs). split_and!; [done..|].
      unfold work_left. rewrite Hit, Hw0. unfold work_bound. lia.
    + intros. apply check_passes; [done|]. pose proof (u64_add_le (approxWork s) 1) as Hle.
      rewrite Hw0 in Hle. unfold add_work. cbn [approxWork]. rewrite Hw0. lia.
    + rewrite Hit. done.
    + rewrite Hit. replace (length (filterGroup (sub q)) - filterGroupIndex q) with
        (S (length (filterGroup (sub q)) - S (filterGroupIndex q))) by lia. lia.
  - rewrite Hf in Hf'. injection Hf' as <-. rewrite Hsc.
    assert (approxWork s ≤ work_bound)%N as Hwb by (unfold work_left in Hw; lia).
    exists s, (iterations gs s R). split; [done|]. split; [split|lia].
    + by exists idx, io, gs, R.
    + intros. rewrite Hlast. apply check_passes; [done|]. unfold add_work. simpl.
      apply u64_add_le.
    + split; [done|lia].
Qed.

(** A call of [process] that pauses lowers the rank. *)
Lemma process_loop_rank n budget q r b t :
  ready q → query_rank q r → n = length (filterGroup (sub q)) - filterGroupIndex q →
  match process_loop cb clock n d budget q b t with
  | Ok (complete, q', _, _) => ∃ r', (complete = false → r' < r) ∧ query_rank q' r' ∧
      sub q' = sub q
  | Throw _ => True
  end.
Proof.
  revert q r b t. induction n as [|n IH]; intros q r b t Hready Hrank Hn; [by exists r|].
  destruct (lookup_lt_is_Some_2 (filterGroup (sub q)) (filterGroupIndex q)) as [f Hf]; [lia|].
  destruct (rank_scan q r f Hready Hrank Hf) as (s & k & Hsc & [Hgo Hcheck [Hk Hlast]] & Hr0).
  destruct Hgo as (idx & io & gs & R & Hplan & Hinv & -> & Hw).
  assert (scan_filter f) as Hsf by by eapply Forall_lookup_1.
  cbn [process_loop]. rewrite Hf, Hsc. cbn [mbind result_bind].
  pose proof Hdb as [Hr Hz Ht].
  pose proof (scan_fuel_enough d m Hr f idx gs (pl_fit _ _ _ _ _ _ Hplan) io s R Hinv) as Hfuel.
  set (pause := do_pause clock (clock t) budget).
  set (he := handle_event cb f (latestEventId (sub q))).
  set (a := (sentEventsFull q, sentEventsCurr q, b)).
  pose proof (scan_spec d m Hr f (sc_until _ _ (sf_scannable _ Hsf)) (sf_wf _ Hsf) Hz Ht idx gs
    (pl_ok _ _ _ _ _ _ Hplan) (pl_fit _ _ _ _ _ _ Hplan) io he pause
    (scan_fuel d s) s R a (lastWorkChecked q, S t) Hinv Hfuel) as Hspec.
  assert (∀ (p : N * nat) w, (w ≤ work_bound)%N → (p.1 ≤ work_bound)%N →
    ((pause p w).1.1 ≤ work_bound)%N) as Hkeep.
  { intros [l0 t0] w Hle Hl0. subst pause. unfold do_pause. by destruct (_ <? w)%N. }
  pose proof (scan_pause_inv d m Hr f (sc_until _ _ (sf_scannable _ Hsf)) (sf_wf _ Hsf) Hz Ht idx gs
    (pl_ok _ _ _ _ _ _ Hplan) (pl_fit _ _ _ _ _ _ Hplan) io he pause
    (λ p, (p.1 ≤ work_bound)%N) work_bound (scan_fuel d s) s R a (lastWorkChecked q, S t)
    Hkeep Hinv ltac:(lia) Hlast) as Hpause.
  destruct (scan _ _ _ _ _ _ _) as [[[[[|] s'] [[full' curr'] b']] [last' t']]|e];
    cbn [mbind result_bind]; [| |done].
  - eassert (query_rank (mk_query (sub q) None (S (filterGroupIndex q)) (dead q) full' ∅ last') _)
      as Hrank' by (apply rank_between; done).
    match type of Hrank' with query_rank ?q1 ?r1 =>
      specialize (IH q1 r1 b' (S t') Hready Hrank' ltac:(simpl; lia)) end.
    destruct (process_loop _ _ _ _ _ _ _ _) as [[[[c q2] b2] t2]|e]; [|done].
    destruct IH as (r' & Hlt & Hr' & Hs). exists r'. split; [|done]. intros Hc%Hlt.
    simpl in Hc. lia.
  - destruct Hspec as (R' & W1 & (_ & _ & Hinv') & [[[l0 t0] Hc] Hit Hwk Hprog]).
    specialize (Hprog (Hcheck _ _ _)). unfold pause, do_pause in Hc.
    destruct (_ <? approxWork s')%N; [|done]. injection Hc as Hl' _ _.
    eexists. split; [|split; [|done]].
    2:{ eapply rank_paused; simpl; [done|done|done|done|done| | |done]; lia. }
    intros _. simpl. lia.
Qed.
End liveness.

#[global] Opaque scan_bound.

(** Enough slices complete a query whose callback does not fail on what is
    left to report. *)
Lemma slices_complete `{!NativeU64, !GolpeKeys, !Env} {B} (cb : B → N → result B) clock d m :
  scan_db d m → (N.of_nat (base.size m) < 68719476736)%N →
  ∀ budgets q T r b b' t, ready q → query_left d m q T → query_rank d m q r →
    foldM cb b T = Ok b' → r < length budgets →
    ∃ q' t', run_slices cb clock d budgets q b t = Ok (true, q', b', t').
Proof.
  intros Hdb Hsize. induction budgets as [|budget budgets IH]; intros q T r b b' t Hq Hl Hr Hb Hlt;
    [simpl in Hlt; lia|].
  simpl. pose proof (process_left d m Hdb cb clock budget q T b t Hq Hl) as Hp.
  pose proof (process_loop_rank d m Hdb cb clock Hsize _ budget q r b t Hq Hr eq_refl) as Hpr.
  fold (process cb clock d budget q b t) in Hpr.
  destruct (process cb clock d budget q b t) as [[[[[|] q'] b1] t']|e]; simpl in *.
  - destruct Hp as [Hp _]. rewrite Hb in Hp. injection Hp as <-. by eexists _, _.
  - destruct Hp as (T1 & T2 & -> & H1' & Hl' & Hs), Hpr as (r' & Hlt' & Hr' & _).
    specialize (Hlt' eq_refl). rewrite foldM_app, H1' in Hb. cbn [mbind result_bind] in Hb.
    eapply IH; [|done|done|done|lia]. unfold ready in *. by rewrite Hs.
  - congruence.
Qed.

(** A query completes after a bounded number of time slices, whatever the
    budgets and the clock are, as long as its callback does not fail: each
    slice makes progress, because a pause is only considered after work was
    done since the last one. *)
Theorem paused_query_completes `{!NativeU64, !GolpeKeys, !Env} {B} (cb : B → N → result B)
    clock d m sub :
  scan_db d m → (N.of_nat (base.size m) < 68719476736)%N →
  Forall scan_filter (filterGroup sub) → (∀ b l, ∃ b', cb b l = Ok b') →
  ∃ slices, ∀ budgets b t, slices < length budgets →
    ∃ q' b' t', run_slices cb clock d budgets (DBQuery_make sub) b t = Ok (true, q', b', t').
Proof.
  intros Hdb Hsize Hready Hcb. exists (S (scan_bound m) * length (filterGroup sub)).
  intros budgets b t Hlt.
  assert (∀ b T, ∃ b', foldM cb b T = Ok b') as Htotal.
  { intros b0 T. revert b0. induction T as [|l T IH]; intros b0; [by exists b0|]. simpl.
    destruct (Hcb b0 l) as [b' ->]. apply IH. }
  destruct (Htotal b (todo m (latestEventId sub) (filterGroup sub) ∅)) as [b' Hb].
  destruct (slices_complete cb clock d m Hdb Hsize budgets (DBQuery_make sub) _ _ b b' t Hready
    (query_left_make d m sub) (rank_make d m sub) Hb Hlt) as (q' & t' & ?).
  by exists q', b', t'.
Qed.

(** ** Queries whose database changes between their slices

    What a paused query remembers of an old snapshot is never wrong enough to
    fail on a new one: its cursors stand somewhere among the entries, and an
    event that is gone is passed over. *)

Lemma list_choice {A} (P : nat → A → Prop) n :
  (∀ i, i < n → ∃ x, P i x) → ∃ l, length l = n ∧ ∀ i x, l !! i = Some x → P i x.
Proof.
  induction n as [|n IH]; intros HP; [by exists []|].
  destruct IH as (l & Hl & Hall); [intros; apply HP; lia|].
  destruct (HP n ltac:(lia)) as [x Hx]. exists (l ++ [x]). rewrite length_app. simpl.
  split; [lia|]. intros i y [?|[Hi Hy]]%lookup_app_Some; [by apply Hall|].
  apply list_lookup_singleton_Some in Hy as [Hz <-]. by replace i with n by lia.
Qed.

Section snapshots.
Context `{!NativeU64, !GolpeKeys, !Env}.

Record cursors_sane (idx : Index) (gs : list group_spec) (cs : list ScanCursor) : Prop := {
  cs_len : length cs = length gs;
  cs_placed : ∀ i c g, cs !! i = Some c → gs !! i = Some g →
    keyMatch c = g.2 ∧ placed idx g.1 c;
}.

Definition queue_sane (gs : list group_spec) (Q : list CandidateEvent) : Prop :=
  ∀ ev, ev ∈ Q → ∃ i l n, ev = CandidateEvent_make l n (N.of_nat i) ∧ i < length gs ∧ time_ok n.

Record scan_sane (f : NostrFilter) (idx : Index) (gs : list group_spec) (s : DBScan) : Prop := {
  ss_f : sc_f s = f;
  ss_idx : indexDbi s = idx;
  ss_cursors : cursors_sane idx gs (cursors s);
  ss_queue : queue_sane gs (eventQueue s);
  ss_next : nextInitIndex s ≤ length gs;
}.

Section snapshot.
Context (d : env) (m : gmap N event) (Hdb : scan_db d m).
Context (f : NostrFilter) (idx : Index) (io : bool) (gs : list group_spec).
Context (Hsf : scan_filter f) (Hplan : scan_plan d m f idx io gs).

(** What the cursors can still read of this snapshot. *)
Record rests (cs : list ScanCursor) (R : list (list stamp)) : Prop := {
  rs_len : length R = length gs;
  rs_left : ∀ i c g Ri, cs !! i = Some c → gs !! i = Some g → R !! i = Some Ri →
    cursor_left m f idx g.1 c Ri;
}.

Lemma rests_exist cs : cursors_sane idx gs cs → ∃ R, rests cs R.
Proof.
  intros [Hlen Hpl].
  destruct (list_choice (λ i Ri, ∀ c g, cs !! i = Some c → gs !! i = Some g →
    cursor_left m f idx g.1 c Ri) (length gs)) as (R & HR & Hall).
  { intros i Hi. destruct (lookup_lt_is_Some_2 cs i) as [c Hc]; [lia|].
    destruct (lookup_lt_is_Some_2 gs i Hi) as [g Hg]. destruct (Hpl i c g Hc Hg) as [_ Hp].
    destruct (placed_left m f idx g.1 c Hp) as [Ri HRi]. exists Ri. by intros; simplify_eq. }
  exists R. split; [done|]. intros i c g Ri Hc Hg HRi. by apply (Hall i Ri).
Qed.

Lemma rests_small cs R : cursors_sane idx gs cs → rests cs R →
  length (mjoin R) ≤ length gs * base.size m.
Proof.
  intros [Hlen _] [HlR Hleft].
  assert (∀ Ri, Ri ∈ R → length Ri ≤ base.size m) as Hall.
  { intros Ri [i Hi]%list_elem_of_lookup. pose proof (lookup_lt_Some _ _ _ Hi).
    destruct (lookup_lt_is_Some_2 cs i) as [c Hc]; [lia|].
    destruct (lookup_lt_is_Some_2 gs i) as [g Hg]; [lia|].
    pose proof (sublist_length _ _ (cursor_left_sublist _ _ _ _ _ _ (Hleft i c g Ri Hc Hg Hi))).
    pose proof (group_length idx g.1 m). lia. }
  rewrite <-HlR. clear -Hall. induction R as [|Ri R IH]; simpl; [lia|].
  rewrite length_app. pose proof (Hall Ri ltac:(constructor)).
  assert (length (mjoin R) ≤ length R * base.size m); [|lia].
  apply IH. intros. apply Hall. by constructor.
Qed.

Lemma collect_sane cs R i c lim :
  cursors_sane idx gs cs → rests cs R → cs !! i = Some c →
  ∃ out c' Ri, collect d f idx (N.of_nat i) lim c = Ok (out, c') ∧
    cursors_sane idx gs (<[i := c']> cs) ∧ rests (<[i := c']> cs) (<[i := Ri]> R) ∧
    queue_sane gs out ∧ length out + length (mjoin (<[i := Ri]> R)) = length (mjoin R).
Proof.
  intros [Hlen Hpl] [HlR Hleft] Hc. pose proof (lookup_lt_Some _ _ _ Hc) as Hi.
  destruct (lookup_lt_is_Some_2 gs i) as [g Hg]; [lia|].
  destruct (lookup_lt_is_Some_2 R i) as [Ri HRi]; [lia|].
  pose proof Hdb as [Hr Hz Ht]. pose proof (pl_ok _ _ _ _ _ _ Hplan i g Hg) as Hok.
  pose proof (Hleft i c g Ri Hc Hg HRi) as Hl.
  destruct (collect_spec d m Hr f (sc_until _ _ (sf_scannable _ Hsf)) idx g.1 g.2 Hok Hz
    (N.of_nat i) c Ri lim (proj1 (Hpl i c g Hc Hg)) Hl) as (c' & Hcol & Hkm & Hl' & _).
  eexists _, c', (drop (N.to_nat lim) Ri). split; [exact Hcol|]. split; [|split; [|split]].
  - split; [by rewrite length_insert|]. intros j c1 g1 [(-> & <- & _)|[_ Hc1]]%list_lookup_insert_Some Hg1.
    + rewrite Hg in Hg1. injection Hg1 as <-. split; [done|]. by eapply cursor_left_placed.
    + by eapply Hpl.
  - split; [by rewrite length_insert|].
    intros j c1 g1 Rj [(-> & <- & _)|[Hne Hc1]]%list_lookup_insert_Some Hg1.
    + rewrite list_lookup_insert_eq by lia. intros [= <-]. rewrite Hg in Hg1. by injection Hg1 as <-.
    + rewrite list_lookup_insert_ne by done. by apply Hleft.
  - intros ev (p & -> & Hp)%list_elem_of_fmap. exists i, p.2, p.1. split; [done|]. split; [lia|].
    assert (p ∈ group idx g.1 m) as Hin.
    { eapply elem_of_sublist; [|exact (cursor_left_sublist _ _ _ _ _ _ Hl)].
      eapply elem_of_sublist; [done|apply sublist_take]. }
    destruct p as [n l]. apply elem_of_group in Hin as (e & He & -> & _). by eapply Ht.
  - destruct (mjoin_insert R i Ri (drop (N.to_nat lim) Ri) HRi) as (rest & -> & ->).
    unfold candidates. rewrite length_fmap, !length_app, length_take, length_drop. lia.
Qed.

(** The iterations left. *)
Definition steps_left (s : DBScan) (R : list (list stamp)) : nat :=
  (length gs - nextInitIndex s) + length (eventQueue s) + length (mjoin R).

Abbreviation sane := (scan_sane f idx gs).

Lemma queue_sane_app Q1 Q2 : queue_sane gs Q1 → queue_sane gs Q2 → queue_sane gs (Q1 ++ Q2).
Proof. intros ?? ev [?|?]%elem_of_app; auto. Qed.

Lemma queue_sane_perm Q1 Q2 : Q1 ≡ₚ Q2 → queue_sane gs Q2 → queue_sane gs Q1.
Proof. intros HQ HQ2 ev Hev. apply HQ2. by rewrite <-HQ. Qed.

Lemma init_cursor_sane s R : sane s → rests (cursors s) R → nextInitIndex s < length gs →
  ∃ s' R', init_cursor d s = Ok s' ∧ sane s' ∧ rests (cursors s') R' ∧
    steps_left s' R' < steps_left s R.
Proof.
  intros [Hf Hidx Hcs HQ Hnext] HR Hlt. set (i := nextInitIndex s) in *.
  destruct (lookup_lt_is_Some_2 (cursors s) i) as [c Hc]; [by rewrite (cs_len _ _ _ Hcs)|].
  destruct (collect_sane (cursors s) R i c (initialScanDepth s) Hcs HR Hc)
    as (out & c' & Ri & Hcol & Hcs' & HR' & Hout & Hlen).
  unfold init_cursor, cursor_at. fold i. rewrite Hc. cbn [mbind result_bind].
  rewrite Hf, Hidx, Hcol. cbn [mbind result_bind].
  set (s1 := set_nextInit _ _). set (s2 := if _ =? _ then _ else _).
  assert (eventQueue s2 ≡ₚ eventQueue s ++ out) as HQ2.
  { subst s2. case_match; [apply merge_sort_Permutation|done]. }
  assert (sc_f s2 = f ∧ indexDbi s2 = idx ∧ cursors s2 = <[i := c']> (cursors s) ∧
    nextInitIndex s2 = S i) as (Hf2 & Hidx2 & Hc2 & Hn2) by (subst s2; by case_match).
  exists s2, (<[i := Ri]> R). split; [done|]. rewrite Hc2. split; [|split; [done|]].
  - split; [done|done|by rewrite Hc2| |lia].
    apply (queue_sane_perm _ _ HQ2). by apply queue_sane_app.
  - unfold steps_left. rewrite Hn2, HQ2, length_app. fold i. lia.
Qed.

Lemma refill_cursor_sane s R ev q : sane s → rests (cursors s) R → eventQueue s = ev :: q →
  ∃ s' R', refill_cursor d (set_queue s q) ev = Ok s' ∧ sane s' ∧ rests (cursors s') R' ∧
    steps_left s' R' < steps_left s R.
Proof.
  intros [Hf Hidx Hcs HQ Hnext] HR Hq. rewrite Hq in HQ.
  destruct (HQ ev ltac:(constructor)) as (i & l & n & -> & Hi & Hn).
  assert (queue_sane gs q) as HQ' by (intros ev' ?; apply HQ; by constructor).
  assert (cand_scanIndex (CandidateEvent_make l n (N.of_nat i)) = N.of_nat i) as Hidxi.
  { apply cand_scanIndex_make; [done|]. unfold index_fits.
    pose proof (pl_fit _ _ _ _ _ _ Hplan). lia. }
  destruct (lookup_lt_is_Some_2 (cursors s) i) as [c Hc]; [by rewrite (cs_len _ _ _ Hcs)|].
  unfold refill_cursor, cursor_at. rewrite Hidxi, Nat2N.id. cbn [cursors set_queue]. rewrite Hc.
  cbn [mbind result_bind]. set (c1 := set_outstanding c _).
  assert (cursors_sane idx gs (<[i := c1]> (cursors s))) as Hcs1.
  { destruct Hcs as [Hl Hp]. split; [by rewrite length_insert|].
    intros j c2 g [(-> & <- & _)|[_ Hc2]]%list_lookup_insert_Some Hg; [by apply (Hp j c g)|].
    by apply (Hp j c2 g). }
  assert (rests (<[i := c1]> (cursors s)) R) as HR1.
  { destruct HR as [Hl Hp]. split; [done|].
    intros j c2 g Rj [(-> & <- & _)|[_ Hc2]]%list_lookup_insert_Some Hg HRj; [|by eapply Hp].
    specialize (Hp j c g Rj Hc Hg HRj). destruct Hp; [by apply left_none|by apply left_out|by eapply left_at]. }
  destruct (N.eqb_spec (outstanding c1) 0) as [Hz|Hz].
  - destruct (collect_sane (<[i := c1]> (cursors s)) R i c1 (refillScanDepth s) Hcs1 HR1)
      as (out & c' & Ri & Hcol & Hcs' & HR' & Hout & Hlen).
    { apply list_lookup_insert_eq. by eapply lookup_lt_Some. }
    cbn [sc_f indexDbi set_cursor set_queue refillScanDepth]. rewrite Hf, Hidx, Hcol.
    cbn [mbind result_bind]. eexists _, (<[i := Ri]> R). split; [reflexivity|].
    assert (list_merge cand_le q out ≡ₚ q ++ out) as Hm by apply merge_Permutation.
    split; [|split; [done|]].
    + split; [done|done|done| |done]. cbn. apply (queue_sane_perm _ _ Hm). by apply queue_sane_app.
    + unfold steps_left. cbn. rewrite Hm, Hq, length_app. simpl. lia.
  - eexists _, R. split; [reflexivity|]. split; [by split|]. split; [done|].
    unfold steps_left. cbn. rewrite Hq. simpl. lia.
Qed.

Lemma candidate_matches_total s ev : sc_f s = f → ∃ b w,
  candidate_matches d s ev = Ok (b, add_work s w) ∨ candidate_matches d s ev = Ok (b, s).
Proof.
  intros Hf. pose proof Hdb as [Hr _ _]. unfold candidate_matches.
  destruct (indexOnly s); [by eexists _, 0%N; right|]. rewrite (lookup_Event_repr d m _ Hr).
  destruct (m !! cand_levId ev) as [e|] eqn:He; cbn; [|eexists _, 10%N; by left].
  destruct (repr_wf d m _ _ Hr He) as [Hwe _]. rewrite view_encode by done. cbn. rewrite Hf.
  destruct (doesMatch_sem f e (sf_wf _ Hsf) Hwe) as (b & -> & _). eexists _, 10%N; by left.
Qed.

Context {A P : Type} (handleEvent : A → N → result (A * bool)) (doPause : P → N → P * bool).
Context (Hhandle : ∀ a l, ∃ r, handleEvent a l = Ok r).

Lemma scan_body_sane s R a : sane s → rests (cursors s) R →
  ∃ r s' a', scan_body handleEvent d s a = Ok (r, s', a') ∧
    (r = Some true ∨
     r = None ∧ sane s' ∧ ∃ R', rests (cursors s') R' ∧ steps_left s' R' < steps_left s R).
Proof.
  intros Hs HR. unfold scan_body. rewrite (cs_len _ _ _ (ss_cursors _ _ _ _ Hs)).
  destruct (Nat.ltb_spec (nextInitIndex s) (length gs)) as [Hlt|Hge].
  { destruct (init_cursor_sane s R Hs HR Hlt) as (s' & R' & -> & ?). eexists _, _, _.
    split; [reflexivity|]. right. destruct_and!. eauto 6. }
  destruct (eventQueue s) as [|ev q] eqn:Hq; [eexists _, _, _; split; [reflexivity|by left]|].
  assert (∃ b s1, candidate_matches d (set_queue s q) ev = Ok (b, set_queue s1 q) ∧
    sane s1 ∧ eventQueue s1 = ev :: q ∧ cursors s1 = cursors s ∧ nextInitIndex s1 = nextInitIndex s)
    as (b & s1 & -> & Hs1 & Hq1 & Hc1 & Hn1).
  { pose proof (ss_f _ _ _ _ Hs) as Hf.
    destruct (candidate_matches_total (set_queue s q) ev Hf) as (b & w & [-> | ->]).
    - exists b, (add_work s w). split; [done|]. split; [by destruct Hs|done].
    - by exists b, s. }
  cbn [mbind result_bind].
  assert (∃ r, (if b then handleEvent a (cand_levId ev) else Ok (a, false)) = Ok r) as [[a' stop] ->].
  { destruct b; [apply Hhandle|by eexists]. }
  cbn [mbind result_bind]. destruct stop; [eexists _, _, _; split; [reflexivity|by left]|].
  destruct (refill_cursor_sane s1 R ev q Hs1) as (s' & R' & -> & Hs' & HR' & Hlt); [by rewrite Hc1|done|].
  eexists _, _, _. split; [reflexivity|]. right. split; [done|]. split; [done|]. exists R'. split; [done|].
  unfold steps_left in *. rewrite Hn1, Hq1 in Hlt. by rewrite Hq.
Qed.

Lemma scan_sane_run fuel : ∀ s R a p, sane s → rests (cursors s) R → steps_left s R < fuel →
  ∃ c s' a' p', scan handleEvent doPause fuel d s a p = Ok (c, s', a', p') ∧ (c = false → sane s').
Proof.
  induction fuel as [|fuel IH]; intros s R a p Hs HR Hlt; [lia|]. rewrite scan_S.
  assert (sane (add_work s 1)) as Hs1 by by destruct Hs.
  destruct (doPause p (approxWork (add_work s 1))) as [p' [|]];
    [eexists _, _, _, _; by split; [reflexivity|]|].
  destruct (scan_body_sane (add_work s 1) R a Hs1 HR) as (r & s' & a' & -> & Hr).
  cbn [mbind result_bind]. destruct Hr as [->|(-> & Hs' & R' & HR' & Hdec)];
    [eexists _, _, _, _; by split; [reflexivity|]|].
  apply (IH s' R'); [done|done|]. change (steps_left (add_work s 1) R) with (steps_left s R) in Hdec. lia.
Qed.

Lemma scan_total s a p : sane s →
  ∃ c s' a' p', scan handleEvent doPause (scan_fuel d s) d s a p = Ok (c, s', a', p') ∧
    (c = false → sane s').
Proof.
  intros Hs. destruct (rests_exist _ (ss_cursors _ _ _ _ Hs)) as [R HR].
  apply (scan_sane_run _ s R); [done|done|].
  pose proof (rests_small _ _ (ss_cursors _ _ _ _ Hs) HR) as Hsm.
  unfold steps_left, scan_fuel. rewrite (cs_len _ _ _ (ss_cursors _ _ _ _ Hs)).
  assert (base.size m ≤ length (foreach_Event d)) as Hsz by by apply (foreach_Event_size d m), Hdb.
  pose proof (Nat.mul_le_mono_l _ _ (length gs) Hsz). lia.
Qed.
End snapshot.

(** The cursors a filter's scan has, whatever the database holds. *)
Definition scan_of (f : NostrFilter) (s : DBScan) : Prop :=
  ∃ idx io gs, DBScan_cursors f = Ok (idx, io, cursor_of <$> gs) ∧ scan_sane f idx gs s.

Lemma cursor_of_inj (gs gs' : list group_spec) : cursor_of <$> gs = cursor_of <$> gs' → gs = gs'.
Proof.
  assert (Inj (=) (=) cursor_of) as Hinj; [|by apply (list_fmap_eq_inj cursor_of)].
  intros [s1 k1] [s2 k2] [= Hs ->]. unfold ff8 in Hs. by apply app_inv_tail in Hs as ->.
Qed.

Lemma scan_of_plan d m f s : scan_db d m → scan_filter f → scan_of f s →
  ∃ idx io gs, DBScan_cursors f = Ok (idx, io, cursor_of <$> gs) ∧ scan_plan d m f idx io gs ∧
    scan_sane f idx gs s.
Proof.
  intros [Hr _ _] Hsf (idx & io & gs & Hc & Hs).
  destruct (DBScan_cursors_plan d m Hr f Hsf) as (idx' & io' & gs' & Hc' & Hplan).
  rewrite Hc in Hc'. injection Hc' as -> -> ->%cursor_of_inj. by exists idx', io', gs'.
Qed.

Lemma DBScan_make_sane d m f : scan_db d m → scan_filter f →
  ∃ s, DBScan_make f = Ok s ∧ scan_of f s.
Proof.
  intros [Hr Hz Ht] Hsf.
  destruct (DBScan_cursors_plan d m Hr f Hsf) as (idx & io & gs & Hc & Hplan).
  destruct (scan_start d m Hr f Hsf idx io gs Hplan Hc) as (s & Hs & Hinv & _).
  exists s. split; [done|]. exists idx, io, gs. split; [done|].
  destruct Hinv as [[[Hlen HlR] Hcur Hq Hrow] Hf Hidx _ _ Hnext _ _]. split; [done|done| | |done].
  - split; [done|]. intros i c g Hi Hg. pose proof (lookup_lt_Some _ _ _ Hg).
    destruct (lookup_lt_is_Some_2 (streams m f idx gs) i) as [Ri HRi]; [lia|].
    destruct (Hcur i c Ri g Hi HRi Hg) as (? & ? & _). split; [done|]. by eapply cursor_left_placed.
  - intros ev Hev. destruct (Hq ev Hev) as (i & p & -> & Hi & Hp & _). exists i, p.2, p.1.
    split_and!; try done. by apply (row_time m Ht).
Qed.

(** A query that any snapshot can go on with. *)
Record query_sane (q : DBQuery) : Prop := {
  qn_filters : Forall scan_filter (filterGroup (sub q));
  qn_scanner : ∀ s, scanner q = Some s →
    ∃ f, filterGroup (sub q) !! filterGroupIndex q = Some f ∧ scan_of f s;
}.

Lemma query_sane_make sub : Forall scan_filter (filterGroup sub) → query_sane (DBQuery_make sub).
Proof. by split. Qed.

Lemma handle_event_total {B} (cb : B → N → result B) f latest a l :
  (∀ b l, ∃ b', cb b l = Ok b') → ∃ r, handle_event cb f latest a l = Ok r.
Proof.
  intros Hcb. destruct a as [[full curr] b]. unfold handle_event.
  destruct (limit f =? 0)%N; [by eexists|]. destruct (latest <? l)%N; [by eexists|].
  case_bool_decide; cbn [mbind result_bind]; [by eexists|].
  destruct (Hcb b l) as [b' ->]. by eexists.
Qed.

(** A turn on any snapshot returns, and leaves a query that any other snapshot
    can go on with. *)
Lemma process_total {B} (cb : B → N → result B) clock d m budget q b t :
  scan_db d m → (∀ b l, ∃ b', cb b l = Ok b') → query_sane q →
  ∃ c q' b' t', process cb clock d budget q b t = Ok (c, q', b', t') ∧ query_sane q'.
Proof.
  intros Hdb Hcb. unfold process. generalize (length (filterGroup (sub q)) - filterGroupIndex q) as n.
  intros n. revert q b t. induction n as [|n IH]; intros q b t Hq; [by eexists _, _, _, _|].
  cbn [process_loop]. pose proof Hq as [Hfs Hsc].
  destruct (filterGroup (sub q) !! filterGroupIndex q) as [f|] eqn:Hf; [|by eexists _, _, _, _].
  assert (scan_filter f) as Hsf by by eapply Forall_lookup_1.
  assert (∃ s, (match scanner q with Some sc => Ok sc | None => DBScan_make f end) = Ok s ∧ scan_of f s)
    as (s & -> & Hs).
  { destruct (scanner q) as [s|]; [|by apply (DBScan_make_sane d m)].
    destruct (Hsc s eq_refl) as (f' & [= <-] & Hs). by exists s. }
  cbn [mbind result_bind].
  destruct (scan_of_plan d m f s Hdb Hsf Hs) as (idx & io & gs & Hcur & Hplan & Hsane).
  destruct (scan_total d m Hdb f idx io gs Hsf Hplan (handle_event cb f (latestEventId (sub q)))
    (do_pause clock (clock t) budget) (λ a l, handle_event_total cb f _ a l Hcb) s
    (sentEventsFull q, sentEventsCurr q, b) (lastWorkChecked q, S t) Hsane)
    as (c & s' & [[full curr] b'] & [last t'] & -> & Hs').
  cbn [mbind result_bind]. destruct c; [by apply IH|].
  eexists _, _, _, _. split; [reflexivity|]. split; [done|]. intros s1 [= <-]. exists f. split; [done|].
  exists idx, io, gs. split; [done|]. by apply Hs'.
Qed.
End snapshots.
