(* ===== verification/QueryScheduler.v ===== *)
(** The query scheduler ([QueryScheduler.h]): the queries of the request
    worker's connections, run one time slice each in turn.

    The source keeps the queries behind pointers that [conns] and [running]
    share; [heap] is the store they point into, and dereferencing a pointer
    that is not there is undefined behaviour.  The callbacks are options, as the
    [std::function]s are, and thread the caller's state [W]. *)

From S2P Require Import Prelude Bytes Json Hex PackedEvent FilterSets Filters.
From S2P Require Import Config EventParse Db Subscription DBQuery.
From stdpp Require Import fin_maps fin_sets.

Module Scheduler.

Record QueryScheduler := mk_qs {
  conns : gmap N (gmap bytes N);
  running : list N;
  levIdBatch : list N;
  heap : gmap N DBQuery;
}.

Definition empty_scheduler : QueryScheduler := mk_qs ∅ [] [] ∅.

Definition set_conns qs x := mk_qs x (running qs) (levIdBatch qs) (heap qs).
Definition set_running qs x := mk_qs (conns qs) x (levIdBatch qs) (heap qs).
Definition set_levIdBatch qs x := mk_qs (conns qs) (running qs) x (heap qs).
Definition set_heap qs x := mk_qs (conns qs) (running qs) (levIdBatch qs) x.

Definition mark_dead (q : DBQuery) : DBQuery :=
  mk_query (sub q) (scanner q) (filterGroupIndex q) true (sentEventsFull q)
    (sentEventsCurr q) (lastWorkChecked q).

(** [query->dead = true] *)
Definition kill (h : gmap N DBQuery) (p : N) : result (gmap N DBQuery) :=
  match h !! p with
  | None => Throw undefined_behaviour
  | Some q => Ok (<[p := mark_dead q]> h)
  end.

Definition findQuery (qs : QueryScheduler) (c : N) (s : SubId) : option N :=
  match conns qs !! c with
  | None => None
  | Some cm => cm !! SubId_sv s
  end.

Definition removeSub (qs : QueryScheduler) (c : N) (s : SubId) : result QueryScheduler :=
  match findQuery qs c s with
  | None => Ok qs
  | Some p =>
      h ← kill (heap qs) p;
      let cm := delete (SubId_sv s) (default ∅ (conns qs !! c)) in
      Ok (set_conns (set_heap qs h)
            (if decide (cm = ∅) then delete c (conns qs) else <[c := cm]> (conns qs)))
  end.

Definition closeConn (qs : QueryScheduler) (c : N) : result QueryScheduler :=
  match conns qs !! c with
  | None => Ok qs
  | Some cm =>
      h ← foldM kill (heap qs) (map_to_list cm).*2;
      Ok (set_conns (set_heap qs h) (delete c (conns qs)))
  end.

Section scheduler.
Context `{!NativeU64, !GolpeKeys, !Env} (cfg : Config).

(** [false] when the connection has too many subscriptions. *)
Definition addSub (d : env) (qs : QueryScheduler) (s : Subscription)
    : result (QueryScheduler * bool) :=
  let s := set_latestEventId s (getMostRecentLevId d) in
  qs ← (match findQuery qs (connId s) (subId s) with
        | Some _ => removeSub qs (connId s) (subId s)
        | None => Ok qs
        end);
  let cm := default ∅ (conns qs !! connId s) in
  let qs := set_conns qs (<[connId s := cm]> (conns qs)) in
  if (relay__maxSubsPerConnection cfg <=? N.of_nat (base.size cm))%N then Ok (qs, false)
  else
    let p := base.fresh (dom (heap qs)) in
    let qs := set_heap qs (<[p := DBQuery_make s]> (heap qs)) in
    let qs := set_conns qs
      (<[connId s := match cm !! SubId_sv (subId s) with
                     | Some _ => cm
                     | None => <[SubId_sv (subId s) := p]> cm
                     end]> (conns qs)) in
    Ok (set_running qs (p :: running qs), true).

Section callbacks.
Context {W : Type}.
Variable ensureExists : bool.
Variable onEvent : option (W → Subscription → N → bytes → result W).
Variable onEventBatch : option (W → Subscription → list N → result W).
Variable onComplete : option (W → Subscription → result W).
Variable curr_time_us : nat → N.

(** The callback given to [DBQuery::process]; the state is the caller's and the
    batch. *)
Definition on_found (d : env) (s : Subscription) (st : W * list N) (levId : N)
    : result (W * list N) :=
  let '(w, batch) := st in
  match (if ensureExists then EventPayload (tables d) !! levId else Some []) with
  | None => Ok st
  | Some eventPayload =>
      w ← (match onEvent with Some h => h w s levId eventPayload | None => Ok w end);
      Ok (w, match onEventBatch with Some _ => batch ++ [levId] | None => batch end)
  end.

(** The part of [process] after the front query's turn. *)
Definition after_turn (qs : QueryScheduler) (p : N) (q : DBQuery) (complete : bool) (w : W)
    : result (QueryScheduler * W) :=
  r ← (match onEventBatch with
       | Some h => w ← h w (sub q) (levIdBatch qs); Ok (set_levIdBatch qs [], w)
       | None => Ok (qs, w)
       end);
  let '(qs, w) := r in
  if complete then
    qs ← removeSub qs (connId (sub q)) (subId (sub q));
    w ← (match onComplete with Some h => h w (sub q) | None => Ok w end);
    Ok (set_heap qs (delete p (heap qs)), w)
  else Ok (set_running qs (running qs ++ [p]), w).

Definition process (d : env) (qs : QueryScheduler) (w : W) (t : nat)
    : result (QueryScheduler * W * nat) :=
  match running qs with
  | [] => Ok (qs, w, t)
  | p :: rest =>
      let qs := set_running qs rest in
      match heap qs !! p with
      | None => Throw undefined_behaviour
      | Some q =>
          if dead q then Ok (set_heap qs (delete p (heap qs)), w, t)
          else
            r ← DBQuery.process (on_found d (sub q)) curr_time_us d
                  (relay__queryTimesliceBudgetMicroseconds cfg) q (w, levIdBatch qs) t;
            let '(complete, q, (w, batch), t) := r in
            let qs := set_levIdBatch (set_heap qs (<[p := q]> (heap qs))) batch in
            r ← after_turn qs p q complete w;
            let '(qs, w) := r in
            Ok (qs, w, t)
      end
  end.
End callbacks.
End scheduler.
End Scheduler.
