(* ===== verification/QuerySchedulerTheorems.v ===== *)
(** The scheduler's invariant: [conns] and [running] only point at queries that
    exist, a query is reachable through its connection exactly as long as it is
    not dead, and no connection exceeds its limit.  Every operation preserves
    it. *)

From stdpp Require Import fin_maps fin_sets.
From S2P Require Import Prelude Bytes Json Hex PackedEvent FilterSets Filters Config EventParse Db.
From S2P Require Import Subscription DBQuery QueryScheduler MemDb DBQueryCursors DBQueryAnswer.
From S2P Require Import DBQueryTheorems DBQueryLiveness.

Import Scheduler.

(** ** The two-level table of connections *)

Definition conn_lookup {V : Type} (cn : gmap N (gmap bytes V)) (c : N) (k : bytes) : option V :=
  cm ← cn !! c; cm !! k.

Definition conn_erase {V : Type} (cn : gmap N (gmap bytes V)) (c : N) (k : bytes)
    : gmap N (gmap bytes V) :=
  let cm := delete k (default ∅ (cn !! c)) in
  if decide (cm = ∅) then delete c cn else <[c := cm]> cn.

Lemma findQuery_lookup qs c s : findQuery qs c s = conn_lookup (conns qs) c (SubId_sv s).
Proof. unfold findQuery, conn_lookup. by destruct (conns qs !! c). Qed.

Lemma conn_lookup_insert {V : Type} (cn : gmap N (gmap bytes V)) c cm c' k :
  conn_lookup (<[c := cm]> cn) c' k = if decide (c' = c) then cm !! k else conn_lookup cn c' k.
Proof.
  unfold conn_lookup. rewrite lookup_insert. repeat case_decide; by subst || naive_solver.
Qed.

Lemma conn_lookup_delete {V : Type} (cn : gmap N (gmap bytes V)) c c' k :
  conn_lookup (delete c cn) c' k = if decide (c' = c) then None else conn_lookup cn c' k.
Proof.
  unfold conn_lookup. rewrite lookup_delete. repeat case_decide; by subst || naive_solver.
Qed.

Lemma conn_lookup_default {V : Type} (cn : gmap N (gmap bytes V)) c k : default ∅ (cn !! c) !! k = conn_lookup cn c k.
Proof. unfold conn_lookup. destruct (cn !! c); [done|]. simpl. apply lookup_empty. Qed.

Lemma conn_lookup_erase {V : Type} (cn : gmap N (gmap bytes V)) c k c' k' :
  conn_lookup (conn_erase cn c k) c' k' =
    if decide (c' = c ∧ k' = k) then None else conn_lookup cn c' k'.
Proof.
  unfold conn_erase. set (cm := delete k (default ∅ (cn !! c))).
  assert (cm !! k' = if decide (k' = k) then None else conn_lookup cn c k') as Hcm.
  { unfold cm. rewrite lookup_delete, conn_lookup_default. repeat case_decide; naive_solver. }
  destruct (decide (cm = ∅)) as [He|He].
  - rewrite conn_lookup_delete. destruct (decide (c' = c)) as [->|Hne].
    + rewrite He, lookup_empty in Hcm. repeat case_decide; naive_solver.
    + rewrite decide_False by naive_solver. done.
  - rewrite conn_lookup_insert. destruct (decide (c' = c)) as [->|Hne].
    + rewrite Hcm. repeat case_decide; naive_solver.
    + rewrite decide_False by naive_solver. done.
Qed.

(** The scheduler's own way to erase an entry. *)
Lemma conn_erase_eq {V : Type} (cn : gmap N (gmap bytes V)) c k
    `{!Decision (delete k (default ∅ (cn !! c)) = ∅)} :
  (if decide (delete k (default ∅ (cn !! c)) = ∅) then delete c cn
   else <[c := delete k (default ∅ (cn !! c))]> cn) = conn_erase cn c k.
Proof. unfold conn_erase. cbn zeta. by repeat case_decide. Qed.

(** ** The invariant *)

Section inv.
Context `{!NativeU64, !GolpeKeys, !Env} (cfg : Config).
(** A property of the live queries that the operations preserve. *)
Context (Q : DBQuery → Prop).

Record sched_inv (qs : QueryScheduler) : Prop := {
  si_running : NoDup (running qs) ∧ ∀ p, p ∈ running qs ↔ is_Some (heap qs !! p);
  si_conns : ∀ c k p, conn_lookup (conns qs) c k = Some p →
    ∃ q, heap qs !! p = Some q ∧ dead q = false ∧ connId (sub q) = c ∧
      SubId_sv (subId (sub q)) = k;
  si_live : ∀ p q, heap qs !! p = Some q → dead q = false →
    conn_lookup (conns qs) (connId (sub q)) (SubId_sv (subId (sub q))) = Some p ∧ Q q;
  si_limit : ∀ c cm, conns qs !! c = Some cm →
    (N.of_nat (base.size cm) ≤ relay__maxSubsPerConnection cfg)%N;
}.

Lemma sched_inv_empty : sched_inv empty_scheduler.
Proof.
  split; simpl.
  - split; [constructor|]. intros p. rewrite lookup_empty. split; [by intros ?%not_elem_of_nil|].
    by intros [].
  - intros c k p. unfold conn_lookup. by rewrite lookup_empty.
  - intros p q. by rewrite lookup_empty.
  - intros c cm. by rewrite lookup_empty.
Qed.

Lemma erase_limit {V : Type} (cn : gmap N (gmap bytes V)) c k :
  (∀ c cm, cn !! c = Some cm →
    (N.of_nat (base.size cm) ≤ relay__maxSubsPerConnection cfg)%N) →
  ∀ c' cm, conn_erase cn c k !! c' = Some cm →
    (N.of_nat (base.size cm) ≤ relay__maxSubsPerConnection cfg)%N.
Proof.
  intros Hl c' cm. unfold conn_erase. case_decide as He.
  - rewrite lookup_delete. case_decide; [done|apply Hl].
  - rewrite lookup_insert. case_decide as Hc; [|apply Hl]. intros [= <-].
    destruct (cn !! c) as [cm0|] eqn:Hc0; simpl in *; [|by rewrite delete_empty in He].
    specialize (Hl c cm0 Hc0). rewrite map_size_delete. destruct (cm0 !! k); simpl; lia.
Qed.

(** Marking the queries [P] dead and forgetting them. *)
Lemma sched_inv_kill qs h' cn' (P : N → Prop) :
  sched_inv qs →
  (∀ p, P p ∨ ¬ P p) →
  (∀ p, h' !! p = None ↔ heap qs !! p = None) →
  (∀ p q, h' !! p = Some q → if dead q then True else heap qs !! p = Some q ∧ ¬ P p) →
  (∀ p q, heap qs !! p = Some q → ¬ P p → h' !! p = Some q) →
  (∀ c k p, conn_lookup cn' c k = Some p ↔ conn_lookup (conns qs) c k = Some p ∧ ¬ P p) →
  (∀ c cm, cn' !! c = Some cm →
    (N.of_nat (base.size cm) ≤ relay__maxSubsPerConnection cfg)%N) →
  sched_inv (set_conns (set_heap qs h') cn').
Proof.
  intros [[Hnd Hrun] Hconns Hlive Hlim] HP Hdom Hh Hh' Hcn Hl. split; simpl.
  - split; [done|]. intros p. rewrite Hrun, <-!not_eq_None_Some, Hdom. done.
  - intros c k p [Hc HnP]%Hcn. destruct (Hconns c k p Hc) as (q & Hq & Hd & Hid).
    exists q. split; [|done]. by apply Hh'.
  - intros p q Hq Hd. specialize (Hh p q Hq). rewrite Hd in Hh. destruct Hh as [Hq' HnP].
    destruct (Hlive p q Hq' Hd) as [Hl1 HQ]. split; [|done]. by apply Hcn.
  - done.
Qed.

(** ** Removing *)

Lemma removeSub_inv qs c s :
  sched_inv qs → ∃ qs', removeSub qs c s = Ok qs' ∧ sched_inv qs' ∧
    findQuery qs' c s = None ∧ running qs' = running qs ∧ levIdBatch qs' = levIdBatch qs ∧
    ∀ p, findQuery qs c s ≠ Some p → heap qs' !! p = heap qs !! p.
Proof.
  intros Hinv. pose proof (findQuery_lookup qs c s) as Hf. unfold removeSub.
  destruct (findQuery qs c s) as [p|] eqn:Hfind; [|by exists qs].
  destruct (si_conns _ Hinv c (SubId_sv s) p) as (q & Hq & Hd & Hc & Hk); [done|].
  unfold kill. rewrite Hq. simpl. eexists. split; [done|]. rewrite findQuery_lookup. simpl.
  rewrite (conn_erase_eq (conns qs) c (SubId_sv s)). split; [|split; [|split_and!; [done|done|]]].
  - apply (sched_inv_kill qs _ _ (λ p', p' = p)); [done| | | | | |].
    + intros p'. destruct (decide (p' = p)); [by left|by right].
    + intros p'. rewrite lookup_insert. case_decide; [|done]. subst. by rewrite Hq.
    + intros p' q'. rewrite lookup_insert. case_decide as Hp; [by intros [= <-]|].
      intros Hq'. destruct (dead q'); [done|]. split; [done|congruence].
    + intros p' q' Hq' Hne. by rewrite lookup_insert_ne by done.
    + intros c' k' p'. rewrite conn_lookup_erase. case_decide as Hck.
      * destruct Hck as [-> ->]. rewrite <-Hf. split; [done|]. intros [[= ->] []]. done.
      * split; [|tauto]. intros Hl. split; [done|]. intros ->.
        destruct (si_conns _ Hinv c' k' p Hl) as (q' & Hq' & _ & <- & <-).
        rewrite Hq in Hq'. injection Hq' as <-. naive_solver.
    + apply erase_limit, Hinv.
  - rewrite conn_lookup_erase. by rewrite decide_True.
  - intros p' Hne. rewrite lookup_insert_ne by congruence. done.
Qed.

Lemma kill_Some h p q : h !! p = Some q → kill h p = Ok (<[p := mark_dead q]> h).
Proof. unfold kill. by intros ->. Qed.

Lemma kill_all h ps :
  (∀ p, p ∈ ps → is_Some (h !! p)) →
  ∃ h', foldM kill h ps = Ok h' ∧
    ∀ p, h' !! p = if decide (p ∈ ps) then mark_dead <$> h !! p else h !! p.
Proof.
  revert h. induction ps as [|p ps IH]; intros h Hin; cbn [foldM].
  { exists h. split; [done|]. intros p. rewrite decide_False; [done|]. apply not_elem_of_nil. }
  destruct (Hin p ltac:(constructor)) as [q Hq]. rewrite (kill_Some h p q Hq). cbn [mbind result_bind].
  destruct (IH (<[p := mark_dead q]> h)) as (h' & -> & Hh').
  { intros p' Hp'. rewrite lookup_insert_is_Some'. right. apply Hin. by constructor. }
  exists h'. split; [done|]. intros p'. rewrite Hh', lookup_insert.
  destruct (decide (p = p')) as [<-|Hne].
  - rewrite (decide_True _ _ (list_elem_of_here _ _)), Hq. by case_decide.
  - destruct (decide (p' ∈ ps)), (decide (p' ∈ p :: ps)); try done; set_solver.
Qed.

Lemma closeConn_inv qs c :
  sched_inv qs → ∃ qs', closeConn qs c = Ok qs' ∧ sched_inv qs' ∧
    conns qs' !! c = None ∧ running qs' = running qs.
Proof.
  intros Hinv. unfold closeConn. destruct (conns qs !! c) as [cm|] eqn:Hc; [|by exists qs].
  assert (∀ p, p ∈ (map_to_list cm).*2 ↔ ∃ k, conn_lookup (conns qs) c k = Some p) as Hvals.
  { intros p. rewrite list_elem_of_fmap. unfold conn_lookup. rewrite Hc. simpl. split.
    - intros ([k p'] & -> & Hk%elem_of_map_to_list). by exists k.
    - intros [k Hk]. exists (k, p). split; [done|]. by apply elem_of_map_to_list. }
  destruct (kill_all (heap qs) (map_to_list cm).*2) as (h' & -> & Hh').
  { intros p [k (q & Hq & _)%(si_conns _ Hinv)]%Hvals. by exists q. }
  simpl. eexists. split; [done|]. split; [|split; [simpl; by rewrite lookup_delete_eq|done]].
  apply (sched_inv_kill qs _ _ (λ p, p ∈ (map_to_list cm).*2)); [done| | | | | |].
  - intros p. destruct (decide (p ∈ (map_to_list cm).*2)); auto.
  - intros p. rewrite Hh'. case_decide; [|done]. by destruct (heap qs !! p).
  - intros p q. rewrite Hh'. case_decide as Hp; [|by destruct (dead q)].
    destruct (heap qs !! p); [|done]. by intros [= <-].
  - intros p q Hq Hp. rewrite Hh'. by rewrite decide_False.
  - intros c' k p. rewrite conn_lookup_delete, Hvals. case_decide as Hcc.
    + subst. split; [done|]. intros [Hk Hn]. destruct Hn. by exists k.
    + split; [|tauto]. intros Hk. split; [done|]. intros [k' Hk'].
      destruct (si_conns _ Hinv _ _ _ Hk) as (q & Hq & _ & <- & _).
      destruct (si_conns _ Hinv _ _ _ Hk') as (q' & Hq' & _ & <- & _).
      rewrite Hq in Hq'. by injection Hq' as <-.
  - intros c' cm'. rewrite lookup_delete. case_decide; [done|apply Hinv].
Qed.

(** ** Adding *)

Lemma addSub_inv d qs s :
  sched_inv qs → Q (DBQuery_make (set_latestEventId s (getMostRecentLevId d))) →
  ∃ qs' b, addSub cfg d qs s = Ok (qs', b) ∧ sched_inv qs' ∧
    (b = true → ∃ p, findQuery qs' (connId s) (subId s) = Some p ∧
       running qs' = p :: running qs ∧
       heap qs' !! p = Some (DBQuery_make (set_latestEventId s (getMostRecentLevId d)))) ∧
    (b = false → findQuery qs' (connId s) (subId s) = None ∧ running qs' = running qs).
Proof.
  intros Hinv HQ. unfold addSub. set (s' := set_latestEventId s _) in *.
  change (connId s) with (connId s'). change (subId s) with (subId s').
  set (c := connId s'). set (k := SubId_sv (subId s')).
  assert (∃ qs1, (match findQuery qs c (subId s') with
    | Some _ => removeSub qs c (subId s') | None => Ok qs end) = Ok qs1 ∧ sched_inv qs1 ∧
    findQuery qs1 c (subId s') = None ∧ running qs1 = running qs)
    as (qs1 & -> & Hinv1 & Hnone & Hrun).
  { destruct (findQuery qs c (subId s')) eqn:Hf; [|by exists qs].
    destruct (removeSub_inv qs c (subId s') Hinv) as (qs1 & ? & ? & ? & ? & _). by exists qs1. }
  cbn [mbind result_bind]. rewrite findQuery_lookup in Hnone. fold k in Hnone.
  set (cm := default ∅ (conns qs1 !! c)).
  assert (cm !! k = None) as Hck by (unfold cm; by rewrite conn_lookup_default).
  assert (∀ c' k', conn_lookup (<[c := cm]> (conns qs1)) c' k' = conn_lookup (conns qs1) c' k')
    as Hsame.
  { intros c' k'. rewrite conn_lookup_insert. case_decide; [|done]. subst. unfold cm.
    apply conn_lookup_default. }
  destruct Hinv1 as [[Hnd Hr] Hconns Hlive Hlim].
  assert (N.of_nat (base.size cm) ≤ relay__maxSubsPerConnection cfg)%N as Hcmlim.
  { unfold cm. destruct (conns qs1 !! c) eqn:Hc; [by eapply Hlim|]. simpl. rewrite map_size_empty.
    lia. }
  destruct (N.leb_spec (relay__maxSubsPerConnection cfg) (N.of_nat (base.size cm))) as [Hle|Hlt].
  { eexists _, false. split; [done|]. rewrite findQuery_lookup. simpl. rewrite Hsame.
    split; [|split; [done|by fold k]]. split; simpl.
    - done.
    - intros c' k' p'. rewrite Hsame. apply Hconns.
    - intros p' q' Hq' Hd. rewrite Hsame. by apply Hlive.
    - intros c' cm'. rewrite lookup_insert. case_decide; [by intros [= <-]|apply Hlim]. }
  simpl. rewrite Hck. set (p := base.fresh (dom (heap qs1))).
  assert (heap qs1 !! p = None) as Hp.
  { apply not_elem_of_dom. apply is_fresh. }
  eexists _, true. split; [done|]. rewrite findQuery_lookup. simpl. rewrite insert_insert_eq.
  fold c k.
  assert (∀ c' k', conn_lookup (<[c := <[k := p]> cm]> (conns qs1)) c' k' =
    if decide (c' = c ∧ k' = k) then Some p else conn_lookup (conns qs1) c' k') as Hnew.
  { intros c' k'. rewrite conn_lookup_insert. case_decide as Hc; [|by rewrite decide_False by naive_solver].
    subst. rewrite lookup_insert. unfold cm. rewrite conn_lookup_default.
    repeat case_decide; naive_solver. }
  split; [|split; [|done]].
  2:{ intros _. exists p. rewrite Hnew, decide_True by done. rewrite Hrun, lookup_insert_eq. done. }
  split; simpl.
  - split.
    + constructor; [|done]. rewrite Hr, Hp. by intros [].
    + intros p'. rewrite elem_of_cons, Hr, lookup_insert_is_Some'. naive_solver.
  - intros c' k' p'. rewrite Hnew. case_decide as Hck'.
    + intros [= <-]. destruct Hck' as [-> ->]. rewrite lookup_insert_eq. by eexists.
    + intros (q & Hq & Hrest)%Hconns. exists q. rewrite lookup_insert_ne by congruence. done.
  - intros p' q'. rewrite lookup_insert. case_decide as Hpp.
    + subst p'. intros [= <-] _. simpl. fold c k. rewrite Hnew. by rewrite decide_True.
    + intros Hq' Hd. destruct (Hlive p' q' Hq' Hd) as [Hl HQ']. split; [|done].
      rewrite Hnew, decide_False; [done|]. intros [Hc' Hk']. rewrite Hc', Hk' in Hl. congruence.
  - intros c' cm'. rewrite lookup_insert. case_decide; [|apply Hlim]. intros [= <-].
    rewrite map_size_insert_None by done. lia.
Qed.
End inv.

(** What an operation leaves behind. *)

Section live.
Context `{!NativeU64, !GolpeKeys, !Env} (cfg : Config).

Lemma kill_live h p h' p' q : kill h p = Ok h' → h' !! p' = Some q → dead q = false → h !! p' = Some q.
Proof.
  unfold kill. destruct (h !! p) as [q0|] eqn:Hp; [|done]. intros [= <-].
  rewrite lookup_insert. case_decide; [by intros [= <-]|done].
Qed.

Lemma removeSub_live qs c s qs' : removeSub qs c s = Ok qs' →
  levIdBatch qs' = levIdBatch qs ∧
  ∀ p q, heap qs' !! p = Some q → dead q = false → heap qs !! p = Some q.
Proof.
  unfold removeSub. destruct (findQuery qs c s) as [p|]; [|by intros [= <-]].
  destruct (kill (heap qs) p) as [h|] eqn:Hk; [|done]. intros [= <-]. split; [done|].
  intros p' q. simpl. by apply kill_live with p.
Qed.

Lemma closeConn_live qs c qs' : closeConn qs c = Ok qs' →
  levIdBatch qs' = levIdBatch qs ∧
  ∀ p q, heap qs' !! p = Some q → dead q = false → heap qs !! p = Some q.
Proof.
  unfold closeConn. destruct (conns qs !! c) as [cm|]; [|by intros [= <-]].
  destruct (foldM kill (heap qs) (map_to_list cm).*2) as [h|] eqn:Hk; [|done]. intros [= <-].
  split; [done|]. simpl. revert Hk. generalize ((map_to_list cm).*2) (heap qs). intros ps.
  induction ps as [|p ps IH]; intros h0; cbn [foldM]; [by intros [= <-]|].
  destruct (kill h0 p) as [h1|] eqn:H1k; [|done]. cbn [mbind result_bind]. intros Hk p' q Hq Hd.
  eapply kill_live; [done| |done]. by eapply IH.
Qed.

Lemma addSub_live d qs s qs' b : addSub cfg d qs s = Ok (qs', b) →
  levIdBatch qs' = levIdBatch qs ∧
  ∀ p q, heap qs' !! p = Some q → dead q = false → heap qs !! p = Some q ∨
    q = DBQuery_make (set_latestEventId s (getMostRecentLevId d)).
Proof.
  unfold addSub. set (s' := set_latestEventId s _).
  destruct (match findQuery qs (connId s') (subId s') with
    | Some _ => removeSub qs (connId s') (subId s') | None => Ok qs end) as [qs0|] eqn:Hr;
    cbn [mbind result_bind]; [|done].
  assert (levIdBatch qs0 = levIdBatch qs ∧ ∀ p q, heap qs0 !! p = Some q → dead q = false →
    heap qs !! p = Some q) as [Hb0 Hl0].
  { destruct (findQuery qs _ _); [by eapply removeSub_live|by injection Hr as <-]. }
  destruct (_ <=? _)%N; intros [= <- <-]; simpl.
  - split; [done|]. intros p q Hp Hd. left. by apply Hl0.
  - split; [done|]. intros p q. rewrite lookup_insert. case_decide; [intros [= <-]; by right|].
    intros Hp Hd. left. by apply Hl0.
Qed.

(** The other queries are left alone. *)
Definition key_of_query (q : DBQuery) : N * bytes := (connId (sub q), SubId_sv (subId (sub q))).
Definition sub_key (s : Subscription) : N * bytes := (connId s, SubId_sv (subId s)).

Context (Q : DBQuery → Prop).

Lemma removeSub_others qs c s qs' : sched_inv cfg Q qs → removeSub qs c s = Ok qs' →
  ∀ p q, heap qs !! p = Some q → key_of_query q ≠ (c, SubId_sv s) → heap qs' !! p = Some q.
Proof.
  intros Hinv Hr p q Hp Hk. destruct (removeSub_inv cfg Q qs c s Hinv) as (qs1 & Hr1 & _ & _ & _ & _ & Hh).
  rewrite Hr in Hr1. injection Hr1 as <-. rewrite Hh; [done|]. intros Hf.
  rewrite findQuery_lookup in Hf. destruct (si_conns _ _ _ Hinv _ _ _ Hf) as (q1 & Hq1 & _ & Hc & Hs).
  rewrite Hp in Hq1. injection Hq1 as <-. unfold key_of_query in Hk. congruence.
Qed.

Lemma closeConn_others qs c qs' : sched_inv cfg Q qs → closeConn qs c = Ok qs' →
  ∀ p q, heap qs !! p = Some q → connId (sub q) ≠ c → heap qs' !! p = Some q.
Proof.
  intros Hinv. unfold closeConn. destruct (conns qs !! c) as [cm|] eqn:Hc; [|by intros [= <-]].
  assert (∀ p, p ∈ (map_to_list cm).*2 → ∃ q, heap qs !! p = Some q ∧ connId (sub q) = c) as Hin.
  { intros p ([k p'] & -> & Hk%elem_of_map_to_list)%list_elem_of_fmap.
    destruct (si_conns _ _ _ Hinv c k p') as (q & ? & _ & ? & _); [|by exists q].
    unfold conn_lookup. rewrite Hc. done. }
  destruct (kill_all Q (heap qs) (map_to_list cm).*2) as (h' & -> & Hh').
  { intros p (q & ? & _)%Hin. by exists q. }
  intros [= <-] p q Hp Hne. simpl. rewrite Hh', decide_False; [done|].
  intros (q1 & Hq1 & Hc1)%Hin. congruence.
Qed.

Lemma addSub_others d qs s qs' b : sched_inv cfg Q qs → addSub cfg d qs s = Ok (qs', b) →
  ∀ p q, heap qs !! p = Some q → key_of_query q ≠ sub_key s → heap qs' !! p = Some q.
Proof.
  intros Hinv. unfold addSub. set (s' := set_latestEventId s _).
  destruct (match findQuery qs (connId s') (subId s') with
    | Some _ => removeSub qs (connId s') (subId s') | None => Ok qs end) as [qs0|] eqn:Hr;
    cbn [mbind result_bind]; [|done].
  assert (∀ p q, heap qs !! p = Some q → key_of_query q ≠ sub_key s → heap qs0 !! p = Some q) as Hold.
  { destruct (findQuery qs _ _); [by eapply removeSub_others|by injection Hr as <-]. }
  destruct (_ <=? _)%N; intros [= <- <-] p q Hp Hk; simpl; [by apply Hold|].
  specialize (Hold p q Hp Hk). rewrite lookup_insert_ne; [done|]. intros <-.
  destruct (is_fresh (dom (heap qs0))). by apply elem_of_dom_2 in Hold.
Qed.
End live.

(** The scheduler never follows a dangling pointer, and drains: on one snapshot
    of the database, processing turns alone complete every query. *)

Import Scheduler.

(** ** What a query's turn leaves alone *)

Lemma process_frame `{!NativeU64, !GolpeKeys, !Env} {B} (cb : B → N → result B) clock d budget
    q b t c q' b' t' :
  DBQuery.process cb clock d budget q b t = Ok (c, q', b', t') →
  sub q' = sub q ∧ dead q' = dead q.
Proof.
  unfold DBQuery.process. generalize (length (filterGroup (sub q)) - filterGroupIndex q) as n.
  intros n. revert q b t. induction n as [|n IH]; intros q b t; cbn [process_loop].
  { by intros [= _ <- _ _]. }
  destruct (filterGroup (sub q) !! filterGroupIndex q) as [f|]; [|by intros [= _ <- _ _]].
  destruct (match scanner q with Some _ => _ | None => _ end) as [s|]; [|done].
  cbn [mbind result_bind].
  destruct (scan _ _ _ _ _ _ _) as [[[[[|] s'] [[full' curr'] b1]] [last' t1]]|];
    cbn [mbind result_bind]; [|by intros [= _ <- _ _]|done].
  intros Hrest%IH. exact Hrest.
Qed.

(** ** Steps *)

Section steps.
Context `{!NativeU64, !GolpeKeys, !Env} (cfg : Config).
Context {W : Type} (ensureExists : bool).
Context (onEvent : option (W → Subscription → N → bytes → result W)).
Context (onEventBatch : option (W → Subscription → list N → result W)).
Context (onComplete : option (W → Subscription → result W)).
Context (clock : nat → N).

Abbreviation sched_process := (process cfg ensureExists onEvent onEventBatch onComplete clock).
Abbreviation turn d q w batch t := (DBQuery.process
  (on_found ensureExists onEvent onEventBatch d (sub q)) clock d
  (relay__queryTimesliceBudgetMicroseconds cfg) q (w, batch) t).

(** What [after_turn] makes of the batch of a turn. *)
Definition batch_reported (w : W) (s : Subscription) (batch : list N) : result W :=
  match onEventBatch with Some h => h w s batch | None => Ok w end.

(** The next turn throws [e]: it is the turn of a live query, which throws
    [e] itself; or it ends and the batch's callback throws [e] on what it found;
    or it completes and the completion's callback throws [e] after that. *)
Inductive turn_fails (d : env) (qs : QueryScheduler) (w : W) (t : nat) (e : exn) (q : DBQuery) : Prop :=
  | fails_in_query : turn d q w (levIdBatch qs) t = Throw e → turn_fails d qs w t e q
  | fails_in_batch c q' w1 batch t1 : turn d q w (levIdBatch qs) t = Ok (c, q', (w1, batch), t1) →
      batch_reported w1 (sub q) batch = Throw e → turn_fails d qs w t e q
  | fails_in_complete q' w1 batch t1 w2 h :
      turn d q w (levIdBatch qs) t = Ok (true, q', (w1, batch), t1) →
      batch_reported w1 (sub q) batch = Ok w2 → onComplete = Some h → h w2 (sub q) = Throw e →
      turn_fails d qs w t e q.

Definition next_turn_fails (d : env) (qs : QueryScheduler) (w : W) (t : nat) (e : exn) : Prop :=
  ∃ p rest q, running qs = p :: rest ∧ heap qs !! p = Some q ∧ dead q = false ∧
    turn_fails d qs w t e q.

Context (Q : DBQuery → Prop).

Lemma removeSub_running qs l c s qs' :
  removeSub qs c s = Ok qs' → removeSub (set_running qs l) c s = Ok (set_running qs' l).
Proof.
  unfold removeSub. change (findQuery (set_running qs l) c s) with (findQuery qs c s).
  destruct (findQuery qs c s) as [p|]; [|by intros [= <-]]. simpl.
  destruct (kill (heap qs) p) as [h|]; [|done]. by intros [= <-].
Qed.

(** The front query leaves the table. *)
Lemma sched_inv_drop qs p rest q :
  sched_inv cfg Q qs → running qs = p :: rest → heap qs !! p = Some q → dead q = true →
  sched_inv cfg Q (set_heap (set_running qs rest) (delete p (heap qs))).
Proof.
  intros [[Hnd Hr] Hconns Hlive Hlim] Hrun Hq Hd. rewrite Hrun in Hnd, Hr.
  apply NoDup_cons in Hnd as [Hp Hnd]. split; simpl; [|clear Hr| |done].
  - split; [done|]. intros p'. rewrite lookup_delete_is_Some, <-Hr, elem_of_cons. naive_solver.
  - intros c k p' (q' & Hq' & Hd' & Hid)%Hconns. exists q'. rewrite lookup_delete_ne; [done|].
    intros ->. congruence.
  - intros p' q' [_ Hq']%lookup_delete_Some Hd'. by apply Hlive.
Qed.

(** The front query changes without dying; its place in [running] is free. *)
Lemma sched_inv_rotate qs p rest q q' batch l :
  sched_inv cfg Q qs → running qs = p :: rest → heap qs !! p = Some q → dead q = false →
  sub q' = sub q → dead q' = dead q → Q q' → l ≡ₚ p :: rest →
  sched_inv cfg Q (mk_qs (conns qs) l batch (<[p := q']> (heap qs))).
Proof.
  intros [[Hnd Hr] Hconns Hlive Hlim] Hrun Hq Hd Hs Hd' HQ Hl. rewrite Hrun in Hnd, Hr.
  split; simpl; [| | |done].
  - split; [by rewrite Hl|]. intros p'.
    rewrite Hl, Hr, lookup_insert_is_Some'. split; [auto|]. intros [<-|?]; [by rewrite Hq|done].
  - intros c k p' (q1 & Hq1 & Hd1 & Hid)%Hconns. rewrite lookup_insert. case_decide as Hp.
    + subst p'. rewrite Hq in Hq1. injection Hq1 as <-. exists q'. by rewrite Hs, Hd'.
    + by exists q1.
  - intros p' q1. rewrite lookup_insert. case_decide as Hp.
    + subst p'. intros [= <-] _. rewrite Hs. split; [|done]. by apply Hlive.
    + by apply Hlive.
Qed.

(** One turn of a live query: what [process] does with its result. *)
Lemma process_turn d qs w t p rest q :
  running qs = p :: rest → heap qs !! p = Some q → dead q = false →
  sched_process d qs w t =
    (r ← turn d q w (levIdBatch qs) t;
     let '(complete, q', (w, batch), t) := r in
     r ← after_turn onEventBatch onComplete
           (mk_qs (conns qs) rest batch (<[p := q']> (heap qs))) p q' complete w;
     let '(qs, w) := r in Ok (qs, w, t)).
Proof. intros Hrun Hq Hd. unfold process. by rewrite Hrun; simpl; rewrite Hq, Hd. Qed.

Lemma after_turn_paused qs p q w :
  match after_turn onEventBatch onComplete qs p q false w with
  | Ok (qs', w') => ∃ batch, qs' = mk_qs (conns qs) (running qs ++ [p]) batch (heap qs)
  | Throw e => batch_reported w (sub q) (levIdBatch qs) = Throw e
  end.
Proof.
  unfold after_turn, batch_reported. destruct onEventBatch as [h|]; simpl; [|by exists (levIdBatch qs)].
  destruct (h w (sub q) (levIdBatch qs)) as [w'|e] eqn:Hh; simpl; [by eexists|done].
Qed.

Lemma after_turn_complete qs p q w :
  sched_inv cfg Q (mk_qs (conns qs) (p :: running qs) (levIdBatch qs) (heap qs)) →
  heap qs !! p = Some q → dead q = false →
  match after_turn onEventBatch onComplete qs p q true w with
  | Ok (qs', w') => sched_inv cfg Q qs' ∧ running qs' = running qs ∧
      (∀ p', p' ≠ p → heap qs' !! p' = heap qs !! p') ∧ heap qs' !! p = None
  | Throw e => batch_reported w (sub q) (levIdBatch qs) = Throw e ∨
      (∃ h w', batch_reported w (sub q) (levIdBatch qs) = Ok w' ∧ onComplete = Some h ∧
        h w' (sub q) = Throw e)
  end.
Proof.
  intros Hinv Hq Hd. unfold after_turn, batch_reported.
  assert (∀ batch w, match
    qs' ← removeSub (set_levIdBatch qs batch) (connId (sub q)) (subId (sub q));
    w' ← (match onComplete with Some h => h w (sub q) | None => Ok w end);
    Ok (set_heap qs' (delete p (heap qs')), w') with
    | Ok (qs', w') => sched_inv cfg Q qs' ∧ running qs' = running qs ∧
        (∀ p', p' ≠ p → heap qs' !! p' = heap qs !! p') ∧ heap qs' !! p = None
    | Throw e => ∃ h, onComplete = Some h ∧ h w (sub q) = Throw e
    end) as Hdone.
  { intros batch w0.
    set (qs0 := mk_qs (conns qs) (p :: running qs) batch (heap qs)).
    assert (sched_inv cfg Q qs0) as Hinv0 by (by destruct Hinv; split).
    assert (findQuery qs0 (connId (sub q)) (subId (sub q)) = Some p) as Hfind.
    { rewrite findQuery_lookup. by apply (si_live _ _ _ Hinv). }
    destruct (removeSub_inv cfg Q qs0 (connId (sub q)) (subId (sub q)) Hinv0)
      as (qs1 & Heq & Hinv1 & Hnone & Hrun1 & Hbatch1 & Hheap1).
    change (set_levIdBatch qs batch) with (set_running qs0 (running qs)).
    rewrite (removeSub_running _ (running qs) _ _ _ Heq).
    cbn [mbind result_bind].
    assert (∃ q1, heap qs1 !! p = Some q1 ∧ dead q1 = true) as (q1 & Hq1 & Hd1).
    { assert (p ∈ running qs1) as Hin by (rewrite Hrun1; constructor).
      apply (proj2 (si_running _ _ _ Hinv1)) in Hin as [q1 Hq1]. exists q1. split; [done|].
      destruct (dead q1) eqn:Hd1; [done|exfalso].
      assert (sub q1 = sub q) as Hsub.
      { revert Heq Hq1. unfold removeSub. rewrite Hfind. unfold kill. simpl. rewrite Hq. simpl.
        intros [= <-]. simpl. rewrite lookup_insert_eq. by intros [= <-]. }
      rewrite findQuery_lookup, <-Hsub in Hnone.
      destruct (si_live _ _ _ Hinv1 p q1 Hq1 Hd1) as [Hl _]. congruence. }
    destruct (match onComplete with Some h => h w0 (sub q) | None => Ok w0 end) as [w1|e] eqn:Hc.
    - simpl. split; [|split; [done|split; [|apply lookup_delete_eq]]].
      + by eapply (sched_inv_drop qs1 p (running qs) q1).
      + intros p' Hne. rewrite lookup_delete_ne by done. apply Hheap1. congruence.
    - simpl. destruct onComplete as [h|]; [|done]. by exists h. }
  destruct onEventBatch as [h|]; simpl.
  - destruct (h w (sub q) (levIdBatch qs)) as [w1|e] eqn:Hh; simpl; [|by left].
    specialize (Hdone [] w1). destruct (removeSub _ _ _) as [qs'|]; simpl in *.
    + destruct (match onComplete with Some _ => _ | None => _ end); simpl in *; [done|].
      destruct Hdone as (h' & ? & ?). right. by exists h', w1.
    + destruct Hdone as (h' & ? & ?). right. by exists h', w1.
  - specialize (Hdone (levIdBatch qs) w).
    change (set_levIdBatch qs (levIdBatch qs)) with (mk_qs (conns qs) (running qs) (levIdBatch qs) (heap qs)) in Hdone.
    destruct qs; simpl in *. destruct (removeSub _ _ _) as [qs'|]; simpl in *.
    + destruct (match onComplete with Some _ => _ | None => _ end); simpl in *; [done|].
      destruct Hdone as (h' & ? & ?). right. by exists h', w.
    + destruct Hdone as (h' & ? & ?). right. by exists h', w.
Qed.

(** The calls the scheduler makes. *)
Inductive sched_call :=
  | CallEvent (s : Subscription) (levId : N) (payload : bytes)
  | CallBatch (s : Subscription) (levIds : list N)
  | CallComplete (s : Subscription).

Definition call_sub (c : sched_call) : Subscription :=
  match c with CallEvent s _ _ | CallBatch s _ | CallComplete s => s end.

Definition make_call (w : W) (c : sched_call) : result W :=
  match c with
  | CallEvent s l p => match onEvent with Some h => h w s l p | None => Ok w end
  | CallBatch s ls => batch_reported w s ls
  | CallComplete s => match onComplete with Some h => h w s | None => Ok w end
  end.

(** Events without a payload are passed over when the caller asks for it. *)
Definition visible (d : env) (l : N) : bool :=
  if ensureExists then bool_decide (is_Some (EventPayload (tables d) !! l)) else true.

Definition payload_of (d : env) (l : N) : bytes :=
  if ensureExists then default [] (EventPayload (tables d) !! l) else [].

Definition batch_calls (s : Subscription) (ls : list N) : list sched_call :=
  match onEventBatch with Some _ => [CallBatch s ls] | None => [] end.

(** What the caller sees of the events [T]. *)
Definition seen (d : env) (T : list N) : list N := filter (λ l, visible d l = true) T.

(** A turn in which the query of [s] reports the events [T]. *)
Definition slice (d : env) (s : Subscription) (T : list N) : list sched_call :=
  ((λ l, CallEvent s l (payload_of d l)) <$> seen d T) ++ batch_calls s (seen d T).

Lemma on_found_calls d s T w batch w' batch' :
  foldM (on_found ensureExists onEvent onEventBatch d s) (w, batch) T = Ok (w', batch') →
  foldM make_call w ((λ l, CallEvent s l (payload_of d l)) <$> seen d T) = Ok w' ∧
  batch' = match onEventBatch with Some _ => batch ++ seen d T | None => batch end.
Proof.
  unfold seen. revert w batch. induction T as [|l T IH]; intros w batch; cbn [foldM].
  { intros [= <- <-]. split; [done|]. rewrite app_nil_r. by destruct onEventBatch. }
  unfold on_found at 2. rewrite filter_cons.
  assert ((if ensureExists then EventPayload (tables d) !! l else Some []) =
    if visible d l then Some (payload_of d l) else None) as ->.
  { unfold visible, payload_of. destruct ensureExists; [|done].
    case_bool_decide as He; [by destruct He as [p ->]|]. by apply eq_None_not_Some in He. }
  destruct (visible d l); [rewrite decide_True by done|rewrite decide_False by done; apply IH].
  rewrite fmap_cons. cbn [foldM make_call].
  destruct (match onEvent with Some h => _ | None => _ end) as [w1|]; cbn [mbind result_bind]; [|done].
  intros [? ->]%IH. split; [done|]. destruct onEventBatch; [by rewrite <-app_assoc|done].
Qed.

Lemma after_turn_calls qs p q c w qs' w' :
  after_turn onEventBatch onComplete qs p q c w = Ok (qs', w') →
  foldM make_call w (batch_calls (sub q) (levIdBatch qs) ++ if c then [CallComplete (sub q)] else []) =
    Ok w' ∧
  levIdBatch qs' = match onEventBatch with Some _ => [] | None => levIdBatch qs end.
Proof.
  unfold after_turn, batch_calls. rewrite foldM_app. unfold batch_reported in *.
  assert (∀ qs0 w0, (if c then
      qs1 ← removeSub qs0 (connId (sub q)) (subId (sub q));
      w1 ← match onComplete with Some h => h w0 (sub q) | None => Ok w0 end;
      Ok (set_heap qs1 (delete p (heap qs1)), w1)
    else Ok (set_running qs0 (running qs0 ++ [p]), w0)) = Ok (qs', w') →
    foldM make_call w0 (if c then [CallComplete (sub q)] else []) = Ok w' ∧
    levIdBatch qs' = levIdBatch qs0) as Hend.
  { intros qs0 w0. destruct c; [|by intros [= <- <-]].
    destruct (removeSub qs0 _ _) as [qs1|] eqn:Hr; cbn [mbind result_bind]; [|done].
    apply removeSub_live in Hr as [Hb _]. cbn [foldM make_call].
    destruct (match onComplete with Some _ => _ | None => _ end); cbn [mbind result_bind]; [|done].
    by intros [= <- <-]. }
  destruct onEventBatch as [h|] eqn:Hb; cbn [foldM mbind result_bind make_call].
  - unfold batch_reported. rewrite Hb.
    destruct (h w (sub q) (levIdBatch qs)) as [w1|]; cbn [mbind result_bind]; [|done]. apply Hend.
  - apply Hend.
Qed.

Lemma process_inv d qs w t :
  sched_inv cfg Q qs →
  (∀ q w0 b0 t0 c q' b' t', Q q → turn d q w0 b0 t0 = Ok (c, q', b', t') → Q q') →
  match sched_process d qs w t with
  | Ok (qs', _, _) => sched_inv cfg Q qs'
  | Throw e => next_turn_fails d qs w t e
  end.
Proof.
  intros Hinv HQ. destruct (running qs) as [|p rest] eqn:Hrun.
  { unfold process. by rewrite Hrun. }
  assert (is_Some (heap qs !! p)) as [q Hq].
  { apply (proj2 (si_running _ _ _ Hinv)). rewrite Hrun. constructor. }
  destruct (dead q) eqn:Hd.
  { unfold process. rewrite Hrun. simpl. rewrite Hq, Hd. by eapply sched_inv_drop. }
  rewrite (process_turn d qs w t p rest q Hrun Hq Hd).
  destruct (turn d q w (levIdBatch qs) t) as [[[[c q'] [w' batch]] t']|e] eqn:Hturn;
    cbn [mbind result_bind];
    [|by exists p, rest, q; split_and!; [..|by apply fails_in_query]].
  pose proof (process_frame _ _ _ _ _ _ _ _ _ _ _ Hturn) as [Hs Hd'].
  assert (Q q') as HQ' by (eapply HQ; [by apply (si_live _ _ _ Hinv p q)|done]).
  pose proof (λ l, sched_inv_rotate qs p rest q q' batch l Hinv Hrun Hq Hd Hs Hd' HQ') as Hrot.
  set (qs1 := mk_qs (conns qs) rest batch (<[p := q']> (heap qs))). destruct c.
  - pose proof (after_turn_complete qs1 p q' w' (Hrot (p :: rest) (reflexivity _))
      (lookup_insert_eq _ _ _)) as Hafter. rewrite Hd', Hd in Hafter. specialize (Hafter eq_refl).
    destruct (after_turn _ _ _ _ _ _ _) as [[qs2 w2]|e]; cbn [mbind result_bind]; [by destruct Hafter|].
    rewrite Hs in Hafter. exists p, rest, q. split_and!; [done..|].
    destruct Hafter as [?|(h & w2 & ? & ? & ?)]; [by eapply fails_in_batch|by eapply fails_in_complete].
  - pose proof (after_turn_paused qs1 p q' w') as Hafter.
    destruct (after_turn _ _ _ _ _ _ _) as [[qs2 w2]|e]; cbn [mbind result_bind].
    + destruct Hafter as [batch' ->]. simpl.
      eapply sched_inv_rotate; try done. by rewrite <-Permutation_cons_append.
    + rewrite Hs in Hafter. exists p, rest, q. split_and!; [done..|]. by eapply fails_in_batch.
Qed.
End steps.

(** ** Sequences of operations *)

Inductive sched_op :=
  | OpAdd (s : Subscription)
  | OpRemove (c : N) (s : SubId)
  | OpClose (c : N)
  | OpProcess.

Section sequences.
Context `{!NativeU64, !GolpeKeys, !Env} (cfg : Config).
Context {W : Type} (ensureExists : bool).
Context (onEvent : option (W → Subscription → N → bytes → result W)).
Context (onEventBatch : option (W → Subscription → list N → result W)).
Context (onComplete : option (W → Subscription → result W)).
Context (clock : nat → N).

Definition sched_state : Type := QueryScheduler * W * nat.

Definition run_op (d : env) (st : sched_state) (op : sched_op) : result sched_state :=
  let '(qs, w, t) := st in
  match op with
  | OpAdd s => r ← addSub cfg d qs s; Ok (r.1, w, t)
  | OpRemove c s => qs ← removeSub qs c s; Ok (qs, w, t)
  | OpClose c => qs ← closeConn qs c; Ok (qs, w, t)
  | OpProcess => process cfg ensureExists onEvent onEventBatch onComplete clock d qs w t
  end.

(** Each operation runs on its own snapshot of the database. *)
Definition run_ops (st : sched_state) (ops : list (env * sched_op)) : result sched_state :=
  foldM (λ st '(d, op), run_op d st op) st ops.

Lemma run_op_inv Q d st op :
  sched_inv cfg Q st.1.1 →
  (∀ s, op = OpAdd s → Q (DBQuery_make (set_latestEventId s (getMostRecentLevId d)))) →
  (∀ q w0 b0 t0 c q' b' t', Q q →
    DBQuery.process (on_found ensureExists onEvent onEventBatch d (sub q)) clock d
      (relay__queryTimesliceBudgetMicroseconds cfg) q (w0, b0) t0 = Ok (c, q', b', t') → Q q') →
  match run_op d st op with
  | Ok st' => sched_inv cfg Q st'.1.1
  | Throw e => op = OpProcess ∧ next_turn_fails cfg ensureExists onEvent onEventBatch onComplete clock
      d st.1.1 st.1.2 st.2 e
  end.
Proof.
  destruct st as [[qs w] t]. simpl. intros Hinv Hadd Hturn. destruct op as [s|c s|c|]; simpl.
  - destruct (addSub_inv cfg Q d qs s Hinv (Hadd s eq_refl)) as (qs' & b & -> & Hinv' & _). done.
  - destruct (removeSub_inv cfg Q qs c s Hinv) as (qs' & -> & Hinv' & _). done.
  - destruct (closeConn_inv cfg Q qs c Hinv) as (qs' & -> & Hinv' & _). done.
  - pose proof (process_inv cfg ensureExists onEvent onEventBatch onComplete clock Q d qs w t
      Hinv Hturn) as Hp.
    by destruct (process _ _ _ _ _ _ _ _ _ _) as [[[qs' w'] t']|e].
Qed.

Lemma run_ops_inv ops st :
  sched_inv cfg (λ _, True) st.1.1 →
  match run_ops st ops with
  | Ok st' => sched_inv cfg (λ _, True) st'.1.1
  | Throw e => ∃ before d after st1, ops = before ++ (d, OpProcess) :: after ∧
      run_ops st before = Ok st1 ∧
      next_turn_fails cfg ensureExists onEvent onEventBatch onComplete clock
        d st1.1.1 st1.1.2 st1.2 e
  end.
Proof.
  revert st. induction ops as [|[d op] ops IH]; intros st Hinv; [done|].
  unfold run_ops. cbn [foldM].
  pose proof (run_op_inv (λ _, True) d st op Hinv (λ _ _, I) (λ _ _ _ _ _ _ _ _ _ _, I)) as Hop.
  destruct (run_op d st op) as [st'|e] eqn:Hst; cbn [mbind result_bind].
  - specialize (IH st' Hop). unfold run_ops in IH. destruct (foldM _ st' ops) as [?|e]; [done|].
    destruct IH as (before & d' & after & st1 & -> & Hb & Hf).
    exists ((d, op) :: before), d', after, st1. split; [done|]. split; [|done].
    cbn [foldM]. by rewrite Hst.
  - destruct Hop as [-> Hf]. by exists [], d, ops, st.
Qed.

(** ** Callbacks that do not fail *)

Section calm.
Context (HonEvent : ∀ h, onEvent = Some h → ∀ w s l p, ∃ w', h w s l p = Ok w').
Context (HonEventBatch : ∀ h, onEventBatch = Some h → ∀ w s ls, ∃ w', h w s ls = Ok w').
Context (HonComplete : ∀ h, onComplete = Some h → ∀ w s, ∃ w', h w s = Ok w').

Lemma on_found_total d s : ∀ st l, ∃ st', on_found ensureExists onEvent onEventBatch d s st l = Ok st'.
Proof.
  intros [w batch] l. unfold on_found.
  destruct (if ensureExists then _ else _) as [p|]; [|by eexists].
  destruct onEvent as [h|]; [|by eexists].
  destruct (HonEvent h eq_refl w s l p) as [w' ->]. by eexists.
Qed.

(** An operation goes through when the turns of the live queries do. *)
Lemma op_total Q d st op :
  sched_inv cfg Q st.1.1 →
  (∀ s, op = OpAdd s → Q (DBQuery_make (set_latestEventId s (getMostRecentLevId d)))) →
  (∀ q w0 b0 t0, Q q → ∃ c q' b' t',
    DBQuery.process (on_found ensureExists onEvent onEventBatch d (sub q)) clock d
      (relay__queryTimesliceBudgetMicroseconds cfg) q (w0, b0) t0 = Ok (c, q', b', t') ∧ Q q') →
  ∃ st', run_op d st op = Ok st' ∧ sched_inv cfg Q st'.1.1.
Proof.
  intros Hinv Hadd Hturn. pose proof (run_op_inv Q d st op Hinv Hadd) as Hop.
  match type of Hop with ?P → _ => assert P as Hkeep end.
  { intros q w0 b0 t0 c q' b' t' HQ Hrun.
    destruct (Hturn q w0 b0 t0 HQ) as (c1 & q1 & b1 & t1 & Heq & HQ1).
    rewrite Hrun in Heq. by injection Heq as -> -> -> ->. }
  specialize (Hop Hkeep). destruct (run_op d st op) as [st'|e]; [by exists st'|].
  exfalso. destruct Hop as (_ & p & rest & q & _ & Hq & Hd & Hf).
  destruct (si_live _ _ _ Hinv p q Hq Hd) as [_ HQ].
  destruct (Hturn q st.1.2 (levIdBatch st.1.1) st.2 HQ) as (c & q1 & b1 & t1 & Heq & _).
  destruct Hf as [?|? ? w1 ? ? _ Hb|? w1 ? ? w2 h _ _ Hh Hc]; [congruence| |].
  - unfold batch_reported in Hb. destruct onEventBatch as [h|]; [|done].
    destruct (HonEventBatch h eq_refl w1 (sub q) batch). congruence.
  - destruct (HonComplete h Hh w2 (sub q)). congruence.
Qed.

(** Snapshots may change between the turns. *)
Lemma sane_ops_run ops st :
  sched_inv cfg query_sane st.1.1 →
  (∀ d op, (d, op) ∈ ops → (∃ m, scan_db d m) ∧
    ∀ s, op = OpAdd s → Forall scan_filter (filterGroup s)) →
  ∃ st', run_ops st ops = Ok st' ∧ sched_inv cfg query_sane st'.1.1.
Proof.
  revert st. induction ops as [|[d op] ops IH]; intros st Hinv Hops; [by exists st|].
  destruct (Hops d op ltac:(constructor)) as [[m Hdb] Hadd].
  destruct (op_total query_sane d st op Hinv) as (st1 & Hst & Hinv1).
  - intros s Hs. apply query_sane_make. exact (Hadd s Hs).
  - intros q w0 b0 t0 Hq. eapply process_total; [done|apply on_found_total|done].
  - unfold run_ops. cbn [foldM]. rewrite Hst. apply IH; [done|]. intros. apply Hops. by constructor.
Qed.

(** ** Draining *)

Section snapshot.
Context (d : env) (m : gmap N event) (Hdb : scan_db d m).
Context (Hsize : (N.of_nat (base.size m) < 68719476736)%N).

Definition on_track (q : DBQuery) : Prop :=
  ready q ∧ (∃ T, query_left d m q T) ∧ ∃ r, query_rank d m q r.

Abbreviation found_cb q := (on_found ensureExists onEvent onEventBatch d (sub q)).
Abbreviation budget := (relay__queryTimesliceBudgetMicroseconds cfg).

Lemma foldM_total {S A} (f : S → A → result S) (l : list A) :
  (∀ s a, ∃ s', f s a = Ok s') → ∀ s, ∃ s', foldM f s l = Ok s'.
Proof.
  intros Hf. induction l as [|a l IH]; intros s; [by exists s|]. simpl.
  destruct (Hf s a) as [s' ->]. apply IH.
Qed.

(** A turn of a query on the snapshot: it reports the next events of [T], stays
    on track, and lowers the query's rank unless it completes. *)
Lemma turn_on_track q w b t r T :
  ready q → query_left d m q T → query_rank d m q r →
  ∃ c q' b' t' T1 T2, DBQuery.process (found_cb q) clock d budget q (w, b) t = Ok (c, q', b', t') ∧
    on_track q' ∧ T = T1 ++ T2 ∧ foldM (found_cb q) (w, b) T1 = Ok b' ∧ (c = true → T2 = []) ∧
    query_left d m q' T2 ∧ ∃ r', query_rank d m q' r' ∧ (c = false → r' < r).
Proof.
  intros Hready Hl Hrank.
  pose proof (process_left d m Hdb (found_cb q) clock budget q T (w, b) t Hready Hl) as Hp.
  pose proof (process_loop_rank d m Hdb (found_cb q) clock Hsize _ budget q r (w, b) t
    Hready Hrank eq_refl) as Hr.
  fold (DBQuery.process (found_cb q) clock d budget q (w, b) t) in Hr.
  destruct (DBQuery.process _ _ _ _ _ _ _) as [[[[c q'] b'] t']|e].
  - destruct Hr as (r' & Hlt & Hr' & Hs). exists c, q', b', t'.
    assert (∃ T1 T2, T = T1 ++ T2 ∧ foldM (found_cb q) (w, b) T1 = Ok b' ∧ (c = true → T2 = []) ∧
      query_left d m q' T2) as (T1 & T2 & HT & Hf & Hc & Hl').
    { destruct c; simpl in Hp.
      - destruct Hp as (Hf & Hl' & _). exists T, []. rewrite app_nil_r. by split_and!.
      - destruct Hp as (T1 & T2 & HT & Hf & Hl' & _). by exists T1, T2. }
    exists T1, T2. split_and!; try done; [|by exists r'].
    split; [unfold ready in *; by rewrite Hs|]. split; [by exists T2|by exists r'].
  - exfalso. destruct (foldM_total (found_cb q) T (on_found_total d (sub q)) (w, b)) as [st' Heq].
    unfold process_ok in Hp. congruence.
Qed.

(** The calls the scheduler makes in a run. *)
Abbreviation calls_run := (foldM (make_call onEvent onEventBatch onComplete)).
Abbreviation slice_of := (slice ensureExists onEventBatch d).

(** The turn of the live query in front, seen from the caller and the queues. *)
Lemma live_turn qs w t p rest q r T :
  sched_inv cfg on_track qs → levIdBatch qs = [] → running qs = p :: rest →
  heap qs !! p = Some q → dead q = false → query_left d m q T → query_rank d m q r →
  ∃ qs' w' t' T1 T2, run_op d (qs, w, t) OpProcess = Ok (qs', w', t') ∧
    sched_inv cfg on_track qs' ∧ levIdBatch qs' = [] ∧ T = T1 ++ T2 ∧
    (∀ p', p' ≠ p → heap qs' !! p' = heap qs !! p') ∧
    ((running qs' = rest ∧ heap qs' !! p = None ∧ T2 = [] ∧
        calls_run w (slice_of (sub q) T1 ++ [CallComplete (sub q)]) = Ok w') ∨
     (∃ q' r', running qs' = rest ++ [p] ∧ heap qs' !! p = Some q' ∧ sub q' = sub q ∧
        dead q' = false ∧ query_left d m q' T2 ∧ query_rank d m q' r' ∧ r' < r ∧
        calls_run w (slice_of (sub q) T1) = Ok w')).
Proof.
  intros Hinv Hbatch Hrun Hq Hd Hl Hr. destruct (si_live _ _ _ Hinv p q Hq Hd) as [_ (Hready & _)].
  destruct (turn_on_track q w [] t r T Hready Hl Hr) as
    (c & q' & [w1 batch] & t1 & T1 & T2 & Hturn & Htrack' & HT & Hf & Hc & Hl' & r' & Hr' & Hlt).
  apply (on_found_calls ensureExists onEvent onEventBatch onComplete) in Hf as [Hf ->].
  pose proof (process_frame _ _ _ _ _ _ _ _ _ _ _ Hturn) as [Hs Hd'].
  pose proof (λ b l, sched_inv_rotate cfg on_track qs p rest q q' b l Hinv Hrun Hq Hd Hs Hd'
    Htrack') as Hrot. rewrite Hd in Hd'.
  destruct (op_total on_track d (qs, w, t) OpProcess Hinv) as ([[qs2 w2] t2] & Hop & Hinv2).
  { done. }
  { intros q0 w0 b0 t0 (Hready0 & [T0 Hl0] & [r0 Hr0]).
    destruct (turn_on_track q0 w0 b0 t0 r0 T0 Hready0 Hl0 Hr0) as (? & ? & ? & ? & ? & ? & ? & ? & _).
    by eexists _, _, _, _. }
  exists qs2, w2, t2, T1, T2. split; [done|]. split; [done|]. revert Hop. simpl.
  rewrite (process_turn cfg ensureExists onEvent onEventBatch onComplete clock d qs w t p rest q
    Hrun Hq Hd), Hbatch, Hturn. cbn [mbind result_bind].
  set (L := seen ensureExists d T1) in *. set (batch := match onEventBatch with Some _ => _ | None => _ end).
  set (qs1 := mk_qs (conns qs) rest batch (<[p := q']> (heap qs))).
  assert (heap qs1 !! p = Some q') as Hq1 by apply lookup_insert_eq.
  destruct (after_turn onEventBatch onComplete qs1 p q' c w1) as [[qs3 w3]|e] eqn:Hafter;
    cbn [mbind result_bind]; [|done]. intros [= -> -> ->].
  pose proof (after_turn_calls onEvent onEventBatch onComplete _ _ _ _ _ _ _ Hafter) as [Hcalls Hb]. rewrite Hs in Hcalls.
  assert (batch_calls onEventBatch (sub q) (levIdBatch qs1) = batch_calls onEventBatch (sub q) L)
    as Hbc by (unfold batch_calls; simpl; unfold batch; by destruct onEventBatch).
  rewrite Hbc in Hcalls.
  split. { rewrite Hb. simpl. unfold batch. by destruct onEventBatch. }
  split; [done|]. destruct c.
  - pose proof (after_turn_complete cfg onEventBatch onComplete on_track qs1 p q' w1
      (Hrot batch _ (reflexivity _)) Hq1 Hd') as Ha.
    rewrite Hafter in Ha. destruct Ha as (_ & -> & Hheap & Hnone). split.
    { intros p' Hp'. rewrite Hheap by done. simpl. by rewrite lookup_insert_ne. }
    left. split_and!; try done; [by apply Hc|]. unfold slice. fold L.
    by rewrite <-app_assoc, foldM_app, Hf.
  - pose proof (after_turn_paused onEventBatch onComplete qs1 p q' w1) as Ha.
    rewrite Hafter in Ha. destruct Ha as [batch' ->]. simpl. split.
    { intros p' Hp'. by rewrite lookup_insert_ne. }
    right. exists q', r'. split_and!; try done; [by apply Hlt|].
    unfold slice. fold L. rewrite app_nil_r in Hcalls. by rewrite foldM_app, Hf.
Qed.

(** The turns the running queries can still take. *)
Inductive turns (h : gmap N DBQuery) : list N → nat → Prop :=
  | turns_nil : turns h [] 0
  | turns_cons p l q r n : h !! p = Some q → (dead q = false → query_rank d m q r) →
      turns h l n → turns h (p :: l) (S r + n).

Lemma turns_app h l1 l2 n1 n2 : turns h l1 n1 → turns h l2 n2 → turns h (l1 ++ l2) (n1 + n2).
Proof.
  induction 1 as [|p l q r n Hp Hr Hl IH]; intros Hl2; [done|]. simpl.
  rewrite <-Nat.add_assoc. apply (turns_cons _ _ _ q); auto.
Qed.

Lemma turns_mono h h' l n :
  turns h l n → (∀ p, p ∈ l → h' !! p = h !! p) → turns h' l n.
Proof.
  induction 1 as [|p l q r n Hp Hr Hl IH]; intros Heq; [constructor|].
  apply (turns_cons _ _ _ q); [by rewrite Heq by constructor|done|].
  apply IH. intros. apply Heq. by constructor.
Qed.

Lemma turns_exist qs : sched_inv cfg on_track qs → ∃ n, turns (heap qs) (running qs) n.
Proof.
  intros Hinv. assert (∀ p, p ∈ running qs → is_Some (heap qs !! p)) as Hin.
  { intros p. apply (si_running _ _ _ Hinv). }
  revert Hin. induction (running qs) as [|p l IH]; intros Hin; [exists 0; constructor|].
  destruct IH as [n Hn]; [intros; apply Hin; by constructor|].
  destruct (Hin p ltac:(constructor)) as [q Hq]. destruct (dead q) eqn:Hd.
  - exists (1 + n). eapply (turns_cons _ _ _ q 0); [done|congruence|done].
  - destruct (si_live _ _ _ Hinv p q Hq Hd) as [_ (_ & _ & r & Hr)].
    exists (S r + n). by apply (turns_cons _ _ _ q).
Qed.

(** Every turn lowers the number of turns left. *)
Lemma process_drains qs w t n :
  sched_inv cfg on_track qs → levIdBatch qs = [] → turns (heap qs) (running qs) n →
  ∃ qs' w' t', run_op d (qs, w, t) OpProcess = Ok (qs', w', t') ∧ sched_inv cfg on_track qs' ∧
    levIdBatch qs' = [] ∧
    ∃ n', turns (heap qs') (running qs') n' ∧ (n' < n ∨ n' = 0 ∧ running qs' = []).
Proof.
  intros Hinv Hbatch Hturns. destruct (running qs) as [|p rest] eqn:Hrun.
  { simpl. unfold process. rewrite Hrun. exists qs, w, t. split; [done|]. split; [done|].
    split; [done|]. exists 0. rewrite Hrun. split; [constructor|by right]. }
  inversion Hturns as [|? ? q r n' Hq Hr Hrest]. subst p l n.
  assert (p0 ∉ rest) as Hp.
  { pose proof (proj1 (si_running _ _ _ Hinv)) as Hnd. rewrite Hrun in Hnd.
    by apply NoDup_cons in Hnd as [? _]. }
  destruct (dead q) eqn:Hd.
  { simpl. unfold process. rewrite Hrun. simpl. rewrite Hq, Hd. eexists _, w, t. split; [done|].
    split; [by eapply sched_inv_drop|]. split; [done|]. exists n'. split; [|left; lia]. simpl.
    eapply turns_mono; [done|]. intros p' Hp'. rewrite lookup_delete_ne; [done|congruence]. }
  destruct (si_live _ _ _ Hinv p0 q Hq Hd) as [_ (_ & [T Hl] & _)].
  destruct (live_turn qs w t p0 rest q r T Hinv Hbatch Hrun Hq Hd Hl (Hr eq_refl)) as
    (qs' & w' & t' & T1 & T2 & Hop & Hinv' & Hb' & _ & Hheap & Hcase).
  exists qs', w', t'. split; [done|]. split; [done|]. split; [done|].
  assert (turns (heap qs') rest n') as Hrest'.
  { eapply turns_mono; [done|]. intros p' Hp'. apply Hheap. congruence. }
  destruct Hcase as [(-> & _)|(q' & r' & -> & Hq' & _ & _ & _ & Hr' & Hlt & _)].
  - exists n'. split; [done|left; lia].
  - exists (n' + (S r' + 0)). split; [|left; lia]. apply turns_app; [done|].
    by apply (turns_cons _ _ _ q'); [|intros _|constructor].
Qed.

(** Any operation goes through. *)
Lemma op_runs st op : sched_inv cfg on_track st.1.1 → levIdBatch st.1.1 = [] →
  (∀ s, op = OpAdd s → Forall scan_filter (filterGroup s)) →
  ∃ st', run_op d st op = Ok st' ∧ sched_inv cfg on_track st'.1.1 ∧ levIdBatch st'.1.1 = [].
Proof.
  destruct st as [[qs w0] t0]. cbn [fst]. intros Hinv Hb Hop. destruct op as [s|c s|c|].
  - destruct (addSub_inv cfg on_track d qs s Hinv) as (qs' & b & Heq & Hq & _).
    { split; [exact (Hop s eq_refl)|]. split; [eexists; by apply query_left_make|].
      eexists. by apply rank_make. }
    exists (qs', w0, t0). split; [simpl; by rewrite Heq|]. split; [done|].
    apply addSub_live in Heq as [Heq _]. simpl. congruence.
  - destruct (removeSub_inv cfg on_track qs c s Hinv) as (qs' & Heq & Hq & _).
    exists (qs', w0, t0). split; [simpl; by rewrite Heq|]. split; [done|].
    apply removeSub_live in Heq as [Heq _]. simpl. congruence.
  - destruct (closeConn_inv cfg on_track qs c Hinv) as (qs' & Heq & Hq & _).
    exists (qs', w0, t0). split; [simpl; by rewrite Heq|]. split; [done|].
    apply closeConn_live in Heq as [Heq _]. simpl. congruence.
  - destruct (turns_exist qs Hinv) as [n Hn].
    destruct (process_drains qs w0 t0 n Hinv Hb Hn) as (qs' & w' & t' & Heq & Hinv' & Hb' & _).
    by exists (qs', w', t').
Qed.

Abbreviation here := (fmap (λ op, (d, op))).

Lemma run_ops_cons st op l :
  run_ops st (here (op :: l)) = (st' ← run_op d st op; run_ops st' (here l)).
Proof. done. Qed.

Lemma ops_run l st : sched_inv cfg on_track st.1.1 → levIdBatch st.1.1 = [] →
  (∀ s, OpAdd s ∈ l → Forall scan_filter (filterGroup s)) →
  ∃ st', run_ops st (here l) = Ok st' ∧ sched_inv cfg on_track st'.1.1 ∧ levIdBatch st'.1.1 = [].
Proof.
  revert st. induction l as [|op l IH]; intros st Hinv Hb Hin; [by exists st|].
  rewrite run_ops_cons.
  destruct (op_runs st op Hinv Hb) as (st1 & -> & Hinv1 & Hb1).
  { intros s ->. apply Hin. by constructor. }
  apply IH; [done..|]. intros s Hs. apply Hin. by constructor.
Qed.

(** As many turns as are left, or more, leave nothing. *)
Lemma turns_drain k st n : sched_inv cfg on_track st.1.1 → levIdBatch st.1.1 = [] →
  turns (heap st.1.1) (running st.1.1) n → n ≤ k →
  ∃ qs' w' t', run_ops st (here (replicate k OpProcess)) = Ok (qs', w', t') ∧
    running qs' = [] ∧ heap qs' = ∅.
Proof.
  destruct st as [[qs w] t]. cbn [fst]. revert qs w t n.
  induction k as [|k IH]; intros qs w t n Hinv Hb Hn Hk.
  - exists qs, w, t. split; [done|]. assert (running qs = []) as Hr by (inversion Hn; [done|lia]).
    split; [done|]. apply map_empty. intros p. destruct (heap qs !! p) eqn:Hp; [|done].
    destruct (not_elem_of_nil p). rewrite <-Hr. apply (si_running _ _ _ Hinv). by rewrite Hp.
  - destruct (process_drains qs w t n Hinv Hb Hn)
      as (qs' & w' & t' & Heq & Hinv' & Hb' & n' & Hn' & Hlt).
    cbn [replicate]. rewrite run_ops_cons, Heq. cbn [mbind result_bind].
    apply (IH qs' w' t' n' Hinv' Hb' Hn'). lia.
Qed.

(** ** One subscription, from when it was added *)

Section watch.
Context (s : Subscription).

Definition calls_at (calls : list sched_call) : list sched_call :=
  filter (λ c, sub_key (call_sub c) = sub_key s) calls.

(** The operation leaves the subscription in place. *)
Definition spares_sub (op : sched_op) : Prop :=
  match op with
  | OpAdd s' => sub_key s' ≠ sub_key s
  | OpRemove c k => (c, SubId_sv k) ≠ sub_key s
  | OpClose c => c ≠ connId s
  | OpProcess => True
  end.

Definition no_query (qs : QueryScheduler) : Prop :=
  ∀ p q, heap qs !! p = Some q → dead q = false → key_of_query q ≠ sub_key s.

(** How far the answer to [s] got: [T] is what has to be reported. *)
Inductive watched (qs : QueryScheduler) (T : list N) (calls : list sched_call) : Prop :=
  | watching p q T2 Ts : heap qs !! p = Some q → dead q = false → sub q = s →
      query_left d m q T2 → T = mjoin Ts ++ T2 → calls = mjoin (slice_of s <$> Ts) →
      watched qs T calls
  | answered Ts : no_query qs → T = mjoin Ts →
      calls = mjoin (slice_of s <$> Ts) ++ [CallComplete s] → watched qs T calls.

Lemma watched_frame qs qs' T calls :
  (∀ p q, heap qs !! p = Some q → dead q = false → key_of_query q = sub_key s →
    heap qs' !! p = Some q) →
  (∀ p q, heap qs' !! p = Some q → dead q = false → key_of_query q = sub_key s →
    heap qs !! p = Some q) →
  watched qs T calls → watched qs' T calls.
Proof.
  intros Hto Hfrom [p q T2 Ts Hp Hd Hs Hl HT Hc|Ts Hno HT Hc].
  - eapply watching; try done. apply Hto; [done..|]. unfold key_of_query. by rewrite Hs.
  - eapply answered; try done. intros p q Hp Hd Hk. by apply (Hno p q); [apply Hfrom| |].
Qed.

Lemma calls_at_slice s' T : calls_at (slice_of s' T) =
  if decide (sub_key s' = sub_key s) then slice_of s' T else [].
Proof.
  unfold slice, batch_calls. generalize (seen ensureExists d T). clear.
  intros seen. unfold calls_at. rewrite filter_app.
  assert (filter (λ c, sub_key (call_sub c) = sub_key s)
    ((λ l, CallEvent s' l (payload_of ensureExists d l)) <$> seen) =
    if decide (sub_key s' = sub_key s)
    then (λ l, CallEvent s' l (payload_of ensureExists d l)) <$> seen else []) as ->.
  { induction seen as [|l L IH]; [by case_decide|]. rewrite fmap_cons, filter_cons, IH.
    cbn [call_sub]. by case_decide. }
  destruct onEventBatch; [rewrite filter_cons|]; cbn [call_sub]; by case_decide.
Qed.

Lemma calls_at_none s' calls : sub_key s' ≠ sub_key s → (∀ c, c ∈ calls → call_sub c = s') →
  calls_at calls = [].
Proof.
  intros Hne Hall. unfold calls_at. apply elem_of_nil_inv. intros c [Hk Hc]%list_elem_of_filter.
  by rewrite (Hall c Hc) in Hk.
Qed.

Lemma slice_subs s' T c : c ∈ slice_of s' T → call_sub c = s'.
Proof.
  unfold slice, batch_calls. intros [(l & -> & _)%list_elem_of_fmap|Hc]%elem_of_app; [done|].
  destruct onEventBatch; [|by apply not_elem_of_nil in Hc]. by apply list_elem_of_singleton in Hc as ->.
Qed.

Lemma calls_at_own T : calls_at (slice_of s T) = slice_of s T ∧
  calls_at (slice_of s T ++ [CallComplete s]) = slice_of s T ++ [CallComplete s].
Proof.
  assert (∀ calls, (∀ c, c ∈ calls → call_sub c = s) → calls_at calls = calls) as Hall.
  { intros calls Hc. unfold calls_at. apply filter_all. intros c Hin. by rewrite Hc. }
  split; apply Hall; [apply slice_subs|].
  intros c [?%slice_subs|Hc]%elem_of_app; [done|]. by apply list_elem_of_singleton in Hc as ->.
Qed.

Lemma live_unique qs p q p' q' : sched_inv cfg on_track qs → heap qs !! p = Some q → dead q = false →
  heap qs !! p' = Some q' → dead q' = false → key_of_query q = key_of_query q' → p = p'.
Proof.
  intros Hinv Hp Hd Hp' Hd' [= Hc Hk]. destruct (si_live _ _ _ Hinv p q Hp Hd) as [Hl _].
  destruct (si_live _ _ _ Hinv p' q' Hp' Hd') as [Hl' _]. congruence.
Qed.

(** A turn of the watched subscription's own query. *)
Lemma watched_turn qs w t st' T calls p rest q :
  sched_inv cfg on_track qs → levIdBatch qs = [] → running qs = p :: rest →
  heap qs !! p = Some q → dead q = false → key_of_query q = sub_key s →
  run_op d (qs, w, t) OpProcess = Ok st' → watched qs T calls →
  ∃ new, calls_run w new = Ok st'.1.2 ∧ watched st'.1.1 T (calls ++ calls_at new).
Proof.
  intros Hinv Hbatch Hrun Hq Hd Hkey Hop Hw.
  destruct Hw as [p1 q1 T2 Ts Hp1 Hd1 Hs1 Hl -> ->|Ts Hno _ _]; [|by destruct (Hno p q)].
  assert (p1 = p) as ->.
  { apply (live_unique qs p1 q1 p q); try done. rewrite Hkey. unfold key_of_query. by rewrite Hs1. }
  rewrite Hq in Hp1. injection Hp1 as <-.
  destruct (si_live _ _ _ Hinv p q Hq Hd) as [_ (_ & _ & r & Hr)].
  destruct (live_turn qs w t p rest q r T2 Hinv Hbatch Hrun Hq Hd Hl Hr) as
    (qs' & w' & t' & U1 & U2 & Hop' & _ & _ & -> & Hheap & Hcase).
  rewrite Hop in Hop'. injection Hop' as ->. cbn [fst snd]. rewrite Hs1 in Hcase.
  destruct (calls_at_own U1) as [Hown1 Hown2].
  destruct Hcase as [(_ & Hnone & -> & Hcalls)|(q' & r' & _ & Hq' & Hs' & Hd' & Hl' & _ & _ & Hcalls)].
  - eexists. split; [exact Hcalls|]. apply (answered _ _ _ (Ts ++ [U1])).
    + intros p' q' Hp' Hd' Hk. destruct (decide (p' = p)) as [->|Hne]; [congruence|].
      rewrite Hheap in Hp' by done. apply Hne. apply (live_unique qs p' q' p q); try done. congruence.
    + rewrite join_app. simpl. by rewrite !app_nil_r.
    + rewrite Hown2, fmap_app, join_app. simpl. by rewrite app_nil_r, <-app_assoc.
  - eexists. split; [exact Hcalls|]. apply (watching _ _ _ p q' U2 (Ts ++ [U1])); try done.
    + rewrite join_app. simpl. by rewrite app_nil_r, <-app_assoc.
    + rewrite Hown1, fmap_app, join_app. simpl. by rewrite app_nil_r.
Qed.

(** A turn of the scheduler. *)
Lemma watched_process qs w t st' T calls :
  sched_inv cfg on_track qs → levIdBatch qs = [] →
  run_op d (qs, w, t) OpProcess = Ok st' → watched qs T calls →
  ∃ new, calls_run w new = Ok st'.1.2 ∧ watched st'.1.1 T (calls ++ calls_at new).
Proof.
  intros Hinv Hbatch Hop Hw. destruct (running qs) as [|p rest] eqn:Hrun.
  { simpl in Hop. unfold process in Hop. rewrite Hrun in Hop. injection Hop as <-.
    exists []. split; [done|]. by rewrite app_nil_r. }
  assert (is_Some (heap qs !! p)) as [q Hq].
  { apply (proj2 (si_running _ _ _ Hinv)). rewrite Hrun. constructor. }
  destruct (dead q) eqn:Hd.
  { simpl in Hop. unfold process in Hop. rewrite Hrun in Hop. simpl in Hop. rewrite Hq, Hd in Hop.
    injection Hop as <-. exists []. split; [done|]. rewrite app_nil_r.
    apply (watched_frame qs); [| |done]; intros p' q' Hp' Hd' _; simpl.
    - rewrite lookup_delete_ne; [done|congruence].
    - simpl in Hp'. by apply lookup_delete_Some in Hp' as [_ ?]. }
  destruct (decide (key_of_query q = sub_key s)) as [Hkey|Hkey].
  { by apply (watched_turn qs w t st' T calls p rest q). }
  destruct (si_live _ _ _ Hinv p q Hq Hd) as [_ (_ & [T0 Hl] & r & Hr)].
  destruct (live_turn qs w t p rest q r T0 Hinv Hbatch Hrun Hq Hd Hl Hr) as
    (qs' & w' & t' & T1 & T2 & Hop' & _ & _ & _ & Hheap & Hcase).
  rewrite Hop in Hop'. injection Hop' as ->. cbn [fst snd].
  assert (watched qs' T calls) as Hw'.
  { apply (watched_frame qs); [| |done].
    - intros p' q' Hp' Hd' Hk. rewrite Hheap; [done|]. intros ->. congruence.
    - intros p' q' Hp' Hd' Hk. destruct (decide (p' = p)) as [->|Hne]; [|by rewrite <-Hheap].
      destruct Hcase as [(_ & Hnone & _)|(q1 & r' & _ & Hq1 & Hs1 & _)]; [congruence|].
      rewrite Hq1 in Hp'. injection Hp' as <-. unfold key_of_query in *. by rewrite Hs1 in Hk. }
  assert (∃ new, calls_run w new = Ok w' ∧ ∀ c, c ∈ new → call_sub c = sub q) as (new & Hcalls & Hsub).
  { destruct Hcase as [(_ & _ & _ & Hcalls)|(? & ? & _ & _ & _ & _ & _ & _ & _ & Hcalls)];
      (eexists; split; [exact Hcalls|]); [|apply slice_subs].
    intros c [?%slice_subs|Hc]%elem_of_app; [done|]. by apply list_elem_of_singleton in Hc as ->. }
  exists new. split; [done|]. by rewrite (calls_at_none (sub q)), app_nil_r.
Qed.

(** Any operation that spares the subscription. *)
Lemma watched_op st st' op T calls :
  sched_inv cfg on_track st.1.1 → levIdBatch st.1.1 = [] → spares_sub op →
  run_op d st op = Ok st' → watched st.1.1 T calls →
  ∃ new, calls_run st.1.2 new = Ok st'.1.2 ∧ watched st'.1.1 T (calls ++ calls_at new).
Proof.
  destruct st as [[qs w] t]. cbn [fst snd]. intros Hinv Hb Hsp Hop Hw.
  destruct op as [s'|c k|c|]; [| | |by apply (watched_process qs w t)]; simpl in Hsp, Hop.
  - destruct (addSub cfg d qs s') as [[qs' b]|] eqn:Ha; [|done]. injection Hop as <-.
    exists []. split; [done|]. rewrite app_nil_r. apply (watched_frame qs); [| |done].
    + intros p q Hp _ Hk. eapply addSub_others; [done|done|done|congruence].
    + intros p q Hp Hd Hk. destruct (addSub_live _ _ _ _ _ _ Ha) as [_ Hlive].
      destruct (Hlive p q Hp Hd) as [?| ->]; [done|]. by destruct Hsp.
  - destruct (removeSub qs c k) as [qs'|] eqn:Hr; [|done]. injection Hop as <-.
    exists []. split; [done|]. rewrite app_nil_r. apply (watched_frame qs); [| |done].
    + intros p q Hp _ Hk. eapply removeSub_others; [done|done|done|congruence].
    + intros p q Hp Hd _. by eapply removeSub_live.
  - destruct (closeConn qs c) as [qs'|] eqn:Hr; [|done]. injection Hop as <-.
    exists []. split; [done|]. rewrite app_nil_r. apply (watched_frame qs); [| |done].
    + intros p q Hp _ Hk. eapply closeConn_others; [done|done|done|].
      intros <-. injection Hk as Hc _. by rewrite Hc in Hsp.
    + intros p q Hp Hd _. by eapply closeConn_live.
Qed.

Lemma watched_ops l st st' T calls :
  sched_inv cfg on_track st.1.1 → levIdBatch st.1.1 = [] → Forall spares_sub l →
  (∀ s', OpAdd s' ∈ l → Forall scan_filter (filterGroup s')) →
  run_ops st (here l) = Ok st' → watched st.1.1 T calls →
  ∃ new, calls_run st.1.2 new = Ok st'.1.2 ∧ watched st'.1.1 T (calls ++ calls_at new).
Proof.
  revert st calls. induction l as [|op l IH]; intros st calls Hinv Hb Hsp Hadd.
  { intros [= <-] Hw. exists []. split; [done|]. by rewrite app_nil_r. }
  apply Forall_cons in Hsp as [Hop Hsp]. rewrite run_ops_cons.
  destruct (op_runs st op Hinv Hb) as (st1 & Hrun & Hinv1 & Hb1).
  { intros s' ->. apply Hadd. by constructor. }
  rewrite Hrun. cbn [mbind result_bind]. intros Hl Hw.
  destruct (watched_op st st1 op T calls Hinv Hb Hop Hrun Hw) as (new1 & Hc1 & Hw1).
  destruct (IH st1 _ Hinv1 Hb1 Hsp (λ s' Hs', Hadd s' (list_elem_of_further _ _ _ Hs')) Hl Hw1)
    as (new2 & Hc2 & Hw2).
  exists (new1 ++ new2). split; [by rewrite foldM_app, Hc1|].
  unfold calls_at in *. by rewrite filter_app, app_assoc.
Qed.
End watch.
End snapshot.
End calm.

(** C8: whatever operations the scheduler runs, on whatever snapshots of the
    database, it follows no dangling pointer.  Its tables stay consistent and
    below the connection limit.  A run that throws got to a turn that fails:
    the live query in front, on the state reached there, throws the exception
    itself, or the callback throws it on the batch the turn found, or on its
    completion.  And when every snapshot is a database queries can run on and
    the callbacks do not fail, nothing throws - the snapshots may change while
    queries are paused. *)
Theorem scheduler_safe ops w t :
  match run_ops (empty_scheduler, w, t) ops with
  | Ok (qs, _, _) => sched_inv cfg (λ _, True) qs
  | Throw e => ∃ before d after qs w1 t1, ops = before ++ (d, OpProcess) :: after ∧
      run_ops (empty_scheduler, w, t) before = Ok (qs, w1, t1) ∧
      next_turn_fails cfg ensureExists onEvent onEventBatch onComplete clock d qs w1 t1 e
  end ∧
  ((∀ h, onEvent = Some h → ∀ w s l p, ∃ w', h w s l p = Ok w') →
   (∀ h, onEventBatch = Some h → ∀ w s ls, ∃ w', h w s ls = Ok w') →
   (∀ h, onComplete = Some h → ∀ w s, ∃ w', h w s = Ok w') →
   (∀ d op, (d, op) ∈ ops → (∃ m, scan_db d m) ∧
      ∀ s, op = OpAdd s → Forall scan_filter (filterGroup s)) →
   ∃ st, run_ops (empty_scheduler, w, t) ops = Ok st).
Proof.
  split.
  - pose proof (run_ops_inv ops (empty_scheduler, w, t) (sched_inv_empty _ _)) as Hrun.
    destruct (run_ops _ ops) as [[[qs w'] t']|e]; [done|].
    destruct Hrun as (before & d & after & [[qs w1] t1] & ? & ? & ?).
    by exists before, d, after, qs, w1, t1.
  - intros He Hb Hc Hops.
    destruct (sane_ops_run He Hb Hc ops (empty_scheduler, w, t)) as (st & ? & _); [|done|by exists st].
    apply sched_inv_empty.
Qed.
End sequences.

(** C9: on one snapshot of the database, after any operations, turns alone
    complete every query, as long as the callbacks do not fail: after a bounded
    number of them nothing is running and no query is left.  A subscription that
    was accepted and then neither removed, replaced nor closed was answered in
    full: of all the calls made since, those for its connection and name are
    one slice for each turn of its query, which together hand over exactly the
    events it asks for, each once and in the order of its filters' answers,
    and then one call of [onComplete]. *)
Theorem scheduler_drains `{!NativeU64, !GolpeKeys, !Env} cfg {W} ensureExists
    (onEvent : option (W → Subscription → N → bytes → result W)) onEventBatch onComplete clock
    d m ops w t :
  scan_db d m → (N.of_nat (base.size m) < 68719476736)%N →
  (∀ h, onEvent = Some h → ∀ w s l p, ∃ w', h w s l p = Ok w') →
  (∀ h, onEventBatch = Some h → ∀ w s ls, ∃ w', h w s ls = Ok w') →
  (∀ h, onComplete = Some h → ∀ w s, ∃ w', h w s = Ok w') →
  (∀ s, OpAdd s ∈ ops → Forall scan_filter (filterGroup s)) →
  let run st l := run_ops cfg ensureExists onEvent onEventBatch onComplete clock st
                    ((λ op, (d, op)) <$> l) in
  ∃ turns, ∀ k, turns ≤ k → ∃ qs w' t',
    run (empty_scheduler, w, t) (ops ++ replicate k OpProcess) = Ok (qs, w', t') ∧
    running qs = [] ∧ heap qs = ∅ ∧
    ∀ before s after qs1 w1 t1 qs2, ops = before ++ OpAdd s :: after →
      run (empty_scheduler, w, t) before = Ok (qs1, w1, t1) →
      addSub cfg d qs1 s = Ok (qs2, true) → Forall (spares_sub s) after →
      let s0 := set_latestEventId s (getMostRecentLevId d) in
      ∃ calls Ts, foldM (make_call onEvent onEventBatch onComplete) w1 calls = Ok w' ∧
        mjoin Ts = todo m (getMostRecentLevId d) (filterGroup s) ∅ ∧
        calls_at s calls =
          mjoin (slice ensureExists onEventBatch d s0 <$> Ts) ++ [CallComplete s0].
Proof.
  intros Hdb Hsize He Hb Hc Hops run.
  destruct (ops_run cfg ensureExists onEvent onEventBatch onComplete clock He Hb Hc d m Hdb Hsize
    ops (empty_scheduler, w, t)) as (st & Hq & Hinv & Hbatch); [apply sched_inv_empty|done|done|].
  destruct (turns_exist cfg d m st.1.1 Hinv) as [n Hn]. exists n. intros k Hk.
  destruct (turns_drain cfg ensureExists onEvent onEventBatch onComplete clock He Hb Hc d m Hdb Hsize
    k st n Hinv Hbatch Hn Hk) as (qs & w' & t' & Hk' & Hrun & Hheap).
  exists qs, w', t'. split.
  { unfold run, run_ops in *. by rewrite fmap_app, foldM_app, Hq. }
  split; [done|]. split; [done|].
  intros before s after qs1 w1 t1 qs2 -> Hbefore Hadd Hsp s0.
  destruct (ops_run cfg ensureExists onEvent onEventBatch onComplete clock He Hb Hc d m Hdb Hsize
    before (empty_scheduler, w, t)) as (st1 & Hst1 & Hinv1 & Hb1); [apply sched_inv_empty|done| |].
  { intros s' Hs'. apply Hops, elem_of_app. by left. }
  unfold run in Hbefore. rewrite Hbefore in Hst1. injection Hst1 as <-. cbn [fst] in Hinv1, Hb1.
  destruct (addSub_inv cfg (on_track d m) d qs1 s Hinv1) as (qs3 & b & Hadd' & Hinv2 & Hyes & _).
  { split; [apply (Hops s), elem_of_app; right; constructor|].
    split; [eexists; by apply query_left_make|]. eexists. by apply rank_make. }
  rewrite Hadd in Hadd'. injection Hadd' as <- <-. destruct (Hyes eq_refl) as (p & _ & _ & Hp).
  destruct (watched_ops cfg ensureExists onEvent onEventBatch onComplete clock He Hb Hc d m Hdb Hsize
    s0 (after ++ replicate k OpProcess) (qs2, w1, t1) (qs, w', t')
    (todo m (getMostRecentLevId d) (filterGroup s) ∅) []) as (new & Hnew & Hw).
  - done.
  - apply addSub_live in Hadd as [Hb2 _]. simpl. congruence.
  - apply Forall_app. split; [done|]. by apply Forall_replicate.
  - intros s' [Hs'|[[=] _]%elem_of_replicate]%elem_of_app. apply Hops, elem_of_app. right. by constructor.
  - unfold run_ops in *. rewrite fmap_app, foldM_app, Hbefore in Hq.
    rewrite fmap_cons in Hq. cbn [mbind result_bind foldM run_op] in Hq.
    rewrite Hadd in Hq. cbn [mbind result_bind fst] in Hq. by rewrite fmap_app, foldM_app, Hq.
  - apply (watching _ _ _ _ _ _ _ _ p (DBQuery_make s0) (todo m (getMostRecentLevId d) (filterGroup s) ∅) []);
      try done. apply (query_left_make d m s0).
  - destruct Hw as [p' q' ? ? Hp' _ _ _ _ _|Ts _ HT Hcalls]; [simpl in Hp'; by rewrite Hheap, lookup_empty in Hp'|].
    by exists new, Ts.
Qed.
