(* ===== verification/HttpUtil.v ===== *)
(** Helpers of the HTTP server ([HttpServer.cpp]): address validation, text
    that is safe to log or to return, the client's address and public key.

    A request is read through the accessors of the HTTP library, which are the
    fields of [Request] here. *)

From S2P Require Import Prelude Bytes Json EventParse.

(** ** Requests and responses *)

Record Request := mk_request {
  method : bytes;
  path : bytes;
  body : bytes;
  has_header : bytes → bool;
  get_header_value : bytes → bytes;
  get_param_value : bytes → bytes;
  req_matches : list bytes;
  remote_addr : bytes;
}.

(** ** Characters *)

Definition is_digit (c : ascii) : bool := (48 <=? byteN c)%N && (byteN c <=? 57)%N.

Definition is_hex_char (c : ascii) : bool :=
  is_digit c || ((97 <=? byteN c)%N && (byteN c <=? 102)%N) ||
  ((65 <=? byteN c)%N && (byteN c <=? 70)%N).

Definition digit_value (c : ascii) : N := (byteN c - 48)%N.

(** [s.rfind(c)] *)
Fixpoint rfind_char (s : bytes) (c : ascii) : option nat :=
  match s with
  | [] => None
  | x :: s =>
      match rfind_char s c with
      | Some i => Some (S i)
      | None => if char_eqb x c then Some 0 else None
      end
  end.

Definition contains_char (s : bytes) (c : ascii) : bool := existsb (char_eqb c) s.

Definition contains_sub (s p : bytes) : bool :=
  match find_sub s p with Some _ => true | None => false end.

(** ** [isValidIPv4] *)

Record ipv4_state := mk_ipv4 {
  octets : N;
  currentValue : N;
  digitCount : N;
  lastWasDot : bool;
}.

(** The loop body; [None] where it returns [false]. *)
Definition ipv4_step (st : ipv4_state) (c : ascii) : option ipv4_state :=
  if char_eqb c "." then
    if lastWasDot st || (digitCount st =? 0)%N then None
    else if (255 <? currentValue st)%N then None
    else Some (mk_ipv4 (octets st + 1) 0 0 true)
  else if is_digit c then
    if (digitCount st =? 1)%N && (currentValue st =? 0)%N then None
    else
      let v := (currentValue st * 10 + digit_value c)%N in
      if (255 <? v)%N then None
      else if (3 <? digitCount st + 1)%N then None
      else Some (mk_ipv4 (octets st) v (digitCount st + 1) false)
  else None.

Fixpoint ipv4_loop (s : bytes) (st : ipv4_state) : option ipv4_state :=
  match s with
  | [] => Some st
  | c :: s => st ← ipv4_step st c; ipv4_loop s st
  end.

Definition isValidIPv4 (ip : bytes) : bool :=
  if (length ip =? 0) || (15 <? length ip) then false
  else
    match ipv4_loop ip (mk_ipv4 0 0 0 true) with
    | None => false
    | Some st =>
        if lastWasDot st || (digitCount st =? 0)%N then false
        else if (255 <? currentValue st)%N then false
        else (octets st + 1 =? 4)%N
    end.

(** ** [isValidIPv6] *)

Record ipv6_state := mk_ipv6 {
  colonCount : N;
  doubleColonCount : N;
  groupCount : N;
  hexDigits : N;
  lastWasColon : bool;
}.

(** The loop; [None] where it returns [false], and a dot breaks it. *)
Fixpoint ipv6_loop (s : bytes) (st : ipv6_state) : option ipv6_state :=
  match s with
  | [] => Some st
  | c :: s =>
      if char_eqb c ":" then
        if lastWasColon st then
          let d := (doubleColonCount st + 1)%N in
          if (1 <? d)%N then None
          else ipv6_loop s (mk_ipv6 (colonCount st + 1) d (groupCount st) (hexDigits st) true)
        else if (0 <? hexDigits st)%N then
          ipv6_loop s (mk_ipv6 (colonCount st + 1) (doubleColonCount st) (groupCount st + 1) 0 true)
        else
          ipv6_loop s (mk_ipv6 (colonCount st + 1) (doubleColonCount st) (groupCount st)
            (hexDigits st) true)
      else if char_eqb c "." then Some st
      else if is_hex_char c then
        let h := (hexDigits st + 1)%N in
        if (4 <? h)%N then None
        else ipv6_loop s (mk_ipv6 (colonCount st) (doubleColonCount st) (groupCount st) h false)
      else None
  end.

(** The suffix after the last colon, when there is one. *)
Definition ipv4_suffix (ip : bytes) : option bytes :=
  match rfind_char ip ":" with
  | Some i => if S i <? length ip then Some (drop (S i) ip) else None
  | None => None
  end.

Definition suffix_ok (ip : bytes) : bool :=
  match ipv4_suffix ip with
  | Some suffix => if contains_char suffix "." then isValidIPv4 suffix else true
  | None => true
  end.

Definition isValidIPv6 (ip : bytes) : bool :=
  if (length ip =? 0) || (45 <? length ip) then false
  else if negb (suffix_ok ip) then false
  else
    match ipv6_loop ip (mk_ipv6 0 0 0 0 false) with
    | None => false
    | Some st =>
        let groups := (if (0 <? hexDigits st)%N then groupCount st + 1 else groupCount st)%N in
        if (doubleColonCount st =? 0)%N && negb (groups =? 8)%N then false
        else if (doubleColonCount st =? 1)%N && (7 <? groups)%N then false
        else (2 <=? colonCount st)%N
    end.

Definition isValidIPAddress (ip : bytes) : bool :=
  if (length ip =? 0) || (45 <? length ip) then false
  else if negb (contains_char ip ":") then isValidIPv4 ip
  else isValidIPv6 ip.

(** ** Sanitizing *)

Definition sanitize_char (c : ascii) : ascii :=
  if (32 <=? byteN c)%N && (byteN c <? 127)%N && negb (char_eqb c "010") && negb (char_eqb c "013")
  then c else "?"%char.

(** The loop appends one character per input character until [maxLen]. *)
Definition sanitizeForLog (input : bytes) (maxLen : nat) : bytes :=
  map sanitize_char (take maxLen input) ++
  (if maxLen <? length input then #"...[truncated]" else []).

Definition truncate_at (n : nat) (s : bytes) : bytes :=
  if n <? length s then take n s ++ #"..." else s.

Definition mentions (s : bytes) (words : list bytes) : bool := existsb (contains_sub s) words.

Definition sanitizeErrorForClient (errorMsg : bytes) : bytes :=
  if mentions errorMsg [ #"parse"; #"JSON"; #"json"] then truncate_at 100 errorMsg
  else if mentions errorMsg [ #"LMDB"; #"lmdb"; #"database"] then #"Database error"
  else if mentions errorMsg [ #"memory"; #"alloc"] then #"Server resource error"
  else if mentions errorMsg [ #"filter"; #"invalid"; #"parameter"] then truncate_at 150 errorMsg
  else if 100 <? length errorMsg then #"Internal error"
  else errorMsg.

(** ** The client *)

Definition is_blank (c : ascii) : bool := char_eqb c " " || char_eqb c "009".

(** [s.find_first_not_of(" \t")] *)
Fixpoint find_first_not_blank (s : bytes) : option nat :=
  match s with
  | [] => None
  | c :: s => if is_blank c then S <$> find_first_not_blank s else Some 0
  end.

(** [s.find_last_not_of(" \t")] *)
Fixpoint find_last_not_blank (s : bytes) : option nat :=
  match s with
  | [] => None
  | c :: s =>
      match find_last_not_blank s with
      | Some i => Some (S i)
      | None => if is_blank c then None else Some 0
      end
  end.

Definition trim (s : bytes) : bytes :=
  match find_first_not_blank s, find_last_not_blank s with
  | Some start, Some stop => take (stop - start + 1) (drop start s)
  | _, _ => s
  end.

Fixpoint find_char (s : bytes) (c : ascii) : option nat :=
  match s with
  | [] => None
  | x :: s => if char_eqb x c then Some 0 else S <$> find_char s c
  end.

(** The first address of [X-Forwarded-For]. *)
Definition forwarded_ip (xff : bytes) : bytes :=
  match find_char xff "," with
  | Some commaPos => trim (take commaPos xff)
  | None => trim xff
  end.

Definition getClientIP (trustProxy : bool) (req : Request) : bytes :=
  if negb trustProxy then remote_addr req
  else
    let ip := forwarded_ip (get_header_value req #"X-Forwarded-For") in
    if has_header req #"X-Forwarded-For" && isValidIPAddress ip then ip
    else
      let realIP := trim (get_header_value req #"X-Real-IP") in
      if has_header req #"X-Real-IP" && isValidIPAddress realIP then realIP
      else remote_addr req.

(** [q s] is [s] in double quotes. *)
Definition quoted (s : bytes) : bytes := "034"%char :: s ++ ["034"%char].

Definition pubkeyPrefix : bytes := quoted #"pubkey" ++ #":" ++ ["034"%char].
Definition pubkeyPrefixSpace : bytes := quoted #"pubkey" ++ #": " ++ ["034"%char].

(** Where the public key starts, when one of the prefixes occurs. *)
Definition pubkey_position (body : bytes) : option nat :=
  match find_sub body pubkeyPrefix with
  | Some pos => Some (pos + length pubkeyPrefix)
  | None =>
      match find_sub body pubkeyPrefixSpace with
      | Some pos => Some (pos + length pubkeyPrefixSpace)
      | None => None
      end
  end.

Definition extractPubkeyFromRequest (req : Request) : bytes :=
  if negb (bool_decide (method req = #"POST")) || (length (body req) =? 0) then []
  else
    match pubkey_position (body req) with
    | None => []
    | Some pos =>
        if length (body req) <=? pos then []
        else if length (body req) <? pos + 64 then []
        else
          let pubkey := take 64 (drop pos (body req)) in
          if forallb is_hex_char pubkey then pubkey else []
    end.

(** ** JSON helpers *)

(** [val[key] = v] on an object, whose keys are in ascending order. *)
Fixpoint obj_set (k : bytes) (v : value) (kvs : list (bytes * value)) : list (bytes * value) :=
  match kvs with
  | [] => [(k, v)]
  | (k', v') :: kvs =>
      match bytes_compare k k' with
      | Lt => (k, v) :: (k', v') :: kvs
      | Eq => (k, v) :: kvs
      | Gt => (k', v') :: obj_set k v kvs
      end
  end.

(** The constructor of the wrapper class [json] from a list of entries. *)
Definition json_of (l : list (bytes * value)) : value :=
  JObject (foldl (λ kvs kv, obj_set kv.1 kv.2 kvs) [] l).

(** [v.find(key)] *)
Definition json_find (v : value) (k : bytes) : result (option value) :=
  kvs ← get_object v; Ok (assoc k kvs).

Section json.
Context `{!JsonParser, !EventLibs}.

Definition buildDTagFilter (dTag : bytes) : result value :=
  json_from_string (#"{" ++ quoted #"#d" ++ #":[" ++ json_to_string (JString dTag) ++ #"]," ++
    quoted #"limit" ++ #":1}").

Definition buildKindFilter (kind lim : N) : value :=
  json_of [(#"kinds", JArray [JUnsigned kind]); (#"limit", JUnsigned lim)].

Definition commit_hash_of (eventJsonStr : bytes) : result (option bytes) :=
  eventJson ← json_from_string eventJsonStr;
  contentPtr ← json_find eventJson #"content";
  match contentPtr with
  | Some (JString content) =>
      contentJson ← json_from_string content;
      commitHashPtr ← json_find contentJson #"commit_hash";
      match commitHashPtr with
      | Some (JString h) => Ok (Some h)
      | _ => Ok None
      end
  | _ => Ok None
  end.

(** Any exception means no match. *)
Definition eventMatchesCommitHash (eventJsonStr commitHash : bytes) : bool :=
  match commit_hash_of eventJsonStr with
  | Ok (Some h) => bool_decide (h = commitHash)
  | _ => false
  end.
End json.

(** What the request helpers accept and return. *)

(** ** Dotted quads *)

Definition digit (d : N) : ascii := ascii_of_N (48 + d).

(** An octet in decimal, without leading zeros. *)
Definition octet_text (v : N) : bytes :=
  if (v <? 10)%N then [digit v]
  else if (v <? 100)%N then [digit (v / 10); digit (v mod 10)]
  else [digit (v / 100); digit (v / 10 mod 10); digit (v mod 10)].

Fixpoint join (sep : bytes) (l : list bytes) : bytes :=
  match l with
  | [] => []
  | [x] => x
  | x :: l => x ++ sep ++ join sep l
  end.

Definition quad_text (vs : list N) : bytes := join #"." (octet_text <$> vs).

Lemma byteN_digit d : (d < 10)%N → byteN (digit d) = (48 + d)%N.
Proof. intros. unfold digit. apply N_ascii_embedding. lia. Qed.

Lemma is_digit_spec c : is_digit c = true ↔ ∃ d, (d < 10)%N ∧ c = digit d.
Proof.
  unfold is_digit. rewrite andb_true_iff, !N.leb_le. split.
  - intros [Hl Hu]. exists (byteN c - 48)%N. split; [lia|]. unfold digit.
    replace (48 + (byteN c - 48))%N with (byteN c) by lia. by rewrite ascii_N_embedding.
  - intros (d & Hd & ->). rewrite byteN_digit by done. lia.
Qed.

Lemma digit_not_dot d : (d < 10)%N → char_eqb (digit d) "." = false.
Proof.
  intros Hd. apply Ascii.eqb_neq. intros Heq. apply (f_equal byteN) in Heq.
  rewrite byteN_digit in Heq by done. change (byteN ".") with 46%N in Heq. lia.
Qed.

Lemma digit_value_digit d : (d < 10)%N → digit_value (digit d) = d.
Proof. intros. unfold digit_value. rewrite byteN_digit by done. lia. Qed.

Lemma octet_text_length v : (v < 256)%N →
  1 ≤ length (octet_text v) ≤ 3 ∧ (length (octet_text v) = 1 ↔ (v < 10)%N).
Proof.
  intros Hv. unfold octet_text. destruct (N.ltb_spec v 10), (N.ltb_spec v 100); simpl; lia.
Qed.

(** Appending a digit. *)
Lemma octet_text_snoc v d :
  (0 < v)%N → (d < 10)%N → (v * 10 + d < 256)%N →
  octet_text (v * 10 + d) = octet_text v ++ [digit d].
Proof.
  intros Hv Hd Hlt. unfold octet_text.
  destruct (N.ltb_spec (v * 10 + d) 10); [lia|].
  assert ((v * 10 + d) mod 10 = d)%N as Hm.
  { rewrite N.add_comm, N.Div0.mod_add. by apply N.mod_small. }
  assert ((v * 10 + d) / 10 = v)%N as Hq.
  { rewrite N.add_comm, N.div_add by done. rewrite N.div_small by done. lia. }
  destruct (N.ltb_spec v 10).
  - destruct (N.ltb_spec (v * 10 + d) 100); [|lia]. by rewrite Hm, Hq.
  - destruct (N.ltb_spec (v * 10 + d) 100); [lia|]. destruct (N.ltb_spec v 100); [|lia].
    rewrite Hm, Hq. replace ((v * 10 + d) / 100)%N with (v / 10)%N; [done|].
    change 100%N with (10 * 10)%N. by rewrite <-N.Div0.div_div, Hq.
Qed.

(** ** The loop *)

(** What has been read of the octet that the state is in. *)
Inductive partial : ipv4_state → bytes → Prop :=
  | partial_start n : partial (mk_ipv4 n 0 0 true) []
  | partial_digits n v : (v < 256)%N →
      partial (mk_ipv4 n v (N.of_nat (length (octet_text v))) false) (octet_text v).

Definition accepts (st : ipv4_state) : option N :=
  if lastWasDot st || (digitCount st =? 0)%N then None
  else if (255 <? currentValue st)%N then None
  else Some (octets st + 1)%N.

Lemma step_digit st p d st' :
  partial st p → (d < 10)%N → ipv4_step st (digit d) = Some st' →
  partial st' (p ++ [digit d]) ∧ octets st' = octets st.
Proof.
  intros Hp Hd. unfold ipv4_step. rewrite digit_not_dot by done.
  rewrite (proj2 (is_digit_spec _)) by eauto. rewrite digit_value_digit by done.
  destruct Hp as [n|n v Hv]; cbn [digitCount currentValue octets].
  - change ((0 =? 1)%N && (0 =? 0)%N) with false. cbn iota.
    replace (0 * 10 + d)%N with d by lia.
    destruct (N.ltb_spec 255 d); [lia|]. change (3 <? 0 + 1)%N with false. intros [= <-].
    split; [|done]. simpl. assert (octet_text d = [digit d]) as Ho.
    { unfold octet_text. by destruct (N.ltb_spec d 10); [|lia]. }
    rewrite <-Ho. replace 1%N with (N.of_nat (length (octet_text d))) by by rewrite Ho.
    apply partial_digits. lia.
  - destruct (octet_text_length v Hv) as [Hlen Hlt].
    destruct (decide (v = 0%N)) as [->|Hnz]; [done|].
    replace ((N.of_nat (length (octet_text v)) =? 1)%N && (v =? 0)%N) with false
      by (symmetry; apply andb_false_iff; right; by apply N.eqb_neq).
    destruct (N.ltb_spec 255 (v * 10 + d)) as [|Hle]; [done|].
    destruct (N.ltb_spec 3 (N.of_nat (length (octet_text v)) + 1)); [done|]. intros [= <-].
    split; [|done]. rewrite <-octet_text_snoc by lia.
    replace (N.of_nat (length (octet_text v)) + 1)%N with
      (N.of_nat (length (octet_text (v * 10 + d)))); [by apply partial_digits; lia|].
    rewrite octet_text_snoc, length_app by lia. simpl. lia.
Qed.

(** What the loop accepts is the rest of a list of octets. *)
Lemma ipv4_loop_sound s st p st' n :
  partial st p → ipv4_loop s st = Some st' → accepts st' = Some n →
  ∃ v vs, Forall (λ v, v < 256)%N (v :: vs) ∧ p ++ s = quad_text (v :: vs) ∧
    (octets st + N.of_nat (length (v :: vs)) = n)%N.
Proof.
  revert st p. induction s as [|c s IH]; intros st p Hp.
  { intros [= <-] Hacc. unfold accepts in Hacc. destruct Hp as [|m v Hv]; [done|].
    simpl in Hacc. destruct (_ =? 0)%N; [done|].
    destruct (255 <? v)%N; [done|]. injection Hacc as <-. exists v, []. rewrite app_nil_r.
    split; [by repeat constructor|]. split; [done|simpl; lia]. }
  cbn [ipv4_loop]. destruct (ipv4_step st c) as [st1|] eqn:Hst; [|done]. simpl.
  destruct (is_digit c) eqn:Hdig.
  - apply is_digit_spec in Hdig as (d & Hd & ->).
    destruct (step_digit st p d st1 Hp Hd Hst) as [Hp1 Hoct]. intros Hloop Hacc.
    destruct (IH st1 _ Hp1 Hloop Hacc) as (v & vs & Hall & Htext & Hn). exists v, vs.
    rewrite <-Htext, <-Hoct, <-app_assoc. done.
  - intros Hloop Hacc. unfold ipv4_step in Hst. rewrite Hdig in Hst.
    destruct (char_eqb c ".") eqn:Hdot; [|done]. apply Ascii.eqb_eq in Hdot as ->.
    destruct Hp as [m|m v Hv]; [done|]. cbn [lastWasDot digitCount currentValue octets] in Hst.
    destruct (false || _); [done|]. destruct (255 <? v)%N; [done|]. injection Hst as <-.
    destruct (IH _ [] (partial_start _) Hloop Hacc) as (v' & vs & Hall & Htext & Hn).
    exists v, (v' :: vs). split; [by constructor|]. split.
    + unfold quad_text in *. rewrite fmap_cons. simpl in Htext |- *. by rewrite Htext.
    + simpl in *. lia.
Qed.

Lemma ipv4_step_digit n v k d dot :
  (d < 10)%N → (k <? 3)%N = true → ((k =? 1)%N && (v =? 0)%N = false) → (v * 10 + d < 256)%N →
  ipv4_step (mk_ipv4 n v k dot) (digit d) = Some (mk_ipv4 n (v * 10 + d) (k + 1) false).
Proof.
  intros Hd Hk Hz Hv. unfold ipv4_step. rewrite digit_not_dot by done.
  rewrite (proj2 (is_digit_spec _)) by eauto. rewrite digit_value_digit by done.
  cbn [digitCount currentValue octets]. rewrite Hz. apply N.ltb_lt in Hk.
  destruct (N.ltb_spec 255 (v * 10 + d)); [lia|]. by destruct (N.ltb_spec 3 (k + 1)); [lia|].
Qed.

(** Reading the text of an octet. *)
Lemma ipv4_loop_octet v s n :
  (v < 256)%N →
  ipv4_loop (octet_text v ++ s) (mk_ipv4 n 0 0 true) =
  ipv4_loop s (mk_ipv4 n v (N.of_nat (length (octet_text v))) false).
Proof.
  intros Hv. unfold octet_text. destruct (N.ltb_spec v 10) as [Hl|Hl].
  { cbn [app ipv4_loop]. rewrite ipv4_step_digit by (done || lia). simpl.
    by replace (0 * 10 + v)%N with v by lia. }
  assert (v = v / 10 * 10 + v mod 10)%N as Hdiv.
  { rewrite N.mul_comm. by apply N.Div0.div_mod. }
  assert (v mod 10 < 10)%N as Hm by by apply N.mod_lt.
  destruct (N.ltb_spec v 100) as [Hl2|Hl2].
  - assert (v / 10 < 10)%N as Hq by (apply N.Div0.div_lt_upper_bound; lia).
    cbn [app ipv4_loop]. rewrite ipv4_step_digit by (done || lia). cbn [mbind option_bind].
    rewrite ipv4_step_digit; [|done|done|apply andb_false_iff; right; apply N.eqb_neq; lia|lia].
    cbn [mbind option_bind]. by replace ((0 * 10 + v / 10) * 10 + v mod 10)%N with v by lia.
  - assert (v / 10 = v / 100 * 10 + v / 10 mod 10)%N as Hdiv2.
    { change 100%N with (10 * 10)%N. rewrite <-N.Div0.div_div, N.mul_comm. by apply N.Div0.div_mod. }
    assert (v / 10 mod 10 < 10)%N as Hm2 by by apply N.mod_lt.
    assert (v / 100 < 10)%N as Hq by (apply N.Div0.div_lt_upper_bound; lia).
    cbn [app ipv4_loop]. rewrite ipv4_step_digit by (done || lia). cbn [mbind option_bind].
    rewrite ipv4_step_digit; [|done|done|apply andb_false_iff; right; apply N.eqb_neq; lia|lia].
    cbn [mbind option_bind].
    rewrite ipv4_step_digit; [|done|done|done|lia].
    cbn [mbind option_bind].
    by replace (((0 * 10 + v / 100) * 10 + v / 10 mod 10) * 10 + v mod 10)%N with v by lia.
Qed.

Lemma ipv4_loop_complete v vs n :
  Forall (λ v, v < 256)%N (v :: vs) →
  ∃ st, ipv4_loop (quad_text (v :: vs)) (mk_ipv4 n 0 0 true) = Some st ∧
    accepts st = Some (n + N.of_nat (length (v :: vs)))%N.
Proof.
  revert v n. induction vs as [|v' vs IH]; intros v n Hall; apply Forall_cons in Hall as [Hv Hall].
  - unfold quad_text. simpl. rewrite <-(app_nil_r (octet_text v)), ipv4_loop_octet by done.
    simpl. eexists. split; [done|]. unfold accepts. simpl.
    pose proof (octet_text_length v Hv) as [Hlen _].
    destruct (N.eqb_spec (N.of_nat (length (octet_text v))) 0); [lia|].
    destruct (N.ltb_spec 255 v); [lia|]. done.
  - assert (quad_text (v :: v' :: vs) = octet_text v ++ #"." ++ quad_text (v' :: vs)) as -> by done.
    rewrite ipv4_loop_octet by done. cbn [app bs String.list_ascii_of_string ipv4_loop].
    unfold ipv4_step at 1. change (char_eqb "." ".") with true.
    cbn [lastWasDot digitCount currentValue octets].
    pose proof (octet_text_length v Hv) as [Hlen _].
    destruct (N.eqb_spec (N.of_nat (length (octet_text v))) 0); [lia|].
    destruct (N.ltb_spec 255 v); [lia|]. cbn [orb mbind option_bind].
    destruct (IH v' (n + 1)%N Hall) as (st & -> & Hacc). exists st. split; [done|].
    rewrite Hacc. f_equal. simpl. lia.
Qed.

Lemma quad_text_length vs :
  Forall (λ v, v < 256)%N vs → length vs = 4 → 1 ≤ length (quad_text vs) ≤ 15.
Proof.
  intros Hall Hlen. destruct vs as [|a [|b [|c [|e [|? ?]]]]]; try done.
  repeat apply Forall_cons in Hall as [? Hall]. unfold quad_text. simpl.
  rewrite !length_app; simpl. rewrite !length_app. simpl. rewrite !length_app. simpl.
  pose proof (octet_text_length a). pose proof (octet_text_length b).
  pose proof (octet_text_length c). pose proof (octet_text_length e). lia.
Qed.

(** The IPv4 validator accepts exactly the dotted quads: four numbers below
    256 in decimal without leading zeros, separated by single dots. *)
Theorem isValidIPv4_correct ip :
  isValidIPv4 ip = true ↔
  ∃ a b c e, (a < 256 ∧ b < 256 ∧ c < 256 ∧ e < 256)%N ∧
    ip = octet_text a ++ #"." ++ octet_text b ++ #"." ++ octet_text c ++ #"." ++ octet_text e.
Proof.
  split.
  - unfold isValidIPv4. destruct (_ || _); [done|].
    destruct (ipv4_loop ip _) as [st|] eqn:Hloop; [|done]. intros Hacc.
    assert (accepts st = Some 4%N) as Hacc4.
    { unfold accepts. destruct (_ || _); [done|]. destruct (_ <? _)%N; [done|].
      apply N.eqb_eq in Hacc. by f_equal. }
    destruct (ipv4_loop_sound ip _ [] st 4 (partial_start 0) Hloop Hacc4)
      as (v & vs & Hall & Htext & Hn). simpl in Hn, Htext. subst ip.
    destruct vs as [|b [|c [|e [|? ?]]]]; simpl in Hn; try lia.
    repeat apply Forall_cons in Hall as [? Hall]. by exists v, b, c, e.
  - intros (a & b & c & e & (Ha & Hb & Hc & He) & Hip).
    assert (ip = quad_text [a; b; c; e]) as -> by done.
    assert (Forall (λ v, v < 256)%N [a; b; c; e]) as Hall by by repeat constructor.
    destruct (ipv4_loop_complete a [b; c; e] 0 Hall) as (st & Hloop & Hacc).
    pose proof (quad_text_length _ Hall eq_refl) as Hlen. unfold isValidIPv4.
    destruct (Nat.eqb_spec (length (quad_text [a; b; c; e])) 0); [lia|].
    destruct (Nat.ltb_spec 15 (length (quad_text [a; b; c; e]))); [lia|]. cbn [orb].
    rewrite Hloop. unfold accepts in Hacc. destruct (_ || _); [done|].
    destruct (_ <? _)%N; [done|]. injection Hacc as Hacc. apply N.eqb_eq. lia.
Qed.

(** ** The client's address *)

Lemma find_first_not_blank_spec s i :
  find_first_not_blank s = Some i →
  i < length s ∧ Forall (λ c, is_blank c = true) (take i s) ∧
  ∃ c, s !! i = Some c ∧ is_blank c = false.
Proof.
  revert i. induction s as [|c s IH]; intros i; simpl; [done|].
  destruct (is_blank c) eqn:Hc.
  - intros (j & Hj & ->)%fmap_Some. destruct (IH j Hj) as (Hlt & Hall & Hex).
    split; [lia|]. simpl. by split; [constructor|].
  - intros [= <-]. split; [lia|]. split; [constructor|]. by exists c.
Qed.

(** Trimming takes a part of the text out. *)
Lemma trim_part s : ∃ pre post, s = pre ++ trim s ++ post.
Proof.
  unfold trim. destruct (find_first_not_blank s) as [a|]; [|by exists [], []; rewrite app_nil_r].
  destruct (find_last_not_blank s) as [b|]; [|by exists [], []; rewrite app_nil_r].
  exists (take a s), (drop (b - a + 1) (drop a s)). by rewrite !take_drop.
Qed.

(** An address taken from a header is only used behind a trusted proxy, and
    only when it passes the validator: the client's address is the peer's, or,
    with a trusted proxy, a valid address that is part of a forwarding header
    the request has. *)
Theorem client_ip_trusted trustProxy req :
  let ip := getClientIP trustProxy req in
  ip = remote_addr req ∨
  trustProxy = true ∧ isValidIPAddress ip = true ∧
  ∃ name pre post, name ∈ [ #"X-Forwarded-For"; #"X-Real-IP"] ∧ has_header req name = true ∧
    get_header_value req name = pre ++ ip ++ post.
Proof.
  unfold getClientIP. destruct trustProxy; cbn [negb]; cbv zeta; [|by left].
  destruct (has_header req #"X-Forwarded-For" &&
    isValidIPAddress (forwarded_ip (get_header_value req #"X-Forwarded-For"))) eqn:Hf.
  { right. apply andb_true_iff in Hf as [Hh Hv]. split; [done|]. split; [done|].
    unfold forwarded_ip. set (xff := get_header_value req #"X-Forwarded-For").
    destruct (find_char xff ",") as [i|].
    - destruct (trim_part (take i xff)) as (pre & post & Heq).
      exists #"X-Forwarded-For", pre, (post ++ drop i xff).
      split; [set_solver|]. split; [done|]. fold xff.
      rewrite <-(take_drop i xff) at 1. rewrite Heq at 1. by rewrite <-!app_assoc.
    - destruct (trim_part xff) as (pre & post & Heq).
      exists #"X-Forwarded-For", pre, post. split; [set_solver|]. by split. }
  destruct (has_header req #"X-Real-IP" &&
    isValidIPAddress (trim (get_header_value req #"X-Real-IP"))) eqn:Hr; [right|by left].
  apply andb_true_iff in Hr as [Hh Hv]. split; [done|]. split; [done|].
  destruct (trim_part (get_header_value req #"X-Real-IP")) as (pre & post & Heq).
  exists #"X-Real-IP", pre, post. split; [set_solver|]. by split.
Qed.

(** The validator stops reading an IPv6 address at the first dot, and only looks
    at a dotted suffix after the last colon: any text passes between the two. *)
Lemma ipv6_loop_dot s : ipv6_loop (#"::1." ++ s) (mk_ipv6 0 0 0 0 false) = Some (mk_ipv6 2 1 0 1 false).
Proof. done. Qed.

Lemma rfind_char_last s c : rfind_char (s ++ [c]) c = Some (length s).
Proof.
  induction s as [|x s IH]; simpl; [|by rewrite IH].
  unfold char_eqb. by rewrite Ascii.eqb_refl.
Qed.

Lemma rfind_char_skip s c x : char_eqb x c = false → rfind_char (s ++ [x]) c = rfind_char s c.
Proof.
  intros Hx. induction s as [|y s IH]; simpl; [by rewrite Hx|]. by rewrite IH.
Qed.

(** As long as it is short enough, any text at all is accepted as an IPv6
    address between [::1.] and [:0]. *)
Theorem ipv6_accepts_any_text s :
  length s ≤ 38 → isValidIPAddress (#"::1." ++ s ++ #":0") = true.
Proof.
  intros Hlen. set (ip := #"::1." ++ s ++ #":0").
  assert (length ip = 6 + length s) as Hl by (unfold ip; rewrite !length_app; simpl; lia).
  assert (rfind_char ip ":" = Some (4 + length s)) as Hr.
  { assert (ip = ((#"::1." ++ s) ++ [":"%char]) ++ ["0"%char]) as ->
      by (unfold ip; by rewrite <-!app_assoc).
    rewrite rfind_char_skip by done. rewrite rfind_char_last, length_app. done. }
  assert (drop (S (4 + length s)) ip = #"0") as Hd.
  { assert (ip = ((#"::1." ++ s) ++ [":"%char]) ++ ["0"%char]) as ->
      by (unfold ip; by rewrite <-!app_assoc).
    rewrite drop_app_length'; [done|]. rewrite !length_app. simpl. lia. }
  assert (contains_char ip ":" = true) as Hcolon by done.
  unfold isValidIPAddress, isValidIPv6, suffix_ok, ipv4_suffix. rewrite Hl, Hr, Hcolon, Hd.
  destruct (Nat.eqb_spec (6 + length s) 0); [lia|].
  destruct (Nat.ltb_spec 45 (6 + length s)); [lia|]. cbn [orb negb].
  destruct (Nat.ltb_spec (S (4 + length s)) (6 + length s)); [|lia].
  change (contains_char #"0" ".") with false. cbn [negb]. unfold ip.
  by rewrite ipv6_loop_dot.
Qed.

(** ** The public key *)

(** The key used for rate limiting is empty, or 64 hex digits that follow
    the member name in the body. *)
Lemma extractPubkey_hex req :
  let pk := extractPubkeyFromRequest req in
  pk = [] ∨ length pk = 64 ∧ forallb is_hex_char pk = true ∧ ∃ pre post,
    body req = pre ++ pk ++ post.
Proof.
  unfold extractPubkeyFromRequest. destruct (_ || _); [by left|].
  destruct (pubkey_position (body req)) as [pos|]; [|by left].
  destruct (length (body req) <=? pos); [by left|].
  destruct (Nat.ltb_spec (length (body req)) (pos + 64)) as [|Hle]; [by left|].
  destruct (forallb is_hex_char _) eqn:Hhex; [|by left]. right.
  split; [rewrite length_take, length_drop; lia|]. split; [done|].
  exists (take pos (body req)), (drop 64 (drop pos (body req))). by rewrite !take_drop.
Qed.

(** ** Logged text *)

Definition printable (c : ascii) : Prop := (32 ≤ byteN c < 127)%N.

Lemma sanitize_char_printable c : printable (sanitize_char c).
Proof.
  unfold sanitize_char, printable.
  destruct (N.leb_spec 32 (byteN c)), (N.ltb_spec (byteN c) 127), (negb (char_eqb c "010")),
    (negb (char_eqb c "013")); simpl; try done; lia.
Qed.

(** Sanitized text is printable ASCII and bounded, and text that already is
    both stays as it is. *)
Lemma sanitizeForLog_safe input maxLen :
  Forall printable (sanitizeForLog input maxLen) ∧
  length (sanitizeForLog input maxLen) ≤ maxLen + 14 ∧
  (Forall printable input → length input ≤ maxLen → sanitizeForLog input maxLen = input).
Proof.
  unfold sanitizeForLog. split_and!.
  - apply Forall_app. split.
    + apply Forall_forall. intros c (x & <- & _)%list_elem_of_In%in_map_iff.
      apply sanitize_char_printable.
    + destruct (_ <? _); [|constructor]. by repeat constructor.
  - rewrite length_app, length_map, length_take. destruct (_ <? _); simpl; lia.
  - intros Hall Hle. destruct (Nat.ltb_spec maxLen (length input)); [lia|].
    rewrite app_nil_r, take_ge by lia. clear -Hall. induction Hall as [|c l Hc Hl IH]; [done|].
    simpl. rewrite IH. f_equal. unfold sanitize_char. destruct Hc as [Hlo Hhi].
    destruct (N.leb_spec 32 (byteN c)), (N.ltb_spec (byteN c) 127); try lia. simpl.
    destruct (char_eqb c "010") eqn:E1; [apply Ascii.eqb_eq in E1 as ->; by destruct Hlo|].
    destruct (char_eqb c "013") eqn:E2; [apply Ascii.eqb_eq in E2 as ->; by destruct Hlo|done].
Qed.
