(* ===== verification/HttpMetrics.v ===== *)
(** Metrics of the HTTP server ([HttpMetrics.h]).

    The mutex and the atomics make each call one step.  The two [std::map]s are
    finite maps; rendering walks them in the order of their keys. *)

From S2P Require Import Prelude Bytes Json.
From stdpp Require Import fin_maps.

Inductive Method := GET | POST | OPTIONS | METHOD_OTHER.
Inductive Endpoint := API_QUOTES | API_QUERY | HEALTH | METRICS | ENDPOINT_OTHER.

#[export] Instance Method_eq_dec : EqDecision Method.
Proof. solve_decision. Defined.
#[export] Instance Endpoint_eq_dec : EqDecision Endpoint.
Proof. solve_decision. Defined.

(** The values of the enumerations. *)
Definition method_index (m : Method) : N :=
  match m with GET => 0 | POST => 1 | OPTIONS => 2 | METHOD_OTHER => 3 end.
Definition endpoint_index (e : Endpoint) : N :=
  match e with
  | API_QUOTES => 0 | API_QUERY => 1 | HEALTH => 2 | METRICS => 3 | ENDPOINT_OTHER => 4
  end.

#[export] Instance Method_countable : Countable Method.
Proof.
  apply (inj_countable' method_index
    (λ n, if (n =? 0)%N then GET else if (n =? 1)%N then POST
          else if (n =? 2)%N then OPTIONS else METHOD_OTHER)). by intros [].
Defined.
#[export] Instance Endpoint_countable : Countable Endpoint.
Proof.
  apply (inj_countable' endpoint_index
    (λ n, if (n =? 0)%N then API_QUOTES else if (n =? 1)%N then API_QUERY
          else if (n =? 2)%N then HEALTH else if (n =? 3)%N then METRICS
          else ENDPOINT_OTHER)). by intros [].
Defined.

Definition methodFromString (m : bytes) : Method :=
  if bool_decide (m = #"GET") then GET
  else if bool_decide (m = #"POST") then POST
  else if bool_decide (m = #"OPTIONS") then OPTIONS
  else METHOD_OTHER.

Definition methodToString (m : Method) : bytes :=
  match m with
  | GET => #"GET" | POST => #"POST" | OPTIONS => #"OPTIONS" | METHOD_OTHER => #"OTHER"
  end.

Definition endpointFromString (e : bytes) : Endpoint :=
  if bool_decide (e = #"/api/quotes") then API_QUOTES
  else if bool_decide (e = #"/api/query") then API_QUERY
  else if bool_decide (e = #"/health") then HEALTH
  else if bool_decide (e = #"/metrics") then METRICS
  else ENDPOINT_OTHER.

Definition endpointToString (e : Endpoint) : bytes :=
  match e with
  | API_QUOTES => #"/api/quotes" | API_QUERY => #"/api/query" | HEALTH => #"/health"
  | METRICS => #"/metrics" | ENDPOINT_OTHER => #"/other"
  end.

(** ** State *)

Record HistogramData := mk_hist {
  hist_count : N;
  hist_sum : N;
  le_10 : N;
  le_50 : N;
  le_100 : N;
  le_500 : N;
  le_1000 : N;
  le_5000 : N;
}.

Definition empty_hist : HistogramData := mk_hist 0 0 0 0 0 0 0 0.

Record SummaryData := mk_summary { summary_count : N; summary_sum : N }.

(** The status of a request key is an [int]. *)
Record HttpMetrics := mk_metrics {
  requestCounts_ : gmap (Method * Z) N;
  requestDurations_ : gmap Endpoint HistogramData;
  totalRequests_ : N;
  queryResultCounts_ : SummaryData;
  rateLimitHits_ : N;
  rateLimitBlocks_ : N;
  eventsAccepted_ : N;
  eventsRejected_ : N;
}.

(** [reset], which the constructor calls. *)
Definition reset : HttpMetrics := mk_metrics ∅ ∅ 0 (mk_summary 0 0) 0 0 0 0.

(** ** Counting *)

Definition incrementRequestTotal (m : HttpMetrics) (method : bytes) (statusCode : Z)
    : HttpMetrics :=
  let key := (methodFromString method, statusCode) in
  mk_metrics (<[key := u64_add (default 0%N (requestCounts_ m !! key)) 1]> (requestCounts_ m))
    (requestDurations_ m) (u64_add (totalRequests_ m) 1) (queryResultCounts_ m)
    (rateLimitHits_ m) (rateLimitBlocks_ m) (eventsAccepted_ m) (eventsRejected_ m).

Definition incrementRateLimitHits (m : HttpMetrics) : HttpMetrics :=
  mk_metrics (requestCounts_ m) (requestDurations_ m) (totalRequests_ m) (queryResultCounts_ m)
    (u64_add (rateLimitHits_ m) 1) (rateLimitBlocks_ m) (eventsAccepted_ m) (eventsRejected_ m).

Definition incrementRateLimitBlocks (m : HttpMetrics) : HttpMetrics :=
  mk_metrics (requestCounts_ m) (requestDurations_ m) (totalRequests_ m) (queryResultCounts_ m)
    (rateLimitHits_ m) (u64_add (rateLimitBlocks_ m) 1) (eventsAccepted_ m) (eventsRejected_ m).

Definition bucket (durationMs bound n : N) : N :=
  if (durationMs <=? bound)%N then u64_add n 1 else n.

Definition observe (h : HistogramData) (durationMs : N) : HistogramData :=
  mk_hist (u64_add (hist_count h) 1) (u64_add (hist_sum h) durationMs)
    (bucket durationMs 10 (le_10 h)) (bucket durationMs 50 (le_50 h))
    (bucket durationMs 100 (le_100 h)) (bucket durationMs 500 (le_500 h))
    (bucket durationMs 1000 (le_1000 h)) (bucket durationMs 5000 (le_5000 h)).

Definition observeRequestDuration (m : HttpMetrics) (endpoint : bytes) (durationMs : N)
    : HttpMetrics :=
  let e := endpointFromString endpoint in
  let hist := default empty_hist (requestDurations_ m !! e) in
  mk_metrics (requestCounts_ m) (<[e := observe hist durationMs]> (requestDurations_ m))
    (totalRequests_ m) (queryResultCounts_ m)
    (rateLimitHits_ m) (rateLimitBlocks_ m) (eventsAccepted_ m) (eventsRejected_ m).

Definition incrementEventsAccepted (m : HttpMetrics) : HttpMetrics :=
  mk_metrics (requestCounts_ m) (requestDurations_ m) (totalRequests_ m) (queryResultCounts_ m)
    (rateLimitHits_ m) (rateLimitBlocks_ m) (u64_add (eventsAccepted_ m) 1) (eventsRejected_ m).

Definition incrementEventsRejected (m : HttpMetrics) : HttpMetrics :=
  mk_metrics (requestCounts_ m) (requestDurations_ m) (totalRequests_ m) (queryResultCounts_ m)
    (rateLimitHits_ m) (rateLimitBlocks_ m) (eventsAccepted_ m) (u64_add (eventsRejected_ m) 1).

Definition observeQueryResults (m : HttpMetrics) (resultCount : N) : HttpMetrics :=
  mk_metrics (requestCounts_ m) (requestDurations_ m) (totalRequests_ m)
    (mk_summary (u64_add (summary_count (queryResultCounts_ m)) 1)
       (u64_add (summary_sum (queryResultCounts_ m)) resultCount))
    (rateLimitHits_ m) (rateLimitBlocks_ m) (eventsAccepted_ m) (eventsRejected_ m).

(** ** Rendering *)

(** Numbers as the stream prints them. *)
Definition show_N (n : N) : bytes := bs (pretty n).
Definition show_Z (z : Z) : bytes := bs (pretty z).

Definition newline : bytes := ["010"%char].
Definition dquote (s : bytes) : bytes := "034"%char :: s ++ ["034"%char].
Definition line (s : bytes) : bytes := s ++ newline.

(** The order of [RequestKey::operator<]. *)
Definition key_le (a b : Method * Z * N) : Prop :=
  (method_index a.1.1 < method_index b.1.1)%N ∨
  (method_index a.1.1 = method_index b.1.1 ∧ (a.1.2 ≤ b.1.2)%Z).

#[export] Instance key_le_dec : RelDecision key_le.
Proof. intros a b. unfold key_le. apply _. Defined.

Definition endpoint_le (a b : Endpoint * HistogramData) : Prop :=
  (endpoint_index a.1 ≤ endpoint_index b.1)%N.

#[export] Instance endpoint_le_dec : RelDecision endpoint_le.
Proof. intros a b. unfold endpoint_le. apply _. Defined.

Definition request_line (kv : Method * Z * N) : bytes :=
  line (#"http_requests_total{method=" ++ dquote (methodToString kv.1.1) ++ #",status=" ++
    dquote (show_Z kv.1.2) ++ #"} " ++ show_N kv.2).

Definition bucket_line (e le : bytes) (n : N) : bytes :=
  line (#"http_request_duration_milliseconds_bucket{endpoint=" ++ dquote e ++ #",le=" ++
    dquote le ++ #"} " ++ show_N n).

Definition histogram_lines (kv : Endpoint * HistogramData) : bytes :=
  let e := endpointToString kv.1 in
  let h := kv.2 in
  bucket_line e #"10" (le_10 h) ++ bucket_line e #"50" (le_50 h) ++
  bucket_line e #"100" (le_100 h) ++ bucket_line e #"500" (le_500 h) ++
  bucket_line e #"1000" (le_1000 h) ++ bucket_line e #"5000" (le_5000 h) ++
  bucket_line e #"+Inf" (hist_count h) ++
  line (#"http_request_duration_milliseconds_sum{endpoint=" ++ dquote e ++ #"} " ++
    show_N (hist_sum h)) ++
  line (#"http_request_duration_milliseconds_count{endpoint=" ++ dquote e ++ #"} " ++
    show_N (hist_count h)).

Definition sorted_requests (m : HttpMetrics) : list (Method * Z * N) :=
  merge_sort key_le (map_to_list (requestCounts_ m)).

Definition sorted_durations (m : HttpMetrics) : list (Endpoint * HistogramData) :=
  merge_sort endpoint_le
    (map_to_list (requestDurations_ m)).

(** A counter with its help and type lines. *)
Definition counter_lines (name help : bytes) (n : N) : bytes :=
  newline ++ line (#"# HELP " ++ name ++ #" " ++ help) ++
  line (#"# TYPE " ++ name ++ #" counter") ++ line (name ++ #" " ++ show_N n).

Definition renderPrometheus (m : HttpMetrics) : bytes :=
  line #"# HELP http_requests_total Total number of HTTP requests" ++
  line #"# TYPE http_requests_total counter" ++
  concat (request_line <$> sorted_requests m) ++
  line (#"http_requests_total_all " ++ show_N (totalRequests_ m)) ++
  newline ++ line #"# HELP http_request_duration_milliseconds HTTP request duration" ++
  line #"# TYPE http_request_duration_milliseconds histogram" ++
  concat (histogram_lines <$> sorted_durations m) ++
  counter_lines #"http_rate_limit_hits_total" #"Total rate limit checks" (rateLimitHits_ m) ++
  counter_lines #"http_rate_limit_blocks_total" #"Total rate limit blocks" (rateLimitBlocks_ m) ++
  counter_lines #"nostr_events_accepted_total" #"Total events accepted" (eventsAccepted_ m) ++
  counter_lines #"nostr_events_rejected_total" #"Total events rejected" (eventsRejected_ m) ++
  newline ++ line #"# HELP nostr_query_results Query result counts" ++
  line #"# TYPE nostr_query_results summary" ++
  line (#"nostr_query_results_sum " ++ show_N (summary_sum (queryResultCounts_ m))) ++
  line (#"nostr_query_results_count " ++ show_N (summary_count (queryResultCounts_ m))).

(** ** What the counters mean

    A sequence of calls, and the counts it should lead to. *)

Inductive metrics_call :=
  | RequestTotal (method : bytes) (status : Z)
  | RequestDuration (endpoint : bytes) (ms : N)
  | RateLimitHit
  | RateLimitBlock
  | EventAccepted
  | EventRejected
  | QueryResults (n : N).

Definition metrics_step (m : HttpMetrics) (c : metrics_call) : HttpMetrics :=
  match c with
  | RequestTotal method status => incrementRequestTotal m method status
  | RequestDuration e ms => observeRequestDuration m e ms
  | RateLimitHit => incrementRateLimitHits m
  | RateLimitBlock => incrementRateLimitBlocks m
  | EventAccepted => incrementEventsAccepted m
  | EventRejected => incrementEventsRejected m
  | QueryResults n => observeQueryResults m n
  end.

Definition count (P : metrics_call → bool) (l : list metrics_call) : N :=
  N.of_nat (length (filter (λ c, P c = true) l)).

Definition total (f : metrics_call → N) (l : list metrics_call) : N :=
  foldr (λ c n, f c + n)%N 0%N l.

Definition is_request (c : metrics_call) : bool :=
  match c with RequestTotal _ _ => true | _ => false end.

Definition is_request_of (k : Method * Z) (c : metrics_call) : bool :=
  match c with
  | RequestTotal m s => bool_decide ((methodFromString m, s) = k)
  | _ => false
  end.

(** Durations of an endpoint, at most [bound] if there is one. *)
Definition is_duration_of (e : Endpoint) (bound : option N) (c : metrics_call) : bool :=
  match c with
  | RequestDuration ep ms =>
      bool_decide (endpointFromString ep = e) &&
      match bound with Some b => (ms <=? b)%N | None => true end
  | _ => false
  end.

Definition duration_of (e : Endpoint) (c : metrics_call) : N :=
  match c with
  | RequestDuration ep ms => if bool_decide (endpointFromString ep = e) then ms else 0%N
  | _ => 0%N
  end.

(** The histogram of an endpoint after the calls [l]. *)
Definition histogram_of (e : Endpoint) (l : list metrics_call) : HistogramData :=
  let n b := u64_wrap (count (is_duration_of e b) l) in
  mk_hist (n None) (u64_wrap (total (duration_of e) l))
    (n (Some 10%N)) (n (Some 50%N)) (n (Some 100%N)) (n (Some 500%N)) (n (Some 1000%N))
    (n (Some 5000%N)).

Lemma count_snoc P l c : count P (l ++ [c]) = (count P l + if P c then 1 else 0)%N.
Proof.
  unfold count. rewrite filter_app, length_app, filter_cons, filter_nil.
  destruct (P c); [rewrite decide_True by done|rewrite decide_False by done]; simpl; lia.
Qed.

Lemma total_snoc f l c : total f (l ++ [c]) = (total f l + f c)%N.
Proof. unfold total. induction l as [|x l IH]; simpl; [lia|]. rewrite IH. lia. Qed.

Lemma u64_add_wrap a b : u64_add (u64_wrap a) b = u64_wrap (a + b).
Proof. unfold u64_add, u64_wrap. by rewrite N.Div0.add_mod_idemp_l. Qed.

Lemma u64_wrap_idem a : u64_wrap (u64_wrap a) = u64_wrap a.
Proof. apply u64_wrap_small, u64_wrap_bound. Qed.

(** What every counter holds after the calls [l]. *)
Record metrics_of (l : list metrics_call) (m : HttpMetrics) : Prop := {
  mo_requests : ∀ k, default 0%N (requestCounts_ m !! k) = u64_wrap (count (is_request_of k) l);
  mo_durations : ∀ e, default empty_hist (requestDurations_ m !! e) = histogram_of e l;
  mo_total : totalRequests_ m = u64_wrap (count is_request l);
  mo_hits : rateLimitHits_ m =
    u64_wrap (count (λ c, match c with RateLimitHit => true | _ => false end) l);
  mo_blocks : rateLimitBlocks_ m =
    u64_wrap (count (λ c, match c with RateLimitBlock => true | _ => false end) l);
  mo_accepted : eventsAccepted_ m =
    u64_wrap (count (λ c, match c with EventAccepted => true | _ => false end) l);
  mo_rejected : eventsRejected_ m =
    u64_wrap (count (λ c, match c with EventRejected => true | _ => false end) l);
  mo_queries : queryResultCounts_ m = mk_summary
    (u64_wrap (count (λ c, match c with QueryResults _ => true | _ => false end) l))
    (u64_wrap (total (λ c, match c with QueryResults n => n | _ => 0%N end) l));
}.

Lemma histogram_of_step e l ep ms :
  histogram_of e (l ++ [RequestDuration ep ms]) =
    if bool_decide (endpointFromString ep = e) then observe (histogram_of e l) ms
    else histogram_of e l.
Proof.
  unfold histogram_of. rewrite !count_snoc, total_snoc. cbn [is_duration_of duration_of].
  case_bool_decide as He; cbn [andb]; [|by rewrite !N.add_0_r].
  unfold observe, bucket. cbn [hist_count hist_sum le_10 le_50 le_100 le_500 le_1000 le_5000].
  rewrite !u64_add_wrap.
  repeat match goal with |- context [(ms <=? ?b)%N] => destruct (N.leb_spec ms b) end;
    by rewrite ?N.add_0_r.
Qed.

Lemma histogram_of_other e l c :
  (∀ ep ms, c ≠ RequestDuration ep ms) → histogram_of e (l ++ [c]) = histogram_of e l.
Proof.
  intros Hc. unfold histogram_of. rewrite !count_snoc, total_snoc.
  destruct c; try (cbn [is_duration_of duration_of]; by rewrite !N.add_0_r).
  by destruct (Hc endpoint ms).
Qed.

Lemma metrics_of_step l m c : metrics_of l m → metrics_of (l ++ [c]) (metrics_step m c).
Proof.
  intros [Hreq Hdur Htot Hhits Hblocks Hacc Hrej Hq]. split.
  - intros k. rewrite count_snoc. destruct c; simpl; rewrite ?N.add_0_r; try apply Hreq.
    rewrite lookup_insert. case_decide as Hk.
    + subst k. rewrite bool_decide_true by done. simpl. by rewrite Hreq, u64_add_wrap.
    + rewrite bool_decide_false by done. rewrite N.add_0_r. apply Hreq.
  - intros e. destruct c; try (rewrite histogram_of_other by done; apply Hdur).
    rewrite histogram_of_step. simpl. rewrite lookup_insert. case_decide as He.
    + subst e. rewrite bool_decide_true by done. simpl. by rewrite Hdur.
    + rewrite bool_decide_false by done. apply Hdur.
  - rewrite count_snoc. destruct c; simpl; rewrite ?N.add_0_r; try done. by rewrite Htot, u64_add_wrap.
  - rewrite count_snoc. destruct c; simpl; rewrite ?N.add_0_r; try done. by rewrite Hhits, u64_add_wrap.
  - rewrite count_snoc. destruct c; simpl; rewrite ?N.add_0_r; try done. by rewrite Hblocks, u64_add_wrap.
  - rewrite count_snoc. destruct c; simpl; rewrite ?N.add_0_r; try done. by rewrite Hacc, u64_add_wrap.
  - rewrite count_snoc. destruct c; simpl; rewrite ?N.add_0_r; try done. by rewrite Hrej, u64_add_wrap.
  - rewrite count_snoc, total_snoc. destruct c; simpl; rewrite ?N.add_0_r; try done.
    rewrite Hq. simpl. by rewrite !u64_add_wrap.
Qed.

Lemma metrics_of_reset : metrics_of [] reset.
Proof. split; try done; intros k; simpl; by rewrite lookup_empty. Qed.

(** After any sequence of calls every counter holds the number of calls it
    counts, modulo 2^64: requests by method and status and in all, rate limit
    checks and refusals, accepted and rejected events, query results, and for
    each endpoint the durations up to each bucket's bound, their number and
    their sum. *)
Theorem metrics_count_calls l : metrics_of l (foldl metrics_step reset l).
Proof.
  induction l as [|c l IH] using rev_ind; [apply metrics_of_reset|].
  rewrite foldl_snoc. by apply metrics_of_step.
Qed.
