(* ===== verification/HttpMonad.v ===== *)
(** The state of the HTTP server and the effects its handlers have.

    A handler reads a request and changes the server: metrics, the event
    processor's own state, the process-wide dictionary cache, the response,
    the log of requests, the rate limiter and the count of active requests.
    [HM] passes that state along and keeps it when an exception is thrown, so
    that [try_catch] goes on with the state the failing code left. *)

From S2P Require Import Prelude Bytes Json Hex PackedEvent Db Payload EventParse.
From S2P Require Import RateLimit HttpUtil HttpMetrics.

(** [httplib::Response] as far as the handlers set it. *)
Record Response := mk_response {
  res_status : Z;
  res_content : bytes;
  res_type : bytes;
  res_headers : list (bytes * bytes);
}.

(** A response no handler has touched. *)
Definition new_response : Response := mk_response (-1) [] [] [].

(** [res.get_header_value(key)]: the first value, or the empty string. *)
Fixpoint header_value (k : bytes) (hs : list (bytes * bytes)) : bytes :=
  match hs with
  | [] => []
  | (k', v) :: hs => if decide (k = k') then v else header_value k hs
  end.

(** What [logRequest], [logResponse] and [logRateLimit] write. *)
Inductive log_level := LOG_INFO | LOG_WARNING | LOG_ERROR.

Inductive log_entry :=
  | LogRequest (reqId method path clientIP : bytes)
  | LogResponse (level : log_level) (reqId : bytes) (statusCode : Z) (durationMs : N)
  | LogRateLimit (reqId clientIP reason : bytes).

Section state.
Context `{!Zstd} {P : Type}.

Record http_state := mk_http {
  metrics : HttpMetrics;
  proc : P;
  dictionaries : gmap N ZSTD_DDict;
  res : Response;
  rateLimiter : RateLimiter.limiter;
  activeRequests_ : Z;
  shuttingDown_ : bool;
  notified : bool;                 (* [shutdownCv_] was notified *)
  logs : list log_entry;
  ms_tick : nat;
  us_tick : nat;
  id_tick : nat;
}.

Definition HM (A : Type) : Type := http_state → result A * http_state.

#[export] Instance HM_ret : MRet HM := λ A a s, (Ok a, s).
#[export] Instance HM_bind : MBind HM := λ A B f m s,
  match m s with
  | (Ok a, s) => f a s
  | (Throw e, s) => (Throw e, s)
  end.

Definition raise {A} (e : exn) : HM A := λ s, (Throw e, s).
Definition lift {A} (r : result A) : HM A := λ s, (r, s).
Definition gets {A} (f : http_state → A) : HM A := λ s, (Ok (f s), s).
Definition modify (f : http_state → http_state) : HM () := λ s, (Ok tt, f s).

(** [try { m } catch (const std::exception &e) { h(e) }] *)
Definition try_catch {A} (m : HM A) (h : exn → HM A) : HM A := λ s,
  match m s with
  | (Throw e, s) => if catchable e then h e s else (Throw e, s)
  | r => r
  end.

(** ** One member at a time *)

Definition with_metrics (f : HttpMetrics → HttpMetrics) : HM () := modify (λ s,
  mk_http (f (metrics s)) (proc s) (dictionaries s) (res s) (rateLimiter s) (activeRequests_ s)
    (shuttingDown_ s) (notified s) (logs s) (ms_tick s) (us_tick s) (id_tick s)).

Definition set_proc (p : P) (s : http_state) : http_state :=
  mk_http (metrics s) p (dictionaries s) (res s) (rateLimiter s) (activeRequests_ s)
    (shuttingDown_ s) (notified s) (logs s) (ms_tick s) (us_tick s) (id_tick s).

Definition set_dictionaries (g : gmap N ZSTD_DDict) : HM () := modify (λ s,
  mk_http (metrics s) (proc s) g (res s) (rateLimiter s) (activeRequests_ s)
    (shuttingDown_ s) (notified s) (logs s) (ms_tick s) (us_tick s) (id_tick s)).

Definition with_response (f : Response → Response) : HM () := modify (λ s,
  mk_http (metrics s) (proc s) (dictionaries s) (f (res s)) (rateLimiter s) (activeRequests_ s)
    (shuttingDown_ s) (notified s) (logs s) (ms_tick s) (us_tick s) (id_tick s)).

Definition set_limiter (l : RateLimiter.limiter) : HM () := modify (λ s,
  mk_http (metrics s) (proc s) (dictionaries s) (res s) l (activeRequests_ s)
    (shuttingDown_ s) (notified s) (logs s) (ms_tick s) (us_tick s) (id_tick s)).

Definition set_active (n : Z) (notify : bool) : HM () := modify (λ s,
  mk_http (metrics s) (proc s) (dictionaries s) (res s) (rateLimiter s) n
    (shuttingDown_ s) (notified s || notify) (logs s) (ms_tick s) (us_tick s) (id_tick s)).

Definition log_line (e : log_entry) : HM () := modify (λ s,
  mk_http (metrics s) (proc s) (dictionaries s) (res s) (rateLimiter s) (activeRequests_ s)
    (shuttingDown_ s) (notified s) (logs s ++ [e]) (ms_tick s) (us_tick s) (id_tick s)).

Definition set_us_tick (t : nat) : HM () := modify (λ s,
  mk_http (metrics s) (proc s) (dictionaries s) (res s) (rateLimiter s) (activeRequests_ s)
    (shuttingDown_ s) (notified s) (logs s) (ms_tick s) t (id_tick s)).

Definition set_ticks (ms id : nat) (s : http_state) : http_state :=
  mk_http (metrics s) (proc s) (dictionaries s) (res s) (rateLimiter s) (activeRequests_ s)
    (shuttingDown_ s) (notified s) (logs s) ms (us_tick s) id.

(** ** [res] *)

Definition set_status (z : Z) : HM () := with_response (λ r,
  mk_response z (res_content r) (res_type r) (res_headers r)).

Definition set_content (c t : bytes) : HM () := with_response (λ r,
  mk_response (res_status r) c t (res_headers r)).

(** [res.set_header] adds to a multimap. *)
Definition set_header (k v : bytes) : HM () := with_response (λ r,
  mk_response (res_status r) (res_content r) (res_type r) (res_headers r ++ [(k, v)])).

Definition get_request_id : HM bytes :=
  gets (λ s, header_value #"X-Request-ID" (res_headers (res s))).

(** ** [RequestLogger] *)

Section clock.
(** The [i]-th reading of the system clock in milliseconds, and the [i]-th
    number of the random generator. *)
Variable now_ms : nat → N.
Variable random_id : nat → N.

(** Sixteen hexadecimal digits, the most significant first. *)
Fixpoint hex_digits (n : nat) (id : N) : bytes :=
  match n with
  | O => []
  | S n => hex_digits n (id / 16)%N ++ [hex_digit (id mod 16)%N]
  end.

Definition generateRequestId : HM bytes := λ s,
  (Ok (hex_digits 16 (random_id (id_tick s))), set_ticks (ms_tick s) (S (id_tick s)) s).

Definition getTimestampMs : HM N := λ s,
  (Ok (now_ms (ms_tick s)), set_ticks (S (ms_tick s)) (id_tick s) s).

Definition formatDuration (startMs : N) : HM bytes :=
  endMs ← getTimestampMs;
  let duration := u64_sub endMs startMs in
  mret (show_N duration ++ #"ms").

(** [RequestLogger::getTimestampMs() - startMs] *)
Definition duration (startMs : N) : HM N :=
  t ← getTimestampMs; mret (u64_sub t startMs).

(** ** Logging helpers of [HttpServer] *)

Definition logRequest (reqId method path clientIP : bytes) : HM () :=
  log_line (LogRequest reqId method path clientIP).

Definition logResponse (reqId : bytes) (statusCode : Z) (durationMs : N) : HM () :=
  log_line (LogResponse
    (if (500 <=? statusCode)%Z then LOG_ERROR
     else if (400 <=? statusCode)%Z then LOG_WARNING else LOG_INFO)
    reqId statusCode durationMs).

Definition logRateLimit (reqId clientIP reason : bytes) : HM () :=
  log_line (LogRateLimit reqId clientIP reason).

(** The two calls most branches end with. *)
Definition observe_duration (endpoint : bytes) (startMs : N) : HM () :=
  t ← duration startMs; with_metrics (λ m, observeRequestDuration m endpoint t).

Definition log_response (reqId : bytes) (code : Z) (startMs : N) : HM () :=
  t ← duration startMs; logResponse reqId code t.

Definition count_request (method : bytes) (code : Z) : HM () :=
  with_metrics (λ m, incrementRequestTotal m method code).
End clock.

(** ** Active requests *)

(** [activeRequests_.fetch_add(1)] *)
Definition enter_request : HM () :=
  n ← gets activeRequests_; set_active (n + 1) false.

(** [HttpServer::decrementActiveRequests] *)
Definition decrementActiveRequests : HM () :=
  n ← gets activeRequests_;
  down ← gets shuttingDown_;
  set_active (n - 1) (bool_decide (n = 1%Z) && down).
End state.
Arguments http_state {_} _.
Arguments HM {_} _ _.
