(* ===== verification/HttpHandlers.v ===== *)
(** The handlers of the HTTP server ([HttpServer.cpp], [handle*]).

    Each handler is the whole method: every branch, what it answers and what
    it counts.  A read transaction is the environment [d] it sees; the event
    processor is a function on a state of its own.  What a call that throws
    put into the process-wide dictionary cache is dropped: entries only ever
    repeat the dictionary table. *)

From S2P Require Import Prelude Bytes Json Hex PackedEvent FilterSets Filters Config EventParse.
From S2P Require Import Db Payload Subscription DBQuery.
From S2P Require Import RateLimit HttpUtil HttpMetrics HttpMonad.

(** ** Text of query parameters *)

Definition is_space (c : ascii) : bool :=
  char_eqb c " " || ((9 <=? byteN c)%N && (byteN c <=? 13)%N).

Fixpoint skip_spaces (s : bytes) : bytes :=
  match s with
  | c :: s' => if is_space c then skip_spaces s' else s
  | [] => []
  end.

(** The value of the leading digits, and how many there are. *)
Fixpoint leading_digits (s : bytes) (v : N) (n : nat) : N * nat :=
  match s with
  | c :: s => if is_digit c then leading_digits s (v * 10 + digit_value c)%N (S n) else (v, n)
  | [] => (v, n)
  end.

(** [std::stoull(s)]: blanks, a sign, digits; what follows is ignored and a
    negative number wraps around. *)
Definition stoull (s : bytes) : result N :=
  let s := skip_spaces s in
  let '(negative, digits) :=
    match s with
    | c :: s' => if char_eqb c "-" then (true, s')
                 else if char_eqb c "+" then (false, s') else (false, s)
    | [] => (false, s)
    end in
  let '(v, n) := leading_digits digits 0 0 in
  if n =? 0 then Throw invalid_argument
  else if (MAX_U64 <? v)%N then Throw out_of_range
  else Ok (if negative : bool then u64_sub 0 v else v).

Definition MAX_QUERY_RESULTS : N := 10000.
Definition MAX_BATCH_SIZE : nat := 1000.
Definition MAX_BATCH_FETCH_SIZE : nat := 1000.
Definition COMMIT_HASH_SCAN_LIMIT : N := 5000.

(** The required fields of an event, with the test of each. *)
Definition event_fields : list (bytes * (value → bool)) :=
  [(#"id", is_string); (#"pubkey", is_string); (#"created_at", is_number);
   (#"kind", is_number); (#"tags", is_array); (#"content", is_string); (#"sig", is_string)].

Fixpoint has_fields (v : value) (fields : list (bytes * (value → bool))) : result bool :=
  match fields with
  | [] => Ok true
  | (k, test) :: fields =>
      x ← json_find v k;
      match x with
      | Some x => if test x then has_fields v fields else Ok false
      | None => Ok false
      end
  end.

Section handlers.
Context `{!Hex, !NativeU64, !GolpeKeys, !Env, !JsonParser, !EventLibs, !Zstd} {P : Type}.
Variable cfg : Config.

(** The environment a read transaction sees, the event processor, the
    messages of the library's exceptions, [from_hex] with its default second
    argument, and the clocks. *)
Variable d : env.
Variable eventProcessor : option (P → bytes → result (bool * bytes) * P).
Variable lib_what : exn → bytes.
Variable from_hex_default : bytes → result bytes.
Variable now_ms : nat → N.
Variable curr_time_us : nat → N.

#[local] Notation HM := (HM P).

(** [e.what()] *)
Definition exn_what (e : exn) : bytes := match e with herr m => m | _ => lib_what e end.

(** [res.status = z; res.set_content(json({...}).dump(), "application/json")] *)
Definition respond (z : Z) (fields : list (bytes * value)) : HM () :=
  set_status z;;
  set_content (json_to_string (json_of fields)) #"application/json".

Definition call_processor (eventStr : bytes) : HM (bool * bytes) := λ s,
  match eventProcessor with
  | None => (Ok (false, []), s)
  | Some f => let '(r, p) := f (proc s) eventStr in (r, set_proc p s)
  end.

Definition not_ok (message : bytes) : list (bytes * value) :=
  [(#"ok", JBool false); (#"message", JString message)].

Definition error_field (message : bytes) : list (bytes * value) :=
  [(#"error", JString message)].

(** A branch that answers, counts the request and records its duration. *)
Definition finish (method endpoint reqId : bytes) (startMs : N) (code : Z)
    (fields : list (bytes * value)) : HM () :=
  respond code fields;;
  count_request method code;;
  observe_duration now_ms endpoint startMs;;
  log_response now_ms reqId code startMs.

(** ** POST /api/quotes *)

Definition accept_event (body reqId : bytes) (startMs : N) (eventJson : value) : HM () :=
  ok ← lift (has_fields eventJson event_fields);
  if negb ok then
    finish #"POST" #"/api/quotes" reqId startMs 400
      (not_ok #"Invalid event structure: missing or invalid required fields")
  else
    idValue ← lift (at_key eventJson #"id");
    eventId ← lift (get_string idValue);
    '(accepted, errorMsg) ← call_processor body;
    (if accepted : bool then
       with_metrics incrementEventsAccepted;;
       respond 200 [(#"ok", JBool true); (#"message", JString #"Quote accepted");
                    (#"id", JString eventId)]
     else
       with_metrics incrementEventsRejected;;
       respond 400 (not_ok (if length errorMsg =? 0 then #"Quote rejected" else errorMsg)));;
    code ← gets (λ s, res_status (res s));
    count_request #"POST" code;;
    observe_duration now_ms #"/api/quotes" startMs;;
    log_response now_ms reqId code startMs.

(** The first [catch] takes what [json::parse] throws, the second the rest. *)
Definition handleEventPost (req : Request) : HM () :=
  startMs ← getTimestampMs now_ms;
  reqId ← get_request_id;
  match json_from_string (body req) with
  | Throw e =>
      if catchable e then
        finish #"POST" #"/api/quotes" reqId startMs 400
          (not_ok (#"Invalid JSON: " ++ sanitizeErrorForClient (exn_what e)))
      else raise e
  | Ok eventJson =>
      try_catch (accept_event (body req) reqId startMs eventJson) (λ _,
        finish #"POST" #"/api/quotes" reqId startMs 500 (not_ok #"Internal server error"))
  end.

(** ** POST /api/quotes/batch *)

Definition batch_endpoint : bytes := #"/api/quotes/batch".

Definition at_index (i : nat) (rest : bytes) : bytes := #"Event at index " ++ show_nat i ++ rest.

(** The loop over the events; the result says whether it reached the end
    ([false]: it answered and the handler returns). *)
Fixpoint batch_loop (reqId : bytes) (startMs : N) (i : nat) (events : list value) : HM bool :=
  match events with
  | [] => mret true
  | eventJson :: events =>
      if negb (is_object eventJson) then
        finish #"POST" batch_endpoint reqId startMs 400
          (not_ok (at_index i #" is not an object"));;
        mret false
      else
        ok ← lift (has_fields eventJson event_fields);
        if negb ok then
          finish #"POST" batch_endpoint reqId startMs 400
            (not_ok (at_index i #" has invalid structure"));;
          mret false
        else
          idValue ← lift (at_key eventJson #"id");
          eventId ← lift (get_string idValue);
          '(accepted, errorMsg) ← call_processor (json_to_string eventJson);
          if negb accepted then
            with_metrics incrementEventsRejected;;
            finish #"POST" batch_endpoint reqId startMs 400
              [(#"ok", JBool false);
               (#"message", JString (at_index i #" rejected: " ++
                  (if length errorMsg =? 0 then #"validation failed" else errorMsg)));
               (#"failed_index", JUnsigned (N.of_nat i)); (#"failed_id", JString eventId)];;
            mret false
          else
            with_metrics incrementEventsAccepted;;
            batch_loop reqId startMs (S i) events
  end.

(** The events of the request, in either format. *)
Definition batch_events (batchJson : value) : option (list value) :=
  match batchJson with
  | JArray events => Some events
  | JObject kvs =>
      match assoc #"events" kvs with
      | Some (JArray events) => Some events
      | _ => None
      end
  | _ => None
  end.

Definition run_batch (reqId : bytes) (startMs : N) (batchJson : value) : HM () :=
  let refuse (code : Z) (m : bytes) :=
    finish #"POST" batch_endpoint reqId startMs code (not_ok m) in
  match batch_events batchJson with
  | None => refuse 400%Z #"Request body must be a JSON array or object with 'events' array"
  | Some events =>
      let eventCount := length events in
      if eventCount =? 0 then refuse 400%Z #"Empty event array"
      else if MAX_BATCH_SIZE <? eventCount then
        refuse 400%Z #"Batch size exceeds maximum of 1000 events"
      else
        done ← batch_loop reqId startMs 0 events;
        if done : bool then
          finish #"POST" batch_endpoint reqId startMs 201
            [(#"success", JBool true); (#"published", JSigned (Z.of_nat eventCount));
             (#"failed", JSigned 0); (#"message", JString #"Batch accepted")]
        else mret tt
  end.

Definition handleEventPostBatch (req : Request) : HM () :=
  startMs ← getTimestampMs now_ms;
  reqId ← get_request_id;
  try_catch
    (match json_from_string (body req) with
     | Throw e =>
         if catchable e then
           finish #"POST" batch_endpoint reqId startMs 400
             (not_ok (#"Invalid JSON: " ++ sanitizeErrorForClient (exn_what e)))
         else raise e
     | Ok batchJson => run_batch reqId startMs batchJson
     end)
    (λ _, finish #"POST" batch_endpoint reqId startMs 500
       [(#"success", JBool false); (#"published", JSigned 0); (#"failed", JSigned 0);
        (#"message", JString #"Internal server error")]).

(** ** GET /api/quotes/:id *)

Definition get_reply (code : Z) (message : bytes) : HM () :=
  respond code (error_field message);; count_request #"GET" code.

(** [getEventJson] with the transaction's decompressor; the caches are
    threaded by the caller. *)
Definition read_event (c : DictCaches) (levId : N) : result (DictCaches * bytes) :=
  getEventJson cfg c d levId.

(** A fresh [Decompressor] on top of the process-wide cache. *)
Definition fresh_caches : HM DictCaches := gets (λ s, mk_caches ∅ (dictionaries s)).

Definition decode_event_id (eventId : bytes) : result bytes :=
  eventIdBytes ← from_hex_default eventId;
  if negb (length eventIdBytes =? 32) then Throw (herr #"Invalid event ID length")
  else Ok eventIdBytes.

Definition find_quote (eventIdBytes : bytes) : HM () :=
  match lookupEventById d eventIdBytes with
  | None => get_reply 404 #"Event not found"
  | Some (levId, _) =>
      c ← fresh_caches;
      '(c, eventJsonStr) ← lift (read_event c levId);
      set_dictionaries (global_dicts c);;
      set_status 200;;
      set_content eventJsonStr #"application/json";;
      count_request #"GET" 200
  end.

Definition handleGetQuote (req : Request) : HM () :=
  try_catch
    (match req_matches req !! 1 with
     | None => get_reply 400 #"Missing event ID"
     | Some eventId =>
         if length eventId =? 0 then get_reply 400 #"Missing event ID"
         else
           match decode_event_id eventId with
           | Throw e => if catchable e then get_reply 400 #"Invalid event ID format" else raise e
           | Ok eventIdBytes => find_quote eventIdBytes
           end
     end)
    (λ _, get_reply 500 #"Internal server error").

(** ** Running a query inside a handler *)

(** [foreachByFilter(txn, filter, cb)]. *)
Definition run_query {B} (cb : B → N → result B) (filter : value) (b : B) : HM B :=
  t ← gets us_tick;
  '(b, t) ← lift (foreachByFilter cb curr_time_us d filter b t);
  set_us_tick t;;
  mret b.

(** The callback that keeps the first event's text. *)
Definition first_cb (st : DictCaches * option bytes) (levId : N)
    : result (DictCaches * option bytes) :=
  match st.2 with
  | Some _ => Ok st
  | None => '(c, json) ← read_event st.1 levId; Ok (c, Some json)
  end.

(** The callback that looks for a commit hash among the first 5000 events. *)
Definition commit_cb (dTag : bytes) (st : DictCaches * option bytes * N) (levId : N)
    : result (DictCaches * option bytes * N) :=
  let '(c, found, scanned) := st in
  if bool_decide (is_Some found) || (COMMIT_HASH_SCAN_LIMIT <=? scanned)%N then Ok st
  else
    '(c, candidateJson) ← read_event c levId;
    Ok (c, if eventMatchesCommitHash candidateJson dTag then Some candidateJson else None,
        u64_add scanned 1).

(** ** GET /api/quotes?d= *)

(** A lookup in its own [try]: on an exception it answers 500 and the handler
    returns ([None]). *)
Definition guarded {A} (reqId : bytes) (startMs : N) (m : HM A) : HM (option A) :=
  try_catch (a ← m; mret (Some a)) (λ _,
    get_reply 500 #"Internal server error";;
    log_response now_ms reqId 500 startMs;;
    mret None).

Definition lookup_dtag (dTag : bytes) (c : DictCaches) : HM (DictCaches * option bytes) :=
  dTagFilter ← lift (buildDTagFilter dTag);
  run_query first_cb dTagFilter (c, None).

Definition lookup_commit (dTag : bytes) (c : DictCaches) : HM (DictCaches * option bytes) :=
  let commitHashFilter := buildKindFilter 30078 COMMIT_HASH_SCAN_LIMIT in
  '(c, found, _) ← run_query (commit_cb dTag) commitHashFilter (c, None, 0%N);
  mret (c, found).

Definition reply_dtag (reqId : bytes) (startMs : N) (found : option bytes) : HM () :=
  match found with
  | None =>
      get_reply 404 #"event not found for specified d tag";;
      log_response now_ms reqId 404 startMs
  | Some eventJsonStr =>
      set_status 200;;
      set_content eventJsonStr #"application/json";;
      count_request #"GET" 200;;
      log_response now_ms reqId 200 startMs
  end.

Definition search_dtag (reqId : bytes) (startMs : N) (dTag : bytes) : HM () :=
  c ← fresh_caches;
  r ← guarded reqId startMs (lookup_dtag dTag c);
  match r with
  | None => mret tt
  | Some (c, Some json) =>
      set_dictionaries (global_dicts c);; reply_dtag reqId startMs (Some json)
  | Some (c, None) =>
      r ← guarded reqId startMs (lookup_commit dTag c);
      match r with
      | None => mret tt
      | Some (c, found) =>
          set_dictionaries (global_dicts c);; reply_dtag reqId startMs found
      end
  end.

Definition handleGetQuoteByDTag (req : Request) : HM () :=
  reqId ← get_request_id;
  startMs ← getTimestampMs now_ms;
  try_catch
    (let dTag := get_param_value req #"d" in
     if length dTag =? 0 then
       get_reply 400 #"Missing 'd' query parameter";;
       log_response now_ms reqId 400 startMs
     else search_dtag reqId startMs dTag)
    (λ _, get_reply 500 #"Internal server error";; log_response now_ms reqId 500 startMs).

(** ** POST /api/quotes/batch/fetch *)

Definition fetch_endpoint : bytes := #"/api/quotes/batch/fetch".

Definition fetch_fields (success : bool) (results : list value) (message : bytes)
    : list (bytes * value) :=
  [(#"success", JBool success); (#"results", JArray results); (#"message", JString message)].

Definition fetch_error (dTag message : bytes) : value :=
  json_of [(#"d_tag", JString dTag); (#"error", JString message)].

(** The entry of one d tag. *)
Definition fetch_one (c : DictCaches) (i : nat) (dTagValue : value)
    : HM (DictCaches * value) :=
  match dTagValue with
  | JString dTag =>
      filterJson ← lift (buildDTagFilter dTag);
      r ← try_catch (r ← run_query first_cb filterJson (c, None); mret (inr r))
            (λ e, mret (inl e));
      match r with
      | inl e => mret (c, fetch_error dTag (#"filter error: " ++ exn_what e))
      | inr (c, None) => mret (c, fetch_error dTag #"event not found")
      | inr (c, Some eventJsonStr) =>
          eventJson ← lift (json_from_string eventJsonStr);
          mret (c, json_of [(#"d_tag", JString dTag); (#"event", eventJson)])
      end
  | _ => mret (c, fetch_error [] (#"d_tag at index " ++ show_nat i ++ #" is not a string"))
  end.

Fixpoint fetch_loop (c : DictCaches) (i : nat) (dTags : list value)
    : HM (DictCaches * list value) :=
  match dTags with
  | [] => mret (c, [])
  | dTag :: dTags =>
      '(c, result) ← fetch_one c i dTag;
      '(c, results) ← fetch_loop c (S i) dTags;
      mret (c, result :: results)
  end.

Definition run_fetch (reqId : bytes) (startMs : N) (reqJson : value) : HM () :=
  let answer code success results message :=
    finish #"POST" fetch_endpoint reqId startMs code (fetch_fields success results message) in
  dTagsPtr ← lift (json_find reqJson #"d_tags");
  match dTagsPtr with
  | Some (JArray dTags) =>
      let tagCount := length dTags in
      if tagCount =? 0 then answer 200%Z true [] #"No d_tags to fetch"
      else if MAX_BATCH_FETCH_SIZE <? tagCount then
        answer 400%Z false [] #"Batch size exceeds maximum of 1000 d_tags"
      else
        c ← fresh_caches;
        '(c, results) ← fetch_loop c 0 dTags;
        set_dictionaries (global_dicts c);;
        answer 200%Z true results #"Batch fetch complete"
  | _ => answer 400%Z false [] #"Request body must contain 'd_tags' array"
  end.

Definition handleBatchFetch (req : Request) : HM () :=
  startMs ← getTimestampMs now_ms;
  reqId ← get_request_id;
  try_catch
    (match json_from_string (body req) with
     | Throw e =>
         if catchable e then
           finish #"POST" fetch_endpoint reqId startMs 400
             (fetch_fields false []
                (#"Invalid JSON: " ++ sanitizeErrorForClient (exn_what e)))
         else raise e
     | Ok reqJson => run_fetch reqId startMs reqJson
     end)
    (λ _, finish #"POST" fetch_endpoint reqId startMs 500
       (fetch_fields false [] #"Internal server error")).

(** ** GET /health and GET /metrics *)

Definition handleHealthCheck : HM () :=
  respond 200 [(#"status", JString #"ok"); (#"service", JString #"strfry-http")];;
  count_request #"GET" 200.

Definition handleMetrics : HM () :=
  metricsOutput ← gets (λ s, renderPrometheus (metrics s));
  set_content metricsOutput #"text/plain; version=0.0.4";;
  set_status 200.

(** ** /api/query *)

(** The filter under construction, or the message of an early answer. *)
Definition params : Type := bytes + list (bytes * value).

(** A parameter that is there is parsed and becomes an entry. *)
Definition add_param (p : params) (req : Request) (name : bytes)
    (parse : bytes → params → params) : params :=
  let text := get_param_value req name in
  match p with
  | inl _ => p
  | inr _ => if length text =? 0 then p else parse text p
  end.

Definition add_entry (k : bytes) (v : value) (p : params) : params :=
  match p with inl _ => p | inr kvs => inr (obj_set k v kvs) end.

Definition strings_param (k text : bytes) (p : params) : params :=
  add_entry k (JArray (JString <$> getline_all text [])) p.

Definition kinds_param (text : bytes) (p : params) : params :=
  match mapR stoull (getline_all text []) with
  | Ok ks => add_entry #"kinds" (JArray (JUnsigned <$> ks)) p
  | Throw _ => inl #"Invalid kind parameter"
  end.

Definition number_param (k text : bytes) (p : params) : params :=
  match stoull text with
  | Ok n => add_entry k (JUnsigned n) p
  | Throw _ => inl (#"Invalid " ++ k ++ #" parameter")
  end.

Definition query_params (req : Request) : params :=
  let p := inr [] in
  let p := add_param p req #"ids" (strings_param #"ids") in
  let p := add_param p req #"authors" (strings_param #"authors") in
  let p := add_param p req #"kinds" kinds_param in
  let p := add_param p req #"since" (number_param #"since") in
  let p := add_param p req #"until" (number_param #"until") in
  add_param p req #"limit" (number_param #"limit").

(** The filter of the request, or the message of a 400. *)
Definition query_filter (req : Request) : result (bytes + value) :=
  if bool_decide (method req = #"POST") && negb (length (body req) =? 0) then
    match json_from_string (body req) with
    | Ok v => Ok (inr v)
    | Throw e =>
        if catchable e then
          Ok (inl (#"Invalid JSON in request body: " ++ sanitizeErrorForClient (exn_what e)))
        else Throw e
    end
  else
    Ok (match query_params req with
        | inl m => inl m
        | inr kvs => inr (JObject kvs)
        end).

(** [responseStr], [resultCount] and [first]. *)
Definition answer_cb (st : DictCaches * bytes * N * bool) (levId : N)
    : result (DictCaches * bytes * N * bool) :=
  let '(c, responseStr, resultCount, first) := st in
  if (MAX_QUERY_RESULTS <=? resultCount)%N then Ok st
  else
    '(c, eventJsonStr) ← read_event c levId;
    let responseStr := if first : bool then responseStr else responseStr ++ #"," in
    Ok (c, responseStr ++ eventJsonStr, u64_add resultCount 1, false).

Definition answer_query (method : bytes) (filterJson : value) : HM () :=
  c ← fresh_caches;
  r ← try_catch
    (r ← run_query answer_cb filterJson (c, #"[", 0%N, true); mret (inr r))
    (λ e, mret (inl e));
  match r with
  | inl e =>
      let errMsg := exn_what e in
      let isFilterError := contains_sub errMsg #"filter" || contains_sub errMsg #"invalid" in
      let code := if isFilterError then 400%Z else 500%Z in
      respond code (error_field
        (if isFilterError then sanitizeErrorForClient errMsg else #"Internal server error"));;
      count_request method code
  | inr (c, responseStr, resultCount, _) =>
      set_dictionaries (global_dicts c);;
      with_metrics (λ m, observeQueryResults m resultCount);;
      count_request method 200;;
      set_status 200;;
      set_content (responseStr ++ #"]") #"application/json"
  end.

Definition handleQuery (req : Request) : HM () :=
  try_catch
    (f ← lift (query_filter req);
     match f with
     | inl message => respond 400 (error_field message)
     | inr filterJson => answer_query (method req) filterJson
     end)
    (λ _, count_request (method req) 500;;
          respond 500 (error_field #"Internal server error")).
End handlers.
