(* ===== verification/HttpServer.v ===== *)
(** The HTTP server around its handlers ([HttpServer.cpp], the constructor,
    [setupRoutes] and [gracefulShutdown]).

    The HTTP library calls [preRouting] on every request, then the handler of
    the matching route unless the request was handled, then [postRouting]. *)

From S2P Require Import Prelude Bytes Json Hex PackedEvent FilterSets Filters Config EventParse.
From S2P Require Import Db Payload Subscription DBQuery Double.
From S2P Require Import RateLimit HttpUtil HttpMetrics HttpMonad HttpHandlers.

(** ** Construction *)

(** The settings of the constructor's rate limiter; the multiplier is text. *)
Record RateLimitSettings := mk_settings {
  relay__ratelimit__enabled : bool;
  relay__ratelimit__perIpPerMinute : N;
  relay__ratelimit__perPubkeyPerMinute : N;
  relay__ratelimit__globalPerMinute : N;
  relay__ratelimit__burstMultiplier : bytes;
  relay__ratelimit__cleanupIntervalSeconds : N;
}.

(** [stod] is the standard library's; any exception gives the default. *)
Definition safeParseDouble (stod : bytes → result double) (str : bytes) (defaultVal : double)
    : double :=
  match stod str with Ok x => x | Throw _ => defaultVal end.

Definition rateLimitConfig (stod : bytes → result double) (s : RateLimitSettings)
    : RateLimiter.Config :=
  RateLimiter.mk_Config (relay__ratelimit__enabled s) (relay__ratelimit__perIpPerMinute s)
    (relay__ratelimit__perPubkeyPerMinute s) (relay__ratelimit__globalPerMinute s)
    (safeParseDouble stod (relay__ratelimit__burstMultiplier s) (dbl_of_Z 2))
    (relay__ratelimit__cleanupIntervalSeconds s)
    (RateLimiter.maxIpBuckets RateLimiter.default_Config)
    (RateLimiter.maxPubkeyBuckets RateLimiter.default_Config)
    (RateLimiter.staleBucketSeconds RateLimiter.default_Config).

(** The members of a new server whose processor state is [p]. *)
Definition new_server `{!Zstd} {P} (stod : bytes → result double) (clock : nat → Z)
    (s : RateLimitSettings) (p : P) : http_state P :=
  mk_http reset p ∅ new_response
    (RateLimiter.new_limiter clock (rateLimitConfig stod s) 0)
    0 false false [] 0 0 0.

Inductive HandlerResponse := Handled | Unhandled.

#[export] Instance HandlerResponse_eq_dec : EqDecision HandlerResponse.
Proof. solve_decision. Defined.

Section server.
Context `{!Hex, !NativeU64, !GolpeKeys, !Env, !JsonParser, !EventLibs, !Zstd} {P : Type}.
Variable cfg : Config.
Variable d : env.
Variable eventProcessor : option (P → bytes → result (bool * bytes) * P).
Variable lib_what : exn → bytes.
Variable from_hex_default : bytes → result bytes.
(** [tao::json::to_string(v, indent)] *)
Variable json_to_string_indent : N → value → bytes.
Variable now_ms : nat → N.
Variable random_id : nat → N.
Variable curr_time_us : nat → N.
(** The limiter's clock. *)
Variable clock : nat → Z.
Variable enableCors trustProxy : bool.
Variable corsOrigin : bytes.

#[local] Notation HM := (HM P).

Definition setupSecurityHeaders : HM () :=
  set_header #"X-Content-Type-Options" #"nosniff";;
  set_header #"X-Frame-Options" #"DENY";;
  set_header #"Content-Security-Policy" #"default-src 'none'; frame-ancestors 'none'";;
  set_header #"X-XSS-Protection" #"1; mode=block";;
  set_header #"Referrer-Policy" #"no-referrer".

Definition setupCorsHeaders : HM () :=
  if enableCors then
    set_header #"Access-Control-Allow-Origin" corsOrigin;;
    set_header #"Access-Control-Allow-Methods" #"POST, GET, OPTIONS";;
    set_header #"Access-Control-Allow-Headers" #"Content-Type"
  else mret tt.

(** [rateLimiter->checkAndConsume(ip, pubkey)] *)
Definition check_limiter (clientIP pubkey : bytes) : HM RateLimiter.CheckResult :=
  l ← gets rateLimiter;
  '(r, l) ← lift (RateLimiter.checkAndConsume clock clientIP pubkey l);
  set_limiter l;;
  mret r.

(** The branch that refuses a request. *)
Definition refuse_request (req : Request) (reqId clientIP reason : bytes) (startMs : N) : HM () :=
  with_metrics incrementRateLimitBlocks;;
  set_status 429;;
  set_header #"Retry-After" #"60";;
  logRateLimit reqId clientIP reason;;
  set_content (json_to_string (json_of (not_ok reason))) #"application/json";;
  count_request (method req) 429;;
  log_response now_ms reqId 429 startMs;;
  decrementActiveRequests.

Definition exempt (req : Request) : bool :=
  bool_decide (path req = #"/health") || bool_decide (path req = #"/metrics").

Definition rate_limit (req : Request) (reqId clientIP : bytes) (startMs : N)
    : HM HandlerResponse :=
  if exempt req then mret Unhandled
  else
    let pubkey := extractPubkeyFromRequest req in
    with_metrics incrementRateLimitHits;;
    checkResult ← check_limiter clientIP pubkey;
    if negb (RateLimiter.allowed checkResult) then
      refuse_request req reqId clientIP (RateLimiter.reason checkResult) startMs;;
      mret Handled
    else mret Unhandled.

(** The pre-routing handler. *)
Definition preRouting (req : Request) : HM HandlerResponse :=
  enter_request;;
  reqId ← generateRequestId random_id;
  set_header #"X-Request-ID" reqId;;
  startMs ← getTimestampMs now_ms;
  setupCorsHeaders;;
  setupSecurityHeaders;;
  let clientIP := getClientIP trustProxy req in
  logRequest reqId (method req) (path req) clientIP;;
  if bool_decide (method req = #"OPTIONS") && enableCors then
    set_status 200;;
    count_request #"OPTIONS" 200;;
    log_response now_ms reqId 200 startMs;;
    decrementActiveRequests;;
    mret Handled
  else rate_limit req reqId clientIP startMs.

Definition handleRoot : HM () :=
  set_content (json_to_string_indent 2 (json_of
    [(#"name", JString #"strfry HTTP API"); (#"version", JString #"1.0.0");
     (#"endpoints", json_of
        [(#"/api/quotes", JString #"POST - Submit Nostr quote event");
         (#"/api/quotes/batch",
            JString #"POST - Submit batch of events (accepts array or {events: array})");
         (#"/api/quotes/batch/fetch", JString #"POST - Fetch batch of events by d_tags");
         (#"/api/quotes/:id", JString #"GET - Get quote by ID");
         (#"/api/query", JString #"GET - Query events");
         (#"/health", JString #"GET - Health check");
         (#"/metrics", JString #"GET - Prometheus metrics")])])) #"application/json".

(** The registered handlers: method, pattern, handler. *)
Definition routes : list (bytes * bytes * (Request → HM ())) :=
  let query := handleQuery cfg d lib_what curr_time_us in
  [(#"GET", #"/api/query", query);
   (#"POST", #"/api/query", query);
   (#"POST", #"/api/quotes", handleEventPost eventProcessor lib_what now_ms);
   (#"POST", #"/api/quotes/batch", handleEventPostBatch eventProcessor lib_what now_ms);
   (#"POST", #"/api/quotes/batch/fetch", handleBatchFetch cfg d lib_what now_ms curr_time_us);
   (#"GET", #"/api/quotes", handleGetQuoteByDTag cfg d now_ms curr_time_us);
   (#"GET", #"/api/quotes/([0-9a-fA-F]+)", handleGetQuote cfg d from_hex_default);
   (#"GET", #"/health", λ _, handleHealthCheck);
   (#"GET", #"/metrics", λ _, handleMetrics);
   (#"GET", #"/", λ _, handleRoot)].

Definition postRouting : HM () := decrementActiveRequests.

(** [gracefulShutdown] up to the wait: whether there is something to wait
    for. *)
Definition begin_shutdown : HM bool := λ s,
  (Ok (0 <? activeRequests_ s)%Z,
   mk_http (metrics s) (proc s) (dictionaries s) (res s) (rateLimiter s) (activeRequests_ s)
     true (notified s) (logs s) (ms_tick s) (us_tick s) (id_tick s)).
End server.
