(* ===== verification/HttpCounting.v ===== *)
(** Every handled request is counted once, under the status it was answered
    with.

    [wp m Q s] runs [m] from [s]; its rules are those of a weakest
    precondition, so that a handler is executed symbolically by
    [wp_step]. *)

From S2P Require Import Prelude Bytes Json Hex PackedEvent FilterSets Filters Config EventParse.
From S2P Require Import Db Payload Subscription DBQuery.
From S2P Require Import RateLimit HttpUtil HttpMetrics HttpMonad HttpHandlers.

Section wp.
Context `{!Zstd} {P : Type}.

Definition wp {A} (m : HM P A) (Q : result A → http_state P → Prop) (s : http_state P) : Prop :=
  Q (m s).1 (m s).2.

Lemma wp_ret {A} (a : A) Q s : Q (Ok a) s → wp (mret a) Q s.
Proof. done. Qed.

Lemma wp_bind {A B} (m : HM P A) (f : A → HM P B) Q s :
  wp m (λ r s', match r with Ok a => wp (f a) Q s' | Throw e => Q (Throw e) s' end) s →
  wp (m ≫= f) Q s.
Proof. unfold wp, mbind, HM_bind. by destruct (m s) as [[a|e] s']. Qed.

Lemma wp_try_catch {A} (m : HM P A) h Q s :
  wp m (λ r s', match r with
                | Ok a => Q (Ok a) s'
                | Throw e => if catchable e then wp (h e) Q s' else Q (Throw e) s'
                end) s →
  wp (try_catch m h) Q s.
Proof. unfold wp, try_catch. destruct (m s) as [[a|e] s']; simpl; [auto|]. destruct (catchable e); auto. Qed.

Lemma bind_run {A B} (m : HM P A) (f : A → HM P B) s a s' :
  m s = (Ok a, s') → (m ≫= f) s = f a s'.
Proof. unfold mbind, HM_bind. by intros ->. Qed.

Lemma wp_lift {A} (r : result A) Q s : Q r s → wp (lift r) Q s.
Proof. done. Qed.

Lemma wp_raise {A} e (Q : result A → _) s : Q (Throw e) s → wp (raise e) Q s.
Proof. done. Qed.

Lemma wp_gets {A} (f : _ → A) Q s : Q (Ok (f s)) s → wp (gets f) Q s.
Proof. done. Qed.

Lemma wp_mono {A} (m : HM P A) (Q Q' : _ → _ → Prop) s :
  wp m Q s → (∀ r s', Q r s' → Q' r s') → wp m Q' s.
Proof. unfold wp. auto. Qed.
End wp.

(** Execute the next step. *)
Ltac wp_step :=
  lazymatch goal with
  | |- wp (mbind _ _) _ _ => apply wp_bind
  | |- wp (try_catch _ _) _ _ => apply wp_try_catch
  | |- wp (mret _) _ _ => apply wp_ret
  | |- wp (lift _) _ _ => apply wp_lift
  | |- wp (raise _) _ _ => apply wp_raise
  | |- wp (gets _) _ _ => apply wp_gets
  | |- wp (match ?x with _ => _ end) _ _ => destruct x eqn:?
  | |- match ?x with _ => _ end => destruct x eqn:?
  end.

Section counting.
Context `{!Hex, !NativeU64, !GolpeKeys, !Env, !JsonParser, !EventLibs, !Zstd} {P : Type}.

(** The request counters, and the status of the response. *)
Definition counted_state : Type := gmap (Method * Z) N * N * Z.

Definition counters (s : http_state P) : gmap (Method * Z) N * N :=
  (requestCounts_ (metrics s), totalRequests_ (metrics s)).

Definition status_of (s : http_state P) : Z := res_status (res s).

(** One more request of this method and status. *)
Definition bump (method : bytes) (code : Z) (c : gmap (Method * Z) N * N)
    : gmap (Method * Z) N * N :=
  let key := (methodFromString method, code) in
  (<[key := u64_add (default 0%N (c.1 !! key)) 1]> c.1, u64_add c.2 1).

(** [counts method c r s]: the request was counted on top of [c] under the
    response's status, unless something that is no exception got through. *)
Definition counts {A : Type} (method : bytes) (c : gmap (Method * Z) N * N) (r : result A)
    (s : http_state P) : Prop :=
  match r with
  | Ok _ => counters s = bump method (status_of s) c
  | Throw e => catchable e = false
  end.

Lemma wp_count_request method code Q s :
  (∀ s', counters s' = bump method code (counters s) → status_of s' = status_of s →
     Q (Ok tt) s') →
  wp (count_request method code) Q s.
Proof. intros HQ. by apply HQ. Qed.

(** Steps that leave the counters and the status alone. *)
Definition quiet {A} (m : HM P A) : Prop :=
  ∀ s, counters (m s).2 = counters s ∧ status_of (m s).2 = status_of s.

Definition answers {A} (m : HM P A) : Prop := ∀ s, ∃ a, (m s).1 = Ok a.

Lemma wp_quiet {A} (m : HM P A) Q s :
  quiet m →
  (∀ r s', counters s' = counters s → status_of s' = status_of s → Q r s') → wp m Q s.
Proof. intros Hm HQ. destruct (Hm s). by apply HQ. Qed.

Lemma quiet_wp {A} (m : HM P A) :
  (∀ s, wp m (λ _ s', counters s' = counters s ∧ status_of s' = status_of s) s) → quiet m.
Proof. intros Hm s. apply (Hm s). Qed.

Lemma wp_quiet_total {A} (m : HM P A) Q s :
  quiet m → answers m →
  (∀ a s', counters s' = counters s → status_of s' = status_of s → Q (Ok a) s') → wp m Q s.
Proof. intros Hm Ht HQ. destruct (Hm s), (Ht s) as [a Ha]. unfold wp. rewrite Ha. by apply HQ. Qed.

Lemma wp_respond z fields Q s :
  (∀ s', counters s' = counters s → status_of s' = z → Q (Ok tt) s') → wp (respond z fields) Q s.
Proof. intros HQ. by apply HQ. Qed.

Lemma wp_set_status z Q s :
  (∀ s', counters s' = counters s → status_of s' = z → Q (Ok tt) s') →
  wp (P := P) (set_status z) Q s.
Proof. intros HQ. by apply HQ. Qed.

Lemma wp_finish now method endpoint reqId startMs code fields Q s :
  (∀ s', counters s' = bump method code (counters s) → status_of s' = code → Q (Ok tt) s') →
  wp (finish now method endpoint reqId startMs code fields) Q s.
Proof. intros HQ. by apply HQ. Qed.

Lemma wp_get_reply code message Q s :
  (∀ s', counters s' = bump #"GET" code (counters s) → status_of s' = code → Q (Ok tt) s') →
  wp (get_reply code message) Q s.
Proof. intros HQ. by apply HQ. Qed.

Lemma wp_call_processor ep ev Q s :
  (∀ r s', counters s' = counters s → status_of s' = status_of s → Q r s') →
  wp (call_processor ep ev) Q s.
Proof.
  intros HQ. apply wp_quiet; [|done]. intros s1. unfold call_processor.
  destruct ep as [f|]; [|done]. by destruct (f (proc s1) ev).
Qed.

Lemma wp_run_query {B} d clock (cb : B → N → result B) v b Q s :
  (∀ r s', counters s' = counters s → status_of s' = status_of s → Q r s') →
  wp (run_query (P := P) d clock cb v b) Q s.
Proof.
  intros HQ. unfold run_query. apply wp_bind, wp_gets, wp_bind, wp_lift.
  destruct (foreachByFilter _ _ _ _ _ _) as [[b' t]|e]; by apply HQ.
Qed.
End counting.

Ltac quiet_step := apply wp_quiet_total; [done|intros ?; by eexists|intros ????].

(** Execute a handler, remembering what happens to the counters. *)
Ltac counting_step :=
  lazymatch goal with
  | |- wp (respond _ _) _ _ => apply wp_respond; intros ???
  | |- wp (set_status _) _ _ => apply wp_set_status; intros ???
  | |- wp (count_request _ _) _ _ => apply wp_count_request; intros ???
  | |- wp (finish _ _ _ _ _ _ _) _ _ => apply wp_finish; intros ???
  | |- wp (get_reply _ _) _ _ => apply wp_get_reply; intros ???
  | |- wp (call_processor _ _) _ _ => apply wp_call_processor; intros ????
  | |- wp (run_query _ _ _ _ _) _ _ => apply wp_run_query; intros ????
  | |- wp (set_content _ _) _ _ => quiet_step
  | |- wp (set_dictionaries _) _ _ => quiet_step
  | |- wp (with_metrics _) _ _ => quiet_step
  | |- wp (observe_duration _ _ _) _ _ => quiet_step
  | |- wp (log_response _ _ _ _) _ _ => quiet_step
  | |- wp fresh_caches _ _ => quiet_step
  | |- wp get_request_id _ _ => quiet_step
  | |- wp (getTimestampMs _) _ _ => quiet_step
  | |- _ => wp_step
  end.

Ltac counting :=
  repeat (counting_step; cbv beta iota); unfold counts in *;
  repeat match goal with
  | H : context [res_status (res ?s)] |- _ => change (res_status (res s)) with (status_of s) in H
  end;
  try congruence.

Section handlers.
Context `{!Hex, !NativeU64, !GolpeKeys, !Env, !JsonParser, !EventLibs, !Zstd} {P : Type}.
Variable cfg : Config.
Variable d : env.
Variable ep : option (P → bytes → result (bool * bytes) * P).
Variable lib_what : exn → bytes.
Variable from_hex_default : bytes → result bytes.
Variable now_ms : nat → N.
Variable curr_time_us : nat → N.

(** What runs inside a [try]: counted, or nothing counted before it throws. *)
Definition inside {A : Type} (method : bytes) (s : http_state P) (r : result A)
    (s' : http_state P) : Prop :=
  match r with
  | Ok _ => counters s' = bump method (status_of s') (counters s)
  | Throw _ => counters s' = counters s
  end.

Lemma accept_event_inside body reqId startMs v (s : http_state P) :
  wp (accept_event ep now_ms body reqId startMs v) (inside #"POST" s) s.
Proof. unfold accept_event, inside. counting. Qed.

Lemma handleEventPost_counts req (s : http_state P) :
  wp (handleEventPost ep lib_what now_ms req) (counts #"POST" (counters s)) s.
Proof.
  unfold handleEventPost. counting.
  eapply wp_mono; [apply accept_event_inside|]. intros [[]|e] s2 Hs2; unfold inside in Hs2; counting.
Qed.

Lemma batch_loop_inside reqId startMs i events (s : http_state P) :
  wp (batch_loop ep now_ms reqId startMs i events)
    (λ r s', match r with
             | Ok true => counters s' = counters s
             | _ => inside #"POST" s r s'
             end) s.
Proof.
  revert i s. induction events as [|v events IH]; intros i s; cbn [batch_loop];
    counting; unfold inside; try congruence.
  eapply wp_mono; [apply IH|]. intros r' s2. unfold inside.
  destruct r' as [[]|]; congruence.
Qed.

Lemma handleEventPostBatch_counts req (s : http_state P) :
  wp (handleEventPostBatch ep lib_what now_ms req) (counts #"POST" (counters s)) s.
Proof.
  unfold handleEventPostBatch, run_batch. counting;
    (eapply wp_mono; [apply batch_loop_inside|]); intros [[]|e2] s2 Hs2; unfold inside in Hs2;
    counting.
Qed.

Lemma find_quote_inside i (s : http_state P) :
  wp (find_quote cfg d i) (inside #"GET" s) s.
Proof. unfold find_quote, inside. counting. Qed.

Lemma handleGetQuote_counts req (s : http_state P) :
  wp (handleGetQuote cfg d from_hex_default req) (counts #"GET" (counters s)) s.
Proof.
  unfold handleGetQuote. counting.
  eapply wp_mono; [apply find_quote_inside|]. unfold inside. intros [[]|e] s2 Hs2; counting.
Qed.

Lemma lookup_dtag_quiet dTag c : quiet (P := P) (lookup_dtag cfg d curr_time_us dTag c).
Proof.
  apply quiet_wp. intros s. unfold lookup_dtag. counting; split; congruence.
Qed.

Lemma lookup_commit_quiet dTag c : quiet (P := P) (lookup_commit cfg d curr_time_us dTag c).
Proof.
  apply quiet_wp. intros s. unfold lookup_commit. counting; split; congruence.
Qed.

(** A guarded lookup answers itself, or leaves the counting to the rest. *)
Lemma guarded_inside {A} reqId startMs (m : HM P A) s :
  quiet m →
  wp (guarded now_ms reqId startMs m) (λ r s',
    match r with
    | Ok (Some _) => counters s' = counters s ∧ status_of s' = status_of s
    | Ok None => counters s' = bump #"GET" (status_of s') (counters s)
    | Throw e => catchable e = false ∧ counters s' = counters s
    end) s.
Proof.
  intros Hm. unfold guarded. apply wp_try_catch, wp_bind, wp_quiet; [done|]. intros r s1 ??.
  counting; try split; congruence.
Qed.

Lemma search_dtag_inside reqId startMs dTag (s : http_state P) :
  wp (search_dtag cfg d now_ms curr_time_us reqId startMs dTag) (inside #"GET" s) s.
Proof.
  unfold search_dtag, inside. counting.
  eapply wp_mono; [apply guarded_inside, lookup_dtag_quiet|]. intros r1 s1 Hr1.
  unfold reply_dtag. counting; try (destruct Hr1; congruence).
  eapply wp_mono; [apply guarded_inside, lookup_commit_quiet|]. intros r2 s2 Hr2.
  counting; destruct_and?; try congruence.
Qed.

Lemma handleGetQuoteByDTag_counts req (s : http_state P) :
  wp (handleGetQuoteByDTag cfg d now_ms curr_time_us req) (counts #"GET" (counters s)) s.
Proof.
  unfold handleGetQuoteByDTag. counting.
  eapply wp_mono; [apply search_dtag_inside|]. unfold inside. intros [[]|e] s2 Hs2; counting.
Qed.

Lemma fetch_one_quiet c i v : quiet (P := P) (fetch_one cfg d lib_what curr_time_us c i v).
Proof.
  apply quiet_wp. intros s. unfold fetch_one. counting; split; congruence.
Qed.

Lemma fetch_loop_quiet c i vs : quiet (P := P) (fetch_loop cfg d lib_what curr_time_us c i vs).
Proof.
  apply quiet_wp. revert c i. induction vs as [|v vs IH]; intros c i s; cbn [fetch_loop]; counting.
  - done.
  - apply wp_quiet; [apply fetch_one_quiet|]. intros r s1 ??. counting; [|done].
    eapply wp_mono; [apply IH|]. intros r2 s2 []. counting; split; congruence.
Qed.

Lemma run_fetch_inside reqId startMs v (s : http_state P) :
  wp (run_fetch cfg d lib_what now_ms curr_time_us reqId startMs v) (inside #"POST" s) s.
Proof.
  unfold run_fetch, inside. counting.
  apply wp_quiet; [apply fetch_loop_quiet|]. intros r s1 ??. counting.
Qed.

Lemma handleBatchFetch_counts req (s : http_state P) :
  wp (handleBatchFetch cfg d lib_what now_ms curr_time_us req) (counts #"POST" (counters s)) s.
Proof.
  unfold handleBatchFetch. counting.
  eapply wp_mono; [apply run_fetch_inside|]. unfold inside. intros [[]|e] s2 Hs2; counting.
Qed.

Lemma handleHealthCheck_counts (s : http_state P) : wp handleHealthCheck (counts #"GET" (counters s)) s.
Proof. unfold handleHealthCheck. counting. Qed.

Lemma answer_query_inside method v (s : http_state P) :
  wp (answer_query cfg d lib_what curr_time_us method v) (inside method s) s.
Proof. unfold answer_query, inside. counting. Qed.

(** A query whose parameters are refused is answered with 400 and not counted. *)
Lemma handleQuery_counts req (s : http_state P) :
  wp (handleQuery cfg d lib_what curr_time_us req) (λ r s',
    match query_filter lib_what req with
    | Ok (inl _) => r = Ok tt ∧ status_of s' = 400%Z ∧ counters s' = counters s
    | _ => counts (method req) (counters s) r s'
    end) s.
Proof.
  unfold handleQuery. counting.
  - done.
  - eapply wp_mono; [apply answer_query_inside|]. unfold inside. intros [[]|e] s2 Hs2; counting.
Qed.
End handlers.
