(* ===== verification/HttpServerTheorems.v ===== *)
(** What the HTTP server guarantees around its handlers: every answered
    request is counted, and no request reaches a handler without passing the
    pre-routing gate. *)

From S2P Require Import Prelude Bytes Json Hex PackedEvent FilterSets Filters Config EventParse Db.
From S2P Require Import MemDb Payload StoreTheorems Subscription DBQuery Double RateLimit.
From S2P Require Import RateLimitTheorems HttpUtil HttpMetrics HttpMonad HttpHandlers HttpServer.
From S2P Require Import HttpCounting.

Section server.
Context `{!Hex, !NativeU64, !GolpeKeys, !Env, !JsonParser, !EventLibs, !Zstd} {P : Type}.
Variable cfg : Config.
Variable d : env.
Variable ep : option (P → bytes → result (bool * bytes) * P).
Variable lib_what : exn → bytes.
Variable from_hex_default : bytes → result bytes.
Variable json_to_string_indent : N → value → bytes.
Variable now_ms curr_time_us : nat → N.

#[local] Abbreviation all_routes :=
  (routes (P := P) cfg d ep lib_what from_hex_default json_to_string_indent now_ms curr_time_us).

(** How a handler comes back: its answer is counted, or it is one of the
    exceptions. *)
Definition counted_once (method pattern : bytes) (req : Request) (s : http_state P)
    (p : result () * http_state P) : Prop :=
  match p with
  | (Throw e, _) => catchable e = false
  | (Ok _, s') =>
      pattern ∉ [ #"/metrics"; #"/"] ∧ counters s' = bump method (status_of s') (counters s) ∨
      pattern ∈ [ #"/metrics"; #"/"] ∧ counters s' = counters s ∨
      pattern = #"/api/query" ∧ status_of s' = 400%Z ∧ counters s' = counters s ∧
      ∃ message, query_filter lib_what req = Ok (inl message)
  end.

Lemma counts_once method pattern req s m :
  pattern ∉ [ #"/metrics"; #"/"] → wp m (counts method (counters s)) s →
  counted_once method pattern req s (m s).
Proof. unfold wp, counts, counted_once. destruct (m s) as [[[]|e] s']; simpl; auto. Qed.

Lemma counts_nothing method pattern req (s : http_state P) m s' :
  pattern ∈ [ #"/metrics"; #"/"] → m s = (Ok tt, s') → metrics s' = metrics s →
  counted_once method pattern req s (m s).
Proof. intros Hp -> Hm. right. left. split; [done|]. unfold counters. by rewrite Hm. Qed.

Lemma query_counted_once method req s :
  HttpUtil.method req = method →
  counted_once method #"/api/query" req s (handleQuery cfg d lib_what curr_time_us req s).
Proof.
  intros <-. pose proof (handleQuery_counts cfg d lib_what curr_time_us req s) as Hq.
  unfold wp, counts, counted_once in *.
  destruct (handleQuery _ _ _ _ req s) as [r s']. cbn [fst snd] in Hq.
  assert (#"/api/query" ∉ [ #"/metrics"; #"/"]) as Hnp by (apply (bool_decide_unpack _); vm_compute; exact I).
  destruct (query_filter lib_what req) as [[message|]|]; [|destruct r; auto..].
  destruct Hq as (-> & ? & ?). right. right. eauto.
Qed.

#[local] Ltac not_a_page := apply (bool_decide_unpack _); vm_compute; exact I.

Lemma routes_counted req s :
  Forall (λ r, method req = r.1.1 →
    counted_once r.1.1 r.1.2 req s (r.2 req s)) all_routes.
Proof.
  unfold routes. cbv zeta.
  repeat (apply Forall_cons; split); [..|by apply Forall_nil]; cbn [fst snd]; intros Hm.
  - by apply query_counted_once.
  - by apply query_counted_once.
  - apply counts_once; [not_a_page|apply handleEventPost_counts].
  - apply counts_once; [not_a_page|apply handleEventPostBatch_counts].
  - apply counts_once; [not_a_page|apply handleBatchFetch_counts].
  - apply counts_once; [not_a_page|apply handleGetQuoteByDTag_counts].
  - apply counts_once; [not_a_page|apply handleGetQuote_counts].
  - apply counts_once; [not_a_page|apply handleHealthCheck_counts].
  - by eapply counts_nothing; [apply list_elem_of_here|..].
  - by eapply counts_nothing; [apply list_elem_of_further, list_elem_of_here|..].
Qed.

(** C39: no exception that can be caught leaves a handler, and every request that
    a handler answers is counted exactly once, under its method and the status of the
    response, with two exceptions: the pages [/metrics] and [/], which count
    nothing, and a query whose parameters are refused with 400, which is not
    counted at all. *)
Theorem requests_counted method pattern handler req s :
  (method, pattern, handler) ∈ all_routes → HttpUtil.method req = method →
  counted_once method pattern req s (handler req s).
Proof.
  intros Hin. pose proof (routes_counted req s) as Hall.
  rewrite Forall_forall in Hall. apply (Hall _ Hin).
Qed.

End server.

(** ** The gate *)

Section gate.
Context `{!EventLibs, !Zstd} {P : Type}.
Variable now_ms random_id : nat → N.
Variable clock : nat → Z.

(** The headers every response gets. *)
Definition security_headers : list (bytes * bytes) :=
  [(#"X-Content-Type-Options", #"nosniff"); (#"X-Frame-Options", #"DENY");
   (#"Content-Security-Policy", #"default-src 'none'; frame-ancestors 'none'");
   (#"X-XSS-Protection", #"1; mode=block"); (#"Referrer-Policy", #"no-referrer")].

(** Steps that succeed and touch neither the counters nor the limiter nor the
    processor nor the requests under way, and only add headers. *)
Definition framed (s s' : http_state P) : Prop :=
  rateLimiter s' = rateLimiter s ∧ proc s' = proc s ∧ counters s' = counters s ∧
  activeRequests_ s' = activeRequests_ s ∧ res_headers (res s) ⊆ res_headers (res s').

Definition modest {A} (m : HM P A) : Prop :=
  ∀ s, ∃ a s', m s = (Ok a, s') ∧ framed s s'.

Lemma framed_trans s1 s2 s3 : framed s1 s2 → framed s2 s3 → framed s1 s3.
Proof. unfold framed. intros (?&?&?&?&?) (?&?&?&?&?). split_and!; [congruence..|]. by etrans. Qed.

Lemma modest_bind {A B} (m : HM P A) (f : A → HM P B) :
  modest m → (∀ a, modest (f a)) → modest (m ≫= f).
Proof.
  intros Hm Hf s. destruct (Hm s) as (a & s1 & E1 & F1), (Hf a s1) as (b & s2 & E2 & F2).
  exists b, s2. rewrite (bind_run _ _ _ _ _ E1). split; [done|by eapply framed_trans].
Qed.

Lemma modest_header k v : modest (set_header k v).
Proof. intros s. do 2 eexists. split; [done|]. unfold framed. simpl. set_solver. Qed.

Lemma modest_ret {A} (a : A) : modest (mret a).
Proof. intros s. do 2 eexists. split; [done|]. done. Qed.

Lemma modest_request_id : modest (generateRequestId random_id).
Proof. intros s. by do 2 eexists. Qed.

Lemma modest_timestamp : modest (getTimestampMs now_ms).
Proof. intros s. by do 2 eexists. Qed.

Lemma modest_log_line e : modest (log_line e).
Proof. intros s. by do 2 eexists. Qed.

Lemma modest_cors enableCors corsOrigin : modest (setupCorsHeaders enableCors corsOrigin).
Proof.
  unfold setupCorsHeaders. destruct enableCors; [|apply modest_ret].
  repeat (apply modest_bind; [apply modest_header|intros _]). apply modest_header.
Qed.

Lemma setupSecurityHeaders_run (s : http_state P) :
  ∃ s', setupSecurityHeaders s = (Ok tt, s') ∧ framed s s' ∧
    security_headers ⊆ res_headers (res s').
Proof.
  eexists. split; [done|]. unfold framed. simpl. rewrite <-!app_assoc.
  split_and!; try done; set_solver.
Qed.

Variable enableCors trustProxy : bool.
Variable corsOrigin : bytes.

(** The limiter's answer to a request, and the limiter afterwards. *)
Definition verdict (req : Request) (l : RateLimiter.limiter)
    : result (RateLimiter.CheckResult * RateLimiter.limiter) :=
  RateLimiter.checkAndConsume clock (getClientIP trustProxy req) (extractPubkeyFromRequest req) l.

(** How the gate lets a request in or turns it away. *)
Inductive gate (req : Request) (s s' : http_state P) : HandlerResponse → Prop :=
  | gate_preflight :
      method req = #"OPTIONS" → enableCors = true → status_of s' = 200%Z →
      rateLimiter s' = rateLimiter s →
      gate req s s' Handled
  | gate_exempt :
      exempt req = true → rateLimiter s' = rateLimiter s → gate req s s' Unhandled
  | gate_allowed r :
      exempt req = false → verdict req (rateLimiter s) = Ok (r, rateLimiter s') →
      RateLimiter.allowed r = true → gate req s s' Unhandled
  | gate_refused r :
      exempt req = false → verdict req (rateLimiter s) = Ok (r, rateLimiter s') →
      RateLimiter.allowed r = false → status_of s' = 429%Z →
      (#"Retry-After", #"60") ∈ res_headers (res s') →
      res_content (res s') = json_to_string (json_of (not_ok (RateLimiter.reason r))) →
      gate req s s' Handled.

(** What the gate leaves alone and what it always does. *)
Record gate_frame (req : Request) (s s' : http_state P) (h : HandlerResponse) : Prop := {
  gf_limiter : limiter_ok (rateLimiter s');
  gf_proc : proc s' = proc s;
  gf_security : security_headers ⊆ res_headers (res s');
  gf_counted : counters s' =
    if decide (h = Handled) then bump (method req) (status_of s') (counters s) else counters s;
  gf_active : activeRequests_ s' =
    if decide (h = Handled) then activeRequests_ s else (activeRequests_ s + 1)%Z;
}.

#[local] Abbreviation pre :=
  (preRouting (P := P) now_ms random_id clock enableCors trustProxy corsOrigin).

(** The part before the decision. *)
Lemma gate_entry req (s : http_state P) :
  ∃ reqId clientIP startMs s1,
    clientIP = getClientIP trustProxy req ∧
    pre req s = (if bool_decide (method req = #"OPTIONS") && enableCors then
        (set_status 200;; count_request #"OPTIONS" 200;; log_response now_ms reqId 200 startMs;;
         decrementActiveRequests;; mret Handled)
      else rate_limit now_ms clock req reqId clientIP startMs) s1 ∧
    rateLimiter s1 = rateLimiter s ∧ proc s1 = proc s ∧ counters s1 = counters s ∧
    activeRequests_ s1 = (activeRequests_ s + 1)%Z ∧ security_headers ⊆ res_headers (res s1).
Proof.
  set (s0 := (set_active (activeRequests_ s + 1) false s).2).
  assert (enter_request s = (Ok tt, s0)) as E0 by done.
  destruct (modest_request_id s0) as (reqId & s1 & E1 & F1).
  destruct (modest_header #"X-Request-ID" reqId s1) as ([] & s2 & E2 & F2).
  destruct (modest_timestamp s2) as (startMs & s3 & E3 & F3).
  destruct (modest_cors enableCors corsOrigin s3) as ([] & s4 & E4 & F4).
  destruct (setupSecurityHeaders_run s4) as (s5 & E5 & F5 & Hsec).
  destruct (modest_log_line (LogRequest reqId (method req) (path req) (getClientIP trustProxy req)) s5)
    as ([] & s6 & E6 & F6).
  exists reqId, (getClientIP trustProxy req), startMs, s6. split; [done|]. split.
  - unfold preRouting. rewrite (bind_run _ _ _ _ _ E0), (bind_run _ _ _ _ _ E1).
    rewrite (bind_run _ _ _ _ _ E2), (bind_run _ _ _ _ _ E3), (bind_run _ _ _ _ _ E4).
    by rewrite (bind_run _ _ _ _ _ E5), (bind_run _ _ _ _ _ E6).
  - assert (framed s0 s6) as (?&?&?&?&?) by (by repeat (eapply framed_trans; [eassumption|])).
    destruct F6 as (_&_&_&_&?). split_and!; try done. by etrans.
Qed.
(** Everything about a state that the gate's theorem speaks of. *)
Record gate_view := mk_gate_view {
  v_limiter : RateLimiter.limiter;
  v_proc : P;
  v_counters : gmap (Method * Z) N * N;
  v_active : Z;
  v_status : Z;
  v_headers : list (bytes * bytes);
  v_content : bytes;
}.

Definition view_of (s : http_state P) : gate_view :=
  mk_gate_view (rateLimiter s) (proc s) (counters s) (activeRequests_ s) (status_of s)
    (res_headers (res s)) (res_content (res s)).

Lemma view_inv s l p c a z hs x :
  view_of s = mk_gate_view l p c a z hs x →
  rateLimiter s = l ∧ proc s = p ∧ counters s = c ∧ activeRequests_ s = a ∧ status_of s = z ∧
  res_headers (res s) = hs ∧ res_content (res s) = x.
Proof.
  intros H'. split_and!; [exact (f_equal v_limiter H')|exact (f_equal v_proc H')
    |exact (f_equal v_counters H')|exact (f_equal v_active H')|exact (f_equal v_status H')
    |exact (f_equal v_headers H')|exact (f_equal v_content H')].
Qed.

(** A step that succeeds and changes the view by [g]. *)
Definition steps (m : HM P ()) (g : gate_view → gate_view) : Prop :=
  ∀ s, ∃ s', m s = (Ok tt, s') ∧ view_of s' = g (view_of s).

Lemma steps_bind m1 m2 g1 g2 : steps m1 g1 → steps m2 g2 → steps (m1;; m2) (λ v, g2 (g1 v)).
Proof.
  intros H1' H2' s. destruct (H1' s) as (s1 & E1 & V1), (H2' s1) as (s2 & E2 & V2).
  exists s2. rewrite (bind_run _ _ _ _ _ E1). split; [done|]. by rewrite V2, V1.
Qed.

Lemma steps_blocks : steps (with_metrics incrementRateLimitBlocks) (λ v, v).
Proof. intros s. by eexists. Qed.

Lemma steps_status z : steps (set_status z) (λ v,
  mk_gate_view (v_limiter v) (v_proc v) (v_counters v) (v_active v) z (v_headers v) (v_content v)).
Proof. intros s. by eexists. Qed.

Lemma steps_header k x : steps (set_header k x) (λ v,
  mk_gate_view (v_limiter v) (v_proc v) (v_counters v) (v_active v) (v_status v)
    (v_headers v ++ [(k, x)]) (v_content v)).
Proof. intros s. by eexists. Qed.

Lemma steps_content c ty : steps (set_content c ty) (λ v,
  mk_gate_view (v_limiter v) (v_proc v) (v_counters v) (v_active v) (v_status v) (v_headers v) c).
Proof. intros s. by eexists. Qed.

Lemma steps_log e : steps (log_line e) (λ v, v).
Proof. intros s. by eexists. Qed.

Lemma steps_log_response reqId code startMs :
  steps (log_response now_ms reqId code startMs) (λ v, v).
Proof. intros s. by eexists. Qed.

Lemma steps_count method code : steps (count_request method code) (λ v,
  mk_gate_view (v_limiter v) (v_proc v) (bump method code (v_counters v)) (v_active v) (v_status v)
    (v_headers v) (v_content v)).
Proof. intros s. by eexists. Qed.

Lemma steps_decrement : steps decrementActiveRequests (λ v,
  mk_gate_view (v_limiter v) (v_proc v) (v_counters v) (v_active v - 1) (v_status v)
    (v_headers v) (v_content v)).
Proof. intros s. by eexists. Qed.

(** The refusing branch. *)
Lemma refuse_request_run req reqId clientIP reason startMs :
  steps (refuse_request now_ms req reqId clientIP reason startMs) (λ v,
    mk_gate_view (v_limiter v) (v_proc v) (bump (method req) 429 (v_counters v)) (v_active v - 1) 429
      (v_headers v ++ [(#"Retry-After", #"60")]) (json_to_string (json_of (not_ok reason)))).
Proof.
  exact (steps_bind _ _ _ _ steps_blocks (steps_bind _ _ _ _ (steps_status _)
    (steps_bind _ _ _ _ (steps_header _ _) (steps_bind _ _ _ _ (steps_log _)
    (steps_bind _ _ _ _ (steps_content _ _) (steps_bind _ _ _ _ (steps_count _ _)
    (steps_bind _ _ _ _ (steps_log_response _ _ _) steps_decrement))))))).
Qed.

(** The preflight branch. *)
Lemma preflight_run reqId startMs s :
  ∃ s', (set_status 200;; count_request #"OPTIONS" 200;; log_response now_ms reqId 200 startMs;;
      decrementActiveRequests;; mret Handled) s = (Ok Handled, s') ∧
    view_of s' = mk_gate_view (rateLimiter s) (proc s) (bump #"OPTIONS" 200 (counters s))
      (activeRequests_ s - 1) 200 (res_headers (res s)) (res_content (res s)).
Proof.
  destruct (steps_status 200 s) as (s1 & E1 & V1).
  destruct (steps_count #"OPTIONS" 200 s1) as (s2 & E2 & V2).
  destruct (steps_log_response reqId 200 startMs s2) as (s3 & E3 & V3).
  destruct (steps_decrement s3) as (s4 & E4 & V4).
  exists s4. rewrite (bind_run _ _ _ _ _ E1), (bind_run _ _ _ _ _ E2), (bind_run _ _ _ _ _ E3).
  rewrite (bind_run _ _ _ _ _ E4). split; [done|]. by rewrite V4, V3, V2, V1.
Qed.

(** The limiter's step, when the limiter is in order. *)
Lemma check_limiter_run req (s : http_state P) :
  limiter_ok (rateLimiter s) →
  ∃ r s', check_limiter clock (getClientIP trustProxy req) (extractPubkeyFromRequest req) s =
      (Ok r, s') ∧ verdict req (rateLimiter s) = Ok (r, rateLimiter s') ∧
    limiter_ok (rateLimiter s') ∧ proc s' = proc s ∧ counters s' = counters s ∧
    activeRequests_ s' = activeRequests_ s ∧ res_headers (res s') = res_headers (res s).
Proof.
  intros Hok.
  destruct (checkAndConsume_effect clock (getClientIP trustProxy req) (extractPubkeyFromRequest req)
    _ Hok) as (r & l & E & [Hl _ _ _ _ _]).
  exists r, (set_limiter l s).2. split.
  - unfold check_limiter. rewrite (bind_run _ _ s (rateLimiter s) s) by done.
    by rewrite (bind_run _ _ s (r, l) s) by (unfold lift; by rewrite E).
  - by split_and!.
Qed.

(** What [gate_entry] says of the state in which the limiter is asked. *)
Definition entered (s s1 : http_state P) : Prop :=
  rateLimiter s1 = rateLimiter s ∧ proc s1 = proc s ∧ counters s1 = counters s ∧
  activeRequests_ s1 = (activeRequests_ s + 1)%Z ∧ security_headers ⊆ res_headers (res s1).

Lemma rate_limit_gate req reqId startMs s s1 :
  limiter_ok (rateLimiter s) → entered s s1 →
  ∃ h s', rate_limit now_ms clock req reqId (getClientIP trustProxy req) startMs s1 = (Ok h, s') ∧
    gate req s s' h ∧ gate_frame req s s' h.
Proof.
  intros Hok (Hl & Hp & Hc & Ha & Hsec). unfold rate_limit.
  destruct (exempt req) eqn:Hex.
  { do 2 eexists. split; [done|]. split; [by apply gate_exempt|]. by split; rewrite ?Hl. }
  rewrite (bind_run _ _ s1 tt (with_metrics incrementRateLimitHits s1).2) by done.
  set (s2 := (with_metrics _ s1).2).
  destruct (check_limiter_run req s2) as (r & s3 & E & Hv & Hok3 & Hp3 & Hc3 & Ha3 & Hh3).
  { simpl. by rewrite Hl. }
  rewrite (bind_run _ _ _ _ _ E). simpl in Hv, Hp3, Ha3, Hh3. rewrite Hl in Hv.
  change (counters s2) with (counters s1) in Hc3.
  destruct (RateLimiter.allowed r) eqn:Hr; cbn [negb].
  - do 2 eexists. split; [done|]. split; [by eapply gate_allowed|].
    split; [done|congruence|by rewrite Hh3|rewrite decide_False by done; congruence..].
  - destruct (refuse_request_run req reqId (getClientIP trustProxy req) (RateLimiter.reason r)
      startMs s3) as (s4 & E4 & (Hl4 & Hp4 & Hc4 & Ha4 & Hst & Hh4 & Hcont)%view_inv);
    cbn [view_of v_limiter v_proc v_counters v_active v_headers] in *.
    rewrite (bind_run _ _ _ _ _ E4). do 2 eexists. split; [done|]. split.
    + eapply gate_refused; rewrite ?Hl4, ?Hh4; try done.
      apply elem_of_app. right. apply list_elem_of_here.
    + split; rewrite ?decide_True by done; rewrite ?Hl4, ?Hst, ?Hh4, ?Hh3; [done|congruence|
        |congruence|lia].
      intros x Hx. apply elem_of_app. left. by apply Hsec.
Qed.

(** The gate never fails: it turns away CORS preflights and what the
    limiter refuses, with 200 and 429, counts these once and leaves the number
    of requests under way as it was; it lets everything else through, counting
    it as under way, only if the limiter allows it or the path is exempt.  All
    responses get the security headers, and the event processor is not
    reached. *)
Theorem pre_routing_gate req s :
  limiter_ok (rateLimiter s) →
  ∃ h s', pre req s = (Ok h, s') ∧ gate req s s' h ∧ gate_frame req s s' h.
Proof.
  intros Hok.
  destruct (gate_entry req s) as (reqId & clientIP & startMs & s1 & -> & -> & Hl & Hp & Hc & Ha & Hsec).
  assert (entered s s1) as He by (by split_and!).
  destruct (bool_decide_reflect (method req = #"OPTIONS")) as [Hm|]; cbn [andb];
    [|by apply rate_limit_gate].
  destruct enableCors eqn:Hcors; [|by apply rate_limit_gate].
  destruct (preflight_run reqId startMs s1) as (s2 & E2 & (Hl2 & Hp2 & Hc2 & Ha2 & Hst2 & Hh2 & _)%view_inv).
  exists Handled, s2. split; [|split].
  - done.
  - apply gate_preflight; congruence.
  - split; rewrite ?decide_True by done; rewrite ?Hl2, ?Hl, ?Hst2, ?Hm, ?Hh2; try done; try congruence. lia.
Qed.
End gate.
