(* ===== verification/HttpBatch.v ===== *)
(** What a batch POST does: the event processor gets the events one by one, in
    order, up to the first that is malformed or refused. *)

From S2P Require Import Prelude Bytes Json Hex PackedEvent FilterSets Filters Config EventParse.
From S2P Require Import Db Payload Subscription DBQuery.
From S2P Require Import RateLimit HttpUtil HttpMetrics HttpMonad HttpHandlers HttpCounting.

Section batch.
Context `{!Hex, !NativeU64, !GolpeKeys, !Env, !JsonParser, !EventLibs, !Zstd} {P : Type}.
Variable f : P → bytes → result (bool * bytes) * P.
Variable lib_what : exn → bytes.
Variable now_ms : nat → N.

(** An object with the required fields. *)
Definition well_formed (v : value) : Prop :=
  is_object v = true ∧ has_fields v event_fields = Ok true.

(** The processor accepts the events in order, going from [p] to [p']. *)
Inductive accepted : P → list value → P → Prop :=
  | accepted_nil p : accepted p [] p
  | accepted_cons p v m p1 vs p2 :
      well_formed v → f p (json_to_string v) = (Ok (true, m), p1) → accepted p1 vs p2 →
      accepted p (v :: vs) p2.

(** How the batch ends after the accepted events, when [post] is left and the
    processor's state is [p]. *)
Inductive batch_end (p p' : P) (post : list value) (code : Z) : result () → Prop :=
  | end_all : post = [] → p' = p → code = 201%Z → batch_end p p' post code (Ok tt)
  | end_malformed v vs :
      post = v :: vs → ¬ well_formed v → p' = p → code = 400%Z → batch_end p p' post code (Ok tt)
  | end_refused v vs m :
      post = v :: vs → well_formed v → f p (json_to_string v) = (Ok (false, m), p') →
      code = 400%Z → batch_end p p' post code (Ok tt)
  | end_failed v vs e :
      post = v :: vs → well_formed v → f p (json_to_string v) = (Throw e, p') →
      catchable e = true → code = 500%Z → batch_end p p' post code (Ok tt)
  | end_fatal v vs e :
      post = v :: vs → well_formed v → f p (json_to_string v) = (Throw e, p') →
      catchable e = false → batch_end p p' post code (Throw e).

Lemma has_fields_total v fields : is_object v = true → ∃ b, has_fields v fields = Ok b.
Proof.
  destruct v as [| | | | | | |kvs]; try done. intros _. induction fields as [|[k test] fields IH]; [by eexists|].
  cbn [has_fields]. unfold json_find. simpl. destruct (assoc k kvs) as [x|]; [|by eexists].
  destruct (test x); [done|by eexists].
Qed.

(** A well-formed event has an id. *)
Lemma well_formed_id v : well_formed v →
  ∃ x s, at_key v #"id" = Ok x ∧ get_string x = Ok s.
Proof.
  intros [Hobj Hf]. destruct v as [| | | | | | |kvs]; try done.
  unfold event_fields in Hf. cbn [has_fields] in Hf. unfold json_find in Hf. cbn [get_object] in Hf.
  unfold at_key. cbn [get_object]. unfold mbind, result_bind in *.
  destruct (assoc #"id" kvs) as [x|]; [|done]. destruct x; try done. by do 2 eexists.
Qed.

(** The counts of events and the processor's state, which answering a request
    leaves alone. *)
Definition tally (s : http_state P) : N * N * P :=
  (eventsAccepted_ (metrics s), eventsRejected_ (metrics s), proc s).

Lemma finish_tally method endpoint reqId startMs code fields (s : http_state P) :
  ∃ s', finish now_ms method endpoint reqId startMs code fields s = (Ok tt, s') ∧
    tally s' = tally s ∧ status_of s' = code.
Proof.
  exists (finish now_ms method endpoint reqId startMs code fields s).2.
  split; [reflexivity|split; [cbv -[u64_add]; reflexivity|reflexivity]].
Qed.

(** The same for the loop, which leaves some of the answers to its caller. *)
Definition loop_end (p p' : P) (post : list value) (code : Z) (r : result bool) : Prop :=
  match r with
  | Ok true => post = [] ∧ p' = p
  | Ok false => batch_end p p' post code (Ok tt) ∧ code = 400%Z
  | Throw e => ∃ v vs, post = v :: vs ∧ well_formed v ∧ f p (json_to_string v) = (Throw e, p')
  end.

(** The events [pre] went through, [post] did not. *)
Definition went_through (s s' : http_state P) (pre : list value) (p1 : P) : Prop :=
  accepted (proc s) pre p1 ∧
  u64_wrap (eventsAccepted_ (metrics s')) =
    u64_wrap (eventsAccepted_ (metrics s) + N.of_nat (length pre)).

Lemma went_through_nil s s' :
  eventsAccepted_ (metrics s') = eventsAccepted_ (metrics s) → went_through s s' [] (proc s).
Proof. intros He. split; [constructor|]. by rewrite He, N.add_0_r. Qed.

Lemma went_through_cons s s1 s' v m pre p1 :
  well_formed v → f (proc s) (json_to_string v) = (Ok (true, m), proc s1) →
  eventsAccepted_ (metrics s1) = u64_add (eventsAccepted_ (metrics s)) 1 →
  went_through s1 s' pre p1 → went_through s s' (v :: pre) p1.
Proof.
  intros Hv Hf He [Hacc Hn]. split; [by econstructor|]. rewrite Hn, He. cbn [length].
  unfold u64_add, u64_wrap. rewrite N.Div0.add_mod_idemp_l. f_equal. lia.
Qed.

Lemma batch_loop_run reqId startMs i events s :
  ∃ r s' pre post p1,
    batch_loop (Some f) now_ms reqId startMs i events s = (r, s') ∧
    events = pre ++ post ∧ went_through s s' pre p1 ∧
    loop_end p1 (proc s') post (status_of s') r.
Proof.
  revert i s. induction events as [|v events IH]; intros i s; cbn [batch_loop].
  { exists (Ok true), s, [], [], (proc s). split_and!; try done. by apply went_through_nil. }
  destruct (is_object v) eqn:Hobj; cbn [negb].
  2:{ destruct (finish_tally #"POST" batch_endpoint reqId startMs 400
        (not_ok (at_index i #" is not an object")) s) as (s1 & E & [= Ha _ Hp] & Hst).
      exists (Ok false), s1, [], (v :: events), (proc s).
      rewrite (bind_run _ _ _ _ _ E). split_and!; try done; [by apply went_through_nil|].
      split; [|done]. eapply end_malformed; try done. intros [? _]. congruence. }
  destruct (has_fields_total v event_fields Hobj) as [b Hb]. rewrite Hb.
  rewrite (bind_run _ _ s b s) by done. destruct b; cbn [negb].
  2:{ destruct (finish_tally #"POST" batch_endpoint reqId startMs 400
        (not_ok (at_index i #" has invalid structure")) s) as (s1 & E & [= Ha _ Hp] & Hst).
      exists (Ok false), s1, [], (v :: events), (proc s).
      rewrite (bind_run _ _ _ _ _ E). split_and!; try done; [by apply went_through_nil|].
      split; [|done]. eapply end_malformed; try done. intros [_ ?]. congruence. }
  assert (well_formed v) as Hv by done.
  destruct (well_formed_id v Hv) as (x & eventId & Hx & Hid).
  rewrite (bind_run _ _ s x s) by (unfold lift; by rewrite Hx).
  rewrite (bind_run _ _ s eventId s) by (unfold lift; by rewrite Hid).
  destruct (f (proc s) (json_to_string v)) as [r p] eqn:Hf.
  assert (call_processor (Some f) (json_to_string v) s = (r, set_proc p s)) as Hcall.
  { unfold call_processor. by rewrite Hf. }
  destruct r as [[ok m]|e].
  2:{ exists (Throw e), (set_proc p s), [], (v :: events), (proc s).
      split_and!; [|done|by apply went_through_nil|by exists v, events].
      unfold mbind, HM_bind. by rewrite Hcall. }
  rewrite (bind_run _ _ _ _ _ Hcall). destruct ok; cbn [negb].
  - set (s1 := (with_metrics incrementEventsAccepted (set_proc p s)).2).
    rewrite (bind_run _ _ _ tt s1) by done.
    destruct (IH (S i) s1) as (r & s' & pre & post & p1 & E & -> & Hgo & Hend).
    exists r, s', (v :: pre), post, p1. split_and!; try done.
    by eapply (went_through_cons s s1).
  - set (s1 := (with_metrics incrementEventsRejected (set_proc p s)).2).
    rewrite (bind_run _ _ _ tt s1) by done.
    match goal with |- context [finish _ _ _ _ _ _ ?fs] =>
      destruct (finish_tally #"POST" batch_endpoint reqId startMs 400 fs s1)
        as (s2 & E & [= Ha _ Hp] & Hst) end.
    rewrite (bind_run _ _ _ _ _ E).
    exists (Ok false), s2, [], (v :: events), (proc s). split_and!; try done.
    { by apply went_through_nil. }
    split; [|done]. eapply end_refused; try done. rewrite Hf. simpl in Hp. by rewrite Hp.
Qed.

(** C38: a batch is processed front to back: the events before the first
    malformed or refused one have been accepted by the processor, whatever
    becomes of the request, and no event after it is looked at; the answer is
    201 exactly when all were accepted, 400 for a malformed or refused event
    and 500 when the processor throws.  So the batch is not atomic, contrary to
    two comments in the source (all must succeed, reject the entire batch if any
    event fails): a client that is told of a failed batch has had its first
    events accepted. *)
Theorem batch_prefix req v events s :
  json_from_string (body req) = Ok v → batch_events v = Some events →
  1 ≤ length events ≤ MAX_BATCH_SIZE →
  ∃ r s' pre post p1,
    handleEventPostBatch (Some f) lib_what now_ms req s = (r, s') ∧
    events = pre ++ post ∧ went_through s s' pre p1 ∧
    batch_end p1 (proc s') post (status_of s') r.
Proof.
  intros Hparse Hev Hlen. unfold handleEventPostBatch.
  set (s0 := (getTimestampMs now_ms s).2).
  rewrite (bind_run _ _ s (now_ms (ms_tick s)) s0) by done.
  rewrite (bind_run _ _ s0 (header_value #"X-Request-ID" (res_headers (res s0))) s0) by done.
  rewrite Hparse. unfold run_batch. rewrite Hev.
  destruct (Nat.eqb_spec (length events) 0); [lia|].
  destruct (Nat.ltb_spec MAX_BATCH_SIZE (length events)); [lia|].
  set (reqId := header_value _ _). set (startMs := now_ms _).
  destruct (batch_loop_run reqId startMs 0 events s0) as (r & s1 & pre & post & p1 & E & -> & Hgo & Hend).
  assert (∀ s', eventsAccepted_ (metrics s') = eventsAccepted_ (metrics s1) → went_through s s' pre p1)
    as Hgo'. { intros s' Hs'. destruct Hgo as [Hacc Hn]. split; [done|]. by rewrite Hs'. }
  unfold try_catch. destruct r as [[]|e].
  - rewrite (bind_run _ _ _ _ _ E). destruct Hend as [-> Hp].
    match goal with |- context [finish _ _ _ _ _ _ ?fs] =>
      destruct (finish_tally #"POST" batch_endpoint reqId startMs 201 fs s1)
        as (s2 & E2 & [= Ha _ Hp2] & Hst) end.
    rewrite E2. do 5 eexists. split_and!; [done|done|by apply Hgo'|].
    apply end_all; congruence.
  - rewrite (bind_run _ _ _ _ _ E). do 5 eexists. split_and!; [done|done|by apply Hgo'|].
    apply Hend.
  - unfold mbind, HM_bind. rewrite E. destruct Hend as (v' & vs & -> & Hv & Hf).
    destruct (catchable e) eqn:He.
    + match goal with |- context [finish _ _ _ _ _ _ ?fs] =>
        destruct (finish_tally #"POST" batch_endpoint reqId startMs 500 fs s1)
          as (s2 & E2 & [= Ha _ Hp2] & Hst) end.
      rewrite E2. do 5 eexists. split_and!; [done|done|by apply Hgo'|].
      eapply end_failed; try done. by rewrite Hp2.
    + do 5 eexists. split_and!; [done|done|by apply Hgo'|]. by eapply end_fatal.
Qed.
End batch.
