(* ===== verification/HttpQueryTheorems.v ===== *)
(** What the read-only handlers answer: the texts of the events a query
    finds, and the event found by its d tag or, failing that, by its commit
    hash. *)

From S2P Require Import Prelude Bytes Json Hex PackedEvent FilterSets Filters Config EventParse Db.
From S2P Require Import Payload Subscription DBQuery DBQueryCursors DBQueryAnswer DBQueryTheorems.
From S2P Require Import RateLimit HttpUtil HttpMetrics HttpMonad HttpHandlers HttpCounting.

(** The texts, separated by commas. *)
Fixpoint comma_join (texts : list bytes) : bytes :=
  match texts with
  | [] => []
  | [t] => t
  | t :: texts => t ++ #"," ++ comma_join texts
  end.

Section query.
Context `{!Hex, !NativeU64, !GolpeKeys, !Env, !JsonParser, !EventLibs, !Zstd} {P : Type}.
Variable cfg : Config.
Context (d : env) (m : gmap N event) (Hdb : scan_db d m).
Variable lib_what : exn → bytes.
Variable now_ms curr_time_us : nat → N.

(** ** Running a query *)

Definition same_server (s s1 : http_state P) : Prop :=
  metrics s1 = metrics s ∧ dictionaries s1 = dictionaries s ∧ res s1 = res s ∧ proc s1 = proc s.

(** The events a filter finds, in order. *)
Definition finds (v : value) : result (list N) :=
  fs ← NostrFilterGroup_unwrapped v MAX_U64; Ok (todo m MAX_U64 fs ∅).

Lemma run_query_spec {B} (cb : B → N → result B) v b (s : http_state P) :
  Forall filter_value (filter_values v) →
  ∃ s1, run_query d curr_time_us cb v b s = ((L ← finds v; foldM cb b L), s1) ∧ same_server s s1.
Proof.
  intros Hv. unfold run_query. rewrite (bind_run _ _ s (us_tick s) s) by done.
  unfold mbind at 1, HM_bind, lift, finds.
  destruct (NostrFilterGroup_unwrapped v MAX_U64) as [fs|e] eqn:Hfs.
  - pose proof (foreachByFilter_run cb curr_time_us d m v fs b (us_tick s) Hdb Hv Hfs) as Hrun.
    cbn [mbind result_bind].
    destruct (foreachByFilter _ _ _ _ _ _) as [[b' t]|e]; cbn [mbind result_bind fst] in Hrun;
      rewrite <-Hrun; eexists; (split; [reflexivity|]); done.
  - unfold foreachByFilter, DBQuery_of_filter. rewrite Hfs. cbn [mbind result_bind].
    exists s. done.
Qed.

(** ** /api/query *)

Definition comma (first : bool) : bytes := if first then [] else #",".

Lemma comma_join_cons first t texts :
  comma first ++ comma_join (t :: texts) = (comma first ++ t) ++ comma (bool_decide (texts = [])) ++ comma_join texts.
Proof. destruct texts; simpl; [by rewrite app_nil_r|by rewrite <-!app_assoc]. Qed.

Lemma answer_cb_step c resp n first l :
  answer_cb cfg d (c, resp, n, first) l =
    if (MAX_QUERY_RESULTS <=? n)%N then Ok (c, resp, n, first)
    else '(c, t) ← getEventJson cfg c d l;
         Ok (c, (if first : bool then resp else resp ++ #",") ++ t, u64_add n 1, false).
Proof. done. Qed.

Lemma answer_fold c resp n first L :
  caches_ok c d → (n ≤ MAX_QUERY_RESULTS)%N →
  match mapR (event_text cfg d) (take (N.to_nat (MAX_QUERY_RESULTS - n)) L) with
  | Throw e => foldM (answer_cb cfg d) (c, resp, n, first) L = Throw e
  | Ok texts => ∃ c', caches_ok c' d ∧
      foldM (answer_cb cfg d) (c, resp, n, first) L =
        Ok (c', resp ++ (if bool_decide (texts = []) then [] else comma first ++ comma_join texts),
            (n + N.of_nat (length texts))%N, first && bool_decide (texts = []))
  end.
Proof.
  revert c resp n first. induction L as [|l L IH]; intros c resp n first Hc Hn.
  { rewrite take_nil. cbn [mapR foldM]. exists c. split; [done|].
    rewrite bool_decide_true by done. by rewrite app_nil_r, N.add_0_r, andb_true_r. }
  cbn [foldM]. rewrite answer_cb_step. destruct (N.leb_spec MAX_QUERY_RESULTS n) as [Hge|Hlt].
  - specialize (IH c resp n first Hc Hn).
    replace (N.to_nat (MAX_QUERY_RESULTS - n)) with 0 in * by lia. rewrite take_0 in *. cbn [mbind result_bind]. exact IH.
  - replace (N.to_nat (MAX_QUERY_RESULTS - n)) with (S (N.to_nat (MAX_QUERY_RESULTS - (n + 1)))) by lia.
    cbn [take mapR].
    pose proof (getEventJson_text cfg c d l Hc) as Hget.
    destruct (event_text cfg d l) as [t|e]; [|by rewrite Hget].
    destruct Hget as (c1 & -> & Hc1). cbn [mbind result_bind].
    assert (u64_add n 1 = n + 1)%N as Hadd by (apply u64_add_small; unfold MAX_QUERY_RESULTS, two64 in *; lia).
    specialize (IH c1 ((if first then resp else resp ++ #",") ++ t) (n + 1)%N false Hc1 ltac:(lia)).
    rewrite Hadd.
    destruct (mapR _ (take _ L)) as [texts|e]; cbn [mbind result_bind]; [|exact IH].
    destruct IH as (c' & Hc' & ->). exists c'. split; [done|].
    rewrite (bool_decide_false (t :: texts = [])) by done. rewrite andb_false_r.
    match goal with |- Ok (_, ?a, ?k, _) = Ok (_, ?a', ?k', _) =>
      assert (a = a' ∧ k = k') as [-> ->]; [split|done] end; [|cbn [length]; lia].
    destruct texts as [|t' texts]; destruct first; cbn [comma comma_join];
      rewrite ?bool_decide_true, ?bool_decide_false by done; rewrite ?app_nil_r, <-?app_assoc; done.
Qed.

(** What the client should get: the texts of the first ten thousand events. *)
Definition query_texts (v : value) : result (list bytes) :=
  L ← finds v; mapR (event_text cfg d) (take (N.to_nat MAX_QUERY_RESULTS) L).

Definition replied (s' : http_state P) (code : Z) (content : bytes) : Prop :=
  status_of s' = code ∧ res_content (res s') = content ∧ res_type (res s') = #"application/json".

Definition replied_error (s' : http_state P) (code : Z) : Prop :=
  ∃ message, replied s' code (json_to_string (json_of (error_field message))).

Lemma query_fold c v :
  caches_ok c d →
  match query_texts v with
  | Throw e => (L ← finds v; foldM (answer_cb cfg d) (c, #"[", 0%N, true) L) = Throw e
  | Ok texts => ∃ c' first, caches_ok c' d ∧
      (L ← finds v; foldM (answer_cb cfg d) (c, #"[", 0%N, true) L) =
        Ok (c', #"[" ++ comma_join texts, N.of_nat (length texts), first)
  end.
Proof.
  intros Hc. unfold query_texts. destruct (finds v) as [L|e]; cbn [mbind result_bind]; [|done].
  pose proof (answer_fold c #"[" 0 true L Hc ltac:(done)) as Hfold.
  rewrite N.sub_0_r in Hfold. destruct (mapR _ _) as [texts|e]; [|done].
  destruct Hfold as (c' & Hc' & ->). exists c', (true && bool_decide (texts = [])).
  split; [done|]. destruct texts; [by rewrite bool_decide_true|by rewrite bool_decide_false].
Qed.
(** ** Answering *)

Lemma bind_throw {A B} (mm : HM P A) (f : A → HM P B) s e s' :
  mm s = (Throw e, s') → (mm ≫= f) s = (Throw e, s').
Proof. unfold mbind, HM_bind. by intros ->. Qed.

Lemma try_catch_ok {A} (mm : HM P A) h s a s' :
  mm s = (Ok a, s') → try_catch mm h s = (Ok a, s').
Proof. unfold try_catch. by intros ->. Qed.

Lemma try_catch_throw {A} (mm : HM P A) h s e s' :
  mm s = (Throw e, s') →
  try_catch mm h s = if catchable e then h e s' else (Throw e, s').
Proof. unfold try_catch. by intros ->. Qed.

(** What a handler's answer leaves of the rest of the server. *)
Definition kept (s s' : http_state P) : Prop :=
  proc s' = proc s ∧ dictionaries s' = dictionaries s ∧
  queryResultCounts_ (metrics s') = queryResultCounts_ (metrics s).

Lemma respond_run code fields (s : http_state P) :
  ∃ s', respond code fields s = (Ok tt, s') ∧ kept s s' ∧
    replied s' code (json_to_string (json_of fields)).
Proof. eexists. split; [done|]. done. Qed.

Lemma count_request_run method code (s : http_state P) :
  ∃ s', count_request method code s = (Ok tt, s') ∧ kept s s' ∧ res s' = res s.
Proof. eexists. split; [done|]. done. Qed.

Lemma get_reply_run code message (s : http_state P) :
  ∃ s', get_reply code message s = (Ok tt, s') ∧ kept s s' ∧
    replied s' code (json_to_string (json_of (error_field message))).
Proof. eexists. split; [done|]. done. Qed.

Lemma log_response_run reqId code startMs (s : http_state P) :
  ∃ s', log_response now_ms reqId code startMs s = (Ok tt, s') ∧ kept s s' ∧ res s' = res s.
Proof. eexists. split; [done|]. done. Qed.

(** The dictionary cache of the server only repeats the table. *)
Definition server_ok (s : http_state P) : Prop := caches_ok (mk_caches ∅ (dictionaries s)) d.

Lemma server_ok_set (c : DictCaches) (s : http_state P) :
  caches_ok c d → server_ok (set_dictionaries (global_dicts c) s).2.
Proof.
  intros Hc i dict [Hl|Hg]; simpl in *; [by apply lookup_empty_Some in Hl|]. apply (Hc i dict). by right.
Qed.

(** The answer of a successful query. *)
Lemma answer_ok_run method c responseStr n (s : http_state P) :
  caches_ok c d →
  ∃ s', (set_dictionaries (global_dicts c);;
     with_metrics (λ m, observeQueryResults m n);; count_request method 200;; set_status 200;;
     set_content (responseStr ++ #"]") #"application/json") s = (Ok tt, s') ∧
    server_ok s' ∧ replied s' 200 (responseStr ++ #"]") ∧
    queryResultCounts_ (metrics s') = queryResultCounts_ (observeQueryResults (metrics s) n).
Proof.
  intros Hc. pose proof (server_ok_set c s Hc) as Hok.
  set (s1 := (set_dictionaries (global_dicts c) s).2) in *.
  rewrite (bind_run _ _ s tt s1) by done.
  set (s2 := (with_metrics (λ m, observeQueryResults m n) s1).2).
  rewrite (bind_run _ _ s1 tt s2) by done.
  destruct (count_request_run method 200 s2) as (s3 & E3 & (_ & Hd3 & Hq3) & _).
  rewrite (bind_run _ _ _ _ _ E3).
  eexists. split; [done|]. split; [|split].
  - unfold server_ok. simpl. by rewrite Hd3.
  - done.
  - simpl. by rewrite Hq3.
Qed.

Lemma answer_query_run method v (s : http_state P) :
  server_ok s → Forall filter_value (filter_values v) →
  match query_texts v with
  | Ok texts => ∃ s', answer_query cfg d lib_what curr_time_us method v s = (Ok tt, s') ∧
      server_ok s' ∧ replied s' 200 (#"[" ++ comma_join texts ++ #"]") ∧
      queryResultCounts_ (metrics s') =
        queryResultCounts_ (observeQueryResults (metrics s) (N.of_nat (length texts)))
  | Throw e => ∃ s', answer_query cfg d lib_what curr_time_us method v s =
        ((if catchable e then Ok tt else Throw e), s') ∧ server_ok s' ∧
      (catchable e = true → ∃ code, (code = 400 ∨ code = 500)%Z ∧ replied_error s' code)
  end.
Proof.
  intros Hs Hv. unfold answer_query.
  rewrite (bind_run _ _ s (mk_caches ∅ (dictionaries s)) s) by done.
  pose proof (query_fold _ v Hs) as Hq. unfold kept in *.
  destruct (run_query_spec (answer_cb cfg d) v (mk_caches ∅ (dictionaries s), #"[", 0%N, true) s Hv)
    as (s1 & E1 & (Hm1 & Hd1 & _ & _)).
  destruct (query_texts v) as [texts|e].
  - destruct Hq as (c' & first & Hc' & Hq). rewrite Hq in E1.
    rewrite (bind_run _ _ s (inr (c', #"[" ++ comma_join texts, N.of_nat (length texts), first)) s1)
      by (by apply try_catch_ok; rewrite (bind_run _ _ _ _ _ E1)).
    destruct (answer_ok_run method c' (#"[" ++ comma_join texts) (N.of_nat (length texts)) s1 Hc')
      as (s2 & E2 & Hok & Hrep & Hcnt).
    exists s2. rewrite app_assoc. split_and!; try done. by rewrite Hcnt, Hm1.
  - rewrite Hq in E1.
    pose proof (try_catch_throw _ (λ e, mret (inl e)) _ _ _
      (bind_throw _ (λ r, mret (inr r)) _ _ _ E1)) as Htry.
    destruct (catchable e).
    + rewrite (bind_run _ _ _ _ _ Htry).
      set (isf := _ || _). set (msg := if isf then sanitizeErrorForClient _ else _).
      destruct (respond_run (if isf then 400 else 500)%Z (error_field msg) s1)
        as (s2 & E2 & (_ & Hd2 & _) & Hrep).
      rewrite (bind_run _ _ _ _ _ E2).
      destruct (count_request_run method (if isf then 400 else 500)%Z s2)
        as (s3 & E3 & (_ & Hd3 & _) & Hres).
      exists s3. split; [done|]. split; [unfold server_ok; by rewrite Hd3, Hd2, Hd1|]. intros _.
      exists (if isf then 400 else 500)%Z. split; [destruct isf; auto|].
      exists msg. unfold replied, status_of in *. by rewrite Hres.
    + rewrite (bind_throw _ _ _ _ _ Htry). exists s1. split; [done|].
      split; [unfold server_ok; by rewrite Hd1|done].
Qed.

(** C7: a query is answered with 200 and the JSON array of the texts of the
    first ten thousand events its filters find, newest first, and the number
    of results is recorded; when the filter is refused or an event cannot be
    read the answer is an error with 400 or 500 and no event at all. *)
Theorem query_response req v s :
  server_ok s → query_filter lib_what req = Ok (inr v) →
  Forall filter_value (filter_values v) →
  match query_texts v with
  | Ok texts => ∃ s', handleQuery cfg d lib_what curr_time_us req s = (Ok tt, s') ∧
      server_ok s' ∧ replied s' 200 (#"[" ++ comma_join texts ++ #"]") ∧
      queryResultCounts_ (metrics s') =
        queryResultCounts_ (observeQueryResults (metrics s) (N.of_nat (length texts)))
  | Throw e => ∃ s', handleQuery cfg d lib_what curr_time_us req s =
        ((if catchable e then Ok tt else Throw e), s') ∧ server_ok s' ∧
      (catchable e = true → ∃ code, (code = 400 ∨ code = 500)%Z ∧ replied_error s' code)
  end.
Proof.
  intros Hs Hq Hv. unfold handleQuery.
  set (body := lift _ ≫= _). assert (body s = answer_query cfg d lib_what curr_time_us (method req) v s)
    as Hbody by (unfold body; by rewrite (bind_run _ _ s (inr v) s) by (unfold lift; by rewrite Hq)).
  pose proof (answer_query_run (method req) v s Hs Hv) as Hrun. rewrite <-Hbody in Hrun.
  destruct (query_texts v) as [texts|e].
  - destruct Hrun as (s' & E & Hrest). exists s'. split; [by apply try_catch_ok|done].
  - destruct Hrun as (s' & E & Hrest). exists s'. split; [|done]. destruct (catchable e) eqn:He.
    + by apply try_catch_ok.
    + rewrite (try_catch_throw _ _ _ _ _ E), He. done.
Qed.
End query.

(** Fetching one event by its d tag, with the fallback to the commit hash in
    its content ([handleGetQuoteByDTag]). *)

Section lookup.
Context `{!Hex, !NativeU64, !GolpeKeys, !Env, !JsonParser, !EventLibs, !Zstd} {P : Type}.
Variable cfg : Config.
Context (d : env) (m : gmap N event) (Hdb : scan_db d m).
Variable now_ms curr_time_us : nat → N.

(** ** The specification *)

Definition first_text (L : list N) : result (option bytes) :=
  match L with
  | [] => Ok None
  | l :: _ => t ← event_text cfg d l; Ok (Some t)
  end.

(** The first event whose content names the commit. *)
Fixpoint first_match (dTag : bytes) (L : list N) : result (option bytes) :=
  match L with
  | [] => Ok None
  | l :: L =>
      t ← event_text cfg d l;
      if eventMatchesCommitHash t dTag then Ok (Some t) else first_match dTag L
  end.

Definition dtag_text (dTag : bytes) : result (option bytes) :=
  v ← buildDTagFilter dTag; L ← finds m v; first_text L.

Definition commit_text (dTag : bytes) : result (option bytes) :=
  L ← finds m (buildKindFilter 30078 COMMIT_HASH_SCAN_LIMIT);
  first_match dTag (take (N.to_nat COMMIT_HASH_SCAN_LIMIT) L).

(** The newest event with the d tag, or else the newest quote of that commit. *)
Definition found_text (dTag : bytes) : result (option bytes) :=
  o ← dtag_text dTag;
  match o with Some t => Ok (Some t) | None => commit_text dTag end.

(** ** The callbacks *)

Lemma first_fold_found c t L : foldM (first_cb cfg d) (c, Some t) L = Ok (c, Some t).
Proof. induction L as [|l L IH]; [done|]. cbn [foldM]. unfold first_cb at 1. simpl. exact IH. Qed.

Lemma first_fold c L :
  caches_ok c d →
  match first_text L with
  | Ok o => ∃ c', caches_ok c' d ∧ foldM (first_cb cfg d) (c, None) L = Ok (c', o)
  | Throw e => foldM (first_cb cfg d) (c, None) L = Throw e
  end.
Proof.
  intros Hc. destruct L as [|l L]; cbn [first_text foldM]; [by exists c|].
  change (first_cb cfg d (c, None) l) with
    ('(c, json) ← getEventJson cfg c d l; Ok (c, Some json)).
  pose proof (getEventJson_text cfg c d l Hc) as Hget.
  destruct (event_text cfg d l) as [t|e]; [|by rewrite Hget].
  destruct Hget as (c1 & -> & Hc1). cbn [mbind result_bind]. exists c1.
  split; [done|apply first_fold_found].
Qed.

Lemma commit_cb_step dTag c found n l :
  commit_cb cfg d dTag (c, found, n) l =
    if bool_decide (is_Some found) || (COMMIT_HASH_SCAN_LIMIT <=? n)%N then Ok (c, found, n)
    else '(c, t) ← getEventJson cfg c d l;
         Ok (c, if eventMatchesCommitHash t dTag then Some t else None, u64_add n 1).
Proof. done. Qed.

Lemma commit_fold_done dTag c found n L :
  bool_decide (is_Some found) || (COMMIT_HASH_SCAN_LIMIT <=? n)%N = true →
  foldM (commit_cb cfg d dTag) (c, found, n) L = Ok (c, found, n).
Proof.
  intros Hdone. induction L as [|l L IH]; [done|]. cbn [foldM].
  rewrite commit_cb_step, Hdone. exact IH.
Qed.

Lemma commit_fold dTag c n L :
  caches_ok c d →
  match first_match dTag (take (N.to_nat (COMMIT_HASH_SCAN_LIMIT - n)) L) with
  | Ok o => ∃ c' n', caches_ok c' d ∧ foldM (commit_cb cfg d dTag) (c, None, n) L = Ok (c', o, n')
  | Throw e => foldM (commit_cb cfg d dTag) (c, None, n) L = Throw e
  end.
Proof.
  revert c n. induction L as [|l L IH]; intros c n Hc.
  { rewrite take_nil. cbn [first_match foldM]. by exists c, n. }
  destruct (N.leb_spec COMMIT_HASH_SCAN_LIMIT n) as [Hge|Hlt].
  - replace (N.to_nat (COMMIT_HASH_SCAN_LIMIT - n)) with 0 by lia. cbn [take first_match].
    exists c, n. split; [done|]. apply commit_fold_done. apply orb_true_iff. right. by apply N.leb_le.
  - replace (N.to_nat (COMMIT_HASH_SCAN_LIMIT - n)) with (S (N.to_nat (COMMIT_HASH_SCAN_LIMIT - (n + 1))))
      by lia.
    cbn [take first_match foldM]. rewrite commit_cb_step, bool_decide_false by (by intros [? ?]).
    destruct (N.leb_spec COMMIT_HASH_SCAN_LIMIT n); [lia|]. cbn [orb].
    pose proof (getEventJson_text cfg c d l Hc) as Hget.
    destruct (event_text cfg d l) as [t|e]; [|by rewrite Hget].
    destruct Hget as (c1 & -> & Hc1). cbn [mbind result_bind].
    rewrite u64_add_small by (unfold COMMIT_HASH_SCAN_LIMIT, two64 in *; lia).
    destruct (eventMatchesCommitHash t dTag).
    + exists c1, (n + 1)%N. split; [done|]. by apply commit_fold_done.
    + apply (IH c1 (n + 1)%N Hc1).
Qed.

Lemma kind_filter_value kind lim : is_u64 kind → is_u64 lim →
  Forall filter_value (filter_values (buildKindFilter kind lim)).
Proof.
  intros Hk Hl. constructor; [|done].
  exists [(#"kinds", JArray [JUnsigned kind]); (#"limit", JUnsigned lim)]. split; [reflexivity|]. split.
  { apply (bool_decide_unpack _). vm_compute. exact I. }
  intros k v [[= -> ->]|Hin]%elem_of_cons.
  - split; [by intros n|]. split; [|done]. intros n [= ->]%list_elem_of_singleton. done.
  - apply list_elem_of_singleton in Hin as [= -> ->]. split; [by intros n [= <-]|].
    split; [by intros n ?%not_elem_of_nil|done].
Qed.

(** ** The two lookups *)

(** A lookup computes [r] on caches in order. *)
Definition looks_up (look : DictCaches → HM P (DictCaches * option bytes))
    (r : result (option bytes)) : Prop :=
  ∀ c s, caches_ok c d → ∃ s1, same_server s s1 ∧
    match r with
    | Ok o => ∃ c', caches_ok c' d ∧ look c s = (Ok (c', o), s1)
    | Throw e => look c s = (Throw e, s1)
    end.

Lemma lookup_dtag_looks dTag :
  (∀ v, buildDTagFilter dTag = Ok v → Forall filter_value (filter_values v)) →
  looks_up (lookup_dtag cfg d curr_time_us dTag) (dtag_text dTag).
Proof.
  intros Hv c s Hc. unfold lookup_dtag, dtag_text.
  destruct (buildDTagFilter dTag) as [v|e]; cbn [mbind result_bind]; [|by exists s].
  rewrite (bind_run _ _ s v s) by done.
  destruct (run_query_spec d m Hdb curr_time_us (first_cb cfg d) v (c, None) s (Hv v eq_refl))
    as (s1 & -> & Hs1). exists s1. split; [done|].
  destruct (finds m v) as [L|e]; cbn [mbind result_bind]; [|done].
  pose proof (first_fold c L Hc) as Hf. destruct (first_text L) as [o|e].
  - destruct Hf as (c' & Hc' & ->). by exists c'.
  - by rewrite Hf.
Qed.

Lemma lookup_commit_looks dTag :
  looks_up (lookup_commit cfg d curr_time_us dTag) (commit_text dTag).
Proof.
  intros c s Hc. unfold lookup_commit, commit_text. cbv zeta.
  set (v := buildKindFilter _ _).
  destruct (run_query_spec d m Hdb curr_time_us (commit_cb cfg d dTag) v (c, None, 0%N) s
    (kind_filter_value 30078 COMMIT_HASH_SCAN_LIMIT eq_refl eq_refl)) as (s1 & E & Hs1). exists s1. split; [done|].
  destruct (finds m v) as [L|e]; cbn [mbind result_bind] in *; [|exact (bind_throw _ _ _ _ _ E)].
  pose proof (commit_fold dTag c 0 L Hc) as Hf. rewrite N.sub_0_r in Hf.
  destruct (first_match _ _) as [o|e].
  - destruct Hf as (c' & n' & Hc' & Hf). rewrite Hf in E. exists c'. split; [done|].
    by rewrite (bind_run _ _ _ _ _ E).
  - rewrite Hf in E. exact (bind_throw _ _ _ _ _ E).
Qed.
(** ** The handler *)

(** A lookup in its own [try] block. *)
Lemma guarded_run reqId startMs look r c s :
  looks_up look r → caches_ok c d → server_ok d s →
  match r with
  | Ok o => ∃ c' s1, caches_ok c' d ∧ server_ok d s1 ∧
      guarded now_ms reqId startMs (look c) s = (Ok (Some (c', o)), s1)
  | Throw e => ∃ s1, server_ok d s1 ∧
      guarded now_ms reqId startMs (look c) s =
        ((if catchable e then Ok None else Throw e), s1) ∧
      (catchable e = true → replied_error s1 500)
  end.
Proof.
  intros Hlook Hc Hs. unfold guarded. destruct (Hlook c s Hc) as (s1 & (_ & Hd1 & _ & _) & Hr).
  assert (server_ok d s1) as Hs1 by (unfold server_ok; by rewrite Hd1).
  destruct r as [o|e].
  - destruct Hr as (c' & Hc' & E). exists c', s1. split_and!; try done.
    apply try_catch_ok. by rewrite (bind_run _ _ _ _ _ E).
  - rewrite (try_catch_throw _ _ _ _ _ (bind_throw _ _ _ _ _ Hr)).
    destruct (catchable e); [|by exists s1].
    destruct (get_reply_run 500 #"Internal server error" s1) as (s2 & E2 & (_ & Hd2 & _) & Hrep).
    destruct (log_response_run now_ms reqId 500 startMs s2) as (s3 & E3 & (_ & Hd3 & _) & Hres).
    exists s3. rewrite (bind_run _ _ _ _ _ E2), (bind_run _ _ _ _ _ E3). split; [|split; [done|]].
    + unfold server_ok. by rewrite Hd3, Hd2, Hd1.
    + intros _. eexists. unfold replied, status_of in *. by rewrite Hres.
Qed.

Lemma reply_dtag_run reqId startMs o (s : http_state P) :
  server_ok d s →
  ∃ s', reply_dtag now_ms reqId startMs o s = (Ok tt, s') ∧ server_ok d s' ∧
    match o with Some t => replied s' 200 t | None => replied_error s' 404 end.
Proof.
  intros Hs. destruct o as [t|]; cbn [reply_dtag].
  - set (s1 := (set_status 200 s).2). rewrite (bind_run _ _ s tt s1) by done.
    set (s2 := (set_content t #"application/json" s1).2). rewrite (bind_run _ _ s1 tt s2) by done.
    destruct (count_request_run #"GET" 200 s2) as (s3 & E3 & (_ & Hd3 & _) & Hr3).
    destruct (log_response_run now_ms reqId 200 startMs s3) as (s4 & E4 & (_ & Hd4 & _) & Hr4).
    exists s4. rewrite (bind_run _ _ _ _ _ E3). split; [done|]. split.
    + unfold server_ok. by rewrite Hd4, Hd3.
    + unfold replied, status_of. by rewrite Hr4, Hr3.
  - destruct (get_reply_run 404 #"event not found for specified d tag" s)
      as (s2 & E2 & (_ & Hd2 & _) & Hrep).
    destruct (log_response_run now_ms reqId 404 startMs s2) as (s3 & E3 & (_ & Hd3 & _) & Hres).
    exists s3. rewrite (bind_run _ _ _ _ _ E2). split; [done|]. split.
    + unfold server_ok. by rewrite Hd3, Hd2.
    + eexists. unfold replied, status_of in *. by rewrite Hres.
Qed.

(** What the client is told. *)
Definition dtag_answer (r : result (option bytes)) (s' : http_state P) : Prop :=
  match r with
  | Ok (Some t) => replied s' 200 t
  | Ok None => replied_error s' 404
  | Throw e => catchable e = true → replied_error s' 500
  end.

Definition handler_result {A} (r : result A) : result () :=
  match r with Throw e => if catchable e then Ok tt else Throw e | Ok _ => Ok tt end.

Lemma search_dtag_run reqId startMs dTag s :
  (∀ v, buildDTagFilter dTag = Ok v → Forall filter_value (filter_values v)) → server_ok d s →
  ∃ s', search_dtag cfg d now_ms curr_time_us reqId startMs dTag s =
      (handler_result (found_text dTag), s') ∧
    server_ok d s' ∧ dtag_answer (found_text dTag) s'.
Proof.
  intros Hv Hs. unfold search_dtag.
  rewrite (bind_run _ _ s (mk_caches ∅ (dictionaries s)) s) by done.
  pose proof (guarded_run reqId startMs _ _ _ s (lookup_dtag_looks dTag Hv) Hs Hs) as H1'.
  unfold found_text. destruct (dtag_text dTag) as [o|e]; cbn [mbind result_bind].
  2:{ destruct H1' as (s1 & Hs1 & E & Hrep). simpl. destruct (catchable e) eqn:He.
      - exists s1. by rewrite (bind_run _ _ _ _ _ E).
      - exists s1. by rewrite (bind_throw _ _ _ _ _ E). }
  destruct H1' as (c1 & s1 & Hc1 & Hs1 & E). rewrite (bind_run _ _ _ _ _ E).
  destruct o as [t|].
  - rewrite (bind_run _ _ s1 tt (set_dictionaries (global_dicts c1) s1).2) by done.
    destruct (reply_dtag_run reqId startMs (Some t) _ (server_ok_set d c1 s1 Hc1))
      as (s2 & E2 & Hs2 & Hrep). by exists s2.
  - pose proof (guarded_run reqId startMs _ _ c1 s1 (lookup_commit_looks dTag) Hc1 Hs1) as H2'.
    destruct (commit_text dTag) as [o|e].
    + destruct H2' as (c2 & s2 & Hc2 & Hs2 & E2). rewrite (bind_run _ _ _ _ _ E2).
      rewrite (bind_run _ _ s2 tt (set_dictionaries (global_dicts c2) s2).2) by done.
      destruct (reply_dtag_run reqId startMs o _ (server_ok_set d c2 s2 Hc2))
        as (s3 & E3 & Hs3 & Hrep). exists s3. by destruct o.
    + destruct H2' as (s2 & Hs2 & E2 & Hrep). simpl. destruct (catchable e) eqn:He.
      * exists s2. by rewrite (bind_run _ _ _ _ _ E2).
      * exists s2. by rewrite (bind_throw _ _ _ _ _ E2).
Qed.

(** Fetching by d tag answers with the text of the newest event that has
    the tag; when there is none, with the newest of the last 5000 kind 30078
    events whose content names the value as its commit hash; when there is
    none either, 404, and 500 only when the filter or an event that had to be
    read is unreadable. *)
Theorem dtag_response req s :
  let dTag := get_param_value req #"d" in
  dTag ≠ [] → server_ok d s →
  (∀ v, buildDTagFilter dTag = Ok v → Forall filter_value (filter_values v)) →
  ∃ s', handleGetQuoteByDTag cfg d now_ms curr_time_us req s =
      (handler_result (found_text dTag), s') ∧
    server_ok d s' ∧ dtag_answer (found_text dTag) s'.
Proof.
  intros dTag Hd Hs Hv. unfold handleGetQuoteByDTag.
  rewrite (bind_run _ _ s (header_value #"X-Request-ID" (res_headers (res s))) s) by done.
  set (s0 := (getTimestampMs now_ms s).2).
  rewrite (bind_run _ _ s (now_ms (ms_tick s)) s0) by done.
  cbv zeta. destruct (Nat.eqb_spec (length (get_param_value req #"d")) 0) as [H0'|_].
  { by apply nil_length_inv in H0'. }
  destruct (search_dtag_run (header_value #"X-Request-ID" (res_headers (res s)))
    (now_ms (ms_tick s)) dTag s0 Hv Hs) as (s1 & E & Hs1 & Hans).
  exists s1. split; [|done]. unfold handler_result in *.
  destruct (found_text dTag) as [o|e]; [by apply try_catch_ok|].
  destruct (catchable e) eqn:He; [by apply try_catch_ok|].
  by rewrite (try_catch_throw _ _ _ _ _ E), He.
Qed.
End lookup.
