(* ===== verification/QueryWitnesses.v ===== *)
(** The query theorems at a concrete database and filter. *)

From stdpp Require Import fin_maps fin_sets.
From S2P Require Import Prelude Bytes Json Hex PackedEvent FilterSets Filters Config EventParse Db.
From S2P Require Import MemDb StoreTheorems Subscription DBQuery DBQueryOrder DBQueryCursors.
From S2P Require Import DBQueryAnswer DBQueryTheorems DBQueryLiveness QueryScheduler.
From S2P Require Import QuerySchedulerTheorems Payload Double RateLimit RateLimitTheorems HttpUtil.
From S2P Require Import HttpMetrics HttpMonad HttpHandlers HttpServer HttpCounting.
From S2P Require Import HttpServerTheorems HttpBatch HttpQueryTheorems.

(** Three events; the filter asks for the newest of kind 1. *)
Definition query_events : gmap N event :=
  {[1%N := mk_sample "a" 100 1 []; 2%N := mk_sample "b" 300 1 []; 3%N := mk_sample "c" 400 7 []]}.

Definition query_db : mem := mk_tables (encode <$> query_events) ∅ ∅ (Some (mk_meta 3 1 1)) [] ∅.

Definition query_obj (lim : N) : list (bytes * value) :=
  [(#"kinds", JArray [JUnsigned 1]); (#"limit", JUnsigned lim)].

Definition query_filter (lim : N) : NostrFilter :=
  match NostrFilter_make (JObject (query_obj lim)) MAX_U64 with
  | Ok f => f
  | Throw _ => filter_default
  end.

Definition no_clock (i : nat) : N := 0%N.

Lemma query_event_ok e i : ev_id e = replicate 32 i → e = mk_sample i (ev_created_at e) (ev_kind e) [] →
  (ev_created_at e < 1000)%N → (ev_kind e < 1000)%N → wf_event e ∧ time_ok (ev_created_at e).
Proof.
  intros _ -> Ht Hk. simpl in *. split; [|unfold time_ok; lia].
  constructor; simpl; try done; unfold is_u64, two64; lia.
Qed.

Lemma query_db_ok : scan_db query_db query_events.
Proof.
  assert (∀ l e, query_events !! l = Some e →
    is_u64 l ∧ wf_event e ∧ time_ok (ev_created_at e)) as Hall.
  { intros l e He. unfold query_events in He.
    apply lookup_insert_Some in He as [[<- <-]|[_ He]];
      [|apply lookup_insert_Some in He as [[<- <-]|[_ He]];
        [|apply lookup_singleton_Some in He as [<- <-]]];
      (split; [done|by eapply query_event_ok]). }
  split; [split|done|].
  - done.
  - intros l e He. by destruct (Hall l e He) as (? & ? & _).
  - intros l e He. by destruct (Hall l e He) as (_ & _ & ?).
Qed.

Lemma query_obj_ok lim : is_u64 lim → filter_value (JObject (query_obj lim)).
Proof.
  intros Hlim. exists (query_obj lim). split; [done|]. split.
  { apply (bool_decide_unpack _). vm_compute. exact I. }
  intros k v [[= -> ->]|Hin]%elem_of_cons.
  - split; [by intros n|]. split; [|done]. intros n [= ->]%list_elem_of_singleton. done.
  - apply list_elem_of_singleton in Hin as [= -> ->]. split; [by intros n [= <-]|].
    split; [by intros n ?%not_elem_of_nil|done].
Qed.

Lemma query_filter_scan : scan_filter (query_filter 1).
Proof.
  destruct (query_obj_ok 1 eq_refl) as (kvs & [= <-] & Hnd & Hfit).
  apply (NostrFilter_make_scan (query_obj 1) MAX_U64); [reflexivity|done|done|reflexivity].
Qed.

Lemma query_group : NostrFilterGroup_unwrapped (JObject (query_obj 1)) MAX_U64 = Ok [query_filter 1].
Proof. vm_compute. reflexivity. Qed.

(** The newest of the two notes is returned. *)
Lemma query_run : foreachByFilter collect_ids no_clock query_db (JObject (query_obj 1)) [] 0 =
  Ok ([2%N], 2).
Proof. vm_compute. reflexivity. Qed.

Lemma foreachByFilter_correct_witness :
  foldM collect_ids [] (todo query_events MAX_U64 [query_filter 1] ∅) = Ok [2%N].
Proof.
  pose proof (foreachByFilter_correct collect_ids no_clock query_db query_events
    (JObject (query_obj 1)) [query_filter 1] [] 0 query_db_ok
    (Forall_cons_2 _ _ _ (query_obj_ok 1 eq_refl) (Forall_nil_2 _)) query_group) as Hc.
  rewrite query_run in Hc. exact Hc.
Defined.

Lemma query_returns_newest_witness :
  ∃ X t', foreachByFilter collect_ids no_clock query_db (JObject (query_obj 1)) [] 0 = Ok (X.*2, t') ∧
    StronglySorted newer X ∧ NoDup X.*2 ∧ (N.of_nat (length X) ≤ limit (query_filter 1))%N ∧
    (∀ p, p ∈ X → ∃ e, query_events !! p.2 = Some e ∧ p.1 = ev_created_at e ∧
       filter_spec (query_obj 1) e) ∧
    (∀ l e, query_events !! l = Some e → filter_spec (query_obj 1) e →
       (ev_created_at e, l) ∈ X ∨
       N.of_nat (length X) = limit (query_filter 1) ∧
       ∀ p, p ∈ X → newer p (ev_created_at e, l)).
Proof.
  apply (query_returns_newest no_clock query_db query_events (query_obj 1) (query_filter 1) 0).
  - exact query_db_ok.
  - exact (query_obj_ok 1 eq_refl).
  - vm_compute. reflexivity.
Defined.

Definition query_sub : Subscription := mk_sub 7 (mk_subid (ascii_of_nat 1 :: #"s")) [query_filter 1] 3.

Lemma query_sub_ok : Forall scan_filter (filterGroup query_sub).
Proof. constructor; [exact query_filter_scan|done]. Qed.

(** Slices without any budget. *)
Lemma paused_query_correct_witness :
  match run_slices collect_ids no_clock query_db [0%N; 0%N] (DBQuery_make query_sub) [] 0 with
  | Ok (true, _, b', _) => foldM collect_ids [] (todo query_events 3 [query_filter 1] ∅) = Ok b'
  | Ok (false, _, b', _) => ∃ T1 T2, todo query_events 3 [query_filter 1] ∅ = T1 ++ T2 ∧
      foldM collect_ids [] T1 = Ok b'
  | Throw e => foldM collect_ids [] (todo query_events 3 [query_filter 1] ∅) = Throw e
  end.
Proof.
  exact (paused_query_correct collect_ids no_clock query_db query_events query_sub [0%N; 0%N] [] 0
    query_db_ok query_sub_ok).
Defined.

Lemma paused_query_completes_witness :
  ∃ slices, ∀ budgets b t, slices < length budgets →
    ∃ q' b' t', run_slices collect_ids no_clock query_db budgets (DBQuery_make query_sub) b t =
      Ok (true, q', b', t').
Proof.
  apply (paused_query_completes collect_ids no_clock query_db query_events query_sub).
  - exact query_db_ok.
  - vm_compute. reflexivity.
  - exact query_sub_ok.
  - intros b l. by eexists.
Defined.

(** A caller that logs what it is sent. *)
Definition log_event (w : list N) (s : Subscription) (l : N) (payload : bytes) : result (list N) :=
  Ok (w ++ [l]).

Definition sample_ops : list (env * sched_op) :=
  [(query_db : env, OpAdd query_sub); (query_db : env, OpProcess)].

Lemma scheduler_safe_witness : ∃ st,
  run_ops default_config false (Some log_event) None None no_clock (Scheduler.empty_scheduler, [], 0)
    sample_ops = Ok st.
Proof.
  apply (proj2 (scheduler_safe default_config false (Some log_event) None None no_clock sample_ops [] 0)).
  - intros h [= <-] w s l p. by eexists.
  - done.
  - done.
  - unfold sample_ops. intros d op [[= -> ->]|[= -> ->]%list_elem_of_singleton]%elem_of_cons.
    + split; [exists query_events; exact query_db_ok|]. intros s [= <-]. exact query_sub_ok.
    + split; [exists query_events; exact query_db_ok|done].
Defined.

(** The one subscription gets its event and its completion. *)
Lemma scheduler_drains_witness :
  ∃ turns, ∀ k, turns ≤ k → ∃ qs w' t' calls Ts,
    run_ops default_config false (Some log_event) None None no_clock
      (Scheduler.empty_scheduler, [], 0)
      ((λ op, (query_db : env, op)) <$> [OpAdd query_sub] ++ replicate k OpProcess) =
      Ok (qs, w', t') ∧
    Scheduler.running qs = [] ∧ Scheduler.heap qs = ∅ ∧
    foldM (make_call (Some log_event) None None) [] calls = Ok w' ∧ mjoin Ts = [2%N] ∧
    calls_at query_sub calls =
      mjoin (slice false (None : option (list N → Subscription → list N → result (list N))) query_db
        (set_latestEventId query_sub 3) <$> Ts) ++ [CallComplete (set_latestEventId query_sub 3)].
Proof.
  destruct (scheduler_drains default_config false (Some log_event) None None no_clock
    query_db query_events [OpAdd query_sub] [] 0) as [turns Hturns].
  - exact query_db_ok.
  - vm_compute. reflexivity.
  - intros h [= <-] w s l p. by eexists.
  - done.
  - done.
  - intros s [= ->]%list_elem_of_singleton. exact query_sub_ok.
  - exists turns. intros k Hk. destruct (Hturns k Hk) as (qs & w' & t' & Hrun & Hr & Hh & Hall).
    destruct (addSub_inv default_config (λ _, True) (query_db : env) Scheduler.empty_scheduler query_sub
      (sched_inv_empty _ _) I) as (qs2 & b & Hadd & _).
    assert (b = true) as -> by (vm_compute in Hadd; congruence).
    destruct (Hall [] query_sub [] Scheduler.empty_scheduler [] 0 qs2 eq_refl eq_refl Hadd
      ltac:(constructor)) as (calls & Ts & Hc & HT & Hat).
    exists qs, w', t', calls, Ts. split_and!; [exact Hrun|exact Hr|exact Hh|exact Hc| |exact Hat].
    rewrite HT. vm_compute. reflexivity.
Defined.

(** One turn is enough here. *)
Lemma scheduler_drains_run :
  match run_ops default_config false (Some log_event) None None no_clock
      (Scheduler.empty_scheduler, [], 0) [(query_db : env, OpAdd query_sub); (query_db : env, OpProcess)] with
  | Ok (qs, w', _) => Scheduler.running qs = [] ∧ w' = [2%N]
  | Throw _ => False
  end.
Proof. vm_compute. by split. Qed.

(** The HTTP theorems at concrete servers, requests and databases. *)

(** A parser that knows two texts by their first character: an array of one
    event and the d tag filter. *)
Definition http_event : value := JObject
  [(#"content", JString #"c"); (#"created_at", JUnsigned 100); (#"id", JString #"i");
   (#"kind", JUnsigned 1); (#"pubkey", JString #"p"); (#"sig", JString #"s");
   (#"tags", JArray [])].

Definition dtag_filter : list (bytes * value) :=
  [(#"#d", JArray [JString #"x"]); (#"limit", JUnsigned 1)].

#[refine, local] Instance http_json : JsonParser := {|
  json_from_string s :=
    match s with
    | c :: _ => if char_eqb c "[" then Ok (JArray [http_event; http_event])
                else if char_eqb c "{" then Ok (JObject dtag_filter) else Throw json_error
    | [] => Throw json_error
    end;
|}.
Proof.
  - intros [|c s] kvs; [done|]. destruct (char_eqb c "["); [done|].
    destruct (char_eqb c "{"); [|done]. intros [= <-]. apply (bool_decide_unpack _). vm_compute. exact I.
  - intros [|c s] e; [by intros [= <-]|]. destruct (char_eqb c "["); [done|].
    destruct (char_eqb c "{"); [done|]. by intros [= <-].
  - intros [|c s] v; [done|]. destruct (char_eqb c "["); [by intros [= <-]|].
    destruct (char_eqb c "{"); [by intros [= <-]|done].
Defined.

#[local] Existing Instance toy_libs.
#[local] Existing Instance toy_zstd.

(** The three events of the query examples and one with a d tag. *)
Definition http_events : gmap N event := <[4%N := mk_sample "d" 500 1 [("d"%char, #"x")]]> query_events.

Definition http_db : mem := mk_tables (encode <$> http_events)
  {[2%N := "000"%char :: #"{two}"; 4%N := "000"%char :: #"{four}"]} ∅ (Some (mk_meta 3 1 1)) [] ∅.

Lemma http_db_ok : scan_db http_db http_events.
Proof.
  destruct query_db_ok as [[_ Hwf] _ Ht].
  assert (∀ l e, http_events !! l = Some e → wf_event e ∧ is_u64 l ∧ time_ok (ev_created_at e)) as Hall.
  { intros l e He. unfold http_events in He. apply lookup_insert_Some in He as [[<- <-]|[_ He]].
    - split; [|split; [done|unfold time_ok; simpl; lia]].
      split; try done. apply Forall_singleton. unfold wf_tag. simpl. lia.
    - destruct (Hwf l e He). split_and!; try done. by eapply Ht. }
  split; [split|done|]; [done| |]; intros l e He; by destruct (Hall l e He) as (?&?&?).
Qed.

(** A processor that keeps what it is given, and takes one event only. *)
Definition one_event (p : list bytes) (ev : bytes) : result (bool * bytes) * list bytes :=
  match p with
  | [] => (Ok (true, []), [ev])
  | _ => (Ok (false, #"full"), p)
  end.

Definition http_clock (i : nat) : N := N.of_nat i.
Definition http_what (e : exn) : bytes := #"error".
Definition http_stod (s : bytes) : result double := Throw invalid_argument.
Definition http_settings : RateLimitSettings := mk_settings true 60 100 1000 #"2.0" 60.

Definition http_server : http_state (list bytes) :=
  new_server http_stod (λ _, 7%Z) http_settings [].

Definition http_request (verb target text : bytes) (params : list (bytes * bytes)) : Request :=
  mk_request verb target text (λ _, false) (λ _, [])
    (λ k, match list_find (λ p, p.1 = k) params with Some (_, (_, v)) => v | None => [] end)
    [target] #"127.0.0.1".

Definition health_request : Request := http_request #"GET" #"/health" [] [].

Lemma requests_counted_witness :
  counted_once http_what #"GET" #"/health" health_request http_server
    (handleHealthCheck http_server).
Proof.
  apply (requests_counted default_config (http_db : env) (Some one_event) http_what hex_decode
    (λ _, toy_print) http_clock http_clock #"GET" #"/health" (λ _, handleHealthCheck) health_request
    http_server).
  - do 7 apply list_elem_of_further. apply list_elem_of_here.
  - reflexivity.
Defined.

Lemma pre_routing_gate_witness :
  ∃ h s', preRouting http_clock http_clock (λ _, 7%Z) true false #"*"
      (http_request #"GET" #"/api/query" [] []) http_server = (Ok h, s') ∧
    gate (λ _, 7%Z) true false (http_request #"GET" #"/api/query" [] []) http_server s' h ∧
    gate_frame (http_request #"GET" #"/api/query" [] []) http_server s' h.
Proof.
  apply (pre_routing_gate http_clock http_clock (λ _, 7%Z) true false #"*").
  apply new_limiter_ok.
Defined.

Definition batch_request : Request := http_request #"POST" #"/api/quotes/batch" #"[" [].

Lemma batch_prefix_witness :
  ∃ r s' pre post p1,
    handleEventPostBatch (Some one_event) http_what http_clock batch_request http_server = (r, s') ∧
    [http_event; http_event] = pre ++ post ∧ went_through one_event http_server s' pre p1 ∧
    batch_end one_event p1 (proc s') post (status_of s') r.
Proof.
  apply (batch_prefix one_event http_what http_clock batch_request
    (JArray [http_event; http_event]) [http_event; http_event] http_server).
  - reflexivity.
  - reflexivity.
  - simpl. unfold MAX_BATCH_SIZE. lia.
Defined.

(** The first event of that batch stays with the processor although the batch
    is refused. *)
Lemma batch_not_atomic :
  let s' := (handleEventPostBatch (Some one_event) http_what http_clock batch_request http_server).2 in
  status_of s' = 400%Z ∧ length (proc s') = 1.
Proof. vm_compute. done. Qed.

Definition kind_request : Request :=
  http_request #"GET" #"/api/query" [] [(#"kinds", #"1"); (#"limit", #"1")].

Lemma http_server_ok : server_ok (http_db : env) http_server.
Proof. intros i dict [Hl|Hl]; simpl in Hl; by apply lookup_empty_Some in Hl. Qed.

Lemma kind_request_texts :
  query_texts default_config (http_db : env) http_events (JObject (query_obj 1)) = Ok [ #"{four}"].
Proof. vm_compute. reflexivity. Qed.

Lemma query_response_witness :
  ∃ s', handleQuery default_config (http_db : env) http_what http_clock kind_request http_server =
      (Ok tt, s') ∧
    server_ok (http_db : env) s' ∧ replied s' 200 #"[{four}]" ∧
    queryResultCounts_ (metrics s') = mk_summary 1 1.
Proof.
  pose proof (query_response default_config (http_db : env) http_events http_db_ok http_what
    http_clock kind_request (JObject (query_obj 1)) http_server http_server_ok eq_refl
    (Forall_cons_2 _ _ _ (query_obj_ok 1 eq_refl) (Forall_nil_2 _))) as Hq.
  rewrite kind_request_texts in Hq. exact Hq.
Defined.

Definition dtag_request : Request := http_request #"GET" #"/api/quotes" [] [(#"d", #"x")].

Lemma dtag_found : found_text default_config (http_db : env) http_events #"x" = Ok (Some #"{four}").
Proof. vm_compute. reflexivity. Qed.

Lemma dtag_response_witness :
  ∃ s', handleGetQuoteByDTag default_config (http_db : env) http_clock http_clock dtag_request
      http_server = (handler_result (found_text default_config (http_db : env) http_events #"x"), s') ∧
    server_ok (http_db : env) s' ∧
    dtag_answer (found_text default_config (http_db : env) http_events #"x") s'.
Proof.
  apply (dtag_response default_config (http_db : env) http_events http_db_ok http_clock http_clock
    dtag_request http_server).
  - discriminate.
  - exact http_server_ok.
  - intros v [= <-]. constructor; [|done]. exists dtag_filter. split; [done|]. split.
    + apply (bool_decide_unpack _). vm_compute. exact I.
    + intros k v [[= -> ->]|[= -> ->]%list_elem_of_singleton]%elem_of_cons.
      * split; [by intros n|]. split; [|done]. intros n Hn. by apply list_elem_of_singleton in Hn.
      * split; [by intros n [= <-]|]. split; [by intros n ?%not_elem_of_nil|done].
Defined.
