(* ===== verification/RelayCron.v ===== *)
(** The cron thread ([RelayCron.cpp]): every nine seconds it deletes the expired
    events and the old ephemeral ones.

    What is to be deleted is collected in a read transaction and deleted in a
    later write transaction; the writer may have changed the store in between.
    The event with the largest levId is spared, because levIds are assigned
    above it. *)

From S2P Require Import Prelude Bytes Json Hex PackedEvent Filters Config Db NegentropyCache.
From S2P Require Import EventWriter EventStore StoreTheorems Payload StoreHistory.

Section cron.
Context `{!Hex, !NativeU64, !GolpeKeys, !Env, !JsonParser, !Zstd} (cfg : Config).

Record cron_state := mk_cron {
  expiredLevIds : list N;
  numEphemeral : N;
  numExpired : N;
}.

(** The callback of the index scan: the state and whether to go on. *)
Definition cron_visit (d : env) (mostRecent now ephemeralCutoff : N) (st : cron_state)
    (kv : bytes * N) : result (cron_state * bool) :=
  let expiration := from_sv64 kv.1 in
  let levId := kv.2 in
  if (now <? expiration)%N then Ok (st, false)
  else if (levId =? mostRecent)%N then Ok (st, true)
  else if (expiration =? 1)%N then
    match lookup_Event d levId with
    | None => Throw (herr #"missing event from index, corrupt DB?")
    | Some buf =>
        ev ← view buf;
        if (created_at ev <=? ephemeralCutoff)%N
        then Ok (mk_cron (expiredLevIds st ++ [levId]) (N.succ (numEphemeral st)) (numExpired st), true)
        else Ok (st, true)
    end
  else Ok (mk_cron (expiredLevIds st ++ [levId]) (numEphemeral st) (N.succ (numExpired st)), true).

Fixpoint cron_scan (d : env) (mostRecent now ephemeralCutoff : N) (st : cron_state)
    (l : list (bytes * N)) : result cron_state :=
  match l with
  | [] => Ok st
  | kv :: l =>
      '(st, go_on) ← cron_visit d mostRecent now ephemeralCutoff st kv;
      if go_on : bool then cron_scan d mostRecent now ephemeralCutoff st l else Ok st
  end.

(** The read transaction. *)
Definition collect_expired (now : N) (d : env) : result cron_state :=
  let mostRecent := getMostRecentLevId d in
  let ephemeralCutoff := u64_sub now (events__ephemeralEventsLifetimeSeconds cfg) in
  cron_scan d mostRecent now ephemeralCutoff (mk_cron [] 0 0)
    (foreachFull d Event__expiration (to_sv64 0) 0 false).

(** The write transaction, on the store as it is then. *)
Definition delete_expired (st : cron_state) (d : env) : result (env * N) :=
  if length (expiredLevIds st) =? 0 then Ok (d, 0%N)
  else
    '(_, d, numDeleted) ← deleteEvents (mk_cache [] 0) d (expiredLevIds st);
    Ok (d, numDeleted).

(** ** What is collected *)

(** Expired at [now]: by its own expiration, or as an ephemeral event created
    no later than the cutoff. *)
Definition expired (now : N) (e : event) : Prop :=
  (2 ≤ ev_expiration e)%N ∧ (ev_expiration e ≤ now)%N ∨
  ev_expiration e = 1%N ∧ (1 ≤ now)%N ∧
    (ev_created_at e ≤ u64_sub now (events__ephemeralEventsLifetimeSeconds cfg))%N.

#[export] Instance expired_dec now e : Decision (expired now e).
Proof. unfold expired. apply _. Defined.

Lemma expiration_entry d m k l :
  repr d m → is_entry (Event (tables d)) Event__expiration (k, l) ↔
  ∃ e, m !! l = Some e ∧ ev_expiration e ≠ 0%N ∧ k = to_sv64 (ev_expiration e) ∧
    is_u64 (ev_expiration e) ∧ is_u64 l.
Proof.
  intros Hr. rewrite (repr_is_entry _ _ _ _ _ Hr). split.
  - intros (e & He & Hwf & Hl & Hk). exists e. simpl in Hk.
    destruct (N.eqb_spec (ev_expiration e) 0); [by apply not_elem_of_nil in Hk|].
    apply list_elem_of_singleton in Hk as ->.
    split_and!; try done. apply Hwf.
  - intros (e & He & Hne & -> & _ & Hl). exists e. split_and!; [done|by eapply repr_wf|done|].
    simpl. destruct (N.eqb_spec (ev_expiration e) 0); [done|]. by apply list_elem_of_singleton.
Qed.

Lemma entry_le_expiration n l n' l' :
  is_u64 n → is_u64 n' →
  entry_le Event__expiration (to_sv64 n, l) (to_sv64 n', l') ↔
  (n < n')%N ∨ n = n' ∧ (l ≤ l')%N.
Proof.
  intros Hn Hn'. unfold entry_le, entry_compare. cbn [fst snd].
  rewrite !fields_integer by (done || by apply (bool_decide_unpack _)). simpl.
  destruct (N.compare_spec n n'); [|naive_solver lia..].
  destruct (N.compare_spec l l'); naive_solver lia.
Qed.

(** The levIds of a scan of an index segment. *)
Lemma cron_scan_spec d m now cutoff L :
  repr d m → StronglySorted (entry_le Event__expiration) L → NoDup L →
  (∀ kv, kv ∈ L → is_entry (Event (tables d)) Event__expiration kv) →
  ∀ st, ∃ st', cron_scan d (getMostRecentLevId d) now cutoff st L = Ok st' ∧
    ∀ l, l ∈ expiredLevIds st' ↔ l ∈ expiredLevIds st ∨
      l ≠ getMostRecentLevId d ∧ l ∈ L.*2 ∧ ∃ e, m !! l = Some e ∧
      (ev_expiration e ≤ now)%N ∧ (ev_expiration e = 1%N → (ev_created_at e ≤ cutoff)%N).
Proof.
  intros Hr. induction 1 as [|[k l0] L Hso IH Hle]; intros Hnd HL st.
  { exists st. split; [done|]. intros l. rewrite elem_of_nil. naive_solver. }
  apply NoDup_cons in Hnd as [_ Hnd].
  specialize (IH Hnd (λ kv Hkv, HL kv (list_elem_of_further _ _ _ Hkv))).
  destruct (proj1 (expiration_entry d m k l0 Hr) (HL _ (list_elem_of_here _ _)))
    as (e0 & He0 & Hne & -> & Hx & _).
  assert (∀ l, (∃ e, m !! l = Some e ∧ l ∈ L.*2 ∧ (ev_expiration e ≤ now)%N) →
    (ev_expiration e0 ≤ now)%N) as Hstop.
  { intros l (e & He & ([k' l'] & -> & Hin)%list_elem_of_fmap & Hexp). simpl in He.
    rewrite Forall_forall in Hle. specialize (Hle _ Hin). specialize (HL (k', l')).
    apply (expiration_entry d m k' l' Hr) in HL as (e' & He' & _ & -> & Hx' & _);
      [|by constructor 2]. apply entry_le_expiration in Hle; [|done..].
    simpl in He. assert (e' = e) as -> by congruence. lia. }
  cbn [cron_scan]. unfold cron_visit. cbn [fst snd]. rewrite from_to_sv64 by done.
  rewrite fmap_cons. setoid_rewrite elem_of_cons.
  destruct (N.ltb_spec now (ev_expiration e0)) as [Hlt|Hge]; cbn [mbind result_bind].
  { exists st. split; [done|]. intros l. split; [by left|].
    intros [?|(_ & [->|Hin] & e & He & Hexp & _)]; [done| |].
    - simpl in He. assert (e = e0) as -> by congruence. lia.
    - pose proof (Hstop l ltac:(by exists e)). lia. }
  destruct (N.eqb_spec l0 (getMostRecentLevId d)) as [->|Hm]; cbn [mbind result_bind].
  { destruct (IH st) as (st' & Hrun & Hst'). exists st'. split; [done|].
    intros l. rewrite Hst'. simpl. naive_solver. }
  destruct (N.eqb_spec (ev_expiration e0) 1) as [H1'|H1'].
  - rewrite (lookup_Event_repr d m l0 Hr), He0. simpl fmap. cbn match.
    assert (wf_event e0) as Hwf by by eapply repr_wf.
    rewrite view_encode by done. cbn [mbind result_bind].
    rewrite created_at_encode by done.
    destruct (N.leb_spec (ev_created_at e0) cutoff) as [Hc|Hc]; cbn [mbind result_bind].
    + edestruct IH as (st' & Hrun & Hst'). exists st'. split; [exact Hrun|].
      intros l. rewrite Hst'. simpl. rewrite elem_of_app, list_elem_of_singleton. naive_solver.
    + destruct (IH st) as (st' & Hrun & Hst'). exists st'. split; [done|].
      intros l. rewrite Hst'. simpl. split; [naive_solver|].
      intros [?|(? & [->|?] & e & He & ? & Hcut)]; [by left| |naive_solver].
      assert (e = e0) as -> by congruence. specialize (Hcut H1'). lia.
  - cbn [mbind result_bind]. edestruct IH as (st' & Hrun & Hst'). exists st'. split; [exact Hrun|].
    intros l. rewrite Hst'. simpl. rewrite elem_of_app, list_elem_of_singleton. naive_solver.
Qed.

Lemma collect_expired_spec now d m :
  repr d m → ∃ st, collect_expired now d = Ok st ∧
    ∀ l, l ∈ expiredLevIds st ↔ l ≠ getMostRecentLevId d ∧ ∃ e, m !! l = Some e ∧ expired now e.
Proof.
  intros Hr. unfold collect_expired.
  set (L := foreachFull d Event__expiration (to_sv64 0) 0 false).
  assert (∀ kv, kv ∈ L ↔ is_entry (Event (tables d)) Event__expiration kv) as HL.
  { intros [k l]. unfold L. rewrite foreachFull_elem. split; [by intros []|]. intros He. split; [done|].
    apply (expiration_entry d m k l Hr) in He as (e & _ & _ & -> & Hx & _).
    apply entry_le_expiration; [done..|]. destruct (N.eq_dec (ev_expiration e) 0); lia. }
  destruct (cron_scan_spec d m now
    (u64_sub now (events__ephemeralEventsLifetimeSeconds cfg)) L Hr) with (st := mk_cron [] 0 0)
    as (st & Hrun & Hst).
  - apply (foreachFull_sorted d Event__expiration (to_sv64 0) 0 false).
  - apply foreachFull_nodup.
  - intros kv. apply HL.
  - exists st. split; [done|]. intros l. rewrite Hst. simpl. rewrite elem_of_nil. split.
    + intros [[]|(Hne & Hin & e & He & Hle & Hcut)]. split; [done|]. exists e. split; [done|].
      apply list_elem_of_fmap in Hin as ([k l'] & -> & Hin). apply HL in Hin.
      apply (expiration_entry d m k l' Hr) in Hin as (e' & He' & Hnz & _). simpl in He.
      assert (e' = e) as -> by congruence. unfold expired.
      destruct (N.eq_dec (ev_expiration e) 1); [right|left]; [|lia].
      split; [done|]. split; [lia|]. by apply Hcut.
    + intros (Hne & e & He & Hexp). right. split; [done|]. split.
      * apply list_elem_of_fmap. exists (to_sv64 (ev_expiration e), l). split; [done|].
        apply HL, (expiration_entry d m _ l Hr). destruct (repr_wf d m l e Hr He) as [Hwf Hl].
        exists e. split_and!; try done; [destruct Hexp; lia|apply Hwf].
      * exists e. split; [done|]. destruct Hexp as [|(-> & ? & ?)]; [split; lia|]. split; [lia|done].
Qed.

(** C23: a cron run that collects in one snapshot and deletes in a later state of
    the store removes exactly the events that were there and had expired, the
    most recent one spared, and leaves the rest and the store's invariant
    alone; in particular the largest levId stays, whatever was written in
    between, so none is ever assigned twice. *)
Theorem cron_deletes_expired now s0 s fs :
  snap_repr s0 → grows s0 s → Meta_counter (tables (snap_db s)) ≠ Some 0%N →
  db_filters (snap_db s) fs → store_inv fs (snap_db s) (snap_events s) →
  ∃ st d' n, collect_expired now (snap_db s0) = Ok st ∧
    delete_expired st (snap_db s) = Ok (d', n) ∧
    store_inv fs d' (drop_all (expiredLevIds st) (snap_events s)) ∧
    (∀ l, l ∈ expiredLevIds st ↔ l ≠ latest s0 ∧
       ∃ e, snap_events s0 !! l = Some e ∧ expired now e) ∧
    grows s (mk_snapshot d' (drop_all (expiredLevIds st) (snap_events s))) ∧
    getMostRecentLevId d' = latest s.
Proof.
  intros Hr0 Hg Hz0 Hf Hinv. destruct (collect_expired_spec now (snap_db s0) (snap_events s0) Hr0)
    as (st & Hrun & Hst). destruct s as [d m]. simpl in *.
  assert (snap_repr (mk_snapshot d m)) as Hr by apply (proj1 Hinv).
  assert (getMostRecentLevId d ∉ expiredLevIds st) as Hm.
  { intros [Hne [e [He _]]]%Hst. pose proof (snap_latest s0 _ Hr0 (ex_intro _ e He)) as Hle.
    pose proof (gr_latest _ _ Hg) as Hge. unfold latest in *. simpl in *.
    apply Hne. lia. }
  exists st. unfold delete_expired. destruct (Nat.eqb_spec (length (expiredLevIds st)) 0) as [Hz|Hz].
  - exists d, 0%N. apply length_zero_iff_nil in Hz. rewrite Hz, drop_all_nil in *.
    split_and!; try done. apply grows_refl.
  - destruct (delete_grows (mk_cache [] 0) d m fs (expiredLevIds st) Hf)
      as (c' & d' & n & -> & Hinv' & _ & _ & Hl & Hgr); [by intros ?%Hz0|done|done|].
    exists d', n. by split_and!.
Qed.
End cron.
