(* ===== verification/StateExn.v ===== *)
(** Code that changes a state and may throw.

    What was done before an exception stays done, so [try_catch] goes on with
    the state the failing code left.  ([HttpMonad] has the HTTP server's own
    instance of this monad, with one accessor per member.) *)

From S2P Require Import Prelude Bytes Json Hex PackedEvent FilterSets Filters Config EventParse.
From S2P Require Import Subscription.

Definition SE (S A : Type) : Type := S → result A * S.

#[export] Instance SE_ret {S} : MRet (SE S) := λ A a s, (Ok a, s).
#[export] Instance SE_bind {S} : MBind (SE S) := λ A B f m s,
  match m s with
  | (Ok a, s) => f a s
  | (Throw e, s) => (Throw e, s)
  end.

Section ops.
Context {S : Type}.

Definition raise {A} (e : exn) : SE S A := λ s, (Throw e, s).
Definition lift {A} (r : result A) : SE S A := λ s, (r, s).
Definition gets {A} (f : S → A) : SE S A := λ s, (Ok (f s), s).
Definition modify (f : S → S) : SE S () := λ s, (Ok tt, f s).

(** [try { m } catch (std::exception &e) { h(e) }] *)
Definition try_catch {A} (m : SE S A) (h : exn → SE S A) : SE S A := λ s,
  match m s with
  | (Throw e, s) => if catchable e then h e s else (Throw e, s)
  | r => r
  end.

(** A [for] loop over a container. *)
Fixpoint for_each {A} (f : A → SE S ()) (l : list A) : SE S () :=
  match l with
  | [] => mret tt
  | a :: l => _ ← f a; for_each f l
  end.
End ops.

(** ** What a computation does to the state *)

(** It relates the states before and after, exception or not; [R] is reflexive
    and transitive. *)
Definition moves {S A} (R : S → S → Prop) (m : SE S A) : Prop :=
  ∀ s r s', m s = (r, s') → R s s'.

Create HintDb moves.

Section moves.
Context {S : Type} (R : S → S → Prop) `{!PreOrder R}.

Lemma moves_ret {A} (a : A) : moves R (mret a).
Proof. by intros s r s' [= <- <-]. Qed.

Lemma moves_raise {A} e : moves R (A := A) (raise e).
Proof. by intros s r s' [= <- <-]. Qed.

Lemma moves_lift {A} (x : result A) : moves R (lift x).
Proof. by intros s r s' [= <- <-]. Qed.

Lemma moves_gets {A} (f : S → A) : moves R (gets f).
Proof. by intros s r s' [= <- <-]. Qed.

Lemma moves_modify f : (∀ s, R s (f s)) → moves R (modify f).
Proof. by intros Hf s r s' [= <- <-]. Qed.

Lemma moves_bind {A B} (m : SE S A) (f : A → SE S B) :
  moves R m → (∀ a, moves R (f a)) → moves R (m ≫= f).
Proof.
  intros Hm Hf s r s'. unfold mbind, SE_bind. destruct (m s) as [[a|e] s1] eqn:E; intros Hr.
  - transitivity s1; [by eapply Hm|by eapply Hf].
  - injection Hr as <- <-. by eapply Hm.
Qed.

Lemma moves_bind_lift {A B} (x : result A) (f : A → SE S B) :
  (∀ a, x = Ok a → moves R (f a)) → moves R (lift x ≫= f).
Proof.
  intros Hf s r s'. unfold mbind, SE_bind, lift. destruct x as [a|e]; [by apply Hf|].
  by intros [= <- <-].
Qed.

Lemma moves_try {A} (m : SE S A) h : moves R m → (∀ e, moves R (h e)) → moves R (try_catch m h).
Proof.
  intros Hm Hh s r s'. unfold try_catch. destruct (m s) as [[a|e] s1] eqn:E; intros Hr.
  - injection Hr as <- <-. by eapply Hm.
  - destruct (catchable e); [|injection Hr as <- <-; by eapply Hm].
    transitivity s1; [by eapply Hm|by eapply Hh].
Qed.

Lemma moves_for_each {A} (f : A → SE S ()) l :
  (∀ a, a ∈ l → moves R (f a)) → moves R (for_each f l).
Proof.
  induction l as [|a l IH]; intros Hf; [apply moves_ret|].
  apply moves_bind; [apply Hf; constructor|]. intros _. apply IH. intros b Hb. apply Hf.
  by constructor 2.
Qed.
End moves.

#[export] Hint Extern 1 (moves _ (mret _)) => apply moves_ret; apply _ : moves.
#[export] Hint Extern 1 (moves _ (raise _)) => apply moves_raise; apply _ : moves.
#[export] Hint Extern 1 (moves _ (lift _)) => apply moves_lift; apply _ : moves.
#[export] Hint Extern 1 (moves _ (gets _)) => apply moves_gets; apply _ : moves.
#[export] Hint Extern 2 (moves _ (_ ≫= _)) => apply moves_bind; [try apply _| |intros ?] : moves.
#[export] Hint Extern 1 (moves _ (lift _ ≫= _)) => apply moves_bind_lift; [try apply _|intros ? ?] : moves.
#[export] Hint Extern 1 (moves _ (try_catch _ _)) => apply moves_try; [try apply _| |intros ?] : moves.

(** ** What a computation can throw *)

(** Only exceptions, from any state. *)
Definition throws_only_caught {S A} (m : SE S A) : Prop :=
  ∀ s e s', m s = (Throw e, s') → catchable e = true.

Create HintDb caught.

Section caught.
Context {S : Type}.

Lemma caught_ret {A} (a : A) : throws_only_caught (S := S) (mret a).
Proof. intros s e s' [=]. Qed.

Lemma caught_bind {A B} (m : SE S A) (f : A → SE S B) :
  throws_only_caught m → (∀ a, throws_only_caught (f a)) → throws_only_caught (m ≫= f).
Proof.
  intros Hm Hf s e s'. unfold mbind, SE_bind. destruct (m s) as [[a|x] s1] eqn:E.
  - apply Hf.
  - intros [= <- <-]. by eapply Hm.
Qed.

Lemma caught_raise {A} e : catchable e = true → throws_only_caught (S := S) (A := A) (raise e).
Proof. by intros He s e' s' [= <- <-]. Qed.

Lemma caught_gets {A} (f : S → A) : throws_only_caught (gets f).
Proof. intros s e s' [=]. Qed.

Lemma caught_modify (f : S → S) : throws_only_caught (modify f).
Proof. intros s e s' [=]. Qed.

Lemma caught_lift {A} (r : result A) :
  (∀ e, r = Throw e → catchable e = true) → throws_only_caught (S := S) (lift r).
Proof. intros Hr s e s' [= -> <-]. by apply Hr. Qed.

Lemma try_caught {A} (m : SE S A) h :
  throws_only_caught m → (∀ e, throws_only_caught (h e)) → throws_only_caught (try_catch m h).
Proof.
  intros Hm Hh s e s'. unfold try_catch. destruct (m s) as [[a|y] s1] eqn:E; [done|].
  rewrite (Hm _ _ _ E). apply Hh.
Qed.

Lemma bind_Throw {A B} (m : SE S A) (f : A → SE S B) s e s' :
  (m ≫= f) s = (Throw e, s') →
  m s = (Throw e, s') ∨ ∃ a s1, m s = (Ok a, s1) ∧ f a s1 = (Throw e, s').
Proof.
  unfold mbind, SE_bind. destruct (m s) as [[a|x] s1]; [|by left; congruence].
  intros Hf. right. by exists a, s1.
Qed.

Lemma bind_Ok {A B} (m : SE S A) (f : A → SE S B) s b s' :
  (m ≫= f) s = (Ok b, s') → ∃ a s1, m s = (Ok a, s1) ∧ f a s1 = (Ok b, s').
Proof.
  unfold mbind, SE_bind. destruct (m s) as [[a|x] s1]; [|done]. intros Hf. by exists a, s1.
Qed.

(** A [catch] of everything always ends well. *)
Lemma try_catch_total {A} (m : SE S A) (h : exn → SE S A) s :
  throws_only_caught m → (∀ e s', ∃ a s'', h e s' = (Ok a, s'')) →
  ∃ a s', try_catch m h s = (Ok a, s').
Proof.
  intros Hm Hh. unfold try_catch. destruct (m s) as [[a|e] s1] eqn:E; [by eexists _, _|].
  rewrite (Hm s e s1 E). apply Hh.
Qed.
End caught.

#[export] Hint Resolve caught_ret caught_gets caught_modify : caught.
#[export] Hint Extern 1 (throws_only_caught (_ ≫= _)) => apply caught_bind; [|intros ?] : caught.
#[export] Hint Extern 1 (throws_only_caught (raise _)) => apply caught_raise; reflexivity : caught.

(** Split a computation into its steps and close those the hints know. *)
Ltac prove_moves :=
  repeat first
    [ solve [auto with moves]
    | apply moves_bind_lift; [apply _|intros ? ?]
    | apply moves_bind; [apply _| |intros ?]
    | apply moves_try; [apply _| |intros ?]
    | case_match ].

Ltac prove_steps :=
  repeat first
    [ progress intros
    | solve [auto with caught]
    | apply caught_bind
    | apply try_caught
    | case_match ].

(** Parsing code throws exceptions and does nothing undefined.

    [only_caught r] says that [r], if it fails, fails with an exception that a
    [catch (std::exception &)] clause stops. *)

Definition only_caught {A} (r : result A) : Prop := ∀ e, r = Throw e → catchable e = true.

Create HintDb only_caught.

Lemma only_caught_Ok {A} (a : A) : only_caught (Ok a).
Proof. by intros e. Qed.

Lemma only_caught_Throw {A} e : catchable e = true → only_caught (A := A) (Throw e).
Proof. by intros He e' [= <-]. Qed.

Lemma only_caught_bind {A B} (m : result A) (f : A → result B) :
  only_caught m → (∀ a, m = Ok a → only_caught (f a)) → only_caught (m ≫= f).
Proof.
  intros Hm Hf e. destruct m as [a|x]; simpl; [by apply Hf|]. intros [= <-]. by apply Hm.
Qed.

Lemma only_caught_throw_if c e : catchable e = true → only_caught (throw_if c e).
Proof. intros He. unfold throw_if. destruct c; [by apply only_caught_Throw|apply only_caught_Ok]. Qed.

Lemma only_caught_foldM {S A} (f : S → A → result S) l s :
  (∀ s a, only_caught (f s a)) → only_caught (foldM f s l).
Proof.
  intros Hf. revert s. induction l as [|a l IH]; intros s; [apply only_caught_Ok|].
  cbn [foldM]. by apply only_caught_bind.
Qed.

Lemma only_caught_mapR {A B} (f : A → result B) l :
  (∀ a, only_caught (f a)) → only_caught (mapR f l).
Proof.
  intros Hf. induction l as [|a l IH]; [apply only_caught_Ok|]. cbn [mapR].
  apply only_caught_bind; [done|]. intros b _. apply only_caught_bind; [done|].
  intros bs' _. apply only_caught_Ok.
Qed.

#[export] Hint Resolve only_caught_Ok only_caught_foldM only_caught_mapR : only_caught.
#[export] Hint Extern 1 (only_caught (throw_if _ _)) =>
  apply only_caught_throw_if; reflexivity : only_caught.

(** Split code into its calls and close those the hints know. *)
Ltac prove_caught :=
  repeat first
    [ solve [auto with only_caught]
    | progress intros
    | apply only_caught_mapR | apply only_caught_foldM | apply only_caught_bind
    | apply only_caught_Throw; reflexivity
    | case_match ].

Lemma caught_lifted {S A} (r : result A) : only_caught r → throws_only_caught (S := S) (lift r).
Proof. apply caught_lift. Qed.

#[export] Hint Extern 1 (throws_only_caught (lift _)) =>
  apply caught_lifted; solve [prove_caught] : caught.

(** ** JSON accessors *)

Lemma caught_get_string v : only_caught (get_string v).
Proof. unfold get_string. prove_caught. Qed.
Lemma caught_get_unsigned v : only_caught (get_unsigned v).
Proof. unfold get_unsigned. prove_caught. Qed.
Lemma caught_get_array v : only_caught (get_array v).
Proof. unfold get_array. prove_caught. Qed.
Lemma caught_get_object v : only_caught (get_object v).
Proof. unfold get_object. prove_caught. Qed.
Lemma caught_jsonGetString v m : only_caught (jsonGetString v m).
Proof. unfold jsonGetString. prove_caught. Qed.
Lemma caught_jsonGetUnsigned v m : only_caught (jsonGetUnsigned v m).
Proof. unfold jsonGetUnsigned. prove_caught. Qed.
Lemma caught_jsonGetArray v m : only_caught (jsonGetArray v m).
Proof. unfold jsonGetArray. prove_caught. Qed.
Lemma caught_view s : only_caught (view s).
Proof. unfold view. prove_caught. Qed.
Lemma caught_tagBuilder_add b c v : only_caught (tagBuilder_add b c v).
Proof. unfold tagBuilder_add. prove_caught. Qed.
Lemma caught_SubId_make s : only_caught (SubId_make s).
Proof. unfold SubId_make. prove_caught. Qed.
Lemma caught_parseUint64 s : only_caught (parseUint64 s).
Proof. unfold parseUint64, stoull_digits. prove_caught. Qed.
#[export] Hint Resolve caught_get_string caught_get_unsigned caught_get_array caught_get_object
  caught_jsonGetString caught_jsonGetUnsigned caught_jsonGetArray caught_view caught_tagBuilder_add
  caught_SubId_make caught_parseUint64 : only_caught.

Lemma caught_at_key v k : only_caught (at_key v k).
Proof. unfold at_key. prove_caught. Qed.
Lemma caught_Subscription_make c s fg : only_caught (Subscription_make c s fg).
Proof. unfold Subscription_make. prove_caught. Qed.
#[export] Hint Resolve caught_at_key caught_Subscription_make : only_caught.

Lemma caught_from_string `{!JsonParser} s : only_caught (json_from_string s).
Proof. intros e He. apply json_from_string_error in He as ->. done. Qed.
#[export] Hint Resolve caught_from_string : only_caught.

(** ** Filters and events *)

Section parsing.
Context `{!Hex, !NativeU64} (cfg : Config).
(** What [from_hex] throws is an exception. *)
Context (hex_errors : ∀ s b, only_caught (from_hex s b)).
#[local] Hint Resolve hex_errors : only_caught.

Lemma caught_FilterSetBytes_make v h lo hi : only_caught (FilterSetBytes_make v h lo hi).
Proof. unfold FilterSetBytes_make, read_item. prove_caught. Qed.
Lemma caught_FilterSetUint_make v : only_caught (FilterSetUint_make v).
Proof. unfold FilterSetUint_make. prove_caught. Qed.
#[local] Hint Resolve caught_FilterSetBytes_make caught_FilterSetUint_make : only_caught.

Lemma caught_filter_step st kv : only_caught (filter_step st kv).
Proof. unfold filter_step, tag_set_make. prove_caught. Qed.
#[local] Hint Resolve caught_filter_step : only_caught.

Lemma caught_NostrFilter_make v n : only_caught (NostrFilter_make v n).
Proof. unfold NostrFilter_make. prove_caught. Qed.
#[local] Hint Resolve caught_NostrFilter_make : only_caught.

Lemma caught_group_step n acc v : only_caught (group_step n acc v).
Proof. unfold group_step. prove_caught. Qed.
#[local] Hint Resolve caught_group_step : only_caught.

Lemma caught_NostrFilterGroup_make v n : only_caught (NostrFilterGroup_make v n).
Proof. unfold NostrFilterGroup_make. prove_caught. Qed.
#[local] Hint Resolve caught_NostrFilterGroup_make : only_caught.

Lemma caught_NostrFilterGroup_unwrapped v n : only_caught (NostrFilterGroup_unwrapped v n).
Proof. unfold NostrFilterGroup_unwrapped. prove_caught. Qed.

Lemma caught_tag_step st v : only_caught (tag_step cfg st v).
Proof. unfold tag_step. prove_caught. Qed.
#[local] Hint Resolve caught_tag_step : only_caught.

Lemma caught_nostrJsonToPackedEvent v : only_caught (nostrJsonToPackedEvent cfg v).
Proof. unfold nostrJsonToPackedEvent, PackedEventBuilder. prove_caught. Qed.
#[local] Hint Resolve caught_nostrJsonToPackedEvent : only_caught.

Lemma caught_parseAndVerifyEvent `{!EventLibs} t v b b' :
  only_caught (parseAndVerifyEvent cfg t v b b').
Proof.
  unfold parseAndVerifyEvent, verifyEventTimestamp, verifyNostrEvent, nostrHash, Bytes32, verifySig,
    normalised, verifyNostrEventJsonSize.
  prove_caught.
Qed.
End parsing.
#[export] Hint Resolve caught_NostrFilterGroup_make caught_NostrFilterGroup_unwrapped
  caught_parseAndVerifyEvent : only_caught.
