(* ===== verification/Plugin.v ===== *)
(** Write policy plugins ([PluginEventSifter.h], the source types of [events.h]
    and [renderIP] of [misc.cpp]).

    The sifter talks to a child process through two pipes.  The operating
    system is the class [PluginOS]: spawning, [stat], the pipes and the clock.
    Its law says that [fgets] returns, and that the plugin answers a request
    with finitely many lines or closes the pipe: one that never answers, or
    sends garbage for ever, hangs the relay.

    The writer knows the sifter through the interface [WritePolicy] only. *)

From S2P Require Import Prelude Bytes Json Hex EventParse StateExn.

Inductive EventSourceType :=
  | SourceNone | SourceIP4 | SourceIP6 | SourceImport | SourceStream | SourceSync | SourceStored.

Definition eventSourceTypeToStr (t : EventSourceType) : bytes :=
  match t with
  | SourceIP4 => #"IP4"
  | SourceIP6 => #"IP6"
  | SourceImport => #"Import"
  | SourceStream => #"Stream"
  | SourceSync => #"Sync"
  | _ => #"?"
  end.

Inductive PluginEventSifterResult := Accept | Reject | ShadowReject.

#[export] Instance PluginEventSifterResult_eq_dec : EqDecision PluginEventSifterResult.
Proof. solve_decision. Defined.

(** What the relay needs of a write policy: a call always comes back, and
    without a configured command everything is accepted. *)
Class WritePolicy := {
  policy : Type;
  policy_accept : bytes → value → EventSourceType → bytes → policy →
    (PluginEventSifterResult * bytes) * policy;
  policy_none : ∀ ev t info p, (policy_accept [] ev t info p).1 = (Accept, []);
}.

(** ** The operating system *)

Class PluginOS := {
  world : Type;
  handle : Type;                       (* the child's pid and the two pipes *)
  inet_ntop4 : bytes → bytes;
  inet_ntop6 : bytes → bytes;
  stat_mtime : bytes → world → option (N * N) * world;
  spawn : bytes → world → option handle * world;
  fwrite : handle → bytes → world → bool * world;
  fgets : handle → world → option bytes * world;
  close : handle → world → world;      (* [fclose], [kill], [waitpid] *)
  time_now : world → Z * world;
  pending_lines : handle → world → nat;
  fgets_pending : ∀ h w line w', fgets h w = (Some line, w') →
    pending_lines h w' < pending_lines h w;
}.

Section sifter.
Context `{!PluginOS, !JsonParser, !EventLibs}.

Definition renderIP (ipBytes : bytes) : result bytes :=
  if length ipBytes =? 4 then Ok (inet_ntop4 ipBytes)
  else if length ipBytes =? 16 then Ok (inet_ntop6 ipBytes)
  else Throw (herr #"invalid size of ipBytes, unable to render IP").

(** [lastModTime] is only set, and only read, for a command without a space. *)
Record RunningPlugin := mk_running {
  currPluginCmd : bytes;
  lastModTime : option (N * N);
  pipes : handle;
}.

(** The member [running], and the world outside. *)
Record PluginEventSifter := mk_sifter {
  running : option RunningPlugin;
  outside : world;
}.

Definition new_sifter (w : world) : PluginEventSifter := mk_sifter None w.

Definition os {A} (f : world → A * world) : SE PluginEventSifter A := λ s,
  let '(a, w) := f (outside s) in (Ok a, mk_sifter (running s) w).

(** [cmd.find(' ') == std::string::npos] *)
Definition no_space (cmd : bytes) : bool := negb (existsb (λ c, char_eqb c " ") cmd).

(** [running.reset()] *)
Definition reset : SE PluginEventSifter () := modify (λ s,
  match running s with
  | Some r => mk_sifter None (close (pipes r) (outside s))
  | None => s
  end).

Definition stat_or_throw (cmd : bytes) : SE PluginEventSifter (N * N) :=
  t ← os (stat_mtime cmd);
  match t with
  | Some t => mret t
  | None => raise (herr (#"couldn't stat plugin: " ++ cmd))
  end.

(** [setupPlugin], with the constructor of [RunningPlugin]. *)
Definition setupPlugin (cmd : bytes) : SE PluginEventSifter () :=
  h ← os (spawn cmd);
  match h with
  | None => raise (herr (#"posix_spawn failed to invoke '" ++ cmd ++ #"'"))
  | Some h =>
      t ← (if no_space cmd then t ← stat_or_throw cmd; mret (Some t) else mret None);
      modify (λ s, mk_sifter (Some (mk_running cmd t h)) (outside s))
  end.

(** A running plugin is dropped when the command or the file changed. *)
Definition check_running (cmd : bytes) : SE PluginEventSifter () :=
  r ← gets running;
  match r with
  | None => mret tt
  | Some r =>
      if negb (bool_decide (cmd = currPluginCmd r)) then reset
      else if no_space cmd then
        t ← stat_or_throw cmd;
        if bool_decide (Some t = lastModTime r) then mret tt else reset
      else mret tt
  end.

(** The lines up to the first that parses. *)
Fixpoint read_response (fuel : nat) (h : handle) : SE PluginEventSifter value :=
  match fuel with
  | 0 => raise fuel_exhausted
  | S fuel =>
      line ← os (fgets h);
      match line with
      | None => raise (herr #"pipe to plugin was closed (plugin crashed?)")
      | Some buf =>
          match json_from_string buf with
          | Ok response => mret response
          | Throw _ => read_response fuel h
          end
      end
  end.

(** [response.optional<std::string>(k)] *)
Definition optional_string (v : value) (k : bytes) : result (option bytes) :=
  kvs ← get_object v;
  match assoc k kvs with
  | None => Ok None
  | Some x => s ← get_string x; Ok (Some s)
  end.

Definition make_request (evJson : value) (t : EventSourceType) (now : Z) (info : bytes) : value :=
  JObject [(#"event", evJson); (#"receivedAt", JSigned now); (#"sourceInfo", JString info);
           (#"sourceType", JString (eventSourceTypeToStr t)); (#"type", JString #"new")].

Definition is_ip (t : EventSourceType) : bool :=
  match t with SourceIP4 | SourceIP6 => true | _ => false end.

(** What the answer says. *)
Definition read_verdict (evJson response : value) : result (PluginEventSifterResult * bytes) :=
  idV ← at_key response #"id";
  id ← get_string idV;
  evIdV ← at_key evJson #"id";
  evId ← get_string evIdV;
  _ ← throw_if (negb (bool_decide (id = evId))) (herr #"id mismatch");
  msg ← optional_string response #"msg";
  actionV ← at_key response #"action";
  action ← get_string actionV;
  if decide (action = #"accept") then Ok (Accept, default [] msg)
  else if decide (action = #"reject") then Ok (Reject, default [] msg)
  else if decide (action = #"shadowReject") then Ok (ShadowReject, default [] msg)
  else Throw (herr (#"unknown action: " ++ action)).

(** [if (!running) setupPlugin(pluginCmd);] *)
Definition ensure_running (cmd : bytes) : SE PluginEventSifter () :=
  r ← gets running;
  match r with None => setupPlugin cmd | Some _ => mret tt end.

(** The [try] block. *)
Definition ask_plugin (cmd : bytes) (evJson : value) (t : EventSourceType) (sourceInfo : bytes)
    : SE PluginEventSifter (PluginEventSifterResult * bytes) :=
  _ ← check_running cmd;
  _ ← ensure_running cmd;
  now ← os time_now;
  info ← lift (if is_ip t then renderIP sourceInfo else Ok sourceInfo);
  let request := make_request evJson t now info in
  r ← gets running;
  match r with
  | None => raise undefined_behaviour
  | Some r =>
      ok ← os (fwrite (pipes r) (json_to_string request ++ ["010"%char]));
      _ ← lift (throw_if (negb ok) (herr #"error writing to plugin"));
      w ← gets outside;
      response ← read_response (S (pending_lines (pipes r) w)) (pipes r);
      lift (read_verdict evJson response)
  end.

Definition internal_error : bytes := #"error: internal error".

(** The result and [okMsg], which is empty when the call is made. *)
Definition acceptEvent (cmd : bytes) (evJson : value) (t : EventSourceType) (sourceInfo : bytes)
    : SE PluginEventSifter (PluginEventSifterResult * bytes) :=
  if length cmd =? 0 then _ ← reset; mret (Accept, [])
  else try_catch (ask_plugin cmd evJson t sourceInfo)
         (λ _, _ ← reset; mret (Reject, internal_error)).

(** ** Every call comes back *)

Lemma caught_os {A} (f : world → A * world) : throws_only_caught (os f).
Proof. intros s e s'. unfold os. by destruct (f (outside s)). Qed.
#[local] Hint Resolve caught_os : caught.

Lemma caught_reset : throws_only_caught reset.
Proof. apply caught_modify. Qed.
#[local] Hint Resolve caught_reset : caught.

Lemma caught_stat cmd : throws_only_caught (stat_or_throw cmd).
Proof. apply caught_bind; [apply caught_os|]. intros []; auto with caught. Qed.
#[local] Hint Resolve caught_stat : caught.

Lemma caught_setup cmd : throws_only_caught (setupPlugin cmd).
Proof.
  apply caught_bind; [apply caught_os|]. intros [h|]; [|auto with caught].
  destruct (no_space cmd); auto with caught.
Qed.

Lemma caught_check cmd : throws_only_caught (check_running cmd).
Proof.
  apply caught_bind; [apply caught_gets|]. intros [r|]; [|auto with caught].
  case_match; [auto with caught|]. case_match; [|auto with caught].
  apply caught_bind; [auto with caught|]. intros t. case_match; auto with caught.
Qed.

Lemma setup_running cmd s u s' : setupPlugin cmd s = (Ok u, s') → is_Some (running s').
Proof.
  unfold setupPlugin, mbind, SE_bind, os. destruct (spawn cmd (outside s)) as [[h|] w]; [|done].
  destruct (no_space cmd).
  - unfold stat_or_throw, mbind, SE_bind, os. simpl.
    destruct (stat_mtime cmd w) as [[t|] w']; [|done]. simpl. intros [= <- <-]. by eexists.
  - simpl. intros [= <- <-]. by eexists.
Qed.

Lemma read_response_caught h fuel : ∀ s e s',
  pending_lines h (outside s) < fuel → read_response fuel h s = (Throw e, s') → catchable e = true.
Proof.
  induction fuel as [|fuel IH]; intros s e s' Hp; [lia|].
  cbn [read_response]. unfold mbind, SE_bind, os. destruct (fgets h (outside s)) as [[line|] w] eqn:E.
  - apply fgets_pending in E. destruct (json_from_string line); [done|].
    apply IH. simpl. lia.
  - by intros [= <- <-].
Qed.

Lemma rethrown {A} (r : result A) (s : PluginEventSifter) e s' :
  only_caught r → lift r s = (Throw e, s') → catchable e = true.
Proof. intros Hr [= -> <-]. by apply Hr. Qed.

Lemma optional_string_caught v k : only_caught (optional_string v k).
Proof. unfold optional_string. prove_caught. Qed.
#[local] Hint Resolve optional_string_caught : only_caught.

Lemma read_verdict_caught evJson response : only_caught (read_verdict evJson response).
Proof. unfold read_verdict. prove_caught. Qed.

Lemma renderIP_caught b : only_caught (renderIP b).
Proof. unfold renderIP. prove_caught. Qed.

Lemma ensure_running_spec cmd s u s' : ensure_running cmd s = (Ok u, s') → is_Some (running s').
Proof.
  unfold ensure_running, mbind, SE_bind, gets. destruct (running s) eqn:E.
  - intros [= <- <-]. by rewrite E.
  - apply setup_running.
Qed.

Lemma os_running {A} (f : world → A * world) s a s' :
  os f s = (Ok a, s') → running s' = running s.
Proof. unfold os. destruct (f (outside s)). by intros [= <- <-]. Qed.

Lemma ask_plugin_caught cmd evJson t info : throws_only_caught (ask_plugin cmd evJson t info).
Proof.
  intros s e s'. unfold ask_plugin.
  intros [Ht|(u1 & s1 & _ & Ht)]%bind_Throw; [by eapply caught_check|].
  apply bind_Throw in Ht as [Ht|(u2 & s2 & Hrun & Ht)].
  { revert Ht. apply caught_bind; [apply caught_gets|]. intros []; auto using caught_setup with caught. }
  apply ensure_running_spec in Hrun as [r Hr].
  apply bind_Throw in Ht as [Ht|(now & s3 & Hnow & Ht)]; [by eapply caught_os|].
  apply os_running in Hnow. rewrite Hr in Hnow.
  apply bind_Throw in Ht as [Ht|(ip & s4 & [= Hip <-] & Ht)].
  { eapply rethrown; [|done]. destruct (is_ip t); [apply renderIP_caught|apply only_caught_Ok]. }
  unfold gets in Ht. apply bind_Throw in Ht as [Ht|(r' & s5 & [= <- <-] & Ht)]; [done|].
  rewrite Hnow in Ht.
  apply bind_Throw in Ht as [Ht|(ok & s6 & _ & Ht)]; [by eapply caught_os|].
  apply bind_Throw in Ht as [Ht|(u3 & s7 & _ & Ht)].
  { eapply rethrown; [|done]. auto with only_caught. }
  apply bind_Throw in Ht as [Ht|(w & s8 & [= <- <-] & Ht)]; [done|].
  apply bind_Throw in Ht as [Ht|(resp & s9 & _ & Ht)].
  { eapply read_response_caught; [|done]. lia. }
  eapply rethrown; [|done]. apply read_verdict_caught.
Qed.

Lemma acceptEvent_total cmd evJson t info s :
  ∃ r msg s', acceptEvent cmd evJson t info s = (Ok (r, msg), s').
Proof.
  unfold acceptEvent. destruct (length cmd =? 0); [by eexists _, _, _|].
  destruct (try_catch_total (ask_plugin cmd evJson t info)
    (λ _, _ ← reset; mret (Reject, internal_error)) s (ask_plugin_caught cmd evJson t info))
    as ([r msg] & s' & E); [|by exists r, msg, s'].
  intros e s'. by eexists _, _.
Qed.

(** ** What a verdict means *)

Lemma reset_running s : running (reset s).2 = None.
Proof. unfold reset, modify. simpl. by destruct (running s) eqn:E. Qed.

(** What the plugin's answer [response] says of the event [evJson]: it names
    the event's id, and the action decides; the message may be left out. *)
Definition says (evJson response : value) (v : PluginEventSifterResult * bytes) : Prop :=
  ∃ kvs ekvs i action, response = JObject kvs ∧ evJson = JObject ekvs ∧
    assoc #"id" kvs = Some (JString i) ∧ assoc #"id" ekvs = Some (JString i) ∧
    assoc #"action" kvs = Some (JString action) ∧
    (action = #"accept" ∧ v.1 = Accept ∨ action = #"reject" ∧ v.1 = Reject ∨
     action = #"shadowReject" ∧ v.1 = ShadowReject) ∧
    (assoc #"msg" kvs = None ∧ v.2 = [] ∨ assoc #"msg" kvs = Some (JString v.2)).

(** The lines that the pipe [h] gives, one after the other. *)
Inductive reads (h : handle) : world → list bytes → world → Prop :=
  | reads_nil w : reads h w [] w
  | reads_cons w line w1 lines w2 : fgets h w = (Some line, w1) → reads h w1 lines w2 →
      reads h w (line :: lines) w2.

(** The plugin for [cmd] is set up, gets the request for this event, sends
    [lines] that are no JSON, and then an answer that gives the verdict [v]. *)
Definition answered (cmd : bytes) (evJson : value) (t : EventSourceType) (info : bytes)
    (s : PluginEventSifter) (v : PluginEventSifterResult * bytes) (s' : PluginEventSifter) : Prop :=
  ∃ s1 s2 r now ip w w1 w2 lines line response,
    check_running cmd s = (Ok tt, s1) ∧ ensure_running cmd s1 = (Ok tt, s2) ∧
    running s2 = Some r ∧ currPluginCmd r = cmd ∧
    time_now (outside s2) = (now, w) ∧ (if is_ip t then renderIP info else Ok info) = Ok ip ∧
    fwrite (pipes r) (json_to_string (make_request evJson t now ip) ++ ["010"%char]) w = (true, w1) ∧
    reads (pipes r) w1 lines w2 ∧ Forall (λ l, is_ok (json_from_string l) = false) lines ∧
    fgets (pipes r) w2 = (Some line, outside s') ∧ json_from_string line = Ok response ∧
    says evJson response v ∧ running s' = Some r.

Lemma assoc_field kvs k v : at_key (JObject kvs) k = Ok v ↔ assoc k kvs = Some v.
Proof. unfold at_key. simpl. destruct (assoc k kvs); naive_solver. Qed.

Lemma read_verdict_says evJson response v : read_verdict evJson response = Ok v ↔ says evJson response v.
Proof.
  split.
  - unfold read_verdict. intros (idV & Hid & Hrv)%bind_Ok_inv.
    apply bind_Ok_inv in Hrv as (i & Hi & Hrv). apply bind_Ok_inv in Hrv as (evIdV & Hev & Hrv).
    apply bind_Ok_inv in Hrv as (evId & Hei & Hrv). apply bind_Ok_inv in Hrv as (u & Hsame & Hrv).
    apply bind_Ok_inv in Hrv as (msg & Hmsg & Hrv). apply bind_Ok_inv in Hrv as (actionV & Ha & Hrv).
    apply bind_Ok_inv in Hrv as (action & Haction & Hrv).
    destruct idV; try done. destruct evIdV; try done. destruct actionV; try done.
    injection Hi as <-. injection Hei as <-. injection Haction as <-.
    destruct response as [| | | | | | |kvs]; try done. destruct evJson as [| | | | | | |ekvs]; try done.
    apply assoc_field in Hid, Hev, Ha. case_bool_decide as Hs; [subst|done].
    unfold optional_string in Hmsg. cbn [get_object mbind result_bind] in Hmsg.
    exists kvs, ekvs, s0, s1. split_and!; try done.
    + repeat case_decide; try done; injection Hrv as <-; auto.
    + assert (v.2 = default [] msg) as -> by (repeat case_decide; try done; by injection Hrv as <-).
      destruct (assoc #"msg" kvs) as [[]|]; try done; injection Hmsg as <-; auto.
  - intros (kvs & ekvs & i & action & -> & -> & Hi & Hei & Ha & Hv & Hm). destruct v as [r msg].
    cbn [fst snd] in *. apply assoc_field in Hi, Hei, Ha. unfold read_verdict, optional_string.
    rewrite Hi. cbn [get_string mbind result_bind]. rewrite Hei. cbn [get_string mbind result_bind].
    rewrite bool_decide_eq_true_2 by done. cbn [negb throw_if mbind result_bind get_object]. rewrite Ha.
    destruct Hm as [[-> ->]| ->]; cbn [get_string mbind result_bind];
      destruct Hv as [[-> ->]|[[-> ->]|[-> ->]]]; done.
Qed.

Lemma read_response_reads h fuel : ∀ s response s', read_response fuel h s = (Ok response, s') →
  ∃ lines w line, reads h (outside s) lines w ∧ Forall (λ l, is_ok (json_from_string l) = false) lines ∧
    fgets h w = (Some line, outside s') ∧ json_from_string line = Ok response ∧ running s' = running s.
Proof.
  induction fuel as [|fuel IH]; intros s response s'; [done|].
  cbn [read_response]. unfold mbind, SE_bind, os. destruct (fgets h (outside s)) as [[line|] w] eqn:E;
    [|done].
  destruct (json_from_string line) as [v|x] eqn:Ej.
  - intros [= <- <-]. exists [], (outside s), line. split_and!; try done. constructor.
  - intros (lines & w' & line' & Hr & Hl & ? & ? & ?)%IH. exists (line :: lines), w', line'.
    split_and!; try done; [by econstructor|]. constructor; [by rewrite Ej|done].
Qed.

Lemma reads_response h w lines w' line response w'' r fuel :
  reads h w lines w' → Forall (λ l, is_ok (json_from_string l) = false) lines →
  fgets h w' = (Some line, w'') → json_from_string line = Ok response → pending_lines h w < fuel →
  read_response fuel h (mk_sifter r w) = (Ok response, mk_sifter r w'').
Proof.
  intros Hr. revert fuel. induction Hr as [w|w l w1 ls w2 Hl Hr IH]; intros fuel Hbad Hlast Hj Hf;
    (destruct fuel as [|fuel]; [lia|]); cbn [read_response]; unfold mbind, SE_bind, os; cbn [outside].
  - rewrite Hlast. cbn [running]. by rewrite Hj.
  - apply Forall_cons in Hbad as [Hb Hbad]. rewrite Hl. cbn [running].
    destruct (json_from_string l); [done|]. apply IH; [done..|]. apply fgets_pending in Hl. lia.
Qed.

Lemma ensure_running_cmd cmd s u s1 u' s2 : check_running cmd s = (Ok u, s1) →
  ensure_running cmd s1 = (Ok u', s2) → ∃ r, running s2 = Some r ∧ currPluginCmd r = cmd.
Proof.
  assert (∀ s, running s = None ∨ (∃ r, running s = Some r ∧ currPluginCmd r = cmd) →
    ∀ u s2, ensure_running cmd s = (Ok u, s2) → ∃ r, running s2 = Some r ∧ currPluginCmd r = cmd) as Hens.
  { intros s0 Hs0 u0 s3. unfold ensure_running, mbind, SE_bind, gets.
    destruct Hs0 as [->|(r & Hr & Hc)]; [|rewrite Hr; intros [= _ <-]; by exists r].
    unfold setupPlugin, mbind, SE_bind, os. destruct (spawn cmd (outside s0)) as [[h|] w]; [|done].
    destruct (no_space cmd).
    - unfold stat_or_throw, mbind, SE_bind, os. simpl.
      destruct (stat_mtime cmd w) as [[t|] w']; [|done]. simpl. intros [= <- <-]. by eexists.
    - simpl. intros [= <- <-]. by eexists. }
  intros Hch. apply Hens. unfold check_running, mbind, SE_bind, gets in Hch.
  destruct (running s) as [r|] eqn:Hr; [|injection Hch as _ <-; by left].
  case_bool_decide as Hcmd.
  2:{ injection Hch as _ <-. left. apply (reset_running s). }
  cbn [negb] in Hch. subst cmd. destruct (no_space _); [|injection Hch as _ <-; right; by exists r].
  unfold stat_or_throw, mbind, SE_bind, os in Hch.
  destruct (stat_mtime _ (outside s)) as [[t|] w]; [|done]. cbn in Hch. case_bool_decide.
  - injection Hch as _ <-. right. exists r. by rewrite Hr.
  - injection Hch as _ <-. left. cbn. by rewrite Hr.
Qed.

Lemma ask_plugin_answered cmd evJson t info s v s' :
  ask_plugin cmd evJson t info s = (Ok v, s') ↔ answered cmd evJson t info s v s'.
Proof.
  split.
  - unfold ask_plugin. intros ([] & s1 & Hch & Ht)%bind_Ok.
    apply bind_Ok in Ht as ([] & s2 & Hens & Ht). apply bind_Ok in Ht as (now & s3 & Hnow & Ht).
    apply bind_Ok in Ht as (ip & s4 & Hip & Ht). injection Hip as Hip <-.
    destruct (ensure_running_cmd _ _ _ _ _ _ Hch Hens) as (r & Hr & Hcmd).
    unfold os in Hnow. destruct (time_now (outside s2)) as [now' w] eqn:Etime. injection Hnow as -> <-.
    apply bind_Ok in Ht as (r' & s5 & [= <- <-] & Ht). cbn [running] in Ht. rewrite Hr in Ht.
    apply bind_Ok in Ht as (ok & s6 & Hw & Ht). unfold os in Hw. cbn [outside running] in Hw.
    destruct (fwrite _ _ w) as [ok' w1] eqn:Ew. injection Hw as -> <-.
    apply bind_Ok in Ht as ([] & s7 & [= Hok <-] & Ht). destruct ok; [|done].
    apply bind_Ok in Ht as (w1' & s8 & [= <- <-] & Ht). apply bind_Ok in Ht as (resp & s9 & Hresp & Ht).
    injection Ht as Hv <-. apply read_response_reads in Hresp as (lines & w2 & line & ? & ? & ? & ? & Hrun).
    exists s1, s2, r, now, ip, w, w1, w2, lines, line, resp. split_and!; try done; by apply read_verdict_says.
  - intros (s1 & s2 & r & now & ip & w & w1 & w2 & lines & line & resp & Hch & Hens & Hr & _ & Htime & Hip & Hw
      & Hreads & Hbad & Hlast & Hj & Hsays%read_verdict_says & Hrun).
    unfold ask_plugin. unfold mbind at 1, SE_bind at 1. rewrite Hch.
    unfold mbind at 1, SE_bind at 1. rewrite Hens. unfold mbind at 1, SE_bind at 1, os at 1. rewrite Htime.
    unfold mbind at 1, SE_bind at 1, lift at 1. rewrite Hip.
    unfold mbind at 1, SE_bind at 1, gets at 1. cbn [running]. rewrite Hr.
    unfold mbind at 1, SE_bind at 1, os at 1. cbn [outside running]. rewrite Hw.
    unfold mbind at 1, SE_bind at 1, lift at 1. cbn [negb throw_if].
    unfold mbind at 1, SE_bind at 1, gets at 1. cbn [outside].
    unfold mbind at 1, SE_bind at 1.
    rewrite (reads_response _ _ _ _ _ _ _ _ _ Hreads Hbad Hlast Hj) by lia.
    unfold lift. rewrite Hsays. destruct s' as [run out]. cbn [outside running] in *. by subst run.
Qed.

(** C29: only the plugin's own answer decides, and it does.  With a command
    configured, the plugin for this command gets the request for this event;
    when it answers with a JSON object that names the event's id and an action -
    lines that are no JSON are passed over - the verdict is the action it names,
    with its message; when anything else happens, the event is rejected with an
    internal error and the plugin is gone, to be started again.  Without a
    command, everything is accepted.  The call always comes back, provided the
    plugin does: [fgets] is taken to return, with finitely many lines (a plugin
    that neither answers nor closes its pipe blocks the relay for ever). *)
Theorem policy_fails_closed cmd evJson t info s :
  ∃ r msg s', acceptEvent cmd evJson t info s = (Ok (r, msg), s') ∧
    (cmd = [] → r = Accept ∧ msg = [] ∧ running s' = None) ∧
    (cmd ≠ [] →
      (∀ v s1, answered cmd evJson t info s v s1 → (r, msg) = v ∧ s' = s1) ∧
      (answered cmd evJson t info s (r, msg) s' ∨
       (∀ v s1, ¬ answered cmd evJson t info s v s1) ∧
         r = Reject ∧ msg = internal_error ∧ running s' = None)).
Proof.
  destruct (acceptEvent_total cmd evJson t info s) as (r & msg & s' & E).
  exists r, msg, s'. split; [done|]. unfold acceptEvent in E.
  destruct cmd as [|ch cmd]; cbn [length Nat.eqb] in E.
  - split; [|done]. intros _. unfold mbind, SE_bind in E. simpl in E. injection E as <- <- <-.
    split_and!; [done|done|]. apply (reset_running s).
  - split; [done|]. intros _. unfold try_catch in E. setoid_rewrite <-ask_plugin_answered.
    destruct (ask_plugin (ch :: cmd) evJson t info s) as [[v|x] s1] eqn:Ea.
    + injection E as -> ->. split; [|by left]. by intros v s2 [= <- <-].
    + rewrite (ask_plugin_caught _ _ _ _ _ _ _ Ea) in E. unfold mbind, SE_bind in E. simpl in E.
      injection E as <- <- <-. split; [done|]. right. split_and!; [done|done|done|]. apply (reset_running s1).
Qed.

(** An event whose source is taken for an IP address but is none (the HTTP
    API's [http-post]) is rejected whatever the plugin says, and the plugin is
    stopped. *)
Theorem http_post_never_accepted cmd evJson s :
  cmd ≠ [] →
  ∃ s', acceptEvent cmd evJson SourceIP6 #"http-post" s = (Ok (Reject, internal_error), s') ∧
    running s' = None.
Proof.
  intros Hcmd. assert (∀ v s', ask_plugin cmd evJson SourceIP6 #"http-post" s ≠ (Ok v, s')) as Hno.
  { intros v s'. unfold ask_plugin. intros (u1 & s1 & _ & Ht)%bind_Ok.
    apply bind_Ok in Ht as (u2 & s2 & _ & Ht). apply bind_Ok in Ht as (now & s3 & _ & Ht).
    apply bind_Ok in Ht as (ip & s4 & [= ] & Ht). }
  unfold acceptEvent. destruct cmd as [|ch cmd]; [done|]. cbn [length Nat.eqb]. unfold try_catch.
  destruct (ask_plugin (ch :: cmd) evJson SourceIP6 #"http-post" s) as [[v|x] s1] eqn:Ea;
    [by destruct (Hno v s1)|].
  rewrite (ask_plugin_caught _ _ _ _ _ _ _ Ea). exists (reset s1).2. split; [done|].
  apply reset_running.
Qed.
End sifter.

(** The sifter is a write policy. *)
#[refine, export] Instance sifter_policy `{!PluginOS, !JsonParser, !EventLibs} : WritePolicy := {|
  policy := PluginEventSifter;
  policy_accept cmd ev t info s :=
    match acceptEvent cmd ev t info s with
    | (Ok v, s) => (v, s)
    | (Throw _, s) => ((Reject, internal_error), s)
    end;
|}.
Proof. done. Defined.

(** The second case of [sifter_policy] never arises. *)
Lemma sifter_policy_accept `{!PluginOS, !JsonParser, !EventLibs} cmd ev t info (s : policy) :
  ∃ s', acceptEvent cmd ev t info s =
    (Ok (policy_accept cmd ev t info s).1, s') ∧ (policy_accept cmd ev t info s).2 = s'.
Proof.
  destruct (acceptEvent_total cmd ev t info s) as (r & msg & s' & E).
  exists s'. cbn [policy_accept sifter_policy]. by rewrite E.
Qed.
