(* ===== verification/RelayServer.v ===== *)
(** Messages between the relay's threads ([RelayServer.h], [ThreadPool.h],
    [WSConnection] traffic of [RelayWebsocket.cpp]).

    Threads talk through inboxes.  What a thread does to the outside is a list
    of [call]s, in the order it makes them: the send methods of [RelayServer],
    dispatches to other thread pools, and promises it resolves.
    [websocket_message] is the message a send method leaves for the websocket
    thread. *)

From S2P Require Import Prelude Bytes Json EventParse Subscription.

Record ProcessResult := mk_process_result {
  success : bool;
  message : bytes;
  eventId : bytes;
}.

(** A [std::shared_ptr<std::promise<ProcessResult>>], by identity. *)
Definition promise : Type := N.

Inductive MsgWebsocket :=
  | Websocket_Send (connId : N) (payload : bytes)
  | Websocket_SendBinary (connId : N) (payload : bytes)
  | Websocket_SendEventToBatch (list : list ConnIdSubId) (evJson : bytes)
  | Websocket_GracefulShutdown.

Record ClientMessage := mk_client_message {
  cm_connId : N;
  cm_ipAddr : bytes;
  cm_payload : bytes;
  cm_resultPromise : option promise;
}.

Inductive MsgIngester :=
  | Ingester_ClientMessage (msg : ClientMessage)
  | Ingester_CloseConn (connId : N).

Record AddEvent := mk_add_event {
  ae_connId : N;
  ae_ipAddr : bytes;
  ae_packedStr : bytes;
  ae_jsonStr : bytes;
  ae_resultPromise : option promise;
}.

Inductive MsgWriter :=
  | Writer_AddEvent (msg : AddEvent)
  | Writer_CloseConn (connId : N).

Inductive MsgReqWorker :=
  | ReqWorker_NewSub (sub : Subscription)
  | ReqWorker_RemoveSub (connId : N) (subId : SubId)
  | ReqWorker_CloseConn (connId : N).

Inductive MsgReqMonitor :=
  | ReqMonitor_NewSub (sub : Subscription)
  | ReqMonitor_RemoveSub (connId : N) (subId : SubId)
  | ReqMonitor_CloseConn (connId : N)
  | ReqMonitor_DBChange.

Inductive MsgNegentropy :=
  | Negentropy_NegOpen (sub : Subscription) (filterStr negPayload : bytes)
  | Negentropy_NegMsg (connId : N) (subId : SubId) (negPayload : bytes)
  | Negentropy_NegClose (connId : N) (subId : SubId)
  | Negentropy_CloseConn (connId : N).

(** ** Calls *)

Inductive call :=
  | SendToConn (connId : N) (payload : bytes)
  | SendToConnBinary (connId : N) (payload : bytes)
  | SendEvent (connId : N) (subId : SubId) (evJson : bytes)
  | SendEventToBatch (recipients : list ConnIdSubId) (evJson : bytes)
  | SendNoticeError (connId : N) (payload : bytes)
  | SendOKResponse (connId : N) (eventIdHex : bytes) (written : bool) (message : bytes)
  | SendAuthChallenge (connId : N) (challenge : bytes)
  | ToWriter (key : N) (msgs : list MsgWriter)
  | ToReqWorker (key : N) (msg : MsgReqWorker)
  | ToReqMonitor (key : N) (msg : MsgReqMonitor)
  | ToNegentropy (key : N) (msg : MsgNegentropy)
  | SetValue (p : promise) (r : ProcessResult).

(** [sendEvent]'s reply. *)
Definition event_payload (subId : SubId) (evJson : bytes) : bytes :=
  #"[" ++ ["034"%char] ++ #"EVENT" ++ ["034"%char] ++ #"," ++ ["034"%char] ++ SubId_sv subId ++
  ["034"%char] ++ #"," ++ evJson ++ #"]".

Section posts.
Context `{!EventLibs}.

Definition notice_payload (payload : bytes) : bytes :=
  json_to_string (JArray [JString #"NOTICE"; JString (#"ERROR: " ++ payload)]).

Definition ok_payload (eventIdHex : bytes) (written : bool) (message : bytes) : bytes :=
  json_to_string (JArray [JString #"OK"; JString eventIdHex; JBool written; JString message]).

Definition auth_payload (challenge : bytes) : bytes :=
  json_to_string (JArray [JString #"AUTH"; JString challenge]).

(** The message a send method puts into the websocket thread's inbox. *)
Definition websocket_message (c : call) : option MsgWebsocket :=
  match c with
  | SendToConn connId payload => Some (Websocket_Send connId payload)
  | SendToConnBinary connId payload => Some (Websocket_SendBinary connId payload)
  | SendEvent connId subId evJson => Some (Websocket_Send connId (event_payload subId evJson))
  | SendEventToBatch recipients evJson => Some (Websocket_SendEventToBatch recipients evJson)
  | SendNoticeError connId payload => Some (Websocket_Send connId (notice_payload payload))
  | SendOKResponse connId eventIdHex written message =>
      Some (Websocket_Send connId (ok_payload eventIdHex written message))
  | SendAuthChallenge connId challenge => Some (Websocket_Send connId (auth_payload challenge))
  | _ => None
  end.
End posts.

(** ** [ThreadPool] *)

Section pool.
Context {M : Type}.

(** The inboxes of a pool's threads. *)
Definition pool_init (numThreads : nat) : result (list (list M)) :=
  _ ← throw_if (numThreads =? 0) (herr #"must have more than 0 threads");
  Ok (replicate numThreads []).

Definition who (key : N) (pool : list (list M)) : nat :=
  N.to_nat (key mod N.of_nat (length pool))%N.

Definition dispatch (key : N) (m : M) (pool : list (list M)) : list (list M) :=
  alter (λ inbox, inbox ++ [m]) (who key pool) pool.

Definition dispatchMulti (key : N) (ms : list M) (pool : list (list M)) : list (list M) :=
  alter (λ inbox, inbox ++ ms) (who key pool) pool.

Definition dispatchToAll (cb : M) (pool : list (list M)) : list (list M) :=
  (λ inbox, inbox ++ [cb]) <$> pool.
End pool.

(** ** The websocket thread's answer to [SendEventToBatch]

    One buffer serves all recipients: the tail of the message is laid out once
    behind room for the longest subscription id, and the head with each id is
    copied right before it. *)

Definition MAX_SUBID : nat := MAX_SUBID_SIZE.

(** [memcpy(buf.data() + pos, src, len)] *)
Definition overwrite (buf : bytes) (pos : nat) (src : bytes) : bytes :=
  take pos buf ++ src ++ drop (pos + length src) buf.

Definition event_head : bytes := #"[" ++ ["034"%char] ++ #"EVENT" ++ ["034"%char] ++ #"," ++ ["034"%char].

(** The buffer before the loop: [resize] and the three appends; [junk] is what
    the first 81 octets hold from earlier messages. *)
Definition batch_buffer (junk evJson : bytes) : bytes :=
  junk ++ ["034"%char] ++ #"," ++ evJson ++ #"]".

(** One recipient: the buffer afterwards and the text that is sent. *)
Definition batch_send (evJson : bytes) (buf : bytes) (item : ConnIdSubId) : bytes * (N * bytes) :=
  let subIdSv := SubId_sv item.2 in
  let p := MAX_SUBID - length subIdSv in
  let buf := overwrite buf p event_head in
  let buf := overwrite buf (p + 10) subIdSv in
  (buf, (item.1, take (13 + length subIdSv + length evJson) (drop p buf))).

Fixpoint batch_loop (evJson : bytes) (buf : bytes) (l : list ConnIdSubId) : list (N * bytes) :=
  match l with
  | [] => []
  | item :: l => let '(buf, sent) := batch_send evJson buf item in sent :: batch_loop evJson buf l
  end.

(** A buffer as the loop keeps it: room for the head, then the tail. *)
Definition buffer_ok (evJson buf : bytes) : Prop :=
  ∃ junk, length junk = 10 + MAX_SUBID ∧ buf = batch_buffer junk evJson.

Lemma overwrite_app a b c src :
  length src = length b → overwrite (a ++ b ++ c) (length a) src = a ++ src ++ c.
Proof.
  intros Hl. unfold overwrite. rewrite take_app_length, Hl.
  by rewrite <-drop_drop, drop_app_length, drop_app_length.
Qed.

Lemma batch_send_spec evJson buf item :
  length (SubId_sv item.2) ≤ MAX_SUBID → buffer_ok evJson buf →
  buffer_ok evJson (batch_send evJson buf item).1 ∧
  (batch_send evJson buf item).2 = (item.1, event_payload item.2 evJson).
Proof.
  intros Hs (junk & Hj & ->). set (s := SubId_sv item.2) in *.
  assert (∃ a b1 b2, junk = a ++ b1 ++ b2 ∧ length a = MAX_SUBID - length s ∧ length b1 = 10 ∧
    length b2 = length s) as (a & b1 & b2 & -> & Ha & Hb1 & Hb2).
  { exists (take (MAX_SUBID - length s) junk), (take 10 (drop (MAX_SUBID - length s) junk)),
      (drop 10 (drop (MAX_SUBID - length s) junk)).
    rewrite !take_drop, !length_take, !length_drop. split; [done|]. lia. }
  unfold batch_send. fold s. rewrite <-Ha. unfold batch_buffer.
  rewrite <-!app_assoc, overwrite_app by (by rewrite Hb1).
  replace (length a + 10) with (length (a ++ event_head)) by by rewrite length_app.
  rewrite (app_assoc a event_head), overwrite_app by done. split.
  - exists (a ++ event_head ++ s). split; [rewrite !length_app, Ha; simpl; lia|].
    unfold batch_buffer. by rewrite <-!app_assoc.
  - simpl fst. simpl snd. f_equal. rewrite <-app_assoc, drop_app_length.
    unfold event_payload. fold s. unfold event_head. rewrite <-!app_assoc. rewrite take_ge; [done|].
    repeat (rewrite length_app || simpl length). lia.
Qed.

(** The shared buffer sends every recipient what [sendEvent] would. *)
Lemma batch_loop_correct evJson buf l :
  Forall (λ item : ConnIdSubId, length (SubId_sv item.2) ≤ MAX_SUBID) l → buffer_ok evJson buf →
  batch_loop evJson buf l = (λ item : ConnIdSubId, (item.1, event_payload item.2 evJson)) <$> l.
Proof.
  intros Hl. revert buf. induction Hl as [|item l Hitem Hl IH]; intros buf Hbuf; [done|].
  cbn [batch_loop]. destruct (batch_send_spec evJson buf item Hitem Hbuf) as [Hok Hsent].
  destruct (batch_send evJson buf item) as [buf' sent]. simpl in *. rewrite Hsent.
  f_equal. by apply IH.
Qed.
