(* ===== verification/RelayIngester.v ===== *)
(** The ingester threads ([RelayIngester.cpp]): parsing and checking what clients
    send, and passing it on to the other threads.

    [ingester_batch] is the body of the thread's loop.  It reads the store [d]
    of one read transaction.  The state is the thread's table of
    authentication states, the messages collected for the writer and the calls
    made; an exception keeps what was done before it. *)

From S2P Require Import Prelude Bytes Json Hex PackedEvent FilterSets Filters Config EventParse.
From S2P Require Import Db Subscription StateExn RelayServer.

Record AuthStatus := mk_auth { challenge : bytes; authed : bytes }.

Record ingester := mk_ingester {
  connIdToAuthStatus : gmap N AuthStatus;
  writerMsgs : list MsgWriter;
  sent : list call;
  clock_tick : nat;
}.

Definition ingester_init : ingester := mk_ingester ∅ [] [] 0.

Section ingester.
Context `{!Hex, !NativeU64, !GolpeKeys, !Env, !JsonParser, !EventLibs} (cfg : Config).
(** [getenv], the clock, the messages of library exceptions and [from_hex] with
    its default second argument. *)
Variable whitelistEnv : option bytes.
Variable now : nat → N.
Variable lib_what : exn → bytes.
Variable from_hex_default : bytes → result bytes.
Variable d : env.

Definition what (e : exn) : bytes := match e with herr m => m | _ => lib_what e end.

Definition emit (c : call) : SE ingester () := modify (λ s,
  mk_ingester (connIdToAuthStatus s) (writerMsgs s) (sent s ++ [c]) (clock_tick s)).

Definition output_emplace_back (m : MsgWriter) : SE ingester () := modify (λ s,
  mk_ingester (connIdToAuthStatus s) (writerMsgs s ++ [m]) (sent s) (clock_tick s)).

Definition set_auth (connId : N) (a : AuthStatus) : SE ingester () := modify (λ s,
  mk_ingester (<[connId := a]> (connIdToAuthStatus s)) (writerMsgs s) (sent s) (clock_tick s)).

(** One reading of the clock. *)
Definition curr_time : SE ingester N := λ s,
  (Ok (now (clock_tick s)),
   mk_ingester (connIdToAuthStatus s) (writerMsgs s) (sent s) (S (clock_tick s))).

(** Resolve the promise, or answer the client. *)
Definition answer (p : option promise) (connId : N) (r : ProcessResult)
    (eventIdHex : bytes) (written : bool) (msg : bytes) : SE ingester () :=
  match p with
  | Some p => emit (SetValue p r)
  | None => if (connId =? 0)%N then mret tt
            else emit (SendOKResponse connId eventIdHex written msg)
  end.

(** ** The whitelist *)

Definition is_white (c : ascii) : bool :=
  char_eqb c " " || char_eqb c "009" || char_eqb c "013" || char_eqb c "010".

Fixpoint drop_white (s : bytes) : bytes :=
  match s with
  | c :: s' => if is_white c then drop_white s' else s
  | [] => []
  end.

(** The two [erase] calls. *)
Definition trim_white (s : bytes) : bytes := rev (drop_white (rev (drop_white s))).

(** Why the author is blocked, if it is. *)
Definition whitelist_check (eventPubkeyHex : bytes) : option bytes :=
  if relay__whitelist__enabled cfg then
    let whitelistConfig :=
      match whitelistEnv with
      | Some e => if 0 <? length e then e else relay__whitelist__pubkeys cfg
      | None => relay__whitelist__pubkeys cfg
      end in
    if length whitelistConfig =? 0 then Some #"blocked: whitelist enabled but empty"
    else if existsb (λ a, bool_decide (eventPubkeyHex = trim_white a))
              (getline_all whitelistConfig [])
    then None else Some #"blocked: pubkey not in whitelist"
  else None.

(** ** Commands *)

Definition ingesterProcessEvent (connId : N) (ipAddr : bytes) (origJson : value)
    (resultPromise : option promise) : SE ingester () :=
  t ← curr_time;
  match parseAndVerifyEvent cfg t origJson true true with
  | Throw e =>
      if catchable e then
        let msg := #"invalid: " ++ what e in
        answer resultPromise connId (mk_process_result false msg []) #"?" false msg
      else raise e
  | Ok (packedStr, jsonStr) =>
      packed ← lift (view packedStr);
      let eventIdHex := to_hex (id packed) in
      let eventPubkeyHex := to_hex (pubkey packed) in
      match whitelist_check eventPubkeyHex with
      | Some msg =>
          answer resultPromise connId (mk_process_result false msg eventIdHex) eventIdHex false msg
      | None =>
          match lookupEventById d (id packed) with
          | Some _ =>
              let msg := #"duplicate: have this event" in
              answer resultPromise connId (mk_process_result true msg eventIdHex) eventIdHex true msg
          | None =>
              output_emplace_back
                (Writer_AddEvent (mk_add_event connId ipAddr packedStr jsonStr resultPromise))
          end
      end
  end.

Definition at_index (arr : list value) (i : nat) : result value :=
  match arr !! i with Some v => Ok v | None => Throw out_of_range end.

(** [arr[i]] *)
Definition index (arr : list value) (i : nat) : result value :=
  match arr !! i with Some v => Ok v | None => Throw undefined_behaviour end.

(** The arguments of the [Subscription] are evaluated in an order C++ leaves
    open, which only chooses between two error messages. *)
Definition ingesterProcessReq (connId : N) (arr : list value) : SE ingester () :=
  _ ← lift (throw_if (length arr <? 2 + 1) (herr #"arr too small"));
  _ ← lift (throw_if (u64_add 2 (relay__maxReqFilterSize cfg) <? N.of_nat (length arr))%N
              (herr #"arr too big"));
  v1 ← lift (index arr 1);
  subId ← lift (jsonGetString v1 #"REQ subscription id was not a string");
  fg ← lift (NostrFilterGroup_make (JArray arr) (relay__maxFilterLimit cfg));
  sub ← lift (Subscription_make connId subId fg);
  emit (ToReqWorker connId (ReqWorker_NewSub sub)).

Definition ingesterProcessClose (connId : N) (arr : list value) : SE ingester () :=
  _ ← lift (throw_if (negb (length arr =? 2)) (herr #"arr too small/big"));
  v1 ← lift (index arr 1);
  s ← lift (jsonGetString v1 #"CLOSE subscription id was not a string");
  subId ← lift (SubId_make s);
  emit (ToReqWorker connId (ReqWorker_RemoveSub connId subId)).

(** One tag: were the challenge and the relay URL found? *)
Definition auth_tag (challenge : bytes) (found : bool * bool) (tagj : value)
    : result (bool * bool) :=
  tag ← get_array tagj;
  match tag with
  | t0 :: t1 :: _ =>
      name ← get_string t0;
      value ← get_string t1;
      Ok (if bool_decide (name = #"relay") && bool_decide (value = relay__serviceUrl cfg)
          then (found.1, true)
          else if bool_decide (name = #"challenge") && bool_decide (value = challenge)
          then (true, found.2) else found)
  | _ => Ok found
  end.

(** With the connection's entry [as']. *)
Definition complete_auth (connId : N) (eventJson : value) (packed : PackedEventView)
    (as' : AuthStatus) : SE ingester () :=
  _ ← lift (throw_if (negb (length (authed as') =? 0)) (herr #"already authenticated"));
  tagsV ← lift (at_key eventJson #"tags");
  tags ← lift (get_array tagsV);
  '(foundChallenge, foundCorrectRelayUrl) ← lift (foldM (auth_tag (challenge as')) (false, false) tags);
  _ ← lift (throw_if (negb foundChallenge) (herr #"challenge string mismatch"));
  _ ← lift (throw_if (negb foundCorrectRelayUrl)
              (herr (#"incorrect or missing relay tag, expected: " ++ relay__serviceUrl cfg)));
  _ ← set_auth connId (mk_auth (challenge as') (pubkey packed));
  emit (SendOKResponse connId (to_hex (id packed)) true #"successfully authenticated").

Definition ingesterProcessAuth (connId : N) (eventJson : value) : SE ingester () :=
  _ ← lift (throw_if (length (relay__serviceUrl cfg) =? 0)
              (herr #"relay needs serviceUrl to be configured before AUTH can work"));
  t ← curr_time;
  '(packedStr, _) ← lift (parseAndVerifyEvent cfg t eventJson true true);
  packed ← lift (view packedStr);
  _ ← lift (throw_if (negb (kind packed =? 22242)%N) (herr #"wrong event kind, expected 22242"));
  table ← gets connIdToAuthStatus;
  match table !! connId with
  | None => raise (herr #"no auth status available for connection")
  | Some as' => complete_auth connId eventJson packed as'
  end.

(** [filterJson.get_object().erase(k)] *)
Definition erase_key (k : bytes) (kvs : list (bytes * value)) : list (bytes * value) :=
  filter (λ kv, kv.1 ≠ k) kvs.

Definition is_str (v : value) (s : bytes) : bool :=
  match v with JString x => bool_decide (x = s) | _ => false end.

Definition ingesterProcessNegentropy (connId : N) (arr : list value) : SE ingester () :=
  v1 ← lift (index arr 1);
  subscriptionStr ← lift (jsonGetString v1 #"NEG-OPEN subscription id was not a string");
  v0 ← lift (at_index arr 0);
  if is_str v0 #"NEG-OPEN" then
    _ ← lift (throw_if (length arr <? 4) (herr #"negentropy query missing elements"));
    let maxFilterLimit := u64_add (relay__negentropy__maxSyncEvents cfg) 1 in
    filterJson ← lift (at_index arr 2);
    fg ← lift (NostrFilterGroup_unwrapped filterJson maxFilterLimit);
    sub ← lift (Subscription_make connId subscriptionStr fg);
    let filterJson :=
      match filterJson with
      | JObject kvs => JObject (erase_key #"until" (erase_key #"since" kvs))
      | v => v
      end in
    let filterStr := json_to_string filterJson in
    v3 ← lift (at_index arr 3);
    hex ← lift (jsonGetString v3 #"negentropy payload not a string");
    negPayload ← lift (from_hex_default hex);
    emit (ToNegentropy connId (Negentropy_NegOpen sub filterStr negPayload))
  else if is_str v0 #"NEG-MSG" then
    v2 ← lift (at_index arr 2);
    hex ← lift (jsonGetString v2 #"negentropy payload not a string");
    negPayload ← lift (from_hex_default hex);
    subId ← lift (SubId_make subscriptionStr);
    emit (ToNegentropy connId (Negentropy_NegMsg connId subId negPayload))
  else if is_str v0 #"NEG-CLOSE" then
    subId ← lift (SubId_make subscriptionStr);
    emit (ToNegentropy connId (Negentropy_NegClose connId subId))
  else raise (herr #"unknown command").

(** ** Dispatch *)

(** A command whose failure is reported with a notice. *)
Definition or_notice (connId : N) (prefix : bytes) (m : SE ingester ()) : SE ingester () :=
  try_catch m (λ e, emit (SendNoticeError connId (prefix ++ what e))).

Definition process_command (msg : ClientMessage) (arr : list value) : SE ingester () :=
  v0 ← lift (index arr 0);
  cmd ← lift (jsonGetString v0 #"first element not a command");
  v1 ← lift (index arr 1);
  let connId := cm_connId msg in
  if decide (cmd = #"EVENT") then
    try_catch (ingesterProcessEvent connId (cm_ipAddr msg) v1 (cm_resultPromise msg))
      (λ e, answer (cm_resultPromise msg) connId
              (mk_process_result false (#"error: " ++ what e) #"?")
              #"?" false (#"invalid: " ++ what e))
  else if decide (cmd = #"AUTH") then
    or_notice connId #"auth failed: " (ingesterProcessAuth connId v1)
  else if decide (cmd = #"REQ") then
    or_notice connId #"bad req: " (ingesterProcessReq connId arr)
  else if decide (cmd = #"CLOSE") then
    or_notice connId #"bad close: " (ingesterProcessClose connId arr)
  else if starts_with cmd #"NEG-" then
    _ ← lift (throw_if (negb (relay__negentropy__enabled cfg)) (herr #"negentropy disabled"));
    or_notice connId #"negentropy error: " (ingesterProcessNegentropy connId arr)
  else raise (herr #"unknown cmd").

(** The outer [try] block. *)
Definition process_payload (msg : ClientMessage) : SE ingester () :=
  if starts_with (cm_payload msg) #"[" then
    payload ← lift (json_from_string (cm_payload msg));
    arr ← lift (jsonGetArray payload #"message is not an array");
    _ ← lift (throw_if (length arr <? 2) (herr #"too few array elements"));
    process_command msg arr
  else if bool_decide (cm_payload msg = ["010"%char]) then mret tt
  else raise (herr #"unparseable message").

Definition client_message (msg : ClientMessage) : SE ingester () :=
  try_catch (process_payload msg) (λ e,
    match cm_resultPromise msg with
    | Some p => emit (SetValue p (mk_process_result false (#"bad msg: " ++ what e) #"?"))
    | None => emit (SendNoticeError (cm_connId msg) (#"bad msg: " ++ what e))
    end).

Definition ingester_msg (m : MsgIngester) : SE ingester () :=
  match m with
  | Ingester_ClientMessage msg => client_message msg
  | Ingester_CloseConn connId =>
      _ ← emit (ToWriter connId [Writer_CloseConn connId]);
      _ ← emit (ToReqWorker connId (ReqWorker_CloseConn connId));
      emit (ToNegentropy connId (Negentropy_CloseConn connId))
  end.

Definition ingester_batch (newMsgs : list MsgIngester) : SE ingester () :=
  _ ← modify (λ s, mk_ingester (connIdToAuthStatus s) [] (sent s) (clock_tick s));
  _ ← for_each ingester_msg newMsgs;
  msgs ← gets writerMsgs;
  if 0 <? length msgs then emit (ToWriter 0 msgs) else mret tt.
End ingester.
