(* ===== verification/IngesterTheorems.v ===== *)
(** What the ingester lets through, and how it answers. *)

From S2P Require Import Prelude Bytes Json Hex PackedEvent FilterSets Filters Config EventParse Db.
From S2P Require Import Subscription StateExn RelayServer RelayIngester.

Section theorems.
Context `{!Hex, !NativeU64, !GolpeKeys, !Env, !JsonParser, !EventLibs} (cfg : Config).
Variable whitelistEnv : option bytes.
Variable now : nat → N.
Variable lib_what : exn → bytes.
Variable from_hex_default : bytes → result bytes.
Context (d : env) (m : gmap N event) (Hrepr : repr d m).
Context (Hcfg : config_ok cfg) (Hnow : ∀ t, is_u64 (now t)).

(** ** What reaches the writer *)

(** The list of public keys in force: the environment's, if it is not empty. *)
Definition whitelist : bytes :=
  match whitelistEnv with
  | Some e => if 0 <? length e then e else relay__whitelist__pubkeys cfg
  | None => relay__whitelist__pubkeys cfg
  end.

Definition allowed (pubkeyHex : bytes) : Prop :=
  relay__whitelist__enabled cfg = true →
  ∃ item, item ∈ getline_all whitelist [] ∧ pubkeyHex = trim_white item.

Lemma whitelist_check_None k : whitelist_check cfg whitelistEnv k = None ↔ allowed k.
Proof.
  unfold whitelist_check, allowed. fold whitelist.
  destruct (relay__whitelist__enabled cfg); [|naive_solver].
  destruct (Nat.eqb_spec (length whitelist) 0) as [Hz|Hz].
  - apply length_zero_iff_nil in Hz. rewrite Hz. split; [done|].
    intros [? [[]%not_elem_of_nil _]]; done.
  - destruct (existsb _ _) eqn:E.
    + split; [|done]. intros _ _. apply existsb_exists in E as (item & Hin & Heq).
      exists item. split; [by apply list_elem_of_In|]. by apply bool_decide_eq_true in Heq.
    + split; [done|]. intros [item [Hin Heq]]; [done|].
      enough (false = true) by done. rewrite <-E. apply existsb_exists. exists item.
      split; [by apply list_elem_of_In|]. by apply bool_decide_eq_true.
Qed.

(** A message to the writer that a client's message entitles to. *)
Definition admitted (msg : ClientMessage) (w : MsgWriter) : Prop :=
  ∃ v rest t e jsonStr,
    json_from_string (cm_payload msg) = Ok (JArray (JString #"EVENT" :: v :: rest)) ∧
    authentic cfg (now t) v (encode e) jsonStr ∧ wf_event e ∧
    allowed (to_hex (ev_pubkey e)) ∧ (∀ l o, m !! l = Some o → ev_id o ≠ ev_id e) ∧
    w = Writer_AddEvent (mk_add_event (cm_connId msg) (cm_ipAddr msg) (encode e) jsonStr
          (cm_resultPromise msg)).

(** A call that concerns the client who sent the message and no one else. *)
Definition call_for (msg : ClientMessage) (c : call) : Prop :=
  match c with
  | SendNoticeError connId _ | SendOKResponse connId _ _ _ => connId = cm_connId msg
  | ToReqWorker key (ReqWorker_NewSub sub) => key = cm_connId msg ∧ connId sub = cm_connId msg
  | ToReqWorker key (ReqWorker_RemoveSub connId _) => key = cm_connId msg ∧ connId = cm_connId msg
  | ToNegentropy key (Negentropy_NegOpen sub _ _) => key = cm_connId msg ∧ connId sub = cm_connId msg
  | ToNegentropy key (Negentropy_NegMsg connId _ _)
  | ToNegentropy key (Negentropy_NegClose connId _) => key = cm_connId msg ∧ connId = cm_connId msg
  | SetValue p _ => cm_resultPromise msg = Some p
  | _ => False
  end.

Definition auth_success (c : call) : Prop :=
  ∃ connId i, c = SendOKResponse connId i true #"successfully authenticated".

(** What handling a message does: calls are made, messages for the writer are
    added, and an empty table of authentication states stays empty, in which
    case nobody is told to be authenticated. *)
Record effect (msg : ClientMessage) (s s' : ingester) : Prop := {
  ef_msgs : ∃ ws, writerMsgs s' = writerMsgs s ++ ws ∧ Forall (admitted msg) ws;
  ef_calls : ∃ cs, sent s' = sent s ++ cs ∧ Forall (call_for msg) cs ∧
    (connIdToAuthStatus s = ∅ → Forall (λ c, ¬ auth_success c) cs);
  ef_table : connIdToAuthStatus s = ∅ → connIdToAuthStatus s' = ∅;
}.

#[local] Instance effect_preorder msg : PreOrder (effect msg).
Proof.
  split.
  - intros s. split; [exists []|exists []|done]; rewrite app_nil_r; by split_and!.
  - intros s1 s2 s3 [(w1 & E1 & F1) (c1 & D1 & G1 & A1) T1] [(w2 & E2 & F2) (c2 & D2 & G2 & A2) T2].
    split; [exists (w1 ++ w2)|exists (c1 ++ c2)|auto].
    + rewrite E2, E1, app_assoc. split; [done|]. by apply Forall_app.
    + rewrite D2, D1, app_assoc. split_and!; [done|by apply Forall_app|].
      intros Ht. apply Forall_app. auto.
Qed.

Section effects.
Variable msg : ClientMessage.

Lemma effect_emit c : call_for msg c → ¬ auth_success c → moves (effect msg) (emit c).
Proof.
  intros Hc Ha. apply moves_modify. intros s. split; [exists []|exists [c]|done].
  - by rewrite app_nil_r.
  - split_and!; [done|by apply Forall_singleton|intros _; by apply Forall_singleton].
Qed.

Lemma effect_clock : moves (effect msg) (curr_time now).
Proof. intros s r s' [= <- <-]. split; [exists []|exists []|done]; rewrite app_nil_r; by split_and!. Qed.

Lemma effect_back w : admitted msg w → moves (effect msg) (output_emplace_back w).
Proof.
  intros Hw. apply moves_modify. intros s. split; [exists [w]|exists []|done].
  - split; [done|]. by apply Forall_singleton.
  - rewrite app_nil_r. by split_and!.
Qed.

Lemma effect_answer r h w t :
  head t ≠ Some "s"%char →
  moves (effect msg) (answer (cm_resultPromise msg) (cm_connId msg) r h w t).
Proof.
  intros Ht. unfold answer. destruct (cm_resultPromise msg) as [p|] eqn:Hp.
  - apply effect_emit; [done|]. by intros (? & ? & ?).
  - case_match; [apply moves_ret, _|]. apply effect_emit; [done|].
    intros (? & ? & [= _ _ _ ->]). by apply Ht.
Qed.

#[local] Hint Resolve effect_clock : moves.
#[local] Hint Extern 1 (moves _ (emit _)) =>
  apply effect_emit; [done || (split; done)|by intros (? & ? & ?)] : moves.

Lemma process_event_effect v rest :
  json_from_string (cm_payload msg) = Ok (JArray (JString #"EVENT" :: v :: rest)) →
  moves (effect msg) (ingesterProcessEvent cfg whitelistEnv now lib_what d
    (cm_connId msg) (cm_ipAddr msg) v (cm_resultPromise msg)).
Proof.
  intros Hj s r s'. unfold ingesterProcessEvent, mbind, SE_bind. simpl.
  assert (effect msg s (mk_ingester (connIdToAuthStatus s) (writerMsgs s) (sent s)
    (S (clock_tick s)))) as Hclk by by eapply effect_clock.
  destruct (parseAndVerifyEvent cfg (now (clock_tick s)) v true true) as [[p j]|e] eqn:Hp.
  - pose proof (json_from_string_u64 _ _ Hj) as Hu.
    assert (json_u64 v = true) as Hv by (eapply json_u64_elem; [done|by constructor 2; constructor]).
    pose proof (parseAndVerifyEvent_Ok cfg _ _ _ _ Hp Hcfg (Hnow _)
      (json_u64_field _ _ Hv) (json_u64_field _ _ Hv)) as Hauth.
    pose proof Hauth as (e & He & -> & _). unfold lift. rewrite view_encode by done.
    rewrite pubkey_encode, id_encode by done.
    pose proof (whitelist_check_None (to_hex (ev_pubkey e))) as Hw.
    destruct (whitelist_check _ _ _) as [why|] eqn:Hwhy.
    { intros Hr. etrans; [exact Hclk|]. eapply effect_answer; [|done].
      unfold whitelist_check in Hwhy. repeat case_match; by simplify_eq. }
    pose proof (lookupEventById_spec d m (ev_id e) Hrepr (wf_id e He)) as Hl.
    destruct (lookupEventById d (ev_id e)) as [[l b]|].
    { intros Hr. etrans; [exact Hclk|]. by eapply effect_answer; [|done]. }
    intros Hr. etrans; [exact Hclk|]. eapply effect_back; [|done].
    exists v, rest, (clock_tick s), e, j. split_and!; try done. by apply Hw.
  - intros Hr. etrans; [exact Hclk|]. destruct (catchable e).
    + eapply effect_answer; [|done]. done.
    + by injection Hr as <- <-.
Qed.

Lemma effect_notice b x :
  moves (effect msg) x → moves (effect msg) (or_notice lib_what (cm_connId msg) b x).
Proof. intros Hx. unfold or_notice. auto with moves. Qed.
#[local] Hint Resolve effect_notice : moves.

Lemma Subscription_make_connId c i fg sub : Subscription_make c i fg = Ok sub → connId sub = c.
Proof. unfold Subscription_make. intros Hs. inv_result. by subst. Qed.

Lemma effect_req arr : moves (effect msg) (ingesterProcessReq cfg (cm_connId msg) arr).
Proof.
  unfold ingesterProcessReq. do 6 (apply moves_bind_lift; [apply _|intros ? ?]).
  apply effect_emit; [|by intros (? & ? & ?)]. split; [done|]. by eapply Subscription_make_connId.
Qed.

Lemma effect_close arr : moves (effect msg) (ingesterProcessClose (cm_connId msg) arr).
Proof. unfold ingesterProcessClose. prove_moves. Qed.

Lemma effect_neg arr : moves (effect msg) (ingesterProcessNegentropy cfg from_hex_default (cm_connId msg) arr).
Proof.
  unfold ingesterProcessNegentropy. do 3 (apply moves_bind_lift; [apply _|intros ? ?]).
  case_match; [|prove_moves].
  apply moves_bind_lift; [apply _|intros ? ?]. apply moves_bind_lift; [apply _|intros ? ?].
  apply moves_bind_lift; [apply _|intros ? ?]. apply moves_bind_lift; [apply _|intros sub Hsub].
  do 3 (apply moves_bind_lift; [apply _|intros ? ?]).
  apply effect_emit; [|by intros (? & ? & ?)]. split; [done|]. by eapply Subscription_make_connId.
Qed.

(** Authentication needs an entry in the table. *)
Definition effect_known (s s' : ingester) : Prop :=
  connIdToAuthStatus s ≠ ∅ → effect msg s s' ∧ connIdToAuthStatus s' ≠ ∅.

#[local] Instance effect_known_preorder : PreOrder effect_known.
Proof.
  split; [done|]. intros s1 s2 s3 R1 R2 Hs. destruct (R1 Hs) as [E1 H1'].
  destruct (R2 H1') as [E2 H2']. split; [by etrans|done].
Qed.

Lemma known_set_auth c a : moves effect_known (set_auth c a).
Proof.
  apply moves_modify. intros s Hs. split; [|apply insert_non_empty].
  split; [exists []|exists []|done]; rewrite app_nil_r; by split_and!.
Qed.

Lemma known_ok i t : moves effect_known (emit (SendOKResponse (cm_connId msg) i true t)).
Proof.
  apply moves_modify. intros s Hs. split; [|done]. split; [exists []|eexists [_]|done].
  - by rewrite app_nil_r.
  - split_and!; [done|by apply Forall_singleton|done].
Qed.
#[local] Hint Resolve known_set_auth known_ok : moves.

Lemma known_complete v packed a :
  moves effect_known (complete_auth cfg (cm_connId msg) v packed a).
Proof. unfold complete_auth. prove_moves. Qed.

Lemma effect_auth v : moves (effect msg) (ingesterProcessAuth cfg now (cm_connId msg) v).
Proof.
  unfold ingesterProcessAuth. apply moves_bind_lift; [apply _|intros ? ?].
  apply moves_bind; [apply _|apply effect_clock|intros t].
  apply moves_bind_lift; [apply _|intros [packedStr jsonStr] ?].
  do 2 (apply moves_bind_lift; [apply _|intros ? ?]).
  intros s r s'. unfold mbind, SE_bind, gets.
  destruct (connIdToAuthStatus s !! cm_connId msg) as [a'|] eqn:Ha; [|by intros [= <- <-]].
  intros Hr. apply (known_complete _ _ _ s r s' Hr). intros Hz. by rewrite Hz in Ha.
Qed.
#[local] Hint Resolve effect_req effect_close effect_neg effect_auth : moves.

Lemma effect_command v0 v1 rest :
  json_from_string (cm_payload msg) = Ok (JArray (v0 :: v1 :: rest)) →
  moves (effect msg) (process_command cfg whitelistEnv now lib_what from_hex_default d msg
    (v0 :: v1 :: rest)).
Proof.
  intros Hj. unfold process_command. apply moves_bind_lift; [apply _|intros x [= <-]].
  apply moves_bind_lift; [apply _|intros cmd ->%jsonGetString_Ok].
  apply moves_bind_lift; [apply _|intros x [= <-]].
  case_decide as Hev; [subst|prove_moves].
  apply moves_try; [apply _|by eapply process_event_effect|].
  intros e. apply effect_answer. done.
Qed.

Lemma effect_client_message :
  moves (effect msg) (client_message cfg whitelistEnv now lib_what from_hex_default d msg).
Proof.
  unfold client_message. apply moves_try; [apply _| |intros e; destruct (cm_resultPromise msg) eqn:?; auto with moves].
  unfold process_payload. case_match; [|case_match; auto with moves].
  apply moves_bind_lift; [apply _|intros payload Hj].
  apply moves_bind_lift; [apply _|intros arr ->%jsonGetArray_Ok].
  apply moves_bind_lift; [apply _|intros ? Hlen%throw_if_Ok%Nat.ltb_ge].
  destruct arr as [|v0 [|v1 rest]]; simpl in Hlen; [lia..|]. by apply effect_command.
Qed.
End effects.

(** ** The thread never dies *)

Section total.
Context (hex_errors : ∀ s b, only_caught (from_hex s b)).
Context (hex_default_errors : ∀ s, only_caught (from_hex_default s)).
#[local] Hint Resolve hex_errors hex_default_errors : only_caught.

Lemma caught_emit c : throws_only_caught (emit c).
Proof. apply caught_modify. Qed.
Lemma caught_back w : throws_only_caught (output_emplace_back w).
Proof. apply caught_modify. Qed.
Lemma caught_set_auth c a : throws_only_caught (set_auth c a).
Proof. apply caught_modify. Qed.
Lemma caught_clock : throws_only_caught (curr_time now).
Proof. intros s e s' [=]. Qed.
#[local] Hint Resolve caught_emit caught_back caught_set_auth caught_clock : caught.

Lemma caught_answer p c r h w t : throws_only_caught (answer p c r h w t).
Proof. unfold answer. repeat case_match; auto with caught. Qed.
#[local] Hint Resolve caught_answer : caught.

Lemma caught_index arr i : is_Some (arr !! i) → only_caught (index arr i).
Proof. intros [v Hv]. unfold index. rewrite Hv. apply only_caught_Ok. Qed.

Lemma caught_at_index arr i : only_caught (at_index arr i).
Proof. unfold at_index. prove_caught. Qed.

Lemma caught_auth_tag ch found v : only_caught (auth_tag cfg ch found v).
Proof. unfold auth_tag. prove_caught. Qed.
#[local] Hint Resolve caught_at_index caught_auth_tag : only_caught.

Lemma caught_process_event c ip v p :
  throws_only_caught (ingesterProcessEvent cfg whitelistEnv now lib_what d c ip v p).
Proof.
  unfold ingesterProcessEvent. apply caught_bind; [apply caught_clock|]. intros t.
  pose proof (caught_parseAndVerifyEvent cfg hex_errors t v true true) as Hc.
  destruct (parseAndVerifyEvent _ _ _ _ _) as [[? ?]|e].
  - prove_steps.
  - rewrite (Hc e eq_refl). prove_steps.
Qed.

Lemma caught_command msg v0 v1 rest :
  throws_only_caught (process_command cfg whitelistEnv now lib_what from_hex_default d msg
    (v0 :: v1 :: rest)).
Proof.
  assert (only_caught (index (v0 :: v1 :: rest) 1)) as H1' by (by apply caught_index; eexists).
  assert (only_caught (index (v0 :: v1 :: rest) 0)) as H0' by (by apply caught_index; eexists).
  assert (throws_only_caught (S := ingester) (lift (index (v0 :: v1 :: rest) 1))) as Hl1
    by by apply caught_lift.
  unfold process_command, or_notice. apply caught_bind; [by apply caught_lift|intros x].
  apply caught_bind; [auto with caught|intros cmd]. apply caught_bind; [done|intros y].
  case_decide; [apply try_caught; [apply caught_process_event|prove_steps]|].
  unfold ingesterProcessAuth, complete_auth, ingesterProcessReq, ingesterProcessClose,
    ingesterProcessNegentropy.
  prove_steps.
Qed.

Lemma client_message_total msg s :
  ∃ s', client_message cfg whitelistEnv now lib_what from_hex_default d msg s = (Ok tt, s').
Proof.
  destruct (try_catch_total (process_payload cfg whitelistEnv now lib_what from_hex_default d msg)
    (λ e, match cm_resultPromise msg with
          | Some p => emit (SetValue p (mk_process_result false (#"bad msg: " ++ what lib_what e) #"?"))
          | None => emit (SendNoticeError (cm_connId msg) (#"bad msg: " ++ what lib_what e))
          end) s) as ([] & s' & E); [|by intros e s'; case_match; eexists _, _|by exists s'].
  unfold process_payload. case_match; [|case_match; auto with caught].
  intros s1 e s' [Ht|(v & s2 & _ & Ht)]%bind_Throw;
    [exact (caught_lifted _ (caught_from_string _) _ _ _ Ht)|].
  apply bind_Throw in Ht as [Ht|(arr & s3 & _ & Ht)];
    [exact (caught_lifted _ (caught_jsonGetArray _ _) _ _ _ Ht)|].
  apply bind_Throw in Ht as [Ht|(u & s4 & [= Hlen <-] & Ht)];
    [exact (caught_lifted _ (only_caught_throw_if _ (herr _) eq_refl) _ _ _ Ht)|].
  apply throw_if_Ok, Nat.ltb_ge in Hlen.
  destruct arr as [|v0 [|v1 rest]]; simpl in Hlen; [lia..|]. by eapply caught_command.
Qed.

(** ** A batch *)

Definition closing_calls (connId : N) : list call :=
  [ToWriter connId [Writer_CloseConn connId]; ToReqWorker connId (ReqWorker_CloseConn connId);
   ToNegentropy connId (Negentropy_CloseConn connId)].

(** What one message leads to. *)
Inductive handled (s : ingester) : MsgIngester → ingester → Prop :=
  | handled_client msg s' : effect msg s s' → handled s (Ingester_ClientMessage msg) s'
  | handled_close connId s' :
      writerMsgs s' = writerMsgs s → sent s' = sent s ++ closing_calls connId →
      connIdToAuthStatus s' = connIdToAuthStatus s →
      handled s (Ingester_CloseConn connId) s'.

Lemma ingester_msg_handled msg s :
  ∃ s', ingester_msg cfg whitelistEnv now lib_what from_hex_default d msg s = (Ok tt, s') ∧
    handled s msg s'.
Proof.
  destruct msg as [msg|connId].
  - destruct (client_message_total msg s) as (s' & E). exists s'. split; [done|].
    constructor. by apply (effect_client_message msg s (Ok tt)).
  - eexists. split; [done|]. constructor; try done. simpl. by rewrite <-!app_assoc.
Qed.

Lemma ingester_msgs_handled msgs s :
  ∃ s' ws cs, for_each (ingester_msg cfg whitelistEnv now lib_what from_hex_default d) msgs s =
      (Ok tt, s') ∧
    writerMsgs s' = writerMsgs s ++ ws ∧ sent s' = sent s ++ cs ∧
    Forall (λ w, ∃ msg, Ingester_ClientMessage msg ∈ msgs ∧ admitted msg w) ws ∧
    Forall (λ c, (∃ msg, Ingester_ClientMessage msg ∈ msgs ∧ call_for msg c) ∨
                 (∃ connId, Ingester_CloseConn connId ∈ msgs ∧ c ∈ closing_calls connId)) cs ∧
    (connIdToAuthStatus s = ∅ → connIdToAuthStatus s' = ∅ ∧ Forall (λ c, ¬ auth_success c) cs).
Proof.
  revert s. induction msgs as [|msg msgs IH]; intros s.
  { exists s, [], []. rewrite !app_nil_r. split_and!; try done. }
  destruct (ingester_msg_handled msg s) as (s1 & E1 & Hh).
  destruct (IH s1) as (s' & ws & cs & E & Hw & Hc & Fw & Fc & Ft).
  assert (∃ ws1 cs1, writerMsgs s1 = writerMsgs s ++ ws1 ∧ sent s1 = sent s ++ cs1 ∧
    Forall (λ w, ∃ msg', Ingester_ClientMessage msg' ∈ msg :: msgs ∧ admitted msg' w) ws1 ∧
    Forall (λ c, (∃ msg', Ingester_ClientMessage msg' ∈ msg :: msgs ∧ call_for msg' c) ∨
      (∃ connId, Ingester_CloseConn connId ∈ msg :: msgs ∧ c ∈ closing_calls connId)) cs1 ∧
    (connIdToAuthStatus s = ∅ → connIdToAuthStatus s1 = ∅ ∧ Forall (λ c, ¬ auth_success c) cs1))
    as (ws1 & cs1 & Hw1 & Hc1 & Fw1 & Fc1 & Ft1).
  { destruct Hh as [msg s1 [(ws1 & ? & Fw1) (cs1 & ? & Fc1 & Fa1) Ht1]|connId s1 Hw1 Hs1 Ht1].
    - exists ws1, cs1. split_and!; [done|done|eapply Forall_impl; [done|]|eapply Forall_impl; [done|]|auto].
      + intros w Hadm. exists msg. split; [constructor|done].
      + intros c Hfor. left. exists msg. split; [constructor|done].
    - exists [], (closing_calls connId). rewrite app_nil_r. split_and!; [done|done|done| |].
      + apply Forall_forall. intros c Hin. right. exists connId. split; [constructor|done].
      + rewrite Ht1. intros Hz. split; [done|].
        repeat (constructor; [by intros (? & ? & ?)|]). constructor. }
  exists s', (ws1 ++ ws), (cs1 ++ cs). split_and!.
  - cbn [for_each]. unfold mbind, SE_bind. by rewrite E1.
  - by rewrite Hw, Hw1, app_assoc.
  - by rewrite Hc, Hc1, app_assoc.
  - apply Forall_app. split; [done|]. eapply Forall_impl; [exact Fw|].
    intros w (msg' & Hin & ?). exists msg'. split; [by constructor 2|done].
  - apply Forall_app. split; [done|]. eapply Forall_impl; [exact Fc|].
    intros c [(msg' & Hin & ?)|(connId & Hin & ?)]; [left|right]; eexists; (split; [by constructor 2|done]).
  - intros Hz. destruct (Ft1 Hz) as [Hz1 Fa1]. destruct (Ft Hz1) as [Hz' Fa]. split; [done|].
    by apply Forall_app.
Qed.

Lemma ingester_batch_handled msgs s :
  ∃ s' ws cs, ingester_batch cfg whitelistEnv now lib_what from_hex_default d msgs s = (Ok tt, s') ∧
    sent s' = sent s ++ cs ++ (if 0 <? length ws then [ToWriter 0 ws] else []) ∧
    Forall (λ w, ∃ msg, Ingester_ClientMessage msg ∈ msgs ∧ admitted msg w) ws ∧
    Forall (λ c, (∃ msg, Ingester_ClientMessage msg ∈ msgs ∧ call_for msg c) ∨
                 (∃ connId, Ingester_CloseConn connId ∈ msgs ∧ c ∈ closing_calls connId)) cs ∧
    (connIdToAuthStatus s = ∅ → connIdToAuthStatus s' = ∅ ∧ Forall (λ c, ¬ auth_success c) cs).
Proof.
  set (s0 := mk_ingester (connIdToAuthStatus s) [] (sent s) (clock_tick s)).
  destruct (ingester_msgs_handled msgs s0) as (s1 & ws & cs & E & Hw & Hc & Fw & Fc & Ft).
  simpl in Hw, Hc, Ft. unfold ingester_batch, mbind, SE_bind, modify, gets. fold s0. rewrite E, Hw.
  exists (if 0 <? length ws
     then mk_ingester (connIdToAuthStatus s1) (writerMsgs s1) (sent s1 ++ [ToWriter 0 ws]) (clock_tick s1)
     else s1), ws, cs.
  destruct (0 <? length ws); (split; [done|]); simpl; rewrite Hc, ?app_nil_r, <-?app_assoc;
    by split_and!.
Qed.

(** C17: whatever clients send, a batch of the ingester ends normally; what it
    hands to the writer are authentic, timely events by allowed authors that
    the store does not have, each from an EVENT message and labelled with its
    sender; and every other call concerns only the connection whose message led
    to it. *)
Theorem ingester_admits msgs s :
  ∃ s' ws cs, ingester_batch cfg whitelistEnv now lib_what from_hex_default d msgs s = (Ok tt, s') ∧
    sent s' = sent s ++ cs ++ (if 0 <? length ws then [ToWriter 0 ws] else []) ∧
    Forall (λ w, ∃ msg, Ingester_ClientMessage msg ∈ msgs ∧ admitted msg w) ws ∧
    Forall (λ c, (∃ msg, Ingester_ClientMessage msg ∈ msgs ∧ call_for msg c) ∨
                 (∃ connId, Ingester_CloseConn connId ∈ msgs ∧ c ∈ closing_calls connId)) cs.
Proof.
  destruct (ingester_batch_handled msgs s) as (s' & ws & cs & ? & ? & ? & ? & _).
  by exists s', ws, cs.
Qed.
End total.
End theorems.

(** ** Batch after batch *)

Section run.
Context `{!Hex, !NativeU64, !GolpeKeys, !Env, !JsonParser, !EventLibs} (cfg : Config).
Variable whitelistEnv : option bytes.
Variable now : nat → N.
Variable lib_what : exn → bytes.
Variable from_hex_default : bytes → result bytes.

(** The thread's loop over the batches it pops, each with the snapshot it opens. *)
Definition ingester_run : list (env * list MsgIngester) → SE ingester () :=
  for_each (λ b, ingester_batch cfg whitelistEnv now lib_what from_hex_default b.1 b.2).

Lemma ingester_run_unauthenticated batches : config_ok cfg → (∀ t, is_u64 (now t)) →
  (∀ s b, only_caught (from_hex s b)) → (∀ s, only_caught (from_hex_default s)) →
  Forall (λ b, ∃ m, repr b.1 m) batches → ∀ s, connIdToAuthStatus s = ∅ →
  ∃ s' cs, ingester_run batches s = (Ok tt, s') ∧ connIdToAuthStatus s' = ∅ ∧
    sent s' = sent s ++ cs ∧ Forall (λ c, ¬ auth_success c) cs.
Proof.
  intros Hcfg Hnow Hhex Hdef. induction 1 as [|[d msgs] batches [m Hd] _ IH]; intros s Hs.
  { exists s, []. by rewrite app_nil_r. }
  edestruct (ingester_batch_handled cfg whitelistEnv now lib_what from_hex_default d m Hd Hcfg Hnow
    Hhex Hdef msgs s) as (s1 & ws & cs1 & E1 & Hc1 & _ & _ & Ft). destruct (Ft Hs) as [Hs1 Fa1].
  destruct (IH s1 Hs1) as (s' & cs & E & Hs' & Hc & Fa).
  exists s', ((cs1 ++ (if 0 <? length ws then [ToWriter 0 ws] else [])) ++ cs).
  split; [|split; [done|split]].
  - unfold ingester_run. cbn [for_each fst snd]. unfold mbind, SE_bind. by rewrite E1.
  - by rewrite Hc, Hc1, <-(app_assoc (sent s)).
  - apply Forall_app. split; [|done]. apply Forall_app. split; [done|].
    destruct (0 <? length ws); [|done]. constructor; [by intros (? & ? & ?)|done].
Qed.

(** No AUTH message ever succeeds: nothing fills the table of
    authentication states, which starts empty, so over any sequence of batches
    no client is told to be authenticated. *)
Theorem auth_never_succeeds batches : config_ok cfg → (∀ t, is_u64 (now t)) →
  (∀ s b, only_caught (from_hex s b)) → (∀ s, only_caught (from_hex_default s)) →
  Forall (λ b, ∃ m, repr b.1 m) batches →
  ∃ s', ingester_run batches ingester_init = (Ok tt, s') ∧
    Forall (λ c, ¬ auth_success c) (sent s').
Proof.
  intros Hcfg Hnow Hhex Hdef Hb.
  destruct (ingester_run_unauthenticated batches Hcfg Hnow Hhex Hdef Hb ingester_init eq_refl)
    as (s' & cs & E & _ & Hc & Fa).
  exists s'. split; [done|]. by rewrite Hc.
Qed.
End run.
