(* ===== verification/RelayWriter.v ===== *)
(** The writer thread ([RelayWriter.cpp]): write policy, one transaction per
    batch, and an answer for every event.

    [writer_batch] is the body of the thread's loop.  The write policy is the
    interface [WritePolicy]; [sort_events] stands for the [std::sort] in
    [writeEvents] and [commit] for the end of the transaction, which may
    fail.  An exception outside the [try] block would end the process. *)

From S2P Require Import Prelude Bytes Json Hex PackedEvent Filters Config EventParse Db.
From S2P Require Import NegentropyCache EventWriter StateExn Plugin RelayServer.

Section writer.
Context `{!Hex, !NativeU64, !GolpeKeys, !Env, !JsonParser, !WritePolicy} (cfg : Config).
Variable sort_events : list EventToWrite → list EventToWrite.
Variable commit : env → result env.
Variable lib_what : exn → bytes.

Definition what (e : exn) : bytes := match e with herr m => m | _ => lib_what e end.

Record writer_state := mk_writer {
  writePolicyPlugin : policy;
  neFilterCache : NegentropyFilterCache;
  store : env;
  wr_calls : list call;
}.

(** ** Messages of closed connections are dropped *)

Definition closed_conn (m : MsgWriter) : option N :=
  match m with Writer_CloseConn connId => Some connId | Writer_AddEvent _ => None end.

Definition add_event (m : MsgWriter) : option AddEvent :=
  match m with Writer_AddEvent ae => Some ae | Writer_CloseConn _ => None end.

Definition still_open (closedConns : gset N) (m : MsgWriter) : bool :=
  match m with
  | Writer_AddEvent ae => bool_decide (ae_connId ae ∉ closedConns)
  | Writer_CloseConn _ => false
  end.

Definition filter_closed (newMsgs : list MsgWriter) : list MsgWriter :=
  let closedConns := list_to_set (omap closed_conn newMsgs) : gset N in
  if decide (closedConns = ∅) then newMsgs
  else filter (λ m, still_open closedConns m = true) newMsgs.

(** ** The write policy *)

Definition source_type (ipAddr : bytes) : EventSourceType :=
  if length ipAddr =? 4 then SourceIP4 else SourceIP6.

Definition resolve (p : option promise) (r : ProcessResult) : list call :=
  match p with Some p => [SetValue p r] | None => [] end.

(** The answers to an event the policy refused. *)
Definition reject_calls (ae : AddEvent) (res : PluginEventSifterResult) (okMsg eventIdHex : bytes)
    : list call :=
  resolve (ae_resultPromise ae)
    (mk_process_result false (if length okMsg =? 0 then #"blocked by write policy" else okMsg)
       eventIdHex) ++
  [SendOKResponse (ae_connId ae) eventIdHex (bool_decide (res = ShadowReject)) okMsg].

(** One message; [i] is its place in the vector, which the event keeps as its
    [userData] pointer. *)
Definition prepare_step (st : policy * list EventToWrite * list call) (im : nat * MsgWriter)
    : result (policy * list EventToWrite * list call) :=
  let '(p, newEvents, calls) := st in
  match im.2 with
  | Writer_CloseConn _ => Ok st
  | Writer_AddEvent ae =>
      evJson ← json_from_string (ae_jsonStr ae);
      let '((res, okMsg), p) := policy_accept (relay__writePolicy__plugin cfg) evJson
                                  (source_type (ae_ipAddr ae)) (ae_ipAddr ae) p in
      if decide (res = Accept) then
        Ok (p, newEvents ++ [EventToWrite_make (ae_packedStr ae) (ae_jsonStr ae) (N.of_nat im.1)],
            calls)
      else
        packed ← view (ae_packedStr ae);
        Ok (p, newEvents, calls ++ reject_calls ae res okMsg (to_hex (id packed)))
  end.

(** ** The answers *)

(** [static_cast<MsgWriter::AddEvent*>(newEvent.userData)] *)
Definition add_event_of (newMsgs : list MsgWriter) (ev : EventToWrite) : result AddEvent :=
  match newMsgs !! N.to_nat (userData ev) with
  | Some (Writer_AddEvent ae) => Ok ae
  | _ => Throw undefined_behaviour
  end.

Definition answer_calls (ae : AddEvent) (success written : bool) (message eventIdHex : bytes)
    : list call :=
  resolve (ae_resultPromise ae) (mk_process_result success message eventIdHex) ++
  [SendOKResponse (ae_connId ae) eventIdHex written message].

(** [(success, written, message)] *)
Definition verdict_of (s : EventWriteStatus) : bool * bool * bytes :=
  match s with
  | Written => (true, true, [])
  | Duplicate => (true, true, #"duplicate: have this event")
  | Replaced => (false, false, #"replaced: have newer event")
  | Deleted => (false, false, #"deleted: user requested deletion")
  | Pending => (false, false, [])
  end.

Definition answer_step (newMsgs : list MsgWriter) (verdict : EventWriteStatus → bool * bool * bytes)
    (calls : list call) (ev : EventToWrite) : result (list call) :=
  packed ← view (packedStr ev);
  ae ← add_event_of newMsgs ev;
  let '(success, written, message) := verdict (status ev) in
  Ok (calls ++ answer_calls ae success written message (to_hex (id packed))).

(** The transaction: the cache as it is afterwards, and the committed store
    with the answered events, or what was thrown. *)
Definition do_write (c : NegentropyFilterCache) (d : env) (newEvents : list EventToWrite)
    : NegentropyFilterCache * result (env * list EventToWrite) :=
  let evs := sort_events newEvents in
  match writeEvents c d evs with
  | Ok (c, d', out) => (c, match commit d' with Ok d' => Ok (d', out) | Throw e => Throw e end)
  | Throw e => (match freshenCache c d with Ok c => c | Throw _ => c end, Throw e)
  end.

Definition writer_batch (msgs : list MsgWriter) (st : writer_state) : result writer_state :=
  let newMsgs := filter_closed msgs in
  '(p, newEvents, calls) ←
     foldM prepare_step (writePolicyPlugin st, [], wr_calls st) (imap pair newMsgs);
  if length newEvents =? 0 then Ok (mk_writer p (neFilterCache st) (store st) calls)
  else
    let '(c, written) := do_write (neFilterCache st) (store st) newEvents in
    match written with
    | Ok (d, out) =>
        calls ← foldM (answer_step newMsgs verdict_of) calls out;
        Ok (mk_writer p c d calls)
    | Throw e =>
        if catchable e then
          calls ← foldM (answer_step newMsgs (λ _, (false, false, #"Write error: " ++ what e)))
                    calls (sort_events newEvents);
          Ok (mk_writer p c (store st) calls)
        else Throw e
    end.
End writer.
