(* ===== verification/RelayWebsocket.v ===== *)
(** The websocket thread of the relay ([RelayServer::runWebsocket],
    [apps/relay/RelayWebsocket.cpp], and [parseIP] of [misc.cpp]).

    A websocket of the library is a number; its user data is the [Connection]
    of that number in [heap], and [connIdToConnection] points into the heap.
    What the library reports is a handler here, and what the handlers do to the
    outside is a list of [ws_call]s. *)

From S2P Require Import Prelude Bytes Json Hex Config EventParse Subscription StateExn Plugin RelayServer.

(** Values of the relay's [golpe.yaml] that may change while it runs; each
    reload of the configuration gives it another version. *)
Record WebsocketConfig := mk_ws_config {
  version : N;
  relay__realIpHeader : bytes;
  relay__info__name : bytes;
  relay__info__description : bytes;
  relay__info__pubkey : bytes;
  relay__info__contact : bytes;
  relay__info__icon : bytes;
  relay__info__nips : bytes;
  relay__maxWebsocketPayloadSize : N;
  relay__enableTcpKeepalive : bool;
}.

Record WsConnection := mk_ws_connection {
  websocket : N;
  c_connId : N;
  connectedTimestamp : N;
  c_ipAddr : bytes;
  bytesUp : N;
  bytesUpCompressed : N;
  bytesDown : N;
  bytesDownCompressed : N;
}.

Inductive ws_call :=
  | WsText (ws : N) (payload : bytes)
  | WsBinary (ws : N) (payload : bytes)
  | HttpWrite (page : bytes)
  | ToIngester (key : N) (msg : MsgIngester)
  | SetKeepalive (ws : N)
  | StopListening.

(** A request, as far as the handlers look at it. *)
Record HttpRequest := mk_http_request { req_url : bytes; req_header : bytes → bytes }.

(** [inet_pton], for the two families. *)
Class InetPton := {
  inet_pton : bool → bytes → option bytes;
  inet_pton_length : ∀ v6 s b, inet_pton v6 s = Some b → length b = if v6 then 16 else 4;
}.

(** The file that is built in, and what the build generates. *)
Class RelayBuild := {
  APP_GIT_VERSION : bytes;
  negentropy_version : Z;
  strfrytmpl_landing : bytes → bytes → Z → bytes;
}.

Definition preGenerateHttpResponse (contentType content : bytes) : bytes :=
  let crlf := ["013"; "010"]%char in
  #"HTTP/1.1 200 OK" ++ crlf ++
  #"Content-Type: " ++ contentType ++ crlf ++
  #"Access-Control-Allow-Origin: *" ++ crlf ++
  #"Connection: keep-alive" ++ crlf ++
  #"Server: strfry" ++ crlf ++
  #"Content-Length: " ++ show_nat (length content) ++ crlf ++
  crlf ++ content.

(** What a C function sees of a string. *)
Fixpoint c_str (s : bytes) : bytes :=
  match s with [] => [] | c :: s => if char_eqb c "000" then [] else c :: c_str s end.

(** [parseIP]: empty if it cannot be parsed. *)
Definition parseIP `{!InetPton} (ip : bytes) : bytes :=
  let v6 := existsb (λ c, char_eqb c ":") ip in
  default [] (inet_pton v6 (c_str ip)).

Section websocket.
Context `{!EventLibs, !JsonParser, !PluginOS, !InetPton, !RelayBuild} (cfg : Config).
Variable curr_time_us : nat → N.
(** The size of a message after compression, as [send] reports it. *)
Variable compressed_size : N → bytes → N.
(** [getAddressBytes] *)
Variable address : N → bytes.

(** A page that is rendered again when the configuration changes. *)
Record page := mk_page { ver : N; rendered : bytes }.

Record websocket_state := mk_websocket {
  heap : gmap N WsConnection;
  connIdToConnection : gmap N N;
  nextConnectionId : N;
  gracefulShutdown : bool;
  tempBuf : bytes;
  serverInfoPage : page;
  landingPage : page;
  nodeInfoPage : page;
  nodeInfo21Page : page;
  ws_out : list ws_call;
  ws_tick : nat;
}.

Definition start_websocket : websocket_state :=
  mk_websocket ∅ ∅ 1 false [] (mk_page 0 []) (mk_page 0 []) (mk_page 0 []) (mk_page 0 []) [] 0.

Definition set_conns (h : gmap N WsConnection) (m : gmap N N) (s : websocket_state) :=
  mk_websocket h m (nextConnectionId s) (gracefulShutdown s) (tempBuf s) (serverInfoPage s)
    (landingPage s) (nodeInfoPage s) (nodeInfo21Page s) (ws_out s) (ws_tick s).
Definition set_next n (s : websocket_state) :=
  mk_websocket (heap s) (connIdToConnection s) n (gracefulShutdown s) (tempBuf s) (serverInfoPage s)
    (landingPage s) (nodeInfoPage s) (nodeInfo21Page s) (ws_out s) (ws_tick s).
Definition set_graceful (s : websocket_state) :=
  mk_websocket (heap s) (connIdToConnection s) (nextConnectionId s) true (tempBuf s) (serverInfoPage s)
    (landingPage s) (nodeInfoPage s) (nodeInfo21Page s) (ws_out s) (ws_tick s).
Definition set_tempBuf b (s : websocket_state) :=
  mk_websocket (heap s) (connIdToConnection s) (nextConnectionId s) (gracefulShutdown s) b
    (serverInfoPage s) (landingPage s) (nodeInfoPage s) (nodeInfo21Page s) (ws_out s) (ws_tick s).
Definition set_pages a b c d (s : websocket_state) :=
  mk_websocket (heap s) (connIdToConnection s) (nextConnectionId s) (gracefulShutdown s) (tempBuf s)
    a b c d (ws_out s) (ws_tick s).
Definition add_out c (s : websocket_state) :=
  mk_websocket (heap s) (connIdToConnection s) (nextConnectionId s) (gracefulShutdown s) (tempBuf s)
    (serverInfoPage s) (landingPage s) (nodeInfoPage s) (nodeInfo21Page s) (ws_out s ++ [c]) (ws_tick s).

Definition out (c : ws_call) : SE websocket_state () := modify (add_out c).

Definition ws_clock : SE websocket_state N := λ s,
  (Ok (curr_time_us (ws_tick s)),
   mk_websocket (heap s) (connIdToConnection s) (nextConnectionId s) (gracefulShutdown s) (tempBuf s)
     (serverInfoPage s) (landingPage s) (nodeInfoPage s) (nodeInfo21Page s) (ws_out s) (S (ws_tick s))).

(** ** Pages *)

Definition default_nips : value := JArray (JSigned <$> [1; 2; 4; 9; 11; 22; 28; 40; 70; 77]%Z).

Definition supportedNips (wc : WebsocketConfig) : value :=
  if length (relay__info__nips wc) =? 0 then default_nips
  else match json_from_string (relay__info__nips wc) with Ok v => v | Throw _ => default_nips end.

(** [if (cfg().f.size()) nip11[k] = cfg().f]: the entries of an object ascend. *)
Definition info_field (k f : bytes) : list (bytes * value) :=
  if length f =? 0 then [] else [(k, JString f)].

Definition nip11 (wc : WebsocketConfig) : value :=
  JObject (
    info_field #"contact" (relay__info__contact wc) ++
    info_field #"description" (relay__info__description wc) ++
    info_field #"icon" (relay__info__icon wc) ++
    [(#"limitation", JObject
       [(#"max_limit", JUnsigned (relay__maxFilterLimit cfg));
        (#"max_message_length", JUnsigned (relay__maxWebsocketPayloadSize wc));
        (#"max_subscriptions", JUnsigned (relay__maxSubsPerConnection cfg))])] ++
    info_field #"name" (relay__info__name wc) ++
    [(#"negentropy", JSigned (negentropy_version - 96))] ++
    info_field #"pubkey" (relay__info__pubkey wc) ++
    [(#"software", JString #"git+https://github.com/hoytech/strfry.git");
     (#"supported_nips", supportedNips wc);
     (#"version", JString APP_GIT_VERSION)]).

Definition refresh (wc : WebsocketConfig) (content : bytes) (p : page) : page :=
  if decide (ver p = version wc) then p else mk_page (version wc) content.

Definition getServerInfoHttpResponse (wc : WebsocketConfig) : page → page :=
  refresh wc (preGenerateHttpResponse #"application/json" (json_to_string (nip11 wc))).

Definition getLandingPageHttpResponse (wc : WebsocketConfig) : page → page :=
  refresh wc (preGenerateHttpResponse #"text/html"
    (strfrytmpl_landing (json_to_string (supportedNips wc)) APP_GIT_VERSION (negentropy_version - 96))).

Definition nodeinfo_json (host : bytes) : value :=
  JObject [(#"links", JArray [JObject
    [(#"href", JString (#"https://" ++ host ++ #"/nodeinfo/2.1"));
     (#"rel", JString #"http://nodeinfo.diaspora.software/ns/schema/2.1")]])].

Definition getNodeInfoHttpResponse (wc : WebsocketConfig) (host : bytes) : page → page :=
  refresh wc (preGenerateHttpResponse #"application/json" (json_to_string (nodeinfo_json host))).

Definition nodeinfo21_json : value :=
  JObject
    [(#"metadata", JObject [(#"features", JArray [JString #"nostr_relay"])]);
     (#"openRegistrations", JBool false);
     (#"protocols", JArray [JString #"nostr"]);
     (#"services", JObject [(#"inbound", JArray []); (#"outbound", JArray [])]);
     (#"software", JObject
        [(#"homepage", JString #"https://github.com/hoytech/strfry");
         (#"name", JString #"strfry");
         (#"repository", JString #"https://github.com/hoytech/strfry");
         (#"version", JString APP_GIT_VERSION)]);
     (#"usage", JObject [(#"users", JObject [])]);
     (#"version", JString #"2.1")].

Definition getNodeInfo21HttpResponse (wc : WebsocketConfig) : page → page :=
  refresh wc (preGenerateHttpResponse #"application/json" (json_to_string nodeinfo21_json)).

Definition onHttpRequest (wc : WebsocketConfig) (req : HttpRequest) : SE websocket_state () :=
  s ← gets (λ s, s);
  let host := req_header req #"host" in
  let '(a, b, c, d, p) :=
    if decide (req_url req = #"/.well-known/nodeinfo") then
      let p := getNodeInfoHttpResponse wc host (nodeInfoPage s) in
      (serverInfoPage s, landingPage s, p, nodeInfo21Page s, p)
    else if decide (req_url req = #"/nodeinfo/2.1") then
      let p := getNodeInfo21HttpResponse wc (nodeInfo21Page s) in
      (serverInfoPage s, landingPage s, nodeInfoPage s, p, p)
    else if decide (req_header req #"accept" = #"application/nostr+json") then
      let p := getServerInfoHttpResponse wc (serverInfoPage s) in
      (p, landingPage s, nodeInfoPage s, nodeInfo21Page s, p)
    else
      let p := getLandingPageHttpResponse wc (landingPage s) in
      (serverInfoPage s, p, nodeInfoPage s, nodeInfo21Page s, p) in
  _ ← modify (set_pages a b c d);
  out (HttpWrite (rendered p)).

(** ** Connections *)

(** The library strips leading colons of a header. *)
Definition fix_header (header : bytes) : bytes :=
  if bool_decide (header = #"1") || starts_with #"ffff:" header then #"::" ++ header else header.

Definition client_address (wc : WebsocketConfig) (req : HttpRequest) (ws : N) : bytes :=
  let ip := if length (relay__realIpHeader wc) =? 0 then []
            else parseIP (fix_header (req_header req (relay__realIpHeader wc))) in
  if length ip =? 0 then address ws else ip.

(** The log line at the end renders the address. *)
Definition onConnection (wc : WebsocketConfig) (ws : N) (req : HttpRequest) : SE websocket_state () :=
  connId ← gets nextConnectionId;
  _ ← modify (set_next (u64_add connId 1));
  now ← ws_clock;
  let c := mk_ws_connection ws connId now (client_address wc req ws) 0 0 0 0 in
  _ ← modify (λ s, set_conns (<[ws := c]> (heap s))
        (match connIdToConnection s !! connId with
         | Some _ => connIdToConnection s
         | None => <[connId := ws]> (connIdToConnection s)
         end) s);
  _ ← lift (renderIP (c_ipAddr c));
  if relay__enableTcpKeepalive wc then out (SetKeepalive ws) else mret tt.

(** The [Connection] that [ws->getUserData()] points to. *)
Definition user_data (ws : N) : SE websocket_state WsConnection :=
  h ← gets heap;
  match h !! ws with Some c => mret c | None => raise undefined_behaviour end.

Definition onDisconnection (ws : N) : SE websocket_state () :=
  c ← user_data ws;
  _ ← lift (renderIP (c_ipAddr c));
  _ ← out (ToIngester (c_connId c) (Ingester_CloseConn (c_connId c)));
  _ ← modify (λ s, set_conns (delete ws (heap s)) (delete (c_connId c) (connIdToConnection s)) s);
  s ← gets (λ s, s);
  if gracefulShutdown s && bool_decide (connIdToConnection s = ∅) then raise (process_exit 0)
  else mret tt.

Definition add_down (n m : N) (c : WsConnection) : WsConnection :=
  mk_ws_connection (websocket c) (c_connId c) (connectedTimestamp c) (c_ipAddr c) (bytesUp c)
    (bytesUpCompressed c) (u64_add (bytesDown c) n) (u64_add (bytesDownCompressed c) m).
Definition add_up (n m : N) (c : WsConnection) : WsConnection :=
  mk_ws_connection (websocket c) (c_connId c) (connectedTimestamp c) (c_ipAddr c)
    (u64_add (bytesUp c) n) (u64_add (bytesUpCompressed c) m) (bytesDown c) (bytesDownCompressed c).

Definition onMessage2 (ws : N) (message : bytes) (compressedSize : N) : SE websocket_state () :=
  c ← user_data ws;
  _ ← modify (λ s, set_conns
        (<[ws := add_down (N.of_nat (length message)) compressedSize c]> (heap s)) (connIdToConnection s) s);
  out (ToIngester (c_connId c)
    (Ingester_ClientMessage (mk_client_message (c_connId c) (c_ipAddr c) message None))).

(** ** Messages of the other threads *)

Definition doSend (send : N → bytes → ws_call) (connId : N) (payload : bytes) : SE websocket_state () :=
  m ← gets connIdToConnection;
  match m !! connId with
  | None => mret tt
  | Some p =>
      c ← user_data p;
      _ ← out (send (websocket c) payload);
      modify (λ s, set_conns
        (<[p := add_up (N.of_nat (length payload)) (compressed_size (websocket c) payload) c]> (heap s))
        (connIdToConnection s) s)
  end.

(** [tempBuf.resize(10 + MAX_SUBID_SIZE)] *)
Definition resize_buf (n : nat) (buf : bytes) : bytes := take n buf ++ replicate (n - length buf) "000"%char.

Definition send_to_recipient (evJson : bytes) (item : ConnIdSubId) : SE websocket_state () :=
  buf ← gets tempBuf;
  let '(buf, (connId, payload)) := batch_send evJson buf item in
  _ ← modify (set_tempBuf buf);
  doSend WsText connId payload.

Definition websocket_msg (newMsg : MsgWebsocket) : SE websocket_state () :=
  match newMsg with
  | Websocket_Send connId payload => doSend WsText connId payload
  | Websocket_SendBinary connId payload => doSend WsBinary connId payload
  | Websocket_SendEventToBatch l evJson =>
      buf ← gets tempBuf;
      _ ← modify (set_tempBuf (batch_buffer (resize_buf (10 + MAX_SUBID) buf) evJson));
      for_each (send_to_recipient evJson) l
  | Websocket_GracefulShutdown =>
      _ ← modify set_graceful;
      out StopListening
  end.

(** [asyncCb], with what it takes from the inbox. *)
Definition asyncCb (newMsgs : list MsgWebsocket) : SE websocket_state () :=
  for_each websocket_msg newMsgs.
End websocket.
