(* ===== verification/WebsocketTheorems.v ===== *)
(** The websocket thread routes messages to the right clients.

    [ws_spec] is what the relay's other threads rely on: the clients in the
    order they came, each with its own id for ever.  [websocket_refines] shows
    that the thread's tables, pointers and shared buffer implement it. *)

From S2P Require Import Prelude Bytes Json Hex Config EventParse Subscription StateExn Plugin RelayServer.
From S2P Require Import RelayWebsocket.
From stdpp Require Import fin_maps.

(** ** The specification *)

Record client := mk_client { cl_ws : N; cl_ip : bytes; cl_open : bool }.

Record ws_spec := mk_spec {
  clients : list client;          (* the client with id n + 1 is at position n *)
  closing : bool;
  traffic : list ws_call;
  stopped : bool;
}.

(** What the library reports, and what the other threads post. *)
Inductive ws_event :=
  | Opened (ws : N) (req : HttpRequest)
  | Left (ws : N)
  | Said (ws : N) (message : bytes) (compressedSize : N)
  | Posted (newMsgs : list MsgWebsocket)
  | Requested (req : HttpRequest).

Definition conn_id (i : nat) : N := N.of_nat (S i).

Definition is_open (ws : N) (c : client) : Prop := cl_ws c = ws ∧ cl_open c = true.

#[export] Instance is_open_dec ws c : Decision (is_open ws c).
Proof. unfold is_open. apply _. Defined.

Definition to_client (cs : list client) (send : N → bytes → ws_call) (connId : N) (payload : bytes)
    : list ws_call :=
  if decide (connId = 0%N) then [] else
  match cs !! Nat.pred (N.to_nat connId) with
  | Some c => if cl_open c then [send (cl_ws c) payload] else []
  | None => []
  end.

Definition posted (cs : list client) (m : MsgWebsocket) : list ws_call :=
  match m with
  | Websocket_Send connId payload => to_client cs WsText connId payload
  | Websocket_SendBinary connId payload => to_client cs WsBinary connId payload
  | Websocket_SendEventToBatch l evJson =>
      l ≫= λ item : ConnIdSubId, to_client cs WsText item.1 (event_payload item.2 evJson)
  | Websocket_GracefulShutdown => [StopListening]
  end.

Definition is_shutdown (m : MsgWebsocket) : bool :=
  match m with Websocket_GracefulShutdown => true | _ => false end.

Definition none_open (cs : list client) : bool := bool_decide (Forall (λ c, cl_open c = false) cs).

Section spec.
Context `{!InetPton} (address : N → bytes).

Definition spec_step (st : ws_spec) (we : WebsocketConfig * ws_event) : ws_spec :=
  let '(wc, e) := we in
  let cs := clients st in
  if stopped st then st else
  match e with
  | Opened ws req =>
      mk_spec (cs ++ [mk_client ws (client_address address wc req ws) true]) (closing st)
        (traffic st ++ if relay__enableTcpKeepalive wc then [SetKeepalive ws] else []) false
  | Left ws =>
      match list_find (is_open ws) cs with
      | Some (i, c) =>
          let cs := <[i := mk_client ws (cl_ip c) false]> cs in
          mk_spec cs (closing st)
            (traffic st ++ [ToIngester (conn_id i) (Ingester_CloseConn (conn_id i))])
            (closing st && none_open cs)
      | None => st
      end
  | Said ws message _ =>
      match list_find (is_open ws) cs with
      | Some (i, c) =>
          mk_spec cs (closing st)
            (traffic st ++ [ToIngester (conn_id i) (Ingester_ClientMessage
                (mk_client_message (conn_id i) (cl_ip c) message None))]) false
      | None => st
      end
  | Posted msgs =>
      mk_spec cs (closing st || existsb is_shutdown msgs) (traffic st ++ (msgs ≫= posted cs)) false
  | Requested _ => st
  end.

Definition spec_run (tr : list (WebsocketConfig * ws_event)) : ws_spec :=
  foldl spec_step (mk_spec [] false [] false) tr.

(** What the library keeps to: a websocket is opened once, then speaks, then
    leaves.  The other threads' subscription ids fit the buffer. *)
Definition ids_fit (m : MsgWebsocket) : Prop :=
  match m with
  | Websocket_SendEventToBatch l _ =>
      Forall (λ item : ConnIdSubId, length (SubId_sv item.2) ≤ MAX_SUBID) l
  | _ => True
  end.

Definition legit (st : ws_spec) (e : ws_event) : Prop :=
  match e with
  | Opened ws _ => list_find (is_open ws) (clients st) = None
  | Left ws | Said ws _ _ => is_Some (list_find (is_open ws) (clients st))
  | Posted msgs => Forall ids_fit msgs
  | Requested _ => True
  end.

Fixpoint legit_run (st : ws_spec) (tr : list (WebsocketConfig * ws_event)) : Prop :=
  match tr with
  | [] => True
  | (wc, e) :: tr => legit st e ∧ legit_run (spec_step st (wc, e)) tr
  end.
End spec.

(** ** The thread implements it *)

Definition no_page (c : ws_call) : Prop := match c with HttpWrite _ => False | _ => True end.

#[export] Instance no_page_dec c : Decision (no_page c).
Proof. destruct c; apply _. Defined.

Section websocket.
Context `{!EventLibs, !JsonParser, !PluginOS, !InetPton, !RelayBuild} (cfg : Config).
Context (curr_time_us : nat → N) (compressed_size : N → bytes → N) (address : N → bytes).
(** The library's addresses are those of IPv4 or IPv6. *)
Context (address_length : ∀ ws, length (address ws) = 4 ∨ length (address ws) = 16).

Definition ws_step (we : WebsocketConfig * ws_event) : SE websocket_state () :=
  let '(wc, e) := we in
  match e with
  | Opened ws req => onConnection curr_time_us address wc ws req
  | Left ws => onDisconnection ws
  | Said ws message compressedSize => onMessage2 ws message compressedSize
  | Posted newMsgs => asyncCb compressed_size newMsgs
  | Requested req => onHttpRequest cfg wc req
  end.

Definition ip_ok (ip : bytes) : Prop := length ip = 4 ∨ length ip = 16.

Record ws_inv (st : ws_spec) (s : websocket_state) : Prop := {
  wi_next : nextConnectionId s = conn_id (length (clients st));
  wi_open : ∀ i c, clients st !! i = Some c → cl_open c = true →
    connIdToConnection s !! conn_id i = Some (cl_ws c) ∧
    ∃ d, heap s !! cl_ws c = Some d ∧ c_connId d = conn_id i ∧ websocket d = cl_ws c ∧
      c_ipAddr d = cl_ip c;
  wi_map : ∀ id ws, connIdToConnection s !! id = Some ws →
    ∃ i c, id = conn_id i ∧ clients st !! i = Some c ∧ is_open ws c;
  wi_ip : Forall (λ c, ip_ok (cl_ip c)) (clients st);
  wi_closing : gracefulShutdown s = closing st;
  wi_traffic : filter no_page (ws_out s) = traffic st;
}.

Definition adds (st : ws_spec) (cs : list ws_call) : ws_spec :=
  mk_spec (clients st) (closing st) (traffic st ++ cs) (stopped st).

Lemma adds_nil st : adds st [] = st.
Proof. destruct st. unfold adds. simpl. by rewrite app_nil_r. Qed.

Lemma adds_app st a b : adds (adds st a) b = adds st (a ++ b).
Proof. unfold adds. simpl. by rewrite app_assoc. Qed.

Lemma conn_id_inj i j : conn_id i = conn_id j → i = j.
Proof. unfold conn_id. lia. Qed.

Lemma conn_id_pred i : Nat.pred (N.to_nat (conn_id i)) = i.
Proof. unfold conn_id. lia. Qed.

Lemma inv_out st s c : no_page c → ws_inv st s → ws_inv (adds st [c]) (add_out c s).
Proof.
  intros Hc []. split; simpl; try done.
  rewrite filter_app, wi_traffic0, filter_cons, decide_True by done. done.
Qed.

Lemma inv_page st s p : ws_inv st s → ws_inv st (add_out (HttpWrite p) s).
Proof.
  intros []. split; simpl; try done.
  rewrite filter_app, wi_traffic0, filter_cons, decide_False by (by intros []). apply app_nil_r.
Qed.

(** Two open clients do not share a websocket. *)
Lemma inv_unique st s i j c d :
  ws_inv st s → clients st !! i = Some c → clients st !! j = Some d →
  cl_open c = true → cl_open d = true → cl_ws c = cl_ws d → i = j.
Proof.
  intros Hi Hc Hd Oc Od Hw. destruct (wi_open _ _ Hi i c Hc Oc) as (_ & x & Hx & Ex & _).
  destruct (wi_open _ _ Hi j d Hd Od) as (_ & y & Hy & Ey & _). apply conn_id_inj. congruence.
Qed.

(** Statistics do not matter. *)
Lemma inv_stats st s ws c c' :
  ws_inv st s → heap s !! ws = Some c → c_connId c' = c_connId c → websocket c' = websocket c →
  c_ipAddr c' = c_ipAddr c → ws_inv st (set_conns (<[ws := c']> (heap s)) (connIdToConnection s) s).
Proof.
  intros [] Hc E1 E2 E3. split; simpl; try done. intros i d Hd Ho.
  destruct (wi_open0 i d Hd Ho) as (Hm & x & Hx & Hrest). split; [done|].
  destruct (decide (ws = cl_ws d)) as [->|Hn].
  - exists c'. rewrite lookup_insert_eq. assert (x = c) as -> by congruence.
    split; [done|]. by rewrite E1, E2, E3.
  - exists x. by rewrite lookup_insert_ne.
Qed.

Lemma doSend_run st s send connId payload :
  (∀ w p, no_page (send w p)) → ws_inv st s →
  ∃ s', doSend compressed_size send connId payload s = (Ok tt, s') ∧
    ws_inv (adds st (to_client (clients st) send connId payload)) s' ∧ tempBuf s' = tempBuf s.
Proof.
  intros Hp Hi. unfold doSend, mbind, SE_bind, gets.
  destruct (connIdToConnection s !! connId) as [p|] eqn:Hm.
  - destruct (wi_map _ _ Hi _ _ Hm) as (i & c & -> & Hc & Hws & Ho).
    destruct (wi_open _ _ Hi i c Hc Ho) as (_ & d & Hd & E1 & E2 & E3). rewrite Hws in Hd, E2.
    unfold user_data, mbind, SE_bind, gets. rewrite Hd. unfold mret, SE_ret, out, modify.
    eexists. split; [reflexivity|]. split; [|done]. unfold to_client.
    rewrite decide_False by (unfold conn_id; lia). rewrite conn_id_pred, Hc, Ho, Hws, E2.
    apply (inv_stats _ (add_out (send p payload) s) p d); try done. by apply inv_out.
  - exists s. split; [done|]. split; [|done]. unfold to_client. case_decide as H0'; [by rewrite adds_nil|].
    destruct (clients st !! _) as [c|] eqn:Hc; [|by rewrite adds_nil].
    destruct (cl_open c) eqn:Ho; [|by rewrite adds_nil].
    destruct (wi_open _ _ Hi _ c Hc Ho) as [Hcontra _]. unfold conn_id in Hcontra.
    replace (N.of_nat (S (Nat.pred (N.to_nat connId)))) with connId in Hcontra by lia. congruence.
Qed.

Lemma inv_tempBuf st s b : ws_inv st s → ws_inv st (set_tempBuf b s).
Proof. by intros []. Qed.

Lemma recipients_run evJson l st s :
  Forall (λ item : ConnIdSubId, length (SubId_sv item.2) ≤ MAX_SUBID) l →
  buffer_ok evJson (tempBuf s) → ws_inv st s →
  ∃ s', for_each (send_to_recipient compressed_size evJson) l s = (Ok tt, s') ∧
    ws_inv (adds st (l ≫= λ item : ConnIdSubId,
      to_client (clients st) WsText item.1 (event_payload item.2 evJson))) s'.
Proof.
  intros Hl. revert st s. induction Hl as [|item l Hitem Hl IH]; intros st s Hbuf Hi.
  { exists s. split; [done|]. by rewrite adds_nil. }
  destruct (batch_send_spec evJson (tempBuf s) item Hitem Hbuf) as [Hok Hsent].
  cbn [for_each]. unfold mbind at 1, SE_bind at 1. unfold send_to_recipient at 1, mbind, SE_bind, gets, modify.
  destruct (batch_send evJson (tempBuf s) item) as [buf [id payload]]. simpl in Hok, Hsent.
  injection Hsent as -> ->.
  destruct (doSend_run st (set_tempBuf buf s) WsText item.1 (event_payload item.2 evJson))
    as (s1 & E1 & Hi1 & Hb1); [done|by apply inv_tempBuf|]. rewrite E1.
  destruct (IH _ s1 ltac:(by rewrite Hb1) Hi1) as (s2 & E2 & Hi2). exists s2. split; [done|].
  by rewrite adds_app in Hi2.
Qed.

Lemma length_resize n buf : length (resize_buf n buf) = n.
Proof. unfold resize_buf. rewrite length_app, length_take, length_replicate. lia. Qed.

Definition closes (st : ws_spec) (b : bool) : ws_spec :=
  mk_spec (clients st) (closing st || b) (traffic st) (stopped st).

Lemma websocket_msg_run st s m :
  ids_fit m → ws_inv st s →
  ∃ s', websocket_msg compressed_size m s = (Ok tt, s') ∧
    ws_inv (closes (adds st (posted (clients st) m)) (is_shutdown m)) s'.
Proof.
  assert (∀ st, closes st false = st) as Hcl.
  { intros []. unfold closes. simpl. by rewrite orb_false_r. }
  intros Hfit Hi. destruct m as [id p|id p|l ev|]; cbn [websocket_msg posted is_shutdown]; rewrite ?Hcl.
  - destruct (doSend_run st s WsText id p) as (s' & E & Hi' & _); [done..|]. by exists s'.
  - destruct (doSend_run st s WsBinary id p) as (s' & E & Hi' & _); [done..|]. by exists s'.
  - unfold mbind, SE_bind, gets, modify. apply recipients_run; [done| |by apply inv_tempBuf].
    eexists. split; [apply length_resize|done].
  - unfold mbind, SE_bind, modify, out. eexists. split; [reflexivity|].
    assert (ws_inv (closes st true) (set_graceful s)) as Hg.
    { destruct Hi. split; simpl; try done. by rewrite orb_true_r. }
    by apply (inv_out _ _ StopListening I) in Hg.
Qed.

Lemma asyncCb_run st s msgs :
  Forall ids_fit msgs → ws_inv st s →
  ∃ s', asyncCb compressed_size msgs s = (Ok tt, s') ∧
    ws_inv (closes (adds st (msgs ≫= posted (clients st))) (existsb is_shutdown msgs)) s'.
Proof.
  unfold asyncCb. intros Hl. revert st s. induction Hl as [|m msgs Hm Hl IH]; intros st s Hi.
  { exists s. split; [done|]. rewrite adds_nil. destruct st. unfold closes. simpl. by rewrite orb_false_r. }
  destruct (websocket_msg_run st s m Hm Hi) as (s1 & E1 & Hi1).
  destruct (IH _ s1 Hi1) as (s2 & E2 & Hi2). exists s2. cbn [for_each]. unfold mbind, SE_bind.
  rewrite E1. split; [done|]. unfold closes, adds in *. cbn [clients closing traffic stopped] in *.
  by rewrite <-app_assoc, <-orb_assoc in Hi2.
Qed.

(** ** What the library reports *)

Lemma renderIP_ok ip : ip_ok ip → ∃ b, renderIP ip = Ok b.
Proof. unfold renderIP. intros [-> | ->]; by eexists. Qed.

Lemma client_address_ok wc req ws : ip_ok (client_address address wc req ws).
Proof.
  unfold client_address. set (ip := if _ =? 0 then [] else _).
  destruct (length ip =? 0) eqn:Hl; [apply address_length|]. revert Hl. unfold ip.
  case_match; [done|]. unfold parseIP. set (v6 := existsb _ _).
  destruct (inet_pton v6 _) as [b|] eqn:Hb; [|done]. intros _.
  apply inet_pton_length in Hb. unfold ip_ok. simpl. destruct v6; auto.
Qed.

Lemma inv_client st s i c :
  ws_inv st s → clients st !! i = Some c → is_open (cl_ws c) c →
  ∃ d, heap s !! cl_ws c = Some d ∧ c_connId d = conn_id i ∧ c_ipAddr d = cl_ip c.
Proof.
  intros Hi Hc [_ Ho]. destruct (wi_open _ _ Hi i c Hc Ho) as (_ & d & ? & ? & _ & ?). by exists d.
Qed.

Lemma inv_empty st s :
  ws_inv st s → bool_decide (connIdToConnection s = ∅) = none_open (clients st).
Proof.
  intros Hi. apply bool_decide_ext. rewrite Forall_lookup. split; [intros He i c Hc|intros Hn].
  - destruct (cl_open c) eqn:Ho; [|done].
    destruct (wi_open _ _ Hi i c Hc Ho) as [Hm _]. by rewrite He in Hm.
  - apply map_eq. intros id. rewrite lookup_empty. apply eq_None_not_Some. intros [ws Hm].
    destruct (wi_map _ _ Hi _ _ Hm) as (i & c & _ & Hc & _ & Ho).
    specialize (Hn i c Hc). congruence.
Qed.

Lemma opened_run st s wc ws req :
  list_find (is_open ws) (clients st) = None → (conn_id (length (clients st)) < MAX_U64)%N →
  ws_inv st s →
  ∃ s', onConnection curr_time_us address wc ws req s = (Ok tt, s') ∧
    ws_inv (mk_spec (clients st ++ [mk_client ws (client_address address wc req ws) true]) (closing st)
      (traffic st ++ if relay__enableTcpKeepalive wc then [SetKeepalive ws] else []) (stopped st)) s'.
Proof.
  intros Hfree%list_find_None Hroom Hi. pose proof (wi_next _ _ Hi) as Hn.
  pose proof (client_address_ok wc req ws) as Hip. destruct (renderIP_ok _ Hip) as [txt Htxt].
  set (n := length (clients st)) in *. set (ip := client_address _ _ _ _) in *.
  assert (connIdToConnection s !! conn_id n = None) as Hnone.
  { apply eq_None_not_Some. intros [w Hw]. destruct (wi_map _ _ Hi _ _ Hw) as (i & c & E & Hc & _).
    apply conn_id_inj in E as <-. apply lookup_lt_Some in Hc. unfold n in Hc. lia. }
  unfold onConnection, mbind, SE_bind, gets, modify, ws_clock, lift, out.
  cbn [c_ipAddr connIdToConnection set_next heap ws_tick]. fold ip. rewrite Htxt, Hn, Hnone.
  set (d := mk_ws_connection ws _ _ ip 0 0 0 0).
  set (s1 := set_conns _ _ _).
  assert (ws_inv (mk_spec (clients st ++ [mk_client ws ip true]) (closing st) (traffic st) (stopped st)) s1)
    as Hi1.
  { split; simpl.
    - rewrite length_app. unfold u64_add, u64_wrap, conn_id in *. simpl. fold n.
      rewrite N.mod_small; unfold MAX_U64, two64 in *; lia.
    - intros i c Hc Ho. apply lookup_app_Some in Hc as [Hc|[Hge Hc]].
      + destruct (wi_open _ _ Hi i c Hc Ho) as (Hm & x & Hx & Hrest).
        assert (cl_ws c ≠ ws) as Hne.
        { intros E. rewrite Forall_lookup in Hfree. by apply (Hfree i c Hc). }
        apply lookup_lt_Some in Hc. rewrite lookup_insert_ne by (intros E%conn_id_inj; unfold n in E; lia).
        split; [done|]. exists x. by rewrite lookup_insert_ne.
      + apply list_lookup_singleton_Some in Hc as [Hz <-]. assert (i = n) as -> by (unfold n; lia).
        simpl. rewrite !lookup_insert_eq. split; [done|]. by exists d.
    - intros id w. destruct (decide (id = conn_id n)) as [->|Hne].
      + rewrite lookup_insert_eq. intros [= <-]. exists n, (mk_client ws ip true). split; [done|].
        split; [|done]. rewrite lookup_app_r by (unfold n; lia). by replace (n - _) with 0 by (unfold n; lia).
      + rewrite lookup_insert_ne by done. intros (i & c & -> & Hc & Ho)%(wi_map _ _ Hi).
        exists i, c. split; [done|]. split; [|done]. by apply lookup_app_l_Some.
    - apply Forall_app. split; [apply Hi|]. by constructor.
    - apply Hi.
    - apply Hi. }
  case_match.
  - eexists. split; [reflexivity|]. by apply (inv_out _ _ (SetKeepalive ws) I) in Hi1.
  - exists s1. split; [done|]. by rewrite app_nil_r.
Qed.

Lemma left_run st s ws i c :
  clients st !! i = Some c → is_open ws c → ws_inv st s →
  ∃ s', onDisconnection ws s =
      (if closing st && none_open (<[i := mk_client ws (cl_ip c) false]> (clients st))
       then Throw (process_exit 0) else Ok tt, s') ∧
    ∀ b, ws_inv (mk_spec (<[i := mk_client ws (cl_ip c) false]> (clients st)) (closing st)
      (traffic st ++ [ToIngester (conn_id i) (Ingester_CloseConn (conn_id i))]) b) s'.
Proof.
  intros Hc [Hw Ho] Hi. destruct (wi_open _ _ Hi i c Hc Ho) as (Hm & d & Hd & E1 & E2 & E3).
  rewrite Hw in Hd, Hm, E2. destruct (renderIP_ok (cl_ip c)) as [txt Htxt].
  { pose proof (wi_ip _ _ Hi) as Hall. rewrite Forall_lookup in Hall. by apply (Hall i c). }
  unfold onDisconnection, user_data, mbind, SE_bind, gets, lift, out, modify, mret, SE_ret.
  rewrite Hd. cbv beta iota. rewrite E3, Htxt, E1. cbv beta iota. cbn [heap connIdToConnection add_out].
  set (cs := <[i := _]> (clients st)). set (s1 := set_conns _ _ _).
  assert (∀ b, ws_inv (mk_spec cs (closing st)
      (traffic st ++ [ToIngester (conn_id i) (Ingester_CloseConn (conn_id i))]) b) s1) as Hi1.
  { pose proof (inv_out st s (ToIngester (conn_id i) (Ingester_CloseConn (conn_id i))) I Hi) as Hi0.
    intros b. split; simpl.
    - unfold cs. rewrite length_insert. apply Hi.
    - intros j x Hx Hox. unfold cs in Hx. apply list_lookup_insert_Some in Hx as [(-> & <- & _)|[Hne Hx]]; [done|].
      destruct (wi_open _ _ Hi j x Hx Hox) as (Hm' & y & Hy & Hrest).
      assert (cl_ws x ≠ ws) as Hne'.
      { intros E. apply Hne. apply (inv_unique st s i j c x); try done. by rewrite Hw. }
      rewrite lookup_delete_ne by (intros E%conn_id_inj; congruence). split; [done|].
      exists y. by rewrite lookup_delete_ne.
    - intros id w [Hid (j & x & -> & Hx & Hox)%(wi_map _ _ Hi)]%lookup_delete_Some.
      exists j, x. split; [done|]. split; [|done]. unfold cs. rewrite list_lookup_insert_ne; [done|].
      congruence.
    - unfold cs. apply Forall_insert; [apply Hi|]. pose proof (wi_ip _ _ Hi) as Hall.
      rewrite Forall_lookup in Hall. by apply (Hall i c).
    - apply Hi.
    - apply Hi0. }
  exists s1. split; [|done]. specialize (Hi1 false). cbn [gracefulShutdown s1 set_conns add_out].
  pose proof (wi_closing _ _ Hi) as ->. rewrite (inv_empty _ _ Hi1). cbn [clients].
  by destruct (closing st && none_open cs).
Qed.

Lemma said_run st s ws m n i c :
  clients st !! i = Some c → is_open ws c → ws_inv st s →
  ∃ s', onMessage2 ws m n s = (Ok tt, s') ∧
    ws_inv (adds st [ToIngester (conn_id i)
      (Ingester_ClientMessage (mk_client_message (conn_id i) (cl_ip c) m None))]) s'.
Proof.
  intros Hc [Hw Ho] Hi. destruct (wi_open _ _ Hi i c Hc Ho) as (Hm & d & Hd & E1 & E2 & E3).
  rewrite Hw in Hd. unfold onMessage2, user_data, mbind, SE_bind, gets, out, modify, mret, SE_ret.
  rewrite Hd. cbv beta iota. rewrite E1, E3. eexists. split; [reflexivity|]. apply inv_out; [done|].
  by apply (inv_stats st s ws d).
Qed.

Lemma requested_run st s wc req : ws_inv st s →
  ∃ s', onHttpRequest cfg wc req s = (Ok tt, s') ∧ ws_inv st s'.
Proof.
  intros Hi. unfold onHttpRequest, mbind, SE_bind, gets, modify, out.
  repeat case_decide; eexists; (split; [reflexivity|]); apply inv_page; by destruct Hi.
Qed.

(** ** Runs *)

Lemma ws_step_run st s we :
  stopped st = false → legit st we.2 → (conn_id (length (clients st)) < MAX_U64)%N → ws_inv st s →
  ∃ s', ws_step we s = (if stopped (spec_step address st we) then Throw (process_exit 0) else Ok tt, s') ∧
    ws_inv (spec_step address st we) s'.
Proof.
  intros Hst Hl Hroom Hi. destruct we as [wc [ws req|ws|ws m n|msgs|req]]; cbn [ws_step snd legit] in *.
  - destruct (opened_run st s wc ws req Hl Hroom Hi) as (s' & E & Hi'). exists s'.
    cbn [spec_step]. rewrite Hst in Hi' |- *. by rewrite E.
  - destruct Hl as [[i c] Hf]. pose proof Hf as (Hc & Ho & _)%list_find_Some.
    destruct (left_run st s ws i c Hc Ho Hi) as (s' & E & Hi'). exists s'.
    cbn [spec_step]. rewrite Hst, Hf. cbn [stopped]. by rewrite E.
  - destruct Hl as [[i c] Hf]. pose proof Hf as (Hc & Ho & _)%list_find_Some.
    destruct (said_run st s ws m n i c Hc Ho Hi) as (s' & E & Hi'). exists s'.
    cbn [spec_step]. rewrite Hst, Hf. unfold adds in Hi'. rewrite Hst in Hi'. by rewrite E.
  - destruct (asyncCb_run st s msgs Hl Hi) as (s' & E & Hi'). exists s'.
    cbn [spec_step]. rewrite Hst. unfold closes, adds in Hi'. cbn in Hi'. rewrite Hst in Hi'. by rewrite E.
  - destruct (requested_run st s wc req Hi) as (s' & E & Hi'). exists s'.
    cbn [spec_step]. rewrite Hst. by rewrite E, Hst.
Qed.

Lemma spec_step_length st we : length (clients (spec_step address st we)) ≤ S (length (clients st)).
Proof.
  destruct we as [wc e]. cbn [spec_step]. destruct (stopped st); [lia|].
  destruct e; cbn [clients]; rewrite ?length_app; simpl; try lia;
    destruct (list_find _ _) as [[i c]|]; cbn [clients]; rewrite ?length_insert; lia.
Qed.

Lemma spec_run_stopped tr st : stopped st = true → foldl (spec_step address) st tr = st.
Proof.
  intros Hs. induction tr as [|[wc e] tr IH]; [done|]. cbn [foldl]. cbn [spec_step]. by rewrite Hs.
Qed.

Lemma ws_run tr st s :
  stopped st = false → legit_run address st tr →
  (N.of_nat (length (clients st) + length tr) < MAX_U64)%N → ws_inv st s →
  ∃ s', for_each ws_step tr s =
      (if stopped (foldl (spec_step address) st tr) then Throw (process_exit 0) else Ok tt, s') ∧
    ws_inv (foldl (spec_step address) st tr) s'.
Proof.
  revert st s. induction tr as [|we tr IH]; intros st s Hst Hl Hroom Hi.
  { exists s. cbn [foldl]. by rewrite Hst. }
  destruct we as [wc e]. destruct Hl as [He Hl]. cbn [length] in Hroom.
  destruct (ws_step_run st s (wc, e) Hst He) as (s1 & E1 & Hi1); [unfold conn_id; lia|done|].
  pose proof (spec_step_length st (wc, e)) as Hlen. cbn [foldl for_each].
  unfold mbind, SE_bind. rewrite E1. set (st1 := spec_step address st (wc, e)) in *.
  destruct (stopped st1) eqn:Hst1.
  - exists s1. rewrite spec_run_stopped by done. by rewrite Hst1.
  - apply IH; try done. lia.
Qed.

Lemma start_inv : ws_inv (mk_spec [] false [] false) start_websocket.
Proof. by split. Qed.

(** C11: the websocket thread implements [ws_spec].  Whatever connects, speaks,
    leaves or asks for a page, and whatever the other threads post, the thread
    never fails; each connection gets an id that no other ever has; a message
    for an id goes to its client and, once it has left, nowhere; what a client
    says and that it left reaches the ingester under its id, in order; and the
    process ends exactly when the last client leaves during a shutdown. *)
Theorem websocket_refines tr :
  (N.of_nat (length tr) < MAX_U64)%N → legit_run address (mk_spec [] false [] false) tr →
  ∃ s, for_each ws_step tr start_websocket =
      (if stopped (spec_run address tr) then Throw (process_exit 0) else Ok tt, s) ∧
    filter no_page (ws_out s) = traffic (spec_run address tr).
Proof.
  intros Hroom Hl.
  destruct (ws_run tr (mk_spec [] false [] false) start_websocket eq_refl Hl Hroom start_inv)
    as (s & E & Hi).
  exists s. split; [exact E|apply Hi].
Qed.

Lemma legit_run_app st tr1 tr2 :
  legit_run address st (tr1 ++ tr2) →
  legit_run address st tr1 ∧ legit_run address (foldl (spec_step address) st tr1) tr2.
Proof.
  revert st. induction tr1 as [|[wc e] tr1 IH]; intros st; [by split|].
  intros [He [H1' H2']%IH]. by split.
Qed.

(** Not one client comes. *)
Definition no_new (we : WebsocketConfig * ws_event) : Prop :=
  match we.2 with Opened _ _ => False | _ => True end.

Lemma none_open_find ws cs : none_open cs = true → list_find (is_open ws) cs = None.
Proof.
  intros Hn%bool_decide_eq_true. apply list_find_None. eapply Forall_impl; [exact Hn|].
  intros c Hc [_ Ho]. congruence.
Qed.

Lemma spec_idle tr st :
  stopped st = false → none_open (clients st) = true → legit_run address st tr → Forall no_new tr →
  stopped (foldl (spec_step address) st tr) = false.
Proof.
  intros Hst Hn Hl Htr. revert st Hst Hn Hl. induction Htr as [|[wc e] tr He Htr IH]; [done|].
  intros st Hst Hn [Hle Hl]. cbn [foldl].
  assert (stopped (spec_step address st (wc, e)) = false ∧
    none_open (clients (spec_step address st (wc, e))) = true) as [H1' H2']; [|by apply IH].
  destruct e as [ws req|ws|ws m n|msgs|req]; try done; cbn [spec_step legit] in *; rewrite Hst; try done;
    by rewrite none_open_find in Hle by done; destruct Hle.
Qed.

(** A graceful shutdown without clients never ends.  Once a shutdown has
    been asked for and no client is connected, the websocket thread goes on
    serving whatever happens (it has stopped listening, so no client comes):
    only the departure of a client ends the process. *)
Theorem idle_shutdown_never_ends tr1 tr2 :
  (N.of_nat (length (tr1 ++ tr2)) < MAX_U64)%N →
  legit_run address (mk_spec [] false [] false) (tr1 ++ tr2) →
  let st := spec_run address tr1 in
  stopped st = false → closing st = true → none_open (clients st) = true → Forall no_new tr2 →
  ∃ s, for_each ws_step (tr1 ++ tr2) start_websocket = (Ok tt, s) ∧ gracefulShutdown s = true.
Proof.
  intros Hroom Hl st Hst Hc Hn Htr. pose proof Hl as [_ Hl2]%legit_run_app.
  destruct (ws_run (tr1 ++ tr2) (mk_spec [] false [] false) start_websocket eq_refl Hl Hroom start_inv)
    as (s & E & Hi). exists s.
  pose proof (spec_idle tr2 st Hst Hn Hl2 Htr) as Hend. rewrite foldl_app in E, Hi.
  fold (spec_run address tr1) in E, Hi. fold st in E, Hi. rewrite Hend in E. split; [exact E|].
  rewrite (wi_closing _ _ Hi). clearbody st. clear -Hc. revert st Hc. induction tr2 as [|[wc e] tr IH]; [done|].
  intros st Hc. cbn [foldl]. apply IH. cbn [spec_step]. destruct (stopped st); [done|].
  destruct e as [ws req|ws|ws m n|msgs|req]; try done; cbn [closing].
  1, 2: by destruct (list_find _ _) as [[i c]|].
  by rewrite Hc.
Qed.
End websocket.

(** ** Pages *)

Section pages.
Context `{!EventLibs, !JsonParser, !PluginOS, !InetPton, !RelayBuild} (cfg : Config).

(** Everyone is given the first visitor's host.  The nodeinfo page is
    rendered once per version of the configuration, with the [Host] header of
    the request that needed it; any later request for it, whatever its host,
    gets the same links. *)
Theorem nodeinfo_first_host wc req1 req2 s :
  req_url req1 = #"/.well-known/nodeinfo" → req_url req2 = #"/.well-known/nodeinfo" →
  ver (nodeInfoPage s) ≠ version wc →
  let page1 := preGenerateHttpResponse #"application/json"
    (json_to_string (nodeinfo_json (req_header req1 #"host"))) in
  ∃ s', (_ ← onHttpRequest cfg wc req1; onHttpRequest cfg wc req2) s = (Ok tt, s') ∧
    ws_out s' = ws_out s ++ [HttpWrite page1; HttpWrite page1].
Proof.
  intros Hu1 Hu2 Hv page1. unfold onHttpRequest, mbind, SE_bind, gets, out, modify.
  rewrite Hu1, Hu2. rewrite !(decide_True (P := #"/.well-known/nodeinfo" = #"/.well-known/nodeinfo")) by done.
  cbn [nodeInfoPage add_out set_pages].
  unfold getNodeInfoHttpResponse, refresh. rewrite (decide_False (P := ver (nodeInfoPage s) = _)) by done.
  fold page1. cbn [ver rendered]. rewrite decide_True by done. eexists. split; [reflexivity|].
  cbn. by rewrite <-app_assoc.
Qed.
End pages.
