(* ===== verification/WriterTheorems.v ===== *)
(** Every event the writer takes is answered once, and truthfully. *)

From S2P Require Import Prelude Bytes Json Hex PackedEvent Filters Config EventParse Db.
From S2P Require Import NegentropyCache EventWriter EventStore StoreTheorems Payload StoreHistory.
From S2P Require Import StateExn Plugin RelayServer RelayWriter.

(** ** What a batch leaves in the store *)

(** The events of a batch, each with what became of it, in the order they are
    written. *)
Definition entries : Type := list (event * EventToWrite).

(** A later event of the batch took the place of [o], or deleted it. *)
Definition displaced_by (later : entries) (o : event) : Prop :=
  ∃ x xv, (x, xv) ∈ later ∧ status xv = Written ∧
    (addressable x ∧ same_address x o ∨ deletes x o).

(** [o] is stored after the batch, unless the batch itself displaced it. *)
Definition survives (later : entries) (m' : gmap N event) (o : event) : Prop :=
  (∃ n, m' !! n = Some o) ∨ displaced_by later o.

(** [o] was stored before the batch, or written by it before. *)
Definition held_before (m : gmap N event) (before : entries) (o : event) : Prop :=
  (∃ n, m !! n = Some o) ∨ ∃ ov, (o, ov) ∈ before ∧ status ov = Written.

(** The batch refused an earlier event with this id. *)
Definition refused_before (before : entries) (i : bytes) : Prop :=
  ∃ x xv, (x, xv) ∈ before ∧ ev_id x = i ∧ (status xv = Deleted ∨ status xv = Replaced).

(** What justifies to tell the sender of [e] of a success, when [e] stands
    between [before] and [later] in a batch that takes the store from [m] to
    [m']: it was written, and is stored; or it was found a duplicate, and an
    event with its id was stored already, and is - or it comes behind a copy
    that was refused. *)
Definition entitled (m : gmap N event) (before : entries) (e : event) (s : EventWriteStatus)
    (later : entries) (m' : gmap N event) : Prop :=
  s = Written ∧ survives later m' e ∨
  s = Duplicate ∧
    ((∃ o, ev_id o = ev_id e ∧ held_before m before o ∧ survives later m' o) ∨
     refused_before before (ev_id e)).

#[export] Instance same_address_dec e o : Decision (same_address e o).
Proof.
  unfold same_address.
  destruct (decide (ev_pubkey o = ev_pubkey e ∧ ev_kind o = ev_kind e)) as [[H1 H2]|Hn];
    [|right; naive_solver].
  destruct (d_tag e) as [x|]; [|right; naive_solver].
  destruct (decide (d_tag o = Some x)); [left; naive_solver|right; naive_solver].
Defined.

#[export] Instance deletes_dec e o : Decision (deletes e o).
Proof. unfold deletes, deletion_for. apply _. Defined.

#[export] Instance addressable_dec e : Decision (addressable e).
Proof. unfold addressable. apply _. Defined.

Lemma write_spec_survives prevId m e ev m1 n o :
  write_spec prevId m e (status ev) (levId ev) m1 → m !! n = Some o →
  m1 !! n = Some o ∨ status ev = Written ∧ (addressable e ∧ same_address e o ∨ deletes e o).
Proof.
  intros Hw Ho. inversion Hw as [| | |n' m2 _ _ _ _ _ _ Hm Hst]; subst; try by left.
  destruct (decide (addressable e ∧ same_address e o ∨ deletes e o)) as [Hd|Hd]; [by right|].
  left. apply Hm. right. split; [done|]. naive_solver.
Qed.

Lemma write_specs_survives prevId m l m' n o :
  write_specs prevId m l m' → m !! n = Some o → survives l m' o.
Proof.
  intros Hws. induction Hws as [|prevId m m1 m2 e ev l Hw Hws IH]; intros Ho; [by left; exists n|].
  destruct (write_spec_survives _ _ _ _ _ _ _ Hw Ho) as [Hi|[Hs Hd]].
  - destruct (IH Hi) as [?|(x & xv & ? & ?)]; [by left|]. right. exists x, xv. split; [by constructor 2|done].
  - right. exists e, ev. split; [by constructor|done].
Qed.

Definition stored_as (m : gmap N event) (i : bytes) : Prop := ∃ n o, m !! n = Some o ∧ ev_id o = i.

(** What the writer knows when it comes to an event. *)
Record in_batch (m0 : gmap N event) (before : entries) (prevId : option bytes) (m : gmap N event)
    : Prop := {
  ib_held : ∀ n o, m !! n = Some o → held_before m0 before o;
  ib_prev : ∀ i, prevId = Some i → stored_as m i ∨ refused_before before i;
}.

Lemma refused_before_more before x i : refused_before before i → refused_before (before ++ [x]) i.
Proof. intros (y & yv & ? & ?). exists y, yv. split; [set_solver|done]. Qed.

Lemma held_before_more m before x o : held_before m before o → held_before m (before ++ [x]) o.
Proof. intros [?|(ov & ? & ?)]; [by left|right]. exists ov. split; [set_solver|done]. Qed.

Lemma in_batch_next m0 before prevId m e ev m1 :
  in_batch m0 before prevId m → write_spec prevId m e (status ev) (levId ev) m1 →
  in_batch m0 (before ++ [(e, ev)]) (Some (ev_id e)) m1.
Proof.
  intros [Hh Hp] Hw. remember (status ev) as st eqn:Hst. destruct Hw as [k Hdup|k|k l o|k m' _ _ _ _ _ _ Hm].
  - split; [intros; by eapply held_before_more, Hh|]. intros i [= <-].
    destruct Hdup as [?|?]; [by left|]. destruct (Hp _ H) as [?|?]; [by left|right; by apply refused_before_more].
  - split; [intros; by eapply held_before_more, Hh|]. intros i [= <-]. right. exists e, ev.
    split_and!; [set_solver|done|by left].
  - split; [intros; by eapply held_before_more, Hh|]. intros i [= <-]. right. exists e, ev.
    split_and!; [set_solver|done|by right].
  - split.
    + intros n o [[-> ->]|[Ho _]]%Hm; [|by eapply held_before_more, Hh]. right. exists ev.
      split; [set_solver|done].
    + intros i [= <-]. left. exists k, e. split; [|done]. apply Hm. by left.
Qed.

(** Every event found written or duplicate is [entitled]. *)
Lemma write_specs_entitled m0 prevId m l m' : write_specs prevId m l m' →
  ∀ before, in_batch m0 before prevId m → ∀ l1 e ev l2, l = l1 ++ (e, ev) :: l2 →
  status ev = Written ∨ status ev = Duplicate → entitled m0 (before ++ l1) e (status ev) l2 m'.
Proof.
  induction 1 as [|prevId m m1 m2 e0 ev0 l Hw Hws IH]; intros before Hb l1 e ev l2 Hl Hs.
  { by destruct l1. }
  destruct l1 as [|x l1]; [injection Hl as -> -> ->|].
  2:{ injection Hl as <- ->. rewrite cons_middle, app_assoc. by eapply IH; [by apply (in_batch_next _ _ prevId m)|..]. }
  rewrite app_nil_r. destruct Hb as [Hh Hp]. unfold entitled.
  remember (status ev) as st eqn:Hst. destruct Hw as [k Hdup|k|k lv o|k m1 _ _ _ _ _ _ Hm].
  - right. split; [done|].
    assert (stored_as m (ev_id e) ∨ refused_before before (ev_id e)) as [(n & o & Ho & Hid)|?]
      by (destruct Hdup as [?|?]; [by left|by apply Hp]).
    + left. exists o. split_and!; [done|by eapply Hh|by eapply write_specs_survives].
    + by right.
  - by destruct Hs.
  - by destruct Hs.
  - left. split; [done|]. eapply write_specs_survives; [done|]. apply (Hm k e). by left.
Qed.

Lemma in_batch_start m : in_batch m [] None m.
Proof. split; [|done]. intros n o Ho. left. by exists n. Qed.

#[export] Instance MsgWriter_eq_dec : EqDecision MsgWriter.
Proof.
  assert (EqDecision AddEvent) by (unfold EqDecision, Decision; repeat decide equality).
  solve_decision.
Defined.

Section theorems.
Context `{!Hex, !NativeU64, !GolpeKeys, !Env, !JsonParser, !WritePolicy, !Zstd} (cfg : Config).
Variable sort_events : list EventToWrite → list EventToWrite.
Variable commit : env → result env.
Variable lib_what : exn → bytes.
Context (sort_ok : ∀ l, std_sorts l (sort_events l)).
(** A transaction commits what was written or throws. *)
Context (commit_ok : ∀ d, match commit d with Ok d' => d' = d | Throw e => catchable e = true end).

(** The messages as the ingester makes them. *)
Definition msg_good (m : MsgWriter) : Prop :=
  match m with
  | Writer_AddEvent ae => (∃ e, ae_packedStr ae = encode e ∧ event_ok e) ∧
      is_ok (json_from_string (ae_jsonStr ae)) = true
  | Writer_CloseConn _ => True
  end.

(** The events of connections that did not close in this batch. *)
Definition open_events (msgs : list MsgWriter) : list AddEvent :=
  filter (λ ae, Writer_CloseConn (ae_connId ae) ∉ msgs) (omap add_event msgs).

Lemma closed_conns (msgs : list MsgWriter) c : c ∈ omap closed_conn msgs ↔ Writer_CloseConn c ∈ msgs.
Proof.
  rewrite list_elem_of_omap. split; [|by intros ?; exists (Writer_CloseConn c)].
  intros ([ae|c'] & Hin & Hc); [done|]. by injection Hc as ->.
Qed.

Lemma filter_closed_open msgs : omap add_event (filter_closed msgs) = open_events msgs.
Proof.
  unfold filter_closed, open_events. case_decide as He.
  - symmetry. apply filter_all. intros ae _ Hc%closed_conns. set_solver.
  - assert (∀ l : list MsgWriter, omap add_event (filter (λ w, still_open (list_to_set (omap closed_conn msgs)) w = true) l) =
      filter (λ ae, Writer_CloseConn (ae_connId ae) ∉ msgs) (omap add_event l)) as Hl; [|apply Hl].
    induction l as [|[ae|c] l IH]; [done| |].
    + rewrite filter_cons. cbn [still_open omap list_omap add_event]. rewrite (filter_cons _ ae).
      destruct (decide (Writer_CloseConn (ae_connId ae) ∉ msgs)) as [Hc|Hc].
      * rewrite decide_True; [by cbn [omap list_omap add_event]; rewrite IH|]. apply bool_decide_eq_true.
        by rewrite elem_of_list_to_set, closed_conns.
      * rewrite decide_False; [done|]. rewrite bool_decide_eq_true, elem_of_list_to_set, closed_conns. tauto.
    + rewrite filter_cons_False by done. exact IH.
Qed.

Definition id_hex (ae : AddEvent) : bytes := to_hex (id (mk_view (ae_packedStr ae))).

Definition reject_out (r : AddEvent * (PluginEventSifterResult * bytes)) : list call :=
  reject_calls r.1 r.2.1 r.2.2 (id_hex r.1).

(** An accepted event: the message, the event and the vector element. *)
Definition accepted : Type := AddEvent * event * EventToWrite.

Definition acc_event (a : accepted) : AddEvent := a.1.1.

Lemma acc_events (acc : list accepted) : acc_event <$> acc = acc.*1.*1.
Proof. by rewrite <-list_fmap_compose. Qed.

Record acc_ok (newMsgs : list MsgWriter) (a : accepted) : Prop := {
  ao_packed : ae_packedStr a.1.1 = encode a.1.2;
  ao_pending : pending_for a.1.2 a.2;
  ao_user : add_event_of newMsgs a.2 = Ok a.1.1;
}.

Lemma prepare_fold newMsgs l : ∀ p evs calls,
  (∀ i m, (i, m) ∈ l → newMsgs !! i = Some m) → Forall (λ im, msg_good im.2) l →
  ∃ p' acc rej, foldM (prepare_step cfg) (p, evs, calls) l =
      Ok (p', evs ++ acc.*2, calls ++ (rej ≫= reject_out)) ∧
    rej.*1 ++ (acc_event <$> acc) ≡ₚ omap add_event l.*2 ∧
    Forall (acc_ok newMsgs) acc ∧ Forall (λ r, r.2.1 ≠ Accept) rej.
Proof.
  induction l as [|[i m] l IH]; intros p evs calls Hl Hgood.
  { exists p, [], []. by rewrite !app_nil_r. }
  apply Forall_cons in Hgood as [Hm Hgood].
  assert (∀ i m, (i, m) ∈ l → newMsgs !! i = Some m) as Hl' by (intros; apply Hl; by constructor 2).
  specialize (Hl i m ltac:(constructor)).
  cbn [foldM]. rewrite fmap_cons. cbn [omap list_omap snd].
  destruct m as [ae|connId]; cbn [add_event prepare_step snd].
  2:{ cbn [mbind result_bind]. by apply IH. }
  destruct Hm as [(e & He & Hok) Hj].
  destruct (json_from_string (ae_jsonStr ae)) as [evJson|]; [|done].
  cbn [mbind result_bind fst].
  destruct (policy_accept _ evJson _ _ p) as [[res okMsg] p1].
  case_decide as Hres.
  - cbn [mbind result_bind].
    set (ev := EventToWrite_make (ae_packedStr ae) (ae_jsonStr ae) (N.of_nat i)).
    destruct (IH p1 (evs ++ [ev]) calls Hl' Hgood) as (p' & acc & rej & Hrun & Hperm & Hacc & Hrej).
    exists p', ((ae, e, ev) :: acc), rej. split_and!; try done.
    + by rewrite Hrun, <-app_assoc.
    + rewrite fmap_cons. unfold acc_event at 1. cbn [fst]. by rewrite <-Permutation_middle, Hperm.
    + constructor; [|done]. split; cbn [fst snd]; [done|by split_and!|].
      unfold add_event_of. change (userData ev) with (N.of_nat i). by rewrite Nat2N.id, Hl.
  - rewrite He. rewrite view_encode by apply Hok. cbn [mbind result_bind].
    destruct (IH p1 evs (calls ++ reject_out (ae, (res, okMsg))) Hl' Hgood)
      as (p' & acc & rej & Hrun & Hperm & Hacc & Hrej).
    exists p', acc, ((ae, (res, okMsg)) :: rej). split_and!; try done.
    + unfold reject_out in Hrun at 1. cbn [fst snd] in Hrun. unfold id_hex in Hrun. rewrite He in Hrun.
      rewrite Hrun. by rewrite bind_cons, app_assoc.
    + rewrite fmap_cons. cbn [fst]. simpl. by rewrite Hperm.
    + by constructor.
Qed.

Lemma answer_fold_run newMsgs verdict done_ : ∀ calls,
  Forall (λ a : accepted, packedStr a.2 = encode a.1.2 ∧ ae_packedStr a.1.1 = encode a.1.2 ∧
    wf_event a.1.2 ∧ add_event_of newMsgs a.2 = Ok a.1.1) done_ →
  foldM (answer_step newMsgs verdict) calls done_.*2 =
    Ok (calls ++ (done_ ≫= λ a, let '(success, written, message) := verdict (status a.2) in
                    answer_calls a.1.1 success written message (id_hex a.1.1))).
Proof.
  induction done_ as [|[[ae e] ev] l IH]; intros calls Hall; [by rewrite app_nil_r|].
  apply Forall_cons in Hall as [(Hp & Ha & He & Hu) Hall]. cbn [fst snd] in *.
  rewrite fmap_cons, bind_cons. cbn [foldM fst snd]. unfold answer_step at 2.
  rewrite Hp, view_encode, Hu by done. cbn [mbind result_bind].
  destruct (verdict (status ev)) as [[s w] t] eqn:Hv.
  cbn [mbind result_bind]. rewrite IH by done.
  unfold id_hex at 2. by rewrite Ha, app_assoc.
Qed.

(** ** A batch *)

(** The writer's state over a store of the events [m]. *)
Record writer_ok (fs : list (NostrFilter * N)) (st : writer_state) (m : gmap N event) : Prop := {
  wo_filters : db_filters (store st) fs;
  wo_cache : cache_coherent (neFilterCache st) (store st);
  wo_inv : store_inv fs (store st) m;
}.

Lemma filter_closed_sub msgs m : m ∈ filter_closed msgs → m ∈ msgs.
Proof.
  unfold filter_closed. case_decide; [done|]. by intros [_ ?]%list_elem_of_filter.
Qed.

Lemma imap_pair_lookup {A : Type} (l : list A) i x : (i, x) ∈ imap pair l → l !! i = Some x.
Proof.
  intros (j & Hj)%list_elem_of_lookup. rewrite list_lookup_imap in Hj.
  destruct (l !! j) eqn:E; [|done]. simpl in Hj. by injection Hj as <- <-.
Qed.

Lemma imap_pair_snd {A : Type} (l : list A) : (imap pair l).*2 = l.
Proof. rewrite fmap_imap. by rewrite <-(list_fmap_id l) at 2; rewrite <-imap_const. Qed.

Lemma omap_length_le {A B : Type} (f : A → option B) (l : list A) : length (omap f l) ≤ length l.
Proof. induction l as [|x l IH]; simpl; [done|].
  destruct (f x); simpl; [apply le_n_S, IH|apply le_S, IH].
Qed.

Lemma filter_closed_length msgs : length (filter_closed msgs) ≤ length msgs.
Proof. unfold filter_closed. case_decide; [done|]. apply length_filter. Qed.

(** What the events of a batch became: the message, the event, and the element
    of the vector with its status and levId. *)
Definition answers_of (verdict : EventWriteStatus → bool * bool * bytes) (done_ : list accepted)
    : list call :=
  done_ ≫= λ a, let '(success, written, message) := verdict (status a.2) in
    answer_calls a.1.1 success written message (id_hex a.1.1).

(** The accepted events with the elements the loop returned. *)
Definition settle (acc : list accepted) (out : list EventToWrite) : list accepted :=
  zip_with (λ (a : accepted) ev, (a.1, ev)) acc out.

Lemma settle_spec newMsgs acc out :
  Forall2 same_input acc.*2 out → Forall (acc_ok newMsgs) acc →
  (settle acc out).*2 = out ∧ (settle acc out).*1 = acc.*1 ∧
  Forall (λ a : accepted, packedStr a.2 = encode a.1.2 ∧ ae_packedStr a.1.1 = encode a.1.2 ∧
    event_ok a.1.2 ∧ add_event_of newMsgs a.2 = Ok a.1.1) (settle acc out).
Proof.
  intros Hin Hacc. revert out Hin.
  induction Hacc as [|[[ae e] ev] acc [Hp (Hq & _ & Hev) Hu] _ IH]; intros out Hin.
  { apply Forall2_nil_inv_l in Hin as ->. done. }
  apply Forall2_cons_inv_l in Hin as (ev' & out' & (Hpk & _ & Hud) & Hin & ->). cbn [fst snd] in *.
  destruct (IH out' Hin) as (I1 & I2 & I3). unfold settle in *. cbn [zip_with]. rewrite !fmap_cons.
  cbn [fst snd]. rewrite I1, I2. split_and!; [done|done|]. constructor; [|done]. cbn [fst snd].
  split_and!; [by rewrite Hpk|done|done|]. unfold add_event_of in *. by rewrite Hud.
Qed.

Lemma accepted_events newMsgs acc es :
  Forall2 pending_for es acc.*2 → Forall (acc_ok newMsgs) acc → es = acc.*1.*2.
Proof.
  intros Hes Hacc. revert es Hes.
  induction Hacc as [|[[ae e] ev] acc [_ (Hq & _ & Hev) _] _ IH]; intros es Hes.
  { by apply Forall2_nil_inv_r in Hes as ->. }
  apply Forall2_cons_inv_r in Hes as (e' & es' & (Hq' & _ & Hev') & Hes & ->). cbn [fst snd] in *.
  rewrite !fmap_cons. cbn [fst snd]. f_equal; [|by apply IH].
  apply encode_inj; [apply Hev'|apply Hev|congruence].
Qed.

Lemma zip_settled acc (out : list EventToWrite) :
  length acc = length out →
  zip acc.*1.*2 out = (λ a : accepted, (a.1.2, a.2)) <$> settle acc out.
Proof.
  revert out. induction acc as [|[[ae e] ev] acc IH]; intros [|o out] Hl; try done.
  simpl. f_equal. apply IH. by injection Hl.
Qed.

(** The accepted events are a batch [writeEvents] can write. *)
Lemma accepted_batch fs (msgs : list MsgWriter) st m newMsgs (acc : list accepted) :
  writer_ok fs st m → Forall (acc_ok newMsgs) acc →
  length acc ≤ length msgs →
  (getMostRecentLevId (store st) + N.of_nat (length msgs) ≤ MAX_U64)%N →
  ∃ acc' : list accepted, sort_events acc.*2 = acc'.*2 ∧ acc ≡ₚ acc' ∧
    batch_ok (neFilterCache st) (store st) m fs (acc.*1.*2) acc.*2 acc'.*2.
Proof.
  intros [] Hacc Hlen Hroom.
  destruct (Permutation_map_inv (snd : accepted → EventToWrite) (l1 := sort_events acc.*2) acc)
    as (acc' & Hacc' & Hpa); [apply sort_ok|].
  change (sort_events acc.*2 = acc'.*2) in Hacc'. exists acc'. split; [done|]. split; [done|].
  rewrite <-Hacc'. split; try done.
  - clear -Hacc. induction Hacc as [|a l Ha _ IH]; [constructor|]. constructor; [apply Ha|done].
  - rewrite length_fmap. unfold accepted in *. lia.
Qed.

Lemma writer_batch_run fs msgs st m :
  writer_ok fs st m → Forall msg_good msgs →
  (getMostRecentLevId (store st) + N.of_nat (length msgs) ≤ MAX_U64)%N →
  ∃ st' rej done_ m', writer_batch cfg sort_events commit lib_what msgs st = Ok st' ∧
    rej.*1 ++ (acc_event <$> done_) ≡ₚ open_events msgs ∧
    Forall (λ r, r.2.1 ≠ Accept) rej ∧
    Forall (λ a, ae_packedStr a.1.1 = encode a.1.2 ∧ packedStr a.2 = encode a.1.2 ∧
                 event_ok a.1.2) done_ ∧
    writer_ok fs st' m' ∧ grows (mk_snapshot (store st) m) (mk_snapshot (store st') m') ∧
    ((write_specs None m ((λ a : accepted, (a.1.2, a.2)) <$> done_) m' ∧
      Forall (λ a, status a.2 ≠ Pending) done_ ∧
      wr_calls st' = wr_calls st ++ (rej ≫= reject_out) ++ answers_of verdict_of done_) ∨
     (store st' = store st ∧ m' = m ∧ ∃ e, wr_calls st' = wr_calls st ++ (rej ≫= reject_out) ++
        answers_of (λ _, (false, false, #"Write error: " ++ what lib_what e)) done_)).
Proof.
  intros Hok Hgood Hroom. unfold writer_batch. set (newMsgs := filter_closed msgs).
  destruct (prepare_fold newMsgs (imap pair newMsgs) (writePolicyPlugin st) [] (wr_calls st))
    as (p & acc & rej & -> & Hperm & Hacc & Hrej).
  { apply imap_pair_lookup. }
  { apply Forall_forall. intros [i x] Hi%imap_pair_lookup%list_elem_of_lookup_2.
    rewrite Forall_forall in Hgood. by apply Hgood, filter_closed_sub. }
  rewrite imap_pair_snd in Hperm. cbn [mbind result_bind app].
  pose proof (filter_closed_open msgs) as Hopen. fold newMsgs in Hopen.
  destruct (Nat.eqb_spec (length acc.*2) 0) as [Hz|Hz].
  { rewrite length_fmap in Hz. apply length_zero_iff_nil in Hz as ->.
    eexists _, rej, [], m. split; [done|]. split; [by rewrite <-Hopen|]. split; [done|]. split; [done|].
    split; [by destruct Hok|]. split; [apply grows_refl|]. left.
    split; [constructor|]. split; [done|]. simpl. by rewrite app_nil_r. }
  destruct (accepted_batch fs msgs st m newMsgs acc) as (acc' & Hacc' & Hpa & Hbatch); [done|done| |done|].
  { etransitivity; [|apply filter_closed_length].
    etransitivity; [|apply (omap_length_le add_event)]. fold newMsgs.
    apply Permutation_length in Hperm. rewrite length_app, !length_fmap in Hperm.
    rewrite <-Hperm. apply Nat.le_add_l. }
  assert (Forall (acc_ok newMsgs) acc') as Hok' by by rewrite <-Hpa.
  assert (rej.*1 ++ (acc_event <$> acc') ≡ₚ open_events msgs) as Hperm' by by rewrite <-Hpa, <-Hopen.
  destruct (batch_outcome _ _ _ _ _ _ _ Hbatch)
    as (c' & d' & out & es' & m' & Hw & _ & _ & Hin & Hws & Hinv' & Hbr & Hf' & Hc' & Hlen & Hrest & Hpe').
  unfold do_write. rewrite Hacc', Hw.
  pose proof (accepted_events newMsgs acc' es' ltac:(done) Hok') as ->.
  pose proof (commit_ok d') as Hcommit. destruct (commit d') as [d''|e].
  - subst d''. destruct (settle_spec newMsgs acc' out ltac:(done) Hok') as (S2 & S1 & S3).
    rewrite <-S2. rewrite answer_fold_run.
    2:{ eapply Forall_impl; [exact S3|]. cbn. intros a (? & ? & [? _] & ?). by split_and!. }
    cbn [mbind result_bind]. eexists _, rej, (settle acc' out), m'. split; [done|].
    assert (acc_event <$> settle acc' out = acc_event <$> acc') as Hae.
    { rewrite !acc_events. by f_equal. }
    rewrite Hae. split; [done|]. split; [done|].
    split. { eapply Forall_impl; [exact S3|]. cbn. intros a (? & ? & ? & ?). by split_and!. }
    split; [by split|]. split.
    { apply (batch_result_grows _ _ _ _ out); [apply (wo_inv _ _ _ Hok)|apply Hinv'|done|done]. }
    left. split; [|split].
    + rewrite <-zip_settled; [done|]. rewrite !length_fmap in Hlen. done.
    + pose proof (br_done _ _ _ _ _ _ Hbr) as Hd. rewrite <-S2 in Hd. by rewrite Forall_fmap in Hd.
    + unfold answers_of. simpl. by rewrite <-app_assoc.
  - rewrite Hcommit, answer_fold_run.
    2:{ eapply Forall_impl; [exact Hok'|]. intros a [? (? & _ & [? _]) ?]. by split_and!. }
    cbn [mbind result_bind]. eexists _, rej, acc', m. split; [done|]. split; [done|]. split; [done|].
    split. { eapply Forall_impl; [exact Hok'|]. intros a [? (? & _ & ?) ?]. by split_and!. }
    destruct Hok as [Hf Hc Hinv]. destruct Hrest as (R1 & R2 & R3).
    split. { split; [done| |done]. simpl. intros Hm. rewrite <-R1 in Hm. rewrite <-R2. by apply Hc'. }
    split; [apply grows_refl|]. right. split; [done|]. split; [done|]. exists e.
    unfold answers_of. simpl. by rewrite <-app_assoc.
Qed.

(** ** One answer for each event *)

Definition ok_of (c : call) : option (N * bytes) :=
  match c with SendOKResponse connId eventIdHex _ _ => Some (connId, eventIdHex) | _ => None end.

Definition promise_of (c : call) : option promise :=
  match c with SetValue p _ => Some p | _ => None end.

Lemma reject_out_answers rej :
  omap ok_of (rej ≫= reject_out) = (λ ae, (ae_connId ae, id_hex ae)) <$> rej.*1 ∧
  omap promise_of (rej ≫= reject_out) = omap ae_resultPromise rej.*1.
Proof.
  induction rej as [|[ae [res msg]] rej [IH1 IH2]]; [done|].
  rewrite bind_cons, !omap_app, IH1, IH2. unfold reject_out, reject_calls. simpl.
  by destruct (ae_resultPromise ae).
Qed.

Lemma answers_of_answers v done_ :
  omap ok_of (answers_of v done_) = (λ ae, (ae_connId ae, id_hex ae)) <$> (acc_event <$> done_) ∧
  omap promise_of (answers_of v done_) = omap ae_resultPromise (acc_event <$> done_).
Proof.
  unfold answers_of. induction done_ as [|[[ae e] ev] done_ [IH1 IH2]]; [done|].
  rewrite fmap_cons, bind_cons, !omap_app, IH1, IH2. change (acc_event (ae, e, ev)) with ae. cbn [fst snd].
  destruct (v (status ev)) as [[s w] t]. unfold answer_calls. simpl.
  by destruct (ae_resultPromise ae).
Qed.

Lemma answered_once rej v done_ evs :
  rej.*1 ++ (acc_event <$> done_) ≡ₚ evs →
  omap ok_of ((rej ≫= reject_out) ++ answers_of v done_) ≡ₚ
    (λ ae, (ae_connId ae, id_hex ae)) <$> evs ∧
  omap promise_of ((rej ≫= reject_out) ++ answers_of v done_) ≡ₚ omap ae_resultPromise evs.
Proof.
  intros Hp. rewrite !omap_app. destruct (reject_out_answers rej) as [-> ->].
  destruct (answers_of_answers v done_) as [-> ->]. rewrite <-fmap_app, <-omap_app.
  by rewrite Hp.
Qed.

(** C18: over a store in good order the writer never throws; in every batch each
    event of a connection that did not close in it is answered exactly once,
    with one [OK] to its connection and, for an HTTP request, its promise
    resolved, whatever the write policy decides and also when the transaction
    fails; the store keeps its invariant and only grows or forgets. *)
Theorem writer_answers fs msgs st m :
  writer_ok fs st m → Forall msg_good msgs →
  (getMostRecentLevId (store st) + N.of_nat (length msgs) ≤ MAX_U64)%N →
  ∃ st' new m', writer_batch cfg sort_events commit lib_what msgs st = Ok st' ∧
    wr_calls st' = wr_calls st ++ new ∧
    omap ok_of new ≡ₚ (λ ae, (ae_connId ae, id_hex ae)) <$> open_events msgs ∧
    omap promise_of new ≡ₚ omap ae_resultPromise (open_events msgs) ∧
    writer_ok fs st' m' ∧ grows (mk_snapshot (store st) m) (mk_snapshot (store st') m').
Proof.
  intros Hok Hgood Hroom.
  destruct (writer_batch_run fs msgs st m Hok Hgood Hroom)
    as (st' & rej & done_ & m' & Hrun & Hp & _ & _ & Hok' & Hg & [(_ & _ & Hc)|(_ & _ & e & Hc)]).
  all: exists st'; eexists; exists m'; split; [done|]; split; [exact Hc|].
  all: edestruct (answered_once rej) as [? ?]; [exact Hp|]; by split_and!.
Qed.

(** A promise resolved with success belongs to an event that was found written
    or duplicate. *)
Lemma reject_out_success p r rej : SetValue p r ∈ (rej ≫= reject_out) → success r = false.
Proof.
  intros ([ae [res msg]] & Hin & _)%list_elem_of_bind. unfold reject_out, reject_calls, resolve in Hin.
  cbn [fst snd] in Hin. destruct (ae_resultPromise ae); simpl in Hin.
  - apply elem_of_cons in Hin as [[= -> ->]|Hin]; [done|]. by apply list_elem_of_singleton in Hin.
  - by apply list_elem_of_singleton in Hin.
Qed.

Lemma answers_of_success v p r done_ : SetValue p r ∈ answers_of v done_ →
  ∃ a, a ∈ done_ ∧ ae_resultPromise (acc_event a) = Some p ∧ eventId r = id_hex (acc_event a) ∧
    success r = (v (status a.2)).1.1.
Proof.
  intros (a & Hin & Ha)%list_elem_of_bind. exists a. split; [done|]. unfold acc_event.
  destruct (v (status a.2)) as [[s w] t]. unfold answer_calls, resolve in Hin.
  destruct (ae_resultPromise a.1.1); simpl in Hin.
  - apply elem_of_cons in Hin as [[= -> ->]|Hin]; [done|]. by apply list_elem_of_singleton in Hin.
  - by apply list_elem_of_singleton in Hin.
Qed.

Lemma verdict_success s : (verdict_of s).1.1 = true → s = Written ∨ s = Duplicate.
Proof. destruct s; simpl; auto; discriminate. Qed.

Lemma refused_told ae p (rej : list (AddEvent * (PluginEventSifterResult * bytes))) :
  ae ∈ rej.*1 → ae_resultPromise ae = Some p →
  ∃ r, SetValue p r ∈ (rej ≫= reject_out) ∧ success r = false.
Proof.
  intros ([ae' [res msg]] & -> & Ha)%list_elem_of_fmap Hp. eexists. split.
  - apply list_elem_of_bind. exists (ae', (res, msg)). split; [|done].
    unfold reject_out, reject_calls. cbn [fst snd] in *. rewrite Hp. constructor.
  - done.
Qed.

(** The batch as [entries]. *)
Definition entries_of (done_ : list accepted) : entries := (λ a : accepted, (a.1.2, a.2)) <$> done_.

(** A message of the batch, where it stands in it, may be told of success. *)
Definition told (m : gmap N event) (done_ : list accepted) (m' : gmap N event) (p : promise)
    (r : ProcessResult) : Prop :=
  ∃ before ae e ev later, done_ = before ++ (ae, e, ev) :: later ∧ ae_resultPromise ae = Some p ∧
    eventId r = to_hex (ev_id e) ∧
    entitled m (entries_of before) e (status ev) (entries_of later) m'.

(** One batch: who is answered, and what they may be told. *)
Lemma writer_told fs msgs st m :
  writer_ok fs st m → Forall msg_good msgs →
  (getMostRecentLevId (store st) + N.of_nat (length msgs) ≤ MAX_U64)%N →
  ∃ st' new done_ m', writer_batch cfg sort_events commit lib_what msgs st = Ok st' ∧
    wr_calls st' = wr_calls st ++ new ∧ writer_ok fs st' m' ∧ write_specs None m (entries_of done_) m' ∧
    (∀ ae e ev, (ae, e, ev) ∈ done_ → ae_packedStr ae = encode e ∧ wf_event e) ∧
    (∃ refused, refused ++ (acc_event <$> done_) ≡ₚ open_events msgs ∧
      ∀ ae p, ae ∈ refused → ae_resultPromise ae = Some p → ∃ r, SetValue p r ∈ new ∧ success r = false) ∧
    (∀ p r, SetValue p r ∈ new → success r = true → told m done_ m' p r) ∧
    (∀ ae e ev p, (ae, e, ev) ∈ done_ → ae_resultPromise ae = Some p →
      ∃ r, SetValue p r ∈ new ∧ eventId r = to_hex (ev_id e) ∧
        (success r = true ↔ status ev = Written ∨ status ev = Duplicate)) ∧
    omap promise_of new ≡ₚ omap ae_resultPromise (open_events msgs).
Proof.
  intros Hok Hgood Hroom.
  destruct (writer_batch_run fs msgs st m Hok Hgood Hroom)
    as (st' & rej & done_ & m' & Hrun & Hp & _ & Hdone & Hok' & _ & [(Hws & _ & Hc)|(_ & -> & x & Hc)]).
  all: exists st'; eexists.
  - exists done_, m'. rewrite Forall_forall in Hdone.
    assert (∀ a, a ∈ done_ → id_hex (acc_event a) = to_hex (ev_id a.1.2)) as Hhex.
    { intros a Ha. destruct (Hdone a Ha) as (He & _ & [Hwf _]). unfold id_hex, acc_event.
      by rewrite He, id_encode. }
    split; [done|]. split; [exact Hc|]. split; [done|]. split; [done|].
    split; [|split; [|split; [|split; [|by eapply answered_once]]]].
    + intros ae e ev Ha. by destruct (Hdone _ Ha) as (? & _ & [? _]).
    + exists rej.*1. split; [done|]. intros ae p Ha Hpr. apply (refused_told ae p rej) in Hpr as (r & Hr & ?); [|done].
      exists r. split; [|done]. apply elem_of_app. by left.
    + intros p r [Hin|Hin]%elem_of_app Hs; [by rewrite (reject_out_success _ _ _ Hin) in Hs|].
      apply answers_of_success in Hin as ([[ae e] ev] & Ha & Hpr & Hid & Hsu). rewrite Hs in Hsu. symmetry in Hsu.
      apply verdict_success in Hsu. pose proof (Hhex _ Ha) as Hx.
      apply list_elem_of_split in Ha as (before & later & ->).
      exists before, ae, e, ev, later. split_and!; [done|done|by rewrite Hid|].
      apply (write_specs_entitled m None m _ m' Hws [] (in_batch_start m)); [|done].
      unfold entries_of. by rewrite fmap_app, fmap_cons.
    + intros ae e ev p Ha Hpr.
      exists (mk_process_result (verdict_of (status ev)).1.1 (verdict_of (status ev)).2 (id_hex ae)).
      split_and!; [|by apply (Hhex _ Ha)|by destruct (status ev); simpl; intuition discriminate].
      apply elem_of_app. right. apply list_elem_of_bind. exists (ae, e, ev). split; [|done]. cbn [fst snd].
      destruct (verdict_of (status ev)) as [[s w] t]. unfold answer_calls. rewrite Hpr. constructor.
  - exists [], m. split; [done|]. split; [exact Hc|]. split; [done|]. split; [constructor|].
    split; [by intros ? ? ? ?%not_elem_of_nil|]. split.
    { exists (rej.*1 ++ (acc_event <$> done_)). split; [by rewrite app_nil_r|].
      intros ae p [Ha|([[ae' e] ev] & -> & Ha)%list_elem_of_fmap]%elem_of_app Hpr.
      - destruct (refused_told ae p rej Ha Hpr) as (r & Hr & ?). exists r. split; [|done].
        apply elem_of_app. by left.
      - eexists. split; [|shelve]. apply elem_of_app. right. apply list_elem_of_bind.
        exists (ae', e, ev). split; [|done]. cbn [fst snd]. unfold answer_calls.
        change (acc_event (ae', e, ev)) with ae' in Hpr. rewrite Hpr. constructor.
        Unshelve. done. }
    split; [|split; [by intros ? ? ? ? ?%not_elem_of_nil|by eapply answered_once]].
    intros p r [Hin|Hin]%elem_of_app Hs; [by rewrite (reject_out_success _ _ _ Hin) in Hs|].
    apply answers_of_success in Hin as (a & _ & _ & _ & Hsu). simpl in Hsu. congruence.
Qed.

(** C19: an HTTP request is told of success only when it is [entitled] to: its
    event, in its place in the batch, was written and is in the store after the
    transaction, unless a later event of the same batch displaced it; or it was
    a duplicate of an event stored or written before, which is still there,
    with the same exception - or of a copy earlier in the batch that was
    refused as deleted or replaced, which the writer takes for a stored event.
    Every request of an open connection is told: of success or failure as its
    event was written or found a duplicate, or not; of failure if the write
    policy refused it or the transaction failed. *)
Theorem writer_truthful fs msgs st m :
  writer_ok fs st m → Forall msg_good msgs →
  (getMostRecentLevId (store st) + N.of_nat (length msgs) ≤ MAX_U64)%N →
  ∃ st' new done_ m', writer_batch cfg sort_events commit lib_what msgs st = Ok st' ∧
    wr_calls st' = wr_calls st ++ new ∧ writer_ok fs st' m' ∧ write_specs None m (entries_of done_) m' ∧
    (∀ ae e ev, (ae, e, ev) ∈ done_ → ae_packedStr ae = encode e) ∧
    (∃ refused, refused ++ (acc_event <$> done_) ≡ₚ open_events msgs ∧
      ∀ ae p, ae ∈ refused → ae_resultPromise ae = Some p → ∃ r, SetValue p r ∈ new ∧ success r = false) ∧
    (∀ p r, SetValue p r ∈ new → success r = true → told m done_ m' p r) ∧
    (∀ ae e ev p, (ae, e, ev) ∈ done_ → ae_resultPromise ae = Some p →
      ∃ r, SetValue p r ∈ new ∧ eventId r = to_hex (ev_id e) ∧
        (success r = true ↔ status ev = Written ∨ status ev = Duplicate)).
Proof.
  intros Hok Hgood Hroom.
  destruct (writer_told fs msgs st m Hok Hgood Hroom)
    as (st' & new & done_ & m' & ? & ? & ? & ? & Hin & ? & ? & ? & _).
  exists st', new, done_, m'. split_and!; [done..| |done|done|done].
  intros ae e ev Ha. by destruct (Hin ae e ev Ha).
Qed.
End theorems.
