(* ===== verification/ReqMonitor.v ===== *)
(** The request monitor and request worker threads ([RelayReqMonitor.cpp],
    [RelayReqWorker.cpp]).

    One iteration of a thread's loop takes the messages of its inbox and a
    read transaction [d]; [monitor_batch] and [worker_batch] are the bodies.
    An exception would end the process. *)

From S2P Require Import Prelude Bytes Json Hex PackedEvent FilterSets Filters Config EventParse.
From S2P Require Import Db Payload Subscription Monitors DBQuery QueryScheduler RelayServer.

(** [env.foreach_Event(txn, cb, false, from)] visits these events. *)
Definition foreach_Event_from `{!NativeU64, !GolpeKeys, !Env} (d : env) (from : N) : list N :=
  filter (λ l, (from ≤ l)%N) (foreach_Event d).

Section monitor.
Context `{!NativeU64, !GolpeKeys, !Env, !Zstd} (cfg : Config).
Context (iter : MonitorSet → list (filterRef * MonitorItem)).

(** The variables of [runReqMonitor], and the calls made so far. *)
Record monitor_state := mk_monitor_state {
  monitors : ActiveMonitors;
  currEventId : N;
  decomp : DictCaches;
  calls : list call;
}.

Definition monitor_init (g : gmap N ZSTD_DDict) : monitor_state :=
  mk_monitor_state am_empty MAX_U64 (mk_caches ∅ g) [].

(** [ev.buf] of a record visited by [foreach_Event]. *)
Definition event_buf (d : env) (l : N) : result bytes :=
  match lookup_Event d l with Some buf => Ok buf | None => Throw undefined_behaviour end.

(** The events the query has not seen yet. *)
Definition catch_up_step (d : env) (sub : Subscription) (st : DictCaches * list call) (l : N)
    : result (DictCaches * list call) :=
  let '(c, out) := st in
  buf ← event_buf d l;
  ev ← view buf;
  b ← group_doesMatch (filterGroup sub) ev;
  if b : bool then
    '(c, json) ← getEventJson cfg c d l;
    Ok (c, out ++ [SendEvent (connId sub) (subId sub) json])
  else Ok (c, out).

Definition new_sub (d : env) (latest : N) (st : monitor_state) (sub : Subscription)
    : result monitor_state :=
  '(c, out) ← foldM (catch_up_step d sub) (decomp st, calls st)
                (foreach_Event_from d (u64_add (latestEventId sub) 1));
  '(mons, ok) ← Monitors.addSub cfg (monitors st) (set_latestEventId sub latest) latest;
  Ok (mk_monitor_state mons (currEventId st) c
        (if ok : bool then out
         else out ++ [SendNoticeError (connId sub) #"too many concurrent REQs"])).

(** One event of a [DBChange]. *)
Definition db_change_step (d : env) (st : monitor_state) (l : N) : result monitor_state :=
  buf ← event_buf d l;
  '(mons, cb) ← Monitors.process iter (monitors st) l buf;
  match cb with
  | None => Ok (mk_monitor_state mons (currEventId st) (decomp st) (calls st))
  | Some (recipients, levId) =>
      '(c, json) ← getEventJson cfg (decomp st) d levId;
      Ok (mk_monitor_state mons (currEventId st) c
            (calls st ++ [SendEventToBatch recipients json]))
  end.

Definition db_change (d : env) (latest : N) (st : monitor_state) : result monitor_state :=
  st ← foldM (db_change_step d) st (foreach_Event_from d (u64_add (currEventId st) 1));
  Ok (mk_monitor_state (monitors st) latest (decomp st) (calls st)).

Definition set_mons (st : monitor_state) (mons : ActiveMonitors) : monitor_state :=
  mk_monitor_state mons (currEventId st) (decomp st) (calls st).

Definition monitor_msg (d : env) (latest : N) (st : monitor_state) (msg : MsgReqMonitor)
    : result monitor_state :=
  match msg with
  | ReqMonitor_NewSub sub => new_sub d latest st sub
  | ReqMonitor_RemoveSub c s => mons ← Monitors.removeSub (monitors st) c s; Ok (set_mons st mons)
  | ReqMonitor_CloseConn c => mons ← Monitors.closeConn (monitors st) c; Ok (set_mons st mons)
  | ReqMonitor_DBChange => db_change d latest st
  end.

(** [if (currEventId > latestEventId) currEventId = latestEventId;] *)
Definition clamp (latest : N) (st : monitor_state) : monitor_state :=
  if (latest <? currEventId st)%N
  then mk_monitor_state (monitors st) latest (decomp st) (calls st) else st.

Definition monitor_batch (d : env) (st : monitor_state) (newMsgs : list MsgReqMonitor)
    : result monitor_state :=
  let latest := getMostRecentLevId d in
  foldM (monitor_msg d latest) (clamp latest st) newMsgs.
End monitor.

(** ** The request worker *)

Section worker.
Context `{!NativeU64, !GolpeKeys, !Env, !Zstd, !EventLibs} (cfg : Config).
Variable curr_time_us : nat → N.

Record worker_state := mk_worker_state {
  queries : Scheduler.QueryScheduler;
  w_decomp : DictCaches;
  w_calls : list call;
  w_tick : nat;
}.

Definition worker_init (g : gmap N ZSTD_DDict) : worker_state :=
  mk_worker_state Scheduler.empty_scheduler (mk_caches ∅ g) [] 0.

(** [queries.onEvent] *)
Definition on_event (d : env) (w : DictCaches * list call) (sub : Subscription) (levId : N)
    (eventPayload : bytes) : result (DictCaches * list call) :=
  '(c, (json, _, _)) ← decodeEventPayload cfg w.1 d eventPayload;
  Ok (c, w.2 ++ [SendEvent (connId sub) (subId sub) json]).

Definition eose_payload (sub : Subscription) : bytes :=
  json_to_string (JArray [JString #"EOSE"; JString (SubId_sv (subId sub))]).

(** [queries.onComplete] *)
Definition on_complete (w : DictCaches * list call) (sub : Subscription)
    : result (DictCaches * list call) :=
  Ok (w.1, w.2 ++ [SendToConn (connId sub) (eose_payload sub);
                   ToReqMonitor (connId sub) (ReqMonitor_NewSub sub)]).
(** [queries.process(txn)] *)
Definition run_queries (d : env) (st : worker_state) : result worker_state :=
  '(qs, (c, out), t) ← Scheduler.process cfg true (Some (on_event d)) None (Some on_complete)
                         curr_time_us d (queries st) (w_decomp st, w_calls st) (w_tick st);
  Ok (mk_worker_state qs c out t).

Definition set_queries (st : worker_state) (qs : Scheduler.QueryScheduler) (out : list call)
    : worker_state :=
  mk_worker_state qs (w_decomp st) (w_calls st ++ out) (w_tick st).

Definition worker_msg (d : env) (st : worker_state) (msg : MsgReqWorker) : result worker_state :=
  match msg with
  | ReqWorker_NewSub sub =>
      '(qs, ok) ← Scheduler.addSub cfg d (queries st) sub;
      run_queries d (set_queries st qs
        (if ok : bool then []
         else [SendNoticeError (connId sub) #"too many concurrent REQs"]))
  | ReqWorker_RemoveSub c s =>
      qs ← Scheduler.removeSub (queries st) c s;
      Ok (set_queries st qs [ToReqMonitor c (ReqMonitor_RemoveSub c s)])
  | ReqWorker_CloseConn c =>
      qs ← Scheduler.closeConn (queries st) c;
      Ok (set_queries st qs [ToReqMonitor c (ReqMonitor_CloseConn c)])
  end.

Definition worker_batch (d : env) (st : worker_state) (newMsgs : list MsgReqWorker)
    : result worker_state :=
  st ← foldM (worker_msg d) st newMsgs;
  run_queries d st.
End worker.
