(* ===== verification/Handoff.v ===== *)
(** Delivery by the request monitor: from the moment a subscription is handed
    over, its client receives every matching event exactly once, in levId
    order, whatever else the monitor does in between.

    The monitor's messages come in batches, each with a snapshot of the
    database; [run_steps] is the same run one message at a time
    ([batch_is_steps]).  Between snapshots events are added at new levIds, as
    levIds are never reused, and events may be deleted ([StoreHistory.grows]). *)

From stdpp Require Import fin_maps fin_sets.
From S2P Require Import Prelude Bytes Json Hex PackedEvent FilterSets Filters Config EventParse Db.
From S2P Require Import Payload Subscription Monitors MonitorLookups MonitorInv MonitorTheorems.
From S2P Require Import StoreHistory RelayServer ReqMonitor.

(** ** What a client receives *)

Definition key_of (item : ConnIdSubId) : N * bytes := (item.1, SubId_sv item.2).

Definition received_by (key : N * bytes) (c : call) : list bytes :=
  match c with
  | SendEvent connId subId evJson => if decide (key_of (connId, subId) = key) then [evJson] else []
  | SendEventToBatch recipients evJson =>
      recipients ≫= λ item, if decide (key_of item = key) then [evJson] else []
  | _ => []
  end.

(** The texts of the events sent to a subscription, in order. *)
Definition received (key : N * bytes) (cs : list call) : list bytes := cs ≫= received_by key.

Lemma received_app key a b : received key (a ++ b) = received key a ++ received key b.
Proof. apply bind_app. Qed.

Lemma received_batch key rc json :
  NoDup (key_of <$> rc) →
  received key [SendEventToBatch rc json] = if decide (key ∈ key_of <$> rc) then [json] else [].
Proof.
  unfold received. cbn [mbind list_bind received_by]. rewrite app_nil_r.
  induction rc as [|item rc IH]; [done|]. rewrite fmap_cons. intros [Hn Hnd]%NoDup_cons.
  cbn [mbind list_bind]. rewrite IH by done. destruct (decide (key_of item = key)) as [<-|Hk].
  - rewrite (decide_False (P := key_of item ∈ key_of <$> rc)) by done.
    by rewrite decide_True by apply list_elem_of_here.
  - destruct (decide (key ∈ key_of <$> rc)) as [Hin|Hin].
    + rewrite decide_True; [done|]. by apply list_elem_of_further.
    + rewrite decide_False; [done|]. intros [->|?]%elem_of_cons; done.
Qed.

(** ** Sorted lists of levIds *)

Lemma sorted_unique (l1 l2 : list N) :
  StronglySorted N.le l1 → StronglySorted N.le l2 → NoDup l1 → NoDup l2 →
  (∀ x, x ∈ l1 ↔ x ∈ l2) → l1 = l2.
Proof.
  intros S1 S2 N1 N2 Heq. apply (StronglySorted_unique N.le); [done..|]. by apply NoDup_Permutation.
Qed.

Lemma filter_sorted (P : N → Prop) `{∀ x, Decision (P x)} l :
  StronglySorted N.le l → StronglySorted N.le (filter P l).
Proof.
  induction 1 as [|x l Hso IH Hx]; [constructor|]. rewrite filter_cons. case_decide; [|done].
  constructor; [done|]. apply Forall_forall. intros y [_ Hy]%list_elem_of_filter.
  rewrite Forall_forall in Hx. by apply Hx.
Qed.

Lemma filter_ext_elem {A : Type} (P Q : A → Prop) `{∀ x, Decision (P x), ∀ x, Decision (Q x)} (l : list A) :
  (∀ x, x ∈ l → P x ↔ Q x) → filter P l = filter Q l.
Proof.
  induction l as [|x l IH]; intros Hpq; [done|]. rewrite !filter_cons.
  rewrite IH by (intros y Hy; apply Hpq; by constructor 2).
  pose proof (Hpq x ltac:(constructor)). repeat case_decide; naive_solver.
Qed.

Lemma sorted_last (L : list N) x d :
  StronglySorted N.lt L → x ∈ L → (∀ y, y ∈ L → (y ≤ x)%N) → List.last L d = x.
Proof.
  revert d. induction L as [|a [|b L] IH]; intros d Hso Hx Hle; [by apply elem_of_nil in Hx|..].
  - by apply list_elem_of_singleton in Hx.
  - change (List.last (a :: b :: L) d) with (List.last (b :: L) d).
    apply StronglySorted_inv in Hso as [Hso Ha]. apply IH; [done| |intros y Hy; apply Hle; by constructor 2].
    apply elem_of_cons in Hx as [->|]; [|done]. rewrite Forall_forall in Ha.
    pose proof (Ha b ltac:(constructor)). pose proof (Hle b ltac:(constructor 2; constructor)). lia.
Qed.

Lemma last_shift {A : Type} (a d : A) L : List.last (a :: L) d = List.last L a.
Proof.
  revert a d. induction L as [|b L IH]; intros a d; [done|].
  rewrite (IH b a). exact (IH b d).
Qed.

Section handoff.
Context `{!NativeU64, !GolpeKeys, !Env, !Zstd} (cfg : Config).
Context (iter : MonitorSet → list (filterRef * MonitorItem)).
Context (iter_perm : ∀ ms, iter ms ≡ₚ map_to_list ms).
(** The JSON of each levId. *)
Context (text : N → bytes).

(** ** Snapshots *)

(** The store as a batch sees it: [text] is what its payloads decode to. *)
Record snap_ok (s : snapshot) : Prop := {
  so_repr : snap_repr s;
  so_text : ∀ l, is_Some (snap_events s !! l) → event_text cfg (snap_db s) l = Ok (text l);
  so_room : (latest s < MAX_U64)%N;
}.

Lemma ok_elem s l :
  snap_ok s → l ∈ foreach_Event (snap_db s) ↔ is_Some (snap_events s !! l).
Proof. intros Hs. apply snap_elem, Hs. Qed.

Lemma ok_latest s l : snap_ok s → is_Some (snap_events s !! l) → (l ≤ latest s)%N.
Proof. intros Hs. apply snap_latest, Hs. Qed.

(** Does a filter group want this event? *)
Definition wanted (s : snapshot) (fg : list NostrFilter) (l : N) : bool :=
  match snap_events s !! l with
  | Some e => match group_doesMatch fg (mk_view (encode e)) with Ok b => b | Throw _ => false end
  | None => false
  end.

(** The matching events with levIds in [(lo, hi]]. *)
Definition due_ids (s : snapshot) (fg : list NostrFilter) (lo hi : N) : list N :=
  filter (λ l, (lo < l)%N ∧ (l ≤ hi)%N ∧ wanted s fg l = true) (foreach_Event (snap_db s)).

Lemma due_ids_sorted s fg lo hi : StronglySorted N.le (due_ids s fg lo hi).
Proof. apply filter_sorted, foreach_Event_sorted. Qed.

Lemma due_ids_nodup s fg lo hi : NoDup (due_ids s fg lo hi).
Proof. apply NoDup_filter, foreach_Event_nodup. Qed.

Lemma elem_of_due_ids s fg lo hi l :
  snap_ok s →
  l ∈ due_ids s fg lo hi ↔ (lo < l)%N ∧ (l ≤ hi)%N ∧ wanted s fg l = true.
Proof.
  intros Hs. unfold due_ids. rewrite list_elem_of_filter, ok_elem by done.
  unfold wanted. destruct (snap_events s !! l); naive_solver.
Qed.

Lemma wanted_back s s' fg l :
  grows s s' → (l ≤ latest s)%N → wanted s' fg l = true → wanted s fg l = true.
Proof.
  unfold wanted. intros Hg Hl. destruct (snap_events s' !! l) as [e|] eqn:He; [|done].
  by rewrite (grows_back _ _ _ _ Hg Hl He).
Qed.

Lemma due_ids_empty s fg lo hi : snap_ok s → (hi ≤ lo)%N → due_ids s fg lo hi = [].
Proof.
  intros Hs Hle. apply elem_of_nil_inv. intros l. rewrite elem_of_due_ids by done. lia.
Qed.
(** ** One step of the monitor *)

Abbreviation step := (snapshot * MsgReqMonitor)%type.

Definition run_step (st : monitor_state) (p : step) : result monitor_state :=
  let d := snap_db p.1 in
  monitor_msg cfg iter d (latest p.1) (clamp (latest p.1) st) p.2.

Definition run_steps (st : monitor_state) (steps : list step) : result monitor_state :=
  foldM run_step st steps.

Lemma run_steps_cons st s msg steps :
  run_steps st ((s, msg) :: steps) =
    (st' ← monitor_msg cfg iter (snap_db s) (latest s) (clamp (latest s) st) msg;
     run_steps st' steps).
Proof. done. Qed.

(** The key of a subscription that messages may not touch. *)
Definition leaves (key : N * bytes) (msg : MsgReqMonitor) : Prop :=
  match msg with
  | ReqMonitor_NewSub sub => sub_key sub ≠ key
  | ReqMonitor_RemoveSub c s => (c, SubId_sv s) ≠ key
  | ReqMonitor_CloseConn c => c ≠ key.1
  | ReqMonitor_DBChange => True
  end.

Definition msg_ok (s : snapshot) (msg : MsgReqMonitor) : Prop :=
  match msg with
  | ReqMonitor_NewSub sub =>
      Forall filter_ready (filterGroup sub) ∧ (latestEventId sub ≤ latest s)%N
  | _ => True
  end.

(** What holds of the monitor between steps. *)
Record monitor_inv (s : snapshot) (st : monitor_state) : Prop := {
  mi_monitors : am_inv cfg (currEventId st) (ReqMonitor.monitors st);
  mi_curr : (currEventId st ≤ latest s)%N;
  mi_decomp : caches_ok (decomp st) (snap_db s);
}.

(** The tracked subscription: it was added when the store was at levId [A], and
    events up to [P] have been processed. *)
Definition tracked (st : ActiveMonitors) (key : N * bytes) (fg : list NostrFilter) (A P : N)
    : Prop :=
  ∃ sub, live st sub ∧ sub_key sub = key ∧ filterGroup sub = fg ∧
    (A ≤ latestEventId sub)%N ∧ (latestEventId sub ≤ N.max A P)%N.

Lemma am_inv_mono P P' st : (P ≤ P')%N → am_inv cfg P st → am_inv cfg P' st.
Proof.
  intros Hle [Hne Hc Hr Hs Hi Hb]. constructor; try done.
  intros sp r it Hit. destruct (Hi sp r it Hit) as [Hm Hl]. split; [done|].
  intros sub Hsub. specialize (Hl sub Hsub). lia.
Qed.

Lemma live_key_unique P st sub sub' :
  am_inv cfg P st → live st sub → live st sub' → sub_key sub = sub_key sub' → sub = sub'.
Proof.
  intros Hinv [a Ha] [a' Ha'] Hk.
  assert (a = a') as <-; [|congruence].
  apply (registered_fun st (sub_key sub)); apply (ai_conns _ _ _ Hinv); eauto.
Qed.

(** ** Processing events *)

Lemma process_step P st l e :
  am_inv cfg P st → (P < l)%N → wf_event e →
  ∃ st' rc, Monitors.process iter st l (encode e) =
      Ok (st', if negb (length rc =? 0) then Some (rc, l) else None) ∧
    am_inv cfg l st' ∧ NoDup (key_of <$> rc) ∧
    ∀ key fg A, tracked st key fg A P →
      tracked st' key fg A l ∧
      (key ∈ key_of <$> rc ↔
        (A < l)%N ∧ group_doesMatch fg (mk_view (encode e)) = Ok true).
Proof.
  intros Hinv HPl He.
  destruct (process_notifies cfg iter iter_perm P st l e Hinv HPl He)
    as (st' & rc & Hp & Hinv' & Hnd & Hrc & Hlive).
  exists st', rc. split_and!; [done..|]. intros key fg A (sub & Hsub & Hk & Hfg & HA & HP).
  assert (due st l e sub ↔ (A < l)%N ∧ group_doesMatch fg (mk_view (encode e)) = Ok true) as Hdue.
  { unfold due, group_matches. rewrite Hfg. split.
    - intros (_ & ? & ?). split; [lia|done].
    - intros [? ?]. split_and!; [done|lia|done]. }
  split.
  - destruct (Hlive sub Hsub) as [[(_ & Hlt & _) Hl]|[_ Hl]].
    + exists (set_latestEventId sub l). split_and!; [done..|simpl; lia|simpl; lia].
    + exists sub. split_and!; try done. lia.
  - rewrite <-Hdue. rewrite list_elem_of_fmap. split.
    + intros ([c s] & -> & (sub' & Hd & <- & <-)%Hrc).
      assert (sub' = sub) as ->; [|done].
      apply (live_key_unique P st); [done|apply Hd|done|by rewrite Hk].
    + intros Hd. exists (connId sub, subId sub). split; [by rewrite <-Hk|].
      apply Hrc. by exists sub.
Qed.

Lemma read_text s c l :
  snap_ok s → caches_ok c (snap_db s) → is_Some (snap_events s !! l) →
  ∃ c', getEventJson cfg c (snap_db s) l = Ok (c', text l) ∧ caches_ok c' (snap_db s).
Proof.
  intros Hs Hc Hl. pose proof (getEventJson_text cfg c (snap_db s) l Hc) as Hget.
  by rewrite (so_text _ Hs l Hl) in Hget.
Qed.

Lemma event_buf_ok s l e :
  snap_ok s → snap_events s !! l = Some e →
  event_buf (snap_db s) l = Ok (encode e) ∧ wf_event e.
Proof.
  intros Hs He. unfold event_buf. rewrite (lookup_Event_repr _ _ _ (so_repr _ Hs)), He.
  split; [done|]. by eapply repr_wf; [apply Hs|].
Qed.

(** The events of one [DBChange]. *)
Lemma db_change_fold s L st P :
  snap_ok s → caches_ok (decomp st) (snap_db s) → am_inv cfg P (ReqMonitor.monitors st) →
  StronglySorted N.lt L → (∀ l, l ∈ L → (P < l)%N ∧ is_Some (snap_events s !! l)) →
  ∃ st' P' new, foldM (db_change_step cfg iter (snap_db s)) st L = Ok st' ∧
    currEventId st' = currEventId st ∧ caches_ok (decomp st') (snap_db s) ∧
    am_inv cfg P' (ReqMonitor.monitors st') ∧ (P' = P ∨ P' ∈ L) ∧
    calls st' = calls st ++ new ∧
    ∀ key fg A, tracked (ReqMonitor.monitors st) key fg A P →
      tracked (ReqMonitor.monitors st') key fg A P' ∧
      received key new = text <$> filter (λ l, (A < l)%N ∧ wanted s fg l = true) L.
Proof.
  intros Hs. revert st P. induction L as [|l L IH]; intros st P Hc Hinv Hso HL.
  { exists st, P, []. split_and!; try done; [by left|by rewrite app_nil_r]. }
  apply StronglySorted_inv in Hso as [Hso Hlt].
  destruct (HL l ltac:(constructor)) as [HPl [e He]].
  destruct (event_buf_ok s l e Hs He) as [Hbuf Hwf]. cbn [foldM].
  destruct (process_step P (ReqMonitor.monitors st) l e Hinv HPl Hwf)
    as (mons & rc & Hp & Hinv' & Hnd & Htr).
  assert (∃ c1 new1, db_change_step cfg iter (snap_db s) st l =
      Ok (mk_monitor_state mons (currEventId st) c1 (calls st ++ new1)) ∧
      caches_ok c1 (snap_db s) ∧
      ∀ key, received key new1 = if decide (key ∈ key_of <$> rc) then [text l] else [])
    as (c1 & new1 & -> & Hc1 & Hnew1).
  { unfold db_change_step. rewrite Hbuf. cbn [mbind result_bind]. rewrite Hp.
    cbn [mbind result_bind]. destruct rc as [|item rc]; cbn [length Nat.eqb negb].
    - exists (decomp st), []. rewrite app_nil_r. by split_and!.
    - destruct (read_text s (decomp st) l Hs Hc ltac:(by eexists)) as (c1 & -> & Hc1).
      cbn [mbind result_bind]. exists c1, [SendEventToBatch (item :: rc) (text l)].
      split_and!; try done. intros key. by apply received_batch. }
  cbn [mbind result_bind].
  destruct (IH (mk_monitor_state mons (currEventId st) c1 (calls st ++ new1)) l)
    as (st' & P' & new & Hrun & Hcurr & Hc' & HinvP' & HP' & Hcalls & Htr'); try done.
  { intros y Hy. split; [rewrite Forall_forall in Hlt; by apply Hlt|]. apply HL. by constructor 2. }
  exists st', P', (new1 ++ new). simpl in *. split_and!; try done.
  - destruct HP' as [->|?]; [right; constructor|right; by constructor 2].
  - by rewrite Hcalls, app_assoc.
  - intros key fg A Hkey. destruct (Htr key fg A Hkey) as [Hkey1 Hin].
    destruct (Htr' key fg A Hkey1) as [Hkey2 Hrec]. split; [done|].
    rewrite received_app, Hrec, Hnew1, filter_cons.
    assert (key ∈ key_of <$> rc ↔ (A < l)%N ∧ wanted s fg l = true) as Hin'.
    { rewrite Hin. unfold wanted. rewrite He.
      destruct (group_doesMatch fg (mk_view (encode e))) as [[]|]; naive_solver. }
    destruct (decide (key ∈ key_of <$> rc)) as [Hk|Hk].
    + rewrite decide_True by by apply Hin'. done.
    + rewrite decide_False by by rewrite <-Hin'. done.
Qed.
Lemma sorted_strict (L : list N) : StronglySorted N.le L → NoDup L → StronglySorted N.lt L.
Proof.
  induction 1 as [|x L Hso IH Hx]; [constructor|]. intros [Hn Hnd]%NoDup_cons.
  constructor; [by apply IH|]. apply Forall_forall. intros y Hy.
  rewrite Forall_forall in Hx. specialize (Hx y Hy). assert (x ≠ y) by congruence. lia.
Qed.

(** The list a [foreach_Event] from [from + 1] visits. *)
Lemma visited_spec s from :
  snap_ok s → (from ≤ latest s)%N →
  let L := foreach_Event_from (snap_db s) (u64_add from 1) in
  StronglySorted N.lt L ∧
  (∀ l, l ∈ L → (from < l)%N ∧ is_Some (snap_events s !! l)) ∧
  ∀ fg lo, (from ≤ lo)%N →
    filter (λ l, (lo < l)%N ∧ wanted s fg l = true) L = due_ids s fg lo (latest s).
Proof.
  intros Hs Hle L. assert (u64_add from 1 = from + 1)%N as Hadd.
  { apply u64_add_small. pose proof (so_room _ Hs). unfold MAX_U64, two64 in *. lia. }
  assert (StronglySorted N.le L) as Hso by apply filter_sorted, foreach_Event_sorted.
  assert (NoDup L) as Hnd by apply NoDup_filter, foreach_Event_nodup.
  assert (∀ l, l ∈ L ↔ (from < l)%N ∧ is_Some (snap_events s !! l)) as Hin.
  { intros l. unfold L, foreach_Event_from. rewrite list_elem_of_filter, ok_elem, Hadd by done.
    naive_solver lia. }
  split; [by apply sorted_strict|]. split; [by intros l Hl%Hin|].
  intros fg lo Hlo. apply sorted_unique; auto using due_ids_sorted, due_ids_nodup.
  - by apply filter_sorted.
  - by apply NoDup_filter.
  - intros l. rewrite list_elem_of_filter, Hin, elem_of_due_ids by done. split.
    + intros ((? & ?) & ? & Hl). split_and!; try done. by apply ok_latest.
    + intros (? & ? & Hw). split_and!; try done; [lia|]. unfold wanted in Hw.
      by destruct (snap_events s !! l).
Qed.

(** It ends at the latest event. *)
Lemma visited_last s from :
  snap_ok s → (from ≤ latest s)%N →
  List.last (foreach_Event_from (snap_db s) (u64_add from 1)) from = latest s.
Proof.
  intros Hs Hle. destruct (visited_spec s from Hs Hle) as (Hso & Hin & _).
  set (L := foreach_Event_from _ _) in *.
  destruct (N.eq_dec from (latest s)) as [Heq|Hne].
  - destruct L as [|l L'] eqn:EL; [done|].
    destruct (Hin l ltac:(constructor)) as [Hlt Hl%ok_latest]; [lia|done].
  - apply sorted_last; [done| |by intros y [_ Hy%ok_latest]%Hin].
    unfold L, foreach_Event_from. apply list_elem_of_filter.
    rewrite u64_add_small by (pose proof (so_room _ Hs); unfold MAX_U64, two64 in *; lia).
    split; [lia|]. apply ok_elem; [done|].
    destruct (snap_top s (so_repr _ Hs)) as [_ [H0'|]]; [lia|done].
Qed.

(** ** Catching up *)

Lemma catch_up_step_wf s sub c out l e b :
  snap_ok s → snap_events s !! l = Some e →
  group_doesMatch (filterGroup sub) (mk_view (encode e)) = Ok b →
  catch_up_step cfg (snap_db s) sub (c, out) l =
    if b : bool then '(c, json) ← getEventJson cfg c (snap_db s) l;
      Ok (c, out ++ [SendEvent (connId sub) (subId sub) json])
    else Ok (c, out).
Proof.
  intros Hs He Hb. destruct (event_buf_ok s l e Hs He) as [Hbuf Hwf].
  unfold catch_up_step. rewrite Hbuf. cbn [mbind result_bind].
  rewrite view_encode by done. cbn [mbind result_bind]. by rewrite Hb.
Qed.

Lemma catch_up_fold s sub L c out :
  snap_ok s → caches_ok c (snap_db s) → Forall filter_ready (filterGroup sub) →
  (∀ l, l ∈ L → is_Some (snap_events s !! l)) →
  ∃ c', caches_ok c' (snap_db s) ∧
    foldM (catch_up_step cfg (snap_db s) sub) (c, out) L =
      Ok (c', out ++ ((λ l, SendEvent (connId sub) (subId sub) (text l)) <$>
                filter (λ l, wanted s (filterGroup sub) l = true) L)).
Proof.
  intros Hs Hc Hready. revert c out Hc. induction L as [|l L IH]; intros c out Hc HL.
  { exists c. by rewrite app_nil_r. }
  destruct (HL l ltac:(constructor)) as [e He].
  destruct (event_buf_ok s l e Hs He) as [Hbuf Hwf].
  assert (∀ y, y ∈ L → is_Some (snap_events s !! y)) as HL' by (intros y Hy; apply HL; by constructor 2).
  destruct (group_doesMatch_sem (filterGroup sub) e Hwf) as (b & Hb & _).
  { eapply Forall_impl; [done|]. by intros f []. }
  assert (wanted s (filterGroup sub) l = b) as Hw by (unfold wanted; by rewrite He, Hb).
  cbn [foldM]. rewrite (catch_up_step_wf s sub c out l e b) by done.
  rewrite filter_cons. destruct b.
  - rewrite decide_True by done.
    destruct (read_text s c l Hs Hc ltac:(by eexists)) as (c1 & -> & Hc1). cbn [mbind result_bind].
    destruct (IH c1 (out ++ [SendEvent (connId sub) (subId sub) (text l)]) Hc1 HL') as (c' & Hc' & ->).
    exists c'. split; [done|]. by rewrite fmap_cons, <-app_assoc.
  - rewrite decide_False by congruence. apply IH; done.
Qed.

Lemma received_catch_up key sub ls :
  received key ((λ l, SendEvent (connId sub) (subId sub) (text l)) <$> ls) =
    if decide (sub_key sub = key) then text <$> ls else [].
Proof.
  unfold received. induction ls as [|l ls IH]; [by case_decide|].
  rewrite !fmap_cons. cbn [mbind list_bind received_by]. rewrite IH.
  change (key_of (connId sub, subId sub)) with (sub_key sub). by case_decide.
Qed.

(** A new subscription. *)
Lemma new_sub_run s st sub :
  snap_ok s → monitor_inv s st → msg_ok s (ReqMonitor_NewSub sub) →
  ∃ st' new, new_sub cfg (snap_db s) (latest s) st sub = Ok st' ∧ monitor_inv s st' ∧
    currEventId st' = currEventId st ∧ calls st' = calls st ++ new ∧
    (∀ key, received key new = if decide (sub_key sub = key)
       then text <$> due_ids s (filterGroup sub) (latestEventId sub) (latest s) else []) ∧
    ∀ sub', live (ReqMonitor.monitors st') sub' ↔
      live (ReqMonitor.monitors st) sub' ∧ sub_key sub' ≠ sub_key sub ∨
      live (ReqMonitor.monitors st') (set_latestEventId sub (latest s)) ∧
        sub' = set_latestEventId sub (latest s).
Proof.
  intros Hs [Hmon Hcurr Hdec] [Hready Hle].
  destruct (visited_spec s (latestEventId sub) Hs Hle) as (_ & Hin & Hdue).
  set (L := foreach_Event_from _ _) in *.
  destruct (catch_up_fold s sub L (decomp st) (calls st) Hs Hdec Hready) as (c' & Hc' & Hfold).
  { intros l Hl. by apply Hin. }
  destruct (addSub_spec cfg (currEventId st) (ReqMonitor.monitors st)
    (set_latestEventId sub (latest s)) Hmon Hready) as (mons & b & Hadd & Hmon' & _ & Hlive).
  unfold new_sub. fold L. rewrite Hfold. cbn [mbind result_bind].
  simpl latestEventId in Hadd. rewrite Hadd. cbn [mbind result_bind].
  set (sends := _ <$> filter _ L).
  exists (mk_monitor_state mons (currEventId st) c'
    (if b then calls st ++ sends
     else (calls st ++ sends) ++ [SendNoticeError (connId sub) #"too many concurrent REQs"])),
    (sends ++ if b then [] else [SendNoticeError (connId sub) #"too many concurrent REQs"]).
  split; [done|]. split; [by split|]. split; [done|]. split.
  { destruct b; [by rewrite app_nil_r|by rewrite app_assoc]. }
  split.
  - intros key. rewrite received_app. unfold sends. rewrite received_catch_up.
    assert (∀ k, received k (if b then [] else
      [SendNoticeError (connId sub) #"too many concurrent REQs"]) = []) as -> by by destruct b.
    rewrite app_nil_r. case_decide; [|done]. f_equal.
    rewrite <-Hdue by lia. apply filter_ext_elem.
    intros l [Hl _]%Hin. naive_solver.
  - intros sub'. rewrite !Hlive. change (sub_key (set_latestEventId sub (latest s))) with (sub_key sub).
    naive_solver.
Qed.
(** ** Every step *)

Lemma grows_inv s s' st : grows s s' → monitor_inv s st → monitor_inv s' st.
Proof.
  intros Hg [Hm Hc Hd]. split; [done| |by apply (grows_caches _ _ _ Hg)].
  pose proof (gr_latest _ _ Hg). lia.
Qed.

Lemma tracked_mono st key fg A P P' : (P ≤ P')%N → tracked st key fg A P → tracked st key fg A P'.
Proof. intros Hle (sub & ? & ? & ? & ? & ?). exists sub. split_and!; try done. lia. Qed.

(** What a step does: it goes on to a later point of the store and sends a
    tracked subscription what became due. *)
Definition step_sends (s : snapshot) (st st' : monitor_state) (new : list call)
    (msg : MsgReqMonitor) : Prop :=
  ∀ key fg A, leaves key msg → (A ≤ latest s)%N →
    tracked (ReqMonitor.monitors st) key fg A (currEventId st) →
    tracked (ReqMonitor.monitors st') key fg A (currEventId st') ∧
    received key new =
      text <$> due_ids s fg (N.max A (currEventId st)) (N.max A (currEventId st')).

(** A step that sends nothing to a subscription it leaves alone. *)
Lemma step_sends_nothing s st st' new msg :
  snap_ok s → currEventId st' = currEventId st →
  (∀ key sub, leaves key msg → sub_key sub = key → live (ReqMonitor.monitors st) sub →
     live (ReqMonitor.monitors st') sub) →
  (∀ key, leaves key msg → received key new = []) → step_sends s st st' new msg.
Proof.
  intros Hs Hc Hlive Hnew key fg A Hl _ (sub & ? & ? & ? & ? & ?). rewrite Hc. split.
  - exists sub. split_and!; try done. by eapply Hlive.
  - by rewrite Hnew, due_ids_empty.
Qed.

Lemma db_change_run s st :
  snap_ok s → monitor_inv s st →
  ∃ st' new, db_change cfg iter (snap_db s) (latest s) st = Ok st' ∧ monitor_inv s st' ∧
    currEventId st' = latest s ∧ calls st' = calls st ++ new ∧
    step_sends s st st' new ReqMonitor_DBChange.
Proof.
  intros Hs [Hm Hc Hd]. destruct (visited_spec s (currEventId st) Hs Hc) as (Hso & Hin & Hdue).
  set (L := foreach_Event_from _ _) in *.
  destruct (db_change_fold s L st (currEventId st) Hs Hd Hm Hso Hin)
    as (st1 & P' & new & Hrun & Hcurr & Hd1 & Hm1 & HP' & Hcalls & Htr).
  assert ((currEventId st ≤ P')%N ∧ (P' ≤ latest s)%N) as [HP1 HP2].
  { destruct HP' as [->|[? ?]%Hin]; [split; [lia|done]|]. split; [lia|by apply ok_latest]. }
  unfold db_change. fold L. rewrite Hrun. cbn [mbind result_bind].
  eexists _, new. split; [done|]. split; [split; simpl; [by eapply am_inv_mono|done|done]|].
  split; [done|]. split; [done|]. intros key fg A _ HA Hkey.
  destruct (Htr key fg A Hkey) as [Hkey' Hrec]. simpl. split; [by apply (tracked_mono _ _ _ _ P')|].
  rewrite Hrec. replace (N.max A (latest s)) with (latest s) by lia. f_equal.
  rewrite <-Hdue by lia. apply filter_ext_elem. intros l [Hl _]%Hin.
  rewrite N.max_lub_lt_iff. naive_solver.
Qed.

Lemma monitor_msg_run s st msg :
  snap_ok s → monitor_inv s st → msg_ok s msg →
  ∃ st' new, monitor_msg cfg iter (snap_db s) (latest s) st msg = Ok st' ∧ monitor_inv s st' ∧
    (currEventId st ≤ currEventId st')%N ∧
    (msg = ReqMonitor_DBChange → currEventId st' = latest s) ∧
    calls st' = calls st ++ new ∧ step_sends s st st' new msg.
Proof.
  intros Hs Hinv Hmsg. destruct msg as [sub|c i|c|]; cbn [monitor_msg].
  - destruct (new_sub_run s st sub Hs Hinv Hmsg)
      as (st' & new & -> & Hinv' & Hcurr & Hcalls & Hrec & Hlive).
    exists st', new. split_and!; try done; [lia|].
    apply step_sends_nothing; try done.
    + intros key sub' Hk <- Hl. apply Hlive. left. split; [done|]. exact (not_eq_sym Hk).
    + intros key Hk. rewrite Hrec. by rewrite decide_False.
  - destruct Hinv as [Hm Hc Hd].
    destruct (removeSub_spec cfg _ _ c i Hm) as (mons & -> & Hm' & Hlive & _).
    eexists _, []. split; [done|]. split; [by split|]. split_and!; try done; [by rewrite app_nil_r|].
    apply step_sends_nothing; try done. intros key sub Hk <- [a Ha]. exists a. apply Hlive.
    split; [done|]. exact (not_eq_sym Hk).
  - destruct Hinv as [Hm Hc Hd].
    destruct (closeConn_spec cfg _ _ c Hm) as (mons & -> & Hm' & Hlive).
    eexists _, []. split; [done|]. split; [by split|]. split_and!; try done; [by rewrite app_nil_r|].
    apply step_sends_nothing; try done. intros key sub Hk <- Hl. apply Hlive.
    split; [done|]. exact (not_eq_sym Hk).
  - destruct (db_change_run s st Hs Hinv) as (st' & new & -> & Hinv' & Hcurr & Hcalls & Hsend).
    exists st', new. split_and!; try done. rewrite Hcurr. by destruct Hinv.
Qed.

(** ** Runs *)

(** Snapshots follow one another, and messages are as the ingester and the request
    worker make them. *)
Fixpoint steps_ok (s0 : snapshot) (steps : list step) : Prop :=
  match steps with
  | [] => True
  | (s, msg) :: steps => snap_ok s ∧ grows s0 s ∧ msg_ok s msg ∧ steps_ok s steps
  end.

Lemma steps_ok_app s0 l1 l2 :
  steps_ok s0 (l1 ++ l2) → steps_ok s0 l1 ∧ steps_ok (last_snap s0 l1) l2.
Proof.
  revert s0. induction l1 as [|[s msg] l1 IH]; intros s0; [done|].
  intros (Hs & Hg & Hm & [H1' H2']%IH). split; [done|].
  by rewrite last_snap_cons.
Qed.

(** The thread before its first message, or later. *)
Definition ready (g : gmap N ZSTD_DDict) (s : snapshot) (st : monitor_state) : Prop :=
  st = monitor_init g ∧ caches_ok (mk_caches ∅ g) (snap_db s) ∨ monitor_inv s st.

Lemma clamp_inv s st : monitor_inv s st → clamp (latest s) st = st.
Proof. intros [_ Hc _]. unfold clamp. by destruct (N.ltb_spec (latest s) (currEventId st)); [lia|]. Qed.

Lemma ready_step g s0 s st :
  snap_ok s → grows s0 s → ready g s0 st →
  monitor_inv s (clamp (latest s) st) ∧ calls (clamp (latest s) st) = calls st.
Proof.
  intros Hs Hg [[-> Hc]|Hinv].
  - unfold clamp, monitor_init. simpl. pose proof (so_room _ Hs).
    destruct (N.ltb_spec (latest s) MAX_U64); [|lia]. split; [|done].
    split; simpl; [apply am_inv_empty|lia|by apply (grows_caches _ _ _ Hg)].
  - pose proof (grows_inv _ _ _ Hg Hinv) as Hinv'. by rewrite clamp_inv.
Qed.

Lemma run_steps_ready g s0 steps st :
  steps_ok s0 steps → ready g s0 st →
  ∃ st', run_steps st steps = Ok st' ∧ ready g (last_snap s0 steps) st'.
Proof.
  revert s0 st. induction steps as [|[s msg] steps IH]; intros s0 st; [by exists st|].
  intros (Hs & Hg & Hm & Hrest) Hr. destruct (ready_step g s0 s st Hs Hg Hr) as [Hinv _].
  destruct (monitor_msg_run s _ msg Hs Hinv Hm) as (st1 & new & E & Hinv1 & _).
  destruct (IH s st1 Hrest (or_intror Hinv1)) as (st' & Hrun & Hr').
  exists st'. split.
  - by rewrite run_steps_cons, E.
  - by rewrite last_snap_cons.
Qed.

Lemma steps_ok_grows s0 steps :
  snap_ok s0 → steps_ok s0 steps → snap_ok (last_snap s0 steps) ∧ grows s0 (last_snap s0 steps).
Proof.
  revert s0. induction steps as [|[s msg] steps IH]; intros s0 Hs0; [by auto using grows_refl|].
  intros (Hs & Hg & _ & [H1' H2']%(IH s Hs)). rewrite last_snap_cons. split; [done|].
  by eapply grows_trans; [apply so_repr|..].
Qed.

(** What a client is sent between two levIds: only events that matched in some
    snapshot of the run, each once and in order, and all those that match in
    the last one. *)
Record delivers (seen : list snapshot) (final : snapshot) (fg : list NostrFilter) (lo hi : N)
    (ids : list N) : Prop := {
  dl_sorted : StronglySorted N.lt ids;
  dl_sound : ∀ l, l ∈ ids → (lo < l)%N ∧ (l ≤ hi)%N ∧ ∃ s, s ∈ seen ∧ wanted s fg l = true;
  dl_complete : ∀ l, (lo < l)%N → (l ≤ hi)%N → wanted final fg l = true → l ∈ ids;
}.

Lemma delivers_nil final fg lo hi : (hi ≤ lo)%N → delivers [] final fg lo hi [].
Proof. intros Hle. split; [constructor|by intros l ?%elem_of_nil|]. intros l ? ?. lia. Qed.

Lemma strict_app (l1 l2 : list N) :
  StronglySorted N.lt l1 → StronglySorted N.lt l2 → (∀ x y, x ∈ l1 → y ∈ l2 → (x < y)%N) →
  StronglySorted N.lt (l1 ++ l2).
Proof. intros. by apply StronglySorted_app. Qed.

Lemma delivers_app seen s final fg lo mid hi ids :
  snap_ok s → grows s final → (lo ≤ mid)%N → (mid ≤ hi)%N → (mid ≤ latest s)%N →
  delivers seen final fg mid hi ids →
  delivers (s :: seen) final fg lo hi (due_ids s fg lo mid ++ ids).
Proof.
  intros Hs Hg H1' H2' H3' [Hso Hsound Hcomp]. split.
  - apply strict_app; [apply sorted_strict; auto using due_ids_sorted, due_ids_nodup|done|].
    intros x y Hx%elem_of_due_ids [Hy _]%Hsound; [lia|done].
  - intros l [Hl|Hl]%elem_of_app.
    + apply elem_of_due_ids in Hl as (? & ? & ?); [|done]. split_and!; [done|lia|].
      exists s. split; [constructor|done].
    + destruct (Hsound l Hl) as (? & ? & s' & ? & ?). split_and!; [lia|done|].
      exists s'. split; [by constructor 2|done].
  - intros l Hlo Hhi Hw. apply elem_of_app. destruct (N.le_gt_cases l mid) as [Hm|Hm].
    + left. apply elem_of_due_ids; [done|]. split_and!; [done|done|].
      apply (wanted_back s final); [done|lia|done].
    + right. by apply Hcomp.
Qed.

(** From a state in which the subscription is tracked on. *)
Lemma run_steps_tracked s0 steps st key fg A :
  snap_ok s0 → steps_ok s0 steps → monitor_inv s0 st → (A ≤ latest s0)%N →
  Forall (λ p : step, leaves key p.2) steps →
  tracked (ReqMonitor.monitors st) key fg A (currEventId st) →
  ∃ st' new ids, run_steps st steps = Ok st' ∧ (currEventId st ≤ currEventId st')%N ∧
    (∀ p, last steps = Some p → p.2 = ReqMonitor_DBChange → currEventId st' = latest p.1) ∧
    calls st' = calls st ++ new ∧ received key new = text <$> ids ∧
    delivers (steps.*1) (last_snap s0 steps) fg
      (N.max A (currEventId st)) (N.max A (currEventId st')) ids.
Proof.
  revert s0 st. induction steps as [|[s msg] steps IH]; intros s0 st Hs0 Hok Hinv HA Hl Htr.
  { exists st, [], []. rewrite app_nil_r. split_and!; try done. by apply delivers_nil. }
  destruct Hok as (Hs & Hg & Hm & Hrest). apply Forall_cons in Hl as [Hl1 Hl].
  pose proof (grows_inv _ _ _ Hg Hinv) as Hinv1. pose proof (gr_latest _ _ Hg) as Hlat.
  destruct (monitor_msg_run s st msg Hs Hinv1 Hm)
    as (st1 & new1 & E & Hinv2 & Hle & Hdb & Hcalls & Hsend).
  destruct (Hsend key fg A Hl1 ltac:(lia) Htr) as [Htr1 Hrec1].
  destruct (IH s st1 Hs Hrest Hinv2 ltac:(lia) Hl Htr1)
    as (st' & new & ids & Hrun & Hle' & Hlast & Hcalls' & Hrec & Hdel).
  destruct (steps_ok_grows s steps Hs Hrest) as [_ Hgl].
  rewrite last_snap_cons, fmap_cons; cbn [fst].
  exists st', (new1 ++ new), (due_ids s fg (N.max A (currEventId st)) (N.max A (currEventId st1)) ++ ids).
  split_and!; try done.
  - by rewrite run_steps_cons, (clamp_inv _ _ Hinv1), E.
  - lia.
  - intros p Hp Hdbp. rewrite last_cons in Hp. destruct (last steps) as [q|] eqn:Hq.
    + injection Hp as ->. by apply Hlast.
    + injection Hp as <-. apply last_None in Hq. subst steps. injection Hrun as <-. by apply Hdb.
  - by rewrite Hcalls', Hcalls, app_assoc.
  - by rewrite received_app, Hrec1, Hrec, <-fmap_app.
  - destruct Hinv2 as [_ Hc2 _]. apply delivers_app; try done; lia.
Qed.

(** C10: once a subscription has been handed to the monitor and accepted, its
    client is sent the matching events with a levId after the query's snapshot,
    each at most once and in levId order: all that are still in the store at
    the last change the monitor has seen, and none that never matched.  This
    holds for every sequence of messages on successive snapshots in which other
    subscriptions come and go and events are deleted, and the monitor never
    fails. *)
Theorem handoff_exactly_once g s0 steps1 s sub steps2 :
  snap_ok s0 → caches_ok (mk_caches ∅ g) (snap_db s0) →
  steps_ok s0 (steps1 ++ (s, ReqMonitor_NewSub sub) :: steps2) →
  Forall (λ p : step, leaves (sub_key sub) p.2) steps2 →
  ∃ st1 st2 st3, run_steps (monitor_init g) steps1 = Ok st1 ∧
    run_step st1 (s, ReqMonitor_NewSub sub) = Ok st2 ∧ run_steps st2 steps2 = Ok st3 ∧
    (live (ReqMonitor.monitors st2) (set_latestEventId sub (latest s)) →
     let final := last_snap s steps2 in
     let hi := N.max (latest s) (currEventId st3) in
     (∀ p, last steps2 = Some p → p.2 = ReqMonitor_DBChange → hi = latest final) ∧
     ∃ new ids, calls st3 = calls st1 ++ new ∧ received (sub_key sub) new = text <$> ids ∧
       delivers (s :: steps2.*1) final (filterGroup sub) (latestEventId sub) hi ids).
Proof.
  intros Hs0 Hc Hok Hl. apply steps_ok_app in Hok as [Hok1 (Hs & Hg & Hmsg & Hok2)].
  destruct (run_steps_ready g s0 steps1 (monitor_init g) Hok1 (or_introl (conj eq_refl Hc)))
    as (st1 & Hrun1 & Hr1).
  destruct (ready_step g _ s st1 Hs Hg Hr1) as [Hinv1 Hcalls1].
  destruct (new_sub_run s _ sub Hs Hinv1 Hmsg)
    as (st2 & new2 & E2 & Hinv2 & Hcurr2 & Hcalls2 & Hrec2 & Hlive2).
  destruct (run_steps_ready g s steps2 st2 Hok2 (or_intror Hinv2)) as (st3 & Hrun3 & _).
  exists st1, st2, st3. split; [done|]. split; [done|]. split; [done|]. intros Hlive final hi.
  assert (tracked (ReqMonitor.monitors st2) (sub_key sub) (filterGroup sub) (latest s)
    (currEventId st2)) as Htr.
  { exists (set_latestEventId sub (latest s)). split_and!; try done; simpl; lia. }
  destruct (run_steps_tracked s steps2 st2 (sub_key sub) (filterGroup sub) (latest s) Hs Hok2 Hinv2
    ltac:(lia) Hl Htr)
    as (st3' & new & ids & Hrun3' & Hle & Hlast & Hcalls3 & Hrec3 & Hdel).
  rewrite Hrun3 in Hrun3'. injection Hrun3' as <-.
  destruct (steps_ok_grows s steps2 Hs Hok2) as [_ Hgl]. pose proof (gr_latest _ _ Hgl).
  split.
  - intros p Hp Hdb. unfold hi, final. rewrite (Hlast p Hp Hdb).
    rewrite (last_snap_some s steps2 p Hp) in *. lia.
  - exists (new2 ++ new), (due_ids s (filterGroup sub) (latestEventId sub) (latest s) ++ ids).
    split; [by rewrite Hcalls3, Hcalls2, Hcalls1, app_assoc|].
    split; [by rewrite received_app, Hrec2, Hrec3, decide_True, <-fmap_app by done|].
    destruct Hinv2 as [_ Hc2 _]. destruct Hmsg as [_ Hsub].
    replace (N.max (latest s) (currEventId st2)) with (latest s) in Hdel by lia.
    apply delivers_app; try done. unfold hi. lia.
Qed.

(** A batch is its messages one by one. *)
Lemma batch_is_steps s st msgs :
  snap_ok s → monitor_inv s (clamp (latest s) st) → Forall (msg_ok s) msgs →
  monitor_batch cfg iter (snap_db s) st msgs =
    run_steps (clamp (latest s) st) ((s,.) <$> msgs).
Proof.
  intros Hs Hinv Hmsgs. unfold monitor_batch. fold (latest s). revert Hinv.
  generalize (clamp (latest s) st). clear st.
  induction Hmsgs as [|msg msgs Hm Hmsgs IH]; intros st Hinv; [done|].
  rewrite fmap_cons, run_steps_cons, (clamp_inv _ _ Hinv). cbn [foldM].
  destruct (monitor_msg_run s st msg Hs Hinv Hm) as (st1 & new & -> & Hinv1 & _). by apply IH.
Qed.
End handoff.
