(* ===== verification/WriterPipeline.v ===== *)
(** The writer pipeline ([WriterPipeline.h]): the validator and writer threads
    behind [import], [stream], [sync] and [router].

    The shared object is a record; every client call and every turn of a thread
    is a function on it, and [step] interleaves them in any order.  The
    debounce delay and [wait] only decide when a thread runs, so a turn may
    come at any time.  A turn that throws ends the process.  [pl_log] is what
    became of each event, in the order in which the counters tell it;
    [flushCalled] remembers that the client has called [flush]. *)

From S2P Require Import Prelude Bytes Json Hex PackedEvent Filters Config EventParse Db.
From S2P Require Import NegentropyCache EventWriter.

Definition is_null (v : value) : bool := match v with JNull => true | _ => false end.

(** What became of an event: it was invalid, the store had it already, or
    [writeEvents] gave it a status. *)
Inductive outcome :=
  | Rejected (v : value)
  | Known (ev : EventToWrite)
  | Settled (ev : EventToWrite).

Inductive validator_thread := V_wait | V_busy (msgs : list value) | V_done.

Inductive writer_thread :=
  | W_wait
  | W_read (newEvents : list EventToWrite)
  | W_write (newEventsToProc : list EventToWrite)
  | W_done.

(** [totalProcessed], [totalWritten], [totalRejected], [totalDups], [numLive] *)
Record counters := mk_counters {
  totalProcessed : N;
  totalWritten : N;
  totalRejected : N;
  totalDups : N;
  numLive : N;
}.

Record pipeline := mk_pipeline {
  stats : counters;
  validatorInbox : list value;
  writerInbox : list EventToWrite;
  flushInbox : list bool;
  shutdownRequested : bool;
  shutdownComplete : bool;
  validator : validator_thread;
  writer : writer_thread;
  committed : list N;
  pl_log : list outcome;
  flushCalled : bool;
}.

Definition new_pipeline : pipeline :=
  mk_pipeline (mk_counters 0 0 0 0 0) [] [] [] false false V_wait W_wait [] [] false.

Definition set_stats (s : pipeline) c := mk_pipeline c (validatorInbox s) (writerInbox s)
  (flushInbox s) (shutdownRequested s) (shutdownComplete s) (validator s) (writer s)
  (committed s) (pl_log s) (flushCalled s).
Definition set_validatorInbox (s : pipeline) i := mk_pipeline (stats s) i (writerInbox s)
  (flushInbox s) (shutdownRequested s) (shutdownComplete s) (validator s) (writer s)
  (committed s) (pl_log s) (flushCalled s).
Definition set_writerInbox (s : pipeline) i := mk_pipeline (stats s) (validatorInbox s) i
  (flushInbox s) (shutdownRequested s) (shutdownComplete s) (validator s) (writer s)
  (committed s) (pl_log s) (flushCalled s).
Definition set_validator (s : pipeline) v := mk_pipeline (stats s) (validatorInbox s)
  (writerInbox s) (flushInbox s) (shutdownRequested s) (shutdownComplete s) v (writer s)
  (committed s) (pl_log s) (flushCalled s).
Definition set_writer (s : pipeline) w := mk_pipeline (stats s) (validatorInbox s)
  (writerInbox s) (flushInbox s) (shutdownRequested s) (shutdownComplete s) (validator s) w
  (committed s) (pl_log s) (flushCalled s).
Definition add_log (s : pipeline) os := mk_pipeline (stats s) (validatorInbox s)
  (writerInbox s) (flushInbox s) (shutdownRequested s) (shutdownComplete s) (validator s)
  (writer s) (committed s) (pl_log s ++ os) (flushCalled s).

(** The counters are atomic and wrap around. *)
Definition add_processed c := mk_counters (u64_add (totalProcessed c) 1) (totalWritten c)
  (totalRejected c) (totalDups c) (u64_add (numLive c) 1).
Definition leave_live c := mk_counters (totalProcessed c) (totalWritten c) (totalRejected c)
  (totalDups c) (u64_sub (numLive c) 1).
Definition add_rejected c := mk_counters (totalProcessed c) (totalWritten c)
  (u64_add (totalRejected c) 1) (totalDups c) (numLive c).
Definition add_dup c := mk_counters (totalProcessed c) (totalWritten c) (totalRejected c)
  (u64_add (totalDups c) 1) (numLive c).
Definition add_written c := mk_counters (totalProcessed c) (u64_add (totalWritten c) 1)
  (totalRejected c) (totalDups c) (numLive c).

Section pipeline.
Context `{!Hex, !NativeU64, !GolpeKeys, !Env, !EventLibs, !JsonParser} (cfg : Config).
Variable sort_events : list EventToWrite → list EventToWrite.
(** Parameters of the pipeline. *)
Variables (writeBatchSize : N) (verifyMsg verifyTime : bool).

(** ** The client's calls *)

Definition write_json (s : pipeline) (eventJson : value) : pipeline :=
  if is_null eventJson then s
  else set_validatorInbox (set_stats s (add_processed (stats s))) (validatorInbox s ++ [eventJson]).

Definition write_event (s : pipeline) (inp : EventToWrite) : pipeline :=
  set_writerInbox (set_stats s (add_processed (stats s))) (writerInbox s ++ [inp]).

(** The first half of [flush]; the second waits for [flushInbox]. *)
Definition flush (s : pipeline) : pipeline :=
  mk_pipeline (stats s) (validatorInbox s ++ [JNull]) (writerInbox s) (flushInbox s)
    (shutdownRequested s) (shutdownComplete s) (validator s) (writer s) (committed s)
    (pl_log s) true.

(** [wait] returns at once below this mark, and within 50 ms above it. *)
Definition must_wait (s : pipeline) : bool :=
  negb (numLive (stats s) <? u64_wrap (writeBatchSize * 2))%N.

(** ** The validator *)

Definition validator_pop (s : pipeline) : pipeline :=
  set_validator (set_validatorInbox s []) (V_busy (validatorInbox s)).

(** The message that asks the writer to stop. *)
Definition stop_event : EventToWrite := EventToWrite_make [] [] 0.

Definition stop_validator (s : pipeline) : pipeline :=
  mk_pipeline (stats s) (validatorInbox s) (writerInbox s ++ [stop_event]) (flushInbox s) true
    (shutdownComplete s) V_done (writer s) (committed s) (pl_log s) (flushCalled s).

(** One message of the batch at time [now]. *)
Definition validate (now : N) (s : pipeline) (m : value) (rest : list value) : result pipeline :=
  if is_null m then Ok (stop_validator s)
  else
    match parseAndVerifyEvent cfg now m verifyMsg verifyTime with
    | Ok (packedStr, jsonStr) =>
        Ok (set_writerInbox (set_validator s (V_busy rest))
              (writerInbox s ++ [EventToWrite_make packedStr jsonStr 0]))
    | Throw e =>
        if catchable e then
          Ok (add_log (set_stats (set_validator s (V_busy rest)) (add_rejected (leave_live (stats s))))
                [Rejected m])
        else Throw e
    end.

(** ** The writer *)

Definition writer_pop (s : pipeline) : pipeline :=
  set_writer (set_writerInbox s []) (W_read (writerInbox s)).

(** The loop in the read transaction: [proc] is [newEventsToProc]. *)
Fixpoint prefilter (d : env) (s : pipeline) (proc newEvents : list EventToWrite)
    : result pipeline :=
  match newEvents with
  | [] => Ok (set_writer s (W_write proc))
  | event :: rest =>
      if (writeBatchSize <=? N.of_nat (length proc))%N then
        Ok (set_writer (set_writerInbox s (newEvents ++ writerInbox s)) (W_write proc))
      else if length (packedStr event) =? 0 then
        Ok (mk_pipeline (stats s) (validatorInbox s) (writerInbox s) (flushInbox s)
              (shutdownRequested s) true (validator s) (W_write proc) (committed s) (pl_log s)
              (flushCalled s))
      else
        let s := set_stats s (leave_live (stats s)) in
        packed ← view (packedStr event);
        match lookupEventById d (id packed) with
        | Some _ => prefilter d (add_log (set_stats s (add_dup (stats s))) [Known event]) proc rest
        | None => prefilter d s (proc ++ [event]) rest
        end
  end.

(** Counting one event that was written. *)
Definition count_event (c : counters) (ev : EventToWrite) : counters :=
  if decide (status ev = Written) then add_written c else add_dup c.

(** [onCommit]'s argument. *)
Definition num_written (out : list EventToWrite) : N :=
  N.of_nat (length (filter (λ ev, status ev = Written) out)).

(** What follows the transaction. *)
Definition end_turn (s : pipeline) : pipeline :=
  if shutdownComplete s then
    mk_pipeline (stats s) (validatorInbox s) (writerInbox s) (flushInbox s ++ [true])
      (shutdownRequested s) (shutdownComplete s) (validator s) W_done (committed s) (pl_log s)
      (flushCalled s)
  else set_writer s W_wait.

Definition settle (s : pipeline) (out : list EventToWrite) : pipeline :=
  mk_pipeline (foldl count_event (stats s) out) (validatorInbox s) (writerInbox s) (flushInbox s)
    (shutdownRequested s) (shutdownComplete s) (validator s) (writer s)
    (committed s ++ [num_written out]) (pl_log s ++ (Settled <$> out)) (flushCalled s).

(** The write transaction, which commits when it does not throw. *)
Definition write_batch (c : NegentropyFilterCache) (d : env) (s : pipeline)
    (proc : list EventToWrite) : result (NegentropyFilterCache * env * pipeline) :=
  if length proc =? 0 then Ok (c, d, end_turn s)
  else
    '(c, d, out) ← writeEvents c d (sort_events proc);
    Ok (c, d, end_turn (settle s out)).

(** ** The threads' turns *)

(** The pipeline, the writer's filter cache and the database. *)
Definition system : Type := NegentropyFilterCache * env * pipeline.

Inductive thread_step : system → system → Prop :=
  | step_validator_pop c d s :
      validator s = V_wait → validatorInbox s ≠ [] →
      thread_step (c, d, s) (c, d, validator_pop s)
  | step_validate now c d s m rest s' :
      validator s = V_busy (m :: rest) → validate now s m rest = Ok s' →
      thread_step (c, d, s) (c, d, s')
  | step_validator_again c d s :
      validator s = V_busy [] → thread_step (c, d, s) (c, d, set_validator s V_wait)
  | step_writer_pop c d s :
      writer s = W_wait → writerInbox s ≠ [] → thread_step (c, d, s) (c, d, writer_pop s)
  | step_prefilter c d s newEvents s' :
      writer s = W_read newEvents → prefilter d s [] newEvents = Ok s' →
      thread_step (c, d, s) (c, d, s')
  | step_write c d s proc x :
      writer s = W_write proc → write_batch c d s proc = Ok x → thread_step (c, d, s) x.
End pipeline.
