(* ===== verification/PipelineTheorems.v ===== *)
(** Nothing is lost in the writer pipeline, and flushing it ends. *)

From S2P Require Import Prelude Bytes Json Hex PackedEvent Filters Config EventParse Db.
From S2P Require Import NegentropyCache EventWriter EventStore StoreTheorems Payload StoreHistory.
From S2P Require Import StateExn WriterTheorems WriterPipeline.

(** ** Counters *)

Lemma u64_wrap_add a b : u64_add (u64_wrap a) b = u64_wrap (a + b).
Proof. unfold u64_add, u64_wrap. by rewrite N.Div0.add_mod_idemp_l. Qed.

Lemma u64_wrap_pred a b : (b ≤ a)%N → (b < two64)%N → u64_sub (u64_wrap a) b = u64_wrap (a - b).
Proof.
  intros Hab Hb. unfold u64_sub, u64_wrap. rewrite <-N.add_sub_assoc by lia.
  rewrite N.Div0.add_mod_idemp_l, N.add_sub_assoc by lia.
  rewrite N.add_sub_swap by done. rewrite <-(N.mul_1_l two64) at 1. by rewrite N.Div0.mod_add.
Qed.

Definition wrapped (n : nat) : N := u64_wrap (N.of_nat n).

Lemma wrapped_S n : u64_add (wrapped n) 1 = wrapped (S n).
Proof. unfold wrapped. rewrite u64_wrap_add. f_equal. lia. Qed.

Lemma wrapped_pred n : u64_sub (wrapped (S n)) 1 = wrapped n.
Proof. unfold wrapped. rewrite u64_wrap_pred by (done || lia). f_equal. lia. Qed.

Definition is_rejected (o : outcome) : bool := match o with Rejected _ => true | _ => false end.
Definition is_written (o : outcome) : bool :=
  match o with Settled ev => bool_decide (status ev = Written) | _ => false end.
Definition is_dup (o : outcome) : bool := negb (is_rejected o) && negb (is_written o).

Definition count (p : outcome → bool) (l : list outcome) : nat := length (List.filter p l).

Lemma count_app p l1 l2 : count p (l1 ++ l2) = count p l1 + count p l2.
Proof. unfold count. by rewrite List.filter_app, length_app. Qed.

Lemma count_split l : count is_written l + count is_rejected l + count is_dup l = length l.
Proof.
  unfold count. induction l as [|o l IH]; [done|]. unfold is_dup in *. simpl.
  destruct o; simpl; [lia|lia|]. case_bool_decide; simpl; lia.
Qed.

(** The counters when [n] events were handed in and [k] are still on their way
    to the read transaction. *)
Record counters_ok (c : counters) (n k : nat) (log : list outcome) : Prop := {
  co_processed : totalProcessed c = wrapped n;
  co_live : numLive c = wrapped k;
  co_written : totalWritten c = wrapped (count is_written log);
  co_rejected : totalRejected c = wrapped (count is_rejected log);
  co_dups : totalDups c = wrapped (count is_dup log);
}.

Lemma counters_add c n k log : counters_ok c n k log → counters_ok (add_processed c) (S n) (S k) log.
Proof. intros []. split; simpl; try done; rewrite <-wrapped_S; by f_equal. Qed.

Lemma counters_leave c n k log : counters_ok c n (S k) log → counters_ok (leave_live c) n k log.
Proof. intros []. split; simpl; try done. rewrite <-wrapped_pred. by f_equal. Qed.

Lemma outcomes_snoc p l o : count p (l ++ [o]) = if p o then S (count p l) else count p l.
Proof. rewrite count_app. unfold count at 2. simpl. destruct (p o); simpl; lia. Qed.

Lemma wrapped_snoc c p l o : c = wrapped (count p l) →
  (if p o then u64_add c 1 else c) = wrapped (count p (l ++ [o])).
Proof. intros ->. rewrite outcomes_snoc. destruct (p o); [apply wrapped_S|done]. Qed.

Lemma counters_rejected c n k log v : counters_ok c n k log →
  counters_ok (add_rejected c) n k (log ++ [Rejected v]).
Proof.
  intros []. split; try done.
  - by apply (wrapped_snoc _ is_written log (Rejected v)).
  - by apply (wrapped_snoc _ is_rejected log (Rejected v)).
  - by apply (wrapped_snoc _ is_dup log (Rejected v)).
Qed.

Lemma counters_known c n k log ev : counters_ok c n k log →
  counters_ok (add_dup c) n k (log ++ [Known ev]).
Proof.
  intros []. split; try done.
  - by apply (wrapped_snoc _ is_written log (Known ev)).
  - by apply (wrapped_snoc _ is_rejected log (Known ev)).
  - by apply (wrapped_snoc _ is_dup log (Known ev)).
Qed.

Lemma counters_settled c n k log ev : counters_ok c n k log →
  counters_ok (count_event c ev) n k (log ++ [Settled ev]).
Proof.
  intros []. pose proof (wrapped_snoc _ is_written log (Settled ev) co_written0) as Hw.
  pose proof (wrapped_snoc _ is_rejected log (Settled ev) co_rejected0) as Hr.
  pose proof (wrapped_snoc _ is_dup log (Settled ev) co_dups0) as Hd.
  unfold is_dup in Hd. simpl in Hw, Hr, Hd. unfold count_event.
  destruct (decide (status ev = Written)) as [Hs|Hs].
  - rewrite (bool_decide_eq_true_2 _ Hs) in Hw, Hd. by split.
  - rewrite (bool_decide_eq_false_2 _ Hs) in Hw, Hd. by split.
Qed.

Lemma counters_settle c n k log out : counters_ok c n k log →
  counters_ok (foldl count_event c out) n k (log ++ (Settled <$> out)).
Proof.
  revert c log. induction out as [|ev out IH]; intros c log Hc; [by rewrite app_nil_r|].
  rewrite fmap_cons, (cons_middle (Settled ev)), app_assoc. by apply IH, counters_settled.
Qed.

(** ** Where the events are *)

Lemma filter_every {A : Type} (P : A → Prop) `{!∀ x, Decision (P x)} (l : list A) :
  Forall P l → filter P l = l.
Proof.
  induction 1 as [|x l Hx _ IH]; [done|]. by rewrite filter_cons_True, IH.
Qed.

Lemma filter_nothing {A : Type} (P : A → Prop) `{!∀ x, Decision (P x)} (l : list A) :
  Forall (λ x, ¬ P x) l → filter P l = [].
Proof. induction 1 as [|x l Hx _ IH]; [done|]. by rewrite filter_cons_False, IH. Qed.

Section pipeline.
Context `{!Hex, !NativeU64, !GolpeKeys, !Env, !EventLibs, !JsonParser} (cfg : Config).
Variable sort_events : list EventToWrite → list EventToWrite.
Variables (writeBatchSize : N) (verifyMsg verifyTime : bool).
Context (hex_errors : ∀ s b, only_caught (from_hex s b)).
Context (sort_ok : ∀ l, std_sorts l (sort_events l)).

(** What a client hands in. *)
Inductive handed := HJson (v : value) | HEvent (ev : EventToWrite).

Definition live_jobs (s : pipeline) : list value :=
  match validator s with
  | V_wait => validatorInbox s
  | V_busy l => l ++ validatorInbox s
  | V_done => []
  end.

Definition queue (s : pipeline) : list EventToWrite :=
  match writer s with W_read l => l | _ => [] end ++ writerInbox s.

Definition batch (s : pipeline) : list EventToWrite :=
  match writer s with W_write l => l | _ => [] end.

(** The events that [numLive] counts. *)
Definition in_flight (s : pipeline) : nat :=
  length (filter (λ v, is_null v = false) (live_jobs s)) +
  length (filter (λ ev, packedStr ev ≠ []) (queue s)).

Definition stop_list (stop : bool) : list EventToWrite := if stop then [stop_event] else [].

(** An event ready to be written. *)
Definition good (ev : EventToWrite) : Prop := ∃ e, pending_for e ev.

Lemma good_packed ev : good ev → packedStr ev ≠ [].
Proof.
  intros (e & -> & _ & [He _]) Hn. pose proof (view_encode e He) as Hv. rewrite Hn in Hv.
  by vm_compute in Hv.
Qed.

(** The values [J] and then [k] nulls are left to validate, the events [E] and
    then perhaps the stop message are left to filter. *)
Record shape (s : pipeline) (J : list value) (k : nat) (E : list EventToWrite) (stop : bool) : Prop := {
  sh_jobs : live_jobs s = J ++ replicate k JNull;
  sh_values : Forall (λ v, is_null v = false ∧ json_u64 v = true) J;
  sh_queue : queue s = E ++ stop_list stop;
  sh_events : Forall good E;
  sh_batch : Forall good (batch s);
  sh_flush : flushCalled s = true ↔ validator s = V_done ∨ k ≠ 0;
  sh_done : validator s = V_done ↔ stop = true ∨ shutdownComplete s = true;
  sh_complete : shutdownComplete s = true → stop = false ∧ E = [] ∧ writer s ≠ W_wait ∧
    (∀ l, writer s ≠ W_read l);
  sh_running : shutdownComplete s = false → writer s ≠ W_done;
  sh_reply : flushInbox s = match writer s with W_done => [true] | _ => [] end;
  sh_read : writer s ≠ W_read [];
}.

Lemma shape_in_flight s J k E stop : shape s J k E stop → in_flight s = length J + length E.
Proof.
  intros []. unfold in_flight. rewrite sh_jobs0, sh_queue0, !filter_app, !length_app.
  rewrite (filter_every _ J), (filter_every _ E).
  - assert (filter (λ v, is_null v = false) (replicate k JNull) = []) as ->.
    { apply filter_nothing. by apply Forall_replicate. }
    assert (filter (λ ev, packedStr ev ≠ []) (stop_list stop) = []) as ->.
    { apply filter_nothing. destruct stop; repeat constructor. by intros ?. }
    simpl. lia.
  - eapply Forall_impl; [done|apply good_packed].
  - eapply Forall_impl; [done|]. by intros v [? _].
Qed.

(** ** The turns of the threads *)

Lemma parsed_good now v p j :
  parseAndVerifyEvent cfg now v verifyMsg verifyTime = Ok (p, j) → json_u64 v = true →
  good (EventToWrite_make p j 0).
Proof.
  intros Hp Hv. unfold parseAndVerifyEvent in Hp.
  apply bind_Ok_inv in Hp as (_ & _ & Hp). apply bind_Ok_inv in Hp as (s & Hs & Hp).
  destruct (nostrJsonToPackedEvent_Ok cfg v s Hs) as (e & He & -> & Hj); [by apply json_u64_field..|].
  repeat apply bind_Ok_inv in Hp as (? & _ & Hp). injection Hp as <- _.
  exists e. unfold pending_for. split_and!; [done|done|]. split; [done|]. intros b. apply Hj.
Qed.

(** ** The ledger: every event handed in is somewhere *)

Definition came_from (h : handed) (ev : EventToWrite) : Prop :=
  match h with
  | HJson v => ∃ now,
      parseAndVerifyEvent cfg now v verifyMsg verifyTime = Ok (packedStr ev, jsonStr ev)
  | HEvent ev0 => same_input ev0 ev
  end.

(** A rejected event was invalid; the others kept their content. *)
Definition accounts (h : handed) (o : outcome) : Prop :=
  match o with
  | Rejected v => h = HJson v ∧ ∃ now e,
      parseAndVerifyEvent cfg now v verifyMsg verifyTime = Throw e
  | Known ev | Settled ev => came_from h ev
  end.

Definition ledger (hs : list handed) (J : list value) (E B : list EventToWrite)
    (log : list outcome) : Prop :=
  ∃ hw hp hd, hs ≡ₚ (HJson <$> J) ++ hw ++ hp ++ hd ∧
    Forall2 came_from hw E ∧ Forall2 came_from hp B ∧ Forall2 accounts hd log.

Lemma came_from_same h ev ev' : came_from h ev → same_input ev ev' → came_from h ev'.
Proof.
  destruct h as [v|ev0]; intros Hf (Hp & Hj & Hu); simpl in *; [by rewrite Hp, Hj|].
  destruct Hf as (? & ? & ?). split_and!; congruence.
Qed.

Lemma ledger_json hs J E B log v : ledger hs J E B log →
  ledger (hs ++ [HJson v]) (J ++ [v]) E B log.
Proof.
  intros (hw & hp & hd & Hp & ? & ? & ?). exists hw, hp, hd. split; [|done].
  rewrite Hp, fmap_app. simpl. solve_Permutation.
Qed.

Lemma ledger_event hs J E B log ev : ledger hs J E B log →
  ledger (hs ++ [HEvent ev]) J (E ++ [ev]) B log.
Proof.
  intros (hw & hp & hd & Hp & ? & ? & ?). exists (hw ++ [HEvent ev]), hp, hd. split_and!; [| |done..].
  - rewrite Hp. solve_Permutation.
  - apply Forall2_app; [done|]. by repeat constructor.
Qed.

Lemma ledger_valid hs J E B log v ev : ledger hs (v :: J) E B log → came_from (HJson v) ev →
  ledger hs J (E ++ [ev]) B log.
Proof.
  intros (hw & hp & hd & Hp & ? & ? & ?) Hf. exists (hw ++ [HJson v]), hp, hd. split_and!; [| |done..].
  - rewrite Hp, fmap_cons. solve_Permutation.
  - apply Forall2_app; [done|]. by repeat constructor.
Qed.

Lemma ledger_reject hs J E B log v o : ledger hs (v :: J) E B log → accounts (HJson v) o →
  ledger hs J E B (log ++ [o]).
Proof.
  intros (hw & hp & hd & Hp & ? & ? & ?) Hf. exists hw, hp, (hd ++ [HJson v]). split_and!; [|done..|].
  - rewrite Hp, fmap_cons. solve_Permutation.
  - apply Forall2_app; [done|]. by repeat constructor.
Qed.

Lemma ledger_known hs J E B log ev : ledger hs J (ev :: E) B log →
  ledger hs J E B (log ++ [Known ev]).
Proof.
  intros (hw & hp & hd & Hp & (h & hw' & ? & ? & ->)%Forall2_cons_inv_r & ? & ?).
  exists hw', hp, (hd ++ [h]). split_and!; [|done..|].
  - rewrite Hp. solve_Permutation.
  - apply Forall2_app; [done|]. by repeat constructor.
Qed.

Lemma ledger_take hs J E B log ev : ledger hs J (ev :: E) B log →
  ledger hs J E (B ++ [ev]) log.
Proof.
  intros (hw & hp & hd & Hp & (h & hw' & ? & ? & ->)%Forall2_cons_inv_r & ? & ?).
  exists hw', (hp ++ [h]), hd. split_and!; [|done| |done].
  - rewrite Hp. solve_Permutation.
  - apply Forall2_app; [done|]. by repeat constructor.
Qed.

Lemma ledger_settle hs J E B B' out log : ledger hs J E B log → B' ≡ₚ B →
  Forall2 same_input B' out → ledger hs J E [] (log ++ (Settled <$> out)).
Proof.
  intros (hw & hp & hd & Hp & Hw & Hb & Hd) HB Hout.
  destruct (Permutation_Forall2 _ _ _ _ HB Hb) as (hp' & Hhp & Hb').
  exists hw, [], (hd ++ hp'). split_and!; [|done|constructor|].
  - rewrite Hp, Hhp. solve_Permutation.
  - apply Forall2_app; [done|]. apply Forall2_fmap_r. simpl.
    eapply (Forall2_trans came_from same_input); [|done..].
    intros h ev ev'. apply came_from_same.
Qed.

(** What the log says of an event holds of the databases [ds] the run has seen:
    a known event was stored in one of them; a settled event has its final
    status, and if this is written or duplicate it is [entitled] to it, in its
    place in a batch of settled events that was written to one of them. *)
Definition held (ds : list env) (log : list outcome) (o : outcome) : Prop :=
  match o with
  | Rejected _ => True
  | Known ev => ∃ e d m, packedStr ev = encode e ∧ d ∈ ds ∧ repr d m ∧ id_stored m (ev_id e)
  | Settled ev => status ev ≠ Pending ∧
      (status ev = Written ∨ status ev = Duplicate → ∃ d m d' m' e before later,
        d ∈ ds ∧ repr d m ∧ d' ∈ ds ∧ repr d' m' ∧ packedStr ev = encode e ∧
        (∀ e' ev', (e', ev') ∈ before ++ later → packedStr ev' = encode e' ∧ Settled ev' ∈ log) ∧
        entitled m before e (status ev) later m')
  end.

Lemma held_mono ds ds' log log' o : (∀ d, d ∈ ds → d ∈ ds') → (∀ x, x ∈ log → x ∈ log') →
  held ds log o → held ds' log' o.
Proof.
  intros Hd Hl. destruct o as [v|ev|ev]; simpl; [done|..].
  - intros (e & d & m & ? & ? & ?). exists e, d, m. naive_solver.
  - intros [Hs Hh]. split; [done|].
    intros (d & m & d' & m' & e & before & later & ? & ? & ? & ? & ? & Hin & ?)%Hh.
    exists d, m, d', m', e, before, later. split_and!; try done; [by apply Hd..|]. intros e' ev' [? ?]%Hin. auto.
Qed.

Definition all_held (ds : list env) (log : list outcome) : Prop := ∀ o, o ∈ log → held ds log o.

Lemma all_held_app ds log log' : all_held ds log → (∀ o, o ∈ log' → held ds (log ++ log') o) →
  all_held ds (log ++ log').
Proof.
  intros Hl Hl' o [Ho|Ho]%elem_of_app; [|by apply Hl'].
  eapply held_mono; [done| |by apply Hl]. set_solver.
Qed.

Lemma all_held_more ds log d : all_held ds log → all_held (ds ++ [d]) log.
Proof. intros Hl o Ho. eapply held_mono; [|done|by apply Hl]. set_solver. Qed.

(** The books after [n] events were handed in, with the values [J], the events
    [E] and the batch [B] under way. *)
Record books (ds : list env) (hs : list handed) (s : pipeline) (J : list value)
    (E B : list EventToWrite) : Prop := {
  bk_counters : counters_ok (stats s) (length hs) (length J + length E) (pl_log s);
  bk_ledger : ledger hs J E B (pl_log s);
  bk_held : all_held ds (pl_log s);
}.


Definition same_side (s s' : pipeline) : Prop :=
  validator s' = validator s ∧ validatorInbox s' = validatorInbox s ∧
  flushInbox s' = flushInbox s ∧ flushCalled s' = flushCalled s.

(** After the loop in the read transaction. *)
Record filtered (ds : list env) (hs : list handed) (J : list value) (s : pipeline) (stop : bool)
    (s' : pipeline) (E' : list EventToWrite) (stop' : bool) : Prop := {
  fi_writer : ∃ proc', writer s' = W_write proc' ∧ Forall good proc' ∧ books ds hs s' J E' proc';
  fi_inbox : writerInbox s' = E' ++ stop_list stop';
  fi_good : Forall good E';
  fi_stop : shutdownComplete s' = false ∧ stop' = stop ∨
    shutdownComplete s' = true ∧ stop = true ∧ stop' = false ∧ E' = [];
  fi_side : same_side s s';
}.

Lemma filtered_from ds hs J s0 s stop s' E' stop' : same_side s0 s →
  filtered ds hs J s stop s' E' stop' → filtered ds hs J s0 stop s' E' stop'.
Proof.
  intros (? & ? & ? & ?) [? ? ? ? (? & ? & ? & ?)]. split; try done. split_and!; congruence.
Qed.

Lemma books_known d m ds hs s J E B ev e : d ∈ ds → repr d m → packedStr ev = encode e →
  id_stored m (ev_id e) → books ds hs s J (ev :: E) B →
  books ds hs (add_log (set_stats (set_stats s (leave_live (stats s)))
    (add_dup (leave_live (stats s)))) [Known ev]) J E B.
Proof.
  intros Hd Hr Hp Hi [Hc Hl Hh]. split; simpl.
  - apply counters_known, counters_leave. simpl in Hc. by rewrite Nat.add_succ_r in Hc.
  - by apply ledger_known.
  - apply all_held_app; [done|]. intros o ->%list_elem_of_singleton. by exists e, d, m.
Qed.

Lemma books_take ds hs s J E B ev : books ds hs s J (ev :: E) B →
  books ds hs (set_stats s (leave_live (stats s))) J E (B ++ [ev]).
Proof.
  intros [Hc Hl Hh]. split; simpl; [|by apply ledger_take|done].
  apply counters_leave. simpl in Hc. by rewrite Nat.add_succ_r in Hc.
Qed.

Lemma prefilter_run d m ds hs J : repr d m → d ∈ ds → ∀ l s proc E stop,
  l ++ writerInbox s = E ++ stop_list stop → Forall good E → Forall good proc →
  books ds hs s J E proc → shutdownComplete s = false →
  ∃ s' E' stop', prefilter writeBatchSize d s proc l = Ok s' ∧
    filtered ds hs J s stop s' E' stop' ∧
    length (writerInbox s') ≤ length (l ++ writerInbox s) ∧
    (l ≠ [] → (N.of_nat (length proc) < writeBatchSize)%N →
     length (writerInbox s') < length (l ++ writerInbox s)).
Proof.
  intros Hr Hd. induction l as [|ev l IH]; intros s proc E stop Hq HE Hproc Hbk Hc.
  { eexists _, E, stop. split; [done|]. split; [|done]. split; try done; [|by left].
    exists proc. split_and!; try done. by destruct Hbk. }
  cbn [prefilter]. destruct (N.leb_spec writeBatchSize (N.of_nat (length proc))).
  { eexists _, E, stop. split; [done|]. split; [|split; [done|lia]]. split; try done; [|by left].
    exists proc. split_and!; try done. by destruct Hbk. }
  destruct E as [|ev' E]; simpl in Hq.
  { destruct stop; [|done]. injection Hq as -> [-> Hi]%app_eq_nil.
    eexists _, [], false. split; [done|]. simpl. rewrite Hi. split; [|simpl; split; lia].
    split; try done; [|by right].
    exists proc. split_and!; try done. by destruct Hbk. }
  injection Hq as -> Hq. apply Forall_cons in HE as [(e & He & Hpend & Hok) HE].
  assert (wf_event e) as Hwf by apply Hok.
  destruct (Nat.eqb_spec (length (packedStr ev')) 0) as [Hz|_].
  { rewrite He, encode_length in Hz by done. lia. }
  rewrite He, view_encode by done. cbn [mbind result_bind]. rewrite id_encode by done.
  pose proof (lookupEventById_spec d m (ev_id e) Hr (wf_id e Hwf)) as Hl.
  destruct (lookupEventById d (ev_id e)) as [[lv b]|].
  - edestruct (IH (add_log (set_stats (set_stats s (leave_live (stats s)))
      (add_dup (leave_live (stats s)))) [Known ev']) proc E stop) as (s' & E' & stop' & Hrun & Hf & Hlen & _);
      [done|done|done| |done|].
    { eapply books_known; [done..| |done]. destruct Hl as (o & ? & ? & ?). by exists lv, o. }
    exists s', E', stop'. split; [done|]. split; [by eapply filtered_from; [|exact Hf]; split_and!|].
    simpl in *. split; intros; lia.
  - destruct (IH (set_stats s (leave_live (stats s))) (proc ++ [ev']) E stop)
      as (s' & E' & stop' & Hrun & Hf & Hlen & _); [done|done| |by apply books_take|done|].
    { apply Forall_app. split; [done|]. apply Forall_singleton. by exists e. }
    exists s', E', stop'. split; [done|]. split; [by eapply filtered_from; [|exact Hf]; split_and!|].
    simpl in *. split; intros; lia.
Qed.

(** *** The write transaction *)

Record db_good (fs : list (NostrFilter * N)) (c : NegentropyFilterCache) (d : env) : Prop := {
  dg_filters : db_filters d fs;
  dg_cache : cache_coherent c d;
  dg_store : ∃ m, store_inv fs d m;
}.

(** LevIds for the next batch. *)
Definition room (x : system) : Prop :=
  (getMostRecentLevId x.1.2 + N.of_nat (length (batch x.2)) ≤ MAX_U64)%N.

Lemma good_events B : Forall good B → ∃ es, Forall2 pending_for es B.
Proof.
  induction 1 as [|ev B [e He] _ [es Hes]]; [by exists []|]. exists (e :: es). by constructor.
Qed.

Lemma Forall2_zip {A B : Type} (P : A → B → Prop) l k x y :
  Forall2 P l k → (x, y) ∈ zip l k → P x y ∧ y ∈ k.
Proof.
  induction 1 as [|x' y' l k HP _ IH]; [by intros ?%not_elem_of_nil|].
  intros [[= -> ->]|Hin]%elem_of_cons; [split; [done|by constructor]|].
  destruct (IH Hin). split; [done|by constructor].
Qed.

Lemma Forall2_zip_back {A B : Type} (P : A → B → Prop) l k y :
  Forall2 P l k → y ∈ k → ∃ x, (x, y) ∈ zip l k.
Proof.
  induction 1 as [|x' y' l k HP _ IH]; [by intros ?%not_elem_of_nil|].
  intros [->|Hin]%elem_of_cons; [exists x'; by constructor|].
  destruct (IH Hin) as [x Hx]. exists x. by constructor.
Qed.

Lemma settled_held ds d d' m m' (es' : list event) evs' out log :
  Forall2 pending_for es' evs' → Forall2 same_input evs' out → repr d m → d ∈ ds → repr d' m' → d' ∈ ds →
  write_specs None m (zip es' out) m' → Forall (λ ev, status ev ≠ Pending) out →
  ∀ o, o ∈ Settled <$> out → held ds (log ++ (Settled <$> out)) o.
Proof.
  intros Hpend Hin Hr0 Hd0 Hr Hd Hws Hst o (ev & -> & Hev)%list_elem_of_fmap.
  assert (Forall2 (λ e ev, packedStr ev = encode e) es' out) as Hpk.
  { eapply Forall2_trans; [|exact Hpend|exact Hin]. by intros e ev1 ev2 [<- _] [<- _]. }
  split; [rewrite Forall_forall in Hst; by apply Hst|]. intros Hw.
  destruct (Forall2_zip_back _ _ _ _ Hpk Hev) as [e Hz].
  pose proof (Forall2_zip _ _ _ _ _ Hpk Hz) as [Hpe _].
  apply list_elem_of_split in Hz as (before & later & Hz).
  exists d, m, d', m', e, before, later. split_and!; try done.
  - intros e' ev' Hin'. assert ((e', ev') ∈ zip es' out) as [? ?]%(Forall2_zip _ _ _ _ _ Hpk)
      by (rewrite Hz; set_solver). split; [done|]. set_solver.
  - by apply (write_specs_entitled m None m _ m' Hws [] (in_batch_start m) before e ev later).
Qed.

Lemma write_batch_run fs c d s m ds hs J E proc : db_filters d fs → cache_coherent c d →
  store_inv fs d m → Forall good proc →
  (getMostRecentLevId d + N.of_nat (length proc) ≤ MAX_U64)%N → d ∈ ds → books ds hs s J E proc →
  ∃ c' d' s', write_batch sort_events c d s proc = Ok (c', d', end_turn s') ∧
    same_side s s' ∧ writerInbox s' = writerInbox s ∧ shutdownComplete s' = shutdownComplete s ∧
    db_good fs c' d' ∧ books (ds ++ [d']) hs s' J E [].
Proof.
  intros Hf Hc Hinv Hgood Hroom Hd [Hco Hl Hh]. unfold write_batch.
  destruct (Nat.eqb_spec (length proc) 0) as [->%length_zero_iff_nil|Hne].
  { exists c, d, s. split; [done|]. split; [by split_and!|]. do 2 (split; [done|]).
    split; [split; try done; by exists m|]. split; try done. by apply all_held_more. }
  destruct (good_events proc Hgood) as [es Hes].
  destruct (batch_outcome c d m fs es proc (sort_events proc))
    as (c' & d' & out & es' & m' & Hw & _ & _ & Hin & Hws & Hinv' & Hbr & Hf' & Hc' & _ & _ & Hpend).
  { by split. }
  rewrite Hw. cbn [mbind result_bind]. exists c', d', (settle s out). split; [done|].
  split; [by split_and!|]. do 2 (split; [done|]). split; [split; try done; by exists m'|].
  split; simpl.
  - by apply counters_settle.
  - by eapply ledger_settle, Hin; [|apply sort_ok].
  - apply all_held_app; [by apply all_held_more|].
    eapply settled_held; [exact Hpend|exact Hin|apply (proj1 Hinv)|set_solver|apply (proj1 Hinv')|set_solver|exact Hws|apply Hbr].
Qed.

(** ** The invariant, turn by turn *)

Definition flow (ds : list env) (hs : list handed) (s : pipeline) : Prop :=
  ∃ J k E stop, shape s J k E stop ∧ books ds hs s J E (batch s).

(** What the threads can still do. *)
Definition measure (s : pipeline) : nat :=
  6 * length (validatorInbox s) +
  match validator s with V_busy l => 4 * length l + 1 | _ => 0 end +
  3 * length (queue s) +
  match writer s with W_write _ => 3 | W_wait => 2 | W_read _ => 1 | W_done => 0 end.

Lemma books_more ds hs s J E B d : books ds hs s J E B → books (ds ++ [d]) hs s J E B.
Proof. intros []. split; try done. by apply all_held_more. Qed.

Lemma flow_more ds hs s d : flow ds hs s → flow (ds ++ [d]) hs s.
Proof. intros (J & k & E & stop & Hs & Hb). exists J, k, E, stop. split; [done|by apply books_more]. Qed.

Lemma flow_new d : flow [d] [] new_pipeline.
Proof.
  exists [], 0, [], false. split.
  - split; try done; simpl; naive_solver.
  - split; [done| |by intros o ?%not_elem_of_nil]. exists [], [], []. by split_and!.
Qed.

(** Before the client calls [flush] both threads run. *)
Lemma shape_unflushed s J k E stop : shape s J k E stop → flushCalled s = false →
  k = 0 ∧ stop = false ∧ shutdownComplete s = false ∧ validator s ≠ V_done.
Proof.
  intros [_ _ _ _ _ Hf Hd _ _ _ _] Hn. rewrite Hn in Hf.
  assert (validator s ≠ V_done) as Hv by naive_solver. split_and!; [|..|done].
  - destruct k; [done|]. naive_solver.
  - destruct stop; naive_solver.
  - destruct (shutdownComplete s); naive_solver.
Qed.

Lemma flow_json ds hs s v : flow ds hs s → flushCalled s = false → json_u64 v = true →
  flow ds (if is_null v then hs else hs ++ [HJson v]) (write_json s v).
Proof.
  intros (J & k & E & stop & Hs & Hb) Hn Hv. unfold write_json. destruct (is_null v) eqn:Hnull.
  { by exists J, k, E, stop. }
  destruct (shape_unflushed _ _ _ _ _ Hs Hn) as (-> & -> & Hc & Hd).
  exists (J ++ [v]), 0, E, false. destruct Hs as [Hj HJ]. split.
  - split; try done.
    + revert Hj. unfold live_jobs. simpl. rewrite !app_nil_r.
      destruct (validator s); [by intros ->|by intros <-; rewrite app_assoc|done].
    + apply Forall_app. split; [done|]. by apply Forall_singleton.
  - destruct Hb as [Hco Hl Hh]. split; simpl; try done; [|by apply ledger_json].
    rewrite !length_app. simpl. rewrite !Nat.add_1_r. by apply counters_add.
Qed.

Lemma flow_event ds hs s ev : flow ds hs s → flushCalled s = false → good ev →
  flow ds (hs ++ [HEvent ev]) (write_event s ev).
Proof.
  intros (J & k & E & stop & Hs & Hb) Hn Hev.
  destruct (shape_unflushed _ _ _ _ _ Hs Hn) as (-> & -> & Hc & Hd).
  exists J, 0, (E ++ [ev]), false. destruct Hs as [Hj HJ Hq]. split.
  - split; try done.
    + revert Hq. unfold queue. simpl. rewrite !app_nil_r. intros <-. by rewrite app_assoc.
    + apply Forall_app. split; [done|]. by apply Forall_singleton.
    + simpl. rewrite Hc. done.
  - destruct Hb as [Hco Hl Hh]. split; simpl; try done; [|by apply ledger_event].
    rewrite !length_app. simpl. rewrite !Nat.add_1_r, Nat.add_succ_r. by apply counters_add.
Qed.

Lemma flow_flush ds hs s : flow ds hs s → flow ds hs (flush s).
Proof.
  intros (J & k & E & stop & Hs & Hb). pose proof Hs as [Hj HJ Hq ? ? Hf Hd].
  assert (validator s = V_done ∨ validator s ≠ V_done) as [Hv|Hv] by (destruct (validator s); auto).
  - exists J, k, E, stop. split; [|by destruct Hb]. split; try done.
    + revert Hj. unfold live_jobs. simpl. by rewrite Hv.
    + simpl. split; [by left|done].
  - exists J, (S k), E, stop. split; [|by destruct Hb]. split; try done.
    + rewrite replicate_S_end, app_assoc, <-Hj. unfold live_jobs. simpl.
      destruct (validator s); [done|by rewrite app_assoc|done].
    + simpl. split; [by right|done].
Qed.

Lemma flow_validator_pop ds hs s : flow ds hs s → validator s = V_wait → validatorInbox s ≠ [] →
  flow ds hs (validator_pop s) ∧ measure (validator_pop s) < measure s.
Proof.
  intros (J & k & E & stop & Hs & Hb) Hv Hi. split.
  - exists J, k, E, stop. split; [|by destruct Hb].
    destruct Hs as [Hj ? ? ? ? Hf Hd]. rewrite Hv in Hf, Hd.
    split; try done; simpl; [|naive_solver..].
    revert Hj. unfold live_jobs. rewrite Hv. simpl. by rewrite app_nil_r.
  - unfold measure, queue. rewrite Hv. simpl. destruct (validatorInbox s); [done|]. simpl. lia.
Qed.

Lemma flow_validator_again ds hs s : flow ds hs s → validator s = V_busy [] →
  flow ds hs (set_validator s V_wait) ∧ measure (set_validator s V_wait) < measure s.
Proof.
  intros (J & k & E & stop & Hs & Hb) Hv. split.
  - exists J, k, E, stop. split; [|by destruct Hb].
    destruct Hs as [Hj ? ? ? ? Hf Hd]. rewrite Hv in Hf, Hd.
    split; try done; simpl; [|naive_solver..].
    revert Hj. unfold live_jobs. by rewrite Hv.
  - unfold measure, queue. rewrite Hv. simpl. lia.
Qed.

Lemma flow_stop ds hs s rest : flow ds hs s → validator s = V_busy (JNull :: rest) →
  flow ds hs (stop_validator s) ∧ measure (stop_validator s) < measure s.
Proof.
  intros (J & k & E & stop & Hs & Hb) Hv. split.
  - destruct Hs as [Hj HJ Hq ? ? Hf Hd ? ?]. unfold live_jobs in Hj. rewrite Hv in Hj, Hd.
    assert (J = []) as ->.
    { destruct J as [|v J]; [done|]. injection Hj as <- _. by apply Forall_inv in HJ as [? _]. }
    assert (k ≠ 0) as Hk by (by destruct k).
    assert (stop = false ∧ shutdownComplete s = false) as [-> Hc].
    { destruct stop, (shutdownComplete s); naive_solver. }
    exists [], 0, E, true. split; [|by destruct Hb].
    split; try done; simpl.
    + revert Hq. unfold queue. simpl. rewrite app_nil_r. intros <-. by rewrite app_assoc.
    + split; [by left|]. intros _. apply Hf. by right.
    + split; [by left|done].
    + by rewrite Hc.
  - unfold measure, queue. rewrite Hv. simpl. rewrite !length_app. simpl. lia.
Qed.

Lemma flow_busy ds hs s v rest : flow ds hs s → validator s = V_busy (v :: rest) → is_null v = false →
  ∃ J k E, shape s (v :: J) k E false ∧ books ds hs s (v :: J) E (batch s) ∧
    rest ++ validatorInbox s = J ++ replicate k JNull ∧ shutdownComplete s = false.
Proof.
  intros (J & k & E & stop & Hs & Hb) Hv Hn. pose proof Hs as [Hj HJ Hq ? ? Hf Hd ? ?].
  unfold live_jobs in Hj. rewrite Hv in Hj, Hd. destruct J as [|v' J].
  { destruct k; [done|]. injection Hj as -> _. done. }
  injection Hj as <- Hj. assert (stop = false ∧ shutdownComplete s = false) as [-> Hc].
  { destruct stop, (shutdownComplete s); naive_solver. }
  by exists J, k, E.
Qed.

Lemma flow_validate ds hs s now v rest : flow ds hs s → validator s = V_busy (v :: rest) →
  ∃ s', validate cfg verifyMsg verifyTime now s v rest = Ok s' ∧ flow ds hs s' ∧
    measure s' < measure s ∧ writer s' = writer s.
Proof.
  intros Hfl Hv. unfold validate. destruct (is_null v) eqn:Hn.
  { destruct v; try done. destruct (flow_stop _ _ _ _ Hfl Hv) as [? ?]. by exists (stop_validator s). }
  destruct (flow_busy _ _ _ _ _ Hfl Hv Hn) as (J & k & E & Hs & Hb & Hj & Hc).
  destruct Hs as [_ HJ Hq ? ? Hf Hd]. rewrite Hv in Hf, Hd. destruct Hb as [Hco Hl Hh].
  pose proof (Forall_inv HJ) as [_ Hu]. apply Forall_inv_tail in HJ.
  destruct (parseAndVerifyEvent cfg now v verifyMsg verifyTime) as [[p j]|e] eqn:Hp.
  - eexists. split; [done|]. split_and!; [|unfold measure, queue; rewrite Hv; simpl;
      rewrite !length_app; simpl; lia|done].
    exists J, k, (E ++ [EventToWrite_make p j 0]), false. split.
    + split; try done; simpl.
      * revert Hq. unfold queue. simpl. rewrite !app_nil_r. intros <-. by rewrite app_assoc.
      * apply Forall_app. split; [done|]. apply Forall_singleton. by eapply parsed_good.
      * naive_solver.
      * naive_solver.
      * by rewrite Hc.
    + split; simpl; [by rewrite length_app, Nat.add_1_r, Nat.add_succ_r| |done].
      eapply ledger_valid; [done|]. by exists now.
  - pose proof (caught_parseAndVerifyEvent cfg hex_errors now v verifyMsg verifyTime e Hp) as ->.
    eexists. split; [done|]. split_and!; [|unfold measure, queue; rewrite Hv; simpl; lia|done].
    exists J, k, E, false. split.
    + split; try done; simpl; naive_solver.
    + split; simpl.
      * by apply counters_rejected, counters_leave.
      * eapply ledger_reject; [done|]. split; [done|]. by exists now, e.
      * apply all_held_app; [done|]. by intros o ->%list_elem_of_singleton.
Qed.

Lemma flow_writer_pop ds hs s : flow ds hs s → writer s = W_wait → writerInbox s ≠ [] →
  flow ds hs (writer_pop s) ∧ measure (writer_pop s) < measure s.
Proof.
  intros (J & k & E & stop & Hs & Hb) Hw Hi. split.
  - destruct Hs as [? ? Hq ? ? ? ? Hco ? ?]. unfold queue in Hq. unfold batch in *. rewrite Hw in *.
    exists J, k, E, stop. split; [|by destruct Hb].
    split; try done; simpl.
    + rewrite <-Hq. unfold queue. simpl. by rewrite app_nil_r.
    + intros (_ & _ & ? & _)%Hco. done.
    + by injection 1.
  - unfold measure, queue. rewrite Hw. simpl. rewrite app_nil_r. destruct (validator s); lia.
Qed.

Lemma flow_prefilter d m ds hs s l : repr d m → d ∈ ds → (0 < writeBatchSize)%N → flow ds hs s →
  writer s = W_read l →
  ∃ s', prefilter writeBatchSize d s [] l = Ok s' ∧ flow ds hs s' ∧ measure s' < measure s.
Proof.
  intros Hr Hd Hpos (J & k & E & stop & Hs & Hb) Hw.
  destruct Hs as [? ? Hq HE ? Hf Hdn Hco ? Hrep Hread]. unfold queue, batch in *. rewrite Hw in *.
  assert (shutdownComplete s = false) as Hc.
  { destruct (shutdownComplete s); [|done]. destruct Hco as (_ & _ & _ & Hn); [done|]. by destruct (Hn l). }
  destruct (prefilter_run d m ds hs J Hr Hd l s [] E stop) as (s' & E' & stop' & Hrun & Hfi & _ & Hlt);
    try done.
  destruct Hfi as [(proc' & Hw' & Hgood & Hbk) Hin HE' Hst (Hv & Hvi & Hfx & Hfc)].
  exists s'. split; [done|]. split.
  - exists J, k, E', stop'. split; [|unfold batch; by rewrite Hw'].
    assert (stop = true ∨ shutdownComplete s = true ↔ stop' = true ∨ shutdownComplete s' = true) as Hiff.
    { rewrite Hc. destruct Hst as [[-> ->]|(-> & -> & -> & _)]; naive_solver. }
    split; unfold live_jobs, queue, batch; rewrite ?Hw', ?Hv, ?Hvi, ?Hfx, ?Hfc; try done.
    + by rewrite <-Hiff.
    + intros Hc'. destruct Hst as [[? _]|(_ & _ & -> & ->)]; [congruence|]. by split_and!.
  - unfold measure, queue. rewrite Hw, Hw', Hv, Hvi. simpl.
    assert (length (writerInbox s') < length (l ++ writerInbox s)).
    { apply Hlt; [by intros ->|simpl; lia]. }
    destruct (validator s); lia.
Qed.

Lemma flow_end_turn ds hs s s' J k E stop B : shape s J k E stop → writer s = W_write B →
  same_side s s' → writerInbox s' = writerInbox s → shutdownComplete s' = shutdownComplete s →
  books ds hs s' J E [] → flow ds hs (end_turn s') ∧ measure (end_turn s') < measure s.
Proof.
  intros Hs Hw (Hv & Hvi & Hfx & Hfc) Hi Hc Hb.
  destruct Hs as [Hj HJ Hq HE _ Hf Hdn Hco Hrun Hrep _]. unfold live_jobs, queue in *.
  rewrite Hw in *. unfold end_turn, measure, queue. rewrite Hw, Hc. simpl in *.
  destruct (shutdownComplete s) eqn:Hsc; simpl; rewrite ?Hv, ?Hvi, ?Hi; (split; [|destruct (validator s); lia]).
  - destruct Hco as (-> & -> & _); [done|]. exists J, k, [], false. split; [|by destruct Hb].
    split; unfold live_jobs, queue; simpl; rewrite ?Hv, ?Hvi, ?Hfx, ?Hfc, ?Hc, ?Hi; try done.
    by rewrite Hrep.
  - exists J, k, E, stop. split; [|by destruct Hb].
    split; unfold live_jobs, queue; simpl; rewrite ?Hv, ?Hvi, ?Hfx, ?Hfc, ?Hc, ?Hi; done.
Qed.

(** ** The system *)

Definition sys_inv (fs : list (NostrFilter * N)) (ds : list env) (hs : list handed) (x : system) : Prop :=
  flow ds hs x.2 ∧ db_good fs x.1.1 x.1.2 ∧ x.1.2 ∈ ds.

Lemma flow_write fs ds hs c d s B : sys_inv fs ds hs (c, d, s) → writer s = W_write B →
  room (c, d, s) → ∃ x, write_batch sort_events c d s B = Ok x ∧
    sys_inv fs (ds ++ [x.1.2]) hs x ∧ measure x.2 < measure s.
Proof.
  intros ((J & k & E & stop & Hs & Hb) & [Hf Hc [m Hinv]] & Hd) Hw Hroom. simpl in *.
  pose proof (sh_batch _ _ _ _ _ Hs) as Hgood. unfold room, batch in *. simpl in Hroom. rewrite Hw in *.
  destruct (write_batch_run fs c d s m ds hs J E B) as (c' & d' & s' & -> & Hside & Hi & Hsc & Hdb & Hb');
    try done.
  eexists. split; [done|]. unfold sys_inv. simpl.
  edestruct (flow_end_turn (ds ++ [d']) hs s s') as [? ?]; [done..|]. split_and!; try done. set_solver.
Qed.

(** [hs] is what clients handed in, [ds] the states of the database so far.
    Clients hand in events as the JSON parser or [parseFried] make them, and
    none after [flush]; other processes may change the database between two
    turns, but for the tree filters. *)
Inductive reachable (fs : list (NostrFilter * N)) : list env → list handed → system → Prop :=
  | reach_new c d : db_good fs c d → reachable fs [d] [] (c, d, new_pipeline)
  | reach_json ds hs c d s v : reachable fs ds hs (c, d, s) → flushCalled s = false →
      json_u64 v = true →
      reachable fs ds (if is_null v then hs else hs ++ [HJson v]) (c, d, write_json s v)
  | reach_event ds hs c d s ev : reachable fs ds hs (c, d, s) → flushCalled s = false → good ev →
      reachable fs ds (hs ++ [HEvent ev]) (c, d, write_event s ev)
  | reach_flush ds hs c d s : reachable fs ds hs (c, d, s) → reachable fs ds hs (c, d, flush s)
  | reach_turn ds hs x x' : reachable fs ds hs x → room x →
      thread_step cfg sort_events writeBatchSize verifyMsg verifyTime x x' →
      reachable fs (ds ++ [x'.1.2]) hs x'
  | reach_other ds hs c d s d' m' : reachable fs ds hs (c, d, s) → store_inv fs d' m' →
      same_rest d d' → reachable fs (ds ++ [d']) hs (c, d', s).

Lemma db_good_other fs c d d' m' : db_good fs c d → store_inv fs d' m' → same_rest d d' →
  db_good fs c d'.
Proof.
  intros [[Hm Hk Hr] Hc _] Hinv (R1 & R2 & R3). split; [split; congruence| |by exists m'].
  unfold cache_coherent in *. by rewrite R1, R2.
Qed.

Context (batch_pos : (0 < writeBatchSize)%N).


Lemma sys_inv_same fs ds hs c d s s' : sys_inv fs ds hs (c, d, s) →
  flow ds hs s' ∧ measure s' < measure s →
  sys_inv fs (ds ++ [d]) hs (c, d, s') ∧ measure s' < measure s.
Proof.
  intros (_ & Hdb & _) [Hfl ?]. split; [|done]. unfold sys_inv. simpl in *.
  split_and!; [by apply flow_more|done|set_solver].
Qed.

Lemma turn_inv fs ds hs x x' : sys_inv fs ds hs x → room x →
  thread_step cfg sort_events writeBatchSize verifyMsg verifyTime x x' →
  sys_inv fs (ds ++ [x'.1.2]) hs x' ∧ measure x'.2 < measure x.2.
Proof.
  intros Hinv Hroom Hst. pose proof Hinv as (Hfl & [_ _ [m [[Hr _ _ _] _]]] & Hd).
  destruct Hst as [c d s Hv Hi|now c d s v rest s' Hv Hrun|c d s Hv|c d s Hw Hi|c d s l s' Hw Hrun
    |c d s B x' Hw Hrun]; simpl in *.
  - eapply sys_inv_same; [done|]. by apply flow_validator_pop.
  - eapply sys_inv_same; [done|].
    destruct (flow_validate ds hs s now v rest Hfl Hv) as (s1 & Hrun1 & ? & ? & _).
    rewrite Hrun in Hrun1. by injection Hrun1 as <-.
  - eapply sys_inv_same; [done|]. by apply flow_validator_again.
  - eapply sys_inv_same; [done|]. by apply flow_writer_pop.
  - eapply sys_inv_same; [done|].
    destruct (flow_prefilter d m ds hs s l) as (s1 & Hrun1 & ? & ?); try done.
    rewrite Hrun in Hrun1. by injection Hrun1 as <-.
  - destruct (flow_write fs ds hs c d s B Hinv Hw Hroom) as (x1 & Hrun1 & ? & ?).
    rewrite Hrun in Hrun1. by injection Hrun1 as <-.
Qed.

Lemma pipeline_reachable_inv fs ds hs x : reachable fs ds hs x → sys_inv fs ds hs x.
Proof.
  induction 1 as [c d Hdb|ds hs c d s v _ (Hf & Hdb & Hd) Hn Hv|ds hs c d s ev _ (Hf & Hdb & Hd) Hn Hev
    |ds hs c d s _ (Hf & Hdb & Hd)|ds hs x x' _ IH Hroom Hst|ds hs c d s d' m' _ (Hf & Hdb & Hd) Hi Hs];
    unfold sys_inv in *; simpl in *.
  - split_and!; [apply flow_new|done|set_solver].
  - split_and!; [by apply flow_json|done|done].
  - split_and!; [by apply flow_event|done|done].
  - split_and!; [by apply flow_flush|done|done].
  - by apply (turn_inv fs ds hs x x' IH).
  - split_and!; [by apply flow_more|by eapply db_good_other|set_solver].
Qed.

(** A thread always has a turn to take, unless it waits or has ended. *)
Lemma turn_exists fs ds hs c d s : sys_inv fs ds hs (c, d, s) → room (c, d, s) → flushCalled s = true →
  writer s ≠ W_done →
  ∃ x', thread_step cfg sort_events writeBatchSize verifyMsg verifyTime (c, d, s) x'.
Proof.
  intros Hinv Hroom Hfc Hnd. pose proof Hinv as (Hfl & [_ _ [m [[Hr _ _ _] _]]] & Hd).
  destruct (writer s) as [|l|B|] eqn:Hw; [| | |done].
  - destruct (writerInbox s) as [|ev q] eqn:Hi.
    + pose proof Hfl as (J & k & E & stop & Hs & Hb). destruct Hs as [Hj _ Hq _ _ Hf Hdn Hco _ _ _].
      simpl in *. unfold queue in Hq. rewrite Hw, Hi in Hq. destruct (proj1 Hf Hfc) as [Hv|Hk].
      { destruct (proj1 Hdn Hv) as [->|Hc].
        - by apply (app_cons_not_nil E []) in Hq.
        - by destruct (Hco Hc) as (_ & _ & ? & _). }
      destruct (validator s) as [|[|v rest]|] eqn:Hv.
      * eexists. apply step_validator_pop; [done|]. unfold live_jobs in Hj. rewrite Hv in Hj.
        rewrite Hj. by destruct J, k.
      * eexists. by apply step_validator_again.
      * destruct (flow_validate ds hs s 0%N v rest) as (s' & Hrun & _); [done|done|].
        eexists. by eapply step_validate.
      * unfold live_jobs in Hj. rewrite Hv in Hj. by destruct J, k.
    + eexists. apply step_writer_pop; [done|]. by rewrite Hi.
  - destruct (flow_prefilter d m ds hs s l) as (s' & Hrun & _); try done.
    eexists. by eapply step_prefilter.
  - destruct (flow_write fs ds hs c d s B) as (x' & Hrun & _); try done.
    eexists. by eapply step_write.
Qed.

Lemma ledger_length hs J E B log : ledger hs J E B log → ∃ pending done_,
  hs ≡ₚ pending ++ done_ ∧ length pending = length J + length E + length B ∧
  Forall2 accounts done_ log.
Proof.
  intros (hw & hp & hd & Hp & Hw & Hb & Hd). exists ((HJson <$> J) ++ hw ++ hp), hd.
  split_and!; [by rewrite <-!app_assoc| |done].
  rewrite !length_app, length_fmap, (Forall2_length _ _ _ Hw), (Forall2_length _ _ _ Hb). lia.
Qed.

(** C12: whatever clients hand in and however the threads and other processes
    interleave, nothing is lost or counted twice: the events handed in are those
    still under way and those in the log, each rejected as invalid, known to the
    store or settled by [writeEvents] with its content unchanged, and what the
    log says of them held of the database; the counters are the numbers of
    events handed in, under way, written, rejected and found to be duplicates,
    modulo 2^64; the store stays in good order; and no turn throws, as long as
    levIds are left. *)
Theorem pipeline_conserves fs ds hs c d s : reachable fs ds hs (c, d, s) →
  (∃ pending done_, hs ≡ₚ pending ++ done_ ∧
    length pending = in_flight s + length (batch s) ∧ Forall2 accounts done_ (pl_log s)) ∧
  all_held ds (pl_log s) ∧
  counters_ok (stats s) (length hs) (in_flight s) (pl_log s) ∧
  (∃ m, store_inv fs d m) ∧
  (∀ now v rest, validator s = V_busy (v :: rest) →
    is_ok (validate cfg verifyMsg verifyTime now s v rest) = true) ∧
  (∀ l, writer s = W_read l → is_ok (prefilter writeBatchSize d s [] l) = true) ∧
  (∀ B, writer s = W_write B → room (c, d, s) → is_ok (write_batch sort_events c d s B) = true).
Proof.
  intros Hinv%pipeline_reachable_inv. pose proof Hinv as (Hfl & [_ _ [m Hm]] & Hd). simpl in *.
  pose proof Hfl as (J & k & E & stop & Hs & [Hco Hl Hh]). rewrite (shape_in_flight _ _ _ _ _ Hs).
  split_and!; [by apply ledger_length|done|done|by exists m|..].
  - intros now v rest Hv. by destruct (flow_validate ds hs s now v rest Hfl Hv) as (s' & -> & _).
  - intros l Hw. destruct (flow_prefilter d m ds hs s l) as (s' & -> & _); try done. apply Hm.
  - intros B Hw Hroom. by destruct (flow_write fs ds hs c d s B Hinv Hw Hroom) as (x' & -> & _).
Qed.

(** A turn with levIds left. *)
Definition turn (x x' : system) : Prop :=
  room x ∧ thread_step cfg sort_events writeBatchSize verifyMsg verifyTime x x'.


Lemma prefilter_flush d l : ∀ s proc s', prefilter writeBatchSize d s proc l = Ok s' →
  flushCalled s' = flushCalled s.
Proof.
  induction l as [|ev l IH]; intros s proc s'; cbn [prefilter]; [by intros [= <-]|].
  case_match; [by intros [= <-]|]. case_match; [by intros [= <-]|].
  destruct (view (packedStr ev)) as [p|]; cbn [mbind result_bind]; [|done].
  destruct (lookupEventById d (id p)); intros Hrun; by rewrite (IH _ _ _ Hrun).
Qed.

Lemma end_turn_flush s : flushCalled (end_turn s) = flushCalled s.
Proof. unfold end_turn. by destruct (shutdownComplete s). Qed.

Lemma turn_flush x x' : thread_step cfg sort_events writeBatchSize verifyMsg verifyTime x x' →
  flushCalled x'.2 = flushCalled x.2.
Proof.
  intros Hst. destruct Hst as [| now c d s v rest s' _ Hrun| | |c d s l s' _ Hrun|c d s B x' _ Hrun];
    simpl; try done.
  - revert Hrun. unfold validate. case_match; [by intros [= <-]|].
    destruct (parseAndVerifyEvent _ _ _ _ _) as [[p j]|e]; [by intros [= <-]|].
    destruct (catchable e); [by intros [= <-]|done].
  - by eapply prefilter_flush.
  - revert Hrun. unfold write_batch. case_match; [intros [= <-]; apply end_turn_flush|].
    destruct (writeEvents _ _ _) as [[[c' d'] out]|]; cbn [mbind result_bind]; [|done].
    intros [= <-]. simpl. by rewrite end_turn_flush.
Qed.

Lemma turns_inv fs n x x' : nsteps turn n x x' → ∀ ds hs, sys_inv fs ds hs x →
  flushCalled x.2 = true →
  ∃ ds', sys_inv fs ds' hs x' ∧ flushCalled x'.2 = true ∧ n + measure x'.2 ≤ measure x.2.
Proof.
  induction 1 as [x|n x x1 x' [Hroom Hst] _ IH]; intros ds hs Hinv Hf; [by exists ds|].
  destruct (turn_inv fs ds hs x x1 Hinv Hroom Hst) as [Hinv1 Hlt].
  destruct (IH _ _ Hinv1) as (ds' & ? & ? & ?); [by rewrite (turn_flush _ _ Hst)|].
  exists ds'. split_and!; [done|done|lia].
Qed.

Lemma wrapped_sum a b c : u64_add (u64_add (wrapped a) (wrapped b)) (wrapped c) = wrapped (a + b + c).
Proof.
  unfold u64_add, wrapped, u64_wrap.
  rewrite N.Div0.add_mod_idemp_l, N.Div0.add_mod_idemp_r, <-N.Div0.add_mod_idemp_l.
  rewrite <-N.Div0.add_mod, N.Div0.add_mod_idemp_l. f_equal. lia.
Qed.

(** Everything handed in has its outcome, and the counters add up. *)
Definition settled_all (hs : list handed) (s : pipeline) : Prop :=
  flushInbox s = [true] ∧ in_flight s = 0 ∧ numLive (stats s) = 0%N ∧
  totalProcessed (stats s) =
    u64_add (u64_add (totalWritten (stats s)) (totalRejected (stats s))) (totalDups (stats s)) ∧
  ∃ done_, hs ≡ₚ done_ ∧ Forall2 accounts done_ (pl_log s).

Lemma writer_ended fs ds hs c d s : sys_inv fs ds hs (c, d, s) → writer s = W_done → settled_all hs s.
Proof.
  intros ((J & k & E & stop & Hs & [Hco Hl Hh]) & _ & _) Hw. simpl in *. unfold settled_all.
  rewrite (shape_in_flight _ _ _ _ _ Hs).
  destruct Hs as [Hj _ _ _ _ _ Hdn Hcomp Hrun Hrep _]. rewrite Hw in Hrep, Hrun.
  assert (shutdownComplete s = true) as Hc by (destruct (shutdownComplete s); [done|by destruct Hrun]).
  destruct (Hcomp Hc) as (-> & -> & _). assert (validator s = V_done) as Hv by (apply Hdn; by right).
  unfold live_jobs in Hj. rewrite Hv in Hj. assert (J = []) as -> by (by destruct J).
  apply ledger_length in Hl as (pending & done_ & Hp & Hlen & Hacc). unfold batch in Hlen.
  rewrite Hw in Hlen. apply length_zero_iff_nil in Hlen as ->.
  destruct Hco as [-> -> -> -> ->]. split_and!; try done; [|by exists done_].
  rewrite wrapped_sum, count_split, Hp. simpl. by rewrite (Forall2_length _ _ _ Hacc).
Qed.

(** C13: [flush] comes to an end: once it is called the threads take a bounded
    number of turns, however they interleave, and never block before the
    writer has answered [flush]; then nothing is under way, every event handed
    in has its outcome, and [totalProcessed] is the sum of the other counters. *)
Theorem flush_completes fs ds hs c d s : reachable fs ds hs (c, d, s) → flushCalled s = true →
  ∀ n x', nsteps turn n (c, d, s) x' →
    n ≤ measure s ∧
    ((∃ x'', turn x' x'') ∨ ¬ room x' ∨ writer x'.2 = W_done ∧ settled_all hs x'.2).
Proof.
  intros Hinv%pipeline_reachable_inv Hf n x' Hn.
  destruct (turns_inv fs n _ _ Hn ds hs Hinv Hf) as (ds' & Hinv' & Hf' & Hle). simpl in *.
  split; [lia|]. destruct x' as [[c' d'] s'].
  assert (room (c', d', s') ∨ ¬ room (c', d', s')) as [Hroom|]; [unfold room; lia| |auto].
  assert (writer s' = W_done ∨ writer s' ≠ W_done) as [Hw|Hw] by (destruct (writer s'); auto).
  - right; right. split; [done|]. by eapply writer_ended.
  - left. destruct (turn_exists fs ds' hs c' d' s' Hinv' Hroom Hf' Hw) as [x'' Hst]. by exists x''.
Qed.
End pipeline.
