(* ===== verification/RelayNegentropy.v ===== *)
(** Negentropy sessions ([RelayNegentropy.cpp]).

    A session is a view: a vector of (created_at, id) pairs that a query fills,
    or a precomputed tree.  The negentropy library is the class
    [NegentropyLib].  [neg_batch] is the body of the thread's loop; an
    exception that leaves it ends the process.  A pointer into the table of
    views that is used after its entry was erased is [undefined_behaviour]. *)

From S2P Require Import Prelude Bytes Json Hex PackedEvent FilterSets Filters Config EventParse.
From S2P Require Import Db Subscription DBQuery QueryScheduler RelayServer.

(** [negentropy::storage::Vector], the trees, and [Negentropy::reconcile] (which
    takes the frame size limit).  A vector cannot be sealed with the same item
    twice; reconciling a sealed storage only fails on a bad message. *)
Class NegentropyLib := {
  vector : Type;
  vector_new : vector;
  vector_insert : vector → N → bytes → result vector;
  vector_seal : vector → result vector;
  vector_sealed : vector → bool;
  vector_items : vector → list (N * bytes);
  storage : Type;
  vector_storage : vector → storage;
  tree_range : gset (N * bytes) → N → N → storage;
  reconcile : N → storage → bytes → result bytes;
  vector_new_open : vector_sealed vector_new = false ∧ vector_items vector_new = [];
  vector_insert_open : ∀ v c i v', vector_insert v c i = Ok v' →
    vector_sealed v' = vector_sealed v ∧ vector_items v' = vector_items v ++ [(c, i)];
  vector_insert_caught : ∀ v c i e, vector_insert v c i = Throw e → catchable e = true;
  vector_seal_open : ∀ v, vector_sealed v = false → NoDup (vector_items v) →
    ∃ v', vector_seal v = Ok v' ∧ vector_sealed v' = true;
  reconcile_caught : ∀ n s msg e, reconcile n s msg = Throw e → catchable e = true;
}.

Section negentropy.
Context `{!Hex, !NativeU64, !GolpeKeys, !Env, !EventLibs, !NegentropyLib} (cfg : Config).
Variable curr_time_us : nat → N.

(** ** The views ([NegentropyViews]) *)

Record MemoryView := mk_memory_view {
  initialMsg : bytes;
  storageVector : vector;
  levIds : list N;
}.

Record StatelessView := mk_stateless_view {
  sv_sub : Subscription;
  sv_treeId : N;
}.

Inductive UserView := Memory (v : MemoryView) | Stateless (v : StatelessView).

Abbreviation views_table := (gmap N (gmap bytes UserView)).

Definition findView (views : views_table) (c : N) (s : SubId) : option UserView :=
  match views !! c with Some cv => cv !! SubId_sv s | None => None end.

Definition removeView (views : views_table) (c : N) (s : SubId) : views_table :=
  match findView views c s with
  | None => views
  | Some _ =>
      let cv := delete (SubId_sv s) (default ∅ (views !! c)) in
      if decide (cv = ∅) then delete c views else <[c := cv]> views
  end.

(** The common part of [addMemoryView] and [addStatelessView]. *)
Definition addView (views : views_table) (c : N) (s : SubId) (v : UserView)
    : views_table * bool :=
  let views := match findView views c s with Some _ => removeView views c s | None => views end in
  let cv := default ∅ (views !! c) in
  if (relay__maxSubsPerConnection cfg <=? N.of_nat (base.size cv))%N
  then (<[c := cv]> views, false)
  else (<[c := match cv !! SubId_sv s with Some _ => cv | None => <[SubId_sv s := v]> cv end]> views, true).

Definition addMemoryView (views : views_table) (c : N) (s : SubId) (initialMsg : bytes) :=
  addView views c s (Memory (mk_memory_view initialMsg vector_new [])).

Definition addStatelessView (views : views_table) (c : N) (s : SubId) (sub : Subscription)
    (treeId : N) :=
  addView views c s (Stateless (mk_stateless_view sub treeId)).

Definition closeViews (views : views_table) (c : N) : views_table := delete c views.

(** Writing through the pointer [findView] returned. *)
Definition put_view (views : views_table) (c : N) (s : SubId) (v : MemoryView)
    : result views_table :=
  match findView views c s with
  | None => Throw undefined_behaviour
  | Some _ => Ok (<[c := <[SubId_sv s := Memory v]> (default ∅ (views !! c))]> views)
  end.

(** ** The callbacks of the scheduler *)

(** What the callbacks share: the views and the calls made so far. *)
Definition neg_world : Type := views_table * list call.

Definition neg_err (s : SubId) (rest : list value) : bytes :=
  json_to_string (JArray (JString #"NEG-ERR" :: JString (SubId_sv s) :: rest)).

Definition neg_msg_reply (s : SubId) (resp : bytes) : bytes :=
  json_to_string (JArray [JString #"NEG-MSG"; JString (SubId_sv s); JString (to_hex resp)]).

Definition frame_size_limit : N := 500000.

Definition handleReconcile (w : neg_world) (c : N) (s : SubId) (st : storage) (msg : bytes)
    : result neg_world :=
  match reconcile frame_size_limit st msg with
  | Ok resp => Ok (w.1, w.2 ++ [SendToConn c (neg_msg_reply s resp)])
  | Throw e =>
      if catchable e then
        Ok (removeView w.1 c s, w.2 ++ [SendToConn c (neg_err s [JString #"PROTOCOL-ERROR"])])
      else Throw e
  end.

Definition bad_variant : exn := herr #"bad variant, expected memory view".

Definition on_event_batch (w : neg_world) (sub : Subscription) (ls : list N) : result neg_world :=
  match findView w.1 (connId sub) (subId sub) with
  | None => Ok w
  | Some (Stateless _) => Throw bad_variant
  | Some (Memory v) =>
      views ← put_view w.1 (connId sub) (subId sub)
                (mk_memory_view (initialMsg v) (storageVector v) (levIds v ++ ls));
      Ok (views, w.2)
  end.

(** One event of the result; one that was deleted meanwhile is skipped. *)
Definition insert_levId (d : env) (vec : vector) (levId : N) : result vector :=
  match ('(_, buf) ← lookupEventByLevId d levId;
         packed ← view buf;
         vector_insert vec (created_at packed) (id packed)) with
  | Ok vec => Ok vec
  | Throw e => if catchable e then Ok vec else Throw e
  end.

(** Sorting, filling and sealing the vector. *)
Definition fill_vector (d : env) (v : MemoryView) : result vector :=
  vec ← foldM (insert_levId d) (storageVector v) (merge_sort N.le (levIds v));
  vector_seal vec.

Definition on_complete (d : env) (w : neg_world) (sub : Subscription) : result neg_world :=
  let c := connId sub in
  let s := subId sub in
  match findView w.1 c s with
  | None => Ok w
  | Some (Stateless _) => Throw bad_variant
  | Some (Memory v) =>
      if (relay__negentropy__maxSyncEvents cfg <? N.of_nat (length (levIds v)))%N then
        Ok (removeView w.1 c s,
            w.2 ++ [SendToConn c (neg_err s [JString #"blocked: too many query results";
                                             JUnsigned (relay__negentropy__maxSyncEvents cfg)])])
      else
        vec ← fill_vector d v;
        views ← put_view w.1 c s (mk_memory_view (initialMsg v) vec []);
        w ← handleReconcile (views, w.2) c s (vector_storage vec) (initialMsg v);
        views ← put_view w.1 c s (mk_memory_view [] vec []);
        Ok (views, w.2)
  end.

(** ** The thread *)

Record neg_state := mk_neg_state {
  queries : Scheduler.QueryScheduler;
  world : neg_world;
  tick : nat;
}.

Definition neg_init : neg_state := mk_neg_state Scheduler.empty_scheduler (∅, []) 0.

Definition set_queries (st : neg_state) qs := mk_neg_state qs (world st) (tick st).
Definition set_world (st : neg_state) w := mk_neg_state (queries st) w (tick st).

Definition emit (st : neg_state) (c : call) : neg_state :=
  set_world st ((world st).1, (world st).2 ++ [c]).

(** [queries.process(txn)] *)
Definition run_queries (d : env) (st : neg_state) : result neg_state :=
  '(qs, w, t) ← Scheduler.process cfg false None (Some on_event_batch) (Some (on_complete d))
                  curr_time_us d (queries st) (world st) (tick st);
  Ok (mk_neg_state qs w t).

(** The tree of a stored filter. *)
Definition find_tree (d : env) (filterStr : bytes) : option N :=
  fst <$> find (λ row : N * bytes, bool_decide (row.2 = filterStr)) (NegentropyFilter (tables d)).

(** The part of the tree inside the filter's time window. *)
Definition tree_storage (d : env) (treeId : N) (sub : Subscription) : result storage :=
  match filterGroup sub !! 0 with
  | None => Throw out_of_range
  | Some f =>
      Ok (tree_range (tree_of (tables d) treeId) (since f)
            (if (until f =? MAX_U64)%N then MAX_U64 else u64_add (until f) 1))
  end.

Definition neg_open (d : env) (st : neg_state) (sub : Subscription) (filterStr negPayload : bytes)
    : result neg_state :=
  let c := connId sub in
  let s := subId sub in
  match find_tree d filterStr with
  | Some treeId =>
      storage ← tree_storage d treeId sub;
      w ← handleReconcile (world st) c s storage negPayload;
      let '(views, ok) := addStatelessView w.1 c s sub treeId in
      let st := set_world st (views, w.2) in
      if ok : bool then Ok st
      else
        qs ← Scheduler.removeSub (queries st) c s;
        Ok (emit (set_queries st qs) (SendNoticeError c #"too many concurrent NEG requests"))
  | None =>
      '(qs, ok) ← Scheduler.addSub cfg d (queries st) sub;
      let st := set_queries st qs in
      let st := if ok : bool then st
                else emit st (SendNoticeError c #"too many concurrent REQs") in
      let '(views, ok) := addMemoryView (world st).1 c s negPayload in
      let st := set_world st (views, (world st).2) in
      st ← (if ok : bool then Ok st
            else
              qs ← Scheduler.removeSub (queries st) c s;
              Ok (emit (set_queries st qs) (SendNoticeError c #"too many concurrent NEG requests")));
      run_queries d st
  end.

Definition neg_msg (d : env) (st : neg_state) (c : N) (s : SubId) (negPayload : bytes)
    : result neg_state :=
  match findView (world st).1 c s with
  | None => Ok (emit st (SendToConn c (neg_err s [JString #"closed: unknown subscription handle"])))
  | Some (Memory v) =>
      if vector_sealed (storageVector v) then
        w ← handleReconcile (world st) c s (vector_storage (storageVector v)) negPayload;
        Ok (set_world st w)
      else Ok (emit st (SendNoticeError c #"negentropy error: got NEG-MSG before NEG-OPEN complete"))
  | Some (Stateless v) =>
      storage ← tree_storage d (sv_treeId v) (sv_sub v);
      w ← handleReconcile (world st) c s storage negPayload;
      Ok (set_world st w)
  end.

Definition neg_handle (d : env) (st : neg_state) (msg : MsgNegentropy) : result neg_state :=
  match msg with
  | Negentropy_NegOpen sub filterStr negPayload => neg_open d st sub filterStr negPayload
  | Negentropy_NegMsg c s negPayload => neg_msg d st c s negPayload
  | Negentropy_NegClose c s =>
      qs ← Scheduler.removeSub (queries st) c s;
      Ok (mk_neg_state qs (removeView (world st).1 c s, (world st).2) (tick st))
  | Negentropy_CloseConn c =>
      qs ← Scheduler.closeConn (queries st) c;
      Ok (mk_neg_state qs (closeViews (world st).1 c, (world st).2) (tick st))
  end.

Definition neg_batch (d : env) (st : neg_state) (newMsgs : list MsgNegentropy) : result neg_state :=
  st ← foldM (neg_handle d) st newMsgs;
  run_queries d st.
End negentropy.
