(* ===== verification/NegentropyTheorems.v ===== *)
(** Negentropy sessions: what keeps the thread alive, and what ends it. *)

From stdpp Require Import fin_maps fin_sets.
From S2P Require Import Prelude Bytes Json Hex PackedEvent FilterSets Filters Config EventParse Db.
From S2P Require Import MemDb Subscription DBQuery DBQueryCursors DBScanRun DBQueryTheorems DBQueryLiveness.
From S2P Require Import QueryScheduler QuerySchedulerTheorems.
From S2P Require Import RelayServer RelayNegentropy.

(** ** A query never reports an event twice, on whatever snapshots *)

Section reports.
Context `{!NativeU64, !GolpeKeys, !Env} {B : Type} (cb : B → N → result B).

Definition reports (full full' : gset N) (b b' : B) (L : list N) : Prop :=
  foldM cb b L = Ok b' ∧ NoDup L ∧ (∀ l, l ∈ L → l ∉ full) ∧ full' = full ∪ list_to_set L.

Lemma reports_nil full b : reports full full b b [].
Proof. split_and!; [done|constructor|by intros l ?%not_elem_of_nil|set_solver]. Qed.

Lemma reports_app full1 full2 full3 b1 b2 b3 L1 L2 :
  reports full1 full2 b1 b2 L1 → reports full2 full3 b2 b3 L2 →
  reports full1 full3 b1 b3 (L1 ++ L2).
Proof.
  intros (F1 & N1 & D1 & ->) (F2 & N2 & D2 & ->). split_and!.
  - by rewrite foldM_app, F1.
  - apply NoDup_app. split_and!; [done| |done]. intros l Hl1 Hl2. apply (D2 l Hl2). set_solver.
  - intros l [?|Hl]%elem_of_app; [by apply D1|]. specialize (D2 l Hl). set_solver.
  - rewrite list_to_set_app_L. set_solver.
Qed.

Lemma handle_event_reports f latest full curr b l full' curr' b' stop :
  handle_event cb f latest (full, curr, b) l = Ok ((full', curr', b'), stop) →
  ∃ L, reports full full' b b' L.
Proof.
  unfold handle_event. destruct (limit f =? 0)%N; [intros [= <- _ <- _]; exists []; apply reports_nil|].
  destruct (latest <? l)%N; [intros [= <- _ <- _]; exists []; apply reports_nil|].
  case_bool_decide as Hin; cbn [mbind result_bind].
  { intros [= <- _ <- _]. exists []. apply reports_nil. }
  destruct (cb b l) as [b1|] eqn:Hcb; cbn [mbind result_bind]; [|done]. intros [= <- _ <- _].
  exists [l]. split_and!.
  - cbn [foldM]. by rewrite Hcb.
  - apply NoDup_singleton.
  - by intros l' ->%list_elem_of_singleton.
  - set_solver.
Qed.

Lemma scan_body_reports f latest d s full curr b r s' full' curr' b' :
  scan_body (handle_event cb f latest) d s (full, curr, b) = Ok (r, s', (full', curr', b')) →
  ∃ L, reports full full' b b' L.
Proof.
  unfold scan_body. destruct (nextInitIndex s <? length (cursors s)).
  { destruct (init_cursor d s); cbn [mbind result_bind]; [|done]. intros [= _ _ <- _ <-].
    exists []. apply reports_nil. }
  destruct (eventQueue s) as [|ev q]; [intros [= _ _ <- _ <-]; exists []; apply reports_nil|].
  destruct (candidate_matches _ _ _) as [[doSend s1]|]; cbn [mbind result_bind]; [|done].
  destruct (if doSend then _ else _) as [[[[full1 curr1] b1] stop]|] eqn:Hh;
    cbn [mbind result_bind]; [|done].
  assert (∃ L, reports full full1 b b1 L) as [L HL].
  { destruct doSend; [by eapply handle_event_reports|]. injection Hh as <- _ <- _.
    exists []. apply reports_nil. }
  destruct stop; [intros [= _ _ <- _ <-]; by exists L|].
  destruct (refill_cursor _ _ _); cbn [mbind result_bind]; [|done]. intros [= _ _ <- _ <-]. by exists L.
Qed.

Lemma scan_reports {P} f latest (doPause : P → N → P * bool) fuel d : ∀ s full curr b p c s' full' curr' b' p',
  scan (handle_event cb f latest) doPause fuel d s (full, curr, b) p =
    Ok (c, s', (full', curr', b'), p') → ∃ L, reports full full' b b' L.
Proof.
  induction fuel as [|fuel IH]; intros s full curr b p c s' full' curr' b' p'; [done|].
  rewrite scan_S.
  destruct (doPause p (approxWork (add_work s 1))) as [p1 []]; cbn match; [intros [= _ _ <- _ <- _]; exists []; apply reports_nil|].
  destruct (scan_body _ _ _ _) as [[[r s1] [[full1 curr1] b1]]|] eqn:Hb; cbn [mbind result_bind]; [|done].
  apply scan_body_reports in Hb as [L1 HL1].
  destruct r as [r|]; [intros [= _ _ <- _ <- _]; by exists L1|].
  intros [L2 HL2]%IH. exists (L1 ++ L2). by eapply reports_app.
Qed.

Lemma process_reports clock d budget q b t c q' b' t' :
  DBQuery.process cb clock d budget q b t = Ok (c, q', b', t') →
  ∃ L, reports (sentEventsFull q) (sentEventsFull q') b b' L.
Proof.
  unfold DBQuery.process. generalize (length (filterGroup (sub q)) - filterGroupIndex q) as n.
  intros n. revert q b t. induction n as [|n IH]; intros q b t; cbn [process_loop].
  { intros [= _ <- <- _]. exists []. apply reports_nil. }
  destruct (filterGroup (sub q) !! filterGroupIndex q) as [f|];
    [|intros [= _ <- <- _]; exists []; apply reports_nil].
  destruct (match scanner q with Some sc => _ | None => _ end) as [s|]; cbn [mbind result_bind]; [|done].
  destruct (scan _ _ _ _ _ _ _) as [[[[c1 s'] [[full' curr'] b1]] [last' t1]]|] eqn:Hs;
    cbn [mbind result_bind]; [|done].
  apply scan_reports in Hs as [L1 HL1].
  destruct c1; [|intros [= _ <- <- _]; by exists L1].
  intros [L2 HL2]%IH. exists (L1 ++ L2). by eapply reports_app.
Qed.
End reports.

(** ** The tables *)

Section tables.
Context `{!NegentropyLib} (cfg : Config).

Lemma findView_lookup views c s : findView views c s = conn_lookup views c (SubId_sv s).
Proof. unfold findView, conn_lookup. by destruct (views !! c). Qed.

Definition views_bound (views : gmap N (gmap bytes UserView)) : Prop :=
  ∀ c cv, views !! c = Some cv → (N.of_nat (base.size cv) ≤ relay__maxSubsPerConnection cfg)%N.

Lemma removeView_lookup views c s c' k' :
  conn_lookup (removeView views c s) c' k' =
    if decide (c' = c ∧ k' = SubId_sv s) then None else conn_lookup views c' k'.
Proof.
  unfold removeView. destruct (findView views c s) as [v|] eqn:Hf.
  - cbn zeta. rewrite conn_erase_eq. apply conn_lookup_erase.
  - rewrite findView_lookup in Hf. case_decide as Hd; [|done]. by destruct Hd as [-> ->].
Qed.

Lemma removeView_bound views c s : views_bound views → views_bound (removeView views c s).
Proof.
  intros Hb. unfold removeView. destruct (findView views c s); [|done].
  cbn zeta. rewrite conn_erase_eq. exact (erase_limit cfg views c (SubId_sv s) Hb).
Qed.

Lemma addView_spec views c s v views' ok :
  views_bound views → addView cfg views c s v = (views', ok) →
  views_bound views' ∧ ∀ c' k', conn_lookup views' c' k' =
    if decide (c' = c ∧ k' = SubId_sv s) then (if ok then Some v else None)
    else conn_lookup views c' k'.
Proof.
  intros Hb. unfold addView.
  assert (∃ views0, (match findView views c s with
    | Some _ => removeView views c s | None => views end) = views0 ∧ views_bound views0 ∧
    ∀ c' k', conn_lookup views0 c' k' =
      if decide (c' = c ∧ k' = SubId_sv s) then None else conn_lookup views c' k')
    as (views0 & -> & Hb0 & Hl0).
  { eexists. split; [done|]. destruct (findView views c s) eqn:Hf.
    - split; [by apply removeView_bound|intros; apply removeView_lookup].
    - split; [done|]. intros c' k'. case_decide as Hd; [|done]. destruct Hd as [-> ->].
      by rewrite <-findView_lookup. }
  set (cv := default ∅ (views0 !! c)).
  assert (∀ k, cv !! k = conn_lookup views0 c k) as Hcv by (intros k; apply conn_lookup_default).
  assert (N.of_nat (base.size cv) ≤ relay__maxSubsPerConnection cfg)%N as Hsz.
  { unfold cv. destruct (views0 !! c) eqn:E; [by eapply Hb0|]. simpl. rewrite map_size_empty. lia. }
  assert (∀ cv' : gmap bytes UserView, (N.of_nat (base.size cv') ≤ relay__maxSubsPerConnection cfg)%N →
    views_bound (<[c := cv']> views0)) as Hins.
  { intros cv' Hs c' cv1. rewrite lookup_insert. case_decide; [by intros [= <-]|apply Hb0]. }
  cbn zeta. fold cv. destruct (N.leb_spec (relay__maxSubsPerConnection cfg) (N.of_nat (base.size cv))).
  - intros [= <- <-]. split; [by apply Hins|]. intros c' k'. rewrite conn_lookup_insert, Hcv, !Hl0.
    repeat case_decide; naive_solver.
  - assert (cv !! SubId_sv s = None) as Hnone by (rewrite Hcv, Hl0; by rewrite decide_True).
    rewrite Hnone. intros [= <- <-]. split; [apply Hins; rewrite map_size_insert_None by done; lia|].
    intros c' k'. rewrite conn_lookup_insert, lookup_insert, Hcv, !Hl0.
    repeat case_decide; naive_solver.
Qed.

Lemma put_view_spec views c s v0 v :
  views_bound views → findView views c s = Some v0 → ∃ views', put_view views c s v = Ok views' ∧
    views_bound views' ∧ ∀ c' k', conn_lookup views' c' k' =
      if decide (c' = c ∧ k' = SubId_sv s) then Some (Memory v) else conn_lookup views c' k'.
Proof.
  intros Hb Hf. unfold put_view. rewrite Hf. eexists. split; [done|].
  rewrite findView_lookup in Hf. split.
  - intros c' cv. rewrite lookup_insert. case_decide; [intros [= <-]|apply Hb].
    unfold conn_lookup in Hf. destruct (views !! c) as [cv0|] eqn:Hc; [|done]. simpl in *.
    rewrite map_size_insert_Some by (by eexists). by eapply Hb.
  - intros c' k'. rewrite conn_lookup_insert, lookup_insert, conn_lookup_default.
    repeat case_decide; naive_solver.
Qed.
End tables.

(** ** The invariant of the sessions *)

(** A snapshot: it represents events with distinct ids. *)
Definition neg_db `{!NativeU64, !GolpeKeys, !Env} (d : env) : Prop :=
  ∃ m, repr d m ∧ ∀ l1 l2 e1 e2, m !! l1 = Some e1 → m !! l2 = Some e2 →
    ev_id e1 = ev_id e2 → l1 = l2.

Section sessions.
Context `{!Hex, !NativeU64, !GolpeKeys, !Env, !EventLibs, !NegentropyLib} (cfg : Config).
Variable clock : nat → N.
(** First messages the library can answer whatever a sealed vector holds. *)
Context (honest : bytes → Prop).
Context (honest_ok : ∀ v msg, vector_sealed v = true → honest msg →
  ∃ r, reconcile frame_size_limit (vector_storage v) msg = Ok r).
Import Scheduler.

(** The view of a session whose query has reported the events in [full]. *)
Record filling (full : gset N) (v : MemoryView) : Prop := {
  fl_open : vector_sealed (storageVector v) = false;
  fl_empty : vector_items (storageVector v) = [];
  fl_nodup : NoDup (levIds v);
  fl_seen : ∀ l, l ∈ levIds v → l ∈ full;
  fl_honest : honest (initialMsg v);
}.

Abbreviation handle_of q := (connId (sub q), SubId_sv (subId (sub q))).

(** The views fit the queries. *)
Record views_fit (qs : QueryScheduler) (views : gmap N (gmap bytes UserView)) : Prop := {
  vf_bound : views_bound cfg views;
  vf_live : ∀ p q, heap qs !! p = Some q → dead q = false → ∃ v,
    conn_lookup views (connId (sub q)) (SubId_sv (subId (sub q))) = Some (Memory v) ∧
    filling (sentEventsFull q) v;
  vf_stateless : ∀ c k v, conn_lookup views c k = Some (Stateless v) → filterGroup (sv_sub v) ≠ [];
}.

Record neg_inv (st : neg_state) : Prop := {
  ni_sched : sched_inv cfg (λ _, True) (queries st);
  ni_batch : levIdBatch (queries st) = [];
  ni_fit : views_fit (queries st) (world st).1;
}.

Lemma neg_inv_init : neg_inv neg_init.
Proof.
  split; [apply sched_inv_empty|done|]. split; simpl.
  - intros c cv. by rewrite lookup_empty.
  - intros p q. by rewrite lookup_empty.
  - intros c k v. unfold conn_lookup. by rewrite lookup_empty.
Qed.

(** ** Filling and sealing *)

Lemma fill_fold d m L : repr d m → (∀ l1 l2 e1 e2, m !! l1 = Some e1 → m !! l2 = Some e2 →
    ev_id e1 = ev_id e2 → l1 = l2) → ∀ vec (done_ : list N),
  vector_sealed vec = false → NoDup (vector_items vec) → NoDup L → (∀ l, l ∈ L → l ∉ done_) →
  (∀ x, x ∈ vector_items vec → ∃ l e, l ∈ done_ ∧ m !! l = Some e ∧ x = (ev_created_at e, ev_id e)) →
  ∃ vec', foldM (insert_levId d) vec L = Ok vec' ∧ vector_sealed vec' = false ∧
    NoDup (vector_items vec').
Proof.
  intros Hr Huniq. induction L as [|l L IH]; intros vec done_ Hopen Hnd HL Hnew Hitems; [by exists vec|].
  apply NoDup_cons in HL as [HlL HL]. cbn [foldM].
  assert (∃ vec1, insert_levId d vec l = Ok vec1 ∧ vector_sealed vec1 = false ∧
    NoDup (vector_items vec1) ∧ ∀ x, x ∈ vector_items vec1 → ∃ l' e, l' ∈ l :: done_ ∧
      m !! l' = Some e ∧ x = (ev_created_at e, ev_id e)) as (vec1 & -> & Hopen1 & Hnd1 & Hitems1).
  { assert (∀ x, x ∈ vector_items vec → ∃ l' e, l' ∈ l :: done_ ∧ m !! l' = Some e ∧
      x = (ev_created_at e, ev_id e)) as Hweak.
    { intros x (l' & e & ? & ?)%Hitems. exists l', e. split; [by constructor 2|done]. }
    unfold insert_levId, lookupEventByLevId. rewrite (lookup_Event_repr d m l Hr).
    destruct (m !! l) as [e|] eqn:He; cbn [fmap option_fmap option_map mbind result_bind].
    2:{ by exists vec. }
    assert (wf_event e) as Hwf by by eapply repr_wf.
    rewrite view_encode by done. cbn [mbind result_bind].
    rewrite created_at_encode, id_encode by done.
    destruct (vector_insert vec _ _) as [vec1|x] eqn:Hi.
    - destruct (vector_insert_open _ _ _ _ Hi) as [Hs Hit]. exists vec1. rewrite Hs, Hit.
      split_and!; [done|done| |].
      + apply NoDup_app. split_and!; [done| |apply NoDup_singleton].
        intros x (l' & e' & Hl' & He' & ->)%Hitems ?%list_elem_of_singleton.
        apply (Hnew l); [by constructor|]. assert (l' = l) as <-; [|done].
        eapply Huniq; [done..|]. congruence.
      + intros x [?|Hx]%elem_of_app; [by apply Hweak|]. apply list_elem_of_singleton in Hx as ->.
        exists l, e. split; [by constructor|done].
    - rewrite (vector_insert_caught _ _ _ _ Hi). by exists vec. }
  cbn [mbind result_bind]. apply (IH vec1 (l :: done_)); try done.
  intros l' Hl' [->|Hd]%elem_of_cons; [done|]. by apply (Hnew l'); [constructor 2|].
Qed.

Lemma fill_vector_ok d full v : neg_db d → filling full v →
  ∃ vec, fill_vector d v = Ok vec ∧ vector_sealed vec = true.
Proof.
  intros (m & Hr & Huniq) [Ho He Hnd _ _]. unfold fill_vector.
  destruct (fill_fold d m (merge_sort N.le (levIds v)) Hr Huniq (storageVector v) [])
    as (vec & -> & Hopen & Hitems).
  - done.
  - rewrite He. constructor.
  - by rewrite merge_sort_Permutation.
  - intros l _. apply not_elem_of_nil.
  - rewrite He. by intros x ?%not_elem_of_nil.
  - apply (vector_seal_open vec Hopen Hitems).
Qed.

(** ** The callbacks *)

(** [views'] differs from [views] at the handle only, and has no stateless view
    there that was not. *)
Record same_elsewhere (c : N) (k : bytes) (views views' : gmap N (gmap bytes UserView)) : Prop := {
  se_bound : views_bound cfg views';
  se_other : ∀ c' k', ¬ (c' = c ∧ k' = k) → conn_lookup views' c' k' = conn_lookup views c' k';
  se_here : ∀ v, conn_lookup views' c k = Some (Stateless v) → conn_lookup views c k = Some (Stateless v);
}.

Lemma same_elsewhere_put c s views views' v :
  views_bound cfg views' → (∀ c' k', conn_lookup views' c' k' =
    if decide (c' = c ∧ k' = SubId_sv s) then Some (Memory v) else conn_lookup views c' k') →
  same_elsewhere c (SubId_sv s) views views'.
Proof.
  intros Hb Hl. split; [done| |].
  - intros c' k' Hn. by rewrite Hl, decide_False.
  - intros v0. by rewrite Hl, decide_True.
Qed.

Lemma same_elsewhere_remove c s views :
  views_bound cfg views → same_elsewhere c (SubId_sv s) views (removeView views c s).
Proof.
  intros Hb. split; [by apply removeView_bound| |].
  - intros c' k' Hn. by rewrite removeView_lookup, decide_False.
  - intros v0. by rewrite removeView_lookup, decide_True.
Qed.

Lemma same_elsewhere_refl c k views : views_bound cfg views → same_elsewhere c k views views.
Proof. by split. Qed.

Lemma same_elsewhere_trans c k v1 v2 v3 :
  same_elsewhere c k v1 v2 → same_elsewhere c k v2 v3 → same_elsewhere c k v1 v3.
Proof.
  intros [B1 O1 H1'] [B2 O2 H2']. split; [done| |auto]. intros c' k' Hn. by rewrite O2, O1.
Qed.

(** Fitting queries without one at the handle. *)
Lemma views_fit_elsewhere qs qs' c k views views' :
  views_fit qs views → same_elsewhere c k views views' →
  (∀ p q, heap qs' !! p = Some q → dead q = false → heap qs !! p = Some q ∧ handle_of q ≠ (c, k)) →
  views_fit qs' views'.
Proof.
  intros [Hb Hl Hs] [Hb' Ho Hh] Hq. split; [done| |].
  - intros p q Hp Hd. destruct (Hq p q Hp Hd) as [Hp' Hne]. rewrite Ho by (by intros [<- <-]).
    by apply (Hl p).
  - intros c' k' v Hv. destruct (decide (c' = c ∧ k' = k)) as [[-> ->]|Hn].
    + by eapply Hs, Hh.
    + rewrite Ho in Hv by done. by eapply Hs.
Qed.

Lemma handleReconcile_spec w c s st msg :
  views_bound cfg w.1 → ∃ w', handleReconcile w c s st msg = Ok w' ∧
    same_elsewhere c (SubId_sv s) w.1 w'.1.
Proof.
  intros Hb. unfold handleReconcile. destruct (reconcile _ st msg) as [r|e] eqn:Hr.
  - eexists. split; [done|]. by apply same_elsewhere_refl.
  - rewrite (reconcile_caught _ _ _ _ Hr). eexists. split; [done|].
    by apply same_elsewhere_remove.
Qed.

Lemma on_event_batch_spec w sub v L :
  views_bound cfg w.1 → findView w.1 (connId sub) (subId sub) = Some (Memory v) →
  ∃ w', on_event_batch w sub L = Ok w' ∧
    same_elsewhere (connId sub) (SubId_sv (subId sub)) w.1 w'.1 ∧
    findView w'.1 (connId sub) (subId sub) =
      Some (Memory (mk_memory_view (initialMsg v) (storageVector v) (levIds v ++ L))).
Proof.
  intros Hb Hf. unfold on_event_batch. rewrite Hf.
  destruct (put_view_spec cfg w.1 (connId sub) (subId sub) (Memory v)
    (mk_memory_view (initialMsg v) (storageVector v) (levIds v ++ L)) Hb Hf) as (views' & -> & Hb' & Hl).
  eexists. split; [done|]. split; [by eapply same_elsewhere_put|].
  rewrite findView_lookup. simpl. by rewrite Hl, decide_True.
Qed.

Lemma on_complete_spec d w sub full v :
  neg_db d → views_bound cfg w.1 → findView w.1 (connId sub) (subId sub) = Some (Memory v) →
  filling full v → ∃ w', on_complete cfg d w sub = Ok w' ∧
    same_elsewhere (connId sub) (SubId_sv (subId sub)) w.1 w'.1.
Proof.
  intros Hd Hb Hf Hfill. unfold on_complete. rewrite Hf.
  destruct (relay__negentropy__maxSyncEvents cfg <? _)%N.
  { eexists. split; [done|]. by apply same_elsewhere_remove. }
  destruct (fill_vector_ok d full v Hd Hfill) as (vec & -> & Hsealed). cbn [mbind result_bind].
  destruct (put_view_spec cfg w.1 (connId sub) (subId sub) (Memory v)
    (mk_memory_view (initialMsg v) vec []) Hb Hf) as (views1 & -> & Hb1 & Hl1).
  cbn [mbind result_bind]. unfold handleReconcile.
  destruct (honest_ok vec (initialMsg v) Hsealed (fl_honest _ _ Hfill)) as (resp & ->). cbn [mbind result_bind fst snd].
  destruct (put_view_spec cfg views1 (connId sub) (subId sub) (Memory (mk_memory_view (initialMsg v) vec []))
    (mk_memory_view [] vec []) Hb1) as (views2 & -> & Hb2 & Hl2).
  { rewrite findView_lookup, Hl1, decide_True; done. }
  eexists. split; [done|]. apply (same_elsewhere_trans _ _ _ views1); by eapply same_elsewhere_put.
Qed.

(** ** Turns of the scheduler *)

(** The turn of the live query in front, in the state [st], throws [e]; its
    callback never does. *)
Definition query_throws (d : env) (st : neg_state) (e : exn) : Prop :=
  ∃ p rest q, running (queries st) = p :: rest ∧ heap (queries st) !! p = Some q ∧ dead q = false ∧
    DBQuery.process (on_found false None (Some on_event_batch) d (sub q)) clock d
      (relay__queryTimesliceBudgetMicroseconds cfg) q (world st, []) (tick st) = Throw e.

Lemma found_fold d s (w : neg_world) batch L :
  foldM (on_found false None (Some on_event_batch) d s) (w, batch) L = Ok (w, batch ++ L).
Proof.
  revert batch. induction L as [|l L IH]; intros batch; cbn [foldM]; [by rewrite app_nil_r|].
  unfold on_found at 2. cbn [mbind result_bind]. by rewrite IH, <-app_assoc.
Qed.

Lemma after_turn_run d qs p q w w1 w2 :
  on_event_batch w (sub q) (levIdBatch qs) = Ok w1 → on_complete cfg d w1 (sub q) = Ok w2 →
  findQuery qs (connId (sub q)) (subId (sub q)) = Some p → heap qs !! p = Some q →
  ∃ qs', after_turn (Some on_event_batch) (Some (on_complete cfg d)) qs p q true w = Ok (qs', w2) ∧
    levIdBatch qs' = [] ∧ heap qs' !! p = None.
Proof.
  intros Hw1 Hw2 Hf Hp. unfold after_turn. rewrite Hw1. cbn [mbind result_bind].
  unfold removeSub. change (findQuery (set_levIdBatch qs [])) with (findQuery qs). rewrite Hf.
  change (heap (set_levIdBatch qs [])) with (heap qs). rewrite (kill_Some _ _ _ Hp).
  cbn [mbind result_bind]. rewrite Hw2. eexists. split; [done|]. split; [done|].
  simpl. by rewrite lookup_delete_eq.
Qed.

(** The queries left after a completed turn. *)
Lemma fit_after_complete qs qs' p q views views' :
  sched_inv cfg (λ _, True) qs → heap qs !! p = Some q → dead q = false →
  views_fit qs views → same_elsewhere (connId (sub q)) (SubId_sv (subId (sub q))) views views' →
  heap qs' !! p = None → (∀ p', p' ≠ p → heap qs' !! p' = heap qs !! p') → views_fit qs' views'.
Proof.
  intros Hinv Hp Hd Hfit Hse Hnone Hsame. eapply views_fit_elsewhere; [done|done|].
  intros p' q' Hp' Hd'. destruct (decide (p' = p)) as [->|Hne]; [congruence|].
  rewrite Hsame in Hp' by done. split; [done|]. intros [= Hc Hk].
  destruct (si_live _ _ _ Hinv p q Hp Hd) as [Hl _].
  destruct (si_live _ _ _ Hinv p' q' Hp' Hd') as [Hl' _]. rewrite Hc, Hk in Hl'. congruence.
Qed.

(** The queries left after a paused turn. *)
Lemma fit_after_pause qs l p q q' views views' v batch :
  sched_inv cfg (λ _, True) qs → heap qs !! p = Some q → dead q = false → sub q' = sub q →
  views_fit qs views → same_elsewhere (connId (sub q)) (SubId_sv (subId (sub q))) views views' →
  conn_lookup views' (connId (sub q)) (SubId_sv (subId (sub q))) = Some (Memory v) →
  filling (sentEventsFull q') v →
  views_fit (mk_qs (conns qs) l batch (<[p := q']> (heap qs))) views'.
Proof.
  intros Hinv Hp Hd Hs [Hb Hl Hst] [Hb' Ho Hh] Hv Hfill. split; [done| |]; simpl.
  - intros p' q0. rewrite lookup_insert. case_decide as Hpp.
    + intros [= <-] _. rewrite Hs. by exists v.
    + intros Hp' Hd'. rewrite Ho; [by apply (Hl p')|]. intros [Hc Hk].
      destruct (si_live _ _ _ Hinv p q Hp Hd) as [Hlk _].
      destruct (si_live _ _ _ Hinv p' q0 Hp' Hd') as [Hlk' _]. rewrite Hc, Hk in Hlk'. congruence.
  - intros c k v0 Hv0. destruct (decide (c = connId (sub q) ∧ k = SubId_sv (subId (sub q))))
      as [[-> ->]|Hn]; [congruence|]. rewrite Ho in Hv0 by done. by eapply Hst.
Qed.

Lemma run_queries_inv d st : neg_db d → neg_inv st →
  match run_queries cfg clock d st with Ok st' => neg_inv st' | Throw e => query_throws d st e end.
Proof.
  intros Hdb [Hinv Hbatch Hfit]. destruct st as [qs w t]. simpl in Hinv, Hbatch, Hfit.
  unfold run_queries. cbn [queries world tick].
  destruct (running qs) as [|p rest] eqn:Hrun.
  { unfold process. rewrite Hrun. by split. }
  assert (is_Some (heap qs !! p)) as [q Hq].
  { apply (proj2 (si_running _ _ _ Hinv)). rewrite Hrun. constructor. }
  destruct (dead q) eqn:Hd.
  { unfold process. rewrite Hrun. simpl. rewrite Hq, Hd. cbn [mbind result_bind].
    split; simpl; [by eapply sched_inv_drop|done|]. destruct Hfit as [Hb Hl Hs]. split; [done| |done].
    intros p' q'. simpl. intros [_ Hp']%lookup_delete_Some. by apply (Hl p'). }
  rewrite (process_turn cfg false None (Some on_event_batch) (Some (on_complete cfg d)) clock d qs w t
    p rest q Hrun Hq Hd). rewrite Hbatch.
  destruct (DBQuery.process _ _ _ _ _ _ _) as [[[[c q'] [w' batch]] t']|e] eqn:Hturn;
    cbn [mbind result_bind]; [|by exists p, rest, q].
  destruct (process_reports _ _ _ _ _ _ _ _ _ _ _ Hturn) as (L & HL & Hnd & Hnew & Hfull).
  rewrite found_fold in HL. injection HL as -> ->. cbn [app] in *.
  pose proof (process_frame _ _ _ _ _ _ _ _ _ _ _ Hturn) as [Hs Hd']. rewrite Hd in Hd'.
  destruct (vf_live _ _ Hfit p q Hq Hd) as (v & Hv & Hfill).
  rewrite <-findView_lookup, <-Hs in Hv.
  destruct (on_event_batch_spec w' (sub q') v batch (vf_bound _ _ Hfit) Hv) as (w1 & Hw1 & Hse1 & Hv1).
  set (v1 := mk_memory_view _ _ _) in Hv1.
  assert (filling (sentEventsFull q') v1) as Hfill1.
  { destruct Hfill as [? ? Hn0 Hsn ?]. split; simpl; [done|done| | |done].
    - apply NoDup_app. split_and!; [done| |done]. intros l Hl Hl2. by apply (Hnew l Hl2), Hsn.
    - rewrite Hfull. intros l [?%Hsn|Hl]%elem_of_app; set_solver. }
  pose proof (λ b l, sched_inv_rotate cfg (λ _, True) qs p rest q q' b l Hinv Hrun Hq Hd Hs
    (eq_trans Hd' (eq_sym Hd)) I) as Hrot.
  set (qs1 := mk_qs (conns qs) rest batch (<[p := q']> (heap qs))).
  assert (heap qs1 !! p = Some q') as Hq1 by apply lookup_insert_eq. destruct c.
  - destruct (on_complete_spec d w1 (sub q') (sentEventsFull q') v1 Hdb (se_bound _ _ _ _ Hse1) Hv1 Hfill1)
      as (w2 & Hw2 & Hse2).
    pose proof (Hrot batch (p :: rest) (reflexivity _)) as Hinv1.
    destruct (after_turn_run d qs1 p q' w' w1 w2 Hw1 Hw2) as (qs2 & Hat & Hb2 & Hnone2); [|done|].
    { rewrite findQuery_lookup. by apply (si_live _ _ _ Hinv1). }
    pose proof (after_turn_complete cfg (Some on_event_batch) (Some (on_complete cfg d))
      (λ _, True) qs1 p q' w' Hinv1 Hq1 Hd') as Hafter. rewrite Hat in Hafter |- *.
    destruct Hafter as (Hinv2 & _ & Hsame & _). cbn [mbind result_bind]. split; [done|done|].
    cbn [queries world]. rewrite Hs in *.
    apply (fit_after_complete qs qs2 p q w'.1 w2.1 Hinv Hq Hd Hfit); [|done|].
    + by eapply same_elsewhere_trans.
    + intros p' Hne. rewrite Hsame by done. simpl. by rewrite lookup_insert_ne.
  - unfold after_turn. change (levIdBatch qs1) with batch. rewrite Hw1. cbn [mbind result_bind].
    split; [apply (Hrot [] (rest ++ [p])); by rewrite <-Permutation_cons_append|done|].
    rewrite Hs in *. rewrite findView_lookup in Hv1.
    by apply (fit_after_pause qs (rest ++ [p]) p q q' w'.1 w1.1 v1 []).
Qed.

(** ** Messages *)

(** What keeps the thread alive: first messages the library can answer, and no
    precomputed tree for the handle of a running query. *)
Definition allowed (d : env) (st : neg_state) (msg : MsgNegentropy) : Prop :=
  match msg with
  | Negentropy_NegOpen sub filterStr negPayload =>
      match find_tree d filterStr with
      | Some _ => findQuery (queries st) (connId sub) (subId sub) = None ∧ filterGroup sub ≠ []
      | None => honest negPayload
      end
  | _ => True
  end.

Lemma no_live qs c s p q : sched_inv cfg (λ _, True) qs → findQuery qs c s = None →
  heap qs !! p = Some q → dead q = false → handle_of q ≠ (c, SubId_sv s).
Proof.
  intros Hinv Hf Hp Hd [= Hc Hk]. rewrite findQuery_lookup in Hf.
  destruct (si_live _ _ _ Hinv p q Hp Hd) as [Hl _]. rewrite Hc, Hk in Hl. congruence.
Qed.

(** Removing a query and changing the view at its handle. *)
Lemma removeSub_fit qs views views' c s :
  sched_inv cfg (λ _, True) qs → levIdBatch qs = [] → views_fit qs views →
  same_elsewhere c (SubId_sv s) views views' →
  ∃ qs', removeSub qs c s = Ok qs' ∧ sched_inv cfg (λ _, True) qs' ∧ levIdBatch qs' = [] ∧
    views_fit qs' views'.
Proof.
  intros Hinv Hb Hfit Hse. destruct (removeSub_inv cfg (λ _, True) qs c s Hinv)
    as (qs' & Hr & Hinv' & Hnone & _). destruct (removeSub_live _ _ _ _ Hr) as [Hb' Hlive].
  exists qs'. split_and!; [done|done|congruence|]. eapply views_fit_elsewhere; [done|done|].
  intros p q Hp Hd. split; [by apply Hlive|by eapply no_live].
Qed.

Lemma tree_storage_ok d t s : filterGroup s ≠ [] → ∃ st, tree_storage d t s = Ok st.
Proof. unfold tree_storage. destruct (filterGroup s); [done|]. by eexists. Qed.

(** A new session's query and view. *)
Lemma open_memory_fit d qs qs' ok views views' sub payload :
  sched_inv cfg (λ _, True) qs → views_fit qs views → honest payload →
  addSub cfg d qs sub = Ok (qs', ok) →
  addMemoryView cfg views (connId sub) (subId sub) payload = (views', true) →
  sched_inv cfg (λ _, True) qs' → views_fit qs' views'.
Proof.
  intros Hinv [Hb Hlive Hst] Hhon Hadd Ha Hinv'.
  destruct (addView_spec cfg _ _ _ _ _ _ Hb Ha) as [Hb' Hl'].
  destruct (addSub_inv cfg (λ _, True) d qs sub Hinv I) as (qs0 & ok0 & Hadd0 & _ & Hyes & Hno).
  rewrite Hadd in Hadd0. injection Hadd0 as <- <-.
  destruct (addSub_live cfg d qs sub qs' ok Hadd) as [_ Hold]. split; [done| |].
  - intros p q Hp Hd. rewrite Hl'.
    destruct (decide (connId (DBQuery.sub q) = connId sub ∧
      SubId_sv (subId (DBQuery.sub q)) = SubId_sv (subId sub))) as [[Hc Hk]|Hn].
    + eexists. split; [done|]. destruct (si_live _ _ _ Hinv' p q Hp Hd) as [Hl _].
      rewrite Hc, Hk, <-findQuery_lookup in Hl. destruct ok.
      * destruct (Hyes eq_refl) as (p1 & Hf & _ & Hp1). rewrite Hl in Hf. injection Hf as <-.
        rewrite Hp in Hp1. injection Hp1 as ->. destruct vector_new_open.
        split; simpl; try done; [constructor|by intros l ?%not_elem_of_nil].
      * destruct (Hno eq_refl). congruence.
    + destruct (Hold p q Hp Hd) as [Hp0| ->]; [by apply (Hlive p)|by destruct Hn].
  - intros c k v. rewrite Hl'. case_decide; [by intros [=]|apply Hst].
Qed.

(** The connection has too many sessions. *)
Lemma open_memory_refused d qs qs' ok views views' sub payload :
  sched_inv cfg (λ _, True) qs → levIdBatch qs = [] → views_fit qs views →
  addSub cfg d qs sub = Ok (qs', ok) →
  addMemoryView cfg views (connId sub) (subId sub) payload = (views', false) →
  sched_inv cfg (λ _, True) qs' →
  ∃ qs2, removeSub qs' (connId sub) (subId sub) = Ok qs2 ∧ sched_inv cfg (λ _, True) qs2 ∧
    levIdBatch qs2 = [] ∧ views_fit qs2 views'.
Proof.
  intros Hinv Hbatch Hfit Hadd Ha Hinv'.
  destruct (addView_spec cfg _ _ _ _ _ _ (vf_bound _ _ Hfit) Ha) as [Hb' Hl'].
  destruct (addSub_live cfg d qs sub qs' ok Hadd) as [Hb1 Hold].
  destruct (removeSub_inv cfg (λ _, True) qs' (connId sub) (subId sub) Hinv')
    as (qs2 & Hr & Hinv2 & Hnone & _). destruct (removeSub_live _ _ _ _ Hr) as [Hb2 Hlive2].
  exists qs2. split_and!; [done|done|congruence|].
  eapply (views_fit_elsewhere qs qs2 (connId sub) (SubId_sv (subId sub)) views); [done| |].
  - split; [done|intros c k Hn; by rewrite Hl', decide_False|intros v; by rewrite Hl', decide_True].
  - intros p q Hp Hd. pose proof (no_live qs2 _ _ p q Hinv2 Hnone Hp Hd) as Hne. split; [|done].
    destruct (Hold p q (Hlive2 p q Hp Hd) Hd) as [?| ->]; done.
Qed.

(** What a NEG-OPEN does before it runs the queries, if it does. *)
Lemma neg_open_step d st sub filterStr payload : neg_inv st →
  allowed d st (Negentropy_NegOpen sub filterStr payload) →
  ∃ st1, neg_inv st1 ∧
    (∀ Q, sched_inv cfg Q (queries st) →
       Q (DBQuery_make (set_latestEventId sub (getMostRecentLevId d))) → sched_inv cfg Q (queries st1)) ∧
    (neg_open cfg clock d st sub filterStr payload = Ok st1 ∨
     neg_open cfg clock d st sub filterStr payload = run_queries cfg clock d st1).
Proof.
  intros [Hinv Hb Hfit] Hal. simpl in Hal. unfold neg_open.
  destruct (find_tree d filterStr) as [treeId|] eqn:Ht.
  - destruct Hal as [Hnone Hfg]. destruct (tree_storage_ok d treeId sub Hfg) as [sto ->].
    cbn [mbind result_bind].
    destruct (handleReconcile_spec (world st) (connId sub) (subId sub) sto payload (vf_bound _ _ Hfit))
      as (w & -> & Hse). cbn [mbind result_bind].
    assert (views_fit (queries st) w.1) as Hfit1.
    { eapply views_fit_elsewhere; [done|done|]. intros p q Hp Hq. split; [done|by eapply no_live]. }
    destruct (addStatelessView cfg w.1 _ _ sub treeId) as [views ok] eqn:Ha.
    destruct (addView_spec cfg _ _ _ _ _ _ (vf_bound _ _ Hfit1) Ha) as [Hb2 Hl2].
    assert (views_fit (queries st) views) as Hfit2.
    { destruct Hfit1 as [_ Hlive Hst]. split; [done| |].
      - intros p q Hp Hq. rewrite Hl2, decide_False; [by apply (Hlive p)|].
        intros [Hc Hk]. eapply (no_live (queries st) _ _ p q); [done|done|done|done|congruence].
      - intros c k v. rewrite Hl2. case_decide; [|by apply Hst]. destruct ok; [|done].
        by intros [= <-]. }
    destruct ok; [eexists; split; [|split; [|by left]]; [by split|done]|].
    unfold removeSub. change (queries (set_world _ _)) with (queries st).
    rewrite Hnone. cbn [mbind result_bind]. eexists. split; [|split; [|by left]]; [by split|done].
  - destruct (addSub_inv cfg (λ _, True) d (queries st) sub Hinv I)
      as (qs & ok & Hadd & Hinv1 & _). rewrite Hadd. cbn [mbind result_bind].
    destruct (addSub_live cfg d (queries st) sub qs ok Hadd) as [Hb1 _].
    assert (∀ Q, sched_inv cfg Q (queries st) →
      Q (DBQuery_make (set_latestEventId sub (getMostRecentLevId d))) → sched_inv cfg Q qs) as HQ.
    { intros Q HQ Hnew. destruct (addSub_inv cfg Q d (queries st) sub HQ Hnew) as (? & ? & Ha & ? & _).
      rewrite Hadd in Ha. by injection Ha as <- <-. }
    set (st1 := if ok then _ else _).
    assert (queries st1 = qs ∧ (world st1).1 = (world st).1) as [Hq1 Hw1] by (subst st1; by destruct ok).
    rewrite Hw1. destruct (addMemoryView cfg (world st).1 _ _ payload) as [views []] eqn:Ha.
    + cbn [mbind result_bind]. eexists. split; [|split; [|by right]]; [|by rewrite <-Hq1 in HQ].
      split; simpl; rewrite Hq1.
      * done.
      * congruence.
      * by apply (open_memory_fit d (queries st) qs ok (world st).1 views sub payload).
    + destruct (open_memory_refused d (queries st) qs ok (world st).1 views sub payload)
        as (qs2 & Hr & Hinv2 & Hbatch2 & Hfit2); [done..|].
      change (queries (set_world st1 (views, (world st1).2))) with (queries st1).
      rewrite Hq1, Hr. cbn [mbind result_bind]. eexists. split; [|split; [|by right]]; [by split|].
      intros Q Hs Hnew. simpl. destruct (removeSub_inv cfg Q qs (connId sub) (subId sub) (HQ Q Hs Hnew))
        as (qs3 & Hr3 & ? & _). rewrite Hr in Hr3. by injection Hr3 as <-.
Qed.

Lemma neg_msg_inv d st c s payload : neg_inv st →
  ∃ st', neg_msg d st c s payload = Ok st' ∧ neg_inv st' ∧ queries st' = queries st.
Proof.
  intros [Hinv Hb Hfit]. unfold neg_msg.
  assert (∀ v sto, findView (world st).1 c s = Some v →
    (∀ full v', v = Memory v' → ¬ filling full v') →
    ∃ w, handleReconcile (world st) c s sto payload = Ok w ∧ neg_inv (set_world st w)) as Hanswer.
  { intros v sto Hf Hv. destruct (handleReconcile_spec (world st) c s sto payload (vf_bound _ _ Hfit))
      as (w & -> & Hse). exists w. split; [done|]. split; [done|done|]. simpl.
    eapply views_fit_elsewhere; [done|done|]. intros p q Hp Hd. split; [done|].
    intros [= Hc Hk]. destruct (vf_live _ _ Hfit p q Hp Hd) as (v' & Hv' & Hfill).
    rewrite Hc, Hk, <-findView_lookup, Hf in Hv'. injection Hv' as ->. by eapply Hv. }
  destruct (findView (world st).1 c s) as [[v|v]|] eqn:Hf.
  - destruct (vector_sealed (storageVector v)) eqn:Hs.
    + destruct (Hanswer (Memory v) (vector_storage (storageVector v)) eq_refl) as (w & -> & Hw).
      { intros full v' [= <-] [Ho _ _ _ _]. congruence. }
      cbn [mbind result_bind]. by eexists.
    + eexists. split; [done|]. by split.
  - destruct (tree_storage_ok d (sv_treeId v) (sv_sub v)) as [sto ->].
    { apply (vf_stateless _ _ Hfit c (SubId_sv s)). by rewrite <-findView_lookup. }
    cbn [mbind result_bind].
    destruct (Hanswer (Stateless v) sto eq_refl) as (w & -> & Hw); [done|].
    cbn [mbind result_bind]. by eexists.
  - eexists. split; [done|]. by split.
Qed.

(** Every message leads to a state in order, or to one whose queries run next. *)
Lemma neg_handle_step d st msg : neg_inv st → allowed d st msg →
  ∃ st1, neg_inv st1 ∧
    (∀ Q, sched_inv cfg Q (queries st) → (∀ sub filterStr payload,
       msg = Negentropy_NegOpen sub filterStr payload →
       Q (DBQuery_make (set_latestEventId sub (getMostRecentLevId d)))) →
     sched_inv cfg Q (queries st1)) ∧
    (neg_handle cfg clock d st msg = Ok st1 ∨
     neg_handle cfg clock d st msg = run_queries cfg clock d st1).
Proof.
  intros Hst Hal. destruct msg as [sub filterStr payload|c s payload|c s|c]; cbn [neg_handle].
  - destruct (neg_open_step d st sub filterStr payload Hst Hal) as (st1 & Hst1 & HQ & Hrun).
    exists st1. split; [done|]. split; [|done]. intros Q Hs Hnew. apply HQ; [done|by eapply Hnew].
  - destruct (neg_msg_inv d st c s payload Hst) as (st' & -> & ? & Hq). exists st'. split; [done|].
    split; [by rewrite Hq|by left].
  - destruct Hst as [Hinv Hb Hfit].
    destruct (removeSub_fit (queries st) (world st).1 (removeView (world st).1 c s) c s Hinv Hb Hfit)
      as (qs & Hr & Hinv' & Hb' & Hfit'); [by apply same_elsewhere_remove, vf_bound with (queries st)|].
    rewrite Hr. eexists. split; [|split; [|by left]]; [by split|]. intros Q HQ _.
    destruct (removeSub_inv cfg Q (queries st) c s HQ) as (qs3 & Hr3 & ? & _).
    rewrite Hr in Hr3. by injection Hr3 as <-.
  - destruct Hst as [Hinv Hb [Hvb Hlive Hsl]].
    destruct (closeConn_inv cfg (λ _, True) (queries st) c Hinv) as (qs & Hc & Hinv' & Hnone & _).
    destruct (closeConn_live _ _ _ Hc) as [Hb' Hold]. rewrite Hc. cbn [mbind result_bind].
    eexists. split; [|split; [|by left]].
    2:{ intros Q HQ _. destruct (closeConn_inv cfg Q (queries st) c HQ) as (qs3 & Hr3 & ? & _).
        rewrite Hc in Hr3. by injection Hr3 as <-. }
    split; [done|simpl; congruence|]. unfold closeViews. split; simpl.
    + intros c' cv [_ Hcv]%lookup_delete_Some. by eapply Hvb.
    + intros p q Hp Hq. rewrite conn_lookup_delete, decide_False; [by apply (Hlive p), Hq; apply Hold|].
      intros Heq. destruct (si_live _ _ _ Hinv' p q Hp Hq) as [Hl _].
      unfold conn_lookup in Hl. by rewrite Heq, Hnone in Hl.
    + intros c' k v. rewrite conn_lookup_delete. case_decide; [done|apply Hsl].
Qed.

(** ** The thread *)

Inductive reachable : neg_state → Prop :=
  | reach_init : reachable neg_init
  | reach_msg d st msg st' : reachable st → neg_db d → allowed d st msg →
      neg_handle cfg clock d st msg = Ok st' → reachable st'
  | reach_turn d st st' : reachable st → neg_db d → run_queries cfg clock d st = Ok st' →
      reachable st'.

Lemma reachable_inv st : reachable st → neg_inv st.
Proof.
  induction 1 as [|d st msg st' _ IH Hd Hal Hrun|d st st' _ IH Hd Hrun].
  - apply neg_inv_init.
  - destruct (neg_handle_step d st msg IH Hal) as (st1 & Hst1 & _ & [Hh|Hh]); rewrite Hrun in Hh.
    + by injection Hh as ->.
    + pose proof (run_queries_inv d st1 Hd Hst1) as Hr. by rewrite <-Hh in Hr.
  - pose proof (run_queries_inv d st Hd IH) as Hh. by rewrite Hrun in Hh.
Qed.

(** ** Runs over databases that queries can scan *)

Definition relay_db (d : env) : Prop := neg_db d ∧ ∃ m, scan_db d m.

(** Allowed, with the filters the ingester makes. *)
Definition proper (d : env) (st : neg_state) (msg : MsgNegentropy) : Prop :=
  allowed d st msg ∧ ∀ sub filterStr payload, msg = Negentropy_NegOpen sub filterStr payload →
    Forall scan_filter (filterGroup sub).

Inductive served : neg_state → Prop :=
  | served_init : served neg_init
  | served_msg d st msg st' : served st → relay_db d → proper d st msg →
      neg_handle cfg clock d st msg = Ok st' → served st'
  | served_turn d st st' : served st → relay_db d → run_queries cfg clock d st = Ok st' →
      served st'.

Record neg_sane (st : neg_state) : Prop := {
  ns_inv : neg_inv st;
  ns_queries : sched_inv cfg query_sane (queries st);
}.

Lemma run_queries_sane d st : relay_db d → neg_sane st →
  ∃ st', run_queries cfg clock d st = Ok st' ∧ neg_sane st'.
Proof.
  intros [Hd [m Hm]] [Hinv Hq]. pose proof (run_queries_inv d st Hd Hinv) as Hrun.
  assert (∀ s b l, ∃ b', on_found false None (Some on_event_batch) d s b l = Ok b') as Hcb.
  { intros s [w b] l. by eexists. }
  assert (∀ q w0 b0 t0, query_sane q → ∃ c q' b' t',
    DBQuery.process (on_found false None (Some on_event_batch) d (sub q)) clock d
      (relay__queryTimesliceBudgetMicroseconds cfg) q (w0, b0) t0 = Ok (c, q', b', t') ∧
    query_sane q') as Hturn.
  { intros q w0 b0 t0 Hs. by eapply (process_total _ _ d m). }
  destruct (run_queries cfg clock d st) as [st'|e] eqn:Hr.
  - exists st'. split; [done|]. split; [done|]. unfold run_queries in Hr.
    pose proof (process_inv cfg false None (Some on_event_batch) (Some (on_complete cfg d)) clock
      query_sane d (queries st) (world st) (tick st) Hq) as Hp.
    destruct (process _ _ _ _ _ _ _ _ _ _) as [[[qs w] t]|]; [|done].
    injection Hr as <-. simpl. apply Hp. intros q w0 b0 t0 c q' b' t' Hs Heq.
    destruct (Hturn q w0 b0 t0 Hs) as (c1 & q1 & b1 & t1 & Heq1 & Hs1).
    rewrite Heq in Heq1. by injection Heq1 as -> -> -> ->.
  - exfalso. destruct Hrun as (p & rest & q & Hf & Hp & Hl & He).
    destruct (si_live _ _ _ Hq p q Hp Hl) as [_ Hs].
    destruct (Hturn q (world st) [] (tick st) Hs) as (? & ? & ? & ? & Heq & _). congruence.
Qed.

Lemma neg_handle_sane d st msg : relay_db d → neg_sane st → proper d st msg →
  ∃ st', neg_handle cfg clock d st msg = Ok st' ∧ neg_sane st'.
Proof.
  intros Hd [Hinv Hq] [Hal Hfs].
  destruct (neg_handle_step d st msg Hinv Hal) as (st1 & Hst1 & HQ & Hrun).
  assert (neg_sane st1) as Hst1'.
  { split; [done|]. apply HQ; [done|]. intros sub f pl Hmsg. apply query_sane_make. exact (Hfs _ _ _ Hmsg). }
  destruct Hrun as [->| ->]; [by exists st1|]. by apply run_queries_sane.
Qed.

Lemma served_sane st : served st → neg_sane st.
Proof.
  induction 1 as [|d st msg st' _ IH Hd Hp Hrun|d st st' _ IH Hd Hrun].
  - split; [apply neg_inv_init|apply sched_inv_empty].
  - destruct (neg_handle_sane d st msg Hd IH Hp) as (st1 & Hst1 & ?). congruence.
  - destruct (run_queries_sane d st Hd IH) as (st1 & Hst1 & ?). congruence.
Qed.

(** C30: as long as every first message can be answered and no precomputed tree is
    asked for under the handle of a running query, whatever messages arrive and
    however the store changes between snapshots: no connection has more
    sessions than configured, every running query has an open session to fill,
    and neither a message nor a turn of the scheduler throws - in particular no
    vector is sealed twice or with a repeated item, no pointer to an erased
    session is used, and a query that was paused goes on in the new snapshot. *)
Theorem neg_sessions_safe d st : served st → relay_db d →
  (∀ c cv, (world st).1 !! c = Some cv →
    (N.of_nat (base.size cv) ≤ relay__maxSubsPerConnection cfg)%N) ∧
  (∀ p q, heap (queries st) !! p = Some q → dead q = false → ∃ v,
    findView (world st).1 (connId (sub q)) (subId (sub q)) = Some (Memory v) ∧
    vector_sealed (storageVector v) = false ∧ NoDup (levIds v)) ∧
  (∀ msg, proper d st msg → ∃ st', neg_handle cfg clock d st msg = Ok st') ∧
  (∃ st', run_queries cfg clock d st = Ok st').
Proof.
  intros Hst%served_sane Hd. pose proof Hst as [[Hinv Hb [Hvb Hlive _]] _]. split_and!.
  - exact Hvb.
  - intros p q Hp Hq. destruct (Hlive p q Hp Hq) as (v & Hv & [Ho _ Hnd _ _]). exists v.
    by rewrite findView_lookup.
  - intros msg Hp. destruct (neg_handle_sane d st msg Hd Hst Hp) as (st' & ? & _). by exists st'.
  - destruct (run_queries_sane d st Hd Hst) as (st' & ? & _). by exists st'.
Qed.
End sessions.

(** ** What ends the thread *)

Section fatal.
Context `{!Hex, !NativeU64, !GolpeKeys, !Env, !EventLibs, !NegentropyLib} (cfg : Config).
Variable clock : nat → N.
Context (honest : bytes → Prop).
Context (honest_ok : ∀ v msg, vector_sealed v = true → honest msg →
  ∃ r, reconcile frame_size_limit (vector_storage v) msg = Ok r).
Import Scheduler.

(** The first message of a completed session cannot be answered. *)
Lemma on_complete_malformed d w sub full v :
  neg_db d → views_bound cfg w.1 → findView w.1 (connId sub) (subId sub) = Some (Memory v) →
  filling (λ _, True) full v →
  (N.of_nat (length (levIds v)) ≤ relay__negentropy__maxSyncEvents cfg)%N →
  (∀ st, ∃ e, reconcile frame_size_limit st (initialMsg v) = Throw e) →
  on_complete cfg d w sub = Throw undefined_behaviour.
Proof.
  intros Hd Hb Hf Hfill Hlen Hbad. unfold on_complete. rewrite Hf.
  destruct (N.ltb_spec (relay__negentropy__maxSyncEvents cfg) (N.of_nat (length (levIds v)))); [lia|].
  destruct (fill_vector_ok (λ _, True) d full v Hd Hfill) as (vec & -> & _). cbn [mbind result_bind].
  destruct (put_view_spec cfg w.1 (connId sub) (subId sub) (Memory v)
    (mk_memory_view (initialMsg v) vec []) Hb Hf) as (views1 & -> & _ & _).
  cbn [mbind result_bind]. unfold handleReconcile. destruct (Hbad (vector_storage vec)) as [e He].
  rewrite He, (reconcile_caught _ _ _ _ He). cbn [mbind result_bind fst snd].
  unfold put_view. by rewrite findView_lookup, removeView_lookup, decide_True.
Qed.

Lemma addSub_first d qs s : conns qs !! connId s = None → (0 < relay__maxSubsPerConnection cfg)%N →
  ∃ qs', addSub cfg d qs s = Ok (qs', true).
Proof.
  intros Hc Hm. unfold addSub, findQuery. simpl. rewrite Hc. cbn [mbind result_bind].
  rewrite Hc. simpl. rewrite map_size_empty.
  destruct (N.leb_spec (relay__maxSubsPerConnection cfg) (N.of_nat 0)); [lia|]. by eexists.
Qed.

Lemma addMemoryView_first views c s msg : views !! c = None →
  (0 < relay__maxSubsPerConnection cfg)%N → ∃ views', addMemoryView cfg views c s msg = (views', true).
Proof.
  intros Hc Hm. unfold addMemoryView, addView, findView. rewrite Hc. simpl. rewrite Hc. simpl.
  rewrite map_size_empty. destruct (N.leb_spec (relay__maxSubsPerConnection cfg) (N.of_nat 0)); [lia|].
  by eexists.
Qed.

(** The turn of a query that completes with a session whose first message is
    malformed. *)
Lemma malformed_turn (d : env) (qs : QueryScheduler) (w : neg_world)
    (t : nat) (p : N) rest (q q' : DBQuery) L t' v :
  neg_db d → sched_inv cfg (λ _, True) qs → levIdBatch qs = [] → running qs = p :: rest →
  heap qs !! p = Some q → dead q = false → views_bound cfg w.1 →
  findView w.1 (connId (sub q)) (subId (sub q)) = Some (Memory v) →
  filling (λ _, True) (sentEventsFull q) v → levIds v = [] →
  (∀ st, ∃ e, reconcile frame_size_limit st (initialMsg v) = Throw e) →
  DBQuery.process (on_found false None (Some on_event_batch) d (sub q)) clock d
    (relay__queryTimesliceBudgetMicroseconds cfg) q (w, []) t = Ok (true, q', (w, L), t') →
  (N.of_nat (length L) ≤ relay__negentropy__maxSyncEvents cfg)%N →
  run_queries cfg clock d (mk_neg_state qs w t) = Throw undefined_behaviour.
Proof.
  intros Hdb Hinv Hbatch Hrun Hq Hd Hvb Hv Hfill Hnil Hbad Hturn Hlen.
  unfold run_queries. cbn [queries world tick].
  rewrite (process_turn cfg false None (Some on_event_batch) (Some (on_complete cfg d)) clock d qs w t
    p rest q Hrun Hq Hd). rewrite Hbatch.
  match goal with |- context [DBQuery.process ?cb ?ck ?dd ?bb ?qq ?ww ?tt] =>
    change (DBQuery.process cb ck dd bb qq ww tt) with (DBQuery.process
      (on_found false None (Some on_event_batch) d (sub q)) clock d
      (relay__queryTimesliceBudgetMicroseconds cfg) q ((w : neg_world), []) t) end.
  rewrite Hturn. cbn [mbind result_bind].
  pose proof (process_frame _ _ _ _ _ _ _ _ _ _ _ Hturn) as [Hs Hd'].
  destruct (process_reports _ _ _ _ _ _ _ _ _ _ _ Hturn) as (L' & HL & Hnd & Hnew & Hfull).
  rewrite found_fold in HL. injection HL as ->. rewrite <-Hs in Hv.
  destruct (on_event_batch_spec cfg w (sub q') v L Hvb Hv) as (w1 & Hw1 & Hse1 & Hv1).
  unfold after_turn. cbn [levIdBatch]. rewrite Hw1. cbn [mbind result_bind].
  unfold removeSub. cbn [set_levIdBatch findQuery conns heap].
  rewrite Hs. change (findQuery _ (connId (sub q)) (subId (sub q)))
    with (findQuery qs (connId (sub q)) (subId (sub q))).
  rewrite findQuery_lookup, (proj1 (si_live _ _ _ Hinv p q Hq Hd)).
  rewrite (kill_Some _ _ _ (lookup_insert_eq _ _ _)). cbn [mbind result_bind]. rewrite <-Hs.
  rewrite (on_complete_malformed d w1 (sub q') (sentEventsFull q') _ Hdb (se_bound _ _ _ _ _ Hse1) Hv1).
  - done.
  - destruct Hfill as [Ho He _ _ _]. split; simpl; [done|done| | |done]; rewrite Hnil; [done|].
    rewrite Hfull. set_solver.
  - simpl. by rewrite Hnil.
  - done.
Qed.

(** A session that is replaced leaves room for its successor. *)
Lemma removeView_room views c s v : views_bound cfg views → findView views c s = Some v →
  (N.of_nat (base.size (default ∅ (removeView views c s !! c))) < relay__maxSubsPerConnection cfg)%N.
Proof.
  intros Hb Hf. unfold removeView. rewrite Hf. unfold findView in Hf.
  destruct (views !! c) as [cv|] eqn:Hc; [|done]. specialize (Hb c cv Hc). simpl.
  assert (base.size cv = S (base.size (delete (SubId_sv s) cv))) as Hsz.
  { rewrite map_size_delete_Some by (by eexists).
    assert (base.size cv ≠ 0); [|lia]. intros ->%map_size_empty_inv. by rewrite lookup_empty in Hf. }
  case_decide as He.
  - rewrite lookup_delete_eq. simpl. rewrite map_size_empty. lia.
  - rewrite lookup_insert_eq. simpl. lia.
Qed.

Lemma addView_replaces views c s v0 v : views_bound cfg views → findView views c s = Some v0 →
  (addView cfg views c s v).2 = true ∧ (addView cfg (removeView views c s) c s v).2 = true.
Proof.
  intros Hb Hf. pose proof (removeView_room views c s v0 Hb Hf) as Hroom.
  assert (findView (removeView views c s) c s = None) as Hnone.
  { by rewrite findView_lookup, removeView_lookup, decide_True. }
  unfold addView. rewrite Hf, Hnone. cbn zeta.
  destruct (N.leb_spec (relay__maxSubsPerConnection cfg)
    (N.of_nat (base.size (default ∅ (removeView views c s !! c))))); [lia|done].
Qed.

Lemma reconcile_then_add (w : neg_world) c s st msg sub treeId v0 : views_bound cfg w.1 →
  findView w.1 c s = Some v0 → ∃ w' views, handleReconcile w c s st msg = Ok w' ∧
    addStatelessView cfg w'.1 c s sub treeId = (views, true) ∧ views_bound cfg w'.1.
Proof.
  intros Hb Hf. destruct (addView_replaces w.1 c s v0 (Stateless (mk_stateless_view sub treeId)) Hb Hf)
    as [H1a H2a]. unfold handleReconcile, addStatelessView.
  destruct (reconcile _ st msg) as [r|e] eqn:Hr.
  - eexists _, (addView cfg w.1 c s _).1. split; [done|]. simpl. by rewrite <-H1a, <-surjective_pairing.
  - rewrite (reconcile_caught _ _ _ _ Hr). eexists _, (addView cfg (removeView w.1 c s) c s _).1.
    split; [done|]. simpl. rewrite <-H2a, <-surjective_pairing. split; [done|].
    by apply removeView_bound.
Qed.

(** A turn of a query whose session was replaced by a tree. *)
Lemma clashing_turn (d : env) (st : neg_state) p rest q v :
  sched_inv cfg (λ _, True) (queries st) → running (queries st) = p :: rest →
  heap (queries st) !! p = Some q → dead q = false →
  findView (world st).1 (connId (sub q)) (subId (sub q)) = Some (Stateless v) →
  levIdBatch (queries st) = [] →
  ∃ e, run_queries cfg clock d st = Throw e ∧ (e = bad_variant ∨ query_throws cfg clock d st e).
Proof.
  intros Hinv Hrun Hq Hd Hv Hbatch. destruct st as [qs w t]. cbn [queries world] in *.
  unfold run_queries. cbn [queries world tick].
  rewrite (process_turn cfg false None (Some on_event_batch) (Some (on_complete cfg d)) clock d qs w t
    p rest q Hrun Hq Hd). rewrite Hbatch.
  destruct (DBQuery.process _ _ _ _ _ _ _) as [[[[c q'] [w' L]] t']|e] eqn:Hturn;
    cbn [mbind result_bind]; [|exists e; split; [done|right; by exists p, rest, q]].
  pose proof (process_frame _ _ _ _ _ _ _ _ _ _ _ Hturn) as [Hs _].
  destruct (process_reports _ _ _ _ _ _ _ _ _ _ _ Hturn) as (L' & HL & _).
  rewrite found_fold in HL. injection HL as -> ->.
  exists bad_variant. split; [|by left]. unfold after_turn, on_event_batch. by rewrite Hs, Hv.
Qed.

(** The query of a new session completes in its first turn, with few enough
    events. *)
Definition completes_at_once (d : env) (sub : Subscription) (t : nat) : Prop :=
  ∀ w : neg_world, ∃ q' L t',
    DBQuery.process (on_found false None (Some on_event_batch) d
        (set_latestEventId sub (getMostRecentLevId d))) clock d
      (relay__queryTimesliceBudgetMicroseconds cfg)
      (DBQuery_make (set_latestEventId sub (getMostRecentLevId d))) (w, []) t =
      Ok (true, q', (w, L), t') ∧
    (N.of_nat (length L) ≤ relay__negentropy__maxSyncEvents cfg)%N.

Lemma neg_open_malformed d st sub filterStr payload :
  neg_inv cfg honest st → neg_db d → find_tree d filterStr = None →
  (∀ sto, ∃ e, reconcile frame_size_limit sto payload = Throw e) →
  conns (queries st) !! connId sub = None → (world st).1 !! connId sub = None →
  (0 < relay__maxSubsPerConnection cfg)%N → completes_at_once d sub (tick st) →
  neg_open cfg clock d st sub filterStr payload = Throw undefined_behaviour.
Proof.
  intros [Hinv Hb Hfit] Hd Ht Hbad Hcn Hvn Hm Hdone. unfold neg_open. rewrite Ht.
  destruct (addSub_first d (queries st) sub Hcn Hm) as (qs & Hadd).
  destruct (addSub_inv cfg (λ _, True) d (queries st) sub Hinv I) as (qs0 & ok & Hadd0 & Hinv1 & Hyes & _).
  rewrite Hadd in Hadd0. injection Hadd0 as <- <-. destruct (Hyes eq_refl) as (p & _ & Hrun & Hp).
  destruct (addSub_live cfg d _ _ _ _ Hadd) as [Hb1 _]. rewrite Hadd. cbn [mbind result_bind].
  cbn [set_queries world].
  destruct (addMemoryView_first (world st).1 (connId sub) (subId sub) payload Hvn Hm) as (views & Ha).
  rewrite Ha. cbn [mbind result_bind].
  destruct (addView_spec cfg _ _ _ _ _ _ (vf_bound _ _ _ _ Hfit) Ha) as [Hvb Hvl].
  destruct (Hdone (views, (world st).2)) as (q' & L & t' & Hturn & Hlen).
  unfold set_world. cbn [queries set_queries tick].
  apply (malformed_turn d qs (views, (world st).2) (tick st) p (running (queries st))
    (DBQuery_make (set_latestEventId sub (getMostRecentLevId d))) q' L t'
    (mk_memory_view payload vector_new [])); try done.
  - congruence.
  - rewrite findView_lookup. simpl. by rewrite Hvl, decide_True.
  - destruct vector_new_open. split; simpl; try done; [constructor|by intros l ?%not_elem_of_nil].
Qed.

Lemma neg_open_clash d st sub filterStr payload treeId p :
  neg_inv cfg honest st → find_tree d filterStr = Some treeId →
  findQuery (queries st) (connId sub) (subId sub) = Some p → filterGroup sub ≠ [] →
  ∃ st', neg_open cfg clock d st sub filterStr payload = Ok st' ∧ queries st' = queries st ∧
    ∀ rest d', running (queries st') = p :: rest → ∃ e,
      run_queries cfg clock d' st' = Throw e ∧ (e = bad_variant ∨ query_throws cfg clock d' st' e).
Proof.
  intros [Hinv Hb Hfit] Ht Hf Hfg. unfold neg_open. rewrite Ht.
  destruct (tree_storage_ok d treeId sub Hfg) as [sto ->]. cbn [mbind result_bind].
  pose proof Hf as Hf'. rewrite findQuery_lookup in Hf'.
  destruct (si_conns _ _ _ Hinv _ _ _ Hf') as (q & Hq & Hd & Hc & Hk).
  destruct (vf_live _ _ _ _ Hfit p q Hq Hd) as (v & Hv & _). rewrite Hc, Hk in Hv.
  rewrite <-findView_lookup in Hv.
  destruct (reconcile_then_add (world st) (connId sub) (subId sub) sto payload sub treeId (Memory v)
    (vf_bound _ _ _ _ Hfit) Hv) as (w' & views & -> & Ha & Hb'). cbn [mbind result_bind]. rewrite Ha.
  eexists. split; [done|]. split; [done|]. intros rest d' Hrun.
  apply (clashing_turn d' _ p rest q (mk_stateless_view sub treeId)); try done.
  rewrite findView_lookup. simpl. rewrite Hc, Hk.
  destruct (addView_spec cfg _ _ _ _ _ _ Hb' Ha) as [_ Hl]. by rewrite Hl, decide_True.
Qed.

(** C31: two ways in which one client ends the relay.  A NEG-OPEN whose first
    message the library refuses erases the session that the code goes on to
    write to; and a NEG-OPEN with a precomputed tree under the handle of a
    running query leaves a session the query's next turn does not expect, and
    throws. *)
Theorem neg_open_fatal d st sub filterStr payload : reachable cfg clock honest st → neg_db d →
  (find_tree d filterStr = None →
   (∀ sto, ∃ e, reconcile frame_size_limit sto payload = Throw e) →
   conns (queries st) !! connId sub = None → (world st).1 !! connId sub = None →
   (0 < relay__maxSubsPerConnection cfg)%N → completes_at_once d sub (tick st) →
   neg_open cfg clock d st sub filterStr payload = Throw undefined_behaviour) ∧
  (∀ treeId p, find_tree d filterStr = Some treeId →
   findQuery (queries st) (connId sub) (subId sub) = Some p → filterGroup sub ≠ [] →
   ∃ st', neg_open cfg clock d st sub filterStr payload = Ok st' ∧ queries st' = queries st ∧
     ∀ rest d', running (queries st') = p :: rest → ∃ e,
       run_queries cfg clock d' st' = Throw e ∧ (e = bad_variant ∨ query_throws cfg clock d' st' e)).
Proof.
  intros Hst Hd. apply (reachable_inv _ _ _ honest_ok) in Hst. split.
  - by apply neg_open_malformed.
  - intros treeId p. by apply neg_open_clash.
Qed.
End fatal.
