(* ===== verification/NegentropyWitnesses.v ===== *)
(** Negentropy sessions at a concrete database, with a library that answers
    every message but one. *)

From S2P Require Import Prelude Bytes Json Hex PackedEvent FilterSets Filters Config EventParse Db.
From S2P Require Import MemDb StoreTheorems Subscription DBQuery DBQueryCursors DBQueryTheorems.
From S2P Require Import QueryScheduler.
From S2P Require Import QuerySchedulerTheorems QueryWitnesses RelayServer RelayNegentropy.
From S2P Require Import NegentropyTheorems.

#[local] Existing Instance toy_libs.

(** A vector is its items and whether it is sealed. *)
#[refine, local] Instance toy_negentropy : NegentropyLib := {|
  vector := bool * list (N * bytes);
  vector_new := (false, []);
  vector_insert v c i := if v.1 then Throw (herr #"already sealed") else Ok (false, v.2 ++ [(c, i)]);
  vector_seal v :=
    if v.1 then Throw (herr #"already sealed")
    else if decide (NoDup v.2) then Ok (true, v.2) else Throw (herr #"duplicate item inserted");
  vector_sealed v := v.1;
  vector_items v := v.2;
  storage := list (N * bytes);
  vector_storage v := v.2;
  tree_range t lo hi := filter (λ x, (lo ≤ x.1 < hi)%N) (elements t);
  reconcile n s msg :=
    if decide (msg = #"bad") then Throw (herr #"parse error") else Ok (concat (snd <$> s));
|}.
Proof.
  - done.
  - intros [b items] c i v'. destruct b; [done|]. by intros [= <-].
  - intros [b items] c i e. destruct b; [by intros [= <-]|done].
  - intros [b items]. simpl. intros -> Hnd. rewrite decide_True by done. by eexists.
  - intros n s msg e. case_decide; [by intros [= <-]|done].
Defined.

Definition honest_msg (msg : bytes) : Prop := msg ≠ #"bad".

Lemma honest_msg_ok v msg : vector_sealed v = true → honest_msg msg →
  ∃ r, reconcile frame_size_limit (vector_storage v) msg = Ok r.
Proof. intros _ Hm. unfold honest_msg in Hm. simpl. rewrite decide_False by done. by eexists. Qed.

(** An empty store with a tree for everything. *)
Definition session_db : mem := mk_tables ∅ ∅ ∅ (Some (mk_meta 3 1 1)) [(7%N, #"{}")] ∅.

Lemma session_db_ok : neg_db (session_db : env).
Proof.
  exists ∅. split; [|by intros l1 l2 e1 e2; rewrite lookup_empty].
  split; [by rewrite fmap_empty|]. intros l e. by rewrite lookup_empty.
Qed.

(** A filter of so many kinds that its query is paused. *)
Definition long_filter : NostrFilter :=
  set_kinds filter_default (N.of_nat <$> seq 0 2100).

Definition session_sub (c : N) (f : NostrFilter) : Subscription :=
  mk_sub c (mk_subid (ascii_of_nat 1 :: #"s")) [f] MAX_U64.

Definition session_clock (i : nat) : N := N.of_nat i * 1000000.

Definition open_long : MsgNegentropy :=
  Negentropy_NegOpen (session_sub 1 long_filter) #"kinds" #"hello".

Lemma paused_run :
  match neg_handle default_config session_clock (session_db : env) neg_init open_long with
  | Ok st => Scheduler.running (queries st) = [0%N] ∧
      Scheduler.findQuery (queries st) 1 (mk_subid (ascii_of_nat 1 :: #"s")) = Some 0%N
  | Throw _ => False
  end.
Proof. vm_compute. split; reflexivity. Qed.

(** The session is open, its query waits for its next turn. *)
Lemma paused_state : ∃ st,
  neg_handle default_config session_clock (session_db : env) neg_init open_long = Ok st ∧
  Scheduler.running (queries st) = [0%N] ∧
  Scheduler.findQuery (queries st) 1 (mk_subid (ascii_of_nat 1 :: #"s")) = Some 0%N.
Proof.
  pose proof paused_run as Hrun.
  destruct (neg_handle default_config session_clock (session_db : env) neg_init open_long) as [st|e]; [|done].
  by exists st.
Qed.

(** The first message of [open_long] can be answered, and no tree is asked for. *)
Lemma open_long_allowed :
  allowed honest_msg (session_db : env) neg_init open_long.
Proof. unfold allowed. vm_compute. discriminate. Qed.

Lemma session_relay_db : relay_db (session_db : env).
Proof.
  split; [exact session_db_ok|]. exists ∅. split; [|done|].
  - split; [by rewrite fmap_empty|]. intros l e. by rewrite lookup_empty.
  - intros l e. by rewrite lookup_empty.
Qed.

Lemma numbers_ok a n : StronglySorted (strict_le N.le) (N.of_nat <$> seq a n) ∧
  ((a + n < 3000)%nat → Forall is_u64 (N.of_nat <$> seq a n)).
Proof.
  split.
  - revert a. induction n as [|n IH]; intros a; simpl; [constructor|].
    constructor; [apply IH|]. apply Forall_forall.
    intros x (y & -> & [Hy _]%elem_of_seq)%list_elem_of_fmap. unfold strict_le. split; lia.
  - intros Hn. apply Forall_forall. intros x (y & -> & [_ Hy]%elem_of_seq)%list_elem_of_fmap.
    unfold is_u64, two64. lia.
Qed.

Lemma long_filter_scan : scan_filter long_filter.
Proof.
  unfold long_filter. destruct (numbers_ok 0 2100) as [Hsorted Hfit].
  assert (N.of_nat (length (N.of_nat <$> seq 0 2100)) = 2100%N) as Hlen.
  { by rewrite length_fmap, length_seq. }
  assert ((N.of_nat <$> seq 0 2100) ≠ []) as Hne.
  { intros He. rewrite He in Hlen. discriminate Hlen. }
  remember (N.of_nat <$> seq 0 2100) as ks eqn:Hks. clear Hks.
  split; [|split; simpl|done|done]; try done.
  - split; try done. simpl. by intros fs [= <-].
  - intros fs [= <-]. split; [done|]. split; [apply Hfit; lia|]. rewrite Hlen. lia.
Qed.

Lemma open_long_proper : proper honest_msg (session_db : env) neg_init open_long.
Proof.
  split; [exact open_long_allowed|]. intros sub f pl [= <- _ _]. constructor; [|done].
  exact long_filter_scan.
Qed.

Lemma paused_reachable st :
  neg_handle default_config session_clock (session_db : env) neg_init open_long = Ok st →
  reachable default_config session_clock honest_msg st.
Proof.
  exact (reach_msg default_config session_clock honest_msg (session_db : env) neg_init open_long st
    (reach_init _ _ _) session_db_ok open_long_allowed).
Qed.

Lemma paused_served st :
  neg_handle default_config session_clock (session_db : env) neg_init open_long = Ok st →
  served default_config session_clock honest_msg st.
Proof.
  exact (served_msg default_config session_clock honest_msg (session_db : env) neg_init open_long st
    (served_init _ _ _) session_relay_db open_long_proper).
Qed.

Lemma paused_live st p : reachable default_config session_clock honest_msg st →
  Scheduler.findQuery (queries st) 1 (mk_subid (ascii_of_nat 1 :: #"s")) = Some p →
  ∃ q, Scheduler.heap (queries st) !! p = Some q ∧ dead q = false.
Proof.
  intros [Hinv _ _]%(reachable_inv default_config session_clock honest_msg honest_msg_ok) Hf.
  rewrite findQuery_lookup in Hf. destruct (si_conns _ _ _ Hinv _ _ _ Hf) as (q & Hq & Hd & _).
  by exists q.
Qed.

(** The waiting query has a session that is still open; the message that
    closes it is handled, and so is the next turn. *)
Lemma neg_sessions_safe_witness : ∃ st p v,
  neg_handle default_config session_clock (session_db : env) neg_init open_long = Ok st ∧
  Scheduler.running (queries st) = [p] ∧
  (∀ c cv, (world st).1 !! c = Some cv →
    (N.of_nat (base.size cv) ≤ relay__maxSubsPerConnection default_config)%N) ∧
  vector_sealed (storageVector v) = false ∧
  (∃ st', neg_handle default_config session_clock (session_db : env) st
    (Negentropy_CloseConn 1) = Ok st') ∧
  (∃ st', run_queries default_config session_clock (session_db : env) st = Ok st').
Proof.
  destruct paused_state as (st & Hst & Hrun & Hfind).
  pose proof (paused_reachable st Hst) as Hr.
  destruct (neg_sessions_safe default_config session_clock honest_msg honest_msg_ok
    (session_db : env) st (paused_served st Hst) session_relay_db) as (Hb & Hlive & Hmsg & Hturn).
  destruct (paused_live st 0%N Hr Hfind) as (q & Hq & Hd).
  destruct (Hlive 0%N q Hq Hd) as (v & _ & Ho & _).
  exists st, 0%N, v. do 4 (split; [assumption|]). split; [|assumption].
  apply Hmsg. split; [exact I|]. intros sub f pl Heq. discriminate Heq.
Defined.

(** An empty query completes in one turn. *)
Lemma short_completes : completes_at_once default_config session_clock (session_db : env)
  (session_sub 2 filter_default) 0.
Proof. intros w. eexists _, _, _. split; [vm_compute; reflexivity|by vm_compute]. Qed.

Lemma bad_refused sto : ∃ e, reconcile frame_size_limit sto #"bad" = Throw e.
Proof. by eexists. Qed.

(** A first message that cannot be parsed, on a fresh relay; and the session of
    [open_long] replaced by one with the tree of the empty filter. *)
Lemma neg_open_fatal_witness :
  neg_open default_config session_clock (session_db : env) neg_init (session_sub 2 filter_default)
    #"kinds" #"bad" = Throw undefined_behaviour ∧
  ∃ st st', neg_handle default_config session_clock (session_db : env) neg_init open_long = Ok st ∧
    neg_open default_config session_clock (session_db : env) st (session_sub 1 filter_default)
      #"{}" #"hello" = Ok st' ∧
    ∃ e, run_queries default_config session_clock (session_db : env) st' = Throw e ∧
      (e = bad_variant ∨ query_throws default_config session_clock (session_db : env) st' e).
Proof.
  split.
  - refine (proj1 (neg_open_fatal default_config session_clock honest_msg honest_msg_ok
      (session_db : env) neg_init (session_sub 2 filter_default) #"kinds" #"bad"
      (reach_init _ _ _) session_db_ok) _ bad_refused _ _ _ short_completes); done.
  - destruct paused_state as (st & Hst & Hrun & Hfind).
    pose proof (paused_reachable st Hst) as Hr.
    destruct (proj2 (neg_open_fatal default_config session_clock honest_msg honest_msg_ok
      (session_db : env) st (session_sub 1 filter_default) #"{}" #"hello" Hr session_db_ok)
      7%N 0%N) as (st' & Hopen & Hqs & Hturn); [reflexivity|exact Hfind|done|].
    exists st, st'. split; [exact Hst|]. split; [exact Hopen|].
    apply (Hturn []). by rewrite Hqs.
Defined.
