(* ===== verification/ThreadWitnesses.v ===== *)
(** The theorems on the ingester, the writer, the write policy and the cron
    thread at concrete messages and databases. *)

From S2P Require Import Prelude Bytes Json Hex PackedEvent FilterSets Filters Config EventParse Db.
From S2P Require Import MemDb NegentropyCache EventWriter EventStore StoreTheorems Payload.
From S2P Require Import StoreHistory RelayCron StateExn Plugin RelayServer RelayIngester.
From S2P Require Import IngesterTheorems RelayWriter WriterTheorems WriterPipeline PipelineTheorems.
From S2P Require Import Subscription RelayWebsocket WebsocketTheorems.

#[local] Existing Instance toy_libs.
#[local] Existing Instance toy_zstd.

(** A parser that knows two texts: an EVENT message and an event. *)
#[refine, local] Instance thread_json : JsonParser := {|
  json_from_string s :=
    match s with
    | c :: _ => if char_eqb c "[" then Ok (JArray [JString #"EVENT"; sample_json])
                else if char_eqb c "{" then Ok (JObject []) else Throw json_error
    | [] => Throw json_error
    end;
|}.
Proof.
  - intros [|c s] kvs; [done|]. destruct (char_eqb c "["); [done|].
    destruct (char_eqb c "{"); [|done]. intros [= <-]. constructor.
  - intros [|c s] e; [by intros [= <-]|]. destruct (char_eqb c "["); [done|].
    destruct (char_eqb c "{"); [done|]. by intros [= <-].
  - intros [|c s] v; [done|]. destruct (char_eqb c "["); [by intros [= <-]|].
    destruct (char_eqb c "{"); [by intros [= <-]|done].
Defined.

(** ** The write policy *)

(** A system without plugins: nothing starts. *)
#[refine, local] Instance thread_os : PluginOS := {|
  world := (); handle := ();
  inet_ntop4 s := s; inet_ntop6 s := s;
  stat_mtime _ w := (None, w); spawn _ w := (None, w);
  fwrite _ _ w := (true, w); fgets _ w := (None, w); close _ w := w;
  time_now w := (0%Z, w); pending_lines _ _ := 0;
|}.
Proof. done. Defined.

Definition thread_world : @world thread_os := tt.

Lemma http_post_never_accepted_witness :
  ∃ s', acceptEvent #"plugin" sample_json SourceIP6 #"http-post" (new_sifter thread_world) =
      (Ok (Reject, internal_error), s') ∧ running s' = None.
Proof. by apply (http_post_never_accepted #"plugin" sample_json (new_sifter thread_world)). Defined.

(** ** The ingester *)

Definition thread_now (t : nat) : N := 1700000500.

Lemma thread_now_u64 t : is_u64 (thread_now t).
Proof. by vm_compute. Qed.

Definition empty_db : mem := mk_tables ∅ ∅ ∅ (Some (mk_meta 3 1 1)) [] ∅.

Lemma empty_db_repr : repr (empty_db : env) ∅.
Proof. split; [by rewrite fmap_empty|]. intros l e. by rewrite lookup_empty. Qed.

Lemma hex_decode_caught s : only_caught (hex_decode s).
Proof.
  induction s as [s IH] using (induction_ltof1 _ (@length ascii)).
  destruct s as [|h [|l s]]; cbn [hex_decode]; [by intros e|by apply only_caught_Throw|].
  destruct (hex_value h), (hex_value l); try by apply only_caught_Throw.
  apply only_caught_bind; [|by intros b _ e]. apply IH. unfold ltof. simpl. lia.
Qed.

(** An event, a text that is no JSON, and the end of a connection. *)
Definition thread_messages : list MsgIngester :=
  [Ingester_ClientMessage (mk_client_message 3 #"abcd" #"[event]" None);
   Ingester_ClientMessage (mk_client_message 4 #"abcd" #"[event]" (Some 9%N));
   Ingester_ClientMessage (mk_client_message 5 #"abcd" #"oops" None);
   Ingester_CloseConn 5].

Definition thread_what (e : exn) : bytes := #"library error".

Definition thread_run (batches : list (mem * list MsgIngester)) : result () * ingester :=
  ingester_run default_config None thread_now thread_what hex_decode
    ((λ b, (b.1 : env, b.2)) <$> batches) ingester_init.

(** The two events reach the writer. *)
Lemma thread_run_sent :
  omap (λ c, match c with ToWriter 0 ws => Some (length ws) | _ => None end)
    (sent (thread_run [(empty_db, thread_messages)]).2) = [2].
Proof. vm_compute. reflexivity. Qed.

Lemma auth_never_succeeds_witness :
  ∃ s', thread_run [(empty_db, thread_messages); (empty_db, thread_messages)] = (Ok tt, s') ∧
    Forall (λ c, ¬ auth_success c) (sent s').
Proof.
  apply (auth_never_succeeds default_config None thread_now thread_what hex_decode).
  - exact default_config_ok.
  - exact thread_now_u64.
  - intros s b. apply hex_decode_caught.
  - exact hex_decode_caught.
  - repeat (constructor; [exists ∅; apply empty_db_repr|]). constructor.
Defined.

Lemma ingester_admits_witness :
  ∃ s' ws cs, ingester_batch default_config None thread_now thread_what hex_decode (empty_db : env)
      thread_messages ingester_init = (Ok tt, s') ∧
    sent s' = [] ++ cs ++ (if 0 <? length ws then [ToWriter 0 ws] else []) ∧
    Forall (λ w, ∃ msg, Ingester_ClientMessage msg ∈ thread_messages ∧
      admitted default_config None thread_now ∅ msg w) ws ∧
    Forall (λ c, (∃ msg, Ingester_ClientMessage msg ∈ thread_messages ∧ call_for msg c) ∨
      (∃ connId, Ingester_CloseConn connId ∈ thread_messages ∧ c ∈ closing_calls connId)) cs.
Proof.
  apply (ingester_admits default_config None thread_now thread_what hex_decode (empty_db : env) ∅).
  - apply empty_db_repr.
  - exact default_config_ok.
  - exact thread_now_u64.
  - intros s b. apply hex_decode_caught.
  - exact hex_decode_caught.
Defined.

(** ** The writer *)

Definition etw_le (a b : EventToWrite) : Prop := before b a = false.

#[local] Instance etw_le_dec : RelDecision etw_le.
Proof. intros a b. unfold etw_le. apply _. Defined.

Lemma etw_le_spec a b : etw_le a b ↔
  let va := mk_view (packedStr a) in let vb := mk_view (packedStr b) in
  (created_at va < created_at vb)%N ∨
  created_at va = created_at vb ∧ bytes_le (id va) (id vb).
Proof.
  unfold etw_le, before. cbn zeta.
  destruct (N.eqb_spec (created_at (mk_view (packedStr b))) (created_at (mk_view (packedStr a)))) as [E|E].
  - rewrite bytes_ltb_ge. split; [by right|intros [|[_ ?]]; [lia|done]].
  - rewrite N.ltb_ge. split; [left; lia|intros [|[? _]]; [lia|congruence]].
Qed.

#[local] Instance etw_le_total : Total etw_le.
Proof.
  intros a b. rewrite !etw_le_spec. cbn zeta.
  destruct (N.lt_trichotomy (created_at (mk_view (packedStr a))) (created_at (mk_view (packedStr b))))
    as [?|[?|?]]; [by left; left| |by right; left].
  destruct (total bytes_le (id (mk_view (packedStr a))) (id (mk_view (packedStr b)))); auto.
Qed.

#[local] Instance etw_le_trans : Transitive etw_le.
Proof.
  intros a b c. rewrite !etw_le_spec. cbn zeta. intros [?|[-> ?]] [?|[<- ?]]; [left; lia|by left..|].
  right. split; [done|]. by etransitivity.
Qed.

Definition sort_etw : list EventToWrite → list EventToWrite := merge_sort etw_le.

Lemma sort_etw_sorts l : std_sorts l (sort_etw l).
Proof. split; [apply merge_sort_Permutation|apply (StronglySorted_merge_sort etw_le)]. Qed.

(** A deletion event, and twice the event it names. *)
Definition twin_events : list event :=
  [mk_sample "n" 130 1 []; mk_sample "x" 120 5 [("e"%char, replicate 32 "n"%char)];
   mk_sample "n" 130 1 []; mk_sample "p" 140 1 []].

Definition twin_messages : list MsgWriter :=
  imap (λ i e, Writer_AddEvent (mk_add_event (N.of_nat i) #"abcd" (encode e) #"{}" (Some (N.of_nat i))))
    twin_events ++ [Writer_CloseConn 3].

Lemma twin_event_ok e : e ∈ twin_events → event_ok e.
Proof.
  intros He. repeat apply elem_of_cons in He as [->|He]; [..|by apply not_elem_of_nil in He];
    (split;
      [constructor; try done; by repeat (constructor; [unfold wf_tag; simpl; lia|])
      |intros v Hv; simpl in Hv; set_solver]).
Qed.

Lemma twin_messages_good : Forall msg_good twin_messages.
Proof.
  apply Forall_app. split; [|by repeat constructor].
  apply Forall_forall. intros w (i & e & -> & He%list_elem_of_lookup_2)%elem_of_lookup_imap.
  split; [|done]. exists e. split; [done|]. by apply twin_event_ok.
Qed.

Definition twin_store : writer_state :=
  mk_writer (new_sifter thread_world : @policy sifter_policy) (mk_cache [] 0) (empty_db : env) [].

Lemma twin_store_ok : writer_ok [] twin_store ∅.
Proof.
  split.
  - constructor; [by eexists|constructor|vm_compute; reflexivity].
  - intros [=].
  - split; [|by constructor; intros l1 l2 e1 e2; rewrite lookup_empty].
    constructor.
    + apply empty_db_repr.
    + intros l1 l2 e1 e2. by rewrite lookup_empty.
    + intros l. simpl. by rewrite !lookup_empty.
    + intros f t Hf. by apply not_elem_of_nil in Hf.
Qed.

Definition twin_run : result writer_state :=
  writer_batch default_config sort_etw Ok thread_what twin_messages twin_store.

(** The deletion event is stored, the first copy of its target is refused, the
    second one is reported as stored; the closed connection's event is
    dropped. *)
Lemma refused_twin_told_success :
  match twin_run with
  | Ok st => omap (λ c, match c with SetValue p r => Some (p, success r) | _ => None end) (wr_calls st) =
      [(1%N, true); (2%N, false); (0%N, true)] ∧ bool_decide (dom (Event (tables (store st))) = {[1%N]}) = true
  | Throw _ => False
  end.
Proof. vm_compute. split; reflexivity. Qed.

Lemma identity_commits (d : env) : match Ok d : result env with Ok d' => d' = d | Throw e => catchable e = true end.
Proof. done. Qed.

Lemma twin_room : (getMostRecentLevId (store twin_store) + N.of_nat (length twin_messages) ≤ MAX_U64)%N.
Proof. by vm_compute. Qed.

Lemma writer_answers_witness :
  ∃ st' new m', twin_run = Ok st' ∧ wr_calls st' = [] ++ new ∧
    omap ok_of new ≡ₚ (λ ae, (ae_connId ae, id_hex ae)) <$> open_events twin_messages ∧
    omap promise_of new ≡ₚ omap ae_resultPromise (open_events twin_messages) ∧
    writer_ok [] st' m' ∧ grows (mk_snapshot (store twin_store) ∅) (mk_snapshot (store st') m').
Proof.
  exact (writer_answers default_config sort_etw Ok thread_what sort_etw_sorts identity_commits
           [] twin_messages twin_store ∅ twin_store_ok twin_messages_good twin_room).
Defined.

Lemma writer_truthful_witness :
  ∃ st' new done_ m', twin_run = Ok st' ∧
    wr_calls st' = [] ++ new ∧ writer_ok [] st' m' ∧ write_specs None ∅ (entries_of done_) m' ∧
    (∃ refused, refused ++ (acc_event <$> done_) ≡ₚ open_events twin_messages) ∧
    ∀ p r, SetValue p r ∈ new → success r = true → told ∅ done_ m' p r.
Proof.
  destruct (writer_truthful default_config sort_etw Ok thread_what sort_etw_sorts identity_commits
           [] twin_messages twin_store ∅ twin_store_ok twin_messages_good twin_room)
    as (st' & new & done_ & m' & Hrun & Hc & Hok & Hws & _ & (refused & Hall & _) & Htold & _).
  exists st', new, done_, m'. do 4 (split; [assumption|]). split; [by exists refused|exact Htold].
Defined.

(** ** The cron thread *)

(** An event that expired at 200, one that never does and the most recent one,
    which has expired as well. *)
Definition cron_events : gmap N event :=
  <[1%N := mk_event (replicate 32 "a"%char) (replicate 32 "k"%char) 100 1 200 []]>
  (<[2%N := mk_event (replicate 32 "b"%char) (replicate 32 "k"%char) 100 1 0 []]>
  {[3%N := mk_event (replicate 32 "c"%char) (replicate 32 "k"%char) 100 1 200 []]}).

Definition cron_db : mem :=
  mk_tables (encode <$> cron_events) ((λ _, ["000"%char]) <$> cron_events) ∅ (Some (mk_meta 3 1 1)) [] ∅.

Lemma cron_event_cases l e : cron_events !! l = Some e → (l ≤ 3)%N ∧
  ∃ c x, e = mk_event (replicate 32 c) (replicate 32 "k"%char) 100 1 x [] ∧ (x < 300)%N ∧
    byteN c = (96 + l)%N.
Proof.
  unfold cron_events. intros [[<- <-]|[_ H]]%lookup_insert_Some; [by split; [lia|eexists _, _]|].
  apply lookup_insert_Some in H as [[<- <-]|[_ H]]; [by split; [lia|eexists _, _]|].
  apply lookup_singleton_Some in H as [<- <-]. by split; [lia|eexists _, _].
Qed.

Lemma cron_db_repr : repr (cron_db : env) cron_events.
Proof.
  split; [done|]. intros l e He. apply cron_event_cases in He as (Hl & c & x & -> & Hx & _).
  split; [unfold is_u64, two64; lia|].
  constructor; try done; simpl; unfold is_u64, two64; try lia.
Qed.

Lemma cron_store_inv : store_inv [] (cron_db : env) cron_events.
Proof.
  split.
  - constructor.
    + apply cron_db_repr.
    + intros l1 l2 e1 e2 H1' H2' Hid.
      apply cron_event_cases in H1' as (_ & c & x & -> & _ & Hc1).
      apply cron_event_cases in H2' as (_ & c' & x' & -> & _ & Hc2). simpl in Hid.
      injection Hid as Hid. subst c'. lia.
    + intros l. simpl. rewrite lookup_fmap. by rewrite fmap_is_Some.
    + intros f t Hf. by apply not_elem_of_nil in Hf.
  - constructor; intros l1 l2 e1 e2 H1' H2'.
    + apply cron_event_cases in H1' as (_ & c & x & -> & _). by intros Ha.
    + apply cron_event_cases in H1' as (_ & c & x & -> & _). by intros [Ha _].
Qed.

Lemma cron_deletes_expired_witness :
  ∃ st d' n, collect_expired default_config 250 (cron_db : env) = Ok st ∧
    delete_expired st (cron_db : env) = Ok (d', n) ∧
    store_inv [] d' (drop_all (expiredLevIds st) cron_events) ∧
    (∀ l, l ∈ expiredLevIds st ↔ l ≠ latest (mk_snapshot (cron_db : env) cron_events) ∧
       ∃ e, cron_events !! l = Some e ∧ expired default_config 250 e) ∧
    grows (mk_snapshot (cron_db : env) cron_events)
      (mk_snapshot d' (drop_all (expiredLevIds st) cron_events)) ∧
    getMostRecentLevId d' = latest (mk_snapshot (cron_db : env) cron_events).
Proof.
  apply (cron_deletes_expired default_config 250 (mk_snapshot (cron_db : env) cron_events)
           (mk_snapshot (cron_db : env) cron_events) []).
  - apply cron_db_repr.
  - apply grows_refl.
  - by intros [=].
  - constructor; [by eexists|constructor|vm_compute; reflexivity].
  - apply cron_store_inv.
Defined.

(** Only the first one goes. *)
Lemma cron_run_levIds :
  (λ st, expiredLevIds st) <$> collect_expired default_config 250 (cron_db : env) = Ok [1%N].
Proof. vm_compute. reflexivity. Qed.

(** A run of the writer pipeline: a valid event, an invalid one and a packed
    one, on an empty store. *)

#[local] Existing Instance toy_libs.
#[local] Existing Instance thread_json.

Definition pipe_event : EventToWrite :=
  EventToWrite_make (encode (mk_sample "n" 130 1 [])) #"{}" 0.

Lemma pipe_event_good : good pipe_event.
Proof.
  exists (mk_sample "n" 130 1 []). unfold pending_for. split_and!; [done|done|].
  apply twin_event_ok. by constructor.
Qed.

Definition handed_in : pipeline :=
  flush (write_event (write_json (write_json new_pipeline sample_json) (JObject [])) pipe_event).

Definition pipe_start : system := (mk_cache [] 0, (empty_db : env), handed_in).

Abbreviation pipe_turn :=
  (turn default_config sort_etw 1 true true).

(** One turn, the validator's first. *)
Definition next_turn (x : system) : option system :=
  let '(c, d, s) := x in
  match validator s, writer s with
  | V_busy (v :: rest), _ =>
      match validate default_config true true 1700000500 s v rest with
      | Ok s' => Some (c, d, s') | Throw _ => None end
  | V_busy [], _ => Some (c, d, set_validator s V_wait)
  | V_wait, _ => if decide (validatorInbox s = []) then None else Some (c, d, validator_pop s)
  | V_done, W_wait => if decide (writerInbox s = []) then None else Some (c, d, writer_pop s)
  | V_done, W_read l => match prefilter 1 d s [] l with Ok s' => Some (c, d, s') | Throw _ => None end
  | V_done, W_write B => match write_batch sort_etw c d s B with Ok x => Some x | Throw _ => None end
  | V_done, W_done => None
  end.

#[local] Instance room_dec x : Decision (room x).
Proof. unfold room. apply _. Defined.

Fixpoint run_turns (n : nat) (x : system) : option system :=
  match n with
  | O => Some x
  | S n => if decide (room x) then x' ← next_turn x; run_turns n x' else None
  end.

Lemma next_turn_step x x' : room x → next_turn x = Some x' → pipe_turn x x'.
Proof.
  intros Hroom Hn. split; [done|]. destruct x as [[c d] s]. unfold next_turn in Hn.
  destruct (validator s) as [|[|v rest]|] eqn:Hv.
  - case_decide; [done|]. injection Hn as <-. exact (step_validator_pop default_config sort_etw 1 true true c d s Hv ltac:(done)).
  - injection Hn as <-. exact (step_validator_again default_config sort_etw 1 true true c d s Hv).
  - destruct (validate _ _ _ _ _ _ _) as [s'|] eqn:Hr; [|done]. injection Hn as <-.
    exact (step_validate default_config sort_etw 1 true true _ c d s v rest s' Hv Hr).
  - destruct (writer s) as [|l|B|] eqn:Hw; [| | |done].
    + case_decide; [done|]. injection Hn as <-. exact (step_writer_pop default_config sort_etw 1 true true c d s Hw ltac:(done)).
    + destruct (prefilter _ _ _ _ _) as [s'|] eqn:Hr; [|done]. injection Hn as <-.
      exact (step_prefilter default_config sort_etw 1 true true c d s l s' Hw Hr).
    + destruct (write_batch _ _ _ _ _) as [y|] eqn:Hr; [|done]. injection Hn as <-.
      exact (step_write default_config sort_etw 1 true true c d s B y Hw Hr).
Qed.

Lemma run_turns_steps n x x' : run_turns n x = Some x' → nsteps pipe_turn n x x'.
Proof.
  revert x. induction n as [|n IH]; intros x; simpl; [intros [= <-]; constructor|].
  case_decide as Hroom; [|done]. destruct (next_turn x) as [x1|] eqn:Hx; [|done]. simpl.
  intros Hr. econstructor; [by apply next_turn_step|by apply IH].
Qed.

Abbreviation pipe_reachable :=
  (reachable default_config sort_etw 1 true true []).

Definition pipe_handed : list handed := [HJson sample_json; HJson (JObject []); HEvent pipe_event].

Lemma empty_db_good : db_good [] (mk_cache [] 0) (empty_db : env).
Proof. destruct twin_store_ok as [Hf Hc Hi]. split; [exact Hf|exact Hc|by exists ∅]. Qed.

Lemma pipe_start_reachable : pipe_reachable [(empty_db : env)] pipe_handed pipe_start.
Proof.
  apply reach_flush.
  apply (reach_event _ _ _ _ _ [] _ [HJson sample_json; HJson (JObject [])]);
    [|done|exact pipe_event_good].
  apply (reach_json _ _ _ _ _ [] _ [HJson sample_json] _ _ _ (JObject [])); [|done|done].
  apply (reach_json _ _ _ _ _ [] _ [] _ _ _ sample_json); [|done|by vm_compute].
  apply reach_new. exact empty_db_good.
Qed.

Lemma thread_hex_errors s b : only_caught (from_hex s b).
Proof. apply hex_decode_caught. Qed.

Lemma pipeline_conserves_witness :
  all_held [(empty_db : env)] (pl_log handed_in) ∧
  counters_ok (stats handed_in) 3 (in_flight handed_in) [].
Proof.
  destruct (pipeline_conserves default_config sort_etw 1 true true thread_hex_errors sort_etw_sorts
    eq_refl [] _ _ _ _ _ pipe_start_reachable) as (_ & Hh & Hc & _).
  exact (conj Hh Hc).
Defined.

Lemma run_ends : match run_turns 13 pipe_start with
  | Some x => writer x.2 = W_done ∧ length (pl_log x.2) = 3 | None => False end.
Proof. vm_compute. split; reflexivity. Qed.

(** After 13 turns every event has its outcome. *)
Lemma flush_completes_witness : ∃ x', nsteps pipe_turn 13 pipe_start x' ∧
  13 ≤ measure handed_in ∧
  ((∃ x'', pipe_turn x' x'') ∨ ¬ room x' ∨ writer x'.2 = W_done ∧
    settled_all default_config true true pipe_handed x'.2).
Proof.
  pose proof run_ends as Hend. destruct (run_turns 13 pipe_start) as [x'|] eqn:Hrun; [|done].
  apply run_turns_steps in Hrun.
  exists x'. split; [exact Hrun|].
  exact (flush_completes default_config sort_etw 1 true true thread_hex_errors sort_etw_sorts
    eq_refl [] _ _ _ _ _ pipe_start_reachable eq_refl 13 x' Hrun).
Defined.

(** The websocket theorems at concrete traces. *)

#[local] Existing Instance toy_libs.
#[local] Existing Instance thread_os.

#[refine, local] Instance page_json : JsonParser := {| json_from_string s := Throw json_error |}.
Proof. all: intros s ? [=]; done. Defined.

#[refine, local] Instance page_pton : InetPton := {| inet_pton v6 s := None |}.
Proof. all: intros v6 s b [=]. Defined.

#[local] Instance page_build : RelayBuild := {|
  APP_GIT_VERSION := #"1.0"; negentropy_version := 97; strfrytmpl_landing n v g := n |}.

Definition page_config : WebsocketConfig :=
  mk_ws_config 1 [] #"relay" [] [] [] [] [] 131072 true.

Definition page_address (ws : N) : bytes := ["127"; "000"; "000"; "001"]%char.

Lemma page_address_length ws : length (page_address ws) = 4 ∨ length (page_address ws) = 16.
Proof. by left. Qed.

Definition no_request : HttpRequest := mk_http_request [] (λ _, []).

Definition request_from (host : bytes) : HttpRequest :=
  mk_http_request #"/.well-known/nodeinfo" (λ k, if decide (k = #"host") then host else []).

(** Two clients; the second is answered, leaves, and is written to in vain;
    the shutdown ends with the first. *)
Definition page_trace : list (WebsocketConfig * ws_event) :=
  (page_config,.) <$> [Opened 11 no_request; Opened 12 no_request; Said 12 #"hello" 3;
    Posted [Websocket_Send 2 #"welcome"; Websocket_Send 1 #"psst"]; Left 12;
    Posted [Websocket_Send 2 #"too late"; Websocket_GracefulShutdown]; Left 11; Requested no_request].

Lemma websocket_refines_witness : ∃ s,
  for_each (ws_step default_config (λ _, 0%N) (λ _ _, 0%N) page_address) page_trace start_websocket =
    (Throw (process_exit 0), s) ∧
  filter no_page (ws_out s) =
    [SetKeepalive 11; SetKeepalive 12;
     ToIngester 2 (Ingester_ClientMessage (mk_client_message 2 (page_address 12) #"hello" None));
     WsText 12 #"welcome"; WsText 11 #"psst"; ToIngester 2 (Ingester_CloseConn 2); StopListening;
     ToIngester 1 (Ingester_CloseConn 1)].
Proof.
  destruct (websocket_refines default_config (λ _, 0%N) (λ _ _, 0%N) page_address page_address_length
    page_trace) as (s & E & Hout).
  - vm_compute. reflexivity.
  - vm_compute. repeat (split; [first [reflexivity|eexists; reflexivity|repeat constructor]|]). exact I.
  - exists s. split; [exact E|exact Hout].
Defined.

Lemma idle_shutdown_never_ends_witness : ∃ s,
  for_each (ws_step default_config (λ _, 0%N) (λ _ _, 0%N) page_address)
    [(page_config, Posted [Websocket_GracefulShutdown]); (page_config, Requested no_request)]
    start_websocket = (Ok tt, s) ∧ gracefulShutdown s = true.
Proof.
  apply (idle_shutdown_never_ends default_config (λ _, 0%N) (λ _ _, 0%N) page_address page_address_length
    [(page_config, Posted [Websocket_GracefulShutdown])] [(page_config, Requested no_request)]).
  - vm_compute. reflexivity.
  - vm_compute. repeat (split; [repeat constructor|]). exact I.
  - reflexivity.
  - reflexivity.
  - reflexivity.
  - by repeat constructor.
Defined.

Lemma nodeinfo_first_host_witness :
  let page1 := preGenerateHttpResponse #"application/json"
    (json_to_string (nodeinfo_json #"evil.example")) in
  ∃ s', (_ ← onHttpRequest default_config page_config (request_from #"evil.example");
         onHttpRequest default_config page_config (request_from #"relay.example")) start_websocket =
    (Ok tt, s') ∧ ws_out s' = [HttpWrite page1; HttpWrite page1].
Proof.
  apply (nodeinfo_first_host default_config page_config (request_from #"evil.example")
    (request_from #"relay.example") start_websocket).
  - reflexivity.
  - reflexivity.
  - intros [=].
Defined.
