(* ===== verification/Sync.v ===== *)
(** The sync command ([apps/mesh/cmd_sync.cpp]): reconciling with another relay.

    The client opens a negentropy session for a filter, collects the ids the
    other side lacks ([have]) or is ahead by ([need]), uploads the first, and
    asks for the second.  The callbacks of the connection are computations on
    the session's variables; [WSConnection] logs the exceptions they let out
    and goes on, and [::exit] is the exception [process_exit].  The two vectors
    are written with their last element first.  [outbox] holds what the client
    sent ([wire] is its text), and the ids it found it no longer has. *)

From S2P Require Import Prelude Bytes Json Hex PackedEvent FilterSets Filters Config EventParse.
From S2P Require Import Db EventWriter Payload DBQuery StateExn Plugin RelayNegentropy.

(** The client's side of [Negentropy]: the ids to send and to fetch, and the
    next message if there is one. *)
Class NegentropyClient `{!NegentropyLib} := {
  initiate : N → storage → result bytes;
  reconcile_ids : N → storage → bytes → result (option bytes * list bytes * list bytes);
  initiate_caught : ∀ n s e, initiate n s = Throw e → catchable e = true;
  reconcile_ids_caught : ∀ n s msg e, reconcile_ids n s msg = Throw e → catchable e = true;
}.

(** What [docopt] found. *)
Record sync_args := mk_sync_args {
  arg_filter : option bytes;
  arg_dir : option bytes;
  arg_frame_size_limit : option N;
}.

Record sync_params := mk_sync_params {
  filterJson : value;
  filterCompiled : list NostrFilter;
  doUp : bool;
  doDown : bool;
  frameSizeLimit : N;
}.

(** What the client sends, and the ids it logs as not found. *)
Inductive sync_msg :=
  | NegOpen (filter : value) (neMsg : bytes)
  | NegMsg (neMsg : bytes)
  | NegClose
  | Upload (id json : bytes)
  | Missing (id : bytes)
  | ReqIds (ids : list bytes).

Definition highWaterUp : N := 100.
Definition lowWaterUp : N := 50.
Definition batchSizeDown : nat := 50.

Section sync.
Context `{!Hex, !NativeU64, !GolpeKeys, !Env, !JsonParser, !EventLibs, !Zstd, !WritePolicy}.
Context `{!NegentropyLib, !NegentropyClient} (cfg : Config).
Variable from_hex_default : bytes → result bytes.
Variable url : bytes.

(** ** Start *)

Definition sync_parse (args : sync_args) : result sync_params :=
  let filterStr := default #"{}" (arg_filter args) in
  let dir := default #"both" (arg_dir args) in
  _ ← throw_if (negb (bool_decide (dir ∈ [ #"both"; #"up"; #"down"; #"none"])))
        (herr (#"invalid direction: " ++ dir ++ #". Should be one of both/up/down/none"));
  filterJson ← json_from_string filterStr;
  filterCompiled ← NostrFilterGroup_unwrapped filterJson MAX_U64;
  Ok (mk_sync_params filterJson filterCompiled
        (bool_decide (dir ∈ [ #"both"; #"up"])) (bool_decide (dir ∈ [ #"both"; #"down"]))
        (default 60000%N (arg_frame_size_limit args))).

(** [filterJsonNoTimes] *)
Definition without_times (v : value) : value :=
  match v with
  | JObject kvs => JObject (filter (λ kv, kv.1 ∉ [ #"since"; #"until"]) kvs)
  | _ => v
  end.

Definition insert_item (d : env) (vec : vector) (levId : N) : result vector :=
  '(_, buf) ← lookupEventByLevId d levId;
  packed ← view buf;
  vector_insert vec (created_at packed) (id packed).

(** The tree of the filter, or a vector of its events. *)
Definition sync_local (clock : nat → N) (d : env) (filterJson : value) : result (N + vector) :=
  match find_tree d (json_to_string (without_times filterJson)) with
  | Some treeId => Ok (inl treeId)
  | None =>
      '(levIds, _) ← foreachByFilter (λ ls l, Ok (ls ++ [l])) clock d filterJson [] 0;
      vec ← foldM (insert_item d) vector_new (merge_sort N.le levIds);
      vec ← vector_seal vec;
      Ok (inr vec)
  end.

(** ** The session *)

Record session := mk_session {
  inFlightUp : N;
  inFlightDown : bool;
  have : list bytes;
  need : list bytes;
  seenHave : gset bytes;
  seenNeed : gset bytes;
  syncDone : bool;
  totalHaves : N;
  totalNeeds : N;
  decomp : DictCaches;
  writePolicyPlugin : policy;
  outbox : list sync_msg;
  to_writer : list value;
}.

Definition new_session (dc : DictCaches) (p : policy) : session :=
  mk_session 0 false [] [] ∅ ∅ false 0 0 dc p [] [].

Variables (p : sync_params) (local : N + vector).

(** The text of a message. *)
Definition wire (m : sync_msg) : bytes :=
  match m with
  | NegOpen filter neMsg =>
      json_to_string (JArray [JString #"NEG-OPEN"; JString #"N"; filter; JString (to_hex neMsg)])
  | NegMsg neMsg => json_to_string (JArray [JString #"NEG-MSG"; JString #"N"; JString (to_hex neMsg)])
  | NegClose => json_to_string (JArray [JString #"NEG-CLOSE"; JString #"N"])
  | Upload _ json => #"[" ++ ["034"%char] ++ #"EVENT" ++ ["034"%char] ++ #"," ++ json ++ #"]"
  | Missing _ => []
  | ReqIds ids =>
      json_to_string (JArray [JString #"REQ"; JString #"R";
        JObject [(#"ids", JArray ((λ i, JString (to_hex i)) <$> ids))]])
  end.

Definition send (m : sync_msg) : SE session () := modify (λ s,
  mk_session (inFlightUp s) (inFlightDown s) (have s) (need s) (seenHave s) (seenNeed s)
    (syncDone s) (totalHaves s) (totalNeeds s) (decomp s) (writePolicyPlugin s)
    (outbox s ++ [m]) (to_writer s)).

Definition set_inFlightUp (n : N) : SE session () := modify (λ s,
  mk_session n (inFlightDown s) (have s) (need s) (seenHave s) (seenNeed s)
    (syncDone s) (totalHaves s) (totalNeeds s) (decomp s) (writePolicyPlugin s)
    (outbox s) (to_writer s)).

Definition set_inFlightDown (b : bool) : SE session () := modify (λ s,
  mk_session (inFlightUp s) b (have s) (need s) (seenHave s) (seenNeed s)
    (syncDone s) (totalHaves s) (totalNeeds s) (decomp s) (writePolicyPlugin s)
    (outbox s) (to_writer s)).

Definition set_have (h : list bytes) : SE session () := modify (λ s,
  mk_session (inFlightUp s) (inFlightDown s) h (need s) (seenHave s) (seenNeed s)
    (syncDone s) (totalHaves s) (totalNeeds s) (decomp s) (writePolicyPlugin s)
    (outbox s) (to_writer s)).

Definition set_need (n : list bytes) : SE session () := modify (λ s,
  mk_session (inFlightUp s) (inFlightDown s) (have s) n (seenHave s) (seenNeed s)
    (syncDone s) (totalHaves s) (totalNeeds s) (decomp s) (writePolicyPlugin s)
    (outbox s) (to_writer s)).

(** [WriterPipeline::flush] comes back ([PipelineTheorems]); then the process
    ends. *)
Definition doExit {A} (status : N) : SE session A := raise (process_exit status).

(** The local side of the reconciliation, under the snapshot [d]. *)
Definition sync_storage (d : env) : result storage :=
  match local with
  | inl treeId =>
      match filterCompiled p !! 0 with
      | None => Throw out_of_range
      | Some f => Ok (tree_range (tree_of (tables d) treeId) (since f)
                        (if (until f =? MAX_U64)%N then MAX_U64 else u64_add (until f) 1))
      end
  | inr vec => Ok (vector_storage vec)
  end.

(** [ws.onConnect] *)
Definition on_connect (d : env) : SE session () :=
  st ← lift (sync_storage d);
  neMsg ← lift (initiate (frameSizeLimit p) st);
  send (NegOpen (filterJson p) neMsg).

(** [ws.onDisconnect], [ws.onError] *)
Definition on_disconnect : SE session () := doExit 1.

(** ** Messages *)

(** [v.at(i)] *)
Definition at_pos (v : value) (i : nat) : result value :=
  l ← get_array v;
  match l !! i with Some x => Ok x | None => Throw out_of_range end.

Definition get_boolean (v : value) : result bool :=
  match v with JBool b => Ok b | _ => Throw bad_variant_access end.

(** One of the ids in [currHave]. *)
Definition add_have (idStr : bytes) : SE session () :=
  id ← lift (Bytes32 idStr);
  modify (λ s,
    if decide (id ∈ seenHave s) then s
    else mk_session (inFlightUp s) (inFlightDown s) (id :: have s) (need s) ({[id]} ∪ seenHave s)
           (seenNeed s) (syncDone s) (totalHaves s) (totalNeeds s) (decomp s)
           (writePolicyPlugin s) (outbox s) (to_writer s)).

Definition add_need (idStr : bytes) : SE session () :=
  id ← lift (Bytes32 idStr);
  modify (λ s,
    if decide (id ∈ seenNeed s) then s
    else mk_session (inFlightUp s) (inFlightDown s) (have s) (id :: need s) (seenHave s)
           ({[id]} ∪ seenNeed s) (syncDone s) (totalHaves s) (totalNeeds s) (decomp s)
           (writePolicyPlugin s) (outbox s) (to_writer s)).

(** The inner [try] block. *)
Definition read_reply (d : env) (msg : value) : SE session (option bytes) :=
  v ← lift (at_pos msg 2);
  hex ← lift (get_string v);
  inputMsg ← lift (from_hex_default hex);
  st ← lift (sync_storage d);
  '(neMsg, currHave, currNeed) ← lift (reconcile_ids (frameSizeLimit p) st inputMsg);
  _ ← for_each add_have currHave;
  _ ← for_each add_need currNeed;
  mret neMsg.

(** The totals, and dropping what the direction does not ask for. *)
Definition count_totals (origHaves origNeeds : nat) : SE session () := modify (λ s,
  mk_session (inFlightUp s) (inFlightDown s)
    (if doUp p then have s else []) (if doDown p then need s else [])
    (seenHave s) (seenNeed s) (syncDone s)
    (u64_add (totalHaves s) (u64_sub (N.of_nat (length (have s))) (N.of_nat origHaves)))
    (u64_add (totalNeeds s) (u64_sub (N.of_nat (length (need s))) (N.of_nat origNeeds)))
    (decomp s) (writePolicyPlugin s) (outbox s) (to_writer s)).

Definition set_syncDone : SE session () := modify (λ s,
  mk_session (inFlightUp s) (inFlightDown s) (have s) (need s) (seenHave s) (seenNeed s)
    true (totalHaves s) (totalNeeds s) (decomp s) (writePolicyPlugin s) (outbox s) (to_writer s)).

Definition neg_message (d : env) (msg : value) : SE session () :=
  origHaves ← gets (λ s, length (have s));
  origNeeds ← gets (λ s, length (need s));
  neMsg ← try_catch (read_reply d msg) (λ _, doExit 1);
  _ ← count_totals origHaves origNeeds;
  match neMsg with
  | Some neMsg => send (NegMsg neMsg)
  | None => _ ← set_syncDone; send NegClose
  end.

Definition ok_message (msg : value) : SE session () :=
  n ← gets inFlightUp;
  _ ← set_inFlightUp (u64_sub n 1);
  v ← lift (at_pos msg 2);
  ok ← lift (get_boolean v);
  if ok : bool then mret tt
  else
    i ← lift (at_pos msg 1); _ ← lift (get_string i);
    m ← lift (at_pos msg 3); _ ← lift (get_string m);
    mret tt.

Definition event_message (msg : value) : SE session () :=
  arr ← lift (get_array msg);
  _ ← lift (throw_if (length arr <? 3) (herr #"array too short"));
  evJson ← lift (at_pos msg 2);
  s ← gets (λ s, s);
  let '((res, okMsg), pl) := policy_accept (relay__writePolicy__plugin cfg) evJson SourceSync url
                               (writePolicyPlugin s) in
  _ ← modify (λ s, mk_session (inFlightUp s) (inFlightDown s) (have s) (need s) (seenHave s)
         (seenNeed s) (syncDone s) (totalHaves s) (totalNeeds s) (decomp s) pl (outbox s)
         (if decide (res = Accept) then to_writer s ++ [evJson] else to_writer s));
  if decide (res = Accept) then mret tt
  else if length okMsg =? 0 then mret tt
  else i ← lift (at_key evJson #"id"); _ ← lift (get_string i); mret tt.

(** [msg.at(0) == cmd] *)
Definition is_cmd (v : value) (cmd : bytes) : bool :=
  match v with JString s => bool_decide (s = cmd) | _ => false end.

(** The body of the [try] block. *)
Definition sync_command (d : env) (msgStr : bytes) : SE session () :=
  msg ← lift (json_from_string msgStr);
  cmd ← lift (at_pos msg 0);
  if is_cmd cmd #"NEG-MSG" then neg_message d msg
  else if is_cmd cmd #"OK" then ok_message msg
  else if is_cmd cmd #"EVENT" then event_message msg
  else if is_cmd cmd #"EOSE" then set_inFlightDown false
  else if is_cmd cmd #"NEG-ERR" then doExit 1
  else mret tt.

(** ** Uploads and requests *)

Definition event_json (d : env) (levId : N) : SE session bytes := λ s,
  match getEventJson cfg (decomp s) d levId with
  | Ok (dc, json) =>
      (Ok json, mk_session (inFlightUp s) (inFlightDown s) (have s) (need s) (seenHave s)
         (seenNeed s) (syncDone s) (totalHaves s) (totalNeeds s) dc (writePolicyPlugin s)
         (outbox s) (to_writer s))
  | Throw e => (Throw e, s)
  end.

(** The loop; [ids] is [have]. *)
Fixpoint upload_loop (d : env) (ids : list bytes) : SE session () :=
  match ids with
  | [] => mret tt
  | id :: rest =>
      n ← gets inFlightUp;
      if (n <? highWaterUp)%N then
        _ ← set_have rest;
        match lookupEventById d id with
        | None => _ ← send (Missing id); upload_loop d rest
        | Some (levId, _) =>
            json ← event_json d levId;
            _ ← send (Upload id json);
            _ ← set_inFlightUp (u64_add n 1);
            upload_loop d rest
        end
      else mret tt
  end.

Definition upload (d : env) : SE session () :=
  h ← gets have; n ← gets inFlightUp;
  if doUp p && (0 <? length h) && (n <=? lowWaterUp)%N then upload_loop d h else mret tt.

Definition download : SE session () :=
  n ← gets need; b ← gets inFlightDown;
  if doDown p && (0 <? length n) && negb b then
    _ ← set_need (drop batchSizeDown n);
    _ ← send (ReqIds (take batchSizeDown n));
    set_inFlightDown true
  else mret tt.

Definition finished (s : session) : bool :=
  syncDone s && (length (have s) =? 0) && (length (need s) =? 0) &&
  (inFlightUp s =? 0)%N && negb (inFlightDown s).

(** [ws.onMessage] *)
Definition on_message (d : env) (msgStr : bytes) : SE session () :=
  _ ← try_catch (sync_command d msgStr) (λ _, mret tt);
  _ ← upload d;
  _ ← download;
  b ← gets finished;
  if b : bool then doExit 0 else mret tt.
End sync.
