(* ===== verification/SyncTheorems.v ===== *)
(** What a sync session transfers, and when it ends. *)

From S2P Require Import Prelude Bytes Json Hex PackedEvent FilterSets Filters Config EventParse Db.
From S2P Require Import EventWriter Payload DBQuery StateExn Plugin RelayNegentropy.
From S2P Require Import PipelineTheorems Sync.

Definition uploaded (out : list sync_msg) : list bytes :=
  omap (λ m, match m with Upload i _ => Some i | _ => None end) out.

Definition not_found (out : list sync_msg) : list bytes :=
  omap (λ m, match m with Missing i => Some i | _ => None end) out.

Definition requested (out : list sync_msg) : list bytes :=
  out ≫= (λ m, match m with ReqIds ids => ids | _ => [] end).

Section sync.
Context `{!Hex, !NativeU64, !GolpeKeys, !Env, !JsonParser, !EventLibs, !Zstd, !WritePolicy}.
Context `{!NegentropyLib, !NegentropyClient} (cfg : Config).
Variable from_hex_default : bytes → result bytes.
Variable url : bytes.
Variables (p : sync_params) (local : N + vector).
(** Compression dictionaries do not change while the command runs. *)
Variable dicts : gmap N bytes.

(** A snapshot: its events can be read. *)
Definition sync_db (d : env) : Prop :=
  CompressionDictionary (tables d) = dicts ∧
  ∃ m, repr d m ∧ ∀ l, is_Some (m !! l) → ∃ json, event_text cfg d l = Ok json.

(** [json] is the text of the event [i] of one of the snapshots. *)
Definition stored_text (ds : list env) (i json : bytes) : Prop :=
  ∃ d m l e, d ∈ ds ∧ repr d m ∧ m !! l = Some e ∧ ev_id e = i ∧ event_text cfg d l = Ok json.

(** No event of one of the snapshots has the id [i]. *)
Definition absent_id (ds : list env) (i : bytes) : Prop :=
  ∃ d m, d ∈ ds ∧ repr d m ∧ ∀ l e, m !! l = Some e → ev_id e ≠ i.

(** The books of a session over the snapshots [ds]. *)
Record session_ok (ds : list env) (s : session) : Prop := {
  so_have : NoDup (have s ++ uploaded (outbox s) ++ not_found (outbox s));
  so_have_seen : ∀ i, i ∈ have s ++ uploaded (outbox s) ++ not_found (outbox s) → i ∈ seenHave s;
  so_have_all : doUp p = true → ∀ i, i ∈ seenHave s →
    i ∈ have s ++ uploaded (outbox s) ++ not_found (outbox s);
  so_no_up : doUp p = false → uploaded (outbox s) ++ not_found (outbox s) = [];
  so_need : NoDup (need s ++ requested (outbox s));
  so_need_seen : ∀ i, i ∈ need s ++ requested (outbox s) → i ∈ seenNeed s;
  so_need_all : doDown p = true → ∀ i, i ∈ seenNeed s → i ∈ need s ++ requested (outbox s);
  so_no_down : doDown p = false → requested (outbox s) = [];
  so_reqs : ∀ ids, ReqIds ids ∈ outbox s → 1 ≤ length ids ≤ batchSizeDown;
  so_texts : ∀ i json, Upload i json ∈ outbox s → stored_text ds i json;
  so_missing : ∀ i, i ∈ not_found (outbox s) → absent_id ds i;
  so_ids : ∀ i, i ∈ seenHave s → length i = 32;
  so_caches : ∀ d, CompressionDictionary (tables d) = dicts → caches_ok (decomp s) d;
}.

Definition keeps (ds : list env) : session → session → Prop := λ s s', session_ok ds s → session_ok ds s'.

#[local] Instance keeps_pre ds : PreOrder (keeps ds).
Proof. split; unfold keeps; [by intros s|]. intros s1 s2 s3 H12 H23 ?. by apply H23, H12. Qed.

(** Messages that are no upload, request or loss change nothing. *)
Definition plain (m : sync_msg) : Prop :=
  match m with Upload _ _ | Missing _ | ReqIds _ => False | _ => True end.

Lemma keeps_send ds m : plain m → moves (keeps ds) (send m).
Proof.
  intros Hm s r s' [= <- <-] []. split; simpl; unfold uploaded, not_found, requested in *;
    rewrite ?omap_app, ?bind_app in *; destruct m; try done; simpl; rewrite ?app_nil_r; try done.
  all: intros; apply so_reqs0 || eapply so_texts0; set_solver.
Qed.

(** Steps that leave the lists alone. *)
Definition same_books (s s' : session) : Prop :=
  have s' = have s ∧ need s' = need s ∧ seenHave s' = seenHave s ∧ seenNeed s' = seenNeed s ∧
  outbox s' = outbox s ∧ decomp s' = decomp s.

Lemma same_books_ok ds s s' : same_books s s' → session_ok ds s → session_ok ds s'.
Proof. intros (Eh & En & Es & Et & Eo & Ed) []. split; rewrite ?Eh, ?En, ?Es, ?Et, ?Eo, ?Ed; done. Qed.

Lemma keeps_modify ds f : (∀ s, same_books s (f s)) → moves (keeps ds) (modify f).
Proof. intros Hf. apply moves_modify. intros s. unfold keeps. by apply same_books_ok. Qed.

Lemma keeps_add_have ds i : moves (keeps ds) (add_have i).
Proof.
  unfold add_have. apply moves_bind_lift; [apply _|]. intros id Hid. apply moves_modify. intros s.
  case_decide as Hseen; [done|]. intros []. split; simpl; try done.
  - apply NoDup_cons. split; [|done]. intros Hin. by apply Hseen, so_have_seen0.
  - intros j [->|Hj]%elem_of_cons; [set_solver|]. apply so_have_seen0 in Hj. set_solver.
  - intros Hup j [->%elem_of_singleton|Hj]%elem_of_union; [constructor|].
    constructor 2. by apply so_have_all0.
  - intros j [->%elem_of_singleton|Hj]%elem_of_union; [|by apply so_ids0].
    unfold Bytes32 in Hid. inv_result. subst. by apply negb_false_iff, Nat.eqb_eq in Hr.
Qed.

Lemma keeps_add_need ds i : moves (keeps ds) (add_need i).
Proof.
  unfold add_need. apply moves_bind_lift; [apply _|]. intros id _. apply moves_modify. intros s.
  case_decide as Hseen; [done|]. intros []. split; simpl; try done.
  - apply NoDup_cons. split; [|done]. intros Hin. by apply Hseen, so_need_seen0.
  - intros j [->|Hj]%elem_of_cons; [set_solver|]. apply so_need_seen0 in Hj. set_solver.
  - intros Hup j [->%elem_of_singleton|Hj]%elem_of_union; [constructor|].
    constructor 2. by apply so_need_all0.
Qed.

Lemma keeps_count_totals ds h n : moves (keeps ds) (count_totals p h n).
Proof.
  apply moves_modify. intros s []. destruct (doUp p) eqn:Hu, (doDown p) eqn:Hd; split; simpl;
    rewrite ?Hu, ?Hd; try done.
  all: try (by apply NoDup_app in so_have0 as (_ & _ & ?)).
  all: try (by apply NoDup_app in so_need0 as (_ & _ & ?)).
  all: intros i Hi; set_solver.
Qed.

#[local] Hint Resolve keeps_send keeps_add_have keeps_add_need keeps_count_totals : moves.
#[local] Hint Extern 1 (plain _) => exact I : moves.
#[local] Hint Extern 1 (moves (keeps _) (modify _)) => apply keeps_modify; intros ?; by split_and! : moves.

Lemma keeps_for_each {A : Type} ds (f : A → SE session ()) l :
  (∀ a, moves (keeps ds) (f a)) → moves (keeps ds) (for_each f l).
Proof. intros Hf. apply moves_for_each; [apply _|by intros a _]. Qed.

Lemma keeps_read_reply ds d msg : moves (keeps ds) (read_reply from_hex_default p local d msg).
Proof.
  unfold read_reply. do 5 (apply moves_bind_lift; [apply _|intros ? _]). destruct a3 as [[neMsg hs] ns].
  apply moves_bind; [apply _|apply keeps_for_each; auto with moves|intros _].
  apply moves_bind; [apply _|apply keeps_for_each; auto with moves|intros _]. auto with moves.
Qed.

Lemma keeps_neg_message ds d msg : moves (keeps ds) (neg_message from_hex_default p local d msg).
Proof.
  unfold neg_message, doExit. apply moves_bind; [apply _|auto with moves|intros h].
  apply moves_bind; [apply _|auto with moves|intros n].
  apply moves_bind; [apply _| |intros neMsg].
  { apply moves_try; [apply _|apply keeps_read_reply|auto with moves]. }
  apply moves_bind; [apply _|auto with moves|intros _]. destruct neMsg; [auto with moves|].
  unfold set_syncDone. auto with moves.
Qed.

Lemma keeps_ok_message ds msg : moves (keeps ds) (ok_message msg).
Proof.
  unfold ok_message, set_inFlightUp. apply moves_bind; [apply _|auto with moves|intros n].
  apply moves_bind; [apply _|auto with moves|intros _].
  do 2 (apply moves_bind_lift; [apply _|intros ? _]). destruct a0; [auto with moves|].
  do 4 (apply moves_bind_lift; [apply _|intros ? _]). auto with moves.
Qed.

Lemma keeps_event_message ds msg : moves (keeps ds) (event_message cfg url msg).
Proof.
  unfold event_message. do 3 (apply moves_bind_lift; [apply _|intros ? _]).
  apply moves_bind; [apply _|auto with moves|intros s].
  destruct (policy_accept _ _ _ _ _) as [[res okMsg] pl].
  apply moves_bind; [apply _|auto with moves|intros _].
  case_decide; [auto with moves|]. case_match; [auto with moves|].
  do 2 (apply moves_bind_lift; [apply _|intros ? _]). auto with moves.
Qed.

Lemma keeps_sync_command ds d msgStr :
  moves (keeps ds) (sync_command cfg from_hex_default url p local d msgStr).
Proof.
  unfold sync_command, doExit, set_inFlightDown.
  do 2 (apply moves_bind_lift; [apply _|intros ? _]).
  repeat case_match; auto using keeps_neg_message, keeps_ok_message, keeps_event_message with moves.
Qed.

(** *** Uploads *)

Lemma uploaded_snoc out m : uploaded (out ++ [m]) =
  uploaded out ++ (match m with Upload i _ => [i] | _ => [] end).
Proof. unfold uploaded. rewrite omap_app. by destruct m. Qed.

Lemma not_found_snoc out m : not_found (out ++ [m]) =
  not_found out ++ (match m with Missing i => [i] | _ => [] end).
Proof. unfold not_found. rewrite omap_app. by destruct m. Qed.

Lemma requested_snoc out m : requested (out ++ [m]) =
  requested out ++ (match m with ReqIds ids => ids | _ => [] end).
Proof. unfold requested. rewrite bind_app. simpl. by rewrite app_nil_r. Qed.

(** The front id of [have] is uploaded, or found missing. *)
Definition moved (n : N) (dc : DictCaches) (rest : list bytes) (m : sync_msg) (s : session) : session :=
  mk_session n (inFlightDown s) rest (need s) (seenHave s) (seenNeed s) (syncDone s) (totalHaves s)
    (totalNeeds s) dc (writePolicyPlugin s) (outbox s ++ [m]) (to_writer s).

Lemma moved_ok ds n dc i rest m s : session_ok ds s → have s = i :: rest → doUp p = true →
  (m = Missing i ∧ absent_id ds i ∨ ∃ json, m = Upload i json ∧ stored_text ds i json) →
  (∀ d, CompressionDictionary (tables d) = dicts → caches_ok dc d) →
  session_ok ds (moved n dc rest m s).
Proof.
  intros [] Hh Hup Hm Hdc. rewrite Hh in *.
  assert (i :: rest ++ uploaded (outbox s) ++ not_found (outbox s) ≡ₚ
    rest ++ uploaded (outbox s ++ [m]) ++ not_found (outbox s ++ [m])) as Hp.
  { rewrite uploaded_snoc, not_found_snoc.
    destruct Hm as [[-> _]|(json & -> & _)]; rewrite ?app_nil_r; solve_Permutation. }
  assert (requested (outbox s ++ [m]) = requested (outbox s)) as Hreq.
  { rewrite requested_snoc. destruct Hm as [[-> _]|(json & -> & _)]; by rewrite app_nil_r. }
  split; simpl in *; rewrite ?Hreq, <-?Hp; try done.
  - intros j. rewrite <-Hp. apply so_have_seen0.
  - intros _ j Hj. rewrite <-Hp. by apply so_have_all0.
  - congruence.
  - intros ids [Hi|Hi%list_elem_of_singleton]%elem_of_app; [by apply so_reqs0|].
    by destruct Hm as [[-> _]|(json & -> & _)].
  - intros j json [Hi|Hi%list_elem_of_singleton]%elem_of_app; [by apply so_texts0|].
    destruct Hm as [[-> _]|(json' & -> & Hst)]; [done|]. by injection Hi as -> ->.
  - intros j. rewrite not_found_snoc. intros [Hj|Hj]%elem_of_app; [by apply so_missing0|].
    destruct Hm as [[-> Hab]|(json & -> & _)]; [|by apply not_elem_of_nil in Hj].
    by apply list_elem_of_singleton in Hj as ->.
Qed.

(** What uploading leaves alone. *)
Definition same_rest_of (s s' : session) : Prop :=
  need s' = need s ∧ inFlightDown s' = inFlightDown s ∧ syncDone s' = syncDone s.

Lemma event_json_run ds d m l e s : session_ok ds s → sync_db d → repr d m → m !! l = Some e →
  ∃ json dc, event_text cfg d l = Ok json ∧
    (∀ d, CompressionDictionary (tables d) = dicts → caches_ok dc d) ∧
    event_json cfg d l s = (Ok json, mk_session (inFlightUp s) (inFlightDown s) (have s) (need s)
      (seenHave s) (seenNeed s) (syncDone s) (totalHaves s) (totalNeeds s) dc (writePolicyPlugin s)
      (outbox s) (to_writer s)).
Proof.
  intros Hs (Hdi & m' & Hr' & Hread) Hr Hl. pose proof (so_caches _ _ Hs d Hdi) as Hc.
  assert (is_Some (m' !! l)) as Hm'.
  { destruct Hr as [Hd _], Hr' as [Hd' _]. rewrite Hd' in Hd.
    assert (((encode <$> m') !! l) = Some (encode e)) as He by (by rewrite Hd, lookup_fmap, Hl).
    rewrite lookup_fmap in He. by destruct (m' !! l). }
  destruct (Hread l Hm') as [json Ht]. exists json. unfold event_json.
  pose proof (getEventJson_text cfg (decomp s) d l Hc) as Hg. rewrite Ht in Hg.
  destruct Hg as (dc & -> & Hdc). exists dc. split_and!; try done.
  intros d' Hd' i dict Hi. rewrite Hd', <-Hdi. by apply Hdc.
Qed.


Lemma upload_loop_run ds d ids : d ∈ ds → sync_db d → doUp p = true → ∀ s,
  session_ok ds s → have s = ids → (inFlightUp s ≤ highWaterUp)%N →
  ∃ s' k, upload_loop cfg d ids s = (Ok tt, s') ∧ session_ok ds s' ∧ same_rest_of s s' ∧
    (have s' = [] ∨ inFlightUp s' = highWaterUp) ∧
    length (uploaded (outbox s')) = length (uploaded (outbox s)) + k ∧
    inFlightUp s' = (inFlightUp s + N.of_nat k)%N ∧ (inFlightUp s' ≤ highWaterUp)%N.
Proof.
  intros Hd Hdb Hup. induction ids as [|i rest IH]; intros s Hs Hh Hn.
  { exists s, 0. split_and!; try done; [by left|lia..]. }
  cbn [upload_loop]. unfold mbind at 1, SE_bind at 1, gets. simpl.
  destruct (N.ltb_spec (inFlightUp s) highWaterUp) as [Hlt|Hge].
  2:{ exists s, 0. split_and!; try done; [right; lia|lia..]. }
  unfold mbind, SE_bind, set_have, modify. simpl. pose proof Hdb as (_ & m & Hr & _).
  assert (length i = 32) as Hlen.
  { apply (so_ids _ _ Hs), (so_have_seen _ _ Hs). rewrite Hh. by constructor. }
  pose proof (lookupEventById_spec d m i Hr Hlen) as Hl.
  destruct (lookupEventById d i) as [[lv b]|].
  - destruct Hl as (e & He & Hid & _).
    destruct (event_json_run ds d m lv e s Hs Hdb Hr He) as (json & dc & Ht & Hdc & Hev).
    assert (event_json cfg d lv (mk_session (inFlightUp s) (inFlightDown s) rest (need s) (seenHave s)
      (seenNeed s) (syncDone s) (totalHaves s) (totalNeeds s) (decomp s) (writePolicyPlugin s)
      (outbox s) (to_writer s)) = (Ok json, mk_session (inFlightUp s) (inFlightDown s) rest (need s)
      (seenHave s) (seenNeed s) (syncDone s) (totalHaves s) (totalNeeds s) dc (writePolicyPlugin s)
      (outbox s) (to_writer s))) as ->.
    { unfold event_json in *. simpl. destruct (getEventJson cfg (decomp s) d lv) as [[dc' j]|]; [|done].
      by injection Hev as -> ->. }
    destruct (IH (moved (u64_add (inFlightUp s) 1) dc rest (Upload i json) s)) as
      (s' & k & Hrun & Hs' & (Hre1 & Hre2 & Hre3) & Hend & Hlu & Hnu & Hle).
    + apply moved_ok with i; try done. right. exists json. split; [done|]. by exists d, m, lv, e.
    + done.
    + simpl. unfold u64_add, u64_wrap. rewrite N.mod_small; unfold highWaterUp, two64 in *; lia.
    + exists s', (S k). split; [exact Hrun|]. split; [done|]. split; [by split_and!|].
      split; [done|]. simpl in *. rewrite uploaded_snoc, length_app in Hlu. simpl in Hlu.
      assert (u64_add (inFlightUp s) 1 = inFlightUp s + 1)%N as Hadd.
      { unfold u64_add, u64_wrap. apply N.mod_small. unfold highWaterUp, two64 in *. lia. }
      rewrite Hadd in Hnu. split_and!; [lia|lia|done].
  - destruct (IH (moved (inFlightUp s) (decomp s) rest (Missing i) s)) as
      (s' & k & Hrun & Hs' & (Hre1 & Hre2 & Hre3) & Hend & Hlu & Hnu & Hle).
    + apply moved_ok with i; try done; [|apply Hs]. left. split; [done|]. by exists d, m.
    + done.
    + done.
    + exists s', k. split; [exact Hrun|]. split; [done|]. split; [by split_and!|].
      split; [done|]. simpl in *. rewrite uploaded_snoc, length_app in Hlu. simpl in Hlu.
      split_and!; [lia|done..].
Qed.

Lemma upload_run ds d s : d ∈ ds → sync_db d → session_ok ds s →
  ∃ s' k, upload cfg p d s = (Ok tt, s') ∧ session_ok ds s' ∧ same_rest_of s s' ∧
    length (uploaded (outbox s')) = length (uploaded (outbox s)) + k ∧
    inFlightUp s' = (inFlightUp s + N.of_nat k)%N ∧ (k ≠ 0 → (inFlightUp s' ≤ highWaterUp)%N) ∧
    (if doUp p then inFlightUp s' = 0%N → have s' = [] else have s' = have s) ∧
    ((lowWaterUp < inFlightUp s)%N → s' = s).
Proof.
  intros Hd Hdb Hs. unfold upload, mbind, SE_bind, gets.
  destruct (doUp p) eqn:Hup; simpl.
  2:{ exists s, 0. split_and!; try done; lia. }
  destruct (have s) as [|i rest] eqn:Hh; simpl.
  { exists s, 0. split_and!; try done; lia. }
  destruct (N.leb_spec (inFlightUp s) lowWaterUp) as [Hle|Hgt].
  - destruct (upload_loop_run ds d (i :: rest) Hd Hdb Hup s Hs Hh) as
      (s' & k & Hrun & Hs' & Hre & Hend & Hlu & Hnu & Hhi); [unfold lowWaterUp, highWaterUp in *; lia|].
    exists s', k. split_and!; try done; [|lia].
    intros Hz. destruct Hend as [?|Hx]; [done|]. rewrite Hz in Hx. done.
  - exists s, 0. split_and!; try done; [lia..|]. intros Hz. rewrite Hz in Hgt. done.
Qed.

Lemma download_run ds s : session_ok ds s →
  ∃ s', download p s = (Ok tt, s') ∧ session_ok ds s' ∧ have s' = have s ∧
    inFlightUp s' = inFlightUp s ∧ syncDone s' = syncDone s ∧
    uploaded (outbox s') = uploaded (outbox s) ∧
    (if doDown p then inFlightDown s' = true ∨ need s' = [] else need s' = need s) ∧
    (inFlightDown s = true → inFlightDown s' = true).
Proof.
  intros Hs. unfold download, mbind, SE_bind, gets. destruct (doDown p) eqn:Hdn; simpl.
  2:{ exists s. split_and!; try done. }
  destruct (need s) as [|i rest] eqn:Hn; simpl.
  { exists s. split_and!; try done. by right. }
  destruct (inFlightDown s) eqn:Hf; simpl.
  { exists s. split_and!; try done. by left. }
  eexists. split; [done|]. simpl. split_and!; try done; [|by rewrite uploaded_snoc, app_nil_r|by left].
  destruct Hs. rewrite Hn in *.
  assert (drop 49 rest ++ requested (outbox s ++ [ReqIds (i :: take 49 rest)]) ≡ₚ
    (i :: rest) ++ requested (outbox s)) as Hp.
  { rewrite requested_snoc. rewrite <-(take_drop 49 rest) at 3. simpl. solve_Permutation. }
  split; simpl; rewrite ?uploaded_snoc, ?not_found_snoc, ?app_nil_r; try done.
  - by rewrite Hp.
  - intros j. rewrite Hp. apply so_need_seen0.
  - intros _ j Hj. rewrite Hp. by apply so_need_all0.
  - congruence.
  - intros ids [Hi|Hi%list_elem_of_singleton]%elem_of_app; [by apply so_reqs0|].
    injection Hi as ->. simpl. rewrite length_take. unfold batchSizeDown. lia.
  - intros j json [Hi|Hi%list_elem_of_singleton]%elem_of_app; [by apply so_texts0|done].
Qed.

(** *** Messages *)

Definition calm (s s' : session) : Prop :=
  have s' = have s ∧ need s' = need s ∧ outbox s' = outbox s ∧ syncDone s' = syncDone s ∧
  inFlightUp s' = inFlightUp s.

#[local] Instance calm_pre : PreOrder calm.
Proof.
  split; [by intros s; split_and!|].
  intros s1 s2 s3 (? & ? & ? & ? & ?) (? & ? & ? & ? & ?). split_and!; congruence.
Qed.

#[local] Hint Extern 1 (moves calm (modify _)) => apply moves_modify; intros ?; by split_and! : moves.

Lemma calm_event_message msg : moves calm (event_message cfg url msg).
Proof.
  unfold event_message. do 3 (apply moves_bind_lift; [apply _|intros ? _]).
  apply moves_bind; [apply _|auto with moves|intros s].
  destruct (policy_accept _ _ _ _ _) as [[res okMsg] pl].
  apply moves_bind; [apply _|auto with moves|intros _].
  case_decide; [auto with moves|]. case_match; [auto with moves|].
  do 2 (apply moves_bind_lift; [apply _|intros ? _]). auto with moves.
Qed.

Lemma ok_message_run msg s r s' : ok_message msg s = (r, s') →
  have s' = have s ∧ need s' = need s ∧ outbox s' = outbox s ∧ syncDone s' = syncDone s ∧
  inFlightUp s' = u64_sub (inFlightUp s) 1 ∧ inFlightDown s' = inFlightDown s.
Proof.
  unfold ok_message, mbind at 1 2, SE_bind at 1 2, gets, set_inFlightUp, modify.
  intros Hrun.
  assert (moves (S := session) (λ s1 s2 : session, s2 = s1) (
    v ← lift (at_pos msg 2); ok ← lift (get_boolean v);
    if ok : bool then mret tt
    else i ← lift (at_pos msg 1); _ ← lift (get_string i);
         m ← lift (at_pos msg 3); _ ← lift (get_string m); mret tt)) as Hm.
  { assert (PreOrder (λ s1 s2 : session, s2 = s1)) by (split; [done|intros ???; congruence]).
    do 2 (apply moves_bind_lift; [apply _|intros ? _]). destruct a0; [by apply moves_ret|].
    do 4 (apply moves_bind_lift; [apply _|intros ? _]). by apply moves_ret. }
  rewrite (Hm _ _ _ Hrun). by split_and!.
Qed.

(** Filling [have] and [need]. *)
Definition filling_only (s s' : session) : Prop :=
  inFlightUp s' = inFlightUp s ∧ outbox s' = outbox s ∧ syncDone s' = syncDone s ∧
  inFlightDown s' = inFlightDown s.

#[local] Instance filling_only_pre : PreOrder filling_only.
Proof.
  split; [by intros s; split_and!|].
  intros s1 s2 s3 (? & ? & ? & ?) (? & ? & ? & ?). split_and!; congruence.
Qed.

Lemma filling_add_have i : moves filling_only (add_have i).
Proof.
  unfold add_have. apply moves_bind_lift; [apply _|]. intros id _. apply moves_modify. intros s.
  case_decide; by split_and!.
Qed.

Lemma filling_add_need i : moves filling_only (add_need i).
Proof.
  unfold add_need. apply moves_bind_lift; [apply _|]. intros id _. apply moves_modify. intros s.
  case_decide; by split_and!.
Qed.

Lemma filling_read_reply d msg : moves filling_only (read_reply from_hex_default p local d msg).
Proof.
  unfold read_reply. do 5 (apply moves_bind_lift; [apply _|intros ? _]). destruct a3 as [[neMsg hs] ns].
  apply moves_bind; [apply _|apply moves_for_each; [apply _|intros; apply filling_add_have]|intros _].
  apply moves_bind; [apply _|apply moves_for_each; [apply _|intros; apply filling_add_need]|intros _].
  apply moves_ret. apply _.
Qed.

Context (hex_errors : ∀ s, only_caught (from_hex_default s)).


(** *** What a message can throw *)

Lemma at_pos_caught v i : only_caught (at_pos v i).
Proof. unfold at_pos, get_array. prove_caught. Qed.

Lemma sync_storage_caught d : only_caught (sync_storage p local d).
Proof. unfold sync_storage. prove_caught. Qed.

Lemma bytes32_caught s : only_caught (Bytes32 s).
Proof. unfold Bytes32. prove_caught. Qed.

Lemma reconcile_caught_ids n st m : only_caught (reconcile_ids n st m).
Proof. intros e. apply reconcile_ids_caught. Qed.

Lemma get_string_caught v : only_caught (get_string v).
Proof. unfold get_string. prove_caught. Qed.

Lemma get_boolean_caught v : only_caught (get_boolean v).
Proof. unfold get_boolean. prove_caught. Qed.

Lemma get_array_caught v : only_caught (get_array v).
Proof. unfold get_array. prove_caught. Qed.

Lemma at_key_caught v k : only_caught (at_key v k).
Proof. unfold at_key, get_object. prove_caught. Qed.

Lemma parse_caught s : only_caught (json_from_string s).
Proof. intros e He. by rewrite (json_from_string_error _ _ He). Qed.

#[local] Hint Resolve hex_errors at_pos_caught sync_storage_caught bytes32_caught
  reconcile_caught_ids get_string_caught get_boolean_caught get_array_caught at_key_caught
  parse_caught : only_caught.

Lemma for_each_caught {A : Type} (f : A → SE session ()) l :
  (∀ a, throws_only_caught (f a)) → throws_only_caught (for_each f l).
Proof.
  intros Hf. induction l as [|a l IH]; [apply caught_ret|]. apply caught_bind; [apply Hf|done].
Qed.

Lemma read_reply_caught d msg : throws_only_caught (read_reply from_hex_default p local d msg).
Proof.
  unfold read_reply, add_have, add_need. do 5 (apply caught_bind; [auto with caught|intros ?]).
  destruct a3 as [[neMsg hs] ns].
  apply caught_bind; [apply for_each_caught; prove_steps|intros _].
  apply caught_bind; [apply for_each_caught; prove_steps|intros _]. auto with caught.
Qed.

Lemma ok_message_caught msg : throws_only_caught (ok_message msg).
Proof. unfold ok_message, set_inFlightUp. prove_steps. Qed.

Lemma event_message_caught msg : throws_only_caught (event_message cfg url msg).
Proof.
  unfold event_message. do 3 (apply caught_bind; [auto with caught|intros ?]).
  apply caught_bind; [auto with caught|intros s].
  destruct (policy_accept _ _ _ _ _) as [[res okMsg] pl]. prove_steps.
Qed.

(** *** NEG-MSG *)

Lemma neg_message_run d msg s r s' : neg_message from_hex_default p local d msg s = (r, s') →
  r = Throw (process_exit 1) ∨
  r = Ok tt ∧ inFlightUp s' = inFlightUp s ∧ uploaded (outbox s') = uploaded (outbox s) ∧
    (doUp p = false → have s' = []) ∧ (doDown p = false → need s' = []).
Proof.
  unfold neg_message, mbind, SE_bind, gets, try_catch.
  destruct (read_reply from_hex_default p local d msg s) as [[neMsg|e] s1] eqn:Hr.
  - intros Hrun. right. pose proof (filling_read_reply d msg s _ _ Hr) as (Hi & Ho & _).
    unfold count_totals, set_syncDone, send, modify in Hrun.
    destruct neMsg; simpl in Hrun; injection Hrun as <- <-; simpl;
      rewrite uploaded_snoc, app_nil_r, Ho;
      (split_and!; [done|done|done| |]); by intros ->.
  - rewrite (read_reply_caught d msg s e s1 Hr). intros [= <- <-]. by left.
Qed.

(** An OK message. *)
Definition is_ok_msg (msgStr : bytes) : bool :=
  match json_from_string msgStr with
  | Ok msg => match at_pos msg 0 with Ok c => is_cmd c #"OK" | Throw _ => false end
  | Throw _ => false
  end.

Lemma sync_command_run d msgStr s r s' :
  sync_command cfg from_hex_default url p local d msgStr s = (r, s') →
  r = Throw (process_exit 1) ∨
  (∀ e, r = Throw e → catchable e = true) ∧
  inFlightUp s' = (if is_ok_msg msgStr then u64_sub (inFlightUp s) 1 else inFlightUp s) ∧
  uploaded (outbox s') = uploaded (outbox s) ∧
  (doUp p = false → have s = [] → have s' = []) ∧ (doDown p = false → need s = [] → need s' = []).
Proof.
  unfold sync_command, is_ok_msg, mbind at 1, SE_bind at 1, lift at 1.
  destruct (json_from_string msgStr) as [msg|e] eqn:Hj.
  2:{ intros [= <- <-]. right. split_and!; try done. intros e' [= <-]. by eapply parse_caught. }
  unfold mbind at 1, SE_bind at 1, lift at 1. destruct (at_pos msg 0) as [cmd|e] eqn:Hc.
  2:{ intros [= <- <-]. right. split_and!; try done. intros e' [= <-]. by eapply at_pos_caught. }
  assert (∀ a b : bytes, a ≠ b → is_cmd cmd a = true → is_cmd cmd b = false) as Hdiff.
  { intros a b Hab. destruct cmd; try done. simpl. intros ->%bool_decide_eq_true_1.
    by apply bool_decide_eq_false_2. }
  destruct (is_cmd cmd #"NEG-MSG") eqn:EC1.
  { rewrite (Hdiff #"NEG-MSG" #"OK" ltac:(done) EC1).
    intros [->|(-> & ? & ? & ? & ?)]%neg_message_run; [by left|]. right. split_and!; auto; done. }
  destruct (is_cmd cmd #"OK") eqn:EC2.
  { intros Hrun. right. pose proof (ok_message_run _ _ _ _ Hrun) as (Hh & Hn & Ho & _ & Hi & _).
    split; [intros e ->; by eapply ok_message_caught|]. rewrite Hi, Ho, Hh, Hn. by split_and!. }
  destruct (is_cmd cmd #"EVENT") eqn:EC3.
  { intros Hrun. right. pose proof (calm_event_message _ _ _ _ Hrun) as (Hh & Hn & Ho & _ & Hi).
    split; [intros e ->; by eapply event_message_caught|]. rewrite Hi, Ho, Hh, Hn. by split_and!. }
  destruct (is_cmd cmd #"EOSE"); [intros [= <- <-]; right; by split_and!|].
  destruct (is_cmd cmd #"NEG-ERR"); intros [= <- <-]; [by left|]. right. by split_and!.
Qed.

(** ** A message *)

(** Nothing waits that the direction does not ask for. *)
Definition directed (s : session) : Prop :=
  (doUp p = false → have s = []) ∧ (doDown p = false → need s = []).

(** [inFlightUp] after the message itself. *)
Definition answered (msgStr : bytes) (s : session) : N :=
  if is_ok_msg msgStr then u64_sub (inFlightUp s) 1 else inFlightUp s.

Record message_done (ds : list env) (msgStr : bytes) (s : session) (r : result ()) (s' : session) : Prop := {
  md_books : session_ok ds s';
  md_directed : directed s';
  md_result : r = if finished s' then Throw (process_exit 0) else Ok tt;
  md_idle_up : inFlightUp s' = 0%N → have s' = [];
  md_idle_down : inFlightDown s' = true ∨ need s' = [];
  md_uploads : ∃ k, length (uploaded (outbox s')) = length (uploaded (outbox s)) + k ∧
    inFlightUp s' = (answered msgStr s + N.of_nat k)%N ∧
    (k ≠ 0 → (inFlightUp s' ≤ highWaterUp)%N) ∧
    ((lowWaterUp < answered msgStr s)%N → uploaded (outbox s') = uploaded (outbox s));
}.

Abbreviation message := (on_message cfg from_hex_default url p local).

Lemma on_message_run ds d msgStr s r s' : d ∈ ds → sync_db d → session_ok ds s → directed s →
  message d msgStr s = (r, s') →
  r = Throw (process_exit 1) ∨ message_done ds msgStr s r s'.
Proof.
  intros Hd Hdb Hs [Hdu Hdd]. unfold on_message, mbind at 1, SE_bind at 1.
  destruct (sync_command cfg from_hex_default url p local d msgStr s) as [r1 s1] eqn:Hcmd.
  pose proof (keeps_sync_command ds d msgStr s r1 s1 Hcmd Hs) as Hs1.
  pose proof Hcmd as [->|(Hcaught & Hi1 & Hu1 & Hh1 & Hn1)]%sync_command_run.
  { unfold try_catch. rewrite Hcmd. intros [= <- <-]. by left. }
  assert (try_catch (sync_command cfg from_hex_default url p local d msgStr) (λ _, mret tt) s =
    (Ok tt, s1)) as ->.
  { unfold try_catch. rewrite Hcmd. destruct r1 as [[]|e]; [done|]. by rewrite (Hcaught e). }
  unfold mbind at 1, SE_bind at 1.
  destruct (upload_run ds d s1 Hd Hdb Hs1) as
    (s2 & k & -> & Hs2 & (Hr1 & Hr2 & Hr3) & Hu2 & Hi2 & Hhi & Hup & Hfull).
  unfold mbind at 1, SE_bind at 1.
  destruct (download_run ds s2 Hs2) as (s3 & -> & Hs3 & Hh3 & Hi3 & Hsd3 & Hu3 & Hdn & Hf3).
  unfold mbind, SE_bind, gets, doExit. intros Hr. right.
  assert (s' = s3 ∧ r = if finished s3 then Throw (process_exit 0) else Ok tt) as [-> ->].
  { destruct (finished s3); by injection Hr as <- <-. }
  split; [done| |done|..].
  - split; intros Hno.
    + rewrite Hh3. rewrite Hno in Hup. rewrite Hup. auto.
    + rewrite Hno in Hdn. rewrite Hdn, Hr1. auto.
  - rewrite Hi3, Hh3. destruct (doUp p); [done|]. rewrite Hup. auto.
  - destruct (doDown p); [done|]. right. rewrite Hdn, Hr1. auto.
  - exists k. unfold answered. rewrite <-Hi1, Hu3, Hi3, Hu2, Hu1. split_and!; try done.
    intros Hlt. by rewrite (Hfull Hlt).
Qed.

(** ** A whole session *)

(** The messages so far, each with the snapshot it was handled under. *)
Inductive sync_run : list (env * bytes) → session → result () → Prop :=
  | run_connect d dc pl r s :
      (∀ d', CompressionDictionary (tables d') = dicts → caches_ok dc d') →
      on_connect p local d (new_session dc pl) = (r, s) → sync_run [] s (Ok tt)
  | run_message h s d msgStr r s' : sync_run h s (Ok tt) → sync_db d →
      message d msgStr s = (r, s') → sync_run (h ++ [(d, msgStr)]) s' r.

Definition num_oks (h : list (env * bytes)) : nat :=
  length (filter (λ x : env * bytes, is_ok_msg x.2 = true) h).

Definition balanced (h : list (env * bytes)) (s : session) : Prop :=
  u64_add (inFlightUp s) (wrapped (num_oks h)) = wrapped (length (uploaded (outbox s))).

Lemma connect_ok d dc pl r s : (∀ d', CompressionDictionary (tables d') = dicts → caches_ok dc d') →
  on_connect p local d (new_session dc pl) = (r, s) →
  session_ok [] s ∧ directed s ∧ inFlightUp s = 0%N ∧ uploaded (outbox s) = [] ∧ syncDone s = false.
Proof.
  intros Hdc Hc. assert (moves (keeps []) (on_connect p local d)) as Hk.
  { unfold on_connect. do 2 (apply moves_bind_lift; [apply _|intros ? _]). auto with moves. }
  assert (session_ok [] (new_session dc pl)) as Hn.
  { split; simpl; try done; try set_solver; constructor. }
  split; [by apply (Hk _ _ _ Hc)|]. clear Hk Hn.
  unfold on_connect, mbind, SE_bind, lift, send, modify in Hc.
  destruct (sync_storage p local d) as [st|]; [|by injection Hc as <- <-].
  destruct (initiate (frameSizeLimit p) st); by injection Hc as <- <-.
Qed.

Lemma session_ok_more ds ds' s : (∀ d, d ∈ ds → d ∈ ds') → session_ok ds s → session_ok ds' s.
Proof.
  intros Hsub []. split; try done; [intros i json Hi|intros i Hi].
  - destruct (so_texts0 i json Hi) as (d & m & l & e & ? & ?). exists d, m, l, e. auto.
  - destruct (so_missing0 i Hi) as (d & m & ? & ? & ?). exists d, m. auto.
Qed.

Lemma u64_sub_add a b : is_u64 a → u64_add (u64_sub a 1) (wrapped (S b)) = u64_add a (wrapped b).
Proof.
  intros Ha. rewrite <-wrapped_S. unfold u64_add, u64_sub, u64_wrap.
  rewrite N.Div0.add_mod_idemp_r, N.Div0.add_mod_idemp_l.
  replace (a + two64 - 1 + (wrapped b + 1))%N with (a + wrapped b + 1 * two64)%N
    by (unfold two64; lia).
  apply N.Div0.mod_add.
Qed.

Record run_ok (h : list (env * bytes)) (s : session) (r : result ()) : Prop := {
  ro_books : session_ok h.*1 s;
  ro_directed : directed s;
  ro_u64 : is_u64 (inFlightUp s);
  ro_balanced : balanced h s;
  ro_result : r = Ok tt ∨ r = Throw (process_exit 0) ∧ finished s = true;
  ro_waits : r = Ok tt → finished s = false ∧ (inFlightUp s = 0%N → have s = []) ∧
    (inFlightDown s = true ∨ need s = []) ∨ syncDone s = false;
}.

Lemma sync_run_ok h s r : sync_run h s r → r = Throw (process_exit 1) ∨ run_ok h s r.
Proof.
  induction 1 as [d dc pl r s Hdc Hc|h s d msgStr r s' _ [?|[Hs Hdir Hu Hbal _ _]] Hdb Hm]; [|done|].
  { right. destruct (connect_ok d dc pl r s Hdc Hc) as (Hs & Hdir & Hi & Hu & Hsd).
    split; [done|done|by rewrite Hi| |by left|by right]. unfold balanced. by rewrite Hi, Hu. }
  assert (d ∈ (h ++ [(d, msgStr)]).*1) as Hd by (rewrite fmap_app; set_solver).
  destruct (on_message_run _ d msgStr s r s' Hd Hdb) as [->|[Hs' Hdir' Hr Hup Hdn (k & Hlen & Hin & Hhi & _)]];
    try done; [| by left|].
  { eapply session_ok_more, Hs. intros d' Hd'. rewrite fmap_app. set_solver. }
  right. assert (is_u64 (answered msgStr s)) as Ha.
  { unfold answered. destruct (is_ok_msg msgStr); [by apply N.mod_upper_bound|exact Hu]. }
  split; try done.
  - rewrite Hin. destruct (Nat.eq_dec k 0) as [->|Hk]; [by rewrite N.add_0_r|].
    rewrite <-Hin. specialize (Hhi Hk). unfold is_u64, highWaterUp, two64 in *. lia.
  - unfold balanced in *. rewrite Hlen, Hin. unfold num_oks. rewrite filter_app, length_app.
    assert (u64_add (answered msgStr s) (wrapped (num_oks h + length (filter
      (λ x : env * bytes, is_ok_msg x.2 = true) [(d, msgStr)]))) =
      wrapped (length (uploaded (outbox s)))) as Hb.
    { rewrite <-Hbal. unfold answered. destruct (is_ok_msg msgStr) eqn:Hok.
      - rewrite filter_cons_True by done. simpl. rewrite Nat.add_1_r. by apply u64_sub_add.
      - rewrite filter_cons_False by (simpl; congruence). simpl. by rewrite Nat.add_0_r. }
    unfold num_oks in Hb. unfold wrapped at 2. rewrite Nat2N.inj_add, <-u64_wrap_add.
    fold (wrapped (length (uploaded (outbox s)))). rewrite <-Hb. unfold u64_add, u64_wrap.
    rewrite N.Div0.add_mod_idemp_l. f_equal. lia.
  - rewrite Hr. destruct (finished s'); [by right|by left].
  - intros ->. left. split; [by destruct (finished s')|done].
Qed.


(** C40: a session that has not ended is always waiting for an answer: to a
    reconciliation message, to an upload, or to a request.  But an OK that
    answers nothing wraps [inFlightUp] around to 2^64-1, and as long as the
    counter stays above 50 nothing is uploaded and the command does not end. *)
Theorem sync_waits h s : sync_run h s (Ok tt) →
  (syncDone s = false ∨ inFlightUp s ≠ 0%N ∨ inFlightDown s = true) ∧
  ∀ d msgStr r s', sync_db d → message d msgStr s = (r, s') → r ≠ Throw (process_exit 1) →
    (is_ok_msg msgStr = true → inFlightUp s = 0%N → inFlightUp s' = MAX_U64) ∧
    ((lowWaterUp < answered msgStr s)%N → inFlightUp s' = answered msgStr s ∧
       uploaded (outbox s') = uploaded (outbox s) ∧ r = Ok tt).
Proof.
  intros [?|[Hs Hdir Hu _ _ Hw]]%sync_run_ok; [done|]. split.
  - destruct (Hw eq_refl) as [(Hf & Hh & Hd)|?]; [|by left].
    destruct (syncDone s) eqn:Hsd; [right|by left].
    destruct (N.eq_dec (inFlightUp s) 0) as [Hz|]; [right|by left].
    destruct Hd as [?|Hn]; [done|]. destruct (inFlightDown s) eqn:Hid; [done|].
    unfold finished in Hf. by rewrite Hsd, (Hh Hz), Hn, Hz, Hid in Hf.
  - intros d msgStr r s' Hdb Hm Hne.
    destruct (on_message_run (h.*1 ++ [d]) d msgStr s r s') as [->|[Hs' _ Hr _ _ (k & Hlen & Hin & _ & Hfull)]];
      try done; [set_solver|eapply session_ok_more, Hs; set_solver|].
    assert ((lowWaterUp < answered msgStr s)%N → inFlightUp s' = answered msgStr s ∧
      uploaded (outbox s') = uploaded (outbox s) ∧ r = Ok tt) as Hhigh.
    { intros Hlt. pose proof (Hfull Hlt) as Hsame. rewrite Hsame in Hlen.
      assert (k = 0) as -> by lia. rewrite N.add_0_r in Hin. split_and!; [done|done|].
      rewrite Hr. unfold finished. rewrite Hin.
      destruct (N.eqb_spec (answered msgStr s) 0) as [Hz|_]; [by rewrite Hz in Hlt|].
      by rewrite !andb_false_r. }
    split; [|done]. intros Hok Hz.
    assert (answered msgStr s = MAX_U64) as Ha by (unfold answered; by rewrite Hok, Hz).
    rewrite <-Ha. apply Hhigh. by rewrite Ha.
Qed.
End sync.
