(* ===== verification/WSConnection.v ===== *)
(** The websocket client of the stream and sync commands ([WSConnection.h]).

    [S] is what the callbacks work on.  What the connection asks of the
    websocket library is a list of [conn_call]s; what the library reports is a
    handler.  Exceptions of [onConnect], [onMessage] and [onTrigger] are
    logged; those of the other two callbacks are not caught. *)

From S2P Require Import Prelude StateExn.

Inductive conn_call :=
  | Sleep (milliseconds : N)
  | Connect (url : bytes) (timeoutMs : N)
  | SetKeepalive (ws : N)
  | SendText (ws : N) (msg : bytes)
  | Terminate (ws : N)
  | CloseGroup
  | CloseTrigger
  | Wake.

Record WSConnection (S : Type) := mk_connection {
  hubGroup : bool;
  hubTrigger : bool;
  currWs : option N;
  shutdown : bool;
  remoteAddr : bytes;
  conn_calls : list conn_call;
  owner : S;
}.
Arguments mk_connection {S}.
Arguments hubGroup {S}.
Arguments hubTrigger {S}.
Arguments currWs {S}.
Arguments shutdown {S}.
Arguments remoteAddr {S}.
Arguments conn_calls {S}.
Arguments owner {S}.

(** The callbacks and settings the owner fills in. *)
Record callbacks (S : Type) := mk_callbacks {
  onConnect : option (SE (WSConnection S) ());
  onMessage : option (bytes → SE (WSConnection S) ());
  onTrigger : option (SE (WSConnection S) ());
  onDisconnect : option (SE (WSConnection S) ());
  onError : option (SE (WSConnection S) ());
  reconnect : bool;
  reconnectDelayMilliseconds : N;
}.
Arguments mk_callbacks {S}.
Arguments onConnect {S}.
Arguments onMessage {S}.
Arguments onTrigger {S}.
Arguments onDisconnect {S}.
Arguments onError {S}.
Arguments reconnect {S}.
Arguments reconnectDelayMilliseconds {S}.

Definition default_callbacks {S} : callbacks S := mk_callbacks None None None None None true 5000.

Section connection.
Context {S : Type}.
Implicit Types c : WSConnection S.

Definition new_connection (o : S) : WSConnection S := mk_connection false false None false [] [] o.

Definition set_currWs (w : option N) : SE (WSConnection S) () := modify (λ c,
  mk_connection (hubGroup c) (hubTrigger c) w (shutdown c) (remoteAddr c) (conn_calls c) (owner c)).

Definition conn_make (k : conn_call) : SE (WSConnection S) () := modify (λ c,
  mk_connection (hubGroup c) (hubTrigger c) (currWs c) (shutdown c) (remoteAddr c)
    (conn_calls c ++ [k]) (owner c)).

Definition set_owner (o : S) : SE (WSConnection S) () := modify (λ c,
  mk_connection (hubGroup c) (hubTrigger c) (currWs c) (shutdown c) (remoteAddr c) (conn_calls c) o).

(** [send]: a message without a connection is dropped. *)
Definition ws_send (msg : bytes) : SE (WSConnection S) () :=
  w ← gets currWs;
  match w with Some w => conn_make (SendText w msg) | None => mret tt end.

Definition trigger : SE (WSConnection S) () :=
  b ← gets hubTrigger;
  if b : bool then conn_make Wake else mret tt.

(** [close] *)
Definition close_connection : SE (WSConnection S) () :=
  _ ← modify (λ c, mk_connection (hubGroup c) (hubTrigger c) (currWs c) true (remoteAddr c)
        (conn_calls c) (owner c));
  trigger.

Definition terminate : SE (WSConnection S) () :=
  c ← gets (λ c, c);
  _ ← (if hubGroup c then conn_make CloseGroup else mret tt);
  _ ← (if hubTrigger c then conn_make CloseTrigger else mret tt);
  _ ← (match currWs c with Some w => conn_make (Terminate w) | None => mret tt end);
  modify (λ c, mk_connection false false None (shutdown c) (remoteAddr c) (conn_calls c) (owner c)).

Variable url : bytes.
Variable cb : callbacks S.

Definition doConnect (delay : N) : SE (WSConnection S) () :=
  _ ← (if (delay =? 0)%N then mret tt else conn_make (Sleep delay));
  b ← gets shutdown;
  if b : bool then mret tt else conn_make (Connect url 5000).

(** [if (!callback) return; try { callback(); } catch ...] *)
Definition logged (m : option (SE (WSConnection S) ())) : SE (WSConnection S) () :=
  match m with Some m => try_catch m (λ _, mret tt) | None => mret tt end.

Definition uncaught (m : option (SE (WSConnection S) ())) : SE (WSConnection S) () :=
  match m with Some m => m | None => mret tt end.

Definition ws_onConnection (ws : N) (address : bytes) : SE (WSConnection S) () :=
  c ← gets (λ c, c);
  if shutdown c then mret tt
  else
    _ ← (match currWs c with
         | Some old => _ ← conn_make (Terminate old); set_currWs None
         | None => mret tt end);
    _ ← modify (λ c, mk_connection (hubGroup c) (hubTrigger c) (currWs c) (shutdown c) address
          (conn_calls c) (owner c));
    _ ← conn_make (SetKeepalive ws);
    _ ← set_currWs (Some ws);
    logged (onConnect cb).

Definition ws_onDisconnection (ws : N) : SE (WSConnection S) () :=
  c ← gets (λ c, c);
  if shutdown c then mret tt
  else if decide (currWs c = Some ws) then
    _ ← set_currWs None;
    _ ← uncaught (onDisconnect cb);
    if reconnect cb then doConnect (reconnectDelayMilliseconds cb) else mret tt
  else mret tt.

Definition ws_onError : SE (WSConnection S) () :=
  _ ← uncaught (onError cb);
  if reconnect cb then doConnect (reconnectDelayMilliseconds cb) else mret tt.

Definition ws_onMessage2 (msg : bytes) : SE (WSConnection S) () :=
  logged ((λ f, f msg) <$> onMessage cb).

(** [asyncCb] *)
Definition ws_asyncCb : SE (WSConnection S) () :=
  b ← gets shutdown;
  if b : bool then terminate else logged (onTrigger cb).

(** [run], up to the event loop. *)
Definition ws_start : SE (WSConnection S) () :=
  _ ← modify (λ c, mk_connection true true (currWs c) (shutdown c) (remoteAddr c) (conn_calls c) (owner c));
  doConnect 0.
End connection.
