(* ===== verification/Stream.v ===== *)
(** The stream command ([apps/mesh/cmd_stream.cpp]): events up to, and down
    from, one other relay. *)

From S2P Require Import Prelude Bytes Json Hex PackedEvent FilterSets Filters Config EventParse.
From S2P Require Import Db Payload StateExn Plugin ReqMonitor Sync WSConnection.

Section stream.
Context `{!Hex, !NativeU64, !GolpeKeys, !Env, !JsonParser, !EventLibs, !Zstd, !WritePolicy}.
Context (cfg : Config).
Variable from_hex_default : bytes → result bytes.
Variable url : bytes.

Record stream := mk_stream {
  downloadedIds : gset bytes;
  currEventId : N;
  stream_decomp : DictCaches;
  stream_plugin : policy;
  stream_writer : list value;     (* what went to the writer pipeline *)
}.

(** [--dir] *)
Definition stream_dir (arg : option bytes) : result bytes :=
  let dir := default #"down" arg in
  _ ← throw_if (negb (bool_decide (dir ∈ [ #"up"; #"down"; #"both"])))
        (herr (#"invalid direction: " ++ dir ++ #". Should be one of up/down/both"));
  Ok dir.

Variable dir : bytes.

Definition update (f : stream → stream) : SE (WSConnection stream) () :=
  o ← gets owner; set_owner (f o).

Definition set_downloaded x (o : stream) := mk_stream x (currEventId o) (stream_decomp o) (stream_plugin o) (stream_writer o).
Definition set_curr x (o : stream) := mk_stream (downloadedIds o) x (stream_decomp o) (stream_plugin o) (stream_writer o).
Definition set_decomp x (o : stream) := mk_stream (downloadedIds o) (currEventId o) x (stream_plugin o) (stream_writer o).
Definition set_plugin x (o : stream) := mk_stream (downloadedIds o) (currEventId o) (stream_decomp o) x (stream_writer o).
Definition add_write v (o : stream) := mk_stream (downloadedIds o) (currEventId o) (stream_decomp o) (stream_plugin o) (stream_writer o ++ [v]).

Definition is_down : bool := bool_decide (dir ∈ [ #"down"; #"both"]).

Definition stream_onConnect : SE (WSConnection stream) () :=
  if is_down then
    ws_send (json_to_string (JArray [JString #"REQ"; JString #"sub"; JObject [(#"limit", JSigned 0)]]))
  else mret tt.

(** [from_hex(evJson.at("id").get_string())], as a [Bytes32]. *)
Definition event_id (evJson : value) : result bytes :=
  v ← at_key evJson #"id";
  s ← get_string v;
  i ← from_hex_default s;
  Bytes32 i.

Definition download (evJson : value) : SE (WSConnection stream) () :=
  o ← gets owner;
  let '((res, okMsg), pl) :=
    policy_accept (relay__writePolicy__plugin cfg) evJson SourceStream url (stream_plugin o) in
  _ ← update (set_plugin pl);
  if decide (res = Accept) then
    i ← lift (event_id evJson);
    _ ← update (λ o, set_downloaded ({[i]} ∪ downloadedIds o) o);
    update (add_write evJson)
  else if length okMsg =? 0 then mret tt
  else v ← lift (at_key evJson #"id"); _ ← lift (get_string v); mret tt.

Definition stream_onMessage (msg : bytes) : SE (WSConnection stream) () :=
  origJson ← lift (json_from_string msg);
  if is_array origJson then
    arr ← lift (get_array origJson);
    _ ← lift (throw_if (length arr <? 2) (herr #"array too short"));
    msgType ← lift (at_pos origJson 0);
    if is_cmd msgType #"EOSE" then mret tt
    else if is_cmd msgType #"NOTICE" then mret tt
    else if is_cmd msgType #"OK" then
      v ← lift (at_pos origJson 2); _ ← lift (get_boolean v); mret tt
    else if is_cmd msgType #"EVENT" then
      if is_down then
        _ ← lift (throw_if (length arr <? 3) (herr #"array too short"));
        evJson ← lift (at_pos origJson 2);
        download evJson
      else mret tt
    else raise (herr #"unexpected first element")
  else raise (herr #"unexpected message").

Definition event_msg (json : bytes) : bytes :=
  #"[" ++ ["034"%char] ++ #"EVENT" ++ ["034"%char] ++ #"," ++ json ++ #"]".

(** One event of the database. *)
Definition upload_event (d : env) (levId : N) : SE (WSConnection stream) () :=
  buf ← lift (event_buf d levId);
  _ ← update (set_curr levId);
  packed ← lift (view buf);
  i ← lift (Bytes32 (id packed));
  o ← gets owner;
  if decide (i ∈ downloadedIds o) then update (set_downloaded (downloadedIds o ∖ {[i]}))
  else
    '(dc, json) ← lift (getEventJson cfg (stream_decomp o) d levId);
    _ ← update (set_decomp dc);
    ws_send (event_msg json).

Definition stream_onTrigger (d : env) : SE (WSConnection stream) () :=
  if decide (dir = #"down") then mret tt
  else
    o ← gets owner;
    for_each (upload_event d) (foreach_Event_from d (u64_add (currEventId o) 1)).

(** The callbacks; [d] is what the database holds when one runs. *)
Definition stream_callbacks (d : env) : callbacks stream :=
  mk_callbacks (Some stream_onConnect) (Some stream_onMessage) (Some (stream_onTrigger d)) None None true 5000.

Definition start_stream (dc : DictCaches) (pl : policy) (d : env) : WSConnection stream :=
  new_connection (mk_stream ∅ (getMostRecentLevId d) dc pl []).
End stream.
