(* ===== verification/StreamTheorems.v ===== *)
(** What the stream command uploads. *)

From S2P Require Import Prelude Bytes Json Hex PackedEvent FilterSets Filters Config EventParse Db.
From S2P Require Import Payload MonitorLookups StoreHistory StateExn Plugin ReqMonitor Handoff Sync.
From S2P Require Import WSConnection Stream.

Section stream.
Context `{!Hex, !NativeU64, !GolpeKeys, !Env, !JsonParser, !EventLibs, !Zstd, !WritePolicy}.
Context (cfg : Config) (from_hex_default : bytes → result bytes) (url dir : bytes).
Context (from_hex_caught : ∀ s, only_caught (from_hex_default s)).
(** The JSON and the event id of each levId. *)
Context (text : N → bytes) (ids : N → bytes).

Record stream_snap (s : snapshot) : Prop := {
  ss_ok : snap_ok cfg text s;
  ss_id : ∀ l e, snap_events s !! l = Some e → ev_id e = ids l;
}.

(** ** One trigger *)

(** The events a trigger visits: those it sends, and those it skips because
    they were downloaded. *)
Fixpoint walk (downloaded : gset bytes) (L : list N) : list (N * bool) * gset bytes :=
  match L with
  | [] => ([], downloaded)
  | l :: L =>
      if decide (ids l ∈ downloaded) then
        let '(vis, downloaded) := walk (downloaded ∖ {[ids l]}) L in ((l, false) :: vis, downloaded)
      else let '(vis, downloaded) := walk downloaded L in ((l, true) :: vis, downloaded)
  end.

Definition messages (vis : list (N * bool)) : list bytes :=
  (λ p, event_msg (text p.1)) <$> filter (λ p : N * bool, p.2 = true) vis.

Lemma messages_app a b : messages (a ++ b) = messages a ++ messages b.
Proof. unfold messages. by rewrite filter_app, fmap_app. Qed.

(** What reaches the other relay. *)
Definition sends (w : option N) (msgs : list bytes) : list conn_call :=
  match w with Some w => SendText w <$> msgs | None => [] end.

Record stream_ok (snap : snapshot) (o : stream) : Prop := {
  so_caches : caches_ok (stream_decomp o) (snap_db snap);
  so_curr : (currEventId o ≤ latest snap)%N;
}.

(** A step of the connection that keeps it as it is. *)
Record same_link (c c' : WSConnection stream) : Prop := {
  sl_ws : currWs c' = currWs c;
  sl_shutdown : shutdown c' = shutdown c;
}.

Lemma upload_event_run snap l e c :
  stream_snap snap → snap_events snap !! l = Some e → stream_ok snap (owner c) →
  ∃ c', upload_event cfg (snap_db snap) l c = (Ok tt, c') ∧ same_link c c' ∧
    stream_ok snap (owner c') ∧ currEventId (owner c') = l ∧
    conn_calls c' = conn_calls c ++ sends (currWs c) (messages (walk (downloadedIds (owner c)) [l]).1) ∧
    downloadedIds (owner c') = (walk (downloadedIds (owner c)) [l]).2 ∧
    stream_plugin (owner c') = stream_plugin (owner c).
Proof.
  intros [Hs Hid] He [Hc Hle]. destruct (event_buf_ok cfg text snap l e Hs He) as [Hbuf Hwf].
  assert ((l ≤ latest snap)%N) as Hl by (apply (ok_latest cfg text); [done|by eexists]).
  assert (Bytes32 (ev_id e) = Ok (ev_id e)) as H32.
  { unfold Bytes32. rewrite (wf_id _ Hwf). done. }
  destruct c as [hg ht w sd ra cs [D cur dc pl wr]]. cbn in Hc.
  unfold upload_event, update, set_owner, ws_send, conn_make, mbind, SE_bind, lift, gets, modify.
  rewrite Hbuf. cbv beta iota. rewrite view_encode by done. cbv beta iota.
  rewrite id_encode, H32 by done. rewrite (Hid l e He). cbv beta iota. cbn -[event_msg].
  case_decide as Hd.
  - eexists. split; [reflexivity|]. cbn -[event_msg]. destruct w; cbn; rewrite ?app_nil_r; by split_and!.
  - destruct (read_text cfg text snap dc l Hs Hc ltac:(by eexists)) as (dc' & Hget & Hdc').
    rewrite Hget. destruct w as [w|]; cbn -[event_msg]; (eexists; split; [reflexivity|]);
      rewrite ?app_nil_r; by split_and!.
Qed.

Lemma walk_cons D l L :
  walk D (l :: L) = ((walk D [l]).1 ++ (walk (walk D [l]).2 L).1, (walk (walk D [l]).2 L).2).
Proof. cbn [walk]. case_decide; cbn; by destruct (walk _ L). Qed.

Lemma walk_fst D L : (walk D L).1.*1 = L.
Proof.
  revert D. induction L as [|l L IH]; intros D; [done|]. cbn [walk].
  case_decide; [specialize (IH (D ∖ {[ids l]}))|specialize (IH D)];
    destruct (walk _ L); cbn in *; by rewrite IH.
Qed.

Lemma stream_upload_run snap L c :
  stream_snap snap → (∀ l, l ∈ L → is_Some (snap_events snap !! l)) → stream_ok snap (owner c) →
  ∃ c', for_each (upload_event cfg (snap_db snap)) L c = (Ok tt, c') ∧ same_link c c' ∧
    stream_ok snap (owner c') ∧ currEventId (owner c') = List.last L (currEventId (owner c)) ∧
    conn_calls c' = conn_calls c ++ sends (currWs c) (messages (walk (downloadedIds (owner c)) L).1) ∧
    downloadedIds (owner c') = (walk (downloadedIds (owner c)) L).2 ∧
    stream_plugin (owner c') = stream_plugin (owner c).
Proof.
  intros Hs. revert c. induction L as [|l L IH]; intros c HL Hok.
  { exists c. split_and!; try done. destruct (currWs c); by rewrite app_nil_r. }
  destruct (HL l ltac:(constructor)) as [e He].
  destruct (upload_event_run snap l e c Hs He Hok) as (c1 & E1 & [Hw1 Hsd1] & Hok1 & Hc1 & Hcalls1 & HD1 & Hp1).
  destruct (IH c1) as (c2 & E2 & [Hw2 Hsd2] & Hok2 & Hc2 & Hcalls2 & HD2 & Hp2); [|done|].
  { intros l' Hl'. apply HL. by constructor 2. }
  exists c2. cbn [for_each]. unfold mbind, SE_bind. rewrite E1. rewrite walk_cons. cbn [fst snd].
  split; [done|]. split; [split; congruence|]. split; [done|].
  split; [by rewrite Hc2, Hc1, last_shift|].
  split; [|by rewrite HD2, HD1, Hp2, Hp1].
  rewrite Hcalls2, Hcalls1, Hw1, HD1, <-app_assoc, messages_app. f_equal.
  destruct (currWs c); cbn [sends]; by rewrite ?fmap_app.
Qed.

(** The filter that matches everything. *)
Definition everything : list NostrFilter := [filter_default].

Lemma everything_ready : Forall filter_wf everything.
Proof. constructor; [|constructor]. by split. Qed.

Lemma wanted_everything s l : stream_snap s → is_Some (snap_events s !! l) → wanted s everything l = true.
Proof.
  intros [Hs _] [e He]. unfold wanted. rewrite He.
  destruct (event_buf_ok cfg text s l e Hs He) as [_ Hwf].
  destruct (group_doesMatch_sem everything e Hwf everything_ready) as (b & -> & Hb).
  apply Hb. exists filter_default. split; [constructor|by apply filter_sem_default].
Qed.

Lemma visited_everything s from : stream_snap s → (from ≤ latest s)%N →
  foreach_Event_from (snap_db s) (u64_add from 1) = due_ids s everything from (latest s).
Proof.
  intros Hs Hle. destruct (visited_spec cfg text s from (ss_ok _ Hs) Hle) as (_ & Hin & <-); [|done].
  symmetry. apply filter_all. intros l [Hlt Hl]%Hin. split; [done|]. by apply wanted_everything.
Qed.

Lemma trigger_run snap c :
  dir ≠ #"down" → shutdown c = false → stream_snap snap → stream_ok snap (owner c) →
  ∃ c', ws_asyncCb (stream_callbacks cfg from_hex_default url dir (snap_db snap)) c = (Ok tt, c') ∧
    same_link c c' ∧ stream_ok snap (owner c') ∧ currEventId (owner c') = latest snap ∧
    let vis := walk (downloadedIds (owner c)) (due_ids snap everything (currEventId (owner c)) (latest snap)) in
    conn_calls c' = conn_calls c ++ sends (currWs c) (messages vis.1) ∧ downloadedIds (owner c') = vis.2 ∧
    stream_plugin (owner c') = stream_plugin (owner c).
Proof.
  intros Hdir Hsd Hs Hok. pose proof (so_curr _ _ Hok) as Hle.
  destruct (visited_spec cfg text snap _ (ss_ok _ Hs) Hle) as (_ & Hin & _).
  pose proof (visited_last cfg text snap _ (ss_ok _ Hs) Hle) as Hlast.
  pose proof (visited_everything snap _ Hs Hle) as <-. set (L := foreach_Event_from _ _) in *.
  destruct (stream_upload_run snap L c Hs) as (c' & E & Hl & Hok' & Hc & Hcalls & HD & Hp); [|done|].
  { intros l Hl. by apply Hin. }
  exists c'. split; [|split_and!; congruence || done].
  unfold ws_asyncCb, mbind, SE_bind, gets. rewrite Hsd. cbn [onTrigger stream_callbacks logged].
  unfold try_catch, stream_onTrigger. rewrite decide_False by done.
  unfold mbind, SE_bind, gets. fold L. by rewrite E.
Qed.

(** ** One message *)

(** The id an event names. *)
Definition named (ev : value) : list bytes :=
  match at_key ev #"id" with
  | Ok (JString h) =>
      match from_hex_default h with
      | Ok i => if decide (length i = 32) then [i] else []
      | Throw _ => []
      end
  | _ => []
  end.

(** What a message downloads, with the plugin [pl], which it may change: the
    event of an EVENT message that the direction asks for and the plugin
    accepts. *)
Definition heard (pl : policy) (msg : bytes) : list bytes * policy :=
  match json_from_string msg with
  | Ok (JArray (JString cmd :: _ :: ev :: _)) =>
      if decide (cmd = #"EVENT" ∧ dir ∈ [ #"down"; #"both"]) then
        let '((res, _), pl') := policy_accept (relay__writePolicy__plugin cfg) ev SourceStream url pl in
        (if decide (res = Accept) then named ev else [], pl')
      else ([], pl)
  | _ => ([], pl)
  end.

Record hears (msg : bytes) (c c' : WSConnection stream) : Prop := {
  hr_link : same_link c c';
  hr_calls : conn_calls c' = conn_calls c;
  hr_curr : currEventId (owner c') = currEventId (owner c);
  hr_decomp : stream_decomp (owner c') = stream_decomp (owner c);
  hr_got : downloadedIds (owner c') =
    list_to_set (heard (stream_plugin (owner c)) msg).1 ∪ downloadedIds (owner c);
  hr_plugin : stream_plugin (owner c') = (heard (stream_plugin (owner c)) msg).2;
}.

Lemma hears_nothing msg c : heard (stream_plugin (owner c)) msg = ([], stream_plugin (owner c)) →
  hears msg c c.
Proof. intros E. split; rewrite ?E; try done. simpl. by rewrite union_empty_l_L. Qed.

Lemma event_id_named ev : named ev = match event_id from_hex_default ev with Ok i => [i] | Throw _ => [] end.
Proof.
  unfold named, event_id. destruct (at_key ev _) as [[]|]; try done. simpl.
  destruct (from_hex_default s) as [i|]; [|done]. simpl. unfold Bytes32, throw_if.
  case_decide as Hd; [by rewrite Hd|]. destruct (Nat.eqb_spec (length i) 32); done.
Qed.

Lemma download_event_run ev c r c' :
  download cfg from_hex_default url ev c = (r, c') →
  let '((res, _), pl) :=
    policy_accept (relay__writePolicy__plugin cfg) ev SourceStream url (stream_plugin (owner c)) in
  same_link c c' ∧ conn_calls c' = conn_calls c ∧ currEventId (owner c') = currEventId (owner c) ∧
  stream_decomp (owner c') = stream_decomp (owner c) ∧
  downloadedIds (owner c') =
    list_to_set (if decide (res = Accept) then named ev else []) ∪ downloadedIds (owner c) ∧
  stream_plugin (owner c') = pl.
Proof.
  unfold download, mbind, SE_bind, gets.
  destruct (policy_accept _ _ _ _ _) as [[res okMsg] pl]. case_decide as Hres.
  - rewrite event_id_named. destruct (event_id from_hex_default ev) as [i|e];
      intros [= <- <-]; simpl; by rewrite ?union_empty_l_L, ?union_empty_r_L.
  - simpl. rewrite union_empty_l_L. destruct (length okMsg =? 0); [by intros [= <- <-]|].
    unfold lift. destruct (at_key ev _) as [v|]; [destruct (get_string v)|]; by intros [= <- <-].
Qed.

Lemma heard_array pl msg cmd x rest : json_from_string msg = Ok (JArray (cmd :: x :: rest)) →
  heard pl msg =
    if is_cmd cmd #"EVENT" && is_down dir then
      match rest with
      | [] => ([], pl)
      | ev :: _ =>
          let '((res, _), pl') := policy_accept (relay__writePolicy__plugin cfg) ev SourceStream url pl in
          (if decide (res = Accept) then named ev else [], pl')
      end
    else ([], pl).
Proof.
  unfold heard, is_down, is_cmd. intros ->. destruct cmd; try done. destruct rest as [|ev rest].
  { by destruct (_ && _). }
  case_decide as Hd.
  - destruct Hd as [-> Hdir]. by rewrite !bool_decide_eq_true_2.
  - destruct (bool_decide (s = _)) eqn:E1; [|done]. destruct (bool_decide (dir ∈ _)) eqn:E2; [|done].
    apply bool_decide_eq_true_1 in E1, E2. naive_solver.
Qed.

Lemma hears_onMessage msg c r c' :
  stream_onMessage cfg from_hex_default url dir msg c = (r, c') → hears msg c c'.
Proof.
  intros E. unfold stream_onMessage, mbind at 1, SE_bind at 1, lift at 1 in E.
  assert (∀ r1, (r1, c) = (r, c') →
    heard (stream_plugin (owner c)) msg = ([], stream_plugin (owner c)) → hears msg c c') as Hsame.
  { intros r1 [= _ <-]. apply hears_nothing. }
  destruct (json_from_string msg) as [v|e] eqn:Hj.
  2:{ apply (Hsame _ E). unfold heard. by rewrite Hj. }
  assert (is_array v = false → heard (stream_plugin (owner c)) msg = ([], stream_plugin (owner c))) as Hna.
  { unfold heard. rewrite Hj. by destruct v. }
  destruct (is_array v) eqn:Hv; [|by apply (Hsame _ E), Hna]. destruct v as [| | | | | |arr|]; try done.
  unfold mbind at 1, SE_bind at 1, lift at 1 in E. cbn [get_array] in E.
  destruct arr as [|cmd [|x rest]]; try (apply (Hsame _ E); unfold heard; rewrite Hj; by destruct_or?).
  { apply (Hsame _ E). unfold heard. rewrite Hj. by destruct cmd. }
  unfold mbind at 1, SE_bind at 1, lift at 1, throw_if at 1 in E. cbn [length Nat.ltb Nat.leb] in E.
  unfold mbind at 1, SE_bind at 1, lift at 1 in E.
  cbn [at_pos get_array mbind result_bind lookup list_lookup] in E.
  pose proof (heard_array (stream_plugin (owner c)) msg cmd x rest Hj) as Hh.
  assert (∀ a : bytes, a ≠ #"EVENT" → is_cmd cmd a = true → is_cmd cmd #"EVENT" = false) as Hdiff.
  { intros a Ha. destruct cmd; try done. simpl. intros ->%bool_decide_eq_true_1. by apply bool_decide_eq_false_2. }
  destruct (is_cmd cmd #"EOSE") eqn:E1.
  { rewrite (Hdiff #"EOSE" ltac:(done) E1) in Hh. exact (Hsame _ E Hh). }
  destruct (is_cmd cmd #"NOTICE") eqn:E2.
  { rewrite (Hdiff #"NOTICE" ltac:(done) E2) in Hh. exact (Hsame _ E Hh). }
  destruct (is_cmd cmd #"OK") eqn:E3.
  { rewrite (Hdiff #"OK" ltac:(done) E3) in Hh. unfold mbind, SE_bind, lift in E.
    destruct (rest !! 0) as [v|]; [destruct (get_boolean v)|]; exact (Hsame _ E Hh). }
  destruct (is_cmd cmd #"EVENT") eqn:E4; [|exact (Hsame _ E Hh)].
  destruct (is_down dir) eqn:E5; [|exact (Hsame _ E Hh)].
  destruct rest as [|ev rest]; [exact (Hsame _ E Hh)|].
  unfold mbind at 1, SE_bind at 1, lift at 1, throw_if at 1 in E. cbn [length Nat.ltb Nat.leb] in E.
  unfold mbind at 1, SE_bind at 1, lift at 1 in E. cbn [lookup list_lookup] in E.
  apply download_event_run in E. cbn [andb] in Hh.
  destruct (policy_accept _ _ _ _ _) as [[res okMsg] pl].
  destruct E as (? & ? & ? & ? & ? & ?). split; try done; by rewrite Hh.
Qed.

Lemma stream_at_pos_caught v i : only_caught (at_pos v i).
Proof. unfold at_pos. prove_caught. Qed.

Lemma stream_get_boolean_caught v : only_caught (get_boolean v).
Proof. unfold get_boolean. prove_caught. Qed.

Lemma event_id_caught evJson : only_caught (event_id from_hex_default evJson).
Proof. unfold event_id, Bytes32. pose proof from_hex_caught. prove_caught. Qed.

Lemma onMessage_caught msg : throws_only_caught (stream_onMessage cfg from_hex_default url dir msg).
Proof.
  pose proof stream_at_pos_caught. pose proof stream_get_boolean_caught. pose proof event_id_caught.
  unfold stream_onMessage. apply caught_bind; [apply caught_lifted; prove_caught|intros v].
  case_match; [|auto with caught]. repeat (apply caught_bind; [apply caught_lifted; prove_caught|intros ?]).
  repeat case_match; try (by auto with caught);
    repeat (apply caught_bind; [apply caught_lifted; prove_caught|intros ?]); try by auto with caught.
  unfold download, update, set_owner. apply caught_bind; [auto with caught|intros o].
  destruct (policy_accept _ _ _ _ _) as [[res okMsg] pl]. prove_steps; apply caught_lifted; prove_caught.
Qed.

Lemma message_run d msg c :
  ∃ c', ws_onMessage2 (stream_callbacks cfg from_hex_default url dir d) msg c = (Ok tt, c') ∧
    hears msg c c'.
Proof.
  unfold ws_onMessage2. cbn [onMessage stream_callbacks fmap option_fmap option_map logged].
  unfold try_catch. destruct (stream_onMessage cfg from_hex_default url dir msg c) as [r c'] eqn:E.
  exists c'. split; [|by eapply hears_onMessage]. destruct r as [[]|e]; [done|].
  by rewrite (onMessage_caught msg c e c' E).
Qed.

(** ** Runs *)

Inductive stream_step := Triggered | Heard (msg : bytes).

Definition do_step (p : snapshot * stream_step) : SE (WSConnection stream) () :=
  let cb := stream_callbacks cfg from_hex_default url dir (snap_db p.1) in
  match p.2 with
  | Triggered => ws_asyncCb cb
  | Heard msg => ws_onMessage2 cb msg
  end.

(** What happens in a run: an event is downloaded, or a stored one is visited,
    and sent or not. *)
Inductive entry := Got (i : bytes) | Visited (l : N) (sent : bool).

Definition got (T : list entry) : list bytes :=
  omap (λ x, match x with Got i => Some i | _ => None end) T.

Definition visits (T : list entry) : list (N * bool) :=
  omap (λ x, match x with Visited l b => Some (l, b) | _ => None end) T.

(** What each step downloads. *)
Fixpoint downloads (pl : policy) (steps : list (snapshot * stream_step)) : list (list bytes) :=
  match steps with
  | [] => []
  | (_, Triggered) :: steps => [] :: downloads pl steps
  | (_, Heard msg) :: steps => (heard pl msg).1 :: downloads (heard pl msg).2 steps
  end.

(** No event of the id [i] is visited in [T]. *)
Definition unseen (T : list entry) (i : bytes) : Prop := ∀ l b, Visited l b ∈ T → ids l ≠ i.

(** After [T], an event with the id [i] is not sent: such an event was
    downloaded, or [i] was marked at the start, and none was visited since. *)
Definition owed (D : gset bytes) (T : list entry) (i : bytes) : Prop :=
  (∃ a b, T = a ++ Got i :: b ∧ unseen b i) ∨ i ∈ D ∧ unseen T i.

(** Exactly what is owed is not sent. *)
Definition no_echo (D : gset bytes) (T0 T : list entry) : Prop :=
  ∀ a l b c, T = a ++ Visited l b :: c → b = false ↔ owed D (T0 ++ a) (ids l).

Lemma unseen_snoc T x i : unseen (T ++ [x]) i ↔
  unseen T i ∧ (∀ l b, x = Visited l b → ids l ≠ i).
Proof.
  unfold unseen. setoid_rewrite elem_of_app. setoid_rewrite list_elem_of_singleton. naive_solver.
Qed.

Lemma owed_got D T j i : owed D (T ++ [Got j]) i ↔ i = j ∨ owed D T i.
Proof.
  unfold owed. rewrite unseen_snoc. split.
  - intros [(a & b & E & Hb)|[Hi [Hu _]]]; [|by right; right].
    destruct b as [|x b _] using rev_ind.
    + apply app_inj_tail in E as [_ [= ->]]. by left.
    + change (a ++ Got i :: b ++ [x]) with (a ++ (Got i :: b) ++ [x]) in E. rewrite app_assoc in E.
      apply app_inj_tail in E as [-> _]. apply unseen_snoc in Hb as [Hb _]. right. left. by exists a, b.
  - intros [->|[(a & b & -> & Hb)|[Hi Hu]]].
    + left. exists T, []. split; [done|]. by intros l b ?%not_elem_of_nil.
    + left. exists a, (b ++ [Got j]). rewrite <-app_assoc. split; [done|]. by apply unseen_snoc.
    + right. split; [done|]. by split.
Qed.

Lemma owed_visited D T l b i : owed D (T ++ [Visited l b]) i ↔ ids l ≠ i ∧ owed D T i.
Proof.
  unfold owed. rewrite unseen_snoc. split.
  - intros [(a & c & E & Hc)|[Hi [Hu Hl]]]; [|split; [by eapply Hl|by right]].
    destruct c as [|x c _] using rev_ind; [by apply app_inj_tail in E as [_ [=]]|].
    change (a ++ Got i :: c ++ [x]) with (a ++ (Got i :: c) ++ [x]) in E. rewrite app_assoc in E.
    apply app_inj_tail in E as [-> <-]. apply unseen_snoc in Hc as [Hc Hl].
    split; [by eapply Hl|]. left. by exists a, c.
  - intros [Hl [(a & c & -> & Hc)|[Hi Hu]]].
    + left. exists a, (c ++ [Visited l b]). rewrite <-app_assoc. split; [done|]. apply unseen_snoc.
      split; [done|]. by intros l' b' [= <- _].
    + right. split_and!; try done. by intros l' b' [= <- _].
Qed.

Lemma owed_nil D i : owed D [] i ↔ i ∈ D.
Proof.
  unfold owed, unseen. split; [|by right; split; [|intros ? ? ?%not_elem_of_nil]].
  intros [([] & ? & ? & _)|[? _]]; done.
Qed.

Lemma no_echo_nil D T0 : no_echo D T0 [].
Proof. by intros [] ? ? ?. Qed.

Lemma no_echo_cons D T0 x T :
  (∀ l b, x = Visited l b → b = false ↔ owed D T0 (ids l)) → no_echo D (T0 ++ [x]) T →
  no_echo D T0 (x :: T).
Proof.
  intros Hx HT [|y a] l b c [= E1 E2].
  - rewrite app_nil_r. by apply Hx.
  - subst y. replace (T0 ++ x :: a) with ((T0 ++ [x]) ++ a) by (by rewrite <-app_assoc).
    by apply (HT a l b c).
Qed.

Lemma no_echo_app D T0 T1 T2 : no_echo D T0 T1 → no_echo D (T0 ++ T1) T2 → no_echo D T0 (T1 ++ T2).
Proof.
  intros H1' H2' a l b c E. apply app_eq_inv in E as [(k & -> & E)|(k & -> & E)].
  - destruct k as [|q k]; [|injection E as <- ->; by apply (H1' a l b k)].
    rewrite app_nil_r in *. specialize (H2' [] l b c (eq_sym E)). by rewrite app_nil_r in H2'.
  - rewrite app_assoc. by apply (H2' k l b c).
Qed.

Definition visited (vis : list (N * bool)) : list entry := (λ p : N * bool, Visited p.1 p.2) <$> vis.

Lemma walk_owed D0 T0 D L : (∀ i, i ∈ D ↔ owed D0 T0 i) →
  no_echo D0 T0 (visited (walk D L).1) ∧
  ∀ i, i ∈ (walk D L).2 ↔ owed D0 (T0 ++ visited (walk D L).1) i.
Proof.
  revert T0 D. induction L as [|l L IH]; intros T0 D HD.
  { split; [apply no_echo_nil|]. intros i. simpl. by rewrite app_nil_r. }
  assert (∀ b, (b = true → ids l ∉ D) → (b = false → ids l ∈ D) →
    let D' := if b then D else D ∖ {[ids l]} in
    no_echo D0 T0 (visited ((l, b) :: (walk D' L).1)) ∧
    ∀ i, i ∈ (walk D' L).2 ↔ owed D0 (T0 ++ visited ((l, b) :: (walk D' L).1)) i) as Hstep.
  { intros b Hb1 Hb2. cbv zeta.
    destruct (IH (T0 ++ [Visited l b]) (if b then D else D ∖ {[ids l]})) as [Hn Hd].
    { intros i. rewrite owed_visited, <-HD. destruct b; [specialize (Hb1 eq_refl)|]; set_solver. }
    split.
    - apply no_echo_cons; [|done]. intros l' b' [= <- <-]. rewrite <-HD.
      destruct b; [specialize (Hb1 eq_refl)|specialize (Hb2 eq_refl)]; naive_solver.
    - intros i. rewrite Hd, <-app_assoc. done. }
  cbn [walk]. case_decide as Hl.
  - specialize (Hstep false ltac:(done) ltac:(done)). cbv zeta in Hstep. by destruct (walk _ L).
  - specialize (Hstep true ltac:(done) ltac:(done)). cbv zeta in Hstep. by destruct (walk _ L).
Qed.

Lemma got_owed D0 T0 D X : (∀ i, i ∈ D ↔ owed D0 T0 i) →
  no_echo D0 T0 (Got <$> X) ∧ ∀ i, i ∈ (list_to_set X ∪ D : gset bytes) ↔ owed D0 (T0 ++ (Got <$> X)) i.
Proof.
  revert T0 D. induction X as [|x X IH]; intros T0 D HD.
  { split; [apply no_echo_nil|]. intros i. simpl. rewrite app_nil_r, <-HD. set_solver. }
  destruct (IH (T0 ++ [Got x]) ({[x]} ∪ D)) as [Hn Hd].
  { intros i. rewrite owed_got, <-HD. set_solver. }
  split; [by apply no_echo_cons|]. intros i. rewrite fmap_cons.
  replace (T0 ++ Got x :: (Got <$> X)) with ((T0 ++ [Got x]) ++ (Got <$> X)) by (by rewrite <-app_assoc).
  rewrite <-Hd. set_solver.
Qed.

Lemma visits_visited vis : visits (visited vis) = vis ∧ got (visited vis) = [].
Proof. induction vis as [|[l b] vis [IH1 IH2]]; [done|]. split; simpl; [by rewrite IH1|exact IH2]. Qed.

Lemma visits_got X : visits (Got <$> X) = [] ∧ got (Got <$> X) = X.
Proof. induction X as [|x X [IH1 IH2]]; [done|]. split; simpl; [exact IH1|f_equal; exact IH2]. Qed.

Lemma visits_app a b : visits (a ++ b) = visits a ++ visits b.
Proof. apply omap_app. Qed.

Lemma grow_ok snap0 snap o : grows snap0 snap → stream_ok snap0 o → stream_ok snap o.
Proof.
  intros Hg [Hc Hl]. split; [by apply (grows_caches _ _ _ Hg)|]. pose proof (gr_latest _ _ Hg). lia.
Qed.

(** One step. *)
Lemma stream_step_run snap m c w :
  dir ≠ #"down" → shutdown c = false → currWs c = Some w → stream_snap snap → stream_ok snap (owner c) →
  ∃ c' T, do_step (snap, m) c = (Ok tt, c') ∧ same_link c c' ∧ stream_ok snap (owner c') ∧
    (currEventId (owner c) ≤ currEventId (owner c'))%N ∧
    (m = Triggered → currEventId (owner c') = latest snap) ∧
    conn_calls c' = conn_calls c ++ sends (Some w) (messages (visits T)) ∧
    (visits T).*1 = due_ids snap everything (currEventId (owner c)) (currEventId (owner c')) ∧
    (m ≠ Triggered → visits T = []) ∧
    (∀ steps, downloads (stream_plugin (owner c)) ((snap, m) :: steps) =
       got T :: downloads (stream_plugin (owner c')) steps) ∧
    (∀ D0 T0, (∀ i, i ∈ downloadedIds (owner c) ↔ owed D0 T0 i) →
       no_echo D0 T0 T ∧ ∀ i, i ∈ downloadedIds (owner c') ↔ owed D0 (T0 ++ T) i).
Proof.
  intros Hdir Hsd Hw Hs Hok. pose proof (so_curr _ _ Hok). destruct m as [|msg].
  - destruct (trigger_run snap c Hdir Hsd Hs Hok) as (c' & E & Hl & Hok' & Hc & Hcalls & HD & Hp).
    set (L := due_ids _ _ _ _) in *.
    destruct (visits_visited (walk (downloadedIds (owner c)) L).1) as [Hv Hg].
    exists c', (visited (walk (downloadedIds (owner c)) L).1). rewrite Hw in Hcalls. rewrite HD, Hc, Hv, Hg, Hp.
    split_and!; try done; [apply walk_fst|]; intros D0 T0. apply walk_owed.
  - destruct (message_run (snap_db snap) msg c) as (c' & E & [Hl Hcalls Hc Hd Hgot Hp]).
    destruct (visits_got (heard (stream_plugin (owner c)) msg).1) as [Hv Hg].
    exists c', (Got <$> (heard (stream_plugin (owner c)) msg).1). rewrite Hc, Hv, Hg, Hp, Hgot.
    split_and!; try done.
    + destruct Hok. split; [by rewrite Hd|by rewrite Hc].
    + by rewrite Hcalls, app_nil_r.
    + by rewrite (due_ids_empty cfg text) by (done || apply Hs).
    + intros D0 T0. apply got_owed.
Qed.

(** C16: while the connection is up, the stream command deals with every new
    event exactly once and in levId order.  A run is the traces [Ts] of its
    steps, what each downloads and visits.  What a step downloads is the event
    the other relay's message names, when the plugin accepts it.  Every event
    stored after the start of the run is visited, if it is still there at the
    last trigger, and the texts of those that are not held back go out; and a
    visited event is held back exactly when an event of its id was downloaded
    before, or was marked at the start, and none was visited since: what is
    downloaded is never sent back.  No message can stop this. *)
Theorem stream_uploads snap0 steps c w :
  dir ≠ #"down" → shutdown c = false → currWs c = Some w →
  snap_ok cfg text snap0 → stream_ok snap0 (owner c) → follows stream_snap snap0 steps →
  ∃ c' Ts, for_each do_step steps c = (Ok tt, c') ∧
    got <$> Ts = downloads (stream_plugin (owner c)) steps ∧
    Forall2 (λ p T, p.2 ≠ Triggered → visits T = []) steps Ts ∧
    conn_calls c' = conn_calls c ++ (SendText w <$> messages (visits (mjoin Ts))) ∧
    delivers (steps.*1) (last_snap snap0 steps) everything
      (currEventId (owner c)) (currEventId (owner c')) (visits (mjoin Ts)).*1 ∧
    (∀ p, last steps = Some p → p.2 = Triggered → currEventId (owner c') = latest p.1) ∧
    no_echo (downloadedIds (owner c)) [] (mjoin Ts).
Proof.
  intros Hdir Hsd Hw Hs0 Hok Hst.
  enough (∀ D0 T0, (∀ i, i ∈ downloadedIds (owner c) ↔ owed D0 T0 i) →
    ∃ c' Ts, for_each do_step steps c = (Ok tt, c') ∧
    (currEventId (owner c) ≤ currEventId (owner c'))%N ∧
    got <$> Ts = downloads (stream_plugin (owner c)) steps ∧
    Forall2 (λ p T, p.2 ≠ Triggered → visits T = []) steps Ts ∧
    conn_calls c' = conn_calls c ++ (SendText w <$> messages (visits (mjoin Ts))) ∧
    delivers (steps.*1) (last_snap snap0 steps) everything
      (currEventId (owner c)) (currEventId (owner c')) (visits (mjoin Ts)).*1 ∧
    (∀ p, last steps = Some p → p.2 = Triggered → currEventId (owner c') = latest p.1) ∧
    no_echo D0 T0 (mjoin Ts)) as Hall.
  { destruct (Hall (downloadedIds (owner c)) []) as (c' & Ts & ? & _ & ?); [|by exists c', Ts].
    intros i. by rewrite owed_nil. }
  revert snap0 c Hsd Hw Hs0 Hok Hst. induction steps as [|[snap m] steps IH];
    intros snap0 c Hsd Hw Hs0 Hok Hst D0 T0 HD.
  { exists c, []. split_and!; try done; [by rewrite app_nil_r|by apply delivers_nil|apply no_echo_nil]. }
  destruct Hst as (Hs & Hg & Hst). pose proof (grow_ok _ _ _ Hg Hok) as Hok1.
  destruct (stream_step_run snap m c w Hdir Hsd Hw Hs Hok1)
    as (c1 & T1 & E1 & [Hl1 Hsd1] & Hok2 & Hle1 & Htr & Hcalls1 & Hvis & Hq1 & Hgot1 & Hstep).
  destruct (Hstep D0 T0 HD) as [Hne1 HD1].
  destruct (IH snap c1 ltac:(congruence) ltac:(congruence) (ss_ok _ Hs) Hok2 Hst D0 _ HD1)
    as (c' & Ts & E2 & Hle2 & Hgot2 & Hquiet & Hcalls2 & Hdel & Hlast & Hne2).
  exists c', (T1 :: Ts). cbn [for_each mjoin list_join]. rewrite visits_app.
  unfold mbind, SE_bind. rewrite E1. split; [done|]. split; [lia|].
  split; [by rewrite Hgot1, <-Hgot2|]. split; [by constructor|].
  split; [by rewrite Hcalls2, Hcalls1, messages_app, fmap_app, <-app_assoc|].
  split.
  { rewrite last_snap_cons, !fmap_app, fmap_cons, Hvis. cbn [fst].
    apply (delivers_app cfg text); try done; [apply Hs| |apply Hok2].
    apply (follows_grows stream_snap); [intros s [[] _]; done|apply Hs|done]. }
  split.
  { intros p Hp Hpt. rewrite last_cons in Hp. destruct (last steps) as [q|] eqn:Hq.
    - injection Hp as ->. by apply Hlast.
    - injection Hp as <-. apply last_None in Hq. subst steps. injection E2 as <-. by apply Htr. }
  by apply no_echo_app.
Qed.

Lemma connected_run d w addr c :
  shutdown c = false → currWs c = None →
  ∃ c' hello, ws_onConnection (stream_callbacks cfg from_hex_default url dir d) w addr c = (Ok tt, c') ∧
    currWs c' = Some w ∧ shutdown c' = false ∧ owner c' = owner c ∧
    conn_calls c' = conn_calls c ++ SetKeepalive w :: sends (Some w) hello.
Proof.
  intros Hsd Hw. destruct c as [hg ht cw sd ra cs o]. cbn in Hsd, Hw. subst sd cw.
  unfold ws_onConnection, conn_make, set_currWs, mbind, SE_bind, gets, modify. cbn.
  unfold try_catch, stream_onConnect. destruct (is_down dir).
  - eexists _, [json_to_string _]. split; [reflexivity|]. cbn. by rewrite <-app_assoc.
  - eexists _, []. split; [reflexivity|]. done.
Qed.

(** What is stored while the connection is down is never uploaded.  A
    trigger without a connection passes over the new events and moves on behind
    them; after the reconnection, whatever happens, only later events are
    sent. *)
Theorem stream_offline_loss snap0 steps c w addr :
  dir ≠ #"down" → shutdown c = false → currWs c = None →
  stream_snap snap0 → stream_ok snap0 (owner c) → follows stream_snap snap0 steps →
  ∃ c1 c2 c3 vis hello,
    ws_asyncCb (stream_callbacks cfg from_hex_default url dir (snap_db snap0)) c = (Ok tt, c1) ∧
    ws_onConnection (stream_callbacks cfg from_hex_default url dir (snap_db snap0)) w addr c1 = (Ok tt, c2) ∧
    for_each do_step steps c2 = (Ok tt, c3) ∧
    conn_calls c3 = conn_calls c ++ (SetKeepalive w :: sends (Some w) hello) ++ (SendText w <$> messages vis) ∧
    ∀ p, p ∈ vis → (latest snap0 < p.1)%N.
Proof.
  intros Hdir Hsd Hw Hs Hok Hst.
  destruct (trigger_run snap0 c Hdir Hsd Hs Hok) as (c1 & E1 & [Hl1 Hsd1] & Hok1 & Hc1 & Hcalls1 & _).
  destruct (connected_run (snap_db snap0) w addr c1) as (c2 & hello & E2 & Hw2 & Hsd2 & Ho2 & Hcalls2);
    [congruence..|].
  enough (∃ c3 vis, for_each do_step steps c2 = (Ok tt, c3) ∧
    conn_calls c3 = conn_calls c2 ++ (SendText w <$> messages vis) ∧
    ∀ p, p ∈ vis → (latest snap0 < p.1)%N) as (c3 & vis & E3 & Hcalls3 & Hvis).
  { exists c1, c2, c3, vis, hello. split_and!; try done.
    rewrite Hcalls3, Hcalls2, Hcalls1, Hw. by rewrite <-!app_assoc. }
  assert (stream_ok snap0 (owner c2)) as Hok2 by by rewrite Ho2.
  assert ((latest snap0 ≤ currEventId (owner c2))%N) as Hlo by by rewrite Ho2, Hc1.
  clear E1 E2 Hcalls1 Hcalls2 Ho2 Hc1 Hl1 Hsd1 Hok1. revert c2 Hw2 Hsd2 Hok2 Hlo.
  assert (∀ s0, follows stream_snap s0 steps → ∀ c2, currWs c2 = Some w → shutdown c2 = false →
    stream_ok s0 (owner c2) → (latest snap0 ≤ currEventId (owner c2))%N →
    ∃ c3 vis, for_each do_step steps c2 = (Ok tt, c3) ∧
      conn_calls c3 = conn_calls c2 ++ (SendText w <$> messages vis) ∧
      ∀ p, p ∈ vis → (latest snap0 < p.1)%N) as Hrun; [|intros c2; by apply Hrun].
  clear Hst. induction steps as [|[s m] steps IH]; intros s0 Hst c2 Hw2 Hsd2 Hok2 Hlo.
  { exists c2, []. split_and!; try done; [by rewrite app_nil_r|by intros p ?%elem_of_nil]. }
  destruct Hst as (Hs' & Hg & Hst). pose proof (grow_ok _ _ _ Hg Hok2) as Hok3.
  destruct (stream_step_run s m c2 w Hdir Hsd2 Hw2 Hs' Hok3)
    as (c3 & T1 & E1 & [Hl3 Hsd3] & Hok4 & Hle & _ & Hcalls3 & Hvis & _).
  destruct (IH s Hst c3) as (c4 & v2 & E2 & Hcalls4 & Hv2); [congruence|congruence|done|lia|].
  exists c4, (visits T1 ++ v2). cbn [for_each]. unfold mbind, SE_bind. rewrite E1. split; [done|].
  split; [by rewrite Hcalls4, Hcalls3, messages_app, fmap_app, <-app_assoc|].
  intros p [Hp|Hp]%elem_of_app; [|by apply Hv2].
  assert (p.1 ∈ (visits T1).*1) as Hp1 by by apply list_elem_of_fmap; exists p.
  rewrite Hvis in Hp1. apply (elem_of_due_ids cfg text) in Hp1; [lia|apply Hs'].
Qed.
End stream.
