(* ===== verification/Router.v ===== *)
(** The router command ([apps/mesh/cmd_router.cpp]): streaming events to and
    from other relays.

    A stream group is a record; its connections are a map from urls, visited in
    the order of their keys as [std::map] does.  A websocket is a number, and
    what the router does to the outside is a list of [router_call]s.  Handlers
    without a [try] block let exceptions out into the event loop, which ends
    the process. *)

From S2P Require Import Prelude Bytes Json Hex PackedEvent FilterSets Filters Config EventParse.
From S2P Require Import Db Payload Subscription StateExn Plugin ReqMonitor Sync.

Record ConnDesignator := mk_designator { desig_group : bytes; desig_url : bytes }.

Inductive RouterEvent := ConfigFileChange | DBChange | ReconnectCron.

Inductive router_call :=
  | HubConnect (groupName url : bytes) (timeoutMs : N)
  | WsSend (ws : N) (msg : bytes)
  | WsClose (ws : N)
  | WriterWrite (eventJson : value).

Record Connection := mk_connection { ws : option N; started : N }.

(** [StreamGroup::StreamGroup::Connection::~Connection] *)
Definition destroy_connection (c : Connection) : list router_call :=
  match ws c with Some w => [WsClose w] | None => [] end.

(** The urls of a map in ascending order. *)
Definition sorted_urls {V} (m : gmap bytes V) : list bytes := merge_sort bytes_le (map_to_list m).*1.

Section router.
Context `{!Hex, !NativeU64, !GolpeKeys, !Env, !JsonParser, !EventLibs, !Zstd, !WritePolicy}.
Context (cfg : Config).
Variable curr_time_us : nat → N.

Record StreamGroup := mk_group {
  groupName : bytes;
  dir : bytes;
  filterStr : bytes;
  pluginDownCmd : bytes;
  pluginUpCmd : bytes;
  urls : list bytes;
  conns : gmap bytes Connection;
  filter_ : value;
  filterCompiled_ : list NostrFilter;
  pluginDown : policy;
  pluginUp : policy;
}.

(** A fresh plugin. *)
Variable new_plugin : policy.

Definition new_group (name : bytes) : StreamGroup :=
  mk_group name [] [] [] [] [] ∅ JNull [] new_plugin new_plugin.

(** A group's method runs on the group, the calls made and the clock. *)
Record group_state := mk_gs { grp : StreamGroup; made : list router_call; gtick : nat }.

Definition set_grp (f : StreamGroup → StreamGroup) : SE group_state () :=
  modify (λ s, mk_gs (f (grp s)) (made s) (gtick s)).

Definition make (c : router_call) : SE group_state () :=
  modify (λ s, mk_gs (grp s) (made s ++ [c]) (gtick s)).

Definition gclock : SE group_state N := λ s,
  (Ok (curr_time_us (gtick s)), mk_gs (grp s) (made s) (S (gtick s))).

Definition with_conns (g : StreamGroup) c := mk_group (groupName g) (dir g) (filterStr g)
  (pluginDownCmd g) (pluginUpCmd g) (urls g) c (filter_ g) (filterCompiled_ g) (pluginDown g)
  (pluginUp g).
Definition with_dir (g : StreamGroup) d := mk_group (groupName g) d (filterStr g)
  (pluginDownCmd g) (pluginUpCmd g) (urls g) (conns g) (filter_ g) (filterCompiled_ g)
  (pluginDown g) (pluginUp g).
Definition with_filter (g : StreamGroup) s v c := mk_group (groupName g) (dir g) s
  (pluginDownCmd g) (pluginUpCmd g) (urls g) (conns g) v c (pluginDown g) (pluginUp g).
Definition with_cmds (g : StreamGroup) d u := mk_group (groupName g) (dir g) (filterStr g)
  d u (urls g) (conns g) (filter_ g) (filterCompiled_ g) (pluginDown g) (pluginUp g).
Definition with_urls (g : StreamGroup) u := mk_group (groupName g) (dir g) (filterStr g)
  (pluginDownCmd g) (pluginUpCmd g) u (conns g) (filter_ g) (filterCompiled_ g)
  (pluginDown g) (pluginUp g).
Definition with_plugins (g : StreamGroup) d u := mk_group (groupName g) (dir g) (filterStr g)
  (pluginDownCmd g) (pluginUpCmd g) (urls g) (conns g) (filter_ g) (filterCompiled_ g) d u.

(** ** [StreamGroup::tryConnects] *)

Definition try_connect (timeoutUs : N) (url : bytes) : SE group_state () :=
  g ← gets grp;
  let c := default (mk_connection None 0) (conns g !! url) in
  _ ← set_grp (λ g, with_conns g (<[url := c]> (conns g)));
  match ws c with
  | Some _ => mret tt
  | None =>
      now ← gclock;
      if (u64_add (started c) (u64_wrap (timeoutUs * 2)) <? now)%N then
        _ ← make (HubConnect (groupName g) url (timeoutUs / 1000));
        now ← gclock;
        set_grp (λ g, with_conns g (<[url := mk_connection None now]> (conns g)))
      else mret tt
  end.

Definition tryConnects (timeoutUs : N) : SE group_state () :=
  us ← gets (λ s, urls (grp s));
  for_each (try_connect timeoutUs) us.

(** ** [StreamGroup::configure] *)

(** [spec.find(k)] *)
Definition spec_find (spec : value) (k : bytes) : result (option value) :=
  kvs ← get_object spec; Ok (assoc k kvs).

Definition configure_dir (spec : value) : SE group_state bool :=
  o ← lift (spec_find spec #"dir");
  match o with
  | None => raise (herr #"no dir field")
  | Some v =>
      newDir ← lift (get_string v);
      old ← gets (λ s, dir (grp s));
      _ ← set_grp (λ g, with_dir g newDir);
      mret (negb (bool_decide (newDir = old)))
  end.

Definition configure_filter (spec : value) : SE group_state bool :=
  o ← lift (spec_find spec #"filter");
  newFilter ← (match o with
               | None => mret (JObject [])
               | Some v => lift (json_from_string (json_to_string v))
               end);
  let newFilterStr := json_to_string newFilter in
  old ← gets (λ s, filterStr (grp s));
  _ ← set_grp (λ g, with_filter g newFilterStr (filter_ g) (filterCompiled_ g));
  compiled ← lift (NostrFilterGroup_unwrapped newFilter MAX_U64);
  _ ← set_grp (λ g, with_filter g newFilterStr newFilter compiled);
  mret (negb (bool_decide (newFilterStr = old))).

Definition optional_field (spec : value) (k : bytes) : result (option bytes) :=
  o ← spec_find spec k;
  match o with None => Ok None | Some v => s ← get_string v; Ok (Some s) end.

Definition configure_plugins (spec : value) : SE group_state () :=
  _ ← set_grp (λ g, with_cmds g [] []);
  d ← lift (optional_field spec #"pluginDown");
  _ ← set_grp (λ g, with_cmds g (default [] d) (pluginUpCmd g));
  u ← lift (optional_field spec #"pluginUp");
  set_grp (λ g, with_cmds g (pluginDownCmd g) (default [] u)).

Definition configure_urls (spec : value) : SE group_state () :=
  o ← lift (spec_find spec #"urls");
  match o with
  | None => raise (herr #"no urls field")
  | Some v =>
      _ ← set_grp (λ g, with_urls g []);
      l ← lift (get_array v);
      for_each (λ x, s ← lift (get_string x); set_grp (λ g, with_urls g (urls g ++ [s]))) l
  end.

(** Erasing a connection runs its destructor. *)
Definition erase_conn (url : bytes) : SE group_state () :=
  g ← gets grp;
  match conns g !! url with
  | None => mret tt
  | Some c =>
      _ ← for_each make (destroy_connection c);
      set_grp (λ g, with_conns g (delete url (conns g)))
  end.

(** Disconnect any urls that were deleted. *)
Definition drop_unneeded : SE group_state () :=
  g ← gets grp;
  for_each erase_conn (filter (λ u, u ∉ urls g) (sorted_urls (conns g))).

(** The second [close] of an open websocket is its destructor's. *)
Definition drop_all_conns : SE group_state () :=
  g ← gets grp;
  _ ← for_each (λ u, match conns g !! u with
                     | Some c => for_each make (destroy_connection c) | None => mret tt end)
        (sorted_urls (conns g));
  for_each erase_conn (sorted_urls (conns g)).

Definition configure (timeoutUs : N) (spec : value) : SE group_state () :=
  r1 ← configure_dir spec;
  r2 ← configure_filter spec;
  _ ← configure_plugins spec;
  _ ← configure_urls spec;
  _ ← drop_unneeded;
  _ ← (if r1 || r2 then drop_all_conns else mret tt);
  tryConnects timeoutUs.

(** ** Connections and events *)

(** [filterToSend["limit"] = 0]: other values than objects throw. *)
Definition limit_zero (v : value) : result value :=
  match v with
  | JNull => Ok (JObject [(#"limit", JSigned 0)])
  | _ => kvs ← get_object v; Ok (JObject (set_field #"limit" (JSigned 0) kvs))
  end.

Definition goes_down (d : bytes) : bool := bool_decide (d ∈ [ #"down"; #"both"]).

Definition connOpen (url : bytes) (w : N) : SE group_state () :=
  g ← gets grp;
  match conns g !! url with
  | None => mret tt
  | Some c =>
      match ws c with
      | Some _ => make (WsClose w)
      | None =>
          _ ← set_grp (λ g, with_conns g (<[url := mk_connection (Some w) (started c)]> (conns g)));
          if goes_down (dir g) then
            filterToSend ← lift (limit_zero (filter_ g));
            make (WsSend w (json_to_string (JArray [JString #"REQ"; JString #"X"; filterToSend])))
          else mret tt
      end
  end.

Definition connClose (url : bytes) (w : N) : SE group_state () :=
  g ← gets grp;
  match conns g !! url with
  | None => mret tt
  | Some c =>
      if decide (ws c = Some w) then
        set_grp (λ g, with_conns g (<[url := mk_connection None 0]> (conns g)))
      else mret tt
  end.

(** The log line of a blocked event reads its id. *)
Definition log_blocked (okMsg : bytes) (evJson : value) : SE group_state () :=
  if length okMsg =? 0 then mret tt
  else i ← lift (at_key evJson #"id"); _ ← lift (get_string i); mret tt.

Definition incomingEvent (url : bytes) (evJson : value) : SE group_state () :=
  g ← gets grp;
  if decide (dir g = #"up") then mret tt
  else
    let '((res, okMsg), pl) := policy_accept (pluginDownCmd g) evJson SourceStream url (pluginDown g) in
    _ ← set_grp (λ g, with_plugins g pl (pluginUp g));
    if decide (res = Accept) then make (WriterWrite evJson) else log_blocked okMsg evJson.

Definition event_message_text (evStr : bytes) : bytes :=
  #"[" ++ ["034"%char] ++ #"EVENT" ++ ["034"%char] ++ #"," ++ evStr ++ #"]".

(** To every open connection. *)
Definition send_all (msg : bytes) : SE group_state () :=
  g ← gets grp;
  for_each (λ u, match conns g !! u with
                 | Some (mk_connection (Some w) _) => make (WsSend w msg)
                 | _ => mret tt end) (sorted_urls (conns g)).

(** [shared] is [responseStr] and [evJson], filled by the first group that
    matches. *)
Definition outgoingEvent (d : env) (levId : N) (buf : bytes)
    (shared : DictCaches * option (bytes * value)) : SE group_state (DictCaches * option (bytes * value)) :=
  g ← gets grp;
  if decide (dir g = #"down") then mret shared
  else
    packed ← lift (view buf);
    m ← lift (group_doesMatch (filterCompiled_ g) packed);
    if m : bool then
      '(dc, responseStr, evJson) ←
        (match shared with
         | (dc, Some (responseStr, evJson)) => mret (dc, responseStr, evJson)
         | (dc, None) =>
             '(dc, evStr) ← lift (getEventJson cfg dc d levId);
             evJson ← lift (json_from_string evStr);
             mret (dc, event_message_text evStr, evJson)
         end);
      let '((res, okMsg), pl) := policy_accept (pluginUpCmd g) evJson SourceStored [] (pluginUp g) in
      _ ← set_grp (λ g, with_plugins g (pluginDown g) pl);
      _ ← (if decide (res = Accept) then send_all responseStr else log_blocked okMsg evJson);
      mret (dc, Some (responseStr, evJson))
    else mret shared.

(** ** The router *)

Record router := mk_router {
  connectionTimeoutUs : N;
  router_decomp : DictCaches;
  streamGroups : gmap bytes StreamGroup;
  currEventId_ : N;
  firstConfigLoadSuccess : bool;
  router_calls : list router_call;
  router_tick : nat;
}.

Definition defaultConnectionTimeoutUs : N := 20000000.

Definition set_groups (s : router) m := mk_router (connectionTimeoutUs s) (router_decomp s) m
  (currEventId_ s) (firstConfigLoadSuccess s) (router_calls s) (router_tick s).

(** [streamGroups.at(name).method(...)] *)
Definition in_group {A} (name : bytes) (f : SE group_state A) : SE router A := λ s,
  match streamGroups s !! name with
  | None => (Throw out_of_range, s)
  | Some g =>
      let '(r, gs) := f (mk_gs g (router_calls s) (router_tick s)) in
      (r, mk_router (connectionTimeoutUs s) (router_decomp s) (<[name := grp gs]> (streamGroups s))
            (currEventId_ s) (firstConfigLoadSuccess s) (made gs) (gtick gs))
  end.

Definition call_router (c : router_call) : SE router () := modify (λ s,
  mk_router (connectionTimeoutUs s) (router_decomp s) (streamGroups s) (currEventId_ s)
    (firstConfigLoadSuccess s) (router_calls s ++ [c]) (router_tick s)).

Definition has_group (name : bytes) : SE router bool :=
  gets (λ s, bool_decide (is_Some (streamGroups s !! name))).

(** *** [reconcileConfig] *)

Definition new_timeout (routerConfig : value) : result N :=
  kvs ← get_object routerConfig;
  match assoc #"connectionTimeout" kvs with
  | None => Ok defaultConnectionTimeoutUs
  | Some v => n ← get_unsigned v; Ok (u64_wrap (n * 1000000))
  end.

Definition load_group (ns : bytes * value) : SE router () :=
  b ← has_group ns.1;
  _ ← (if b : bool then mret tt
       else modify (λ s, set_groups s (<[ns.1 := new_group ns.1]> (streamGroups s))));
  t ← gets connectionTimeoutUs;
  in_group ns.1 (configure t ns.2).

(** Erasing a group destroys its connections. *)
Definition erase_group (name : bytes) : SE router () :=
  _ ← in_group name (g ← gets grp;
        for_each (λ u, match conns g !! u with
                       | Some c => for_each make (destroy_connection c) | None => mret tt end)
          (sorted_urls (conns g)));
  modify (λ s, set_groups s (delete name (streamGroups s))).

(** The [try] block; [routerConfig] is the parsed file. *)
Definition load_config (routerConfig : result value) : SE router () :=
  routerConfig ← lift routerConfig;
  t ← lift (new_timeout routerConfig);
  _ ← modify (λ s, mk_router t (router_decomp s) (streamGroups s) (currEventId_ s)
        (firstConfigLoadSuccess s) (router_calls s) (router_tick s));
  v ← lift (at_key routerConfig #"streams");
  streams ← lift (get_object v);
  _ ← for_each load_group streams;
  names ← gets (λ s, sorted_urls (streamGroups s));
  for_each erase_group (filter (λ n, n ∉ streams.*1) names).

Definition reconcileConfig (routerConfig : result value) : SE router () :=
  ok ← try_catch (_ ← load_config routerConfig; mret true)
         (λ _, b ← gets firstConfigLoadSuccess;
               if b : bool then mret false else raise (process_exit 1));
  if ok : bool then modify (λ s, mk_router (connectionTimeoutUs s) (router_decomp s) (streamGroups s)
    (currEventId_ s) true (router_calls s) (router_tick s))
  else mret tt.

(** *** Events of the database *)

(** The inner loop: one event through the groups in order. *)
Fixpoint route_event (d : env) (levId : N) (buf : bytes)
    (shared : DictCaches * option (bytes * value)) (names : list bytes) : SE router () :=
  match names with
  | [] => modify (λ s, mk_router (connectionTimeoutUs s) shared.1 (streamGroups s) (currEventId_ s)
            (firstConfigLoadSuccess s) (router_calls s) (router_tick s))
  | name :: names =>
      shared ← in_group name (outgoingEvent d levId buf shared);
      route_event d levId buf shared names
  end.

Definition db_event (d : env) (levId : N) : SE router () :=
  buf ← lift (event_buf d levId);
  _ ← modify (λ s, mk_router (connectionTimeoutUs s) (router_decomp s) (streamGroups s) levId
        (firstConfigLoadSuccess s) (router_calls s) (router_tick s));
  s ← gets (λ s, s);
  route_event d levId buf (router_decomp s, None) (sorted_urls (streamGroups s)).

Definition handleDBChange (d : env) : SE router () :=
  n ← gets currEventId_;
  for_each (db_event d) (foreach_Event_from d (u64_add n 1)).

(** *** Messages and callbacks *)

Definition handleIncomingMessage (desig : ConnDesignator) (msg : bytes) : SE router () :=
  origJson ← lift (json_from_string msg);
  _ ← lift (throw_if (negb (is_array origJson)) (herr #"not an array"));
  arr ← lift (get_array origJson);
  _ ← lift (throw_if (length arr <? 2) (herr #"array too short"));
  msgType ← lift (at_pos origJson 0);
  if is_cmd msgType #"EOSE" then mret tt
  else if is_cmd msgType #"NOTICE" then mret tt
  else if is_cmd msgType #"OK" then
    v ← lift (at_pos origJson 2); _ ← lift (get_boolean v); mret tt
  else if is_cmd msgType #"EVENT" then
    _ ← lift (throw_if (length arr <? 3) (herr #"array too short"));
    evJson ← lift (at_pos origJson 2);
    in_group (desig_group desig) (incomingEvent (desig_url desig) evJson)
  else mret tt.

(** [onConnection] *)
Definition on_connection (desig : ConnDesignator) (w : N) : SE router () :=
  b ← has_group (desig_group desig);
  if b : bool then in_group (desig_group desig) (connOpen (desig_url desig) w)
  else call_router (WsClose w).

(** [onDisconnection] *)
Definition on_disconnection (desig : ConnDesignator) (w : N) : SE router () :=
  b ← has_group (desig_group desig);
  if b : bool then in_group (desig_group desig) (connClose (desig_url desig) w) else mret tt.

(** [onMessage2] *)
Definition on_ws_message (desig : ConnDesignator) (w : N) (msg : bytes) : SE router () :=
  b ← has_group (desig_group desig);
  if b : bool then try_catch (handleIncomingMessage desig msg) (λ _, mret tt)
  else call_router (WsClose w).

(** [config] and [d] are what the file and the database hold when they are
    read. *)
Definition on_event (routerConfig : result value) (d : env) (e : RouterEvent) : SE router () :=
  match e with
  | ConfigFileChange => reconcileConfig routerConfig
  | DBChange => handleDBChange d
  | ReconnectCron =>
      names ← gets (λ s, sorted_urls (streamGroups s));
      t ← gets connectionTimeoutUs;
      for_each (λ n, in_group n (tryConnects t)) names
  end.

Definition onTrigger (routerConfig : result value) (d : env) (newMsgs : list RouterEvent)
    : SE router () := for_each (on_event routerConfig d) newMsgs.

(** The constructor. *)
Definition start_router (dc : DictCaches) (d : env) (routerConfig : result value)
    : result () * router :=
  reconcileConfig routerConfig
    (mk_router 0 dc ∅ (getMostRecentLevId d) false [] 0).
End router.
