(* ===== verification/RouterTheorems.v ===== *)
(** What the router sends, and what a failed reload does. *)

From S2P Require Import Prelude Bytes Json Hex PackedEvent FilterSets Filters Config EventParse Db.
From S2P Require Import Payload Subscription Monitors MonitorLookups MonitorInv StoreHistory.
From S2P Require Import StateExn Plugin ReqMonitor Handoff Sync Router.

(** What a websocket was sent, in order. *)
Definition sent_to (w : N) (cs : list router_call) : list bytes :=
  omap (λ c, match c with
             | WsSend w' m => if decide (w' = w) then Some m else None
             | _ => None end) cs.

Lemma sent_to_app w a b : sent_to w (a ++ b) = sent_to w a ++ sent_to w b.
Proof. apply omap_app. Qed.

Section router.
Context `{!Hex, !NativeU64, !GolpeKeys, !Env, !JsonParser, !EventLibs, !Zstd, !WritePolicy}.
Context (curr_time_us : nat → N).

(** ** What stays as it was *)

(** What a group is configured to forward. *)
Definition settings (g : StreamGroup) : bytes * value * list NostrFilter * bytes :=
  (dir g, filter_ g, filterCompiled_ g, pluginUpCmd g).

Definition conn_ws (g : StreamGroup) (url : bytes) : option N := conns g !! url ≫= ws.

(** A step of a group that concerns neither the settings nor [w]. *)
Record group_quiet (w : N) (a b : group_state) : Prop := {
  gq_settings : settings (grp b) = settings (grp a);
  gq_up : pluginUp (grp b) = pluginUp (grp a);
  gq_sent : sent_to w (made b) = sent_to w (made a);
  gq_conn : ∀ u, conn_ws (grp b) u = Some w ↔ conn_ws (grp a) u = Some w;
}.

#[local] Instance group_quiet_pre w : PreOrder (group_quiet w).
Proof.
  split; [by intros a|]. intros a b c [] []. split; [congruence..|]. intros u. by rewrite gq_conn1.
Qed.

Definition router_ws (s : router) (name url : bytes) : option N :=
  streamGroups s !! name ≫= λ g, conn_ws g url.

Record quiet (w : N) (s s' : router) : Prop := {
  qt_settings : settings <$> streamGroups s' = settings <$> streamGroups s;
  qt_up : pluginUp <$> streamGroups s' = pluginUp <$> streamGroups s;
  qt_sent : sent_to w (router_calls s') = sent_to w (router_calls s);
  qt_conn : ∀ n u, router_ws s' n u = Some w ↔ router_ws s n u = Some w;
  qt_curr : currEventId_ s' = currEventId_ s;
  qt_decomp : router_decomp s' = router_decomp s;
}.

#[local] Instance quiet_pre w : PreOrder (quiet w).
Proof.
  split; [by intros a|]. intros a b c [] []. split; [congruence|congruence|congruence| |congruence..].
  intros n u. by rewrite qt_conn1.
Qed.

Lemma quiet_make w c : (∀ m, c ≠ WsSend w m) → moves (group_quiet w) (make c).
Proof.
  intros Hc. apply moves_modify. intros s. split; simpl; try done.
  rewrite sent_to_app. destruct c; simpl; rewrite ?app_nil_r; try done.
  case_decide as Hw; rewrite ?app_nil_r; [|done]. by destruct (Hc msg); subst.
Qed.

Lemma quiet_set_grp w f :
  (∀ g, settings (f g) = settings g ∧ pluginUp (f g) = pluginUp g ∧ ∀ u, conn_ws (f g) u = Some w ↔ conn_ws g u = Some w) →
  moves (group_quiet w) (set_grp f).
Proof. intros Hf. apply moves_modify. intros s. by split; try apply Hf. Qed.

Lemma quiet_gclock w : moves (group_quiet w) (gclock curr_time_us).
Proof. by intros s r s' [= <- <-]. Qed.

Lemma quiet_in_group {A : Type} w name (f : SE group_state A) :
  moves (group_quiet w) f → moves (quiet w) (in_group name f).
Proof.
  intros Hf s r s'. unfold in_group. destruct (streamGroups s !! name) as [g|] eqn:Hg; [|by intros [= <- <-]].
  destruct (f _) as [x gs] eqn:E. intros [= <- <-]. apply Hf in E as [Hs Hu Hm Hc]. simpl in *.
  split; simpl; try done.
  - rewrite fmap_insert, Hs. apply insert_id. by rewrite lookup_fmap, Hg.
  - rewrite fmap_insert, Hu. apply insert_id. by rewrite lookup_fmap, Hg.
  - intros n u. unfold router_ws. simpl. destruct (decide (n = name)) as [->|Hn].
    + rewrite lookup_insert_eq, Hg. apply Hc.
    + by rewrite lookup_insert_ne.
Qed.

Lemma quiet_call_router w c : (∀ m, c ≠ WsSend w m) → moves (quiet w) (call_router c).
Proof.
  intros Hc. apply moves_modify. intros s. split; simpl; try done.
  rewrite sent_to_app. destruct c; simpl; rewrite ?app_nil_r; try done.
  case_decide as Hw; rewrite ?app_nil_r; [|done]. by destruct (Hc msg); subst.
Qed.

#[local] Hint Resolve quiet_gclock quiet_in_group : moves.
#[local] Hint Extern 1 (moves _ (make _)) => apply quiet_make; congruence : moves.
#[local] Hint Extern 1 (moves _ (call_router _)) => apply quiet_call_router; congruence : moves.

(** A connection that has no websocket, or another one. *)
Lemma conn_ws_insert w g url c :
  ws c ≠ Some w → conn_ws g url ≠ Some w →
  ∀ u, conn_ws (with_conns g (<[url := c]> (conns g))) u = Some w ↔ conn_ws g u = Some w.
Proof.
  intros Hc Hu u. unfold conn_ws. simpl. destruct (decide (u = url)) as [->|Hn].
  - rewrite lookup_insert_eq. simpl. done.
  - by rewrite lookup_insert_ne.
Qed.

(** ** Steps that are not about the database *)

(** Connecting leaves the open connections alone. *)
Record connects (s s' : group_state) : Prop := {
  cn_quiet : ∀ w, group_quiet w s s';
  cn_made : ∀ w, WsClose w ∈ made s' ↔ WsClose w ∈ made s;
}.

#[local] Instance connects_pre : PreOrder connects.
Proof.
  split; [by intros a|]. intros a b c [] []. split; [intros w; by transitivity b|].
  intros w. by rewrite cn_made1.
Qed.

Lemma try_connect_run t url s : ∃ s', try_connect curr_time_us t url s = (Ok tt, s') ∧ connects s s'.
Proof.
  unfold try_connect, mbind, SE_bind, gets, set_grp, modify. cbn [grp made gtick].
  set (c := default _ _).
  assert (∀ w u, conn_ws (with_conns (grp s) (<[url := c]> (conns (grp s)))) u = Some w ↔
    conn_ws (grp s) u = Some w) as Hsame.
  { intros w u. unfold conn_ws. simpl. destruct (decide (u = url)) as [->|Hn].
    - rewrite lookup_insert_eq. unfold c. by destruct (conns (grp s) !! url).
    - by rewrite lookup_insert_ne. }
  assert (∀ s', made s' = made s → (∀ w, group_quiet w s s') → connects s s') as Hconn.
  { intros s' Hm Hq. split; [done|]. intros w. by rewrite Hm. }
  destruct (ws c) as [v|] eqn:Hc; [eexists; split; [reflexivity|apply Hconn; [done|split; by try apply Hsame]]|].
  unfold gclock at 1. cbn [grp made gtick].
  case_match; [|eexists; split; [reflexivity|apply Hconn; [done|split; by try apply Hsame]]].
  unfold make, modify, gclock. cbn [grp made gtick]. eexists. split; [reflexivity|].
  split; [|intros w; simpl; rewrite elem_of_app, list_elem_of_singleton; naive_solver].
  intros w. split; simpl; [done|done|by rewrite sent_to_app, app_nil_r|].
  intros u. rewrite <-Hsame. unfold conn_ws. simpl. destruct (decide (u = url)) as [->|Hn].
  - by rewrite !lookup_insert_eq; simpl; rewrite Hc.
  - by rewrite !lookup_insert_ne.
Qed.

Lemma tryConnects_run t s : ∃ s', tryConnects curr_time_us t s = (Ok tt, s') ∧ connects s s'.
Proof.
  unfold tryConnects, mbind, SE_bind, gets. generalize (urls (grp s)). intros us. revert s.
  induction us as [|u us IH]; intros s; [by exists s|]. cbn [for_each].
  destruct (try_connect_run t u s) as (s1 & E1 & Hq1). destruct (IH s1) as (s2 & E2 & Hq2).
  exists s2. unfold mbind, SE_bind. rewrite E1. split; [done|]. by transitivity s1.
Qed.

Lemma quiet_tryConnects w t : moves (group_quiet w) (tryConnects curr_time_us t).
Proof.
  intros s r s' E. destruct (tryConnects_run t s) as (s1 & E1 & [Hq _]).
  rewrite E1 in E. injection E as <- <-. apply Hq.
Qed.

(** The other relay or a timer opens [w'], never [w]. *)
Lemma quiet_connOpen w w' url :
  w' ≠ w → moves (group_quiet w) (connOpen url w').
Proof.
  intros Hw s r s'. unfold connOpen, mbind, SE_bind, gets. cbn [grp made gtick].
  destruct (conns (grp s) !! url) as [c|] eqn:Hc; [|by intros [= <- <-]].
  destruct (ws c) as [v|] eqn:Hv; [apply quiet_make; congruence|].
  unfold set_grp, modify. cbn [grp made gtick].
  set (g1 := with_conns _ _). intros E.
  transitivity (mk_gs g1 (made s) (gtick s)).
  - split; simpl; try done. apply conn_ws_insert; simpl; [congruence|].
    unfold conn_ws. by rewrite Hc; simpl; rewrite Hv.
  - revert E. set (rest := if goes_down _ then _ else _).
    assert (moves (group_quiet w) rest) as Hr; [|by apply Hr].
    unfold rest. case_match; [|auto with moves]. apply moves_bind_lift; [apply _|intros fs _].
    apply quiet_make. congruence.
Qed.

Lemma quiet_connClose w w' url : w' ≠ w → moves (group_quiet w) (connClose url w').
Proof.
  intros Hw s r s'. unfold connClose, mbind, SE_bind, gets. cbn [grp made gtick].
  destruct (conns (grp s) !! url) as [c|] eqn:Hc; [|by intros [= <- <-]].
  case_decide as Hd; [|by intros [= <- <-]]. unfold set_grp, modify. intros [= <- <-].
  split; simpl; try done. apply conn_ws_insert; simpl; [congruence|].
  unfold conn_ws. rewrite Hc. simpl. congruence.
Qed.

Lemma quiet_incomingEvent w url ev : moves (group_quiet w) (incomingEvent url ev).
Proof.
  unfold incomingEvent. apply moves_bind; [apply _|auto with moves|intros g].
  case_decide; [auto with moves|]. destruct (policy_accept _ _ _ _ _) as [[res okMsg] pl].
  apply moves_bind; [apply _|by apply quiet_set_grp|intros []].
  case_decide; [auto with moves|]. unfold log_blocked. case_match; [auto with moves|].
  prove_moves.
Qed.

(** ** One event *)

Context (cfg : Config) (new_plugin : policy).
(** The JSON of each levId. *)
Context (text : N → bytes).

(** Every stored text is the JSON of an event. *)
Record readable (s : snapshot) : Prop := {
  rd_ok : snap_ok cfg text s;
  rd_json : ∀ l, is_Some (snap_events s !! l) →
    ∃ v i, json_from_string (text l) = Ok v ∧ at_key v #"id" = Ok (JString i);
}.

Definition shared_ok (s : snapshot) (l : N) (shared : DictCaches * option (bytes * value)) : Prop :=
  caches_ok shared.1 (snap_db s) ∧ ∀ r v, shared.2 = Some (r, v) →
    r = event_message_text (text l) ∧ json_from_string (text l) = Ok v.

(** The event that the group's plugin is asked about. *)
Definition event_value (l : N) : value :=
  match json_from_string (text l) with Ok v => v | Throw _ => JNull end.

(** The events that a plugin passes on, asked about one after the other. *)
Fixpoint screen (cmd : bytes) (pl : policy) (ls : list N) : list N * policy :=
  match ls with
  | [] => ([], pl)
  | l :: ls =>
      let '((res, _), pl') := policy_accept cmd (event_value l) SourceStored [] pl in
      let '(passed, pl'') := screen cmd pl' ls in
      (if decide (res = Accept) then l :: passed else passed, pl'')
  end.

Definition screened (g : StreamGroup) : list N → list N * policy := screen (pluginUpCmd g) (pluginUp g).

Lemma screen_app cmd pl a b : screen cmd pl (a ++ b) =
  ((screen cmd pl a).1 ++ (screen cmd (screen cmd pl a).2 b).1, (screen cmd (screen cmd pl a).2 b).2).
Proof.
  revert pl. induction a as [|l a IH]; intros pl; simpl; [by destruct (screen cmd pl b)|].
  destruct (policy_accept _ _ _ _ _) as [[res okMsg] pl']. rewrite IH. destruct (screen cmd pl' a) as [pa pl''].
  simpl. by case_decide.
Qed.

(** Without a plugin, everything is passed on. *)
Lemma screen_none pl ls : (screen [] pl ls).1 = ls.
Proof.
  revert pl. induction ls as [|l ls IH]; intros pl; [done|]. simpl.
  pose proof (policy_none (event_value l) SourceStored [] pl) as Hn.
  destruct (policy_accept _ _ _ _ _) as [[res okMsg] pl']. cbn [fst] in Hn. injection Hn as -> ->.
  specialize (IH pl'). destruct (screen [] pl' ls). simpl in *. by rewrite IH.
Qed.

(** What [send_all] does: one message for each open connection. *)
Definition group_sends (g : StreamGroup) (msg : bytes) : list router_call :=
  omap (λ u, (λ w, WsSend w msg) <$> conn_ws g u) (sorted_urls (conns g)).

Lemma send_all_run msg s :
  send_all msg s = (Ok tt, mk_gs (grp s) (made s ++ group_sends (grp s) msg) (gtick s)).
Proof.
  destruct s as [g m k]. unfold send_all, mbind, SE_bind, gets, group_sends. cbn [grp made gtick].
  revert m. induction (sorted_urls (conns g)) as [|u us IH]; intros m.
  { cbn [omap list_omap for_each]. by rewrite app_nil_r. }
  cbn [for_each omap list_omap]. unfold mbind, SE_bind. unfold conn_ws at 1.
  destruct (conns g !! u) as [[[v|] st]|] eqn:Hu; simpl; rewrite IH; try done.
  by rewrite <-app_assoc.
Qed.

Lemma sorted_urls_elem {V} (m : gmap bytes V) u : u ∈ sorted_urls m ↔ is_Some (m !! u).
Proof.
  unfold sorted_urls. rewrite merge_sort_Permutation, list_elem_of_fmap. split.
  - intros ([k v] & -> & Hkv%elem_of_map_to_list). by exists v.
  - intros [v Hv]. exists (u, v). split; [done|]. by apply elem_of_map_to_list.
Qed.

Lemma sorted_urls_nodup {V} (m : gmap bytes V) : NoDup (sorted_urls m).
Proof. unfold sorted_urls. rewrite merge_sort_Permutation. apply NoDup_fst_map_to_list. Qed.

Lemma sent_group_sends w g msg us :
  NoDup us → (∀ u u', conn_ws g u = Some w → conn_ws g u' = Some w → u = u') →
  sent_to w (omap (λ u, (λ w, WsSend w msg) <$> conn_ws g u) us) =
    if decide (Some w ∈ conn_ws g <$> us) then [msg] else [].
Proof.
  intros Hnd Huniq. induction Hnd as [|u us Hu Hnd IH]; [done|].
  cbn [omap list_omap]. rewrite fmap_cons.
  destruct (conn_ws g u) as [v|] eqn:Hv; cbn [fmap option_fmap option_map].
  2:{ rewrite IH. apply decide_ext. set_solver. }
  change (sent_to w (WsSend v msg :: ?l)) with
    (sent_to w ([WsSend v msg] ++ l)). rewrite sent_to_app, IH. unfold sent_to at 1. simpl.
  destruct (decide (v = w)) as [->|Hn].
  - rewrite decide_False; [rewrite decide_True; [done|set_solver]|].
    intros (u' & Hu' & Hin)%list_elem_of_fmap. by rewrite (Huniq u' u (eq_sym Hu') Hv) in Hin.
  - cbn [app]. apply decide_ext. set_solver.
Qed.

(** Would the group pass the event on?  A plugin may still refuse it. *)
Definition forwards (s : snapshot) (g : StreamGroup) (l : N) : bool :=
  negb (bool_decide (dir g = #"down")) && wanted s (filterCompiled_ g) l.

Definition forward (s : snapshot) (g : StreamGroup) (l : N) : list N := if forwards s g l then [l] else [].

Lemma log_blocked_run {v : value} {i} okMsg s :
  at_key v #"id" = Ok (JString i) → log_blocked okMsg v s = (Ok tt, s).
Proof.
  intros Hi. unfold log_blocked, mbind, SE_bind, lift. case_match; [done|]. by rewrite Hi.
Qed.

Lemma outgoing_run snap l e shared s :
  readable snap → snap_events snap !! l = Some e → shared_ok snap l shared →
  Forall filter_ready (filterCompiled_ (grp s)) →
  ∃ shared' pl (b : bool),
    outgoingEvent cfg (snap_db snap) l (encode e) shared s =
      (Ok shared', mk_gs (with_plugins (grp s) (pluginDown (grp s)) pl)
        (made s ++ if b then group_sends (grp s) (event_message_text (text l)) else []) (gtick s)) ∧
    shared_ok snap l shared' ∧ screened (grp s) (forward snap (grp s) l) = (if b then [l] else [], pl).
Proof.
  intros [Hs Hjson] He Hsh Hready. destruct (event_buf_ok cfg text snap l e Hs He) as [_ Hwf].
  destruct s as [g m k]. cbn [grp made gtick] in *.
  unfold outgoingEvent, forward, forwards, mbind, SE_bind, gets, lift. cbn [grp made gtick].
  assert (g = with_plugins g (pluginDown g) (pluginUp g)) as Hg by by destruct g.
  destruct (decide (dir g = #"down")) as [Hd|Hd].
  { exists shared, (pluginUp g), false. rewrite <-Hg, app_nil_r. split_and!; try done.
    by rewrite bool_decide_eq_true_2. }
  rewrite bool_decide_eq_false_2 by done. rewrite view_encode by done.
  destruct (group_doesMatch_sem (filterCompiled_ g) e Hwf) as (b & Hb & _).
  { eapply Forall_impl; [done|]. by intros f []. }
  rewrite Hb. assert (wanted snap (filterCompiled_ g) l = b) as -> by (unfold wanted; by rewrite He, Hb).
  destruct b.
  2:{ exists shared, (pluginUp g), false. rewrite <-Hg, app_nil_r. by split_and!. }
  assert (∃ dc v i, at_key v #"id" = Ok (JString i) ∧ json_from_string (text l) = Ok v ∧ caches_ok dc (snap_db snap) ∧
    ∀ s0 : group_state, (match shared with
     | (dc, Some (responseStr, evJson)) => mret (dc, responseStr, evJson)
     | (dc, None) =>
         '(dc, evStr) ← lift (getEventJson cfg dc (snap_db snap) l);
         evJson ← lift (json_from_string evStr);
         mret (dc, event_message_text evStr, evJson)
     end) s0 = (Ok (dc, event_message_text (text l), v), s0)) as (dc & v & i & Hi & Hjv & Hdc & Hrun).
  { destruct shared as [dc [[r v]|]], Hsh as [Hc Hv]; cbn [fst snd] in *.
    - destruct (Hv r v eq_refl) as (-> & Hj). destruct (Hjson l ltac:(by eexists)) as (v' & i & Hv' & Hi).
      rewrite Hj in Hv'. injection Hv' as <-. by exists dc, v, i.
    - destruct (read_text cfg text snap dc l Hs Hc ltac:(by eexists)) as (dc' & Hget & Hdc').
      destruct (Hjson l ltac:(by eexists)) as (v & i & Hv' & Hi). exists dc', v, i.
      split_and!; try done. intros s0. unfold mbind, SE_bind, lift. by rewrite Hget, Hv'. }
  rewrite Hrun. destruct (policy_accept (pluginUpCmd g) v SourceStored [] (pluginUp g))
    as [[res okMsg] pl] eqn:Hpol. unfold set_grp, modify. cbn [grp made gtick].
  exists (dc, Some (event_message_text (text l), v)), pl, (bool_decide (res = Accept)).
  split_and!.
  - case_decide as Hr.
    + rewrite send_all_run. rewrite bool_decide_eq_true_2 by done. done.
    + rewrite (log_blocked_run _ _ Hi). rewrite bool_decide_eq_false_2, app_nil_r by done. done.
  - split; [done|]. cbn [snd]. by intros r v' [= <- <-].
  - unfold screened. cbn [negb andb screen]. unfold event_value. rewrite Hjv, Hpol. by case_bool_decide; case_decide.
Qed.

(** ** One event through all the groups *)

(** [w] is the open websocket of one connection. *)
Record socket_of (s : router) (w : N) (name url : bytes) : Prop := {
  sk_at : router_ws s name url = Some w;
  sk_only : ∀ n u, router_ws s n u = Some w → n = name ∧ u = url;
}.

Definition settings_ready (x : bytes * value * list NostrFilter * bytes) : Prop :=
  Forall filter_ready x.1.2 ∧
  (goes_down x.1.1.1 = true → ∃ v, limit_zero x.1.1.2 = Ok v).

Record router_ok (snap : snapshot) (s : router) : Prop := {
  ro_caches : caches_ok (router_decomp s) (snap_db snap);
  ro_curr : (currEventId_ s ≤ latest snap)%N;
  ro_ready : map_Forall (λ _, settings_ready) (settings <$> streamGroups s);
}.

Lemma ro_group snap s n g :
  router_ok snap s → streamGroups s !! n = Some g → settings_ready (settings g).
Proof. intros [_ _ Hr] Hg. apply (Hr n). by rewrite lookup_fmap, Hg. Qed.

(** The group [name], configured as it is. *)
Definition set_as (s : router) (name : bytes) (x : bytes * value * list NostrFilter * bytes) : Prop :=
  (settings <$> streamGroups s) !! name = Some x.

(** What [s'] adds to [s] for an event: to [w], its text if [f]. *)
Record routed (s s' : router) : Prop := {
  rt_settings : settings <$> streamGroups s' = settings <$> streamGroups s;
  rt_conn : ∀ n u, router_ws s' n u = router_ws s n u;
}.

Lemma routed_refl s : routed s s.
Proof. by split. Qed.

Lemma routed_trans s1 s2 s3 : routed s1 s2 → routed s2 s3 → routed s1 s3.
Proof. intros [] []. split; [congruence|]. intros. by rewrite rt_conn1. Qed.

Lemma routed_socket s s' w name url : routed s s' → socket_of s w name url → socket_of s' w name url.
Proof. intros [_ Hc] []. split; [by rewrite Hc|]. intros n u. rewrite Hc. apply sk_only0. Qed.

Definition messages (ls : list N) : list bytes := (λ l, event_message_text (text l)) <$> ls.

(** Each group asks its plugin about the events [X] and sends those that pass,
    [new] in all. *)
Definition passed_on (s s' : router) (new : list router_call) (X : bytes → StreamGroup → list N) : Prop :=
  ∀ name g, streamGroups s !! name = Some g → ∃ g', streamGroups s' !! name = Some g' ∧
    settings g' = settings g ∧ pluginUp g' = (screened g (X name g)).2 ∧
    ∀ w url, socket_of s w name url → sent_to w new = messages (screened g (X name g)).1.

Lemma settings_cmd g g' : settings g' = settings g → pluginUpCmd g' = pluginUpCmd g.
Proof. unfold settings. by intros [= _ _ _ ->]. Qed.

Lemma passed_on_nothing s s' : streamGroups s' = streamGroups s → passed_on s s' [] (λ _ _, []).
Proof. intros E name g Hg. exists g. by rewrite E. Qed.

Lemma passed_on_trans s s1 s2 new1 new2 X1 X2 :
  routed s s1 → passed_on s s1 new1 X1 → passed_on s1 s2 new2 X2 →
  (∀ name g g', settings g' = settings g → X2 name g' = X2 name g) →
  passed_on s s2 (new1 ++ new2) (λ name g, X1 name g ++ X2 name g).
Proof.
  intros Hr H1' H2' HX name g Hg. destruct (H1' name g Hg) as (g1 & Hg1 & Hs1 & Hp1 & Hsent1).
  destruct (H2' name g1 Hg1) as (g2 & Hg2 & Hs2 & Hp2 & Hsent2). exists g2.
  unfold screened in *. rewrite (HX name g g1 Hs1), Hp1, (settings_cmd _ _ Hs1) in Hp2, Hsent2.
  rewrite screen_app. split; [done|]. split; [congruence|]. split; [done|].
  intros w url Hsk. cbn [fst]. rewrite sent_to_app, (Hsent1 w url Hsk), (Hsent2 w url).
  - unfold messages. by rewrite fmap_app.
  - by apply (routed_socket s).
Qed.

Lemma passed_on_same s s' new X Y : (∀ name g, streamGroups s !! name = Some g → X name g = Y name g) →
  passed_on s s' new X → passed_on s s' new Y.
Proof. intros HX Hp name g Hg. rewrite <-(HX name g Hg). by apply Hp. Qed.

(** One group. *)
Lemma route_group snap l e shared s n :
  readable snap → snap_events snap !! l = Some e → shared_ok snap l shared → router_ok snap s →
  is_Some (streamGroups s !! n) →
  ∃ shared' s' new, in_group n (outgoingEvent cfg (snap_db snap) l (encode e) shared) s = (Ok shared', s') ∧
    shared_ok snap l shared' ∧ routed s s' ∧ router_decomp s' = router_decomp s ∧
    currEventId_ s' = currEventId_ s ∧ router_calls s' = router_calls s ++ new ∧
    passed_on s s' new (λ name g, if decide (n = name) then forward snap g l else []).
Proof.
  intros Hs He Hsh Hok [g Hg]. unfold in_group. rewrite Hg.
  destruct (outgoing_run snap l e shared (mk_gs g (router_calls s) (router_tick s)) Hs He Hsh)
    as (shared' & pl & b & -> & Hsh' & Hb).
  { apply (ro_group _ _ _ _ Hok Hg). }
  cbn [grp made gtick] in *. eexists shared', _, _. split; [reflexivity|]. cbn. split_and!; try done.
  - split; cbn.
    + rewrite fmap_insert. apply insert_id. by rewrite lookup_fmap, Hg.
    + intros n' u. unfold router_ws. cbn. destruct (decide (n' = n)) as [->|Hn].
      * by rewrite lookup_insert_eq, Hg.
      * by rewrite lookup_insert_ne.
  - intros name g' Hg'. cbn. case_decide as Hn.
    + subst n. rewrite Hg in Hg'. injection Hg' as <-. rewrite lookup_insert_eq, Hb.
      eexists. split; [reflexivity|]. split_and!; try done. intros w url [Hat Honly]. destruct b; [|done].
      unfold group_sends. unfold router_ws in Hat, Honly. rewrite Hg in Hat. cbn in Hat.
      assert (∀ u, conn_ws g u = Some w → u = url) as Hu.
      { intros u Hu. by destruct (Honly name u) as [_ ->]; [rewrite Hg|]. }
      rewrite sent_group_sends, decide_True; [done| |apply sorted_urls_nodup|].
      * apply list_elem_of_fmap. exists url. split; [done|]. apply sorted_urls_elem.
        unfold conn_ws in Hat. by destruct (conns g !! url).
      * intros u u' ->%Hu ->%Hu. done.
    + rewrite lookup_insert_ne by done. exists g'. split_and!; try done. intros w url [Hat Honly].
      destruct b; [|done]. unfold group_sends.
      rewrite sent_group_sends, decide_False; [done| |apply sorted_urls_nodup|].
      * intros (u & Hu & _)%list_elem_of_fmap. destruct (Honly n u) as [-> _]; [|done].
        unfold router_ws. by rewrite Hg.
      * intros u u' Hu _. destruct (Honly n u) as [-> _]; [|done]. unfold router_ws. by rewrite Hg.
Qed.

Lemma settings_dom s s' n : settings <$> streamGroups s' = settings <$> streamGroups s →
  is_Some (streamGroups s' !! n) ↔ is_Some (streamGroups s !! n).
Proof.
  intros E. assert ((settings <$> streamGroups s') !! n = (settings <$> streamGroups s) !! n) as H' by by rewrite E.
  rewrite !lookup_fmap in H'. destruct (streamGroups s' !! n), (streamGroups s !! n); naive_solver.
Qed.

Lemma settings_lookup s s' n g : settings <$> streamGroups s' = settings <$> streamGroups s →
  streamGroups s !! n = Some g → ∃ g', streamGroups s' !! n = Some g' ∧ settings g' = settings g.
Proof.
  intros E Hg. assert ((settings <$> streamGroups s') !! n = (settings <$> streamGroups s) !! n) as H' by by rewrite E.
  rewrite !lookup_fmap, Hg in H'. destruct (streamGroups s' !! n) as [g'|]; [|done].
  exists g'. split; [done|]. cbn in H'. congruence.
Qed.

Lemma forwards_settings snap g g' l : settings g' = settings g → forwards snap g' l = forwards snap g l.
Proof. unfold settings, forwards. by intros [= -> _ -> _]. Qed.

Lemma forward_settings snap g g' l : settings g' = settings g → forward snap g' l = forward snap g l.
Proof. intros Hset. unfold forward. by rewrite (forwards_settings _ _ _ _ Hset). Qed.

Lemma route_run snap l e names shared s :
  readable snap → snap_events snap !! l = Some e → shared_ok snap l shared → router_ok snap s →
  NoDup names → (∀ n, n ∈ names → is_Some (streamGroups s !! n)) →
  ∃ s' new, route_event cfg (snap_db snap) l (encode e) shared names s = (Ok tt, s') ∧
    routed s s' ∧ caches_ok (router_decomp s') (snap_db snap) ∧
    currEventId_ s' = currEventId_ s ∧ router_calls s' = router_calls s ++ new ∧
    passed_on s s' new (λ name g, if decide (name ∈ names) then forward snap g l else []).
Proof.
  intros Hs He. revert shared s. induction names as [|n names IH]; intros shared s Hsh Hok Hnd Hin.
  { eexists _, []. split; [reflexivity|]. cbn. split_and!; try done; [apply Hsh|by rewrite app_nil_r|].
    by eapply passed_on_same; [|by apply passed_on_nothing]. }
  apply NoDup_cons in Hnd as [Hn Hnd]. cbn [route_event].
  destruct (route_group snap l e shared s n Hs He Hsh Hok ltac:(apply Hin; constructor))
    as (shared' & s1 & new1 & E1 & Hsh1 & Hr1 & Hd1 & Hc1 & Hcalls1 & Hsent1).
  unfold mbind, SE_bind. rewrite E1.
  destruct (IH shared' s1 Hsh1) as (s2 & new2 & E2 & Hr2 & Hd2 & Hc2 & Hcalls2 & Hsent2).
  - destruct Hok as [? ? Hr]. split; [by rewrite Hd1|by rewrite Hc1|by rewrite (rt_settings _ _ Hr1)].
  - done.
  - intros n' Hn'. apply (settings_dom s); [apply Hr1|]. apply Hin. by constructor 2.
  - exists s2, (new1 ++ new2). split; [done|]. split; [by eapply routed_trans|].
    split; [done|]. split; [congruence|]. split; [by rewrite Hcalls2, Hcalls1, app_assoc|].
    eapply passed_on_same; [|eapply (passed_on_trans s s1); [done|exact Hsent1|exact Hsent2|]].
    2:{ intros name g g' Hset. cbn. by rewrite (forward_settings _ _ _ _ Hset). }
    intros name g _. cbn. destruct (decide (n = name)) as [->|Hne].
    + rewrite (decide_False (P := name ∈ names)) by done. rewrite decide_True by constructor.
      by rewrite app_nil_r.
    + cbn [app]. apply decide_ext. rewrite elem_of_cons. naive_solver.
Qed.

(** ** One [DBChange] *)

Lemma db_events_run snap L s :
  readable snap → router_ok snap s → (∀ l, l ∈ L → is_Some (snap_events snap !! l)) →
  ∃ s' new, for_each (db_event cfg (snap_db snap)) L s = (Ok tt, s') ∧
    routed s s' ∧ router_ok snap s' ∧ currEventId_ s' = List.last L (currEventId_ s) ∧
    router_calls s' = router_calls s ++ new ∧
    passed_on s s' new (λ _ g, filter (λ l, forwards snap g l = true) L).
Proof.
  intros Hs. revert s. induction L as [|l L IH]; intros s Hok HL.
  { exists s, []. split_and!; try done; [by rewrite app_nil_r|by apply passed_on_nothing]. }
  destruct (HL l ltac:(constructor)) as [e He].
  destruct (event_buf_ok cfg text snap l e (rd_ok _ Hs) He) as [Hbuf _].
  set (s0 := mk_router (connectionTimeoutUs s) (router_decomp s) (streamGroups s) l
        (firstConfigLoadSuccess s) (router_calls s) (router_tick s)).
  assert (router_ok snap s0) as Hok0.
  { destruct Hok. split; cbn; try done. apply (ok_latest cfg text); [apply Hs|by eexists]. }
  destruct (route_run snap l e (sorted_urls (streamGroups s)) (router_decomp s, None) s0 Hs He)
    as (s1 & new1 & E1 & Hr1 & Hd1 & Hc1 & Hcalls1 & Hsent1).
  { split; [apply Hok|done]. }
  { done. }
  { apply sorted_urls_nodup. }
  { by intros n ?%sorted_urls_elem. }
  assert (db_event cfg (snap_db snap) l s = (Ok tt, s1)) as E.
  { unfold db_event, mbind, SE_bind, lift, modify, gets. by rewrite Hbuf. }
  destruct (IH s1) as (s2 & new2 & E2 & Hr2 & Hok2 & Hc2 & Hcalls2 & Hsent2).
  { split; [done| |by rewrite (rt_settings _ _ Hr1); apply Hok0].
    rewrite Hc1. apply Hok0. }
  { intros l' Hl'. apply HL. by constructor 2. }
  assert (routed s s1) as Hr by by destruct Hr1.
  assert (passed_on s s1 new1
    (λ name g, if decide (name ∈ sorted_urls (streamGroups s)) then forward snap g l else [])) as Hsent.
  { intros name g Hg. destruct (Hsent1 name g Hg) as (g' & ? & ? & ? & Hw). exists g'. split_and!; try done.
    intros w url [? ?]. apply (Hw w url). by split. }
  exists s2, (new1 ++ new2). cbn [for_each]. unfold mbind, SE_bind. rewrite E. split; [done|].
  split; [by eapply routed_trans|]. split; [done|].
  split; [by rewrite Hc2, Hc1, last_shift|].
  split; [by rewrite Hcalls2, Hcalls1, app_assoc|].
  eapply passed_on_same; [|eapply (passed_on_trans s s1); [done|exact Hsent|exact Hsent2|]].
  2:{ intros name g g' Hset. cbn. apply filter_ext_elem. intros x _.
      by rewrite (forwards_settings _ _ _ _ Hset). }
  intros name g Hg. cbn. rewrite decide_True by (apply sorted_urls_elem; by eexists).
  unfold forward. destruct (forwards snap g l); by case_decide.
Qed.

(** The events a group would pass on: those due, none if it only goes down. *)
Definition passes (snap : snapshot) (g : StreamGroup) (lo hi : N) : list N :=
  if decide (dir g = #"down") then [] else due_ids snap (filterCompiled_ g) lo hi.

Lemma db_change snap s :
  readable snap → router_ok snap s →
  ∃ s' new, handleDBChange cfg (snap_db snap) s = (Ok tt, s') ∧
    routed s s' ∧ router_ok snap s' ∧ currEventId_ s' = latest snap ∧
    router_calls s' = router_calls s ++ new ∧
    passed_on s s' new (λ _ g, passes snap g (currEventId_ s) (latest snap)).
Proof.
  intros Hs Hok. pose proof (rd_ok _ Hs) as Hsok.
  destruct (visited_spec cfg text snap (currEventId_ s) Hsok (ro_curr _ _ Hok)) as (Hso & Hin & Hdue).
  unfold handleDBChange. set (L := foreach_Event_from _ _) in *.
  destruct (db_events_run snap L s Hs Hok) as (s' & new & E & Hr & Hok' & Hc & Hcalls & Hsent).
  { intros l Hl. by apply Hin. }
  exists s', new. split; [exact E|]. split; [done|]. split; [done|]. split.
  - rewrite Hc. apply (visited_last cfg text); [done|apply Hok].
  - split; [done|]. eapply passed_on_same; [|exact Hsent]. intros name g Hg.
    cbn. unfold passes. case_decide as Hd; [|rewrite <-Hdue by lia].
    + unfold forwards. rewrite bool_decide_eq_true_2 by done. cbn.
      clear. induction L as [|l L' IHL]; [done|]. rewrite filter_cons. by case_decide.
    + apply filter_ext_elem. intros l [Hl _]%Hin. unfold forwards.
      rewrite bool_decide_eq_false_2 by done. cbn. naive_solver.
Qed.

(** ** The other steps *)

(** What happens to the router while its configuration stays as it is: the
    database changes, the reconnect timer fires, and the other relays connect,
    disconnect and send messages. *)
Inductive router_step :=
  | DatabaseChanged
  | TimerFired
  | Opened (desig : ConnDesignator) (w : N)
  | Closed (desig : ConnDesignator) (w : N)
  | Received (desig : ConnDesignator) (w : N) (msg : bytes).

Definition do_step (p : snapshot * router_step) : SE router () :=
  let trigger e := onTrigger cfg curr_time_us new_plugin (Throw json_error) (snap_db p.1) [e] in
  match p.2 with
  | DatabaseChanged => trigger DBChange
  | TimerFired => trigger ReconnectCron
  | Opened desig w => on_connection desig w
  | Closed desig w => on_disconnection desig w
  | Received desig w msg => on_ws_message desig w msg
  end.

(** It is not [w] that is opened or closed. *)
Definition spares (w : N) (m : router_step) : Prop :=
  match m with Opened _ w' | Closed _ w' => w' ≠ w | _ => True end.

Lemma quiet_handle w desig msg : moves (quiet w) (handleIncomingMessage desig msg).
Proof.
  unfold handleIncomingMessage. pose proof quiet_incomingEvent.
  repeat (apply moves_bind_lift; [apply _|intros ? ?]).
  repeat case_match; prove_moves.
Qed.

Lemma quiet_step w snap m : m ≠ DatabaseChanged → spares w m → moves (quiet w) (do_step (snap, m)).
Proof.
  intros Hm Hw. destruct m; try done; unfold do_step, onTrigger; cbn [fst snd for_each on_event].
  - apply moves_bind; [apply _| |auto with moves]. apply moves_bind; [apply _|auto with moves|intros names].
    apply moves_bind; [apply _|auto with moves|intros t]. apply moves_for_each; [apply _|intros n _].
    apply quiet_in_group, quiet_tryConnects.
  - unfold on_connection, has_group. apply moves_bind; [apply _|auto with moves|intros []]; [|auto with moves].
    by apply quiet_in_group, quiet_connOpen.
  - unfold on_disconnection, has_group. apply moves_bind; [apply _|auto with moves|intros []]; [|auto with moves].
    by apply quiet_in_group, quiet_connClose.
  - unfold on_ws_message, has_group. apply moves_bind; [apply _|auto with moves|intros []]; [|auto with moves].
    apply moves_try; [apply _|apply quiet_handle|intros e; auto with moves].
Qed.

Lemma caught_in_group {A : Type} n (f : SE group_state A) :
  throws_only_caught f → throws_only_caught (in_group n f).
Proof.
  intros Hf s e s'. unfold in_group. destruct (streamGroups s !! n) as [g|]; [|by intros [= <- <-]].
  destruct (f _) as [r gs] eqn:E. intros [= -> <-]. by apply Hf in E.
Qed.

Lemma caught_incomingEvent url ev : throws_only_caught (incomingEvent url ev).
Proof.
  unfold incomingEvent. apply caught_bind; [auto with caught|intros g].
  case_decide; [auto with caught|]. destruct (policy_accept _ _ _ _ _) as [[res okMsg] pl].
  unfold set_grp, make, log_blocked. prove_steps.
Qed.

Lemma caught_at_pos v i : only_caught (at_pos v i).
Proof. unfold at_pos. prove_caught. Qed.

Lemma caught_get_boolean v : only_caught (get_boolean v).
Proof. unfold get_boolean. prove_caught. Qed.

Lemma caught_handle desig msg : throws_only_caught (handleIncomingMessage desig msg).
Proof.
  unfold handleIncomingMessage. pose proof caught_at_pos. pose proof caught_get_boolean.
  repeat (apply caught_bind; [apply caught_lifted; prove_caught|intros ?]).
  repeat case_match; prove_steps; try (apply caught_lifted; prove_caught).
  apply caught_in_group, caught_incomingEvent.
Qed.

Lemma in_group_run {A : Type} (f : SE group_state A) n s g a gs :
  streamGroups s !! n = Some g → f (mk_gs g (router_calls s) (router_tick s)) = (Ok a, gs) →
  ∃ s', in_group n f s = (Ok a, s') ∧ streamGroups s' = <[n := grp gs]> (streamGroups s).
Proof. intros Hg Hf. unfold in_group. rewrite Hg, Hf. by eexists. Qed.

Lemma timer_run t names s : (∀ n, n ∈ names → is_Some (streamGroups s !! n)) →
  ∃ s', for_each (λ n, in_group n (tryConnects curr_time_us t)) names s = (Ok tt, s').
Proof.
  revert s. induction names as [|n names IH]; intros s Hn; [by eexists|].
  destruct (Hn n ltac:(constructor)) as [g Hg].
  destruct (tryConnects_run t (mk_gs g (router_calls s) (router_tick s))) as (gs & Ef & _).
  destruct (in_group_run _ n s g tt gs Hg Ef) as (s1 & E1 & Hs1).
  cbn [for_each]. unfold mbind, SE_bind. rewrite E1. apply IH. intros n' Hn'. rewrite Hs1.
  destruct (decide (n' = n)) as [->|]; [by rewrite lookup_insert_eq; eexists|].
  rewrite lookup_insert_ne by done. apply Hn. by constructor 2.
Qed.

Lemma connOpen_run url w gs : settings_ready (settings (grp gs)) →
  ∃ gs', connOpen url w gs = (Ok tt, gs').
Proof.
  intros [_ Hlim]. unfold connOpen, mbind, SE_bind, gets. destruct (conns (grp gs) !! url) as [c|]; [|by eexists].
  destruct (ws c); [by eexists|]. cbn. destruct (goes_down (dir (grp gs))) eqn:Hd; [|by eexists].
  destruct (Hlim Hd) as [v Hv]. cbn in Hv. unfold lift. rewrite Hv. by eexists.
Qed.

Lemma other_step_run snap s m : m ≠ DatabaseChanged → router_ok snap s →
  ∃ s', do_step (snap, m) s = (Ok tt, s').
Proof.
  intros Hm Hok. destruct m as [| |desig w|desig w|desig w msg]; try done; unfold do_step; cbn [fst snd].
  - unfold onTrigger, on_event. cbn [for_each]. unfold mbind at 1, SE_bind at 1.
    destruct (timer_run (connectionTimeoutUs s) (sorted_urls (streamGroups s)) s) as [s' E].
    { by intros n ?%sorted_urls_elem. }
    unfold mbind at 1, SE_bind at 1, gets at 1. unfold mbind at 1, SE_bind at 1, gets at 1. rewrite E.
    by eexists.
  - unfold on_connection, has_group, mbind, SE_bind, gets.
    case_bool_decide as Hd; [|by eexists]. destruct Hd as [g Hg].
    destruct (connOpen_run (desig_url desig) w (mk_gs g (router_calls s) (router_tick s))) as [gs Ef].
    { apply (ro_group _ _ _ _ Hok Hg). }
    destruct (in_group_run _ _ s g tt gs Hg Ef) as (s' & E & _). by exists s'.
  - unfold on_disconnection, has_group, mbind, SE_bind, gets.
    case_bool_decide as Hd; [|by eexists]. destruct Hd as [g Hg].
    assert (∃ gs, connClose (desig_url desig) w (mk_gs g (router_calls s) (router_tick s)) = (Ok tt, gs))
      as [gs Ef].
    { unfold connClose, mbind, SE_bind, gets. cbn. repeat case_match; by eexists. }
    destruct (in_group_run _ _ s g tt gs Hg Ef) as (s' & E & _). by exists s'.
  - unfold on_ws_message, has_group, mbind, SE_bind, gets. case_bool_decide; [|by eexists].
    destruct (try_catch_total (handleIncomingMessage desig msg) (λ _, mret tt) s) as ([] & s' & E).
    { apply caught_handle. }
    { intros e s'. by eexists _, _. }
    by exists s'.
Qed.

(** ** Runs *)

Lemma router_ok_grows s0 snap s : grows s0 snap → router_ok s0 s → router_ok snap s.
Proof.
  intros Hg [Hd Hc Hr]. split; [by apply (grows_caches _ _ _ Hg)| |done].
  pose proof (gr_latest _ _ Hg). lia.
Qed.

Lemma quiet_ok snap w s s' : quiet w s s' → router_ok snap s → router_ok snap s'.
Proof. intros [] []. by split; rewrite ?qt_decomp0, ?qt_curr0, ?qt_settings0. Qed.

Lemma quiet_socket w s s' name url : quiet w s s' → socket_of s w name url → socket_of s' w name url.
Proof. intros [] []. split; [by apply qt_conn0|]. intros n u ?%qt_conn0. by apply sk_only0. Qed.

(** One step, seen from [w]. *)
Lemma step_run snap m s w name url g :
  readable snap → router_ok snap s → socket_of s w name url → streamGroups s !! name = Some g →
  spares w m →
  ∃ s' g', do_step (snap, m) s = (Ok tt, s') ∧ router_ok snap s' ∧ socket_of s' w name url ∧
    streamGroups s' !! name = Some g' ∧ settings g' = settings g ∧
    (currEventId_ s ≤ currEventId_ s')%N ∧ (m = DatabaseChanged → currEventId_ s' = latest snap) ∧
    pluginUp g' = (screened g (passes snap g (currEventId_ s) (currEventId_ s'))).2 ∧
    sent_to w (router_calls s') = sent_to w (router_calls s) ++
      messages (screened g (passes snap g (currEventId_ s) (currEventId_ s'))).1.
Proof.
  intros Hs Hok Hsk Hg Hm. assert (m = DatabaseChanged ∨ m ≠ DatabaseChanged) as [->|Hne]
    by (destruct m; by auto).
  - destruct (db_change snap s Hs Hok) as (s' & new & E & Hr & Hok' & Hc & Hcalls & Hsent).
    destruct (Hsent name g Hg) as (g' & Hg' & Hset & Hup & Hw).
    exists s', g'. pose proof (ro_curr _ _ Hok). rewrite Hc. split_and!; try done.
    + unfold do_step, onTrigger. cbn [fst snd for_each on_event]. unfold mbind, SE_bind. by rewrite E.
    + by apply (routed_socket s).
    + by rewrite Hcalls, sent_to_app, (Hw w url Hsk).
  - destruct (other_step_run snap s m Hne Hok) as [s' E].
    pose proof (quiet_step w snap m Hne Hm s _ s' E) as Hq.
    destruct (settings_lookup _ _ _ _ (qt_settings _ _ _ Hq) Hg) as (g' & Hg' & Hset).
    assert (passes snap g (currEventId_ s) (currEventId_ s) = []) as Hnone.
    { unfold passes. rewrite (due_ids_empty cfg text) by (done || apply Hs). by case_decide. }
    exists s', g'. rewrite (qt_curr _ _ _ Hq), Hnone. split_and!; try done.
    + by apply (quiet_ok snap w s).
    + by apply (quiet_socket w s).
    + assert ((pluginUp <$> streamGroups s') !! name = (pluginUp <$> streamGroups s) !! name) as Hup
        by by rewrite (qt_up _ _ _ Hq).
      rewrite !lookup_fmap, Hg, Hg' in Hup. by injection Hup.
    + by rewrite (qt_sent _ _ _ Hq), app_nil_r.
Qed.

(** C15: while the configuration stays as it is, an open connection of a stream
    group gets an [EVENT] message for exactly the events its group lets
    through, each once and in levId order.  The group's upload plugin is asked
    about the events that are due - all that match the filter, have a levId
    after the router's position and are still in the store at the last change it
    has seen, and none that never matched - and the connection gets those that
    it accepts: all of them, if the group has no such plugin.  A group whose
    direction is [down] uploads nothing, so its connections get no events.
    This holds for every run of database changes, timer events, other
    connections opening and closing and messages coming in, which ends without
    an exception, whatever any plugin answers. *)
Theorem router_streams snap0 steps s w name url g :
  snap_ok cfg text snap0 → router_ok snap0 s → socket_of s w name url →
  streamGroups s !! name = Some g →
  follows readable snap0 steps → Forall (λ p, spares w p.2) steps →
  ∃ s' due, for_each do_step steps s = (Ok tt, s') ∧
    sent_to w (router_calls s') = sent_to w (router_calls s) ++ messages (screened g due).1 ∧
    (pluginUpCmd g = [] → (screened g due).1 = due) ∧
    (∀ p, last steps = Some p → p.2 = DatabaseChanged → currEventId_ s' = latest p.1) ∧
    (dir g = #"down" → due = []) ∧
    (dir g ≠ #"down" → delivers (steps.*1) (last_snap snap0 steps) (filterCompiled_ g)
      (currEventId_ s) (currEventId_ s') due).
Proof.
  intros Hs0 Hok Hsk Hg Hst Hsp.
  enough (∃ s' due, for_each do_step steps s = (Ok tt, s') ∧ (currEventId_ s ≤ currEventId_ s')%N ∧
    sent_to w (router_calls s') = sent_to w (router_calls s) ++ messages (screened g due).1 ∧
    (∀ p, last steps = Some p → p.2 = DatabaseChanged → currEventId_ s' = latest p.1) ∧
    (dir g = #"down" → due = []) ∧
    (dir g ≠ #"down" → delivers (steps.*1) (last_snap snap0 steps) (filterCompiled_ g)
      (currEventId_ s) (currEventId_ s') due)) as (s' & due & ? & _ & ? & ?).
  { exists s', due. split; [done|]. split; [done|]. split; [|done]. unfold screened. intros ->. apply screen_none. }
  revert snap0 s g Hs0 Hok Hsk Hg Hst. induction Hsp as [|[snap m] steps Hm Hsp IH];
    intros snap0 s g Hs0 Hok Hsk Hg Hst.
  { exists s, []. split_and!; try done. { by rewrite app_nil_r. } intros _. by apply delivers_nil. }
  destruct Hst as (Hs & Hgr & Hst). pose proof (router_ok_grows _ _ _ Hgr Hok) as Hok1.
  destruct (step_run snap m s w name url g Hs Hok1 Hsk Hg Hm)
    as (s1 & g1 & E1 & Hok2 & Hsk1 & Hg1 & Hset & Hle1 & Hdb & Hup1 & Hsent1).
  destruct (IH snap s1 g1 (rd_ok _ Hs) Hok2 Hsk1 Hg1 Hst)
    as (s' & due & E & Hle & Hsent & Hlast & Hdown & Hdel).
  exists s', (passes snap g (currEventId_ s) (currEventId_ s1) ++ due).
  assert (dir g1 = dir g ∧ filterCompiled_ g1 = filterCompiled_ g) as [Hdir Hfc].
  { unfold settings in Hset. split; congruence. }
  cbn [for_each]. unfold mbind, SE_bind. rewrite E1. split; [done|]. split; [lia|].
  split.
  { unfold screened in *. rewrite screen_app, Hsent, Hsent1, Hup1, (settings_cmd _ _ Hset), <-app_assoc.
    cbn [fst]. unfold messages. by rewrite fmap_app. }
  split.
  { intros p Hp Hdbp. rewrite last_cons in Hp. destruct (last steps) as [q|] eqn:Hq.
    - injection Hp as ->. by apply Hlast.
    - injection Hp as <-. apply last_None in Hq. subst steps. injection E as <-. by apply Hdb. }
  unfold passes. split.
  - intros Hd. rewrite decide_True by done. by rewrite Hdown by congruence.
  - intros Hd. rewrite decide_False by done. rewrite last_snap_cons, fmap_cons. cbn [fst].
    rewrite <-Hfc. apply (delivers_app cfg text); try done; [apply Hs| |apply Hok2|apply Hdel; congruence].
    apply (follows_grows readable); [intros s2 [Hs2 _]; apply Hs2|apply Hs|done].
Qed.
End router.

(** ** Reloading the configuration *)

Section reload.
Context `{!Hex, !NativeU64, !GolpeKeys, !Env, !JsonParser, !EventLibs, !Zstd, !WritePolicy}.
Context (curr_time_us : nat → N) (w : N) (url : bytes).

(** The open connection to [url] was neither closed nor sent anything. *)
Record untouched (d : bytes) (s : group_state) : Prop := {
  un_at : conn_ws (grp s) url = Some w;
  un_only : ∀ u, conn_ws (grp s) u = Some w → u = url;
  un_open : WsClose w ∉ made s;
  un_quiet : sent_to w (made s) = [];
  un_dir : dir (grp s) = d;
}.

(** Dropping a connection closes its websocket. *)
Lemma erase_conn_run u s :
  ∃ s', erase_conn u s = (Ok tt, s') ∧
    grp s' = with_conns (grp s) (delete u (conns (grp s))) ∧
    made s' = made s ++ (match conn_ws (grp s) u with Some v => [WsClose v] | None => [] end).
Proof.
  unfold erase_conn, conn_ws, mbind, SE_bind, gets. destruct (conns (grp s) !! u) as [[[v|] st]|] eqn:Hu; cbn.
  - by eexists.
  - eexists. split; [done|]. by rewrite app_nil_r.
  - exists s. split; [done|]. split; [|by rewrite app_nil_r].
    rewrite delete_id by done. by destruct s as [[] ? ?].
Qed.

Lemma erase_others_run d us s : url ∉ us → untouched d s →
  ∃ s', for_each erase_conn us s = (Ok tt, s') ∧ untouched d s'.
Proof.
  revert s. induction us as [|u us IH]; intros s Hu Hs; [by exists s|].
  destruct (erase_conn_run u s) as (s1 & E1 & Hg & Hm). cbn [for_each]. unfold mbind, SE_bind.
  rewrite E1. apply not_elem_of_cons in Hu as [Hne Hu]. apply IH; [done|]. destruct Hs.
  assert (∀ u', conn_ws (with_conns (grp s) (delete u (conns (grp s)))) u' = Some w →
    conn_ws (grp s) u' = Some w) as Hdel.
  { intros u'. unfold conn_ws. cbn. destruct (decide (u' = u)) as [->|]; [by rewrite lookup_delete_eq|].
    by rewrite lookup_delete_ne. }
  split; rewrite ?Hg, ?Hm; cbn.
  - unfold conn_ws. cbn. by rewrite lookup_delete_ne.
  - intros u' Hu'. by apply un_only0, Hdel.
  - rewrite not_elem_of_app. split; [done|]. destruct (conn_ws (grp s) u) as [v|] eqn:Hv; [|set_solver].
    intros [= <-]%list_elem_of_singleton. by apply Hne, eq_sym, un_only0.
  - rewrite sent_to_app, un_quiet0. by destruct (conn_ws (grp s) u).
  - done.
Qed.

Lemma drop_unneeded_run d s : url ∈ urls (grp s) → untouched d s →
  ∃ s', drop_unneeded s = (Ok tt, s') ∧ untouched d s'.
Proof.
  intros Hu Hs. unfold drop_unneeded, mbind, SE_bind, gets. apply erase_others_run; [|done].
  rewrite list_elem_of_filter. tauto.
Qed.

Lemma connects_untouched d s s' : connects s s' → untouched d s → untouched d s'.
Proof.
  intros [Hq Hm] []. destruct (Hq w) as [Hset _ Hsent Hconn]. split.
  - by apply Hconn.
  - intros u ?%Hconn. by apply un_only0.
  - by rewrite Hm.
  - by rewrite Hsent.
  - unfold settings in Hset. congruence.
Qed.

(** The four parts of [configure] that only set fields, for a group that
    follows every event. *)
Definition spec_of (d : bytes) (us : option (list bytes)) : value :=
  JObject ((#"dir", JString d) ::
    match us with Some us => [(#"urls", JArray (JString <$> us))] | None => [] end).

Lemma configure_dir_run d us s :
  configure_dir (spec_of d us) s =
    (Ok (negb (bool_decide (d = dir (grp s)))), mk_gs (with_dir (grp s) d) (made s) (gtick s)).
Proof. done. Qed.

Lemma configure_filter_run d us s :
  ∃ compiled, configure_filter (spec_of d us) s =
    (Ok (negb (bool_decide (json_to_string (JObject []) = filterStr (grp s)))),
     mk_gs (with_filter (grp s) (json_to_string (JObject [])) (JObject []) compiled) (made s) (gtick s)).
Proof.
  assert (∃ c, NostrFilterGroup_unwrapped (JObject []) MAX_U64 = Ok c) as [c Hc]
    by (eexists; vm_compute; reflexivity).
  exists c. unfold configure_filter, mbind, SE_bind, lift.
  assert (spec_find (spec_of d us) #"filter" = Ok None) as -> by by destruct us.
  unfold set_grp, modify, gets. cbn -[NostrFilterGroup_unwrapped]. by rewrite Hc.
Qed.

Lemma configure_plugins_run d us s :
  configure_plugins (spec_of d us) s = (Ok tt, mk_gs (with_cmds (grp s) [] []) (made s) (gtick s)).
Proof. by destruct us. Qed.

Lemma configure_urls_run d us s :
  configure_urls (spec_of d (Some us)) s = (Ok tt, mk_gs (with_urls (grp s) us) (made s) (gtick s)).
Proof.
  assert (∀ pre s1, urls (grp s1) = pre →
    for_each (λ x, s ← lift (get_string x); set_grp (λ g, with_urls g (urls g ++ [s]))) (JString <$> us) s1 =
    (Ok tt, mk_gs (with_urls (grp s1) (pre ++ us)) (made s1) (gtick s1))) as Hrun.
  { induction us as [|u us IH]; intros pre s1 Hpre.
    - rewrite app_nil_r, <-Hpre. by destruct s1 as [[] ? ?].
    - rewrite fmap_cons. cbn [for_each]. unfold mbind, SE_bind, lift, set_grp, modify in *. cbn.
      rewrite (IH (pre ++ [u])) by (cbn; by rewrite Hpre). cbn. by rewrite <-app_assoc. }
  exact (Hrun [] (mk_gs (with_urls (grp s) []) (made s) (gtick s)) eq_refl).
Qed.

Lemma configure_run t d us s g :
  g = grp s →
  ∃ compiled, configure curr_time_us t (spec_of d (Some us)) s =
    (_ ← drop_unneeded;
     _ ← (if negb (bool_decide (d = dir g)) ||
             negb (bool_decide (json_to_string (JObject []) = filterStr g))
          then drop_all_conns else mret tt);
     tryConnects curr_time_us t)
    (mk_gs (with_urls (with_cmds (with_filter (with_dir g d) (json_to_string (JObject [])) (JObject [])
       compiled) [] []) us) (made s) (gtick s)).
Proof.
  intros ->.
  destruct (configure_filter_run d (Some us) (mk_gs (with_dir (grp s) d) (made s) (gtick s))) as [c Hc].
  exists c. unfold configure. unfold mbind at 1, SE_bind at 1. rewrite configure_dir_run.
  unfold mbind at 1, SE_bind at 1. rewrite Hc.
  unfold mbind at 1, SE_bind at 1. rewrite configure_plugins_run.
  unfold mbind at 1, SE_bind at 1. by rewrite configure_urls_run.
Qed.

(** What the same configuration does when it is read at once. *)
Lemma drop_all_closes s : conn_ws (grp s) url = Some w →
  ∃ s', drop_all_conns s = (Ok tt, s') ∧ WsClose w ∈ made s'.
Proof.
  intros Hw. unfold drop_all_conns, mbind, SE_bind, gets.
  assert (∀ us s1, WsClose w ∈ made s1 →
    ∃ s2, for_each erase_conn us s1 = (Ok tt, s2) ∧ WsClose w ∈ made s2) as Herase.
  { induction us as [|u us IH]; intros s1 Hm; [by exists s1|].
    destruct (erase_conn_run u s1) as (s2 & E & _ & Hm2). cbn [for_each]. unfold mbind, SE_bind.
    rewrite E. apply IH. rewrite Hm2. set_solver. }
  assert (∀ us s1, url ∈ us ∨ WsClose w ∈ made s1 →
    ∃ s2, for_each (λ u, match conns (grp s) !! u with
        | Some c => for_each make (destroy_connection c) | None => mret tt end) us s1 = (Ok tt, s2) ∧
      WsClose w ∈ made s2) as Hclose.
  { induction us as [|u us IH]; intros s1 Hm.
    { exists s1. split; [done|]. destruct Hm as [?%elem_of_nil|]; done. }
    cbn [for_each]. unfold mbind, SE_bind, conn_ws in *.
    destruct (conns (grp s) !! u) as [[[v|] st]|] eqn:Hu; cbn; apply IH; cbn.
    - destruct Hm as [[<-|?]%elem_of_cons|?]; [|by left|right; set_solver].
      rewrite Hu in Hw. cbn in Hw. right. injection Hw as ->. set_solver.
    - destruct Hm as [[<-|?]%elem_of_cons|?]; [|by left|by right]. by rewrite Hu in Hw.
    - destruct Hm as [[<-|?]%elem_of_cons|?]; [|by left|by right]. by rewrite Hu in Hw. }
  destruct (Hclose (sorted_urls (conns (grp s))) s) as (s2 & -> & Hm).
  { left. apply sorted_urls_elem. unfold conn_ws in Hw. by destruct (conns (grp s) !! url). }
  by apply Herase.
Qed.

(** A failed reload forgets that the connections have to be renewed.  A
    configuration that changes a group's direction but lacks its urls is
    refused, yet the direction is changed already; once the urls are there, the
    reload succeeds, but the open connection to a url that stays is neither
    closed nor sent a new subscription.  The same configuration, read at once,
    closes it. *)
Theorem reload_forgets_reconnect t d us g k :
  d ≠ dir g → filterStr g = json_to_string (JObject []) →
  conn_ws g url = Some w → (∀ u, conn_ws g u = Some w → u = url) → url ∈ us →
  (∃ s1 s2, configure curr_time_us t (spec_of d None) (mk_gs g [] k) = (Throw (herr #"no urls field"), s1) ∧
     configure curr_time_us t (spec_of d (Some us)) s1 = (Ok tt, s2) ∧ untouched d s2) ∧
  (∃ s3, configure curr_time_us t (spec_of d (Some us)) (mk_gs g [] k) = (Ok tt, s3) ∧
     WsClose w ∈ made s3).
Proof.
  intros Hd Hf Hw Honly Hu. split.
  - destruct (configure_filter_run d None (mk_gs (with_dir g d) [] k)) as [c Hc].
    set (g1 := with_cmds (with_filter (with_dir g d) (json_to_string (JObject [])) (JObject []) c) [] []).
    assert (configure curr_time_us t (spec_of d None) (mk_gs g [] k) =
      (Throw (herr #"no urls field"), mk_gs g1 [] k)) as E1.
    { unfold configure. unfold mbind at 1, SE_bind at 1. rewrite configure_dir_run.
      unfold mbind at 1, SE_bind at 1. cbn [grp made gtick]. rewrite Hc.
      unfold mbind at 1, SE_bind at 1. by rewrite configure_plugins_run. }
    destruct (configure_run t d us (mk_gs g1 [] k) g1 eq_refl) as [c' E2].
    cbn [dir filterStr g1 with_cmds with_filter with_dir] in E2.
    rewrite !bool_decide_eq_true_2 in E2 by done. cbn [negb orb made gtick] in E2. revert E2.
    set (s2 := mk_gs (with_urls _ _) _ _).
    destruct (drop_unneeded_run d s2) as (s3 & E3 & Hs3); [done|by split; try set_solver|].
    destruct (tryConnects_run curr_time_us t s3) as (s4 & E4 & Hs4). unfold mbind, SE_bind, mret, SE_ret.
    rewrite E3, E4. intros E2. exists (mk_gs g1 [] k), s4. split; [exact E1|]. split; [exact E2|].
    by eapply connects_untouched.
  - destruct (configure_run t d us (mk_gs g [] k) g eq_refl) as [c E]. rewrite E.
    rewrite bool_decide_eq_false_2 by done. cbn [negb orb made gtick]. set (s2 := mk_gs (with_urls _ _) _ _).
    destruct (drop_unneeded_run d s2) as (s3 & E3 & Hs3); [done|by split; try set_solver|].
    destruct (drop_all_closes s3 (un_at _ _ Hs3)) as (s4 & E4 & Hm4).
    destruct (tryConnects_run curr_time_us t s4) as (s5 & E5 & Hs5). exists s5. unfold mbind, SE_bind.
    rewrite E3, E4, E5. split; [done|]. by apply (cn_made _ _ Hs5).
Qed.
End reload.
