(* ===== verification/RelayWitnesses.v ===== *)
(** The relay thread theorems at concrete databases and messages. *)

From S2P Require Import Prelude Bytes Json Hex PackedEvent FilterSets Filters Config EventParse.
From S2P Require Import Db MemDb Payload StoreTheorems Subscription Monitors MonitorLookups.
From S2P Require Import StoreHistory MonitorInv MonitorTheorems RelayServer ReqMonitor Handoff.
From stdpp Require Import fin_maps.

#[local] Existing Instance toy_zstd.

(** The sample event at several levIds; the store is a map from levIds to
    texts. *)
Definition relay_text (l : N) : bytes := le_encode 4 l.

Definition relay_db (ls : list N) : mem :=
  mk_tables (encode <$> list_to_map ((λ l, (l, sample_event)) <$> ls))
    (list_to_map ((λ l, (l, "000"%char :: relay_text l)) <$> ls)) ∅ (Some (mk_meta 3 1 1)) [] ∅.

Definition relay_snap (ls : list N) : snapshot :=
  mk_snapshot (relay_db ls : env) (list_to_map ((λ l, (l, sample_event)) <$> ls)).

Lemma relay_lookup {A : Type} (f : N → A) ls l :
  (list_to_map ((λ l, (l, f l)) <$> ls) : gmap N A) !! l = if decide (l ∈ ls) then Some (f l) else None.
Proof.
  induction ls as [|x ls IH]; [done|]. rewrite fmap_cons. cbn [list_to_map foldr fst snd].
  destruct (decide (x = l)) as [->|Hx].
  - rewrite lookup_insert_eq. by rewrite decide_True by constructor.
  - rewrite lookup_insert_ne, IH by done. repeat case_decide; try done; exfalso; set_solver.
Qed.

Lemma relay_event ls l :
  snap_events (relay_snap ls) !! l = if decide (l ∈ ls) then Some sample_event else None.
Proof. apply (relay_lookup (λ _, sample_event)). Qed.

Lemma relay_payload ls l : EventPayload (tables (snap_db (relay_snap ls))) !! l =
  if decide (l ∈ ls) then Some ("000"%char :: relay_text l) else None.
Proof. apply (relay_lookup (λ l, "000"%char :: relay_text l)). Qed.

Lemma relay_snap_ok ls :
  Forall (λ l, (l < 1000)%N) ls → snap_ok default_config relay_text (relay_snap ls).
Proof.
  intros Hls. split.
  - split; [done|]. intros l e. simpl. rewrite (relay_lookup (λ _, sample_event)).
    case_decide as Hl; [|done]. intros [= <-]. split; [|apply sample_event_wf].
    rewrite Forall_forall in Hls. specialize (Hls l Hl). unfold is_u64, two64. lia.
  - intros l. simpl. rewrite (relay_lookup (λ _, sample_event)). case_decide as Hl; [|by intros []].
    intros _. unfold event_text. simpl.
    rewrite (relay_lookup (λ l, "000"%char :: relay_text l)), decide_True by done. done.
  - unfold latest. destruct (getMostRecentLevId_spec (snap_db (relay_snap ls))) as [[-> _]|[[v Hv] _]].
    + done.
    + unfold MAX_U64. revert Hv. generalize (getMostRecentLevId (snap_db (relay_snap ls))).
      intros l. simpl. rewrite lookup_fmap, (relay_lookup (λ _, sample_event)).
      case_decide as Hl; [|done]. rewrite Forall_forall in Hls. specialize (Hls l Hl).
      intros _. unfold two64. lia.
Qed.

(** Event 3 is seen by the query, 4 on the handoff; then 3 is deleted
    and 6 and 8 arrive. *)
Definition relay_before : snapshot := relay_snap [3; 4]%N.
Definition relay_after : snapshot := relay_snap [4; 6; 8]%N.

Lemma relay_grows : grows relay_before relay_after.
Proof.
  split.
  - intros l e e'. unfold relay_before, relay_after. rewrite !relay_event.
    repeat case_decide; congruence.
  - intros l. unfold relay_after at 1. rewrite relay_event.
    replace (latest relay_before) with 4%N by (vm_compute; reflexivity).
    unfold relay_before. rewrite relay_event. case_decide as Hl; [|by intros []].
    case_decide as Hn; [done|]. intros _ _. apply elem_of_cons in Hl as [->|Hl].
    { by destruct Hn; apply (bool_decide_unpack _). }
    apply elem_of_cons in Hl as [->|Hl]; [lia|]. apply list_elem_of_singleton in Hl as ->. lia.
  - vm_compute. by intros [=].
  - intros l. unfold relay_before, relay_after. rewrite !relay_event.
    repeat case_decide; try by intros [] || by intros _ [].
    intros _ _. rewrite !relay_payload. by rewrite !decide_True by done.
  - done.
Qed.

Definition relay_caches (s : snapshot) : Prop := caches_ok (mk_caches ∅ ∅) (snap_db s).

Lemma relay_caches_ok s : relay_caches s.
Proof. intros i dict. simpl. rewrite !lookup_empty. by intros [?|?]. Qed.

(** The subscription is accepted. *)
Lemma relay_accepted :
  match run_step default_config sample_iter (monitor_init ∅)
          (relay_before, ReqMonitor_NewSub sample_sub) with
  | Ok st => Monitors.monitors (ReqMonitor.monitors st) !! 0%N =
               Some (set_latestEventId sample_sub 4)
  | Throw _ => False
  end.
Proof. vm_compute. done. Qed.

Lemma handoff_exactly_once_witness :
  ∃ st1 st2 st3,
    run_steps default_config sample_iter (monitor_init ∅) [] = Ok st1 ∧
    run_step default_config sample_iter st1 (relay_before, ReqMonitor_NewSub sample_sub) = Ok st2 ∧
    run_steps default_config sample_iter st2 [(relay_after, ReqMonitor_DBChange)] = Ok st3 ∧
    N.max (latest relay_before) (currEventId st3) = 8%N ∧
    ∃ new ids, calls st3 = calls st1 ++ new ∧
      received (sub_key sample_sub) new = relay_text <$> ids ∧
      delivers [relay_before; relay_after] relay_after (filterGroup sample_sub) 3 8 ids.
Proof.
  destruct (handoff_exactly_once default_config sample_iter sample_iter_perm relay_text ∅
    relay_before [] relay_before sample_sub [(relay_after, ReqMonitor_DBChange)])
    as (st1 & st2 & st3 & [= <-] & E2 & E3 & Hdel).
  - apply relay_snap_ok. repeat (constructor; [lia|]). constructor.
  - apply relay_caches_ok.
  - split; [apply relay_snap_ok; repeat (constructor; [lia|]); constructor|].
    split; [apply grows_refl|]. split; [split; [exact sample_sub_ready|by vm_compute]|].
    split; [apply relay_snap_ok; repeat (constructor; [lia|]); constructor|].
    split; [exact relay_grows|]. by split.
  - by constructor.
  - pose proof relay_accepted as Hacc.
    match type of Hacc with match ?x with _ => _ end =>
      replace x with (Ok st2) in Hacc by exact (eq_sym E2) end.
    destruct (Hdel (ex_intro _ 0%N Hacc)) as (Hhi & new & ids & H1' & H2' & H3').
    specialize (Hhi _ eq_refl eq_refl).
    replace (latest (last_snap relay_before [(relay_after, ReqMonitor_DBChange)])) with 8%N
      in Hhi by (vm_compute; reflexivity).
    exists (monitor_init ∅), st2, st3. rewrite Hhi in H3'. split_and!; try done. by exists new, ids.
Defined.
