(* ===== verification/MeshWitnesses.v ===== *)
(** A sync session at a concrete store: one event to upload, one to fetch. *)

From S2P Require Import Prelude Bytes Json Hex PackedEvent FilterSets Filters Config EventParse Db.
From S2P Require Import MemDb NegentropyCache EventWriter EventStore StoreTheorems Payload DBQuery.
From S2P Require Import StateExn Plugin RelayNegentropy NegentropyWitnesses ThreadWitnesses PipelineTheorems.
From S2P Require Import Sync SyncTheorems Subscription Monitors MonitorLookups MonitorTheorems.
From S2P Require Import StoreHistory ReqMonitor Handoff RelayWitnesses Router RouterTheorems.

#[local] Existing Instance toy_libs.
#[local] Existing Instance toy_zstd.
#[local] Existing Instance toy_negentropy.
#[local] Existing Instance thread_os.

#[refine, local] Instance sync_json : JsonParser := {|
  json_from_string s :=
    if decide (s = #"neg") then Ok (JArray [JString #"NEG-MSG"; JString #"N"; JString #"00"])
    else if decide (s = #"ok") then Ok (JArray [JString #"OK"; JString #"id"; JBool true])
    else if decide (s = #"eose") then Ok (JArray [JString #"EOSE"; JString #"R"])
    else Throw json_error;
|}.
Proof.
  all: intros s v; repeat case_decide; by intros [= <-] || intros [=].
Defined.

(** The other relay lacks the stored note, and has another event. *)
#[refine, local] Instance sync_client : NegentropyClient := {|
  initiate n st := Ok #"start";
  reconcile_ids n st msg := Ok (None, [ev_id sample_note], [replicate 32 "z"%char]);
|}.
Proof. all: done. Defined.

Definition sync_both : sync_params := mk_sync_params (JObject []) [filter_default] true true 60000.

Definition sync_vector : N + vector := inr (true, [(100%N, ev_id sample_note)]).

Definition no_plugin : @policy sifter_policy := new_sifter thread_world.

Abbreviation sync_msg_run :=
  (on_message default_config hex_decode #"wss://other" sync_both sync_vector (sample_stored_db : env)).

Lemma sample_sync_db : sync_db default_config ∅ (sample_stored_db : env).
Proof.
  split; [done|]. exists {[3%N := sample_note]}. split; [apply sample_stored_inv|].
  intros l [e [<- _]%lookup_singleton_Some]. by exists #"{}".
Qed.

Lemma no_caches d' : CompressionDictionary (tables d') = ∅ → caches_ok (mk_caches ∅ ∅) d'.
Proof. intros _ i dict. simpl. rewrite !lookup_empty. by intros [?|?]. Qed.

Definition sync_state (msgs : list bytes) : result () * session :=
  foldl (λ x m, sync_msg_run m x.2)
    (on_connect sync_both sync_vector (sample_stored_db : env)
       (new_session (mk_caches ∅ ∅) no_plugin)) msgs.

Definition sync_history (msgs : list bytes) : list (env * bytes) :=
  (λ m, ((sample_stored_db : env), m)) <$> msgs.

Abbreviation sync_reaches :=
  (sync_run default_config hex_decode #"wss://other" sync_both sync_vector ∅).

Lemma sync_snoc msgs m r s : (sync_state msgs).1 = Ok tt →
  sync_reaches (sync_history msgs) (sync_state msgs).2 (Ok tt) →
  sync_state (msgs ++ [m]) = (r, s) → sync_reaches (sync_history (msgs ++ [m])) s r.
Proof.
  intros _ Hrun Hm. unfold sync_history. rewrite fmap_app.
  apply (run_message _ _ _ _ _ _ _ _ _ _ _ _ Hrun sample_sync_db).
  unfold sync_state in *. by rewrite foldl_app in Hm.
Qed.

Lemma sync_connected : sync_reaches [] (sync_state []).2 (Ok tt).
Proof.
  apply (run_connect _ _ _ _ _ _ (sample_stored_db : env) (mk_caches ∅ ∅) no_plugin (Ok tt)).
  - exact no_caches.
  - vm_compute. reflexivity.
Qed.

Lemma sync_first : sync_reaches (sync_history [ #"neg"]) (sync_state [ #"neg"]).2 (Ok tt).
Proof. apply (sync_snoc [] #"neg"); [reflexivity|apply sync_connected|vm_compute; reflexivity]. Qed.





(** After the reconciliation the session waits for its upload's answer. *)
Lemma sync_waits_witness :
  syncDone (sync_state [ #"neg"]).2 = false ∨ inFlightUp (sync_state [ #"neg"]).2 ≠ 0%N ∨
  inFlightDown (sync_state [ #"neg"]).2 = true.
Proof.
  exact (proj1 (sync_waits default_config hex_decode #"wss://other" sync_both sync_vector ∅
    hex_decode_caught _ _ sync_first)).
Defined.

(** The router theorems at a concrete store and configuration. *)

#[local] Existing Instance toy_libs.
#[local] Existing Instance toy_zstd.
#[local] Existing Instance thread_os.

(** A text is the id of its event. *)
#[refine, local] Instance router_json : JsonParser := {|
  json_from_string s := Ok (JObject [(#"id", JString s)]);
|}.
Proof.
  - intros s kvs [= <-]. apply NoDup_singleton.
  - done.
  - by intros s v [= <-].
Defined.

Definition router_plugin : @policy sifter_policy := new_sifter thread_world.

(** What [configure] compiles an empty filter to. *)
Definition all_events : NostrFilter := set_indexOnlyScans filter_default true.

(** A group with an open connection, to which events go up and down. *)
Definition sample_group (d : bytes) : StreamGroup :=
  mk_group #"friends" d (json_to_string (JObject [])) [] [] [ #"wss://a"]
    {[ #"wss://a" := mk_connection (Some 7%N) 1000]} (JObject []) [all_events]
    router_plugin router_plugin.

Definition sample_router : router :=
  mk_router 20000000 (mk_caches ∅ ∅) {[ #"friends" := sample_group #"both"]} 3 true [] 0.

Lemma sample_readable ls :
  Forall (λ l, (l < 1000)%N) ls → readable default_config relay_text (relay_snap ls).
Proof.
  intros Hls. split; [by apply relay_snap_ok|]. intros l _.
  by exists (JObject [(#"id", JString (relay_text l))]), (relay_text l).
Qed.

Lemma sample_before : Forall (λ l, (l < 1000)%N) [3; 4]%N.
Proof. repeat (constructor; [lia|]). constructor. Qed.

Lemma sample_after : Forall (λ l, (l < 1000)%N) [4; 6; 8]%N.
Proof. repeat (constructor; [lia|]). constructor. Qed.

Lemma sample_group_ws d u w : conn_ws (sample_group d) u = Some w → u = #"wss://a" ∧ w = 7%N.
Proof.
  unfold conn_ws. cbn [conns sample_group]. destruct (decide (u = #"wss://a")) as [->|Hn].
  - rewrite lookup_singleton_eq. by intros [= <-].
  - by rewrite lookup_singleton_ne.
Qed.

Lemma sample_socket : socket_of sample_router 7 #"friends" #"wss://a".
Proof.
  split; [vm_compute; reflexivity|]. intros n u. unfold router_ws. cbn [streamGroups sample_router].
  destruct (decide (n = #"friends")) as [->|Hn].
  - rewrite lookup_singleton_eq. by intros [-> _]%sample_group_ws.
  - by rewrite lookup_singleton_ne.
Qed.

Lemma sample_router_ok : router_ok relay_before sample_router.
Proof.
  split; [apply relay_caches_ok|vm_compute; by intros [=]|]. intros n x. cbn [streamGroups sample_router].
  rewrite map_fmap_singleton. intros [_ <-]%lookup_singleton_Some. split.
  - constructor; [|constructor]. apply (NostrFilter_make_ready (JObject []) MAX_U64).
    vm_compute. reflexivity.
  - intros _. by eexists.
Qed.

(** The events 4, 6 and 8 are sent, of which 3 is past. *)
Lemma router_streams_witness : ∃ s' ids,
  for_each (do_step (λ _, 0%N) default_config router_plugin)
    [(relay_before, DatabaseChanged); (relay_before, Received (mk_designator #"friends" #"wss://a") 7 []);
     (relay_after, DatabaseChanged)] sample_router = (Ok tt, s') ∧
  currEventId_ s' = 8%N ∧
  sent_to 7 (router_calls s') = messages relay_text (screened relay_text (sample_group #"both") ids).1 ∧
  delivers [relay_before; relay_before; relay_after] relay_after [all_events] 3 8 ids.
Proof.
  destruct (router_streams (λ _, 0%N) default_config router_plugin relay_text relay_before
    [(relay_before, DatabaseChanged); (relay_before, Received (mk_designator #"friends" #"wss://a") 7 []);
     (relay_after, DatabaseChanged)] sample_router 7 #"friends" #"wss://a" (sample_group #"both"))
    as (s' & ids & Hrun & Hsent & _ & Hlast & _ & Hdel).
  - by apply relay_snap_ok, sample_before.
  - exact sample_router_ok.
  - exact sample_socket.
  - reflexivity.
  - split; [exact (sample_readable _ sample_before)|]. split; [apply grows_refl|].
    split; [exact (sample_readable _ sample_before)|]. split; [apply grows_refl|].
    split; [exact (sample_readable _ sample_after)|]. by split; [exact relay_grows|].
  - by repeat constructor.
  - exists s', ids. pose proof (Hlast _ eq_refl eq_refl) as Hc.
    replace (latest (relay_after, DatabaseChanged).1) with 8%N in Hc by (vm_compute; reflexivity).
    rewrite Hc in Hdel. split_and!; [exact Hrun|exact Hc|exact Hsent|].
    apply Hdel. by intros [=].
Defined.

Lemma reload_forgets_reconnect_witness :
  (∃ s1 s2, configure (λ _, 0%N) 0 (spec_of #"down" None) (mk_gs (sample_group #"up") [] 0) =
       (Throw (herr #"no urls field"), s1) ∧
     configure (λ _, 0%N) 0 (spec_of #"down" (Some [ #"wss://a"])) s1 = (Ok tt, s2) ∧
     untouched 7 #"wss://a" #"down" s2) ∧
  (∃ s3, configure (λ _, 0%N) 0 (spec_of #"down" (Some [ #"wss://a"])) (mk_gs (sample_group #"up") [] 0) =
       (Ok tt, s3) ∧ WsClose 7 ∈ made s3).
Proof.
  apply (reload_forgets_reconnect (λ _, 0%N) 7 #"wss://a" 0 #"down" [ #"wss://a"] (sample_group #"up") 0).
  - by intros [=].
  - reflexivity.
  - reflexivity.
  - by intros u [-> _]%sample_group_ws.
  - constructor.
Defined.
