(* ===== verification/StreamWitnesses.v ===== *)
(** The stream theorems at a concrete store: the event that was downloaded is
    not sent back, the others are sent. *)

From S2P Require Import Prelude Bytes Json Hex PackedEvent FilterSets Filters Config EventParse.
From S2P Require Import Db MemDb Payload Subscription Monitors MonitorLookups MonitorTheorems StoreHistory.
From S2P Require Import StateExn Plugin ReqMonitor Handoff RelayWitnesses ThreadWitnesses Sync.
From S2P Require Import WSConnection Stream StreamTheorems.

#[local] Existing Instance toy_libs.
#[local] Existing Instance toy_zstd.
#[local] Existing Instance thread_os.

#[refine, local] Instance stream_json : JsonParser := {|
  json_from_string s := Ok (JArray [JString #"EVENT"; JString #"sub"; JObject [(#"id", JString s)]]);
|}.
Proof.
  - by intros s kvs [=].
  - by intros s e [=].
  - by intros s v [= <-].
Defined.

(** Hex is what it stands for. *)
Definition no_hex (s : bytes) : result bytes := Ok s.

Lemma no_hex_caught s : only_caught (no_hex s).
Proof. apply only_caught_Ok. Qed.

Definition stream_ids (l : N) : bytes := ev_id sample_event.

Lemma relay_stream_snap ls :
  Forall (λ l, (l < 1000)%N) ls → stream_snap default_config relay_text stream_ids (relay_snap ls).
Proof.
  intros Hls. split; [by apply relay_snap_ok|]. intros l e. rewrite relay_event.
  case_decide; [|done]. by intros [= <-].
Qed.

Lemma stream_before : Forall (λ l, (l < 1000)%N) [3; 4]%N.
Proof. repeat (constructor; [lia|]). constructor. Qed.

Lemma stream_after : Forall (λ l, (l < 1000)%N) [4; 6; 8]%N.
Proof. repeat (constructor; [lia|]). constructor. Qed.

(** Connected or not, with everything up to levId 3 sent. *)
Definition sample_stream (w : option N) : WSConnection stream :=
  mk_connection true true w false [] [] (mk_stream ∅ 3 (mk_caches ∅ ∅) (new_sifter thread_world) []).

Lemma sample_stream_ok w : stream_ok relay_before (owner (sample_stream w)).
Proof. split; [apply relay_caches_ok|vm_compute; by intros [=]]. Qed.

Abbreviation stream_do := (do_step default_config no_hex #"wss://a" #"both").

(** A run that downloads an event and visits the events that are stored then. *)
Definition sample_steps : list (snapshot * stream_step) :=
  [(relay_before, Heard (ev_id sample_event)); (relay_before, Triggered); (relay_after, Triggered)].

Lemma sample_downloads :
  downloads default_config no_hex #"wss://a" #"both" (new_sifter thread_world) sample_steps =
  [[ev_id sample_event]; []; []].
Proof. vm_compute. reflexivity. Qed.

Lemma stream_uploads_witness : ∃ c' Ts,
  for_each stream_do sample_steps (sample_stream (Some 7%N)) = (Ok tt, c') ∧
  got <$> Ts = [[ev_id sample_event]; []; []] ∧
  currEventId (owner c') = 8%N ∧ conn_calls c' = SendText 7 <$> messages relay_text (visits (mjoin Ts)) ∧
  delivers [relay_before; relay_before; relay_after] relay_after everything 3 8 (visits (mjoin Ts)).*1 ∧
  no_echo stream_ids ∅ [] (mjoin Ts).
Proof.
  destruct (stream_uploads default_config no_hex #"wss://a" #"both" no_hex_caught relay_text stream_ids
    relay_before sample_steps (sample_stream (Some 7%N)) 7)
    as (c' & Ts & Hrun & Hgot & _ & Hcalls & Hdel & Hlast & Hecho).
  - intros [=].
  - reflexivity.
  - reflexivity.
  - apply relay_snap_ok, stream_before.
  - apply sample_stream_ok.
  - split; [exact (relay_stream_snap _ stream_before)|]. split; [apply grows_refl|].
    split; [exact (relay_stream_snap _ stream_before)|]. split; [apply grows_refl|].
    split; [exact (relay_stream_snap _ stream_after)|]. by split; [exact relay_grows|].
  - exists c', Ts. pose proof (Hlast _ eq_refl eq_refl) as Hc.
    replace (latest (relay_after, Triggered).1) with 8%N in Hc by (vm_compute; reflexivity).
    rewrite Hc in Hdel. rewrite <-sample_downloads.
    split_and!; [exact Hrun|exact Hgot|exact Hc|exact Hcalls|exact Hdel|exact Hecho].
Defined.

Lemma stream_offline_loss_witness : ∃ c1 c2 c3 vis hello,
  ws_asyncCb (stream_callbacks default_config no_hex #"wss://a" #"both" (snap_db relay_before))
    (sample_stream None) = (Ok tt, c1) ∧
  ws_onConnection (stream_callbacks default_config no_hex #"wss://a" #"both" (snap_db relay_before)) 7
    #"1.2.3.4" c1 = (Ok tt, c2) ∧
  for_each stream_do [(relay_after, Triggered)] c2 = (Ok tt, c3) ∧
  conn_calls c3 = (SetKeepalive 7 :: sends (Some 7%N) hello) ++ (SendText 7 <$> messages relay_text vis) ∧
  ∀ p, p ∈ vis → (latest relay_before < p.1)%N.
Proof.
  apply (stream_offline_loss default_config no_hex #"wss://a" #"both" no_hex_caught relay_text stream_ids
    relay_before [(relay_after, Triggered)] (sample_stream None) 7 #"1.2.3.4").
  - intros [=].
  - reflexivity.
  - reflexivity.
  - exact (relay_stream_snap _ stream_before).
  - apply sample_stream_ok.
  - split; [exact (relay_stream_snap _ stream_after)|]. by split; [exact relay_grows|].
Defined.
