(* ===== verification/ImportExport.v ===== *)
(** Moving events out of and into a store ([apps/dbutils/cmd_export.cpp],
    [cmd_import.cpp]).

    [cmd_export] writes the texts of a window of the [created_at] index to the
    standard output, one line each; a [--fried] line carries the packed record
    as well.  [import_line] reads one line back, and [cmd_import] is what the
    command does with the writer pipeline: one write per readable line, a wait
    after each, and a flush at the end. *)

From S2P Require Import Prelude Bytes Json Hex PackedEvent FilterSets Filters Config EventParse.
From S2P Require Import Db EventWriter Payload StateExn WriterPipeline.

Definition newline : ascii := "010".
Definition quote : ascii := "034".

(** Texts printed one a line. *)
Definition printed (texts : list bytes) : bytes := concat ((λ t, t ++ [newline]) <$> texts).

(** What stands before and after the hexadecimal text of a fried line. *)
Definition fried_key : bytes := #"," ++ [quote] ++ #"fried" ++ [quote] ++ #":" ++ [quote].
Definition fried_end : bytes := [quote] ++ #"}".

(** ** Export *)

Record export_args := mk_export_args {
  arg_since : option N;
  arg_until : option N;
  arg_reverse : bool;
  arg_fried : bool;
}.

Section export.
Context `{!Hex, !NativeU64, !GolpeKeys, !Env, !Zstd} (cfg : Config).

Definition getDBVersion (d : env) : N :=
  match Meta (tables d) with Some s => meta_dbVersion s | None => 0%N end.

(** The decompressor and what was printed. *)
Record exporter := mk_exporter { ex_decomp : DictCaches; ex_out : bytes }.

Definition print (o : bytes) : SE exporter () :=
  modify (λ s, mk_exporter (ex_decomp s) (ex_out s ++ o)).

Definition exported_json (d : env) (levId : N) : SE exporter bytes := λ s,
  match getEventJson cfg (ex_decomp s) d levId with
  | Ok (c, json) => (Ok json, mk_exporter c (ex_out s))
  | Throw e => (Throw e, s)
  end.

(** The text without its last character, and the record. *)
Definition fried_line (json buf : bytes) : result bytes :=
  if length json =? 0 then Throw length_error
  else Ok (take (length json - 1) json ++ fried_key ++ to_hex buf ++ fried_end ++ [newline]).

(** The callback: an index entry; the result says whether to go on. *)
Definition export_entry (a : export_args) (d : env) (kv : bytes * N) : SE exporter bool :=
  let k := from_sv64 kv.1 in
  if (if arg_reverse a then (k <? default 0 (arg_since a))%N
      else (default MAX_U64 (arg_until a) <? k)%N) then mret false
  else
    json ← exported_json d kv.2;
    if arg_fried a then
      '(_, buf) ← lift (lookupEventByLevId d kv.2);
      line ← lift (fried_line json buf);
      _ ← print line;
      mret true
    else
      _ ← print (json ++ [newline]);
      mret true.

(** The loop of [generic_foreachFull]. *)
Fixpoint while_each {S A} (f : A → SE S bool) (l : list A) : SE S () :=
  match l with
  | [] => mret tt
  | a :: l => go_on ← f a; if go_on : bool then while_each f l else mret tt
  end.

Definition export_start (a : export_args) : N * N :=
  if arg_reverse a then (default MAX_U64 (arg_until a), MAX_U64) else (default 0%N (arg_since a), 0%N).

(** [little_endian] is the machine's byte order. *)
Definition cmd_export (little_endian : bool) (a : export_args) (d : env) : SE exporter () :=
  let dbVersion := getDBVersion d in
  _ ← lift (throw_if (dbVersion =? 0)%N
              (herr #"migration from DB version 0 not supported by this version of strfry"));
  _ ← lift (if arg_fried a then
        _ ← throw_if (negb little_endian)
              (herr #"--fried currently only supported on little-endian CPUs");
        throw_if (dbVersion <? 3)%N
          (herr #"can't export old DB version with --fried: please downgrade to 0.9.7")
      else Ok tt);
  let '(start, startDup) := export_start a in
  while_each (export_entry a d)
    (foreachFull d Event__created_at (to_sv64 start) startDup (arg_reverse a)).
End export.

(** ** Import *)

Section import.
Context `{!JsonParser}.
Variable from_hex_default : bytes → result bytes.

(** The loop from [line.size() - 3] down to a quote or to 0. *)
Fixpoint quote_before (line : bytes) (i : nat) : nat :=
  match i with
  | O => O
  | S i' => if decide (line !! i = Some quote) then i else quote_before line i'
  end.

Definition parseFried (line : bytes) : result EventToWrite :=
  _ ← throw_if (length line <? 64) (herr #"fried too small");
  _ ← throw_if (negb (ends_with line fried_end)) (herr #"fried parse error");
  let i := quote_before line (length line - 3) in
  _ ← throw_if (negb (ends_with (take (i + 1) line) fried_key)) (herr #"fried parse error");
  packed ← from_hex_default (take (length line - i - 3) (drop (i + 1) line));
  Ok (EventToWrite_make packed (take (i - 9) line ++ #"}") 0).

(** What [getline] returns one after the other; only the last line can lack its
    newline. *)
Fixpoint getlines (cur stdin : bytes) : list bytes :=
  match stdin with
  | [] => if length cur =? 0 then [] else [cur]
  | c :: stdin =>
      if decide (c = newline) then (cur ++ [c]) :: getlines [] stdin
      else getlines (cur ++ [c]) stdin
  end.

(** [std::string line(buf, (size_t)numRead-1)] *)
Definition line_of (buf : bytes) : bytes := take (length buf - 1) buf.

Inductive import_input :=
  | Import_json (evJson : value)
  | Import_fried (ev : EventToWrite).

(** One line: what is handed to the pipeline, if it can be read. *)
Definition import_line (little_endian fried : bool) (line : bytes) : result (option import_input) :=
  if fried then
    _ ← throw_if (negb little_endian)
          (herr #"--fried currently only supported on little-endian CPUs");
    match parseFried line with
    | Ok ev => Ok (Some (Import_fried ev))
    | Throw e => if catchable e then Ok None else Throw e
    end
  else
    match json_from_string line with
    | Ok evJson => Ok (Some (Import_json evJson))
    | Throw e => if catchable e then Ok None else Throw e
    end.

(** The calls on the pipeline. *)
Inductive import_call :=
  | Call_write (i : import_input)
  | Call_wait
  | Call_flush.

(** The loop; an unreadable line is skipped with a warning. *)
Definition import_lines (little_endian fried : bool) (lines : list bytes)
    : result (list import_call) :=
  foldM (λ calls line,
    i ← import_line little_endian fried line;
    Ok (match i with Some i => calls ++ [Call_write i; Call_wait] | None => calls end)) [] lines.

Definition cmd_import (little_endian fried : bool) (stdin : bytes) : result (list import_call) :=
  calls ← import_lines little_endian fried (line_of <$> getlines [] stdin);
  Ok (calls ++ [Call_flush]).

(** The parameters of the pipeline. *)
Record import_args := mk_import_args {
  arg_no_verify : bool;
  arg_write_batch : option N;
  arg_import_fried : bool;
}.

Definition import_writeBatch (a : import_args) : N :=
  default (if arg_import_fried a then 100000 else 10000)%N (arg_write_batch a).

Definition import_verifyMsg (a : import_args) : bool := negb (arg_no_verify a).
Definition import_verifyTime (a : import_args) : bool := false.

(** A call of [import] on the pipeline; waiting changes nothing. *)
Definition call_pipeline (s : pipeline) (c : import_call) : pipeline :=
  match c with
  | Call_write (Import_json v) => write_json s v
  | Call_write (Import_fried ev) => write_event s ev
  | Call_wait => s
  | Call_flush => flush s
  end.
End import.
