(* ===== verification/Migration.v ===== *)
(** What goes out by [export] comes in by [import]: every line is read back,
    and importing the lines of a store into an empty one gives the same
    events. *)

From S2P Require Import Prelude Bytes Json Hex PackedEvent FilterSets Filters Config EventParse.
From S2P Require Import Db NegentropyCache EventWriter EventStore StoreTheorems Payload StateExn.
From S2P Require Import WriterPipeline PipelineTheorems ImportExport.

(** ** One line *)

Lemma starts_with_app p r : starts_with (p ++ r) p = true.
Proof. apply starts_with_spec. by exists r. Qed.

Lemma ends_with_app l p : ends_with (l ++ p) p = true.
Proof. unfold ends_with. rewrite rev_app_distr. apply starts_with_app. Qed.

Lemma quote_before_found pre suf n :
  quote ∉ take n suf → n ≤ length suf →
  quote_before (pre ++ quote :: suf) (length pre + n) = if decide (length pre + n = 0) then 0 else length pre.
Proof.
  induction n as [|n IH]; intros Hq Hn.
  - rewrite Nat.add_0_r. destruct (length pre) as [|k] eqn:Hk; [done|]. simpl.
    rewrite decide_True; [done|]. rewrite <-Hk. by apply list_lookup_middle.
  - rewrite Nat.add_succ_r. simpl. rewrite decide_False.
    + rewrite IH; [by repeat case_decide; try lia| |lia].
      intros [i [Hi ?]%lookup_take_Some]%list_elem_of_lookup. apply Hq, list_elem_of_lookup.
      exists i. apply lookup_take_Some. split; [done|lia].
    + intros Hl. apply Hq. rewrite lookup_app_r in Hl by lia.
      replace (S (length pre + n) - length pre) with (S n) in Hl by lia. simpl in Hl.
      apply list_elem_of_lookup. exists n. rewrite lookup_take_lt by lia. done.
Qed.

Section line.
Context `{!Hex}.
Variable from_hex_default : bytes → result bytes.
Context (from_to_hex_default : ∀ b, from_hex_default (to_hex b) = Ok b).

(** The text of a fried line, without the newline. *)
Definition fried_text (j buf : bytes) : bytes := j ++ fried_key ++ to_hex buf ++ fried_end.

Lemma to_hex_no_quote b : quote ∉ to_hex b.
Proof.
  intros Hin%to_hex_digits. revert Hin. by apply (bool_decide_unpack (quote ∉ _)).
Qed.

Lemma fried_line_text j buf : fried_line (j ++ #"}") buf = Ok (fried_text j buf ++ [newline]).
Proof.
  unfold fried_line. rewrite length_app. replace (length j + length #"}") with (S (length j)) by (simpl; lia).
  cbn [Nat.eqb]. replace (S (length j) - 1) with (length j) by lia. rewrite take_app_length.
  unfold fried_text. by rewrite <-!app_assoc.
Qed.

Lemma parse_fried_text j buf : 64 ≤ length (fried_text j buf) →
  parseFried from_hex_default (fried_text j buf) = Ok (EventToWrite_make buf (j ++ #"}") 0).
Proof.
  intros Hlen. unfold parseFried. destruct (Nat.ltb_spec (length (fried_text j buf)) 64); [lia|].
  cbn [throw_if mbind result_bind].
  assert (ends_with (fried_text j buf) fried_end = true) as ->.
  { unfold fried_text. rewrite !app_assoc. apply ends_with_app. }
  cbn [negb throw_if mbind result_bind].
  pose proof (to_hex_length buf) as Hhex. set (h := to_hex buf) in *.
  set (pre := j ++ #"," ++ [quote] ++ #"fried" ++ [quote] ++ #":").
  assert (fried_text j buf = pre ++ quote :: h ++ fried_end) as Heq.
  { unfold fried_text, pre, fried_key. by rewrite <-!app_assoc. }
  assert (length pre = length j + 9) as Hpre by (unfold pre; rewrite !length_app; simpl; lia).
  assert (length (fried_text j buf) - 3 = length pre + length h) as ->.
  { rewrite Heq, length_app. simpl. rewrite length_app. simpl. lia. }
  rewrite Heq, quote_before_found; cycle 1.
  { rewrite take_app_length. apply to_hex_no_quote. }
  { rewrite length_app. lia. }
  rewrite decide_False by lia.
  assert (take (length pre + 1) (pre ++ quote :: h ++ fried_end) = j ++ fried_key) as ->.
  { rewrite cons_middle, app_assoc, take_app_length' by (rewrite length_app; simpl; lia).
    unfold pre, fried_key. by rewrite <-!app_assoc. }
  rewrite ends_with_app. cbn [negb throw_if mbind result_bind].
  assert (drop (length pre + 1) (pre ++ quote :: h ++ fried_end) = h ++ fried_end) as ->.
  { rewrite cons_middle, app_assoc. apply drop_app_length'. rewrite length_app. simpl. lia. }
  assert (length (pre ++ quote :: h ++ fried_end) - length pre - 3 = length h) as ->.
  { rewrite length_app. simpl. rewrite length_app. simpl. lia. }
  rewrite take_app_length.
  unfold h. rewrite from_to_hex_default. cbn [mbind result_bind].
  rewrite take_app_le, Hpre by lia. f_equal. f_equal. f_equal.
  unfold pre. by apply take_app_length'; lia.
Qed.
End line.

(** ** The lines of a text *)

Lemma getlines_line cur b rest : newline ∉ b →
  getlines cur (b ++ newline :: rest) = (cur ++ b ++ [newline]) :: getlines [] rest.
Proof.
  revert cur. induction b as [|c b IH]; intros cur Hb; cbn [getlines app].
  - by rewrite decide_True.
  - apply not_elem_of_cons in Hb as [Hc Hb]. rewrite decide_False by done. rewrite IH by done.
    by rewrite <-app_assoc.
Qed.

Lemma getlines_concat (bodies : list bytes) : Forall (λ b, newline ∉ b) bodies →
  line_of <$> getlines [] (concat ((λ b, b ++ [newline]) <$> bodies)) = bodies.
Proof.
  induction 1 as [|b bodies Hb _ IH]; [done|]. rewrite fmap_cons. cbn [concat].
  rewrite <-app_assoc. change ([newline] ++ ?x) with (newline :: x).
  rewrite getlines_line by done. rewrite fmap_cons, IH. f_equal.
  unfold line_of. cbn [app]. rewrite length_app. apply take_app_length'. simpl. lia.
Qed.

(** ** The exported lines *)

Lemma StronglySorted_weaken {A : Type} (R R' : A → A → Prop) l :
  (∀ x y, R x y → R' x y) → StronglySorted R l → StronglySorted R' l.
Proof. intros HR. induction 1; constructor; [done|]. eapply Forall_impl; [done|]. auto. Qed.

Section export.
Context `{!Hex, !NativeU64, !GolpeKeys, !Env, !Zstd, !JsonParser} (cfg : Config).
Variable from_hex_default : bytes → result bytes.
Context (from_to_hex_default : ∀ b, from_hex_default (to_hex b) = Ok b).
Context (d : env) (m : gmap N event) (Hrepr : repr d m).
Variable a : export_args.

Definition in_window (created : N) : Prop :=
  (default 0 (arg_since a) ≤ created ≤ default MAX_U64 (arg_until a))%N.

(** What a line holds of an event and its text [j ++ "}"]. *)
Definition line_body (e : event) (j : bytes) : bytes :=
  if arg_fried a then fried_text j (encode e) else j ++ #"}".

(** A stored text is a JSON object on one line, as the printer writes it. *)
Record text_ok (l : N) (j : bytes) : Prop := {
  tx_stored : event_text cfg d l = Ok (j ++ #"}");
  tx_line : newline ∉ j;
  tx_parses : is_ok (json_from_string (j ++ #"}")) = true;
}.

Context (texts : ∀ l e, m !! l = Some e → ∃ j, text_ok l j).

(** The order of the [created_at] index. *)
Definition older (p q : N * event) : Prop :=
  (ev_created_at p.2 < ev_created_at q.2)%N ∨
  ev_created_at p.2 = ev_created_at q.2 ∧ (p.1 ≤ q.1)%N.

Definition export_order (p q : N * event) : Prop :=
  if arg_reverse a then older q p else older p q.

Lemma created_entry_le x l y k : is_u64 x → is_u64 y →
  entry_le Event__created_at (to_sv64 x, l) (to_sv64 y, k) ↔ (x < y ∨ x = y ∧ l ≤ k)%N.
Proof.
  intros Hx Hy. unfold entry_le, entry_compare. cbn [fst snd].
  rewrite !fields_integer by (done || set_solver). rewrite bytes_compare_refl. simpl.
  destruct (N.compare_spec x y), (N.compare_spec l k); split; try done; lia.
Qed.

(** The entries of the scan, with their events. *)
Definition scanned : list (bytes * N) :=
  let '(start, startDup) := export_start a in
  foreachFull d Event__created_at (to_sv64 start) startDup (arg_reverse a).

Lemma scanned_entry kv : kv ∈ scanned → ∃ e, m !! kv.2 = Some e ∧ wf_event e ∧ is_u64 kv.2 ∧
  kv.1 = to_sv64 (ev_created_at e).
Proof.
  unfold scanned. destruct (export_start a). intros [Hin _]%foreachFull_elem. destruct kv as [k v].
  apply (repr_is_entry _ _ _ _ _ Hrepr) in Hin as (e & He & Hwf & Hv & Hk).
  simpl in Hk. apply list_elem_of_singleton in Hk. by exists e.
Qed.

(** The test that lets the loop go on. *)
Definition goes_on (kv : bytes * N) : bool :=
  negb (if arg_reverse a then (from_sv64 kv.1 <? default 0 (arg_since a))%N
        else (default MAX_U64 (arg_until a) <? from_sv64 kv.1)%N).

Definition with_event (kv : bytes * N) : option (N * event) := pair kv.2 <$> m !! kv.2.

Definition kept_entries (l : list (bytes * N)) : list (N * event) :=
  omap with_event (filter (λ kv, goes_on kv = true) l).

(** An entry of the index with its event. *)
Definition entry_of (kv : bytes * N) (e : event) : Prop :=
  m !! kv.2 = Some e ∧ wf_event e ∧ is_u64 kv.2 ∧ kv.1 = to_sv64 (ev_created_at e).

Definition index_order (kv1 kv2 : bytes * N) : Prop :=
  ∀ e1 e2, entry_of kv1 e1 → entry_of kv2 e2 → export_order (kv1.2, e1) (kv2.2, e2).

Lemma goes_on_created kv e : entry_of kv e → goes_on kv =
  negb (if arg_reverse a then (ev_created_at e <? default 0 (arg_since a))%N
        else (default MAX_U64 (arg_until a) <? ev_created_at e)%N).
Proof. intros (_ & He & _ & Hk). unfold goes_on. by rewrite Hk, from_to_sv64 by apply He. Qed.

Lemma stops_for_good kv1 kv2 e1 e2 : entry_of kv1 e1 → entry_of kv2 e2 →
  export_order (kv1.2, e1) (kv2.2, e2) → goes_on kv1 = false → goes_on kv2 = false.
Proof.
  intros He1 He2. rewrite (goes_on_created kv1 e1), (goes_on_created kv2 e2) by done.
  unfold export_order, older. destruct (arg_reverse a); cbn [fst snd]; intros Ho.
  - destruct (N.ltb_spec (ev_created_at e1) (default 0 (arg_since a))%N); [|done].
    destruct (N.ltb_spec (ev_created_at e2) (default 0 (arg_since a))%N); [done|lia].
  - destruct (N.ltb_spec (default MAX_U64 (arg_until a)) (ev_created_at e1)); [|done].
    destruct (N.ltb_spec (default MAX_U64 (arg_until a)) (ev_created_at e2)); [done|lia].
Qed.

(** One event is printed. *)
Lemma export_one kv e s j : entry_of kv e → text_ok kv.2 j → caches_ok (ex_decomp s) d →
  goes_on kv = true →
  ∃ c, export_entry cfg a d kv s =
      (Ok true, mk_exporter c (ex_out s ++ line_body e j ++ [newline])) ∧ caches_ok c d.
Proof.
  intros (He & Hwf & _ & _) [Ht _ _] Hc Hgo. unfold export_entry. unfold goes_on in Hgo.
  destruct (if arg_reverse a then _ else _); [done|].
  pose proof (getEventJson_text cfg (ex_decomp s) d kv.2 Hc) as Hj. rewrite Ht in Hj.
  destruct Hj as (c & Hj & Hc'). exists c. split; [|done].
  unfold mbind at 1, SE_bind at 1, exported_json. rewrite Hj. cbn [ex_decomp].
  unfold line_body. destruct (arg_fried a); [|done].
  unfold lookupEventByLevId. rewrite (lookup_Event_repr d m kv.2 Hrepr), He.
  unfold mbind, SE_bind, lift. cbn [fmap option_fmap option_map]. by rewrite fried_line_text.
Qed.

Lemma export_loop l : Forall (λ kv, ∃ e, entry_of kv e) l → StronglySorted index_order l → ∀ s,
  caches_ok (ex_decomp s) d →
  ∃ s' bodies, while_each (export_entry cfg a d) l s = (Ok tt, s') ∧
    Forall2 (λ p b, ∃ j, text_ok p.1 j ∧ b = line_body p.2 j) (kept_entries l) bodies ∧
    ex_out s' = ex_out s ++ concat ((λ b, b ++ [newline]) <$> bodies).
Proof.
  intros Hl Hso. induction Hso as [|kv l Hso IH Hall]; intros s Hc.
  { exists s, []. split_and!; [done|constructor|by rewrite app_nil_r]. }
  apply Forall_cons in Hl as [[e He] Hl]. destruct (goes_on kv) eqn:Hgo.
  - destruct (texts kv.2 e (proj1 He)) as [j Hj].
    destruct (export_one kv e s j He Hj Hc Hgo) as (c & E & Hc').
    destruct (IH Hl (mk_exporter c (ex_out s ++ line_body e j ++ [newline])) Hc')
      as (s' & bodies & E' & Hb & Ho).
    exists s', (line_body e j :: bodies). split_and!.
    + cbn [while_each]. unfold mbind, SE_bind. by rewrite E.
    + unfold kept_entries. rewrite filter_cons_True by done. cbn [omap list_omap].
      unfold with_event at 1. rewrite (proj1 He). cbn [fmap option_fmap option_map].
      constructor; [by exists j|done].
    + rewrite Ho. cbn [ex_out]. rewrite fmap_cons. cbn [concat]. by rewrite <-!app_assoc.
  - exists s, []. split_and!; [| |by rewrite app_nil_r].
    + cbn [while_each]. unfold mbind, SE_bind, export_entry. unfold goes_on in Hgo.
      by destruct (if arg_reverse a then _ else _).
    + unfold kept_entries. rewrite filter_cons_False by congruence.
      rewrite filter_nothing; [constructor|].
      rewrite Forall_forall in Hl, Hall. apply Forall_forall. intros kv2 Hin.
      destruct (Hl kv2 Hin) as [e2 He2]. rewrite (stops_for_good kv kv2 e e2); try done.
      by apply Hall.
Qed.

Lemma scanned_order : StronglySorted index_order scanned.
Proof.
  unfold scanned. destruct (export_start a) as [start dup].
  eapply StronglySorted_weaken, foreachFull_sorted.
  intros [k1 l1] [k2 l2] Hle e1 e2 (_ & He1 & _ & E1) (_ & He2 & _ & E2). cbn [fst snd] in *. subst.
  unfold export_order, older. cbn [fst snd].
  destruct (arg_reverse a); apply created_entry_le in Hle; try apply He1; try apply He2; done.
Qed.

(** ** The exported events *)

Definition exported : list (N * event) := kept_entries scanned.

Lemma scanned_entries : Forall (λ kv, ∃ e, entry_of kv e) scanned.
Proof.
  apply Forall_forall. intros kv (e & ? & ? & ? & ?)%scanned_entry. by exists e.
Qed.

Lemma elem_of_kept l p : p ∈ kept_entries l ↔ ∃ kv, kv ∈ l ∧ goes_on kv = true ∧ kv.2 = p.1 ∧
  m !! p.1 = Some p.2.
Proof.
  unfold kept_entries. rewrite list_elem_of_omap. unfold with_event. destruct p as [l' e]. cbn [fst snd]. split.
  - intros (kv & [Hgo Hin]%list_elem_of_filter & (e' & He & [= -> ->])%fmap_Some). by exists kv.
  - intros (kv & Hin & Hgo & <- & He). exists kv. split; [by apply list_elem_of_filter|]. by rewrite He.
Qed.

Context (Hsince : is_u64 (default 0%N (arg_since a))).
Context (Huntil : is_u64 (default MAX_U64 (arg_until a))).

Lemma elem_of_exported l e : (l, e) ∈ exported ↔ m !! l = Some e ∧ in_window (ev_created_at e).
Proof.
  unfold exported. rewrite elem_of_kept. cbn [fst snd]. unfold in_window. split.
  - intros (kv & Hin & Hgo & <- & He). split; [done|].
    destruct (scanned_entry kv Hin) as (e' & He' & Hwf & Hl & Hk).
    assert (e' = e) as -> by congruence.
    rewrite (goes_on_created kv e) in Hgo by done.
    revert Hin. unfold scanned, export_start. destruct kv as [k n]. cbn [fst snd] in *. subst k.
    destruct (arg_reverse a); intros [_ Hle]%foreachFull_elem;
      apply created_entry_le in Hle; try apply Hwf; try done.
    + destruct (N.ltb_spec (ev_created_at e) (default 0 (arg_since a))%N); [done|]. lia.
    + destruct (N.ltb_spec (default MAX_U64 (arg_until a)) (ev_created_at e)); [done|]. lia.
  - intros [He [Hs Hu]]. destruct (repr_wf d m l e Hrepr He) as [Hwf Hl].
    exists (to_sv64 (ev_created_at e), l). cbn [fst snd].
    rewrite (goes_on_created _ e) by done. split_and!; [|destruct (arg_reverse a)|done..].
    + unfold scanned, export_start. assert (is_entry (Event (tables d)) Event__created_at
        (to_sv64 (ev_created_at e), l)) as Hent.
      { apply (repr_is_entry _ _ _ _ _ Hrepr). exists e. split_and!; [done..|]. simpl. set_solver. }
      unfold is_u64, two64, MAX_U64 in *.
      destruct (arg_reverse a); apply foreachFull_elem; (split; [done|]);
        apply created_entry_le; try apply Hwf; try done; lia.
    + by destruct (N.ltb_spec (ev_created_at e) (default 0 (arg_since a))%N); [lia|].
    + by destruct (N.ltb_spec (default MAX_U64 (arg_until a)) (ev_created_at e)); [lia|].
Qed.

Lemma kept_fst l : Forall (λ kv, ∃ e, entry_of kv e) l →
  (kept_entries l).*1 = (filter (λ kv, goes_on kv = true) l).*2.
Proof.
  unfold kept_entries. induction 1 as [|kv l [e [He _]] _ IH]; [done|].
  rewrite filter_cons. case_decide; [|done]. cbn [omap list_omap]. unfold with_event at 1.
  rewrite He. cbn [fmap option_fmap option_map]. rewrite !fmap_cons. by f_equal.
Qed.

Lemma exported_nodup : NoDup exported.*1.
Proof.
  unfold exported. rewrite kept_fst by apply scanned_entries.
  apply NoDup_fmap_2_strong; [|apply NoDup_filter].
  - intros [k1 l1] [k2 l2] [_ Hx]%list_elem_of_filter [_ Hy]%list_elem_of_filter. cbn [snd]. intros ->.
    destruct (scanned_entry _ Hx) as (e1 & E1 & _ & _ & K1), (scanned_entry _ Hy) as (e2 & E2 & _ & _ & K2).
    cbn [fst snd] in *. congruence.
  - unfold scanned. destruct (export_start a). apply foreachFull_nodup.
Qed.

Lemma kept_sorted l : Forall (λ kv, ∃ e, entry_of kv e) l → StronglySorted index_order l →
  StronglySorted export_order (kept_entries l).
Proof.
  intros Hl Hso. induction Hso as [|kv l Hso IH Hall]; [constructor|].
  apply Forall_cons in Hl as [[e He] Hl]. unfold kept_entries. rewrite filter_cons.
  case_decide; [|by apply IH]. cbn [omap list_omap]. unfold with_event at 1. rewrite (proj1 He).
  cbn [fmap option_fmap option_map]. constructor; [by apply IH|].
  apply Forall_forall. intros [l2 e2] (kv2 & Hin & _ & Hk & He2)%elem_of_kept. cbn [fst snd] in *.
  rewrite Forall_forall in Hall, Hl. destruct (Hl kv2 Hin) as [e2' He2'].
  assert (e2' = e2) as -> by (destruct He2' as [He2' _]; congruence).
  rewrite <-Hk. by apply Hall.
Qed.

(** ** The lines read back *)

Definition read_back (p : N * event) (i : import_input) : Prop :=
  ∃ j, text_ok p.1 j ∧
  match i with
  | Import_fried ev => arg_fried a = true ∧ ev = EventToWrite_make (encode p.2) (j ++ #"}") 0
  | Import_json v => arg_fried a = false ∧ json_from_string (j ++ #"}") = Ok v
  end.

Lemma line_read l e j : wf_event e → text_ok l j → ∃ i,
  import_line from_hex_default true (arg_fried a) (line_body e j) = Ok (Some i) ∧ read_back (l, e) i.
Proof.
  intros He Hj. pose proof Hj as [_ _ Hp]. unfold import_line, line_body, read_back.
  destruct (arg_fried a).
  - cbn [throw_if negb mbind result_bind]. rewrite parse_fried_text; [|done|].
    + eexists. split; [done|]. by exists j.
    + unfold fried_text. rewrite !length_app, to_hex_length, (encode_length e He). lia.
  - destruct (json_from_string (j ++ #"}")) as [v|] eqn:Hv; [|done].
    eexists. split; [done|]. exists j. by rewrite Hv.
Qed.

Lemma line_body_line l e j : text_ok l j → newline ∉ line_body e j.
Proof.
  intros [_ Hn _] Hin. unfold line_body in Hin. destruct (arg_fried a).
  - unfold fried_text in Hin. apply elem_of_app in Hin as [?|Hin]; [done|].
    apply elem_of_app in Hin as [Hin|[Hin|Hin]%elem_of_app].
    + revert Hin. by apply (bool_decide_unpack (newline ∉ _)).
    + apply to_hex_digits in Hin. revert Hin. by apply (bool_decide_unpack (newline ∉ _)).
    + revert Hin. by apply (bool_decide_unpack (newline ∉ _)).
  - apply elem_of_app in Hin as [?|Hin]; [done|]. by apply list_elem_of_singleton in Hin.
Qed.

Definition write_calls (inputs : list import_input) : list import_call :=
  inputs ≫= λ i, [Call_write i; Call_wait].

Lemma import_lines_run X bodies :
  Forall2 (λ p b, ∃ j, text_ok p.1 j ∧ b = line_body p.2 j) X bodies →
  Forall (λ p, wf_event p.2) X →
  ∃ inputs, Forall2 read_back X inputs ∧ ∀ calls,
    foldM (λ calls line,
      i ← import_line from_hex_default true (arg_fried a) line;
      Ok (match i with Some i => calls ++ [Call_write i; Call_wait] | None => calls end))
      calls bodies = Ok (calls ++ write_calls inputs).
Proof.
  induction 1 as [|[l e] b X bodies (j & Hj & ->) _ IH]; intros Hwf.
  { exists []. split; [constructor|]. intros calls. by rewrite app_nil_r. }
  apply Forall_cons in Hwf as [He Hwf]. cbn [fst snd] in *.
  destruct (IH Hwf) as (inputs & Hr & Hrun), (line_read l e j He Hj) as (i & Hi & Hi').
  exists (i :: inputs). split; [by constructor|]. intros calls.
  cbn [foldM]. rewrite Hi. cbn [mbind result_bind]. rewrite Hrun.
  unfold write_calls. by rewrite bind_cons, app_assoc.
Qed.

Lemma export_run c : caches_ok c d → (3 ≤ getDBVersion d)%N →
  ∃ s' inputs, cmd_export cfg true a d (mk_exporter c []) = (Ok tt, s') ∧
    Forall2 read_back exported inputs ∧
    cmd_import from_hex_default true (arg_fried a) (ex_out s') =
      Ok (write_calls inputs ++ [Call_flush]).
Proof.
  intros Hc Hv.
  destruct (export_loop scanned scanned_entries scanned_order (mk_exporter c []) Hc)
    as (s' & bodies & Hrun & Hb & Ho).
  destruct (import_lines_run _ _ Hb) as (inputs & Hr & Hlines).
  { apply Forall_forall. intros [l e] (_ & _ & _ & _ & He)%elem_of_kept. by eapply repr_wf. }
  exists s', inputs. split_and!; [|done|].
  - unfold cmd_export. unfold scanned in Hrun.
    destruct (N.eqb_spec (getDBVersion d) 0); [lia|]. destruct (N.ltb_spec (getDBVersion d) 3); [lia|].
    destruct (export_start a) as [start dup]. by destruct (arg_fried a).
  - unfold cmd_import, import_lines. rewrite Ho. cbn [ex_out app].
    rewrite getlines_concat, Hlines; [done|].
    clear -Hb. induction Hb as [|p b X bodies (j & Hj & ->) _ IH]; constructor; [|done].
    by eapply line_body_line.
Qed.

(** C22: [import] reads back what [export] wrote.  The events exported are those
    created in the window, each once, in the order of [created_at] (backwards
    with --reverse); every line is handed to the pipeline in that order, a
    fried one with the packed record and the very text of the event, and
    nothing else is. *)
Theorem export_import_roundtrip c : caches_ok c d → (3 ≤ getDBVersion d)%N →
  ∃ s' inputs, cmd_export cfg true a d (mk_exporter c []) = (Ok tt, s') ∧
    (∀ l e, (l, e) ∈ exported ↔ m !! l = Some e ∧ in_window (ev_created_at e)) ∧
    NoDup exported.*1 ∧ StronglySorted export_order exported ∧
    Forall2 read_back exported inputs ∧
    cmd_import from_hex_default true (arg_fried a) (ex_out s') =
      Ok (write_calls inputs ++ [Call_flush]).
Proof.
  intros Hc Hv. destruct (export_run c Hc Hv) as (s' & inputs & Hrun & Hr & Him).
  exists s', inputs. split_and!; [done|apply elem_of_exported|apply exported_nodup
    |apply kept_sorted; [apply scanned_entries|apply scanned_order]|done|done].
Qed.
End export.

(** ** From store to store *)

Definition stored (m : gmap N event) (e : event) : Prop := ∃ l, m !! l = Some e.

(** Events that a store can hold together. *)
Record together (P : event → Prop) : Prop := {
  tg_ids : ∀ e o, P e → P o → ev_id e = ev_id o → e = o;
  tg_replace : ∀ e o, P e → P o → addressable e → same_address e o → e = o;
  tg_deletions : ∀ e o, P e → P o → deletes e o → e = o;
}.

Lemma store_together m : ids_unique m → store_ok m → together (stored m).
Proof.
  intros Hid [Hrep Hdel]. split.
  - intros e o [l He] [k Ho] Hi. pose proof (Hid l k e o He Ho Hi). congruence.
  - intros e o [l He] [k Ho] Ha Hs. pose proof (Hrep l k e o He Ho Ha Hs). congruence.
  - intros e o [l He] [k Ho] Hd. pose proof (Hdel l k e o He Ho Hd). congruence.
Qed.

Section writes.
Context (P : event → Prop) (HP : together P).

(** Writing one of the events beside others adds it or finds it. *)
Lemma write_spec_together prevId m e s n m' :
  (∀ o, stored m o → P o) → P e → (∀ i, prevId = Some i → id_stored m i) →
  write_spec prevId m e s n m' →
  (s = Duplicate ∧ m' = m ∧ stored m e) ∨
  (s = Written ∧ ∀ l o, m' !! l = Some o ↔ l = n ∧ o = e ∨ m !! l = Some o).
Proof.
  intros Hm He Hprev Hw.
  assert (id_stored m (ev_id e) → stored m e) as Hid.
  { intros (l & o & Ho & Hi). exists l.
    by rewrite <-(tg_ids P HP o e (Hm o (ex_intro _ l Ho)) He Hi). }
  destruct Hw as [n Hd|n Hn _ (l & o & Ho & Hdel)|n l o Hn _ _ Ha Ho Hsa _|n m' Hn _ Hdel Hnew _ _ Hm'].
  - left. split_and!; [done|done|]. apply Hid. destruct Hd as [?|?]; auto.
  - exfalso. apply Hn. exists l, o. split; [done|]. f_equal.
    apply (tg_deletions P HP); [by apply Hm; exists l|done|done].
  - exfalso. apply Hn. exists l, o. split; [done|]. f_equal. symmetry.
    apply (tg_replace P HP); [done|by apply Hm; exists l|done|done].
  - right. split; [done|]. intros l o. rewrite Hm'. split; [naive_solver|].
    intros [?|Ho]; [by left|right]. split_and!; [done|..].
    + intros [Ha Hsa]. apply Hn. exists l, o. split; [done|]. f_equal. symmetry.
      apply (tg_replace P HP); [done|by apply Hm; exists l|done|done].
    + intros Hd. apply Hn. exists l, o. split; [done|]. f_equal. symmetry.
      apply (tg_deletions P HP); [done|by apply Hm; exists l|done].
Qed.

Lemma write_specs_together prevId m l m' : (∀ o, stored m o → P o) → Forall P l.*1 →
  (∀ i, prevId = Some i → id_stored m i) → write_specs prevId m l m' →
  (∀ o, stored m' o ↔ stored m o ∨ o ∈ l.*1) ∧
  (∀ k o, m' !! k = Some o → m !! k = Some o ∨
     ∃ ev, (o, ev) ∈ l ∧ status ev = Written ∧ levId ev = k).
Proof.
  intros Hm Hl Hprev Hws. induction Hws as [|prevId m m1 m2 e ev l Hw _ IH].
  { split; [set_solver|by left]. }
  rewrite fmap_cons in Hl |- *. apply Forall_cons in Hl as [He Hl]. cbn [fst] in *.
  assert ((∀ o, stored m1 o ↔ stored m o ∨ o = e) ∧ ∀ k o, m1 !! k = Some o → m !! k = Some o ∨
    o = e ∧ status ev = Written ∧ levId ev = k) as [Hs1 Hk1].
  { destruct (write_spec_together _ _ _ _ _ _ Hm He Hprev Hw) as [(Hst & -> & Hin)|[Hst Hm1]].
    - split; [naive_solver|by left].
    - split; [|by intros k o [[-> ->]|?]%Hm1; auto].
      intros o. unfold stored. setoid_rewrite Hm1. naive_solver. }
  destruct IH as [Hs2 Hk2]; [|done| |].
  - intros o [?| ->]%Hs1; auto.
  - intros i [= <-]. destruct (proj2 (Hs1 e) (or_intror eq_refl)) as [k Hk]. by exists k, e.
  - split.
    + intros o. rewrite Hs2, Hs1, elem_of_cons. tauto.
    + intros k o [[?|(-> & ? & ?)]%Hk1|(ev' & ? & ? & ?)]%Hk2.
      * by left.
      * right. exists ev. split_and!; [by constructor|done|done].
      * right. exists ev'. split_and!; [by constructor 2|done|done].
Qed.
End writes.

(** ** Importing into an empty store *)

Section migration.
Context `{!Hex, !NativeU64, !GolpeKeys, !Env, !EventLibs, !JsonParser} (cfg : Config).
Variable sort_events : list EventToWrite → list EventToWrite.
Variables (writeBatchSize : N) (verifyMsg verifyTime : bool).
Context (hex_errors : ∀ s b, only_caught (from_hex s b)).
Context (sort_ok : ∀ l, std_sorts l (sort_events l)).
Context (batch_pos : (0 < writeBatchSize)%N).

(** What is imported: events with their texts. *)
Context (Q : event → bytes → Prop).
Context (HQ : together (λ e, ∃ t, Q e t)).
Context (HQok : ∀ e t, Q e t → event_ok e).

Definition sent_in (h : handed) : Prop :=
  ∃ e t, h = HEvent (EventToWrite_make (encode e) t 0) ∧ Q e t.

(** The pipeline's calls so far, and the threads' turns in between. *)
Inductive importing (fs : list (NostrFilter * N)) : list import_call → system → Prop :=
  | importing_start c d : db_good fs c d → Event (tables d) = ∅ →
      importing fs [] (c, d, new_pipeline)
  | importing_call calls c d s call : importing fs calls (c, d, s) →
      importing fs (calls ++ [call]) (c, d, call_pipeline s call)
  | importing_turn calls x x' : importing fs calls x → room x →
      thread_step cfg sort_events writeBatchSize verifyMsg verifyTime x x' →
      importing fs calls x'.

(** The outcome is that the event is stored. *)
Definition came_to (m : gmap N event) (o : outcome) : Prop :=
  match o with
  | Rejected _ => True
  | Known ev | Settled ev => ∃ e, packedStr ev = encode e ∧ event_ok e ∧ id_stored m (ev_id e)
  end.

Record progress (fs : list (NostrFilter * N)) (hs : list handed) (x : system) (m : gmap N event)
    : Prop := {
  pg_inv : ∃ ds, sys_inv cfg verifyMsg verifyTime fs ds hs x;
  pg_sent : Forall sent_in hs;
  pg_store : store_inv fs x.1.2 m;
  pg_texts : ∀ l e, m !! l = Some e → ∃ t, Q e t ∧
    EventPayload (tables x.1.2) !! l = Some ("000"%char :: t);
  pg_log : Forall (came_to m) (pl_log x.2);
}.

Lemma prefilter_log m d : repr d m → ∀ l s proc s',
  Forall (λ ev, packedStr ev = [] ∨ good ev) l →
  prefilter writeBatchSize d s proc l = Ok s' →
  ∃ ks, pl_log s' = pl_log s ++ ks ∧ Forall (came_to m) ks.
Proof.
  intros Hr l. induction l as [|ev l IH]; intros s proc s' Hl; cbn [prefilter].
  { intros [= <-]. exists []. by rewrite app_nil_r. }
  apply Forall_cons in Hl as [Hev Hl].
  destruct (writeBatchSize <=? _)%N; [intros [= <-]; exists []; by rewrite app_nil_r|].
  destruct (Nat.eqb_spec (length (packedStr ev)) 0) as [|Hne].
  { intros [= <-]. exists []. by rewrite app_nil_r. }
  destruct Hev as [Hz|(e & He & _ & Hok)]; [by rewrite Hz in Hne|].
  assert (wf_event e) as Hwf by apply Hok.
  rewrite He, view_encode by done. cbn [mbind result_bind]. rewrite id_encode by done.
  pose proof (lookupEventById_spec d m (ev_id e) Hr (wf_id e Hwf)) as Hlook.
  destruct (lookupEventById d (ev_id e)) as [[lv b]|]; intros (ks & Hks & Hc)%IH; try done.
  - destruct Hlook as (o & Ho & Hi & _). exists (Known ev :: ks). split.
    + rewrite Hks. cbn [pl_log add_log]. by rewrite <-app_assoc.
    + constructor; [|done]. exists e. split_and!; [done|done|]. by exists lv, o.
  - by exists ks.
Qed.

Lemma validate_log now s v rest s' : validate cfg verifyMsg verifyTime now s v rest = Ok s' →
  ∃ ks, pl_log s' = pl_log s ++ ks ∧ ∀ m, Forall (came_to m) ks.
Proof.
  unfold validate. destruct (is_null v); [intros [= <-]; exists []; by rewrite app_nil_r|].
  destruct (parseAndVerifyEvent _ _ _ _ _) as [[p j]|e].
  - intros [= <-]. exists []. by rewrite app_nil_r.
  - destruct (catchable e); [|done]. intros [= <-]. exists [Rejected v]. split; [done|].
    intros m. by repeat constructor.
Qed.

(** An event of the batch is one of those imported. *)
Definition imported (ev : EventToWrite) : Prop :=
  ∃ e t, Q e t ∧ packedStr ev = encode e ∧ jsonStr ev = t.

Lemma imported_same ev ev' : same_input ev ev' → imported ev → imported ev'.
Proof. intros (Hp & Hj & _) (e & t & ?). exists e, t. by rewrite Hp, Hj. Qed.

Lemma imported_event e ev : imported ev → event_ok e → packedStr ev = encode e → Q e (jsonStr ev).
Proof.
  intros (e0 & t & HQt & Hp & <-) He Hp'. rewrite Hp in Hp'.
  apply encode_inj in Hp' as ->; [done|apply (HQok _ _ HQt)|apply He].
Qed.

Lemma texts_together d m :
  (∀ l e, m !! l = Some e → ∃ t, Q e t ∧ EventPayload (tables d) !! l = Some ("000"%char :: t)) →
  ∀ o, stored m o → ∃ t, Q o t.
Proof. intros Ht o [l Ho]. destruct (Ht l o Ho) as (t & ? & _). by exists t. Qed.

Lemma write_batch_log fs c d s m proc c' d' s' : db_filters d fs → cache_coherent c d →
  store_inv fs d m → Forall good proc → Forall imported proc →
  (getMostRecentLevId d + N.of_nat (length proc) ≤ MAX_U64)%N →
  (∀ l e, m !! l = Some e → ∃ t, Q e t ∧ EventPayload (tables d) !! l = Some ("000"%char :: t)) →
  write_batch sort_events c d s proc = Ok (c', d', s') →
  ∃ m' ks, store_inv fs d' m' ∧ pl_log s' = pl_log s ++ ks ∧ Forall (came_to m') ks ∧
    (∀ o, stored m o → stored m' o) ∧
    (∀ l e, m' !! l = Some e → ∃ t, Q e t ∧ EventPayload (tables d') !! l = Some ("000"%char :: t)).
Proof.
  intros Hf Hc Hinv Hgood Himp Hroom Ht. unfold write_batch.
  destruct (Nat.eqb_spec (length proc) 0) as [_|_].
  { intros [= <- <- <-]. exists m, []. split_and!; try done. unfold end_turn.
    rewrite app_nil_r. by destruct (shutdownComplete s). }
  destruct (good_events proc Hgood) as [es Hes].
  destruct (batch_outcome c d m fs es proc (sort_events proc))
    as (c1 & d1 & out & es' & m' & Hw & _ & _ & Hin & Hws & Hinv' & Hbr & _ & _ & Hlen & _ & Hpend).
  { by split. }
  rewrite Hw. cbn [mbind result_bind]. intros [= <- <- <-].
  assert (Forall imported out) as Hout.
  { assert (Forall imported (sort_events proc)) as Hs by (destruct (sort_ok proc) as [Hp _]; by rewrite Hp).
    clear -Hs Hin. induction Hin as [|x y l k Hxy _ IH]; [constructor|].
    apply Forall_cons in Hs as [? ?]. constructor; [by eapply imported_same|auto]. }
  assert (Forall2 (λ e ev, event_ok e ∧ packedStr ev = encode e) es' out) as Hpk.
  { eapply Forall2_trans; [|exact Hpend|exact Hin]. intros e ev1 ev2 (Hp & _ & ?) (-> & _). done. }
  assert (∀ e ev, (e, ev) ∈ zip es' out → event_ok e ∧ packedStr ev = encode e ∧ Q e (jsonStr ev)) as Hzip.
  { intros e ev [[Hok Hp] Hev]%(Forall2_zip _ _ _ _ _ Hpk). split_and!; [done|done|].
    apply imported_event; [|done|done]. rewrite Forall_forall in Hout. by apply Hout. }
  destruct (write_specs_together _ HQ None m (zip es' out) m') as [Hst Hnew];
    [by apply (texts_together d m)| |done|done|].
  { rewrite Forall_fmap. apply Forall_forall. intros [e ev] Hz. destruct (Hzip e ev Hz) as (_ & _ & ?).
    by eexists. }
  exists m', (Settled <$> out). split_and!; [done| | |intros o Ho; apply Hst; by left|].
  - unfold end_turn. by destruct (shutdownComplete (settle s out)).
  - rewrite Forall_fmap. apply Forall_forall. intros ev Hev. simpl.
    destruct (Forall2_zip_back _ _ _ _ Hpk Hev) as [e Hz]. destruct (Hzip e ev Hz) as (Hok & Hp & _).
    exists e. split_and!; [done|done|]. destruct (proj2 (Hst e)) as [k Hk]; [|by exists k, e].
    right. apply list_elem_of_fmap. by exists (e, ev).
  - intros l e He. destruct (Hnew l e He) as [Ho|(ev & Hz & Hs & <-)].
    + destruct (Ht l e Ho) as (t & HQt & Hpay). exists t. split; [done|].
      destruct (br_old _ _ _ _ _ _ Hbr l e He) as [_ ->]; [|done].
      apply (getMostRecentLevId_top d m); [apply Hinv|]. by eexists.
    + destruct (Hzip e ev Hz) as (_ & _ & HQt). exists (jsonStr ev). split; [done|].
      apply (br_new _ _ _ _ _ _ Hbr); [|done|by eexists].
      by apply (Forall2_zip _ _ _ _ _ Hpk) in Hz as [_ ?].
Qed.

(** *** Step by step *)

Definition handed_of (c : import_call) : option handed :=
  match c with Call_write (Import_fried ev) => Some (HEvent ev) | _ => None end.

Lemma came_to_more m m' log : (∀ o, stored m o → stored m' o) →
  Forall (came_to m) log → Forall (came_to m') log.
Proof.
  intros Hm Hlog. eapply Forall_impl; [exact Hlog|].
  assert (∀ i, id_stored m i → id_stored m' i) as Hi.
  { intros i (l & e & He & <-). destruct (Hm e) as [k Hk]; [by exists l|]. by exists k, e. }
  intros [v|ev|ev]; simpl; naive_solver.
Qed.

Lemma queued_events fs ds hs c d s l : sys_inv cfg verifyMsg verifyTime fs ds hs (c, d, s) →
  writer s = W_read l → Forall (λ ev, packedStr ev = [] ∨ good ev) l.
Proof.
  intros ((J & k & E & stop & [_ _ Hq HE _ _ _ _ _ _ _] & _) & _) Hw. simpl in *.
  unfold queue in Hq. rewrite Hw in Hq.
  assert (Forall (λ ev, packedStr ev = [] ∨ good ev) (l ++ writerInbox s)) as [? _]%Forall_app; [|done].
  rewrite Hq. apply Forall_app. split; [|destruct stop; repeat constructor].
  eapply Forall_impl; [exact HE|auto].
Qed.

Lemma batch_events fs ds hs c d s B : sys_inv cfg verifyMsg verifyTime fs ds hs (c, d, s) →
  Forall sent_in hs → writer s = W_write B → Forall good B ∧ Forall imported B.
Proof.
  intros ((J & k & E & stop & Hs & [_ (hw & hp & hd & Hp & _ & Hb & _) _]) & _) Hsent Hw. simpl in *.
  pose proof (sh_batch _ _ _ _ _ Hs) as Hgood. unfold batch in *. rewrite Hw in *. split; [done|].
  assert (Forall sent_in hp) as Hhp.
  { rewrite Hp, !Forall_app in Hsent. apply Hsent. }
  clear -Hb Hhp. induction Hb as [|h ev hp B Hf _ IH]; [constructor|].
  apply Forall_cons in Hhp as [(e & t & -> & HQt) Hhp]. constructor; [|auto].
  destruct Hf as (Hpk & Hj & _). by exists e, t.
Qed.

Lemma progress_turn fs hs x x' m : progress fs hs x m → room x →
  thread_step cfg sort_events writeBatchSize verifyMsg verifyTime x x' → ∃ m', progress fs hs x' m'.
Proof.
  intros [[ds Hsys] Hsent Hst Ht Hlog] Hroom Hstep.
  destruct (turn_inv cfg sort_events writeBatchSize verifyMsg verifyTime hex_errors sort_ok batch_pos
    fs ds hs x x' Hsys Hroom Hstep) as [Hsys' _].
  assert (∀ c d s ks, x = (c, d, s) → x'.1.2 = d → pl_log x'.2 = pl_log s ++ ks →
    Forall (came_to m) ks → ∃ m', progress fs hs x' m') as Hsame.
  { intros c d s ks -> Hd Hl Hks. exists m. split; try rewrite Hd; try done; [by eexists|].
    rewrite Hl. by apply Forall_app. }
  destruct Hstep as [c d s Hv Hi|now c d s v rest s' Hv Hrun|c d s Hv|c d s Hw Hi|c d s l s' Hw Hrun
    |c d s B x' Hw Hrun]; simpl in *.
  - by eapply (Hsame _ _ _ []); rewrite ?app_nil_r.
  - destruct (validate_log _ _ _ _ _ Hrun) as (ks & Hl & Hks). by eapply (Hsame _ _ _ ks).
  - by eapply (Hsame _ _ _ []); rewrite ?app_nil_r.
  - by eapply (Hsame _ _ _ []); rewrite ?app_nil_r.
  - destruct (prefilter_log m d (ss_repr _ _ _ (proj1 Hst)) l s [] s') as (ks & Hl & Hks);
      [by apply (queued_events fs ds hs c d s)|done|]. by eapply (Hsame _ _ _ ks).
  - destruct (batch_events fs ds hs c d s B Hsys Hsent Hw) as [Hgood Himp].
    destruct x' as [[c' d'] s']. pose proof Hsys as (_ & [Hf Hc _] & _). simpl in *.
    unfold room, batch in Hroom. simpl in Hroom. rewrite Hw in Hroom.
    destruct (write_batch_log fs c d s m B c' d' s') as (m' & ks & Hst' & Hl & Hks & Hkeep & Ht'); try done.
    exists m'. split; try done; [by eexists|]. simpl. rewrite Hl. apply Forall_app. split; [|done].
    by eapply came_to_more.
Qed.

Context (inputs : list import_input).
Context (Hinputs : Forall (λ i, ∃ e t, i = Import_fried (EventToWrite_make (encode e) t 0) ∧ Q e t) inputs).

Definition all_calls : list import_call := write_calls inputs ++ [Call_flush].

Lemma write_calls_elem c : c ∈ write_calls inputs →
  c = Call_wait ∨ ∃ e t, c = Call_write (Import_fried (EventToWrite_make (encode e) t 0)) ∧ Q e t.
Proof.
  unfold write_calls. intros (i & Hc & Hi)%list_elem_of_bind.
  rewrite Forall_forall in Hinputs. destruct (Hinputs i Hi) as (e & t & -> & HQt). set_solver.
Qed.

Lemma importing_progress fs calls x : importing fs calls x → calls `prefix_of` all_calls →
  (∃ m, progress fs (omap handed_of calls) x m) ∧ (flushCalled x.2 = true → calls = all_calls).
Proof.
  induction 1 as [c d Hdb Hemp|calls c d s call Him IH|calls x x' Him IH Hroom Hstep]; intros Hpre.
  - split; [|done]. pose proof Hdb as [_ _ [m Hinv]].
    assert (m = ∅) as ->.
    { pose proof (ss_repr _ _ _ (proj1 Hinv)) as [Hm _]. rewrite Hemp in Hm.
      by apply (fmap_empty_inv encode). }
    exists ∅. split; simpl; [exists [d]; split_and!; [apply flow_new|done|set_solver]|constructor|done
      |by intros l e ?%lookup_empty_Some|constructor].
  - destruct Hpre as [rest Hall].
    destruct IH as [[m [[ds Hsys] Hsent Hst Ht Hlog]] Hfl]; [exists (call :: rest); by rewrite Hall, <-app_assoc|].
    cbn [snd] in Hfl. assert (flushCalled s = false) as Hnf.
    { destruct (flushCalled s); [|done]. rewrite <-(Hfl eq_refl), <-app_assoc in Hall.
      apply (f_equal length) in Hall. rewrite !length_app in Hall. simpl in Hall. lia. }
    assert (call ∈ write_calls inputs ∨ call = Call_flush ∧ rest = [] ∧ calls = write_calls inputs) as Hcall.
    { unfold all_calls in Hall. destruct (decide (rest = [])) as [->|Hne].
      - rewrite app_nil_r in Hall. apply app_inj_tail in Hall as [-> <-]. by right.
      - destruct (exists_last Hne) as (rest' & y & ->). rewrite app_assoc in Hall.
        apply app_inj_tail in Hall as [-> _]. left. set_solver. }
    rewrite omap_app. destruct Hsys as (Hflow & Hdb & Hd). simpl in *.
    destruct Hcall as [[->|(e & t & -> & HQt)]%write_calls_elem|(-> & -> & ->)]; simpl.
    + rewrite app_nil_r. split; [|congruence]. exists m. split; try done. by exists ds.
    + split; [|simpl; congruence]. exists m. split; try done.
      * exists ds. split_and!; [|done|done]. apply flow_event; [done|done|].
        exists e. split_and!; [done|done|by eapply HQok].
      * apply Forall_app. split; [done|]. constructor; [by exists e, t|constructor].
    + rewrite app_nil_r. split; [|done]. exists m. split; try done.
      exists ds. split_and!; [by apply flow_flush|done|done].
  - destruct (IH Hpre) as [[m Hm] Hfl]. split; [by eapply progress_turn|].
    by rewrite (turn_flush _ _ _ _ _ _ _ Hstep).
Qed.

Lemma all_calls_handed e t : Import_fried (EventToWrite_make (encode e) t 0) ∈ inputs →
  HEvent (EventToWrite_make (encode e) t 0) ∈ omap handed_of all_calls.
Proof.
  intros Hin. apply list_elem_of_omap.
  exists (Call_write (Import_fried (EventToWrite_make (encode e) t 0))). split; [|done].
  apply elem_of_app. left. apply list_elem_of_bind. eexists. split; [|exact Hin]. constructor.
Qed.

(** After the flush exactly the events handed in are stored, with their texts. *)
Lemma import_finished fs c d s : importing fs all_calls (c, d, s) → writer s = W_done →
  ∃ m, store_inv fs d m ∧
    (∀ l e, m !! l = Some e → ∃ t, Q e t ∧ EventPayload (tables d) !! l = Some ("000"%char :: t)) ∧
    ∀ e t, Q e t → Import_fried (EventToWrite_make (encode e) t 0) ∈ inputs → stored m e.
Proof.
  intros Him Hw. destruct (importing_progress fs all_calls _ Him) as [[m [[ds Hsys] _ Hst Ht Hlog]] _]; [done|].
  exists m. split_and!; [done|done|]. intros e t HQt Hin.
  destruct (writer_ended cfg writeBatchSize verifyMsg verifyTime batch_pos fs ds _ c d s Hsys Hw)
    as (_ & _ & _ & _ & done_ & Hp & Hacc).
  assert (HEvent (EventToWrite_make (encode e) t 0) ∈ done_) as Hd.
  { rewrite <-Hp. by apply all_calls_handed. }
  assert (∃ o, o ∈ pl_log s ∧
    accounts cfg verifyMsg verifyTime (HEvent (EventToWrite_make (encode e) t 0)) o) as (o & Ho & Ha).
  { clear -Hacc Hd. induction Hacc as [|h o hs log Ha _ IH]; [by apply not_elem_of_nil in Hd|].
    apply elem_of_cons in Hd as [<-|Hd]; [exists o; split; [constructor|done]|].
    destruct (IH Hd) as (o' & ? & ?). exists o'. split; [by constructor 2|done]. }
  rewrite Forall_forall in Hlog. specialize (Hlog o Ho).
  assert (∃ ev, packedStr ev = encode e ∧ came_to m (Known ev)) as (ev & Hpk & e' & Hpk' & Hok & l & x & Hx & Hi).
  { destruct o as [v|ev|ev]; [by destruct Ha as [? _]|exists ev..]; split; try done; by destruct Ha as [? _]. }
  rewrite Hpk in Hpk'. apply encode_inj in Hpk' as <-; [|apply (HQok _ _ HQt)|apply Hok].
  exists l. rewrite <-(tg_ids _ HQ x e); [done| |by exists t|done].
  destruct (Ht l x Hx) as (t' & ? & _). by exists t'.
Qed.
End migration.

(** ** A store copied by [export --fried] and [import --fried] *)

Section copy.
Context `{!Hex, !NativeU64, !GolpeKeys, !Env, !Zstd, !EventLibs, !JsonParser} (cfg : Config).
Variable from_hex_default : bytes → result bytes.
Variable sort_events : list EventToWrite → list EventToWrite.
Variables (writeBatchSize : N) (verifyMsg verifyTime : bool).
Context (from_to_hex_default : ∀ b, from_hex_default (to_hex b) = Ok b).
Context (hex_errors : ∀ s b, only_caught (from_hex s b)).
Context (sort_ok : ∀ l, std_sorts l (sort_events l)).
Context (batch_pos : (0 < writeBatchSize)%N).

Lemma Forall2_elem_r {A B : Type} (R : A → B → Prop) l k y :
  Forall2 R l k → y ∈ k → ∃ x, x ∈ l ∧ R x y.
Proof.
  intros HR [i Hi]%list_elem_of_lookup. destruct (Forall2_lookup_r _ _ _ _ _ HR Hi) as (x & Hx & ?).
  exists x. split; [|done]. by eapply list_elem_of_lookup_2.
Qed.

(** A store that can be exported. *)
Record exportable (d : env) (m : gmap N event) (a : export_args) : Prop := {
  xp_repr : repr d m;
  xp_ids : ids_unique m;
  xp_store : store_ok m;
  xp_events : ∀ l e, m !! l = Some e → event_ok e;
  xp_texts : ∀ l e, m !! l = Some e → ∃ j, text_ok cfg d l j;
  xp_version : (3 ≤ getDBVersion d)%N;
  xp_since : is_u64 (default 0%N (arg_since a));
  xp_until : is_u64 (default MAX_U64 (arg_until a));
}.

(** C21: importing the fried export of a window into an empty store gives exactly
    the events of the window with the very texts they had, however the events
    were batched and the threads interleaved: once the flush is answered, no
    event of the window is missing, refused as a duplicate, replaced or deleted
    by another, though they are written in another order than at first. *)
Theorem migration_preserves_store d0 m0 a c0 : exportable d0 m0 a → arg_fried a = true →
  caches_ok c0 d0 →
  ∃ s' calls, cmd_export cfg true a d0 (mk_exporter c0 []) = (Ok tt, s') ∧
    cmd_import from_hex_default true true (ex_out s') = Ok calls ∧
    ∀ fs c d s,
      importing cfg sort_events writeBatchSize verifyMsg verifyTime fs calls (c, d, s) →
      writer s = W_done →
      ∃ m, store_inv fs d m ∧
        (∀ e, stored m e ↔ ∃ l, m0 !! l = Some e ∧ in_window a (ev_created_at e)) ∧
        ∀ l l0 e, m !! l = Some e → m0 !! l0 = Some e → event_text cfg d l = event_text cfg d0 l0.
Proof.
  intros [Hr Hids Hso Hev Htx Hv Hs Hu] Hfr Hc.
  destruct (export_run cfg from_hex_default from_to_hex_default d0 m0 Hr a Htx c0 Hc Hv)
    as (s' & inputs & Hex & Hread & Him).
  rewrite Hfr in Him. exists s', (all_calls inputs). split_and!; [done|done|].
  set (Q := λ e t, ∃ l j, m0 !! l = Some e ∧ in_window a (ev_created_at e) ∧
    text_ok cfg d0 l j ∧ t = j ++ #"}").
  assert (together (λ e, ∃ t, Q e t)) as HQ.
  { destruct (store_together m0 Hids Hso) as [T1 T2 T3]; split; intros e o (t & l & j & He & _)
      (t' & l' & j' & Ho & _); [apply T1|apply T2|apply T3]; by eexists. }
  intros fs c d s Hrun Hw.
  destruct (import_finished cfg sort_events writeBatchSize verifyMsg verifyTime hex_errors sort_ok
    batch_pos Q HQ) with inputs fs c d s as (m & Hst & Ht & Hall); [| |done|done|].
  { intros e t (l & j & He & _). by eapply Hev. }
  { apply Forall_forall. intros i Hi.
    destruct (Forall2_elem_r _ _ _ _ Hread Hi) as ([l e] & Hin & j & Hj & Hi').
    eapply elem_of_exported in Hin as [He Hwin]; [|eassumption..]. destruct i as [v|ev].
    - rewrite Hfr in Hi'. by destruct Hi'.
    - destruct Hi' as [_ ->]. eexists _, _. split; [done|]. by exists l, j. }
  exists m. split_and!; [done| |].
  - intros e. split.
    + intros [l He]. destruct (Ht l e He) as (t & (l0 & j & ? & ? & _) & _). by exists l0.
    + intros (l0 & He & Hwin).
      assert ((l0, e) ∈ exported d0 m0 a) as Hin by (eapply elem_of_exported; eauto).
      destruct (Forall2_elem_r _ _ _ _ (proj2 (Forall2_flip _ _ _) Hread) Hin) as (i & Hi & j & Hj & Hi').
      destruct i as [v|ev]; [rewrite Hfr in Hi'; by destruct Hi'|]. destruct Hi' as [_ ->].
      eapply Hall; [|exact Hi]. by exists l0, j.
  - intros l l0 e He He0. destruct (Ht l e He) as (t & (l1 & j & He1 & _ & Hj & ->) & Hpay).
    assert (l1 = l0) as -> by (by apply (Hids l1 l0 e e)).
    rewrite (tx_stored _ _ _ _ Hj). unfold event_text. by rewrite Hpay.
Qed.
End copy.
