(* ===== verification/HttpPost.v ===== *)
(** The event processor of the HTTP server ([RelayServer::runHttpServer] in
    [cmd_relay.cpp]): a posted event becomes an EVENT message of the ingester,
    with a promise that the ingester or the writer resolves.

    [post_event] is the part before the wait: an error text, or the message
    that is dispatched.  What the wait for the promise ends with is an argument
    of [answer_post]. *)

From S2P Require Import Prelude Bytes Json Hex PackedEvent FilterSets Filters Config EventParse.
From S2P Require Import Db NegentropyCache EventWriter EventStore StoreTheorems Payload StateExn Plugin RelayServer.
From S2P Require Import RelayIngester IngesterTheorems RelayWriter WriterTheorems.

(** What [resultFuture.wait_for] and [get] come to: the time is over, the
    promise was destroyed, or the result. *)
Inductive future_outcome :=
  | Timeout
  | BrokenPromise
  | Resolved (result : ProcessResult).

Section processor.
Context `{!JsonParser, !EventLibs}.
(** The messages of library exceptions, and that of a broken promise. *)
Variable lib_what : exn → bytes.
Variable broken_promise : bytes.

Definition post_what (e : exn) : bytes := match e with herr m => m | _ => lib_what e end.

(** [eventData.at(k).get_string()] *)
Definition string_field (v : value) (k : bytes) : result bytes :=
  x ← at_key v k; get_string x.

(** The id, once all three fields are there. *)
Definition required_fields (eventData : value) : result bytes :=
  eventId ← string_field eventData #"id";
  _ ← string_field eventData #"pubkey";
  _ ← string_field eventData #"sig";
  Ok eventId.

(** [tao::json::value::array({"EVENT", eventData})] *)
Definition wrapped_event (eventData : value) : value := JArray [JString #"EVENT"; eventData].

(** The body of the outer [try] up to the wait: an error text, or the event's id
    and the message; [p] is the new promise. *)
Definition post_event (p : promise) (eventJson : bytes) : result (bytes + bytes * MsgIngester) :=
  eventData ← json_from_string eventJson;
  if negb (is_object eventData) then Ok (inl #"Event is not a JSON object")
  else
    match required_fields eventData with
    | Throw e =>
        if catchable e then Ok (inl (#"Missing required fields: " ++ post_what e)) else Throw e
    | Ok eventId =>
        Ok (inr (eventId, Ingester_ClientMessage
          (mk_client_message 0 #"http-post" (json_to_string (wrapped_event eventData)) (Some p))))
    end.

(** The rest: the verdict and [errorMsg]. *)
Definition answer_post (eventId : bytes) (o : future_outcome) : bool * bytes :=
  match o with
  | Timeout => (false, #"Event processing timeout for event: " ++ take 16 eventId ++ #"...")
  | BrokenPromise => (false, #"Processing error: " ++ broken_promise)
  | Resolved r => if success r then (true, []) else (false, message r)
  end.

(** The event processor: what was dispatched, and the answer.  [outcome] is what
    the wait for the message comes to. *)
Definition event_processor (p : promise) (outcome : MsgIngester → future_outcome)
    (eventJson : bytes) : result (bool * bytes) * option MsgIngester :=
  match post_event p eventJson with
  | Ok (inl errorMsg) => (Ok (false, errorMsg), None)
  | Ok (inr (eventId, msg)) => (Ok (answer_post eventId (outcome msg)), Some msg)
  | Throw e =>
      (if catchable e then Ok (false, #"Processing error: " ++ post_what e) else Throw e, None)
  end.
End processor.

(** ** Start-up checks *)

(** [checkConfig] only warns: the warnings it logs. *)
Inductive warning := BadPubkey | EphemeralWindow.

Definition checkConfig `{!Hex} (from_hex_default : bytes → result bytes)
    (relay__info__pubkey : bytes) (cfg : Config) : result (list warning) :=
  w1 ← (if length relay__info__pubkey =? 0 then Ok []
        else match (p ← from_hex_default relay__info__pubkey;
                    throw_if (negb (length p =? 32)) (herr #"bad size")) with
             | Ok _ => Ok []
             | Throw e => if catchable e then Ok [BadPubkey] else Throw e
             end);
  Ok (w1 ++ (if (events__ephemeralEventsLifetimeSeconds cfg <=?
                 events__rejectEphemeralEventsOlderThanSeconds cfg)%N then [EphemeralWindow] else [])).

(** ** From the POST to the store *)

Section posted.
Context `{!Hex, !NativeU64, !GolpeKeys, !Env, !JsonParser, !EventLibs, !Zstd, !WritePolicy} (cfg : Config).
Variable whitelistEnv : option bytes.
Variable now : nat → N.
Variable lib_what : exn → bytes.
Variable from_hex_default : bytes → result bytes.
Context (d : env) (m : gmap N event) (Hrepr : repr d m).
Context (Hcfg : config_ok cfg) (Hnow : ∀ t, is_u64 (now t)).
Context (hex_errors : ∀ s b, only_caught (from_hex s b)).
Context (hex_default_errors : ∀ s, only_caught (from_hex_default s)).
(** Printing and parsing a parsed object inside the array gives it back. *)
Context (array_text : ∀ vs, starts_with (json_to_string (JArray vs)) #"[" = true).
Context (wrapped_text : ∀ s v, json_from_string s = Ok v → is_object v = true →
  json_from_string (json_to_string (wrapped_event v)) = Ok (wrapped_event v)).

(** What [p] is resolved with, and the messages that carry it on. *)
Definition results (p : promise) (cs : list call) : list ProcessResult :=
  omap (λ c, match c with SetValue q r => if decide (q = p) then Some r else None | _ => None end) cs.

Definition carriers (p : promise) (ws : list MsgWriter) : list AddEvent :=
  filter (λ ae, ae_resultPromise ae = Some p) (omap add_event ws).

Definition to_writer (cs : list call) : list MsgWriter :=
  cs ≫= λ c, match c with ToWriter _ ws => ws | _ => [] end.

(** [e] is the authentic event that the JSON value [v] denotes. *)
Definition denotes (v : value) (e : event) (jsonStr : bytes) : Prop :=
  wf_event e ∧ ∃ t, authentic cfg (now t) v (encode e) jsonStr.

Lemma http_message_run msg p v s : cm_resultPromise msg = Some p →
  starts_with (cm_payload msg) #"[" = true →
  json_from_string (cm_payload msg) = Ok (wrapped_event v) →
  ∃ s', client_message cfg whitelistEnv now lib_what from_hex_default d msg s = (Ok tt, s') ∧
    ((∃ r, sent s' = sent s ++ [SetValue p r] ∧ writerMsgs s' = writerMsgs s ∧
        (success r = true → ∃ e j, denotes v e j ∧ id_stored m (ev_id e))) ∨
     (∃ ae e, sent s' = sent s ∧ writerMsgs s' = writerMsgs s ++ [Writer_AddEvent ae] ∧
        ae_resultPromise ae = Some p ∧ ae_connId ae = cm_connId msg ∧
        ae_packedStr ae = encode e ∧ denotes v e (ae_jsonStr ae))).
Proof.
  intros Hp Hb Hj. unfold client_message, try_catch.
  assert (process_payload cfg whitelistEnv now lib_what from_hex_default d msg s =
    try_catch (ingesterProcessEvent cfg whitelistEnv now lib_what d (cm_connId msg) (cm_ipAddr msg) v (Some p))
      (λ e, answer (Some p) (cm_connId msg) (mk_process_result false (#"error: " ++ what lib_what e) #"?")
              #"?" false (#"invalid: " ++ what lib_what e)) s) as ->.
  { unfold process_payload, process_command. rewrite Hb, Hj, Hp. reflexivity. }
  unfold try_catch, ingesterProcessEvent, mbind, SE_bind. cbn [curr_time].
  set (s1 := mk_ingester (connIdToAuthStatus s) (writerMsgs s) (sent s) (S (clock_tick s))).
  destruct (parseAndVerifyEvent cfg (now (clock_tick s)) v true true) as [[pk j]|e] eqn:Hpv.
  - pose proof (json_from_string_u64 _ _ Hj) as Hu.
    assert (json_u64 v = true) as Hv by (eapply json_u64_elem; [done|by constructor 2; constructor]).
    pose proof (parseAndVerifyEvent_Ok cfg _ _ _ _ Hpv Hcfg (Hnow _)
      (json_u64_field _ _ Hv) (json_u64_field _ _ Hv)) as Hauth.
    pose proof Hauth as (e & He & -> & _). unfold lift. rewrite view_encode by done.
    rewrite id_encode by done.
    destruct (whitelist_check _ _ _) as [why|] eqn:Hwhy.
    { eexists. split; [reflexivity|]. left. eexists. split; [reflexivity|]. done. }
    pose proof (lookupEventById_spec d m (ev_id e) Hrepr (wf_id e He)) as Hl.
    destruct (lookupEventById d (ev_id e)) as [[l b]|].
    + eexists. split; [reflexivity|]. left. eexists. split; [reflexivity|]. split; [done|].
      intros _. exists e, j. split; [split; [done|by eexists]|]. destruct Hl as (o & ? & ? & _). by exists l, o.
    + eexists. split; [reflexivity|]. right. eexists _, e. split_and!; try done. split; [done|by eexists].
  - rewrite (caught_parseAndVerifyEvent cfg hex_errors _ v true true e Hpv).
    eexists. split; [reflexivity|]. left. eexists. split; [reflexivity|]. done.
Qed.
Lemma results_app p cs1 cs2 : results p (cs1 ++ cs2) = results p cs1 ++ results p cs2.
Proof. apply omap_app. Qed.

Lemma carriers_app p ws1 ws2 : carriers p (ws1 ++ ws2) = carriers p ws1 ++ carriers p ws2.
Proof. unfold carriers. by rewrite omap_app, filter_app. Qed.

Lemma to_writer_app cs1 cs2 : to_writer (cs1 ++ cs2) = to_writer cs1 ++ to_writer cs2.
Proof. apply bind_app. Qed.

Lemma no_results p cs : (∀ r, SetValue p r ∉ cs) → results p cs = [].
Proof.
  induction cs as [|c cs IH]; intros Hno; [done|].
  change (c :: cs) with ([c] ++ cs). rewrite results_app, IH by set_solver. rewrite app_nil_r.
  destruct c as [| | | | | | | | | | |q r]; try done. unfold results. simpl. case_decide as Hq; [|done].
  subst. exfalso. apply (Hno r). constructor.
Qed.

Lemma no_carriers p ws : (∀ ae, Writer_AddEvent ae ∈ ws → ae_resultPromise ae ≠ Some p) →
  carriers p ws = [].
Proof.
  unfold carriers. intros Hno. induction ws as [|w ws IH]; [done|].
  assert (filter (λ ae, ae_resultPromise ae = Some p) (omap add_event ws) = []) as Hws.
  { apply IH. intros ae Hae. apply Hno. by constructor 2. }
  destruct w as [ae|c]; simpl; [|done]. rewrite filter_cons_False; [done|]. apply Hno. constructor.
Qed.

Lemma for_each_app {S A} (f : A → SE S ()) l1 l2 s :
  for_each f (l1 ++ l2) s = (_ ← for_each f l1; for_each f l2) s.
Proof.
  revert s. induction l1 as [|a l1 IH]; intros s; [done|]. cbn [for_each app].
  unfold mbind, SE_bind. destruct (f a s) as [[u|e] s1]; [|done]. apply IH.
Qed.

(** Messages with other promises leave [p] alone. *)
Lemma other_messages p msgs s :
  (∀ msg, Ingester_ClientMessage msg ∈ msgs → cm_resultPromise msg ≠ Some p) →
  ∃ s' ws cs, for_each (ingester_msg cfg whitelistEnv now lib_what from_hex_default d) msgs s = (Ok tt, s') ∧
    writerMsgs s' = writerMsgs s ++ ws ∧ sent s' = sent s ++ cs ∧
    carriers p ws = [] ∧ results p cs = [] ∧ carriers p (to_writer cs) = [].
Proof.
  intros Hno.
  destruct (ingester_msgs_handled cfg whitelistEnv now lib_what from_hex_default d m Hrepr Hcfg Hnow
    hex_errors hex_default_errors msgs s) as (s' & ws & cs & Hrun & Hw & Hc & Fw & Fc & _).
  exists s', ws, cs. rewrite Forall_forall in Fw. rewrite Forall_forall in Fc. split_and!; [done..| | |].
  - apply no_carriers. intros ae Hae. destruct (Fw _ Hae) as (msg & Hin & v & rest & t & e & j & _ & _ & _ & _ & _ & [= ->]).
    by apply Hno.
  - apply no_results. intros r Hr. destruct (Fc _ Hr) as [(msg & Hin & Hp)|(c & _ & Hcl)].
    + by apply (Hno msg).
    + by repeat (apply elem_of_cons in Hcl as [Hcl|Hcl]; [done|]); apply not_elem_of_nil in Hcl.
  - apply no_carriers. intros ae (c & Hae & Hin)%list_elem_of_bind. destruct c; try by apply not_elem_of_nil in Hae.
    destruct (Fc _ Hin) as [(msg & _ & [])|(c & _ & Hcl)].
    apply elem_of_cons in Hcl as [[= -> ->]|Hcl].
    + by apply list_elem_of_singleton in Hae.
    + by repeat (apply elem_of_cons in Hcl as [Hcl|Hcl]; [done|]); apply not_elem_of_nil in Hcl.
Qed.

(** The batch with the posted event. *)
Lemma posted_batch p eventJson eventId imsg pre post s :
  post_event lib_what p eventJson = Ok (inr (eventId, imsg)) →
  (∀ msg, Ingester_ClientMessage msg ∈ pre ++ post → cm_resultPromise msg ≠ Some p) →
  ∃ v s' cs, json_from_string eventJson = Ok v ∧
    ingester_batch cfg whitelistEnv now lib_what from_hex_default d (pre ++ imsg :: post) s = (Ok tt, s') ∧
    sent s' = sent s ++ cs ∧
    ((∃ r, results p cs = [r] ∧ carriers p (to_writer cs) = [] ∧
        (success r = true → ∃ e j, denotes v e j ∧ id_stored m (ev_id e))) ∨
     (∃ ae e, results p cs = [] ∧ carriers p (to_writer cs) = [ae] ∧ ae_connId ae = 0%N ∧
        ae_packedStr ae = encode e ∧ denotes v e (ae_jsonStr ae))).
Proof.
  unfold post_event. intros (v & Hv & Hpost)%bind_Ok_inv Hno.
  destruct (is_object v) eqn:Hobj; [|done]. destruct (required_fields v) as [i|]; [|by destruct (catchable e)].
  injection Hpost as -> <-. set (msg := mk_client_message _ _ _ _).
  set (s0 := mk_ingester (connIdToAuthStatus s) [] (sent s) (clock_tick s)).
  destruct (other_messages p pre s0) as (s1 & ws1 & cs1 & E1 & Hw1 & Hc1 & Kw1 & Kr1 & Kt1);
    [intros; apply Hno; set_solver|].
  destruct (http_message_run msg p v s1) as (s2 & E2 & Hcase); [done|apply array_text|by eapply wrapped_text|].
  destruct (other_messages p post s2) as (s3 & ws3 & cs3 & E3 & Hw3 & Hc3 & Kw3 & Kr3 & Kt3);
    [intros; apply Hno; set_solver|].
  exists v.
  assert (∃ ws2 cs2, writerMsgs s2 = writerMsgs s1 ++ ws2 ∧ sent s2 = sent s1 ++ cs2 ∧ to_writer cs2 = [] ∧
    ((∃ r, results p cs2 = [r] ∧ carriers p ws2 = [] ∧
        (success r = true → ∃ e j, denotes v e j ∧ id_stored m (ev_id e))) ∨
     (∃ ae e, results p cs2 = [] ∧ carriers p ws2 = [ae] ∧ ae_connId ae = 0%N ∧
        ae_packedStr ae = encode e ∧ denotes v e (ae_jsonStr ae)))) as (ws2 & cs2 & Hw2 & Hc2 & Ht2 & Hcase2).
  { destruct Hcase as [(r & Hc & Hw & Hr)|(ae & e & Hc & Hw & Hp & Hcn & Hpk & Hden)].
    - exists [], [SetValue p r]. rewrite app_nil_r. split_and!; [done..|]. left. exists r.
      unfold results. simpl. by rewrite decide_True.
    - exists [Writer_AddEvent ae], []. rewrite app_nil_r. split_and!; [done..|]. right. exists ae, e.
      unfold carriers. simpl. rewrite filter_cons_True by done. by split_and!. }
  set (ws := ws1 ++ ws2 ++ ws3).
  assert (writerMsgs s3 = ws) as Hws by (rewrite Hw3, Hw2, Hw1; unfold ws; by rewrite <-!app_assoc).
  set (cs := cs1 ++ cs2 ++ cs3 ++ (if 0 <? length ws then [ToWriter 0 ws] else [])).
  assert (results p cs = results p cs2 ∧ carriers p (to_writer cs) = carriers p ws2) as [Hres Hcar].
  { unfold cs. rewrite !results_app, !to_writer_app, !carriers_app, Kr1, Kr3, Ht2, Kt1, Kt3. simpl.
    rewrite <-(app_nil_r (results p cs2)) at 2. split; [by destruct (0 <? length ws)|].
    transitivity (carriers p ws); [|unfold ws; by rewrite !carriers_app, Kw1, Kw3, app_nil_r].
    destruct ws as [|w ws']; [done|]. simpl. by rewrite app_nil_r. }
  exists (if 0 <? length ws
    then mk_ingester (connIdToAuthStatus s3) (writerMsgs s3) (sent s3 ++ [ToWriter 0 ws]) (clock_tick s3)
    else s3), cs.
  rewrite Hres, Hcar. split_and!; [done| | |done].
  - unfold ingester_batch. unfold mbind at 1, SE_bind at 1, modify at 1. fold s0.
    assert (for_each (ingester_msg cfg whitelistEnv now lib_what from_hex_default d)
      (pre ++ Ingester_ClientMessage msg :: post) s0 = (Ok tt, s3)) as E.
    { rewrite for_each_app. unfold mbind, SE_bind. rewrite E1. cbn [for_each ingester_msg].
      unfold mbind, SE_bind. by rewrite E2. }
    unfold mbind, SE_bind. rewrite E. unfold gets. rewrite <-Hws.
    by destruct (0 <? length (writerMsgs s3)).
  - unfold cs. destruct (0 <? length ws); cbn [sent]; rewrite Hc3, Hc2, Hc1; cbn [sent s0];
      by rewrite ?app_nil_r, <-!app_assoc.
Qed.
Lemma open_carriers p ws ae : carriers p ws = [ae] → ae_connId ae = 0%N → Writer_CloseConn 0 ∉ ws →
  filter (λ a, ae_resultPromise a = Some p) (open_events ws) = [ae].
Proof.
  intros Hc Hn Hcl. unfold open_events. rewrite list_filter_filter.
  rewrite (list_filter_iff _ (λ a, Writer_CloseConn (ae_connId a) ∉ ws ∧ ae_resultPromise a = Some p)) by tauto.
  rewrite <-list_filter_filter. fold (carriers p ws). rewrite Hc.
  by rewrite filter_cons_True by (by rewrite Hn).
Qed.

Lemma results_count p cs :
  length (results p cs) = length (filter (λ q, q = p) (omap promise_of cs)).
Proof.
  induction cs as [|c cs IH]; [done|]. change (c :: cs) with ([c] ++ cs).
  rewrite results_app, length_app, IH, omap_app, filter_app, length_app. f_equal.
  destruct c as [| | | | | | | | | | |q r]; try done. unfold results. simpl. rewrite filter_cons.
  by case_decide.
Qed.

Lemma carriers_count p aes :
  length (filter (λ q, q = p) (omap ae_resultPromise aes)) =
  length (filter (λ a, ae_resultPromise a = Some p) aes).
Proof.
  induction aes as [|ae aes IH]; [done|]. cbn [omap list_omap]. rewrite (filter_cons _ ae).
  destruct (ae_resultPromise ae) as [q|]; [|case_decide; [done|exact IH]].
  rewrite filter_cons. destruct (decide (q = p)) as [->|Hq].
  - rewrite decide_True by done. simpl. by f_equal.
  - rewrite decide_False by congruence. exact IH.
Qed.

Lemma elem_of_results p r cs : r ∈ results p cs → SetValue p r ∈ cs.
Proof.
  unfold results. intros (c & Hin & Hc)%list_elem_of_omap. destruct c; try done.
  case_decide; [|done]. injection Hc as ->. by subst.
Qed.

Lemma results_elem p r cs : SetValue p r ∈ cs → r ∈ results p cs.
Proof.
  intros Hin. unfold results. apply list_elem_of_omap. exists (SetValue p r). split; [done|].
  by rewrite decide_True.
Qed.

Variable sort_events : list EventToWrite → list EventToWrite.
Variable commit : env → result env.
Context (sort_ok : ∀ l, std_sorts l (sort_events l)).
Context (commit_ok : ∀ d, match commit d with Ok d' => d' = d | Throw e => catchable e = true end).

(** C20: a posted event gets one answer, and a success is justified, from the
    POST to the store.  The event processor's message, in whatever batch the
    ingester finds it, makes the ingester either resolve the promise at once
    and pass nothing on, or pass one message on and leave the promise alone;
    and the writer, in whatever batch that message ends up, then resolves it
    once.  A success from the ingester means that the posted text denotes an
    authentic event that was stored.  One from the writer means that the message
    stands in the batch where it is [entitled] to one: written and stored now,
    or a duplicate of an event that was stored and is - a later event of the
    batch may have displaced it - or of a copy that the batch refused before.
    And a message that was written or found a duplicate gets no other answer.
    The client is told of a success only when the promise was resolved with one:
    not after a timeout, and not when the promise was lost. *)
Theorem http_post_outcome p eventJson i imsg pre post s :
  post_event lib_what p eventJson = Ok (inr (i, imsg)) →
  (∀ msg, Ingester_ClientMessage msg ∈ pre ++ post → cm_resultPromise msg ≠ Some p) →
  ∃ v s' cs, json_from_string eventJson = Ok v ∧
    ingester_batch cfg whitelistEnv now lib_what from_hex_default d (pre ++ imsg :: post) s = (Ok tt, s') ∧
    sent s' = sent s ++ cs ∧
    ((∃ r, results p cs = [r] ∧ carriers p (to_writer cs) = [] ∧
        (success r = true → ∃ e j, denotes v e j ∧ id_stored m (ev_id e))) ∨
     (results p cs = [] ∧ ∃ ae e, carriers p (to_writer cs) = [ae] ∧ denotes v e (ae_jsonStr ae) ∧
        ∀ fs st m1 ws, writer_ok fs st m1 → Forall msg_good ws →
          (getMostRecentLevId (store st) + N.of_nat (length ws) ≤ MAX_U64)%N →
          carriers p ws = [ae] → Writer_CloseConn 0 ∉ ws →
          ∃ st' new r done_ m', writer_batch cfg sort_events commit lib_what ws st = Ok st' ∧
            wr_calls st' = wr_calls st ++ new ∧ results p new = [r] ∧
            writer_ok fs st' m' ∧ write_specs None m1 (entries_of done_) m' ∧
            (success r = true → eventId r = to_hex (ev_id e) ∧
               ∃ before ev later, done_ = before ++ (ae, e, ev) :: later ∧
                 entitled m1 (entries_of before) e (status ev) (entries_of later) m') ∧
            (∀ ev, (ae, e, ev) ∈ done_ → success r = true ↔ status ev = Written ∨ status ev = Duplicate))) ∧
    ∀ broken_promise o, (answer_post broken_promise i o).1 = true →
      ∃ r, o = Resolved r ∧ success r = true.
Proof.
  intros Hpost Hno.
  destruct (posted_batch p eventJson i imsg pre post s Hpost Hno)
    as (v & s' & cs & Hv & Hrun & Hc & Hcase).
  exists v, s', cs. split_and!; [done..| |].
  2: { intros bp [| |r]; simpl; [done..|]. intros Hs. exists r. by destruct (success r). }
  destruct Hcase as [?|(ae & e & Hr & Hcar & Hconn & Hpk & Hden)];
    [by left|right]. split; [done|]. exists ae, e. split_and!; [done..|].
  intros fs st m1 ws Hok Hgood Hroom Hws Hcl.
  destruct (writer_told cfg sort_events commit lib_what sort_ok commit_ok
    fs ws st m1 Hok Hgood Hroom)
    as (st' & new & done_ & m' & Hwr & Hcalls & Hok' & Hspec & Hdone & (refused & Hall & _) & Htrue & Hev & Hperm).
  pose proof (open_carriers p ws ae Hws Hconn Hcl) as Hopen.
  assert (length (results p new) = 1) as Hone by by rewrite results_count, Hperm, carriers_count, Hopen.
  destruct (results p new) as [|r [|]] eqn:Hres; try done.
  exists st', new, r, done_, m'. split_and!; [done..| |].
  - intros Hs. assert (SetValue p r ∈ new) as Hin by (apply elem_of_results; rewrite Hres; constructor).
    destruct (Htrue p r Hin Hs) as (before & ae' & e' & ev & later & Hd & Hp' & Hid & Hent).
    assert ((ae', e', ev) ∈ done_) as Hin' by (rewrite Hd; set_solver).
    assert (ae' ∈ open_events ws) as Hopen'.
    { rewrite <-Hall. apply elem_of_app. right. by apply (list_elem_of_fmap_2 acc_event _ (ae', e', ev)). }
    assert (ae' ∈ [ae]) as ->%list_elem_of_singleton by (rewrite <-Hopen; by apply list_elem_of_filter).
    assert (e' = e) as ->.
    { destruct (Hdone _ _ _ Hin') as [Hpk' Hwf]. apply encode_inj; [done|apply Hden|congruence]. }
    split; [done|]. by exists before, ev, later.
  - intros ev Hin'. destruct (Hev ae e ev p Hin') as (r' & Hr' & _ & Hs).
    { assert (ae ∈ [ae]) as Hae by constructor. rewrite <-Hopen in Hae.
      by apply list_elem_of_filter in Hae as [? _]. }
    assert (r' ∈ results p new) as Hx by by apply results_elem. rewrite Hres in Hx.
    by apply list_elem_of_singleton in Hx as ->.
Qed.
End posted.
