(* ===== verification/MonitorCommand.v ===== *)
(** The [monitor] tool ([apps/dbutils/cmd_monitor.cpp]): it drives the monitors
    of the relay from standard input, one command a line, and then prints the
    stored events that one of the subscriptions is notified of. *)

From S2P Require Import Prelude Bytes Json Hex PackedEvent FilterSets Filters Config EventParse.
From S2P Require Import Db EventStore Payload Subscription Monitors MonitorLookups MonitorInv MonitorTheorems.
From S2P Require Import StateExn Handoff ImportExport.

Lemma StronglySorted_sublist {A : Type} (R : A → A → Prop) l k :
  l `sublist_of` k → StronglySorted R k → StronglySorted R l.
Proof.
  induction 1 as [|x l k Hlk IH|x l k Hlk IH]; intros Hso; [done| |].
  - apply StronglySorted_inv in Hso as [Hso HF]. constructor; [by apply IH|].
    rewrite Forall_forall in HF. apply Forall_forall. intros y Hy. apply HF.
    by eapply elem_of_sublist.
  - apply StronglySorted_inv in Hso as [Hso _]. by apply IH.
Qed.

Section monitor.
Context `{!Hex, !NativeU64, !GolpeKeys, !Env, !Zstd, !JsonParser} (cfg : Config).
Variable iter : MonitorSet → list (filterRef * MonitorItem).

Record monitor_state := mk_monitor {
  mn_monitors : ActiveMonitors;
  interestConnId : N;
  interestSubId : bytes;
}.

(** The lines the loop sees.  When the last one has no newline, the next
    [getline] fails without touching [line], so that one comes twice. *)
Fixpoint input_lines (cur stdin : bytes) : list bytes :=
  match stdin with
  | [] => if length cur =? 0 then [] else [cur; cur]
  | c :: stdin =>
      if decide (c = newline) then cur :: input_lines [] stdin
      else input_lines (cur ++ [c]) stdin
  end.

Definition arr_at (arr : list value) (i : nat) : result value :=
  match arr !! i with Some v => Ok v | None => Throw out_of_range end.

Definition monitor_sub (s : monitor_state) (msgArr : list value) : result monitor_state :=
  v1 ← arr_at msgArr 1; connId ← get_unsigned v1;
  v2 ← arr_at msgArr 2; subId ← get_string v2;
  v3 ← arr_at msgArr 3; fg ← NostrFilterGroup_unwrapped v3 MAX_U64;
  sub ← Subscription_make connId subId fg;
  '(am, _) ← addSub cfg (mn_monitors s) (set_latestEventId sub 0) 0;
  Ok (mk_monitor am (interestConnId s) (interestSubId s)).

Definition monitor_removeSub (s : monitor_state) (msgArr : list value) : result monitor_state :=
  v1 ← arr_at msgArr 1; connId ← get_unsigned v1;
  v2 ← arr_at msgArr 2; str ← get_string v2; subId ← SubId_make str;
  am ← removeSub (mn_monitors s) connId subId;
  Ok (mk_monitor am (interestConnId s) (interestSubId s)).

Definition monitor_closeConn (s : monitor_state) (msgArr : list value) : result monitor_state :=
  v1 ← arr_at msgArr 1; connId ← get_unsigned v1;
  am ← closeConn (mn_monitors s) connId;
  Ok (mk_monitor am (interestConnId s) (interestSubId s)).

Definition monitor_interest (s : monitor_state) (msgArr : list value) : result monitor_state :=
  _ ← throw_if (negb (interestConnId s =? 0)%N) (herr #"interest already set");
  v1 ← arr_at msgArr 1; connId ← get_unsigned v1;
  v2 ← arr_at msgArr 2; subId ← get_string v2;
  Ok (mk_monitor (mn_monitors s) connId subId).

Definition monitor_cmd (s : monitor_state) (line : bytes) : result monitor_state :=
  if length line =? 0 then Ok s
  else
    msg ← json_from_string line;
    msgArr ← get_array msg;
    v0 ← arr_at msgArr 0;
    cmd ← get_string v0;
    if decide (cmd = #"sub") then monitor_sub s msgArr
    else if decide (cmd = #"removeSub") then monitor_removeSub s msgArr
    else if decide (cmd = #"closeConn") then monitor_closeConn s msgArr
    else if decide (cmd = #"interest") then monitor_interest s msgArr
    else Throw (herr #"unknown cmd").

Definition monitor_session (stdin : bytes) : result monitor_state :=
  foldM monitor_cmd (mk_monitor am_empty 0 []) (input_lines [] stdin).

(** *** The events *)

Definition interesting (s : monitor_state) (r : ConnIdSubId) : bool :=
  (r.1 =? interestConnId s)%N && bool_decide (SubId_sv r.2 = interestSubId s).

(** The callback: the decompressor and what was printed. *)
Definition show_recipient (s : monitor_state) (d : env) (levId : N) (st : DictCaches * bytes)
    (r : ConnIdSubId) : result (DictCaches * bytes) :=
  if interesting s r then
    '(c, json) ← getEventJson cfg st.1 d levId;
    Ok (c, st.2 ++ json ++ [newline])
  else Ok st.

Definition monitor_event (s : monitor_state) (d : env) (st : ActiveMonitors * (DictCaches * bytes))
    (levId : N) : result (ActiveMonitors * (DictCaches * bytes)) :=
  let '(am, o) := st in
  match lookup_Event d levId with
  | None => Throw undefined_behaviour (* not visited by [foreach_Event] *)
  | Some buf =>
      '(am, called) ← process iter am levId buf;
      o ← (match called with
           | Some (recipients, levId) => foldM (show_recipient s d levId) o recipients
           | None => Ok o
           end);
      Ok (am, o)
  end.

(** What is printed when no exception ends the command. *)
Definition cmd_monitor (stdin : bytes) (d : env) (globals : DictCaches) : result bytes :=
  s ← monitor_session stdin;
  st ← foldM (monitor_event s d) (mn_monitors s, (globals, [])) (foreach_Event d);
  Ok st.2.2.

(** ** What is printed *)

Context (iter_perm : ∀ ms, iter ms ≡ₚ map_to_list ms).

(** The subscriptions of a session, none of which has seen an event. *)
Record session_ok (am : ActiveMonitors) : Prop := {
  sn_inv : am_inv cfg 0 am;
  sn_fresh : ∀ sub, live am sub → latestEventId sub = 0%N;
}.

Lemma monitor_cmd_ok s line s' : session_ok (mn_monitors s) → monitor_cmd s line = Ok s' →
  session_ok (mn_monitors s').
Proof.
  intros [Hinv Hfr] Hrun. unfold monitor_cmd in Hrun. destruct (length line =? 0); [by injection Hrun as <-|].
  apply bind_Ok_inv in Hrun as (msg & _ & Hrun). apply bind_Ok_inv in Hrun as (arr & _ & Hrun).
  apply bind_Ok_inv in Hrun as (v0 & _ & Hrun). apply bind_Ok_inv in Hrun as (cmd & _ & Hrun).
  repeat case_decide; try done; unfold monitor_sub, monitor_removeSub, monitor_closeConn,
    monitor_interest in Hrun; repeat (apply bind_Ok_inv in Hrun as (? & ? & Hrun)).
  - match goal with H : Subscription_make _ _ ?fg = Ok ?sub |- _ =>
      assert (Forall filter_ready (filterGroup (set_latestEventId sub 0))) as Hready end.
    { match goal with H : Subscription_make _ _ _ = Ok _ |- _ =>
        unfold Subscription_make in H; apply bind_Ok_inv in H as (? & _ & [= <-]) end.
      simpl. match goal with H : NostrFilterGroup_unwrapped _ _ = Ok _ |- _ =>
        unfold NostrFilterGroup_unwrapped in H; apply bind_Ok_inv in H as (? & _ & H) end.
      by eapply group_make_ready. }
    match type of Hready with Forall _ (filterGroup ?sub) =>
      destruct (addSub_spec cfg 0 (mn_monitors s) sub Hinv Hready) as (am & b & Hadd & Hinv' & _ & Hlive) end.
    simpl in Hadd. match goal with H : addSub _ _ _ _ = Ok ?x |- _ => rewrite Hadd in H; injection H as <- end.
    injection Hrun as <-. split; [done|]. intros sub' [[Hl _]|[_ ->]]%Hlive; [by apply Hfr|done].
  - match goal with H : removeSub _ ?c ?i = Ok _ |- _ =>
      destruct (removeSub_spec cfg 0 (mn_monitors s) c i Hinv) as (am & Hrm & Hinv' & Hlive & _);
      rewrite Hrm in H; injection H as <- end.
    injection Hrun as <-. split; [done|]. intros sub' [a [Ha _]%Hlive]. apply Hfr. by exists a.
  - match goal with H : closeConn _ ?c = Ok _ |- _ =>
      destruct (closeConn_spec cfg 0 (mn_monitors s) c Hinv) as (am & Hrm & Hinv' & Hlive);
      rewrite Hrm in H; injection H as <- end.
    injection Hrun as <-. split; [done|]. intros sub' [Hl _]%Hlive. by apply Hfr.
  - injection Hrun as <-. by split.
Qed.

Lemma monitor_session_ok stdin s : monitor_session stdin = Ok s → session_ok (mn_monitors s).
Proof.
  intros Hrun. unfold monitor_session in Hrun.
  apply (foldM_inv (λ s, session_ok (mn_monitors s)) monitor_cmd (input_lines [] stdin)
    (mk_monitor am_empty 0 []) s); [|split|done].
  - intros s0 line s1 _ Hs Hstep. by eapply monitor_cmd_ok.
  - apply am_inv_empty.
  - intros sub [a Ha]. simpl in Ha. by rewrite lookup_empty in Ha.
Qed.

(** What processing does to the subscriptions, address by address. *)
Lemma process_marks P am L e : am_inv cfg P am → (P < L)%N → wf_event e →
  ∃ am' rc, process iter am L (encode e) = Ok (am', if negb (length rc =? 0) then Some (rc, L) else None) ∧
    am_inv cfg L am' ∧ NoDup ((λ p : ConnIdSubId, (p.1, SubId_sv p.2)) <$> rc) ∧
    (∀ c i, (c, i) ∈ rc ↔ ∃ sub, due am L e sub ∧ connId sub = c ∧ subId sub = i) ∧
    ∀ a sub', monitors am' !! a = Some sub' ↔ ∃ sub, monitors am !! a = Some sub ∧
      ((latestEventId sub < L)%N ∧ group_matches sub e ∧ sub' = set_latestEventId sub L ∨
       ¬ ((latestEventId sub < L)%N ∧ group_matches sub e) ∧ sub' = sub).
Proof.
  intros Hinv HPL He.
  destruct (process_walk cfg iter iter_perm P L e am He HPL Hinv) as (am' & rc & Hp & Hw & Hs).
  edestruct (recipients_exact cfg P L e am am' rc) as [Hnd Hrc]; [done..|].
  exists am', rc. split_and!; [done|by eapply walk_inv|done|done|]. intros a sub'.
  destruct (monitors am !! a) as [sub|] eqn:Ha.
  - edestruct (marked cfg P L e am am' rc) as [(Hl & Hg & Hm)|[Hn Hm]]; [done..| |];
      rewrite Hm; naive_solver.
  - pose proof (wk_heap _ _ _ _ _ Hw a) as Hh. rewrite Ha in Hh. rewrite Hh. naive_solver.
Qed.

(** A subscription under the interesting key that an event reaches. *)
Definition reached (s : monitor_state) (am : ActiveMonitors) (L : N) (e : event) : Prop :=
  ∃ sub, due am L e sub ∧ connId sub = interestConnId s ∧ SubId_sv (subId sub) = interestSubId s.

(** Processing an event changes nothing for the events after it. *)
Lemma reached_after s am am' L e L' e' :
  (∀ a sub', monitors am' !! a = Some sub' ↔ ∃ sub, monitors am !! a = Some sub ∧
      ((latestEventId sub < L)%N ∧ group_matches sub e ∧ sub' = set_latestEventId sub L ∨
       ¬ ((latestEventId sub < L)%N ∧ group_matches sub e) ∧ sub' = sub)) →
  (L < L')%N → reached s am' L' e' ↔ reached s am L' e'.
Proof.
  intros Hm HL. unfold reached, due, live. split.
  - intros (sub' & ([a (sub & Ha & Hcase)%Hm] & Hlt & Hg) & Hc & Hi). exists sub.
    destruct Hcase as [(Hl & _ & ->)|[_ ->]]; (split_and!; [by exists a| |done..]); [lia|done].
  - intros (sub & ([a Ha] & Hlt & Hg) & Hc & Hi).
    assert ((latestEventId sub < L)%N ∧ group_matches sub e ∨
      ¬ ((latestEventId sub < L)%N ∧ group_matches sub e)) as [[Hl Hge]|Hn].
    { destruct (decide (latestEventId sub < L)%N); [|naive_solver]. unfold group_matches.
      destruct (group_doesMatch (filterGroup sub) (mk_view (encode e))) as [[]|];
        [by left|right; by intros [_ ?]..]. }
    + exists (set_latestEventId sub L). split_and!; [exists a; apply Hm; naive_solver|done..].
    + exists sub. split_and!; [exists a; apply Hm; naive_solver|done..].
Qed.

Lemma interesting_spec s r : interesting s r = true ↔
  r.1 = interestConnId s ∧ SubId_sv r.2 = interestSubId s.
Proof. unfold interesting. by rewrite andb_true_iff, N.eqb_eq, bool_decide_eq_true. Qed.

(** Recipients have distinct keys, so at most one is the interesting one. *)
Lemma show_recipients s d L c out rc t :
  caches_ok c d → event_text cfg d L = Ok t →
  NoDup ((λ p : ConnIdSubId, (p.1, SubId_sv p.2)) <$> rc) →
  ∃ c', caches_ok c' d ∧ foldM (show_recipient s d L) (c, out) rc =
    Ok (c', out ++ (if existsb (interesting s) rc then t ++ [newline] else [])).
Proof.
  intros Hc Ht. revert c out Hc. induction rc as [|r rc IH]; intros c out Hc Hnd.
  { exists c. split; [done|]. simpl. by rewrite app_nil_r. }
  rewrite fmap_cons in Hnd. apply NoDup_cons in Hnd as [Hr Hnd]. cbn [foldM existsb].
  assert (show_recipient s d L (c, out) r = if interesting s r then
      '(c, json) ← getEventJson cfg c d L; Ok (c, out ++ json ++ [newline]) else Ok (c, out)) as -> by done.
  destruct (interesting s r) eqn:Hi; cbn [orb mbind result_bind]; [|by apply IH].
  pose proof (getEventJson_text cfg c d L Hc) as Hget. rewrite Ht in Hget.
  destruct Hget as (c1 & -> & Hc1). cbn [mbind result_bind].
  destruct (IH c1 (out ++ t ++ [newline]) Hc1 Hnd) as (c' & Hc' & Hrun). exists c'. split; [done|].
  rewrite Hrun. assert (existsb (interesting s) rc = false) as ->; [|by rewrite app_nil_r].
  apply not_true_iff_false. intros (r' & Hr' & Hi')%existsb_exists. apply list_elem_of_In in Hr'.
  apply interesting_spec in Hi as [H1' H2']. apply interesting_spec in Hi' as [H3' H4'].
  apply Hr. apply list_elem_of_fmap. exists r'. split; [congruence|done].
Qed.

(** One event: it is printed when it reaches the interesting subscription. *)
Lemma monitor_event_prints s d m P am c out L e t :
  repr d m → m !! L = Some e → event_text cfg d L = Ok t → am_inv cfg P am → (P < L)%N →
  caches_ok c d →
  ∃ am' c' b, monitor_event s d (am, (c, out)) L =
      Ok (am', (c', out ++ (if b : bool then t ++ [newline] else []))) ∧
    am_inv cfg L am' ∧ caches_ok c' d ∧ (b = true ↔ reached s am L e) ∧
    ∀ L' e', (L < L')%N → reached s am' L' e' ↔ reached s am L' e'.
Proof.
  intros Hr He Ht Hinv HPL Hc. destruct (repr_wf d m L e Hr He) as [Hwf _].
  destruct (process_marks P am L e Hinv HPL Hwf) as (am' & rc & Hp & Hinv' & Hnd & Hrc & Hm).
  unfold monitor_event. rewrite (lookup_Event_repr d m L Hr), He.
  cbn [fmap option_fmap option_map]. rewrite Hp. cbn [mbind result_bind].
  destruct (show_recipients s d L c out rc t Hc Ht Hnd) as (c' & Hc' & Hshow).
  assert ((if negb (length rc =? 0) then foldM (show_recipient s d L) (c, out) rc else Ok (c, out)) =
    foldM (show_recipient s d L) (c, out) rc) as Heq by by destruct rc.
  exists am', c', (existsb (interesting s) rc). split_and!; [|done|done| |].
  - by destruct rc; simpl in *; rewrite ?Hshow; [injection Hshow as -> _; rewrite app_nil_r|].
  - rewrite existsb_exists. split.
    + intros ([c0 i] & Hin%list_elem_of_In & [Hk1 Hk2]%interesting_spec).
      apply Hrc in Hin as (sub & Hdue & <- & <-). by exists sub.
    + intros (sub & Hdue & Hk1 & Hk2). exists (connId sub, subId sub).
      split; [apply list_elem_of_In, Hrc; by exists sub|by apply interesting_spec].
  - intros L' e'. by eapply reached_after.
Qed.

Lemma monitor_events_print s d m Ls : repr d m →
  StronglySorted N.lt Ls → (∀ l, l ∈ Ls → is_Some (m !! l) ∧ is_ok (event_text cfg d l) = true) →
  ∀ P am c out, am_inv cfg P am → (∀ l, l ∈ Ls → (P < l)%N) → caches_ok c d →
  ∃ am' c' ls texts, foldM (monitor_event s d) (am, (c, out)) Ls = Ok (am', (c', out ++ printed texts)) ∧
    ls `sublist_of` Ls ∧ mapR (event_text cfg d) ls = Ok texts ∧
    ∀ l, l ∈ ls ↔ l ∈ Ls ∧ ∃ e, m !! l = Some e ∧ reached s am l e.
Proof.
  intros Hr Hso. induction Hso as [|L Ls Hso IH HL]; intros Hin P am c out Hinv HP Hc.
  { exists am, c, [], []. split_and!; [by rewrite app_nil_r|constructor|done|].
    intros l. split; [by intros ?%not_elem_of_nil|by intros [?%not_elem_of_nil _]]. }
  destruct (Hin L ltac:(constructor)) as [[e He] Ht]. destruct (event_text cfg d L) as [t|] eqn:Htx; [|done].
  destruct (monitor_event_prints s d m P am c out L e t) as (am1 & c1 & b & Hrun & Hinv1 & Hc1 & Hb & Hsame);
    try done; [apply HP; constructor|].
  cbn [foldM]. rewrite Hrun. cbn [mbind result_bind]. rewrite Forall_forall in HL.
  destruct (IH ltac:(intros; apply Hin; by constructor) L am1 c1 (out ++ (if b then t ++ [newline] else [])))
    as (am' & c' & ls & texts & -> & Hsub & Hmap & Hls); [done|done|done|].
  exists am', c', (if b then L :: ls else ls), (if b then t :: texts else texts). split_and!.
  - destruct b; [|by rewrite app_nil_r]. unfold printed. rewrite fmap_cons. cbn [concat].
    by rewrite <-!app_assoc.
  - destruct b; by constructor.
  - destruct b; [|done]. cbn [mapR]. by rewrite Htx, Hmap.
  - intros l. assert (l ∈ (if b then L :: ls else ls) ↔ l = L ∧ b = true ∨ l ∈ ls) as ->
      by (destruct b; rewrite ?elem_of_cons; naive_solver).
    rewrite Hls, Hb, elem_of_cons. split.
    + intros [[-> Hre]|[Hl (e' & He' & Hre)]]; [split; [by left|by exists e]|].
      split; [by right|]. exists e'. split; [done|]. by apply Hsame; [apply HL|].
    + intros [[->|Hl] (e' & He' & Hre)].
      * left. split; [done|]. by simplify_eq.
      * right. split; [done|]. exists e'. split; [done|]. apply Hsame; [by apply HL|done].
Qed.

(** When its commands are accepted, the tool prints the text of exactly the
    stored events that match the subscription it is told to watch, each once
    and in the order of their levIds, whatever other subscriptions there are. *)
Theorem monitor_prints stdin s d m c :
  monitor_session stdin = Ok s → repr d m → m !! 0%N = None → caches_ok c d →
  (∀ l, is_Some (m !! l) → is_ok (event_text cfg d l) = true) →
  ∃ ls texts, cmd_monitor stdin d c = Ok (printed texts) ∧
    mapR (event_text cfg d) ls = Ok texts ∧ StronglySorted N.lt ls ∧
    ∀ l, l ∈ ls ↔ ∃ e sub, m !! l = Some e ∧ live (mn_monitors s) sub ∧ group_matches sub e ∧
      connId sub = interestConnId s ∧ SubId_sv (subId sub) = interestSubId s.
Proof.
  intros Hs Hr Hz Hc Ht. destruct (monitor_session_ok stdin s Hs) as [Hinv Hfr].
  assert (∀ l, l ∈ foreach_Event d ↔ is_Some (m !! l)) as Hin.
  { intros l. rewrite foreach_Event_elem. destruct Hr as [-> _]. by rewrite lookup_fmap, fmap_is_Some. }
  assert (∀ l, is_Some (m !! l) → (0 < l)%N) as Hpos.
  { intros l [e He]. destruct (decide (l = 0%N)) as [->|]; [congruence|lia]. }
  assert (StronglySorted N.lt (foreach_Event d)) as Hso
    by (apply sorted_strict; [apply foreach_Event_sorted|apply foreach_Event_nodup]).
  destruct (monitor_events_print s d m (foreach_Event d) Hr Hso) with 0%N (mn_monitors s) c ([] : bytes)
    as (am' & c' & ls & texts & Hrun & Hsub & Hmap & Hls); [|done| |done|].
  { intros l Hl%Hin. split; [done|by apply Ht]. }
  { intros l Hl%Hin. by apply Hpos. }
  exists ls, texts. split_and!; [|done|by eapply StronglySorted_sublist|].
  - unfold cmd_monitor. rewrite Hs. cbn [mbind result_bind]. by rewrite Hrun.
  - intros l. rewrite Hls, Hin. unfold reached, due. split.
    + intros [_ (e & He & sub & (Hl & _ & Hg) & Hk)]. by exists e, sub.
    + intros (e & sub & He & Hl & Hg & Hk). split; [by eexists|]. exists e. split; [done|].
      exists sub. split_and!; [done| |done|apply Hk..]. rewrite (Hfr sub Hl). apply Hpos. by eexists.
Qed.
End monitor.
