(* ===== verification/Admin.v ===== *)
(** The command-line tools that change a store, and the check at start-up
    ([onAppStartup.cpp], [apps/dbutils/cmd_delete.cpp], [cmd_dict.cpp],
    [cmd_negentropy.cpp], [cmd_scan.cpp], [cmd_info.cpp]).

    Each command is a function of its parsed arguments and of the stores its
    transactions see.  A command that throws commits nothing, [cmd_dict] apart,
    which commits every ten thousand records: it returns the store as committed
    along with its result, and takes the store to be its own between two of
    its commits.  What a command prints is returned when it ends normally. *)

From S2P Require Import Prelude Bytes Json Hex PackedEvent FilterSets Filters Config EventParse.
From S2P Require Import Db NegentropyCache EventWriter Payload DBQuery StateExn ImportExport.

Definition CURR_DB_VERSION : N := 3.

(** ** The tables only the tools write *)

Definition set_Meta t x := mk_tables (Event t) (EventPayload t) (trees t) x
  (NegentropyFilter t) (CompressionDictionary t).
Definition set_NegentropyFilter t x := mk_tables (Event t) (EventPayload t) (trees t) (Meta t)
  x (CompressionDictionary t).
Definition set_CompressionDictionary t x := mk_tables (Event t) (EventPayload t) (trees t) (Meta t)
  (NegentropyFilter t) x.

Class EnvAdmin `{!NativeU64, !GolpeKeys, !Env} := {
  insert_Meta : env → MetaRow → env;
  insert_Meta_tables : ∀ d r, Meta (tables d) = None →
    tables (insert_Meta d r) = set_Meta (tables d) (Some r);
  update_Meta : env → MetaRow → env;
  update_Meta_tables : ∀ d r, tables (update_Meta d r) = set_Meta (tables d) (Some r);
  (** Primary keys are assigned above those in use. *)
  insert_NegentropyFilter : env → bytes → env * N;
  insert_NegentropyFilter_tables : ∀ d v d' n, insert_NegentropyFilter d v = (d', n) →
    tables d' = set_NegentropyFilter (tables d) (NegentropyFilter (tables d) ++ [(n, v)]) ∧
    (∀ i, i ∈ (NegentropyFilter (tables d)).*1 → (i < n)%N) ∧ (n ≠ 0)%N;
  insert_CompressionDictionary : env → bytes → env * N;
  insert_CompressionDictionary_tables : ∀ d v d' n, insert_CompressionDictionary d v = (d', n) →
    tables d' = set_CompressionDictionary (tables d) (<[n := v]> (CompressionDictionary (tables d))) ∧
    CompressionDictionary (tables d) !! n = None ∧ (n ≠ 0)%N;
  (** [BTreeLMDB::fingerprint] of the whole tree *)
  fingerprint : env → N → bytes;
}.

(** [std::to_string] and the like in printed text. *)
Definition show_N (n : N) : bytes := show_nat (N.to_nat n).

(** ** Start-up *)

Section startup.
Context `{!NativeU64, !GolpeKeys, !Env, !EnvAdmin}.

Definition dbCheck (cmd : bytes) (d : env) : result env :=
  match Meta (tables d) with
  | None =>
      let d := insert_Meta d (mk_meta CURR_DB_VERSION 1 1) in
      Ok (insert_NegentropyFilter d #"{}").1
  | Some s =>
      _ ← throw_if (negb (meta_endianness s =? 1)%N)
            (herr #"DB was created on a machine with different endianness");
      if ((meta_dbVersion s <? CURR_DB_VERSION)%N &&
          (bool_decide (cmd = #"export") || bool_decide (cmd = #"info")))
      then Ok d
      else
        _ ← throw_if (meta_dbVersion s <? CURR_DB_VERSION)%N (herr #"aborting: DB too old");
        _ ← throw_if (CURR_DB_VERSION <? meta_dbVersion s)%N (herr #"aborting: DB too new");
        Ok d
  end.

Definition cmd_info (d : env) : bytes := #"DB version: " ++ show_N (getDBVersion d) ++ [newline].
End startup.

(** ** Queries of the tools *)

Section query.
Context `{!Hex, !NativeU64, !GolpeKeys, !Env}.
Variable clock : nat → N.

(** [while (1) { if (query.process(txn, cb, timeBudget)) break; }] *)
Fixpoint query_loop (fuel : nat) {B} (cb : B → N → result B) (d : env) (timeBudget : N)
    (q : DBQuery) (b : B) (t : nat) : result B :=
  match fuel with
  | O => Throw fuel_exhausted
  | S fuel =>
      r ← process cb clock d timeBudget q b t;
      let '(complete, q, b, t) := r in
      if complete : bool then Ok b else query_loop fuel cb d timeBudget q b t
  end.

(** Without a time budget a query is never paused, so one round is all. *)
Definition query_all {B} (cb : B → N → result B) (d : env) (filter : value) (b : B) : result B :=
  query ← DBQuery_of_filter filter MAX_U64;
  query_loop 1 cb d MAX_U64 query b 0.

Section scan.
Context `{!Zstd, !JsonParser} (cfg : Config).

Record scan_args := mk_scan_args {
  arg_pause : N;
  arg_count : bool;
  arg_scan_filter : bytes;
}.

(** [numEvents], the decompressor and what was printed. *)
Record scanner_state := mk_scanner {
  sc_numEvents : N;
  sc_decomp : DictCaches;
  sc_out : bytes;
}.

Definition scan_event (count : bool) (d : env) (s : scanner_state) (levId : N)
    : result scanner_state :=
  if count then Ok (mk_scanner (u64_add (sc_numEvents s) 1) (sc_decomp s) (sc_out s))
  else
    '(c, json) ← getEventJson cfg (sc_decomp s) d levId;
    Ok (mk_scanner (sc_numEvents s) c (sc_out s ++ json ++ [newline])).

(** What is printed when no exception ends the command. *)
Definition cmd_scan (fuel : nat) (a : scan_args) (d : env) (globals : DictCaches) : result bytes :=
  filterJson ← json_from_string (arg_scan_filter a);
  query ← DBQuery_of_filter filterJson MAX_U64;
  s ← query_loop fuel (scan_event (arg_count a) d) d
        (if (arg_pause a =? 0)%N then MAX_U64 else arg_pause a) query (mk_scanner 0 globals []) 0;
  Ok (if arg_count a then show_N (sc_numEvents s) ++ [newline] else sc_out s).
End scan.

(** ** Deleting *)

Section delete.
Context `{!JsonParser}.

Record delete_args := mk_delete_args {
  arg_age : option N;
  arg_filter : option bytes;
  arg_dry_run : bool;
}.

(** [if (filter.optional<uint64_t>(k))]: the field is there; throws when the
    value is no object or the field no number. *)
Definition has_u64 (kvs : list (bytes * value)) (k : bytes) : result bool :=
  match assoc k kvs with
  | None => Ok false
  | Some v => if is_number v then Ok true else Throw bad_variant_access
  end.

(** The filter of the query; [now] is [curr_time_s()]. *)
Definition delete_filter (now : N) (a : delete_args) : result value :=
  let age := default MAX_U64 (arg_age a) in
  let filterStr := default [] (arg_filter a) in
  _ ← throw_if ((length filterStr =? 0) && (age =? MAX_U64)%N)
        (herr #"must specify --age and/or --filter");
  filter ← json_from_string (if length filterStr =? 0 then #"{}" else filterStr);
  if (age =? MAX_U64)%N then Ok filter
  else
    let age := if (now <? age)%N then now else age in
    kvs ← get_object filter;
    u ← has_u64 kvs #"until";
    _ ← throw_if u (herr #"--age is not compatible with filter containing 'until'");
    Ok (JObject (set_field #"until" (JUnsigned (u64_sub now age)) kvs)).

Definition delete_found (levIds : gset N) (levId : N) : result (gset N) := Ok ({[levId]} ∪ levIds).

(** The read transaction. *)
Definition delete_levIds (now : N) (a : delete_args) (d : env) : result (gset N) :=
  filter ← delete_filter now a;
  query_all delete_found d filter ∅.

(** [btree_set] is iterated in ascending order. *)
Definition ascending (levIds : gset N) : list N := merge_sort N.le (elements levIds).

(** The write transaction, on the store as it is then; nothing when it is a dry
    run. *)
Definition cmd_delete (now : N) (a : delete_args) (d0 d : env) : result (gset N * option env) :=
  levIds ← delete_levIds now a d0;
  if arg_dry_run a then Ok (levIds, None)
  else
    '(_, d, _) ← deleteEvents (mk_cache [] 0) d (ascending levIds);
    Ok (levIds, Some d).
End delete.

(** ** Negentropy trees *)

Section negentropy.
Context `{!EnvAdmin, !JsonParser, !EventLibs}.

Definition increaseModCounter (d : env) : result env :=
  match Meta (tables d) with
  | None => Throw (herr #"no Meta entry?")
  | Some m =>
      Ok (update_Meta d (mk_meta (meta_dbVersion m) (meta_endianness m)
                           (u64_add (meta_negentropyModificationCounter m) 1)))
  end.

(** [negentropy list] *)
Definition list_tree (d : env) (f : N * bytes) : bytes :=
  #"tree " ++ show_N f.1 ++ [newline] ++
  #"  filter: " ++ f.2 ++ [newline] ++
  #"  size: " ++ show_nat (base.size (tree_of (tables d) f.1)) ++ [newline] ++
  #"  fingerprint: " ++ to_hex (fingerprint d f.1) ++ [newline].

Definition negentropy_list (d : env) : bytes :=
  concat (list_tree d <$> NegentropyFilter (tables d)).

(** Only a single filter is looked at. *)
Definition has_window (filters : list NostrFilter) : bool :=
  match filters with
  | [f] => negb (since f =? 0)%N || negb (until f =? MAX_U64)%N
  | _ => false
  end.

(** [negentropy add]: the store and the new tree's id. *)
Definition negentropy_add (filterStr : bytes) (d : env) : result (env * N) :=
  filterJson ← json_from_string filterStr;
  compiledFilter ← NostrFilterGroup_unwrapped filterJson MAX_U64;
  _ ← throw_if (has_window compiledFilter) (herr #"single filters should not have since/until");
  _ ← throw_if (length compiledFilter =? 0) (herr #"filter will never match");
  let filterStr := json_to_string filterJson in
  d ← increaseModCounter d;
  _ ← mapR (λ f : N * bytes, throw_if (bool_decide (f.2 = filterStr))
                (herr (#"filter already exists as tree: " ++ show_N f.1)))
        (NegentropyFilter (tables d));
  Ok (insert_NegentropyFilter d filterStr).

(** [env.lookup_NegentropyFilter(txn, treeId)] *)
Fixpoint lookup_filter (treeId : N) (rows : list (N * bytes)) : option bytes :=
  match rows with
  | [] => None
  | (i, f) :: rows => if (i =? treeId)%N then Some f else lookup_filter treeId rows
  end.

(** The query's callback: [recs.emplace_back(packed.created_at(), packed.id())]. *)
Definition build_record (d : env) (recs : list (N * bytes)) (levId : N)
    : result (list (N * bytes)) :=
  '(_, buf) ← lookupEventByLevId d levId;
  packed ← view buf;
  id32 ← Bytes32 (id packed);
  Ok (recs ++ [(created_at packed, id32)]).

(** [negentropy build] *)
Definition negentropy_build (treeId : N) (d : env) : result env :=
  d ← increaseModCounter d;
  match lookup_filter treeId (NegentropyFilter (tables d)) with
  | None => Throw (herr (#"couldn't find treeId: " ++ show_N treeId))
  | Some filterStr =>
      filter ← json_from_string filterStr;
      recs ← query_all (build_record d) d filter [];
      Ok (foldl (λ d r, tree_insert d treeId r.1 r.2) d recs)
  end.
End negentropy.
End query.

(** ** Compression dictionaries *)

(** The compressor.  What it produces is read back by the decompressor with
    the dictionary of the same buffer, if there is room for the text. *)
Class ZstdCompress `{!Zstd} := {
  ZSTD_CDict : Type;
  ZSTD_createCDict : bytes → Z → ZSTD_CDict;
  (** [None] is an error, such as too small a buffer. *)
  ZSTD_compress_usingCDict : N → bytes → ZSTD_CDict → option bytes;
  ZSTD_roundtrip : ∀ cap n src dict level z,
    ZSTD_compress_usingCDict cap src (ZSTD_createCDict dict level) = Some z →
    (N.of_nat (length src) ≤ n)%N →
    ZSTD_decompress_usingDDict n z (ZSTD_createDDict dict) = Some src;
  (** The buffer after training. *)
  ZDICT_trainFromBuffer : N → bytes → list nat → option bytes;
  to_sv32 : N → bytes;
  to_sv32_length : ∀ n, length (to_sv32 n) = 4;
  from_to_sv32 : ∀ n, (n < 2 ^ 32)%N → from_sv32 (to_sv32 n) = n;
}.

Section dict.
Context `{!Hex, !NativeU64, !GolpeKeys, !Env, !EnvAdmin, !JsonParser, !Zstd, !ZstdCompress}.
Context (cfg : Config).
Variable clock : nat → N.

Record dict_args := mk_dict_args {
  arg_dict_filter : option bytes;
  arg_limit : N;
  arg_dictSize : N;
  arg_dictId : N;
  arg_level : Z;
}.

Definition push_levId (levIds : list N) (levId : N) : result (list N) := Ok (levIds ++ [levId]).

(** What every subcommand starts with. *)
Definition dict_levIds (a : dict_args) (d : env) : result (list N) :=
  filterJson ← json_from_string (default #"{}" (arg_dict_filter a));
  query_all clock push_levId d filterJson [].

(** [dict stats] *)
Record dict_counts := mk_counts {
  totalSize : N;
  totalCompressedSize : N;
  numCompressed : N;
  dicts : gmap N N;
}.

Definition count_payload (d : env) (st : DictCaches * dict_counts) (levId : N)
    : result (DictCaches * dict_counts) :=
  let '(decomp, n) := st in
  match EventPayload (tables d) !! levId with
  | None => Throw (herr #"couldn't find event in EventPayload")
  | Some raw =>
      '(decomp, (json, dictId, outCompressedSize)) ← decodeEventPayload cfg decomp d raw;
      let size := N.of_nat (length json) in
      Ok (decomp, mk_counts
        (u64_add (totalSize n) size)
        (u64_add (totalCompressedSize n)
           (if (dictId =? 0)%N then size else N.of_nat (default 0 outCompressedSize)))
        (if (dictId =? 0)%N then numCompressed n else u64_add (numCompressed n) 1)
        (if (dictId =? 0)%N then dicts n
         else <[dictId := u64_add (default 0%N (dicts n !! dictId)) 1]> (dicts n)))
  end.

Definition dict_stats (decomp : DictCaches) (a : dict_args) (d : env) : result dict_counts :=
  levIds ← dict_levIds a d;
  st ← foldM (count_payload d)
         (decomp, mk_counts 0 0 0 ((λ _, 0%N) <$> CompressionDictionary (tables d))) levIds;
  Ok st.2.

(** [dict train]; [shuffle] is [std::shuffle].  [d0] is the store of the
    reading transaction, [d] that of the writing one. *)
Definition train_texts (decomp : DictCaches) (d : env) (levIds : list N)
    : result (DictCaches * (bytes * list nat)) :=
  foldM (λ st levId,
    let '(decomp, (trainingBuf, trainingSizes)) := st in
    '(decomp, json) ← getEventJson cfg decomp d levId;
    Ok (decomp, (trainingBuf ++ json, trainingSizes ++ [length json])))
    (decomp, ([], [])) levIds.

Definition dict_train (shuffle : list N → list N) (decomp : DictCaches) (a : dict_args) (d0 d : env)
    : result (env * N) :=
  levIds ← dict_levIds a d0;
  let levIds := if (arg_limit a <? N.of_nat (length levIds))%N
                then take (N.to_nat (arg_limit a)) (shuffle levIds) else levIds in
  '(_, (trainingBuf, trainingSizes)) ← train_texts decomp d0 levIds;
  match ZDICT_trainFromBuffer (arg_dictSize a) trainingBuf trainingSizes with
  | None => Throw (herr #"zstd training failed: ")
  | Some dict => Ok (insert_CompressionDictionary d dict)
  end.

(** The loops of [dict compress] and [dict decompress]: the store in the
    transaction, the store as committed, and the number of records since. *)
Record rewriting := mk_rewriting {
  rw_decomp : DictCaches;
  rw_txn : env;
  rw_committed : env;
  rw_pendingFlush : N;
}.

Definition compressedData_size : N := 500000.

(** The new record. *)
Definition compressed_val (a : dict_args) (dict orig : bytes) : result bytes :=
  match ZSTD_compress_usingCDict compressedData_size orig (ZSTD_createCDict dict (arg_level a)) with
  | None => Throw (herr #"zstd compression failed: ")
  | Some z =>
      Ok (if length z + 4 <? length orig then "001"%char :: to_sv32 (arg_dictId a) ++ z
          else "000"%char :: orig)
  end.

Definition plain_val (orig : bytes) : result bytes := Ok ("000"%char :: orig).

(** One levId; a text that cannot be read is skipped. *)
Definition rewrite_one (newVal : bytes → result bytes) (levId : N) : SE rewriting () := λ s,
  match getEventJson cfg (rw_decomp s) (rw_txn s) levId with
  | Throw e => if catchable e then (Ok tt, s) else (Throw e, s)
  | Ok (decomp, orig) =>
      match newVal orig with
      | Throw e => (Throw e, mk_rewriting decomp (rw_txn s) (rw_committed s) (rw_pendingFlush s))
      | Ok val =>
          let d := EventPayload_put (rw_txn s) levId val in
          let n := u64_add (rw_pendingFlush s) 1 in
          (Ok tt, if (10000 <? n)%N then mk_rewriting decomp d d 0
                  else mk_rewriting decomp d (rw_committed s) n)
      end
  end.

Definition rewrite_all (newVal : bytes → result bytes) (levIds : list N) : SE rewriting () :=
  _ ← for_each (rewrite_one newVal) levIds;
  modify (λ s, mk_rewriting (rw_decomp s) (rw_txn s) (rw_txn s) (rw_pendingFlush s)).

(** The command's result and the store as committed in the end. *)
Definition rewrite_payloads (newVal : bytes → result bytes) (decomp : DictCaches)
    (levIds : list N) (d : env) : result () * env :=
  let '(r, s) := rewrite_all newVal levIds (mk_rewriting decomp d d 0) in (r, rw_committed s).

Definition dict_compress (decomp : DictCaches) (a : dict_args) (d0 d : env) : result () * env :=
  match dict_levIds a d0 with
  | Throw e => (Throw e, d)
  | Ok levIds =>
      if (arg_dictId a =? 0)%N then (Throw (herr #"specify --dictId or --decompress"), d)
      else
        match CompressionDictionary (tables d) !! arg_dictId a with
        | None => (Throw (herr (#"couldn't find dictId " ++ show_N (arg_dictId a))), d)
        | Some dict => rewrite_payloads (compressed_val a dict) decomp levIds d
        end
  end.

Definition dict_decompress (decomp : DictCaches) (a : dict_args) (d0 d : env) : result () * env :=
  match dict_levIds a d0 with
  | Throw e => (Throw e, d)
  | Ok levIds => rewrite_payloads plain_val decomp levIds d
  end.
End dict.
