(* ===== verification/AdminTheorems.v ===== *)
(** What the command-line tools do to a store: deleting removes exactly the
    events of the filter, a built tree holds exactly the matching events,
    recompressing keeps every text, and a new store is in good order. *)

From S2P Require Import Prelude Bytes Json Hex PackedEvent FilterSets Filters Config EventParse.
From S2P Require Import Db NegentropyCache EventWriter EventStore StoreTheorems Payload StoreHistory.
From S2P Require Import Subscription DBQuery DBQueryOrder DBQueryCursors DBQueryAnswer DBQueryTheorems.
From S2P Require Import DBQueryLiveness StateExn ImportExport Admin.

(** ** Queries *)

Section query.
Context `{!Hex, !NativeU64, !GolpeKeys, !Env}.
Variable clock : nat → N.

Lemma query_all_foreach {B} (cb : B → N → result B) d v b :
  query_all clock cb d v b = (r ← foreachByFilter cb clock d v b 0; Ok r.1).
Proof.
  unfold query_all, foreachByFilter. destruct (DBQuery_of_filter v MAX_U64) as [q|e]; [|done].
  cbn [mbind result_bind query_loop].
  pose proof (process_never_paused cb clock d q b 0) as Hp.
  destruct (process cb clock d MAX_U64 q b 0) as [[[[c q'] b'] t']|e]; [|done]. by subst c.
Qed.

Lemma query_all_run {B} (cb : B → N → result B) d m v fs b :
  scan_db d m → Forall filter_value (filter_values v) →
  NostrFilterGroup_unwrapped v MAX_U64 = Ok fs →
  query_all clock cb d v b = foldM cb b (todo m MAX_U64 fs ∅).
Proof. intros. rewrite query_all_foreach. by apply foreachByFilter_run. Qed.

(** What a query by one unlimited filter visits: each matching event once. *)
Lemma query_all_matching d m kvs f :
  scan_db d m → filter_value (JObject kvs) → NostrFilter_make (JObject kvs) MAX_U64 = Ok f →
  limit f = MAX_U64 → (N.of_nat (base.size m) ≤ MAX_U64)%N →
  ∃ ls, NoDup ls ∧ (∀ l, l ∈ ls ↔ ∃ e, m !! l = Some e ∧ filter_spec kvs e) ∧
    ∀ {B} (cb : B → N → result B) b, query_all clock cb d (JObject kvs) b = foldM cb b ls.
Proof.
  intros Hdb Hv Hmk Hlim Hsize.
  assert (∃ fs, NostrFilterGroup_unwrapped (JObject kvs) MAX_U64 = Ok fs) as [fs Hfs].
  { unfold NostrFilterGroup_unwrapped, NostrFilterGroup_make. simpl. unfold group_step.
    rewrite Hmk. by eexists. }
  assert (Forall filter_value (filter_values (JObject kvs))) as Hvs by (by constructor).
  destruct (query_returns_newest clock d m kvs f 0 Hdb Hv Hmk)
    as (X & t' & Hrun & _ & Hnd & _ & Hsound & Hcomp).
  pose proof (foreachByFilter_run collect_ids clock d m _ fs [] 0 Hdb Hvs Hfs) as Heq.
  rewrite Hrun, foldM_collect in Heq. injection Heq as HX. cbn [app fst] in HX.
  exists X.*2. split_and!; [done| |intros; by rewrite HX; apply query_all_run].
  assert (∀ p, p ∈ X → ∃ e, m !! p.2 = Some e ∧ filter_spec kvs e) as Hs.
  { intros p Hp. destruct (Hsound p Hp) as (e & ? & _ & ?). by exists e. }
  intros l. split; [intros (p & -> & Hp)%list_elem_of_fmap; by apply Hs|].
  intros (e & He & Hspec). destruct (Hcomp l e He Hspec) as [Hin|[Hlen Hnew]];
    [by apply (list_elem_of_fmap_2 snd) in Hin|].
  destruct (decide (l ∈ X.*2)) as [|Hl]; [done|exfalso].
  assert (list_to_set (l :: X.*2) ⊆ dom m) as Hsub.
  { intros k. rewrite elem_of_list_to_set, elem_of_dom.
    intros [->|(p & -> & Hp)%list_elem_of_fmap]%elem_of_cons; [by eexists|].
    destruct (Hs p Hp) as (? & -> & _). by eexists. }
  apply subseteq_size in Hsub. rewrite size_list_to_set, size_dom in Hsub by (by constructor).
  simpl in Hsub. rewrite length_fmap in Hsub. rewrite Hlim in Hlen. lia.
Qed.
End query.

(** ** Deleting *)

Section delete.
Context `{!Hex, !NativeU64, !GolpeKeys, !Env, !JsonParser}.
Variable clock : nat → N.

Lemma set_field_elem k x kvs k' v' : assoc k kvs = None →
  (k', v') ∈ set_field k x kvs ↔ (k', v') = (k, x) ∨ (k', v') ∈ kvs.
Proof.
  induction kvs as [|[k1 v1] kvs IH]; intros Ha; cbn [set_field]; [set_solver|].
  cbn [assoc] in Ha. case_decide as Hk; [done|].
  destruct (bytes_ltb k k1); [set_solver|]. rewrite elem_of_cons, IH by done. set_solver.
Qed.

Lemma set_field_keys k x kvs : assoc k kvs = None → NoDup kvs.*1 → NoDup (set_field k x kvs).*1.
Proof.
  induction kvs as [|[k1 v1] kvs IH]; intros Ha Hnd; cbn [set_field]; [by repeat constructor; set_solver|].
  cbn [assoc] in Ha. case_decide as Hk; [done|].
  assert (k ∉ kvs.*1) as Hnin.
  { intros ([k2 v2] & -> & Hin)%list_elem_of_fmap. simpl in Hk. clear -Ha Hin.
    induction kvs as [|[k3 v3] kvs IH]; [by apply not_elem_of_nil in Hin|]. cbn [assoc] in Ha.
    case_decide; [done|]. apply elem_of_cons in Hin as [[= <- <-]|Hin]; [done|]. by apply IH. }
  destruct (bytes_ltb k k1); csimpl.
  - constructor; [|done]. csimpl. set_solver.
  - csimpl in Hnd. apply NoDup_cons in Hnd as [Hk1 Hnd]. constructor; [|by apply IH].
    intros ([k2 v2] & -> & Hin)%list_elem_of_fmap.
    apply set_field_elem in Hin; [|done]. destruct Hin as [[= -> ->]|Hin]; [by apply Hk|].
    apply Hk1. by apply (list_elem_of_fmap_2 fst) in Hin.
Qed.

(** The filter the command queries by. *)
Definition delete_until (now : N) (a : delete_args) : N :=
  (now - N.min now (default MAX_U64 (arg_age a)))%N.

Definition delete_entries (now : N) (a : delete_args) (kvs : list (bytes * value))
    : list (bytes * value) :=
  if (default MAX_U64 (arg_age a) =? MAX_U64)%N then kvs
  else set_field #"until" (JUnsigned (delete_until now a)) kvs.

(** The events the arguments name: those the filter accepts, and created at
    least [--age] seconds before [now]. *)
Definition named (now : N) (a : delete_args) (kvs : list (bytes * value)) (e : event) : Prop :=
  filter_spec kvs e ∧
  (default MAX_U64 (arg_age a) ≠ MAX_U64 → (ev_created_at e ≤ delete_until now a)%N).

Record delete_ok (now : N) (a : delete_args) (kvs : list (bytes * value)) : Prop := {
  do_some : ¬ (default [] (arg_filter a) = [] ∧ default MAX_U64 (arg_age a) = MAX_U64);
  do_text : json_from_string (if length (default [] (arg_filter a)) =? 0 then #"{}"
              else default [] (arg_filter a)) = Ok (JObject kvs);
  do_until : default MAX_U64 (arg_age a) ≠ MAX_U64 → assoc #"until" kvs = None;
  do_fits : ∀ k v, (k, v) ∈ kvs → value_fits v;
  do_now : is_u64 now;
}.

Lemma delete_filter_ok now a kvs : delete_ok now a kvs →
  delete_filter now a = Ok (JObject (delete_entries now a kvs)) ∧
  filter_value (JObject (delete_entries now a kvs)) ∧
  ∀ e, filter_spec (delete_entries now a kvs) e ↔ named now a kvs e.
Proof.
  intros [Hsome Htext Huntil Hfits Hnow]. pose proof (json_from_string_keys _ _ Htext) as Hnd.
  unfold delete_filter, delete_entries, named.
  assert ((length (default [] (arg_filter a)) =? 0) && (default MAX_U64 (arg_age a) =? MAX_U64)%N = false) as ->.
  { apply andb_false_iff. destruct (Nat.eqb_spec (length (default [] (arg_filter a))) 0) as [Hl|]; [|by left].
    right. apply N.eqb_neq. intros Ha. apply Hsome. split; [by apply nil_length_inv|done]. }
  cbn [throw_if mbind result_bind]. rewrite Htext. cbn [mbind result_bind].
  destruct (N.eqb_spec (default MAX_U64 (arg_age a)) MAX_U64) as [Ha|Ha].
  { split_and!; [done|by exists kvs|]. intros e. naive_solver. }
  specialize (Huntil Ha). cbn [get_object mbind result_bind]. unfold has_u64. rewrite Huntil.
  cbn [mbind result_bind throw_if].
  assert (u64_sub now (if (now <? default MAX_U64 (arg_age a))%N then now
            else default MAX_U64 (arg_age a)) = delete_until now a) as ->.
  { unfold delete_until, u64_sub. destruct (N.ltb_spec now (default MAX_U64 (arg_age a)));
      fold (u64_sub now (default MAX_U64 (arg_age a))); fold (u64_sub now now);
      rewrite u64_sub_small by (done || lia); lia. }
  assert (is_u64 (delete_until now a)) as Hu by (unfold delete_until; unfold is_u64 in *; lia).
  split_and!; [done| |].
  - exists (set_field #"until" (JUnsigned (delete_until now a)) kvs). split_and!; [done|by apply set_field_keys|].
    intros k v Hin. apply set_field_elem in Hin; [|done].
    destruct Hin as [[= -> ->]|Hin]; [|by eapply Hfits]. split; [by intros n [= <-]|].
    split; [by intros n ?%not_elem_of_nil|done].
  - intros e. split.
    + intros Hs. split; [intros k v Hin; apply Hs, set_field_elem; auto|]. intros _.
      eapply (es_until #"until"); [apply Hs, set_field_elem; auto|done..].
    + intros [Hs Hle] k v Hin. apply set_field_elem in Hin; [|done].
      destruct Hin as [[= -> ->]|Hin]; [|by apply Hs].
      split; try done. intros _ n [= <-]. by apply Hle.
Qed.

Lemma merge_sort_elem (levIds : gset N) l : l ∈ ascending levIds ↔ l ∈ levIds.
Proof. unfold ascending. by rewrite merge_sort_Permutation, elem_of_elements. Qed.

Lemma foldM_found ls S : foldM delete_found S ls = Ok (list_to_set ls ∪ S).
Proof.
  revert S. induction ls as [|l ls IH]; intros S; cbn [foldM]; [f_equal; set_solver|].
  change (delete_found S l) with (Ok ({[l]} ∪ S) : result (gset N)). cbn [mbind result_bind].
  rewrite IH. f_equal. set_solver.
Qed.

(** The read transaction finds exactly the events named. *)
Lemma delete_levIds_spec now a kvs d m f :
  scan_db d m → delete_ok now a kvs → (N.of_nat (base.size m) ≤ MAX_U64)%N →
  NostrFilter_make (JObject (delete_entries now a kvs)) MAX_U64 = Ok f → limit f = MAX_U64 →
  ∃ levIds, delete_levIds clock now a d = Ok levIds ∧
    ∀ l, l ∈ levIds ↔ ∃ e, m !! l = Some e ∧ named now a kvs e.
Proof.
  intros Hdb Hok Hsize Hmk Hlim. destruct (delete_filter_ok now a kvs Hok) as (Hf & Hv & Hspec).
  destruct (query_all_matching clock d m _ f Hdb Hv Hmk Hlim Hsize) as (ls & _ & Hls & Hrun).
  exists (list_to_set ls). unfold delete_levIds. rewrite Hf. cbn [mbind result_bind].
  rewrite Hrun, foldM_found. split; [f_equal; set_solver|].
  intros l. rewrite elem_of_list_to_set, Hls. by setoid_rewrite Hspec.
Qed.

(** The next levId after the most recent event is gone. *)
Lemma levId_reused d m d' m' v d'' n : repr d m → repr d' m' →
  (∀ l, is_Some (m' !! l) → is_Some (m !! l)) →
  getMostRecentLevId d ≠ 0%N → m' !! getMostRecentLevId d = None →
  insert_Event d' v = Ok (d'', n) → (n ≤ getMostRecentLevId d)%N.
Proof.
  intros Hr Hr' Hm Hnz Hgone Hins. destruct (getMostRecentLevId_top d m Hr) as [Htop _].
  apply insert_Event_Ok in Hins as (_ & _ & _ & [->|[b Hb]] & _); [lia|].
  destruct Hr' as [Hev _]. rewrite Hev, lookup_fmap, fmap_Some in Hb. destruct Hb as (e & He & _).
  assert (n - 1 ≠ getMostRecentLevId d)%N as Hne by congruence.
  specialize (Htop (n - 1)%N (Hm _ ltac:(by eexists))). lia.
Qed.

(** C24: the delete command removes exactly the events its arguments name: those
    of the store it reads that the filter accepts and that are old enough.
    Whatever was written or deleted before its own write transaction stays as
    it is, the invariant of the store and its trees is kept, and a dry run
    changes nothing.  Unlike the cron thread the command does not spare the most
    recent event: when that one goes, the next event written gets a levId that
    was in use before. *)
Theorem delete_exact now a kvs f fs d0 m0 d m :
  scan_db d0 m0 → grows (mk_snapshot d0 m0) (mk_snapshot d m) →
  delete_ok now a kvs → (N.of_nat (base.size m0) ≤ MAX_U64)%N →
  NostrFilter_make (JObject (delete_entries now a kvs)) MAX_U64 = Ok f → limit f = MAX_U64 →
  db_filters d fs → cache_coherent (mk_cache [] 0) d → store_inv fs d m →
  ∃ levIds d' m', cmd_delete clock now a d0 d =
      Ok (levIds, if arg_dry_run a then None else Some d') ∧
    (∀ l, l ∈ levIds ↔ ∃ e, m0 !! l = Some e ∧ named now a kvs e) ∧
    db_filters d' fs ∧ store_inv fs d' m' ∧
    (∀ l e, m' !! l = Some e ↔
       m !! l = Some e ∧ ¬ (is_Some (m0 !! l) ∧ named now a kvs e)) ∧
    (∀ l, is_Some (m' !! l) → EventPayload (tables d') !! l = EventPayload (tables d) !! l) ∧
    ∀ e v d'' n, m0 !! getMostRecentLevId d = Some e → named now a kvs e →
      insert_Event d' v = Ok (d'', n) → (n ≤ getMostRecentLevId d)%N.
Proof.
  intros Hdb Hg Hok Hsize Hmk Hlim Hfs Hc Hinv.
  destruct (delete_levIds_spec now a kvs d0 m0 f Hdb Hok Hsize Hmk Hlim) as (levIds & Hrun & Hls).
  destruct (deleteEvents_spec (mk_cache [] 0) d m fs (ascending levIds) Hfs Hc Hinv)
    as (c' & d' & Hdel & Hinv' & _ & Hfs' & _ & Hpay).
  exists levIds, d', (drop_all (ascending levIds) m). split_and!; [|done..| | |].
  - unfold cmd_delete. rewrite Hrun. cbn [mbind result_bind].
    destruct (arg_dry_run a); [done|]. by rewrite Hdel.
  - intros l e. rewrite drop_all_lookup, merge_sort_elem, Hls. split; intros [He Hn]; (split; [done|]).
    + intros [[e0 He0] Hnm]. apply Hn. exists e0. split; [done|].
      by rewrite (gr_same _ _ Hg l e0 e He0 He).
    + intros (e0 & He0 & Hnm). apply Hn. split; [by eexists|].
      by rewrite <-(gr_same _ _ Hg l e0 e He0 He).
  - intros l [e [_ Hn]%drop_all_lookup]. by apply Hpay.
  - intros e v d'' n He Hnm. pose proof (ss_repr _ _ _ (proj1 Hinv)) as Hr.
    apply (levId_reused d m d' (drop_all (ascending levIds) m)); [done|apply Hinv'| | |].
    + intros l [o [Ho _]%drop_all_lookup]. by eexists.
    + intros Hz. rewrite Hz in He. by rewrite (sd_zero _ _ Hdb) in He.
    + apply eq_None_not_Some. intros [o [_ Hn]%drop_all_lookup]. apply Hn, merge_sort_elem, Hls. by exists e.
Qed.
End delete.

(** ** Negentropy trees *)

Section negentropy.
Context `{!Hex, !NativeU64, !GolpeKeys, !Env, !EnvAdmin, !JsonParser, !EventLibs}.
Variable clock : nat → N.
(** A printed value is parsed as that value. *)
Context (reparsed : ∀ s v, json_from_string s = Ok v → json_from_string (json_to_string v) = Ok v).

(** Stores that agree on events, payloads and trees. *)
Lemma store_inv_agree fs d d' m :
  Event (tables d') = Event (tables d) → EventPayload (tables d') = EventPayload (tables d) →
  trees (tables d') = trees (tables d) → store_inv fs d m → store_inv fs d' m.
Proof.
  intros He Hp Ht [[Hr Hi Hpay Htr] Hok]. split; [split|done]; [|done| |].
  - split; [by rewrite He; apply Hr|apply Hr].
  - intros l. by rewrite Hp.
  - intros f t Hf p. rewrite <-(Htr f t Hf p). unfold tree_of. by rewrite Ht.
Qed.

Lemma increaseModCounter_spec d : is_Some (Meta_counter (tables d)) →
  ∃ d' r, increaseModCounter d = Ok d' ∧ tables d' = set_Meta (tables d) (Some r).
Proof.
  unfold increaseModCounter, Meta_counter. intros [n Hn]. destruct (Meta (tables d)) as [r|]; [|done].
  eexists _, _. split; [done|apply update_Meta_tables].
Qed.

Lemma single_filter kvs f : NostrFilter_make (JObject kvs) MAX_U64 = Ok f →
  NostrFilterGroup_unwrapped (JObject kvs) MAX_U64 = Ok (if neverMatch f then [] else [f]).
Proof.
  intros Hmk. unfold NostrFilterGroup_unwrapped, NostrFilterGroup_make. simpl. unfold group_step.
  by rewrite Hmk.
Qed.

Lemma no_such_row (rows : list (N * bytes)) str (msg : N → exn) : str ∉ rows.*2 →
  ∃ us, mapR (λ f : N * bytes, throw_if (bool_decide (f.2 = str)) (msg f.1)) rows = Ok us.
Proof.
  induction rows as [|[i f] rows IH]; intros Hn; [by exists []|]. csimpl in Hn.
  apply not_elem_of_cons in Hn as [Hne Hn]. destruct (IH Hn) as [us Hus].
  exists (tt :: us). cbn [mapR snd fst]. rewrite bool_decide_eq_false_2 by congruence.
  cbn [throw_if mbind result_bind]. by rewrite Hus.
Qed.

(** What [add] does when it accepts the filter. *)
Lemma negentropy_add_run str v g d :
  json_from_string str = Ok v → NostrFilterGroup_unwrapped v MAX_U64 = Ok g →
  has_window g = false → length g ≠ 0 → is_Some (Meta_counter (tables d)) →
  json_to_string v ∉ (NegentropyFilter (tables d)).*2 →
  ∃ d1 t, negentropy_add str d = Ok (d1, t) ∧
    NegentropyFilter (tables d1) = NegentropyFilter (tables d) ++ [(t, json_to_string v)] ∧
    t ∉ (NegentropyFilter (tables d)).*1 ∧ is_Some (Meta_counter (tables d1)) ∧
    Event (tables d1) = Event (tables d) ∧ EventPayload (tables d1) = EventPayload (tables d) ∧
    trees (tables d1) = trees (tables d).
Proof.
  intros Hj Hg Hw Hl Hm Hrow. unfold negentropy_add. rewrite Hj. cbn [mbind result_bind].
  rewrite Hg. cbn [mbind result_bind]. rewrite Hw. cbn [throw_if mbind result_bind].
  destruct (Nat.eqb_spec (length g) 0); [done|]. cbn [throw_if mbind result_bind].
  destruct (increaseModCounter_spec d Hm) as (d0 & r & -> & Ht). cbn [mbind result_bind].
  destruct (no_such_row (NegentropyFilter (tables d0)) (json_to_string v)
    (λ i, herr (#"filter already exists as tree: " ++ show_N i))) as [us ->]; [by rewrite Ht|].
  cbn [mbind result_bind].
  destruct (insert_NegentropyFilter d0 (json_to_string v)) as [d1 t] eqn:Hins.
  apply insert_NegentropyFilter_tables in Hins as (Ht1 & Hfresh & _).
  exists d1, t. rewrite Ht1, Ht in *. simpl in *. split_and!; [done|done| |by eexists|done..].
  intros Hin. specialize (Hfresh t Hin). lia.
Qed.

Lemma read_added rows fs row f : mapR read_filter rows = Ok fs → read_filter row = Ok f →
  mapR read_filter (rows ++ [row]) = Ok (fs ++ [f]).
Proof.
  intros Hrows Hrow. apply mapR_Ok. apply mapR_Ok in Hrows. apply Forall2_app; [done|].
  by repeat constructor.
Qed.

Lemma lookup_filter_elem t str rows : NoDup rows.*1 → (t, str) ∈ rows → lookup_filter t rows = Some str.
Proof.
  induction rows as [|[i f] rows IH]; intros Hnd Hin; [by apply not_elem_of_nil in Hin|].
  csimpl in Hnd. apply NoDup_cons in Hnd as [Hi Hnd]. cbn [lookup_filter].
  apply elem_of_cons in Hin as [[= <- <-]|Hin]; [by rewrite N.eqb_refl|].
  destruct (N.eqb_spec i t) as [->|]; [|by apply IH].
  destruct Hi. by apply (list_elem_of_fmap_2 fst) in Hin.
Qed.

(** *** Building *)

Lemma build_record_spec d m recs l e : repr d m → m !! l = Some e →
  build_record d recs l = Ok (recs ++ [tree_elem e]).
Proof.
  intros Hr He. destruct (repr_wf d m l e Hr He) as [Hwf _]. unfold build_record, lookupEventByLevId.
  rewrite (lookup_Event_repr d m l Hr), He. cbn [fmap option_fmap option_map mbind result_bind].
  rewrite view_encode by done. cbn [mbind result_bind].
  rewrite id_encode, created_at_encode by done. unfold Bytes32. rewrite (wf_id e Hwf). done.
Qed.

Lemma build_records d m ls : repr d m → Forall (λ l, is_Some (m !! l)) ls → ∀ recs,
  foldM (build_record d) recs ls = Ok (recs ++ (tree_elem <$> omap (λ l, m !! l) ls)).
Proof.
  intros Hr. induction 1 as [|l ls [e He] _ IH]; intros recs; cbn [foldM]; [by rewrite app_nil_r|].
  rewrite (build_record_spec d m recs l e Hr He). cbn [mbind result_bind omap list_omap].
  rewrite IH, He. by rewrite <-app_assoc.
Qed.

Lemma tree_inserts t recs d :
  ∃ T, tables (foldl (λ d r, tree_insert d t r.1 r.2) d recs) = set_trees (tables d) T ∧
    default ∅ (T !! t) = list_to_set recs ∪ tree_of (tables d) t ∧
    ∀ t', t' ≠ t → T !! t' = trees (tables d) !! t'.
Proof.
  revert d. induction recs as [|[c i] recs IH]; intros d; cbn [foldl].
  { exists (trees (tables d)). split_and!; [by destruct (tables d)| |done]. simpl. unfold tree_of. set_solver. }
  destruct (IH (tree_insert d t c i)) as (T & HT & Ht & Hne). rewrite tree_insert_tables in *.
  exists T. split_and!; [done| |].
  - rewrite Ht. unfold tree_of at 1. cbn [trees set_trees]. rewrite lookup_insert_eq. simpl. set_solver.
  - intros t' Hne'. rewrite Hne by done. by apply lookup_insert_ne.
Qed.

(** Every entry of the tree is a stored event the filter matches. *)
Definition tree_within (f : NostrFilter) (t : N) (d : env) (m : gmap N event) : Prop :=
  ∀ p, p ∈ tree_of (tables d) t → ∃ l e, m !! l = Some e ∧ tree_elem e = p ∧ filter_sem f e.

(** A stored text that denotes an unlimited filter. *)
Record tree_filter (str : bytes) (kvs : list (bytes * value)) (f : NostrFilter) : Prop := {
  tf_text : json_from_string str = Ok (JObject kvs);
  tf_fits : ∀ k v, (k, v) ∈ kvs → value_fits v;
  tf_make : NostrFilter_make (JObject kvs) MAX_U64 = Ok f;
  tf_limit : limit f = MAX_U64;
}.

Lemma build_spec str kvs f t fs d m :
  tree_filter str kvs f → scan_db d m → (N.of_nat (base.size m) ≤ MAX_U64)%N →
  db_filters d (fs ++ [(f, t)]) → (t, str) ∈ NegentropyFilter (tables d) →
  store_inv fs d m → tree_within f t d m →
  ∃ d', negentropy_build clock t d = Ok d' ∧ db_filters d' (fs ++ [(f, t)]) ∧
    store_inv (fs ++ [(f, t)]) d' m.
Proof.
  intros [Htext Hfits Hmk Hlim] Hdb Hsize [Hm Hkeys Hrows] Hrow Hinv Hwithin.
  unfold negentropy_build. destruct (increaseModCounter_spec d Hm) as (d1 & r & -> & Ht1).
  cbn [mbind result_bind]. rewrite Ht1. cbn [NegentropyFilter set_Meta].
  rewrite (lookup_filter_elem t str) by done. rewrite Htext. cbn [mbind result_bind].
  assert (filter_value (JObject kvs)) as Hv.
  { exists kvs. split_and!; [done|by eapply json_from_string_keys|done]. }
  assert (repr d1 m) as Hr1 by (split; [rewrite Ht1; apply Hdb|apply Hdb]).
  assert (scan_db d1 m) as Hdb1 by (split; [done|apply Hdb..]).
  destruct (query_all_matching clock d1 m kvs f Hdb1 Hv Hmk Hlim Hsize) as (ls & _ & Hls & Hrun).
  rewrite Hrun, (build_records d1 m ls Hr1); cycle 1.
  { apply Forall_forall. intros l (e & He & _)%Hls. by exists e. }
  cbn [mbind result_bind app]. set (recs := tree_elem <$> _).
  destruct (tree_inserts t recs d1) as (T & HT & Hnew & Hold).
  assert (∀ l e, m !! l = Some e → filter_sem f e ↔ filter_spec kvs e) as Hsem.
  { intros l e He. eapply NostrFilter_make_sem; [done|by eapply json_from_string_keys|].
    by eapply repr_wf; [apply Hdb|]. }
  assert (∀ p, p ∈ recs ↔ ∃ l e, m !! l = Some e ∧ tree_elem e = p ∧ filter_sem f e) as Hrecs.
  { intros p. unfold recs. rewrite list_elem_of_fmap. setoid_rewrite list_elem_of_omap. split.
    - intros (e & -> & l & (e' & He & Hs)%Hls & He'). rewrite He in He'. injection He' as ->. eexists l, _.
      split_and!; [done|done|]. eapply Hsem; done.
    - intros (l & e & He & <- & Hs). exists e. split; [done|]. exists l. split; [|done].
      apply Hls. exists e. split; [done|]. by eapply Hsem. }
  eexists. split; [done|]. split.
  - split; rewrite HT, Ht1; cbn; [by eexists|done..].
  - destruct Hinv as [[Hr Hi Hp Htr] Hok]. split; [|done]. split; [|done| |].
    + split; [rewrite HT, Ht1; apply Hr|apply Hr].
    + intros l. rewrite HT, Ht1. apply Hp.
    + intros f' t' [Hin|[= -> ->]%list_elem_of_singleton]%elem_of_app p.
      * rewrite <-(Htr f' t' Hin p). unfold tree_of at 1. rewrite HT. cbn [trees set_trees].
        rewrite Hold, Ht1; [done|]. intros ->.
        destruct (read_filters_ok _ _ Hkeys Hrows) as [Hnd _].
        rewrite fmap_app in Hnd. apply NoDup_app in Hnd as (_ & Hd & _).
        apply (Hd t); [by apply (list_elem_of_fmap_2 snd) in Hin|by constructor].
      * unfold tree_of. rewrite HT. cbn [trees set_trees]. rewrite Hnew, elem_of_union, elem_of_list_to_set, Hrecs.
        split; [|auto]. intros [?|Hin]; [done|]. apply Hwithin. unfold tree_of in *. by rewrite Ht1 in Hin.
Qed.

(** C25: [negentropy add] followed by [negentropy build] makes the new tree part
    of the store's invariant.  Adding a filter that has neither window nor limit
    puts a new row after the others and leaves every tree as it is; building,
    later and on whatever the store then holds, fills the tree so that it holds
    exactly the events the filter matches, and from then on the writer and
    every deletion keep it so, as they keep the other trees. *)
Theorem tree_add_build str kvs f fs d m :
  tree_filter str kvs f → neverMatch f = false → since f = 0%N → until f = MAX_U64 →
  db_filters d fs → store_inv fs d m →
  json_to_string (JObject kvs) ∉ (NegentropyFilter (tables d)).*2 →
  (∀ t, t ∉ (NegentropyFilter (tables d)).*1 → tree_of (tables d) t = ∅) →
  ∃ d1 t, negentropy_add str d = Ok (d1, t) ∧ db_filters d1 (fs ++ [(f, t)]) ∧
    store_inv fs d1 m ∧ tree_within f t d1 m ∧
    ∀ d2 m2, NegentropyFilter (tables d2) = NegentropyFilter (tables d1) →
      is_Some (Meta_counter (tables d2)) → scan_db d2 m2 → (N.of_nat (base.size m2) ≤ MAX_U64)%N →
      store_inv fs d2 m2 → tree_within f t d2 m2 →
      ∃ d3, negentropy_build clock t d2 = Ok d3 ∧ db_filters d3 (fs ++ [(f, t)]) ∧
        store_inv (fs ++ [(f, t)]) d3 m2.
Proof.
  intros [Htext Hfits Hmk Hlim] Hnv Hsi Hun [Hm Hkeys Hrows] Hinv Hnew Hempty.
  destruct (negentropy_add_run str (JObject kvs) [f] d) as (d1 & t & Hadd & Hr1 & Ht & Hm1 & He & Hp & Htr).
  { done. }
  { rewrite (single_filter kvs f Hmk). by rewrite Hnv. }
  { cbn. by rewrite Hsi, Hun. }
  { done. }
  { done. }
  { done. }
  pose proof (reparsed _ _ Htext) as Hre.
  assert (∀ d2, NegentropyFilter (tables d2) = NegentropyFilter (tables d1) →
    is_Some (Meta_counter (tables d2)) → db_filters d2 (fs ++ [(f, t)])) as Hdb2.
  { intros d2 Heq Hm2. split; [done| |].
    - rewrite Heq, Hr1, fmap_app. apply NoDup_app. split_and!; [done| |by repeat constructor; set_solver].
      intros i Hi ->%list_elem_of_singleton. by apply Ht.
    - rewrite Heq, Hr1. apply read_added; [done|]. unfold read_filter. cbn [fst snd]. rewrite Hre.
      cbn [mbind result_bind]. by rewrite Hmk. }
  exists d1, t. split; [done|]. split; [by apply Hdb2|]. split; [by eapply store_inv_agree|]. split.
  - intros p Hin. unfold tree_of in Hin. rewrite Htr in Hin. specialize (Hempty t Ht).
    unfold tree_of in Hempty. rewrite Hempty in Hin. by apply elem_of_empty in Hin.
  - intros d2 m2 Heq Hm2 Hscan Hsize Hinv2 Hwithin.
    apply (build_spec (json_to_string (JObject kvs)) kvs); [by split|done|done|by apply Hdb2| |done|done].
    rewrite Heq, Hr1. set_solver.
Qed.

Lemma read_filter_array row vs : json_from_string row.2 = Ok (JArray vs) →
  read_filter row = Throw (herr #"provided filter is not an object").
Proof. intros Hj. unfold read_filter. by rewrite Hj. Qed.

Lemma read_rows_throw rows fs row e : mapR read_filter rows = Ok fs → read_filter row = Throw e →
  mapR read_filter (rows ++ [row]) = Throw e.
Proof.
  revert fs. induction rows as [|r rows IH]; intros fs Hrows Hrow; cbn [app mapR]; [by rewrite Hrow|].
  cbn [mapR] in Hrows. destruct (read_filter r); [|done]. cbn [mbind result_bind] in *.
  destruct (mapR read_filter rows) as [l|]; [|done]. by rewrite (IH l).
Qed.

(** C26: [negentropy add] also accepts an array of filters, which the relay's
    cache of filters cannot read: from then on, whatever else happens to the
    store, every attempt to write or to delete an event throws, with any cache
    that is not out of step with the store. *)
Theorem array_tree_fatal str vs g fs d :
  json_from_string str = Ok (JArray vs) →
  NostrFilterGroup_unwrapped (JArray vs) MAX_U64 = Ok g → has_window g = false → length g ≠ 0 →
  db_filters d fs → json_to_string (JArray vs) ∉ (NegentropyFilter (tables d)).*2 →
  ∃ d1 t, negentropy_add str d = Ok (d1, t) ∧
    ∀ d2, NegentropyFilter (tables d2) = NegentropyFilter (tables d1) →
      is_Some (Meta_counter (tables d2)) →
      ∀ c evs ls, cache_coherent c d2 →
        writeEvents c d2 evs = Throw (herr #"provided filter is not an object") ∧
        deleteEvents c d2 ls = Throw (herr #"provided filter is not an object").
Proof.
  intros Htext Hg Hw Hl [Hm _ Hrows] Hnew.
  destruct (negentropy_add_run str (JArray vs) g d Htext Hg Hw Hl Hm Hnew)
    as (d1 & t & Hadd & Hr1 & _).
  exists d1, t. split; [done|]. intros d2 Heq [n Hn] c evs ls Hc.
  assert (mapR read_filter (NegentropyFilter (tables d2)) = Throw (herr #"provided filter is not an object"))
    as Hread.
  { rewrite Heq, Hr1. apply (read_rows_throw _ fs); [done|]. apply (read_filter_array _ vs).
    by eapply reparsed. }
  assert (freshenCache c d2 = Throw (herr #"provided filter is not an object")) as Hfr.
  { unfold freshenCache. rewrite Hn. destruct (N.eqb_spec n (modificationCounter c)) as [->|].
    - specialize (Hc Hn). congruence.
    - by rewrite Hread. }
  unfold writeEvents, deleteEvents. by rewrite Hfr.
Qed.
End negentropy.

(** ** Scanning *)

Section scan.
Context `{!Hex, !NativeU64, !GolpeKeys, !Env, !Zstd, !JsonParser} (cfg : Config).
Variable clock : nat → N.

Lemma query_loop_slices {B} (cb : B → N → result B) n d budget q b t q' b' t' :
  run_slices cb clock d (replicate n budget) q b t = Ok (true, q', b', t') →
  query_loop clock n cb d budget q b t = Ok b'.
Proof.
  revert q b t. induction n as [|n IH]; intros q b t; simpl; [done|].
  destruct (process cb clock d budget q b t) as [[[[[|] q1] b1] t1]|e]; simpl; [|apply IH|done].
  by intros [= -> -> ->].
Qed.

(** What the scan prints or counts for a list of events. *)
Lemma scan_events count d ls : ∀ s texts, caches_ok (sc_decomp s) d →
  mapR (event_text cfg d) ls = Ok texts →
  ∃ s', foldM (scan_event cfg count d) s ls = Ok s' ∧ caches_ok (sc_decomp s') d ∧
    sc_out s' = sc_out s ++ (if count then [] else printed texts) ∧
    (is_u64 (sc_numEvents s + N.of_nat (length ls)) →
      sc_numEvents s' = if count then (sc_numEvents s + N.of_nat (length ls))%N else sc_numEvents s).
Proof.
  induction ls as [|l ls IH]; intros s texts Hc Ht.
  { injection Ht as <-. exists s. cbn [printed fmap list_fmap concat]. rewrite N.add_0_r.
    split_and!; [done|done|by destruct count; rewrite app_nil_r|by destruct count]. }
  cbn [mapR] in Ht. pose proof (getEventJson_text cfg (sc_decomp s) d l Hc) as Hget.
  destruct (event_text cfg d l) as [json|]; [|done]. destruct Hget as (c & Hget & Hc').
  cbn [mbind result_bind] in Ht. destruct (mapR (event_text cfg d) ls) as [texts'|]; [|done].
  injection Ht as <-. cbn [foldM].
  assert (∃ s1, scan_event cfg count d s l = Ok s1 ∧ caches_ok (sc_decomp s1) d ∧
    sc_out s1 = sc_out s ++ (if count then [] else json ++ [newline]) ∧
    sc_numEvents s1 = if count then u64_add (sc_numEvents s) 1 else sc_numEvents s)
    as (s1 & -> & Hc1 & Ho1 & Hn1).
  { unfold scan_event. destruct count; [|rewrite Hget]; (eexists; split; [done|]);
      split_and!; try done. by rewrite app_nil_r. }
  cbn [mbind result_bind]. destruct (IH s1 texts' Hc1 eq_refl) as (s' & Hrun & Hcs & Ho & Hn).
  exists s'. split_and!; [done|done| |].
  - rewrite Ho, Ho1, <-app_assoc. by destruct count.
  - cbn [length]. intros Hu. assert (u64_add (sc_numEvents s) 1 = sc_numEvents s + 1)%N as Hadd.
    { apply u64_add_small. unfold is_u64 in *. lia. }
    destruct count; rewrite Hn; rewrite ?Hn1, ?Hadd; unfold is_u64 in *; lia.
Qed.

(** C28: however short the pauses are that [scan] is asked for, it ends, and it
    prints the text of every event the filters answer, each once and in the
    order of the answer, or with --count how many they are. *)
Theorem scan_prints a v fs texts d m globals :
  json_from_string (arg_scan_filter a) = Ok v → Forall filter_value (filter_values v) →
  NostrFilterGroup_unwrapped v MAX_U64 = Ok fs →
  scan_db d m → (N.of_nat (base.size m) < 68719476736)%N → caches_ok globals d →
  mapR (event_text cfg d) (todo m MAX_U64 fs ∅) = Ok texts → is_u64 (N.of_nat (length texts)) →
  ∃ n, ∀ fuel, n < fuel → cmd_scan clock cfg fuel a d globals =
    Ok (if arg_count a then show_N (N.of_nat (length texts)) ++ [newline] else printed texts).
Proof.
  intros Hj Hv Hfs Hdb Hsize Hc Ht Hu.
  destruct (Subscription_make 1 #"." fs) as [sub|e] eqn:Hsub; [|done].
  pose proof Hsub as Hsub'. injection Hsub' as Hsub'.
  exists (S (scan_bound m) * length (filterGroup sub)). intros fuel Hlt.
  unfold cmd_scan, DBQuery_of_filter. rewrite Hj. cbn [mbind result_bind]. rewrite Hfs.
  cbn [mbind result_bind]. rewrite Hsub. cbn [mbind result_bind].
  set (budget := if (arg_pause a =? 0)%N then MAX_U64 else arg_pause a).
  destruct (scan_events (arg_count a) d (todo m MAX_U64 fs ∅) (mk_scanner 0 globals []) texts Hc Ht)
    as (s & Hrun & _ & Ho & Hn).
  assert (length (todo m MAX_U64 fs ∅) = length texts) as Hlen.
  { apply mapR_Ok in Ht. by eapply Forall2_length. }
  destruct (slices_complete (scan_event cfg (arg_count a) d) clock d m Hdb Hsize (replicate fuel budget)
    (DBQuery_make sub) (todo m MAX_U64 fs ∅) (S (scan_bound m) * length (filterGroup sub))
    (mk_scanner 0 globals []) s 0) as (q' & t' & Hsl); [| | |done|by rewrite length_replicate|].
  { unfold ready. rewrite <-Hsub'. simpl. by eapply unwrapped_scan. }
  { pose proof (query_left_make d m sub) as Hl. by rewrite <-Hsub' in Hl |- *. }
  { apply rank_make. }
  rewrite (query_loop_slices _ _ _ _ _ _ _ _ _ _ Hsl). cbn [mbind result_bind].
  rewrite Ho, Hn by (by rewrite Hlen). rewrite Hlen. cbn [sc_out sc_numEvents app]. by destruct (arg_count a).
Qed.
End scan.

(** ** Dictionaries *)

Section dict.
Context `{!Hex, !NativeU64, !GolpeKeys, !Env, !EnvAdmin, !JsonParser, !Zstd, !ZstdCompress}.
Context (cfg : Config).
Variable clock : nat → N.

(** The store [d] with other payload records for the same texts. *)
Record same_texts (d d' : env) : Prop := {
  st_tables : ∃ P, tables d' = set_EventPayload (tables d) P ∧
    ∀ l, is_Some (P !! l) ↔ is_Some (EventPayload (tables d) !! l);
  st_texts : ∀ l, event_text cfg d' l = event_text cfg d l;
}.

Lemma same_texts_refl d : same_texts d d.
Proof. split; [|done]. exists (EventPayload (tables d)). by destruct (tables d). Qed.

Lemma same_texts_dicts d d' : same_texts d d' →
  CompressionDictionary (tables d') = CompressionDictionary (tables d).
Proof. intros [(P & HP & _) _]. by rewrite HP. Qed.

Lemma same_texts_inv fs d d' m : same_texts d d' → store_inv fs d m → store_inv fs d' m.
Proof.
  intros [(P & HP & HPd) _] [[Hr Hi Hpay Htr] Hok]. split; [split|done]; [|done| |].
  - split; [by rewrite HP; apply Hr|apply Hr].
  - intros l. rewrite HP. cbn [EventPayload set_EventPayload]. by rewrite HPd.
  - intros f t Hf p. rewrite <-(Htr f t Hf p). unfold tree_of. by rewrite HP.
Qed.

Lemma payload_text_dicts d d' raw :
  CompressionDictionary (tables d') = CompressionDictionary (tables d) →
  payload_text cfg d' raw = payload_text cfg d raw.
Proof. intros Hd. unfold payload_text. by rewrite Hd. Qed.

Lemma caches_ok_dicts c d d' :
  CompressionDictionary (tables d') = CompressionDictionary (tables d) →
  caches_ok c d → caches_ok c d'.
Proof. intros Hd Hc i dict Hi. rewrite Hd. by apply Hc. Qed.

(** A new record that stands for the text of the old one. *)
Definition faithful (d : env) (newVal : bytes → result bytes) : Prop :=
  ∀ l orig val, event_text cfg d l = Ok orig → newVal orig = Ok val →
    payload_text cfg d val = Ok orig.

Lemma put_same_texts d d1 l orig val : same_texts d d1 → event_text cfg d l = Ok orig →
  payload_text cfg d val = Ok orig → same_texts d (EventPayload_put d1 l val).
Proof.
  intros Hst Ht Hv. pose proof (same_texts_dicts _ _ Hst) as Hd. destruct Hst as [(P & HP & HPd) Htx].
  assert (is_Some (EventPayload (tables d) !! l)) as Hl.
  { unfold event_text in Ht. by destruct (EventPayload (tables d) !! l). }
  split.
  - exists (<[l := val]> P). rewrite EventPayload_put_tables, HP. split; [done|]. intros k.
    destruct (decide (l = k)) as [<-|Hne]; [rewrite lookup_insert_eq|by rewrite lookup_insert_ne].
    split; [done|by eexists].
  - intros k. unfold event_text at 1. rewrite EventPayload_put_tables. cbn [EventPayload set_EventPayload].
    destruct (decide (l = k)) as [<-|Hne].
    + rewrite lookup_insert_eq, (payload_text_dicts d); [by rewrite Hv|].
      by rewrite EventPayload_put_tables.
    + rewrite lookup_insert_ne, <-Htx by done. unfold event_text.
      destruct (EventPayload (tables d1) !! k); [|done]. apply payload_text_dicts.
      by rewrite EventPayload_put_tables.
Qed.

Record rewriting_ok (d : env) (s : rewriting) : Prop := {
  rk_decomp : caches_ok (rw_decomp s) d;
  rk_txn : same_texts d (rw_txn s);
  rk_committed : same_texts d (rw_committed s);
}.

(** After [l]'s turn: its record is the new one, the others are what they were. *)
Record rewrote (d : env) (newVal : bytes → result bytes) (l : N) (s s' : rewriting) : Prop := {
  rt_new : ∀ orig, event_text cfg d l = Ok orig → ∃ val, newVal orig = Ok val ∧
    EventPayload (tables (rw_txn s')) !! l = Some val;
  rt_others : ∀ k, k ≠ l →
    EventPayload (tables (rw_txn s')) !! k = EventPayload (tables (rw_txn s)) !! k;
}.

Lemma rewrite_one_ok newVal d l s r s' : faithful d newVal → rewriting_ok d s →
  rewrite_one cfg newVal l s = (r, s') →
  rewriting_ok d s' ∧ (r = Ok tt → rewrote d newVal l s s').
Proof.
  intros Hf [Hc Ht Hm]. pose proof (same_texts_dicts _ _ Ht) as Hd. unfold rewrite_one.
  pose proof (getEventJson_text cfg (rw_decomp s) (rw_txn s) l (caches_ok_dicts _ _ _ Hd Hc)) as Hget.
  rewrite (st_texts _ _ Ht) in Hget. destruct (event_text cfg d l) as [orig|e] eqn:Hl; cycle 1.
  { rewrite Hget. destruct (catchable e); intros [= <- <-]; (split; [done|]); intros Hr; [|done].
    split; [|done]. intros orig Ho. congruence. }
  destruct Hget as (c & -> & Hc'). apply (caches_ok_dicts _ _ d) in Hc'; [|done].
  destruct (newVal orig) as [val|e] eqn:Hv; [|by intros [= <- <-]].
  pose proof (put_same_texts d _ l orig val Ht Hl (Hf l orig val Hl Hv)) as Hput.
  intros [= <- <-]. split; [by destruct (10000 <? _)%N|]. intros _.
  split; destruct (10000 <? u64_add (rw_pendingFlush s) 1)%N; cbn [rw_txn];
    rewrite EventPayload_put_tables; cbn [EventPayload set_EventPayload].
  1, 2: intros o Ho; exists val; rewrite lookup_insert_eq; split; congruence.
  1, 2: intros k Hne; by apply lookup_insert_ne.
Qed.

Lemma rewrite_each_ok newVal d ls : faithful d newVal → ∀ s r s', rewriting_ok d s →
  for_each (rewrite_one cfg newVal) ls s = (r, s') →
  rewriting_ok d s' ∧ (r = Ok tt → ∀ l orig, event_text cfg d l = Ok orig →
    (l ∈ ls → ∃ val, newVal orig = Ok val ∧ EventPayload (tables (rw_txn s')) !! l = Some val) ∧
    (l ∉ ls → EventPayload (tables (rw_txn s')) !! l = EventPayload (tables (rw_txn s)) !! l)).
Proof.
  intros Hf. induction ls as [|l0 ls IH]; intros s r s' Hs; cbn [for_each].
  { intros [= <- <-]. split; [done|]. intros _ l orig _. split; [by intros ?%not_elem_of_nil|done]. }
  unfold mbind, SE_bind. destruct (rewrite_one cfg newVal l0 s) as [r0 s0] eqn:E0.
  destruct (rewrite_one_ok newVal d l0 s r0 s0 Hf Hs E0) as [Hs0 Hw].
  destruct r0 as [[]|e]; [|by intros [= <- <-]].
  intros Hrun. destruct (IH s0 r s' Hs0 Hrun) as [Hs' Heff]. split; [done|]. intros Hr l orig Ho.
  destruct (Hw eq_refl) as [Hnew Hold]. destruct (Heff Hr l orig Ho) as [Hin Hnin].
  destruct (decide (l ∈ ls)) as [Hl|Hl]; [split; [auto|set_solver]|].
  rewrite (Hnin Hl). split.
  - intros [->|?]%elem_of_cons; [by apply Hnew|done].
  - intros Hne. apply Hold. set_solver.
Qed.

(** What the two commands do: the committed store has the same texts, whether or
    not the command ends with an exception. *)
Lemma rewrite_payloads_ok newVal d decomp ls r d' : faithful d newVal → caches_ok decomp d →
  rewrite_payloads cfg newVal decomp ls d = (r, d') →
  same_texts d d' ∧ (r = Ok tt → ∀ l orig, l ∈ ls → event_text cfg d l = Ok orig →
    ∃ val, newVal orig = Ok val ∧ EventPayload (tables d') !! l = Some val).
Proof.
  intros Hf Hc. unfold rewrite_payloads, rewrite_all, mbind, SE_bind.
  destruct (for_each (rewrite_one cfg newVal) ls (mk_rewriting decomp d d 0)) as [r0 s0] eqn:E0.
  assert (rewriting_ok d (mk_rewriting decomp d d 0)) as Hok by (split; [done|apply same_texts_refl..]).
  destruct (rewrite_each_ok newVal d ls Hf _ r0 s0 Hok E0) as [[_ Ht Hm] Heff].
  destruct r0 as [[]|e]; intros [= <- <-]; cbn [rw_committed]; [|done].
  split; [done|]. intros _ l orig Hl Ho. by apply (Heff eq_refl l orig Ho).
Qed.

Lemma plain_faithful d : faithful d plain_val.
Proof. intros l orig val _ [= <-]. done. Qed.

(** Room for every text in the decompressor's buffer. *)
Definition texts_fit (d : env) : Prop :=
  ∀ l t, event_text cfg d l = Ok t → (N.of_nat (length t) ≤ events__maxEventSize cfg)%N.

Lemma compressed_faithful d a dict : texts_fit d → (arg_dictId a < 2 ^ 32)%N →
  CompressionDictionary (tables d) !! arg_dictId a = Some dict →
  faithful d (compressed_val a dict).
Proof.
  intros Hfit Hid Hdict l orig val Ho. unfold compressed_val.
  destruct (ZSTD_compress_usingCDict _ _ _) as [z|] eqn:Hz; [|done].
  destruct (length z + 4 <? length orig); intros [= <-]; [|done].
  cbn [payload_text]. pose proof (to_sv32_length (arg_dictId a)) as Hlen.
  rewrite length_app, decide_False by lia.
  rewrite take_app_length' by done. rewrite drop_app_length' by done.
  rewrite from_to_sv32, Hdict by done.
  by rewrite (ZSTD_roundtrip _ _ _ _ _ _ Hz (Hfit l orig Ho)).
Qed.

Lemma payload_text_more d d' raw t :
  (∀ i b, CompressionDictionary (tables d) !! i = Some b → CompressionDictionary (tables d') !! i = Some b) →
  payload_text cfg d raw = Ok t → payload_text cfg d' raw = Ok t.
Proof.
  intros Hd. destruct raw as [|[[] [] [] [] [] [] [] []] raw]; try done. cbn [payload_text].
  destruct (decide (length raw < 4)); [done|].
  destruct (CompressionDictionary (tables d) !! _) as [b|] eqn:Hb; [|done]. by rewrite (Hd _ _ Hb).
Qed.

(** C27: [dict compress] and [dict decompress] never change what is read.  With
    room for the texts in the decompressor's buffer, the store that a
    compression leaves behind has every text it had and keeps its invariant,
    even when the command fails half-way; decompressing needs no such room, and
    when it succeeds every event of the filter whose text could be read is
    stored plainly.  A newly trained dictionary leaves the readable texts
    alone. *)
Theorem dict_keeps_texts fs decomp a d0 d m :
  caches_ok decomp d → store_inv fs d m → (arg_dictId a < 2 ^ 32)%N →
  (texts_fit d → ∀ r d', dict_compress cfg clock decomp a d0 d = (r, d') →
     store_inv fs d' m ∧ ∀ l, event_text cfg d' l = event_text cfg d l) ∧
  (∀ r d', dict_decompress cfg clock decomp a d0 d = (r, d') →
     store_inv fs d' m ∧ (∀ l, event_text cfg d' l = event_text cfg d l) ∧
     (r = Ok tt → ∃ levIds, dict_levIds clock a d0 = Ok levIds ∧
        ∀ l t, l ∈ levIds → event_text cfg d l = Ok t →
          EventPayload (tables d') !! l = Some ("000"%char :: t))) ∧
  (∀ shuffle decomp0 d' i, dict_train cfg clock shuffle decomp0 a d0 d = Ok (d', i) →
     store_inv fs d' m ∧ ∀ l t, event_text cfg d l = Ok t → event_text cfg d' l = Ok t).
Proof.
  intros Hc Hinv Hid. split_and!.
  - intros Hfit r d'. unfold dict_compress.
    destruct (dict_levIds clock a d0) as [levIds|e]; [|by intros [= <- <-]].
    destruct (arg_dictId a =? 0)%N; [by intros [= <- <-]|].
    destruct (CompressionDictionary (tables d) !! arg_dictId a) as [dict|] eqn:Hdict; [|by intros [= <- <-]].
    intros Hrun. apply rewrite_payloads_ok in Hrun as [Hst _]; [|by apply compressed_faithful|done].
    split; [by eapply same_texts_inv|apply Hst].
  - intros r d'. unfold dict_decompress.
    destruct (dict_levIds clock a d0) as [levIds|e]; [|by intros [= <- <-]; split_and!].
    intros Hrun. apply rewrite_payloads_ok in Hrun as [Hst Heff]; [|apply plain_faithful|done].
    split; [by eapply same_texts_inv|]. split; [apply Hst|]. intros Hr. exists levIds. split; [done|].
    intros l t Hl Ht. by destruct (Heff Hr l t Hl Ht) as (val & [= <-] & ?).
  - intros shuffle decomp0 d' i. unfold dict_train.
    destruct (dict_levIds clock a d0) as [levIds|e]; [|done]. cbn [mbind result_bind].
    destruct (train_texts _ _ _ _) as [[c [buf sizes]]|e]; [|done]. cbn [mbind result_bind].
    destruct (ZDICT_trainFromBuffer _ _ _) as [dict|]; [|done]. intros [= Hins].
    apply insert_CompressionDictionary_tables in Hins as (Ht & Hnone & _). split.
    + eapply store_inv_agree; [..|done]; by rewrite Ht.
    + intros l t. unfold event_text. rewrite Ht. cbn [EventPayload set_CompressionDictionary].
      destruct (EventPayload (tables d) !! l) as [raw|]; [|done]. apply payload_text_more.
      rewrite Ht. cbn [CompressionDictionary set_CompressionDictionary]. intros k b Hb.
      rewrite lookup_insert_ne; [done|congruence].
Qed.
End dict.

(** ** Start-up *)

Section startup.
Context `{!Hex, !NativeU64, !GolpeKeys, !Env, !EnvAdmin, !JsonParser}.
Context (empty_object : json_from_string #"{}" = Ok (JObject [])).

(** A database without a record. *)
Definition blank (d : env) : Prop :=
  tables d = mk_tables ∅ ∅ ∅ None [] (CompressionDictionary (tables d)).

Lemma startup_blank cmd d : blank d → ∃ d' f t, dbCheck cmd d = Ok d' ∧ db_filters d' [(f, t)] ∧
  store_inv [(f, t)] d' ∅ ∧ cache_coherent (mk_cache [] 0) d' ∧
  (∀ e, wf_event e → filter_sem f e) ∧ ∀ cmd', dbCheck cmd' d' = Ok d'.
Proof.
  intros Hb. assert (Meta (tables d) = None) as HM by by rewrite Hb.
  unfold dbCheck at 1. rewrite HM. set (d1 := insert_Meta d _).
  assert (tables d1 = set_Meta (tables d) (Some (mk_meta CURR_DB_VERSION 1 1))) as Ht1
    by by apply insert_Meta_tables.
  destruct (insert_NegentropyFilter d1 #"{}") as [d' t] eqn:Hins.
  apply insert_NegentropyFilter_tables in Hins as (Ht & _ & _). rewrite Ht1, Hb in Ht.
  unfold set_NegentropyFilter, set_Meta in Ht.
  cbn [NegentropyFilter Event EventPayload trees Meta CompressionDictionary app] in Ht.
  destruct (NostrFilter_make (JObject []) MAX_U64) as [f|] eqn:Hmk; [|done].
  assert (read_filter (t, #"{}") = Ok (f, t)) as Hread.
  { unfold read_filter. cbn [fst snd]. rewrite empty_object. cbn [mbind result_bind]. by rewrite Hmk. }
  exists d', f, t. split_and!.
  + done.
  + split; rewrite Ht; [by eexists|apply NoDup_singleton|].
    cbn [NegentropyFilter mapR]. by rewrite Hread.
  + split; [|by constructor; intros l1 l2 e1 e2; rewrite lookup_empty]. split.
    * split; [by rewrite Ht, fmap_empty|]. intros l e. by rewrite lookup_empty.
    * intros l1 l2 e1 e2. by rewrite lookup_empty.
    * intros l. rewrite Ht. simpl. by rewrite !lookup_empty.
    * intros f' t' _ p. unfold tree_of. rewrite Ht. cbn. rewrite lookup_empty. simpl.
      split; [by intros ?%elem_of_empty|]. intros (l & e & He & _). by rewrite lookup_empty in He.
  + intros Hc. exfalso. unfold Meta_counter in Hc. by rewrite Ht in Hc.
  + intros e He. eapply NostrFilter_make_sem; [done|constructor|done|]. intros k v ?%not_elem_of_nil. done.
  + intros cmd'. unfold dbCheck. rewrite Ht. cbn. done.
Qed.

Lemma startup_versions cmd d s : Meta (tables d) = Some s →
  (dbCheck cmd d = Ok d ∨ ∃ e, dbCheck cmd d = Throw e) ∧
  (dbCheck cmd d = Ok d ↔ meta_endianness s = 1%N ∧
     (meta_dbVersion s = 3%N ∨ (meta_dbVersion s < 3)%N ∧ cmd ∈ [ #"export"; #"info"])).
Proof.
  intros HM. unfold dbCheck. rewrite HM. unfold CURR_DB_VERSION.
  destruct (N.eqb_spec (meta_endianness s) 1) as [He|He]; cbn [negb throw_if mbind result_bind];
    [|split; [by right; eexists|split; [done|naive_solver]]].
  destruct (bool_decide (cmd = #"export") || bool_decide (cmd = #"info")) eqn:Hcmd.
  + assert (cmd ∈ [ #"export"; #"info"]) as Hin.
    { apply orb_true_iff in Hcmd as [->%bool_decide_eq_true| ->%bool_decide_eq_true]; set_solver. }
    destruct (N.ltb_spec (meta_dbVersion s) 3) as [Hv|Hv]; cbn [andb throw_if mbind result_bind];
      [split; [by left|split; [by intros _; split; [|right]|done]]|].
    destruct (N.ltb_spec 3 (meta_dbVersion s)) as [Hw|Hw]; cbn [throw_if mbind result_bind].
    * split; [by right; eexists|]. split; [done|]. intros (_ & [Hx|[Hx _]]); lia.
    * split; [by left|]. split; [|done]. intros _. split; [done|]. left. lia.
  + assert (cmd ∉ [ #"export"; #"info"]) as Hin.
    { apply orb_false_iff in Hcmd as [?%bool_decide_eq_false ?%bool_decide_eq_false]. set_solver. }
    rewrite andb_false_r.
    destruct (N.ltb_spec (meta_dbVersion s) 3) as [Hv|Hv]; cbn [throw_if mbind result_bind].
    { split; [by right; eexists|]. split; [done|]. intros (_ & [Hx|[_ Hx]]); [lia|done]. }
    destruct (N.ltb_spec 3 (meta_dbVersion s)) as [Hw|Hw]; cbn [throw_if mbind result_bind].
    * split; [by right; eexists|]. split; [done|]. intros (_ & [Hx|[Hx _]]); lia.
    * split; [by left|]. split; [|done]. intros _. split; [done|]. left. lia.
Qed.

(** The check at start-up puts a blank database in the good order that
    everything else keeps: one tree, for the filter that every event matches,
    and no event; the check then passes for every command.  A database that has
    been set up is not touched: it passes exactly when its byte order and
    version are the expected ones, an older version only for export and info. *)
Theorem startup_check cmd d :
  (blank d → ∃ d' f t, dbCheck cmd d = Ok d' ∧ db_filters d' [(f, t)] ∧ store_inv [(f, t)] d' ∅ ∧
     cache_coherent (mk_cache [] 0) d' ∧ (∀ e, wf_event e → filter_sem f e) ∧
     ∀ cmd', dbCheck cmd' d' = Ok d') ∧
  ∀ s, Meta (tables d) = Some s →
    (dbCheck cmd d = Ok d ∨ ∃ e, dbCheck cmd d = Throw e) ∧
    (dbCheck cmd d = Ok d ↔ meta_endianness s = 1%N ∧
       (meta_dbVersion s = 3%N ∨ (meta_dbVersion s < 3)%N ∧ cmd ∈ [ #"export"; #"info"])).
Proof. split; [apply startup_blank|apply startup_versions]. Qed.
End startup.
