(* ===== verification/AdminWitnesses.v ===== *)
(** The theorems on the command-line tools and on posted events at concrete
    stores and messages. *)

From S2P Require Import Prelude Bytes Json Hex PackedEvent FilterSets Filters Config EventParse Db.
From S2P Require Import MemDb NegentropyCache EventWriter EventStore StoreTheorems Payload.
From S2P Require Import StoreHistory Subscription DBQuery DBQueryOrder DBQueryCursors DBQueryAnswer DBQueryTheorems.
From S2P Require Import StateExn Plugin RelayServer RelayIngester IngesterTheorems RelayWriter WriterTheorems.
From S2P Require Import WriterPipeline PipelineTheorems ThreadWitnesses.
From S2P Require Import ImportExport Migration HttpPost Admin AdminTheorems.

#[local] Existing Instance toy_libs.
#[local] Existing Instance toy_zstd.

(** A parser that knows the empty object and the array with it; the printer of
    [toy_libs] writes both back. *)
#[refine, local] Instance admin_json : JsonParser := {|
  json_from_string s :=
    match s with
    | c :: _ => if char_eqb c "[" then Ok (JArray [JObject []])
                else if char_eqb c "{" then Ok (JObject []) else Throw json_error
    | [] => Throw json_error
    end;
|}.
Proof.
  - intros [|c s] kvs; [done|]. destruct (char_eqb c "["); [done|].
    destruct (char_eqb c "{"); [|done]. intros [= <-]. constructor.
  - intros [|c s] e; [by intros [= <-]|]. destruct (char_eqb c "["); [done|].
    destruct (char_eqb c "{"); [done|]. by intros [= <-].
  - intros [|c s] v; [done|]. destruct (char_eqb c "["); [by intros [= <-]|].
    destruct (char_eqb c "{"); [by intros [= <-]|done].
Defined.

Lemma admin_reparsed s v : json_from_string s = Ok v → json_from_string (json_to_string v) = Ok v.
Proof.
  destruct s as [|c s]; [done|]. cbn [json_from_string admin_json].
  destruct (char_eqb c "["); [by intros [= <-]|]. destruct (char_eqb c "{"); [by intros [= <-]|done].
Qed.

(** The tables of the tools in memory. *)
Definition next_key (ks : list N) : N := N.succ (fold_right N.max 0%N ks).

Lemma next_key_fresh ks i : i ∈ ks → (i < next_key ks)%N.
Proof.
  unfold next_key. induction ks as [|k ks IH]; [by intros ?%not_elem_of_nil|].
  cbn [fold_right]. intros [->|Hi]%elem_of_cons; [lia|]. specialize (IH Hi). lia.
Qed.

#[refine, local] Instance mem_admin : @EnvAdmin native_le mem_keys mem_env := {|
  insert_Meta t r := set_Meta t (Some r);
  update_Meta t r := set_Meta t (Some r);
  insert_NegentropyFilter t v :=
    let n := next_key (NegentropyFilter t).*1 in
    (set_NegentropyFilter t (NegentropyFilter t ++ [(n, v)]), n);
  insert_CompressionDictionary t v :=
    let n := next_key (map_to_list (CompressionDictionary t)).*1 in
    (set_CompressionDictionary t (<[n := v]> (CompressionDictionary t)), n);
  fingerprint t n := [];
|}.
Proof.
  - done.
  - done.
  - intros d v d' n [= <- <-]. split_and!; [done|apply next_key_fresh|unfold next_key; lia].
  - intros d v d' n [= <- <-]. split_and!; [done| |unfold next_key; lia].
    apply eq_None_not_Some. intros [x Hx%elem_of_map_to_list%(list_elem_of_fmap_2 fst)].
    apply next_key_fresh in Hx. simpl in Hx. lia.
Defined.

(** A compressor for [toy_zstd]: it cuts the dictionary off the front. *)
#[refine, local] Instance toy_compress : ZstdCompress := {|
  ZSTD_CDict := bytes;
  ZSTD_createCDict b _ := b;
  ZSTD_compress_usingCDict cap src dict :=
    if starts_with src dict then Some (drop (length dict) src) else None;
  ZDICT_trainFromBuffer n buf sizes := Some (take (N.to_nat n) buf);
  to_sv32 := le_encode 4;
|}.
Proof.
  - intros cap n src dict level z. destruct (starts_with src dict) eqn:Hs; [|done].
    intros [= <-] Hn. cbn. apply starts_with_spec in Hs as [r ->].
    rewrite drop_app_length. by rewrite decide_True.
  - intros n. apply le_encode_length.
  - intros n Hn. apply (le_decode_encode 4). done.
Defined.

(** ** A store with two events, the second one's text compressed *)

Definition admin_events : gmap N event :=
  <[2%N := mk_sample "b" 110 1 []]> {[1%N := mk_sample "a" 100 1 []]}.

Definition admin_db : mem :=
  mk_tables (encode <$> admin_events)
    (<[2%N := "001"%char :: le_encode 4 5 ++ #"onger text}"]> {[1%N := "000"%char :: #"{a}"]})
    ∅ (Some (mk_meta 3 1 1)) [] {[5%N := #"{a l"]}.

Lemma admin_event_cases l e : admin_events !! l = Some e →
  l = 1%N ∧ e = mk_sample "a" 100 1 [] ∨ l = 2%N ∧ e = mk_sample "b" 110 1 [].
Proof.
  unfold admin_events. intros [[<- <-]|[_ [<- <-]%lookup_singleton_Some]]%lookup_insert_Some; auto.
Qed.

Lemma admin_event_ok l e : admin_events !! l = Some e → event_ok e ∧ is_u64 l.
Proof.
  intros [[-> ->]|[-> ->]]%admin_event_cases; (split; [|by vm_compute]);
    (split; [by constructor|intros v Hv; by apply not_elem_of_nil in Hv]).
Qed.

Lemma admin_repr : repr (admin_db : env) admin_events.
Proof. split; [done|]. intros l e [He Hl]%admin_event_ok. split; [done|apply He]. Qed.

Lemma admin_ids : ids_unique admin_events.
Proof.
  intros l1 l2 e1 e2 [[-> ->]|[-> ->]]%admin_event_cases [[-> ->]|[-> ->]]%admin_event_cases; done.
Qed.

Lemma admin_store_ok : store_ok admin_events.
Proof.
  constructor; intros l1 l2 e1 e2 [[-> ->]|[-> ->]]%admin_event_cases _; try by intros Ha.
  all: by intros [Ha _].
Qed.

Lemma admin_inv fs : fs = [] → store_inv fs (admin_db : env) admin_events.
Proof.
  intros ->. split; [|exact admin_store_ok]. split; [exact admin_repr|exact admin_ids| |].
  - intros l. unfold admin_db, admin_events. cbn [EventPayload tables mem_env].
    rewrite !lookup_insert_is_Some, !lookup_singleton_is_Some. done.
  - intros f t Hf. by apply not_elem_of_nil in Hf.
Qed.

Lemma admin_scan_db : scan_db (admin_db : env) admin_events.
Proof.
  split; [exact admin_repr|done|]. intros l e [[-> ->]|[-> ->]]%admin_event_cases; by vm_compute.
Qed.

Lemma admin_filters : db_filters (admin_db : env) [].
Proof. constructor; [by eexists|constructor|done]. Qed.

Lemma admin_caches : caches_ok (mk_caches ∅ ∅) (admin_db : env).
Proof. intros i dict. cbn [local_dicts global_dicts]. rewrite !lookup_empty. by intros [?|?]. Qed.

Definition admin_clock (i : nat) : N := 0%N.

Lemma admin_size : (N.of_nat (base.size admin_events) ≤ MAX_U64)%N.
Proof. by vm_compute. Qed.

Lemma admin_coherent : cache_coherent (mk_cache [] 0) (admin_db : env).
Proof. by intros [=]. Qed.

(** ** Deleting what is more than 95 seconds old *)

Definition old_args : delete_args := mk_delete_args (Some 95%N) None false.

Definition old_filter : NostrFilter :=
  match NostrFilter_make (JObject (delete_entries 200 old_args [])) MAX_U64 with
  | Ok f => f | Throw _ => filter_default end.

Lemma old_args_ok : delete_ok 200 old_args [].
Proof. split; [by intros [_ [=]]|done|done|by intros k v ?%not_elem_of_nil|by vm_compute]. Qed.

Lemma delete_exact_witness : ∃ levIds d' m',
  cmd_delete admin_clock 200 old_args (admin_db : env) (admin_db : env) = Ok (levIds, Some d') ∧
  (∀ l, l ∈ levIds ↔ ∃ e, admin_events !! l = Some e ∧ named 200 old_args [] e) ∧
  db_filters d' [] ∧ store_inv [] d' m' ∧
  (∀ l e, m' !! l = Some e ↔
     admin_events !! l = Some e ∧ ¬ (is_Some (admin_events !! l) ∧ named 200 old_args [] e)) ∧
  (∀ l, is_Some (m' !! l) →
     EventPayload (tables d') !! l = EventPayload (tables (admin_db : env)) !! l) ∧
  ∀ e v d'' n, admin_events !! getMostRecentLevId (admin_db : env) = Some e → named 200 old_args [] e →
    insert_Event d' v = Ok (d'', n) → (n ≤ getMostRecentLevId (admin_db : env))%N.
Proof.
  exact (delete_exact admin_clock 200 old_args [] old_filter [] _ _ _ _ admin_scan_db
    (grows_refl (mk_snapshot (admin_db : env) admin_events)) old_args_ok admin_size eq_refl eq_refl
    admin_filters admin_coherent (admin_inv [] eq_refl)).
Defined.

(** Only the first event goes. *)
Lemma delete_run :
  (λ r, elements r.1) <$> cmd_delete admin_clock 200 old_args (admin_db : env) (admin_db : env) = Ok [1%N].
Proof. vm_compute. reflexivity. Qed.

(** ** A new tree *)

Definition all_filter : NostrFilter :=
  match NostrFilter_make (JObject []) MAX_U64 with Ok f => f | Throw _ => filter_default end.

Lemma all_tree_filter : tree_filter #"{}" [] all_filter.
Proof. split; [done|by intros k v ?%not_elem_of_nil|done|done]. Qed.

Lemma admin_no_trees t : t ∉ (NegentropyFilter (tables (admin_db : env))).*1 →
  tree_of (tables (admin_db : env)) t = ∅.
Proof. intros _. unfold tree_of, admin_db. cbn [trees tables mem_env]. by rewrite lookup_empty. Qed.

Lemma tree_add_build_witness : ∃ d1 t, negentropy_add #"{}" (admin_db : env) = Ok (d1, t) ∧
  db_filters d1 [(all_filter, t)] ∧ store_inv [] d1 admin_events ∧
  tree_within all_filter t d1 admin_events ∧
  ∀ d2 m2, NegentropyFilter (tables d2) = NegentropyFilter (tables d1) →
    is_Some (Meta_counter (tables d2)) → scan_db d2 m2 → (N.of_nat (base.size m2) ≤ MAX_U64)%N →
    store_inv [] d2 m2 → tree_within all_filter t d2 m2 →
    ∃ d3, negentropy_build admin_clock t d2 = Ok d3 ∧ db_filters d3 [(all_filter, t)] ∧
      store_inv [(all_filter, t)] d3 m2.
Proof.
  exact (tree_add_build admin_clock admin_reparsed #"{}" [] all_filter [] (admin_db : env) admin_events
    all_tree_filter eq_refl eq_refl eq_refl admin_filters (admin_inv [] eq_refl)
    (not_elem_of_nil _) admin_no_trees).
Defined.

(** The new tree of the sample store has both events. *)
Lemma tree_run :
  ('(d, t) ← negentropy_add #"{}" (admin_db : env); d ← negentropy_build admin_clock t d;
   Ok (t, base.size (tree_of (tables d) t))) = Ok (1%N, 2).
Proof. vm_compute. reflexivity. Qed.

Lemma array_tree_fatal_witness : ∃ d1 t, negentropy_add #"[{}]" (admin_db : env) = Ok (d1, t) ∧
  ∀ d2, NegentropyFilter (tables d2) = NegentropyFilter (tables d1) →
    is_Some (Meta_counter (tables d2)) →
    ∀ c evs ls, cache_coherent c d2 →
      writeEvents c d2 evs = Throw (herr #"provided filter is not an object") ∧
      deleteEvents c d2 ls = Throw (herr #"provided filter is not an object").
Proof.
  exact (array_tree_fatal admin_reparsed #"[{}]" [JObject []] [all_filter] [] (admin_db : env)
    eq_refl eq_refl eq_refl (Nat.neq_succ_0 0) admin_filters (not_elem_of_nil _)).
Defined.

(** ** Scanning with the shortest pauses *)

Definition short_scan : scan_args := mk_scan_args 1 false #"{}".

Lemma admin_texts :
  mapR (event_text default_config (admin_db : env)) (todo admin_events MAX_U64 [all_filter] ∅) =
    Ok [ #"{a longer text}"; #"{a}"].
Proof. vm_compute. reflexivity. Qed.

Lemma empty_filter_value : Forall filter_value (filter_values (JObject [])).
Proof.
  constructor; [|done]. exists []. split_and!; [done|constructor|by intros k v ?%not_elem_of_nil].
Qed.

Lemma scan_prints_witness : ∃ n, ∀ fuel, n < fuel →
  cmd_scan admin_clock default_config fuel short_scan (admin_db : env) (mk_caches ∅ ∅) =
    Ok (printed [ #"{a longer text}"; #"{a}"]).
Proof.
  exact (scan_prints default_config admin_clock short_scan (JObject []) [all_filter] _ (admin_db : env)
    admin_events (mk_caches ∅ ∅) eq_refl empty_filter_value eq_refl admin_scan_db eq_refl admin_caches
    admin_texts eq_refl).
Defined.

(** ** Dictionaries *)

Definition recompress_args : dict_args := mk_dict_args None MAX_U64 16 5 3.

Lemma admin_texts_fit : texts_fit default_config (admin_db : env).
Proof.
  intros l t. unfold event_text. destruct (EventPayload _ !! l) as [raw|] eqn:Hraw; [|done].
  unfold admin_db in Hraw. cbn [EventPayload tables mem_env] in Hraw.
  apply lookup_insert_Some in Hraw as [[_ <-]|[_ [_ <-]%lookup_singleton_Some]];
    vm_compute; by intros [= <-].
Qed.

Lemma dict_keeps_texts_witness :
  (∀ r d', dict_compress default_config admin_clock (mk_caches ∅ ∅) recompress_args
       (admin_db : env) (admin_db : env) = (r, d') →
     store_inv [] d' admin_events ∧
     ∀ l, event_text default_config d' l = event_text default_config (admin_db : env) l) ∧
  (∀ r d', dict_decompress default_config admin_clock (mk_caches ∅ ∅) recompress_args
       (admin_db : env) (admin_db : env) = (r, d') →
     store_inv [] d' admin_events).
Proof.
  destruct (dict_keeps_texts default_config admin_clock [] (mk_caches ∅ ∅) recompress_args
    (admin_db : env) (admin_db : env) admin_events admin_caches (admin_inv [] eq_refl) eq_refl)
    as (H1' & H2' & _).
  split; [exact (H1' admin_texts_fit)|]. intros r d' Hr. exact (proj1 (H2' r d' Hr)).
Defined.

(** Decompressing makes the second record a plain one. *)
Lemma dict_run :
  EventPayload (tables (dict_decompress default_config admin_clock (mk_caches ∅ ∅) recompress_args
    (admin_db : env) (admin_db : env)).2) !! 2%N = Some ("000"%char :: #"{a longer text}").
Proof. vm_compute. reflexivity. Qed.

(** ** Copying the store *)

Definition fried_args : export_args := mk_export_args None None false true.

Lemma admin_text l e : admin_events !! l = Some e →
  ∃ j, text_ok default_config (admin_db : env) l j.
Proof.
  intros [[-> _]|[-> _]]%admin_event_cases; [exists #"{a"|exists #"{a longer text"];
    (split; [done|by apply (bool_decide_unpack (newline ∉ _))|done]).
Qed.

Lemma admin_exportable : exportable default_config (admin_db : env) admin_events fried_args.
Proof.
  split; [exact admin_repr|exact admin_ids|exact admin_store_ok| |exact admin_text|done|done|done].
  intros l e He. by apply (admin_event_ok l).
Qed.

Lemma from_to_hex_default b : hex_decode (to_hex b) = Ok b.
Proof. apply hex_decode_encode. Qed.

Lemma export_import_roundtrip_witness :
  ∃ s' inputs, cmd_export default_config true fried_args (admin_db : env) (mk_exporter (mk_caches ∅ ∅) []) =
      (Ok tt, s') ∧
    (∀ l e, (l, e) ∈ exported (admin_db : env) admin_events fried_args ↔
       admin_events !! l = Some e ∧ in_window fried_args (ev_created_at e)) ∧
    NoDup (exported (admin_db : env) admin_events fried_args).*1 ∧
    StronglySorted (export_order fried_args) (exported (admin_db : env) admin_events fried_args) ∧
    Forall2 (read_back default_config (admin_db : env) fried_args)
      (exported (admin_db : env) admin_events fried_args) inputs ∧
    cmd_import hex_decode true true (ex_out s') = Ok (write_calls inputs ++ [Call_flush]).
Proof.
  apply (export_import_roundtrip default_config hex_decode from_to_hex_default (admin_db : env)
    admin_events admin_repr fried_args admin_text); [done|done|exact admin_caches|done].
Defined.

Lemma migration_preserves_store_witness :
  ∃ s' calls, cmd_export default_config true fried_args (admin_db : env) (mk_exporter (mk_caches ∅ ∅) []) =
      (Ok tt, s') ∧
    cmd_import hex_decode true true (ex_out s') = Ok calls ∧
    ∀ fs c d s, importing default_config sort_etw 1 true false fs calls (c, d, s) → writer s = W_done →
      ∃ m, store_inv fs d m ∧
        (∀ e, stored m e ↔ ∃ l, admin_events !! l = Some e ∧ in_window fried_args (ev_created_at e)) ∧
        ∀ l l0 e, m !! l = Some e → admin_events !! l0 = Some e →
          event_text default_config d l = event_text default_config (admin_db : env) l0.
Proof.
  exact (migration_preserves_store default_config hex_decode sort_etw 1 true false from_to_hex_default
    thread_hex_errors sort_etw_sorts eq_refl (admin_db : env) admin_events fried_args (mk_caches ∅ ∅)
    admin_exportable eq_refl admin_caches).
Defined.

(** The calls of the import: two writes, two waits and the flush. *)
Lemma migration_run :
  let '(_, s') := cmd_export default_config true fried_args (admin_db : env) (mk_exporter (mk_caches ∅ ∅) []) in
  length <$> cmd_import hex_decode true true (ex_out s') = Ok 5.
Proof. vm_compute. reflexivity. Qed.

(** ** A posted event *)

#[local] Existing Instance thread_os.

(** A parser that knows an event and the message with it. *)
#[refine, local] Instance post_json : JsonParser := {|
  json_from_string s :=
    match s with
    | c :: _ => if char_eqb c "[" then Ok (wrapped_event sample_json)
                else if char_eqb c "{" then Ok sample_json else Throw json_error
    | [] => Throw json_error
    end;
|}.
Proof.
  - intros [|c s] kvs; [done|]. destruct (char_eqb c "["); [done|].
    destruct (char_eqb c "{"); [|done]. intros [= <-]. by apply (bool_decide_unpack (NoDup _)).
  - intros [|c s] e; [by intros [= <-]|]. destruct (char_eqb c "["); [done|].
    destruct (char_eqb c "{"); [done|]. by intros [= <-].
  - intros [|c s] v; [done|]. destruct (char_eqb c "["); [by intros [= <-]; vm_compute|].
    destruct (char_eqb c "{"); [by intros [= <-]; vm_compute|done].
Defined.

Lemma post_array vs : starts_with (json_to_string (JArray vs)) #"[" = true.
Proof. apply starts_with_spec. by eexists. Qed.

Lemma post_wrapped s v : json_from_string s = Ok v → is_object v = true →
  json_from_string (json_to_string (wrapped_event v)) = Ok (wrapped_event v).
Proof.
  destruct s as [|c s]; [done|]. cbn [json_from_string post_json].
  destruct (char_eqb c "["); [by intros [= <-]|]. destruct (char_eqb c "{"); [by intros [= <-]|done].
Qed.

Definition posted : bytes * MsgIngester :=
  match post_event thread_what 9%N #"{event}" with Ok (inr r) => r | _ => ([], Ingester_CloseConn 0) end.

Lemma posted_eq : post_event thread_what 9%N #"{event}" = Ok (inr posted).
Proof. reflexivity. Qed.

Lemma posted_alone msg : Ingester_ClientMessage msg ∈ ([] : list MsgIngester) ++ [Ingester_CloseConn 5] →
  cm_resultPromise msg ≠ Some 9%N.
Proof. by intros Hm%list_elem_of_singleton. Qed.

Lemma http_post_outcome_witness : ∃ v s' cs, json_from_string #"{event}" = Ok v ∧
  ingester_batch default_config None thread_now thread_what hex_decode (empty_db : env)
    ([posted.2; Ingester_CloseConn 5]) ingester_init = (Ok tt, s') ∧
  sent s' = sent ingester_init ++ cs ∧
  ((∃ r, results 9%N cs = [r] ∧ carriers 9%N (to_writer cs) = []) ∨
   (results 9%N cs = [] ∧ ∃ ae e, carriers 9%N (to_writer cs) = [ae] ∧
      denotes default_config thread_now v e (ae_jsonStr ae))).
Proof.
  destruct (http_post_outcome default_config None thread_now thread_what hex_decode (empty_db : env) ∅
    empty_db_repr default_config_ok thread_now_u64 thread_hex_errors hex_decode_caught
    post_array post_wrapped sort_etw Ok sort_etw_sorts identity_commits
    9%N #"{event}" posted.1 posted.2 [] [Ingester_CloseConn 5] ingester_init posted_eq posted_alone)
    as (v & s' & cs & Hv & Hrun & Hc & Hcase & _).
  exists v, s', cs. split; [exact Hv|]. split; [exact Hrun|]. split; [exact Hc|].
  destruct Hcase as [(r & Hr & Hk & _)|(Hr & ae & e & Hk & Hd & _)]; [left; by exists r|right].
  split; [exact Hr|]. exists ae, e. by split.
Defined.
